(* ===== verification/_CoqProject ===== *)
-Q . S2P
Prelude.v
Bytes.v
Blockstate.v
IO.v
Writing.v
Reading.v
Roundtrip.v
Decimal.v
Floats.v
Errors.v
Temporal.v
MonetTypes.v
ReplyBuf.v
RowSet.v
Replies.v
ReplyProgress.v
Convert.v
Delayed.v
Parms.v
Validate.v
Url.v
ServerSock.v
Login.v
Tls.v
Upload.v
Producer.v
Conn.v
ConnInvariant.v
Sharing.v
Watchdog.v
Cursor.v
Exchange.v
Established.v
CursorSafe.v
Responses.v
Fetch.v
Binary.v
Closing.v
Execute.v
Session.v
Metadata.v
Stack.v
