(* ===== verification/Prelude.v ===== *)
(** * A verification of monetdb-rust

    [monetdb-rust] is a client library for the MonetDB database server.  A program
    describes a connection with parameters or a URL, logs in over a Unix, TCP or
    TLS socket, and then uses cursors to send SQL and to read the replies; several
    threads may share one connection.  This development models that path from
    the bytes on the socket up to the methods of a cursor, and proves what makes
    each layer correct and that the layers fit together.

    ** Parts, files and sources (all paths under src/src/)

    - [Prelude]: outcomes of Rust computations ([Ok], [Err], [Panic], and [NoFuel]
      for a loop that was given too small a bound), the state and error monad
      [comp] of methods that take [&mut self], triples and preserved properties,
      tactics and hints.  [Bytes]: bytes, integers of a width with checked and
      saturating arithmetic, decimal text, UTF-8, slices and searching.
    - [IO]: [Read] and [Write] as type classes; their laws say what a stream may
      do (partial transfers, interruptions, errors), and [Wire] is a concrete
      stream for the witnesses.  [Blockstate]: framing/blockstate.rs, block headers
      and the state machine of a message.  [Writing]: framing/writing.rs.
      [Reading]: framing/reading.rs.  [Roundtrip]: the two together.
    - [Decimal], [Temporal], [Convert]: convert/raw_decimal.rs,
      convert/raw_temporal.rs and convert/mod.rs, the values of fields.
      [Floats]: the standard library's reading of floating point texts, on which
      two getters rest.
      [MonetTypes]: monettypes.rs.  [Errors]: the error types of cursor/mod.rs and
      cursor/replies.rs; a formatted message is the list of its parts.
    - [ReplyBuf], [RowSet], [Replies], [ReplyProgress]: cursor/replies.rs and
      cursor/rowset.rs: the buffer of a response, rows and fields, the headers of
      replies and column metadata, and stepping from reply to reply.
    - [Parms], [Validate], [Url]: parms/mod.rs, parms/parameters.rs and
      parms/urlparser.rs: the parameter table, its validation and the URL form.
    - [ServerSock], [Login]: framing/mod.rs, framing/connecting.rs and
      util/hash_algorithms.rs: the buffered socket with its timeouts, the
      challenge and its response, redirects, and the attempts of a connection.
      [Tls]: framing/tls/rustls.rs, the configuration of a protected stream.
    - [Delayed]: cursor/delayed.rs, commands whose replies are awaited later.
      [Upload]: cursor/upload.rs, streaming client files to the server.
      [Producer]: the producers of files, as trees of what they do with the sink.
    - [Conn], [ConnInvariant]: conn.rs, the state that threads share, the watchdog,
      and [run_locked_with_timeouts], which lends the socket to one operation.
      [Watchdog]: operations that run past their deadline.  [Sharing]: the outcome
      of an operation among other threads that behave: what they hand over is sent
      along, and what comes too late is left for the next operation ([agenda]).
      [Established]: [Connection::new] and the dialogue of a login.
    - [Cursor]: cursor/mod.rs and [command_with_uploads] of cursor/upload.rs.
      [Responses]: what the server writes for each kind of reply, which results it
      keeps and which errors it reports, as data of its own, with the proof that the
      parser reads it so; the theorems on statements and on closing are stated
      against it, and [next_row_reads] shows that a cursor always stands somewhere
      in its response.  [Exchange], [Fetch], [Binary], [Execute]: commands, windows of rows in text
      and in binary form, and statements, over a connection that other threads use
      for clean-up work while the watchdog keeps an eye on the clock.
      [Closing]: discarding replies, closing and dropping a cursor.
      [CursorSafe]: cursors on arbitrary bytes and under every schedule.
      [Session]: the methods of [Connection].  [Metadata]: loading what the
      server says about itself.
    - [Stack]: the buffered socket of [ServerSock], with its [start_operation], as
      the socket of a cursor.

    ** How the parts fit together

    A cursor's state is a reply parser and its window size; its operations run in
    [comp (Cursor * World S) CursorError], where [World] is the shared connection
    with the steps that other threads take between two accesses to it ([react],
    [interfere]).  An operation [f] gets the session state, the queue of delayed
    commands and the socket.  The socket type [S] is a parameter with the laws of
    [IO] in both directions and a way to take timeouts ([keeps_stream]);
    [ServerSock] and [Stack] show that the buffered socket of the code is such a
    socket.

    ** What is proved

    - Framing: what is written is read back, messages are cut into blocks as the
      protocol says, reading stops at the last byte of a message and ends on every
      stream, and the buffer refines a list of messages
      ([write_read_roundtrip], [to_limited_sound], [to_limited_complete],
      [to_limited_returns], [mapibuf_refines], [server_sock_receives]).  Commands work
      over the buffered socket with its timeouts ([command_over_socket]).
    - Replies: rows and result-set headers are read back as they were sent; on
      arbitrary bytes nothing panics and the invariants are kept; stepping through
      a response ends ([advance_reads_row], [advance_safe], [data_reply_parsed],
      [next_reply_safe], [exhaust_terminates], [server_error_lines],
      [convert_backslashes_correct]).
    - Values: decimals, floating point numbers, integers, intervals and times are
      read exactly or correctly rounded, and refused otherwise
      ([dec_from_str_iff], [at_scale_exact], [extract_float_nearest],
      [extract_int_exact], [extract_duration_exact], [timestamptz_exact]).
    - Configuration: the parameter table refines a map, validation accepts exactly
      what the rules say (but for the part of rule 7 that it does not check), and a
      URL is applied with everything that it means ([url_means]) or not at all
      ([parameters_refine], [typed_reads_succeed], [validate_decides],
      [validated_tls_policy], [validated_in_range], [apply_url_atomic],
      [url_query_roundtrip], [url_without_credentials_hides]).
    - Login: a server that conducts the login dialogue, with or without proxies,
      gives a connection with the session that was asked for and a stream in step
      ([connection_established]); the settings are conveyed once
      ([handshake_conveys_settings], [challenge_parsed],
      [schema_command_quoted]); TLS is never dropped and is configured as the
      parameters ask ([tls_never_downgraded], [tls_follows_parameters]);
      time-outs are respected ([limit_sound]).
    - Sharing: in every interleaving of their steps the offered socket is intact, a failure is
      final, a cancellation interrupts and shuts the socket down, a deadline
      interrupts, and queued clean-up work is
      handed over once ([offered_socket_sound], [failure_is_final],
      [cancel_interrupts], [deadline_interrupts], [cleanup_handed_over]).
    - Cursors: while other threads may hand over clean-up work, and nobody cancels,
      closes or is overdue ([undisturbed]), a command gets its own reply
      ([command_gets_own_reply]); statements run with the files that the server asks
      for, after the results of the statements before are released
      ([statements_executed],
      [write_fragment_framing], [take_file_request_exact]); errors are reported
      and leave the connection usable, and so are files that the producer refuses
      ([error_reply_reported], [refused_upload_reported]); every row of a result
      is delivered once, across all windows ([rows_delivered]), and binary windows
      are handed out untouched ([binary_window_fetched]); closing or dropping a
      cursor releases each result of which the server keeps rows ([kept])
      ([closing_releases_results]); the metadata of the server is loaded once and
      is what its rows say ([metadata_loaded]); the cached autocommit mode follows
      the server ([autocommit_follows_server]); and on arbitrary bytes, with any
      producers of files and under every schedule, the methods keep the invariant
      of the cursor and do not panic on their own ([cursor_safe]).

    Some theorems state where the code does less than it means to:
    [exhaust_never_ends] (unread rows of EXPLAIN are not skipped),
    [quoted_hash_refused], [dec_eq_not_transitive], [url_forgets_localhost] and
    [table_without_schema_accepted].

    ** Bounds and fuel

    A loop that is not structural takes a bound and gives [NoFuel] when it is used
    up.  Theorems that end in [Ok] therefore also say that the loop ends; their
    hypotheses ask for a bound above the bytes and interruptions still to come
    ([effort], [wpatience]) and the length of what is sent, which is enough since
    each round transfers a byte or uses up an interruption.  Lengths are [nat],
    values of a width are [Z]; a buffer is shorter than 2^63 bytes, as in Rust.

    ** Parameters

    The operating system's sockets and clock, the TLS library, hash functions, hex
    coding, the [uuid] and decimal crates, the [bstr] line iterator, the [url]
    crate's parser, the local time zone, the producer of uploads and the rendering of errors are parameters; what
    is assumed of them is stated as a class or a hypothesis with a witness.

    ** Not modelled

    What rustls does behind its interface, our_logger.rs, methods that only return
    a field or forward their arguments, [Debug] output, capacities of vectors and
    failing allocations, tests and examples.  The exponent of a floating point
    text is exact here; the standard library saturates it far beyond every
    format.  The shared state is sequentially consistent;
    weaker memory orderings are not modelled.  [try_queue_closes],
    [try_queue_deallocate] and [close_connection] take the lock and use it in one
    step: they meet a running operation, which holds it, and put their work aside,
    but they do not meet each other half way.  An operation that is cancelled, closed
    or overdue shuts the connection down; the theorems on cursors say what the
    others do, and those on sharing what such an operation does.  The socket and the
    connection each have a clock of their own; a deadline is met when the clock of
    the socket stays before it ([timely]). *)

From Stdlib Require Import ZArith Lia.
From Stdlib Require Export Strings.Byte Strings.String.
From stdpp Require Export base list numbers option strings.
From stdpp Require Import decidable.

(** ** Outcomes of a Rust computation

    [Ok] and [Err] are Rust's [Result]; [Panic] is a failed [assert!], an
    [unwrap] on the wrong variant, a slice index out of range or an arithmetic
    overflow; [NoFuel] is the value of a modelled loop that was given too small
    a bound, so that a theorem that ends in [Ok] also says that the loop ends. *)

Inductive res (E A : Type) : Type :=
| Ok (a : A)
| Err (e : E)
| Panic
| NoFuel.
Arguments Ok {E A} a.
Arguments Err {E A} e.
Arguments Panic {E A}.
Arguments NoFuel {E A}.

Definition res_bind {E A B} (r : res E A) (k : A -> res E B) : res E B :=
  match r with
  | Ok a => k a
  | Err e => Err e
  | Panic => Panic
  | NoFuel => NoFuel
  end.

Definition res_map_err {E F A} (f : E -> F) (r : res E A) : res F A :=
  match r with
  | Ok a => Ok a
  | Err e => Err (f e)
  | Panic => Panic
  | NoFuel => NoFuel
  end.

(** [Option::ok_or] followed by the [?] operator. *)
Definition ok_or {E A} (o : option A) (e : E) : res E A :=
  match o with
  | Some a => Ok a
  | None => Err e
  end.

(** [assert!]. *)
Definition rassert {E} (b : bool) : res E unit :=
  if b then Ok tt else Panic.

(** A computation that returns to its caller, with a value or an error. *)
Definition returns {E A} (r : res E A) : Prop :=
  match r with
  | Ok _ | Err _ => True
  | Panic | NoFuel => False
  end.

(** ** A state and error monad for methods that take [&mut self]

    The state survives an error, as a mutated Rust object does. *)

Definition comp (S E A : Type) : Type := S -> res E A * S.

Definition sret {S E A} (a : A) : comp S E A := fun s => (Ok a, s).
Definition sfail {S E A} (e : E) : comp S E A := fun s => (Err e, s).
Definition spanic {S E A} : comp S E A := fun s => (Panic, s).
Definition sget {S E} : comp S E S := fun s => (Ok s, s).
Definition sput {S E} (s : S) : comp S E unit := fun _ => (Ok tt, s).
Definition slift {S E A} (r : res E A) : comp S E A := fun s => (r, s).

Definition sbind {S E A B} (m : comp S E A) (k : A -> comp S E B) : comp S E B :=
  fun s =>
    match m s with
    | (Ok a, s') => k a s'
    | (Err e, s') => (Err e, s')
    | (Panic, s') => (Panic, s')
    | (NoFuel, s') => (NoFuel, s')
    end.

Declare Scope rust_scope.
Delimit Scope rust_scope with rust.

Notation "'let?' x := e 'in' k" := (res_bind e (fun x => k))
  (at level 10, x pattern at level 99, e at level 200, k at level 200) : rust_scope.
Notation "'do?' x := e 'in' k" := (sbind e (fun x => k))
  (at level 10, x pattern at level 99, e at level 200, k at level 200) : rust_scope.
Notation "'do!' e 'in' k" := (sbind e (fun _ => k))
  (at level 10, e at level 200, k at level 200) : rust_scope.
Open Scope rust_scope.

Section Outcomes.
Context {E A B : Type}.

Lemma res_bind_ok (r : res E A) (k : A -> res E B) b :
  res_bind r k = Ok b <-> exists a, r = Ok a /\ k a = Ok b.
Proof. destruct r; simpl; naive_solver. Qed.

Lemma res_bind_err (r : res E A) (k : A -> res E B) e :
  res_bind r k = Err e <-> r = Err e \/ exists a, r = Ok a /\ k a = Err e.
Proof. destruct r; simpl; naive_solver. Qed.

Lemma returns_bind (r : res E A) (k : A -> res E B) :
  returns r -> (forall a, r = Ok a -> returns (k a)) -> returns (res_bind r k).
Proof. destruct r; simpl; naive_solver. Qed.

Lemma ok_or_ok (o : option A) (e : E) a : ok_or o e = Ok a <-> o = Some a.
Proof. destruct o; simpl; naive_solver. Qed.

Lemma rassert_ok b u : @rassert E b = Ok u <-> b = true.
Proof. destruct b, u; simpl; naive_solver. Qed.

Lemma sbind_ok {S} (m : comp S E A) (k : A -> comp S E B) s b s' :
  sbind m k s = (Ok b, s') <-> exists a s1, m s = (Ok a, s1) /\ k a s1 = (Ok b, s').
Proof. unfold sbind. destruct (m s) as [[] ?]; naive_solver. Qed.

Lemma sbind_run {S} (m : comp S E A) (k : A -> comp S E B) s a s1 :
  m s = (Ok a, s1) -> sbind m k s = k a s1.
Proof. unfold sbind. by intros ->. Qed.

Lemma sret_ok {S} (a a' : A) (s s' : S) :
  @sret S E A a s = (Ok a', s') <-> a = a' /\ s = s'.
Proof. unfold sret. naive_solver. Qed.

Lemma sbind_err {S} (m : comp S E A) (k : A -> comp S E B) s e s' :
  sbind m k s = (Err e, s') <->
  m s = (Err e, s') \/ exists a s1, m s = (Ok a, s1) /\ k a s1 = (Err e, s').
Proof. unfold sbind. destruct (m s) as [[] ?]; naive_solver. Qed.

Lemma returns_sbind {S} (m : comp S E A) (k : A -> comp S E B) s :
  returns (m s).1 ->
  (forall a s', m s = (Ok a, s') -> returns (k a s').1) ->
  returns (sbind m k s).1.
Proof. unfold sbind. destruct (m s) as [[] ?]; simpl; naive_solver. Qed.

End Outcomes.

(** ** Specifications of stateful computations

    From a state with [P], a value comes with a state that satisfies [Q], an
    error with one that satisfies [R], and unwinding with one that satisfies
    [U]; nothing is said of a computation that does not return. *)

Definition triple {S E A} (P : S -> Prop) (m : comp S E A)
    (Q : A -> S -> Prop) (R : E -> S -> Prop) (U : S -> Prop) : Prop :=
  forall s, P s ->
    match m s with
    | (Ok a, s') => Q a s'
    | (Err e, s') => R e s'
    | (Panic, s') => U s'
    | (NoFuel, _) => True
    end.

Section Triples.
Context {S E A B : Type}.

Lemma triple_bind (P : S -> Prop) (m : comp S E A) (k : A -> comp S E B) M Q R U :
  triple P m M R U -> (forall a, triple (M a) (k a) Q R U) -> triple P (sbind m k) Q R U.
Proof.
  intros Hm Hk s Hs. specialize (Hm s Hs). unfold sbind.
  destruct (m s) as [[a|e| |] s']; try done. exact (Hk a s' Hm).
Qed.

Lemma triple_pre (P P' : S -> Prop) (m : comp S E A) Q R U :
  (forall s, P s -> P' s) -> triple P' m Q R U -> triple P m Q R U.
Proof. intros HP Hm s Hs. exact (Hm s (HP s Hs)). Qed.

Lemma triple_ret (P : S -> Prop) (a : A) (Q : A -> S -> Prop) (R : E -> S -> Prop) U :
  (forall s, P s -> Q a s) -> triple P (sret a) Q R U.
Proof. intros HP s Hs. exact (HP s Hs). Qed.

Lemma triple_fail (P : S -> Prop) (e : E) (Q : A -> S -> Prop) (R : E -> S -> Prop) U :
  (forall s, P s -> R e s) -> triple P (sfail e) Q R U.
Proof. intros HP s Hs. exact (HP s Hs). Qed.

Lemma triple_if (P : S -> Prop) (b : bool) (m n : comp S E A) Q R U :
  (b = true -> triple P m Q R U) -> (b = false -> triple P n Q R U) ->
  triple P (if b then m else n) Q R U.
Proof. destruct b; auto. Qed.

End Triples.

(** A computation that preserves [J], however it ends. *)
Definition preserves {S E A} (J : S -> Prop) (m : comp S E A) : Prop :=
  forall s, J s -> J (m s).2.

Section Preserves.
Context {S E A B : Type} (J : S -> Prop).

Lemma preserves_bind (m : comp S E A) (k : A -> comp S E B) :
  preserves J m -> (forall a, preserves J (k a)) -> preserves J (sbind m k).
Proof.
  intros Hm Hk s Hs. specialize (Hm s Hs). unfold sbind.
  destruct (m s) as [[a|e| |] s']; try done. by apply Hk.
Qed.

Lemma preserves_ret (a : A) : preserves J (@sret S E A a).
Proof. by intros s. Qed.
Lemma preserves_fail (e : E) : preserves J (@sfail S E A e).
Proof. by intros s. Qed.
Lemma preserves_lift (r : res E A) : preserves J (slift r).
Proof. by intros s. Qed.
Lemma preserves_get : preserves J (@sget S E).
Proof. by intros s. Qed.
Lemma preserves_if (b : bool) (m n : comp S E A) :
  preserves J m -> preserves J n -> preserves J (if b then m else n).
Proof. by destruct b. Qed.
Lemma preserves_decide P `{Decision P} (m n : comp S E A) :
  preserves J m -> preserves J n -> preserves J (if decide P then m else n).
Proof. by destruct (decide P). Qed.

End Preserves.

Create HintDb rust.
#[export] Hint Resolve preserves_bind preserves_ret preserves_fail preserves_lift preserves_get
  preserves_if preserves_decide : rust.
#[export] Hint Extern 1 (returns (Ok _)) => exact I : rust.
#[export] Hint Extern 1 (returns (Err _)) => exact I : rust.

(** Take apart every hypothesis that says that a sequence of [?] succeeded. *)
Ltac res_step :=
  match goal with
  | H : res_bind _ _ = Ok _ |- _ =>
      apply res_bind_ok in H; destruct H as (? & ? & H)
  | H : ok_or _ _ = Ok _ |- _ => apply ok_or_ok in H
  | H : rassert _ = Ok _ |- _ => apply rassert_ok in H
  | H : sbind _ _ _ = (Ok _, _) |- _ =>
      apply sbind_ok in H; destruct H as (? & ? & ? & H)
  | H : sret _ _ = (_, _) |- _ => unfold sret in H; simplify_eq
  | H : sfail _ _ = (_, _) |- _ => unfold sfail in H; simplify_eq
  | H : spanic _ = (_, _) |- _ => unfold spanic in H; simplify_eq
  | H : sget _ = (_, _) |- _ => unfold sget in H; simplify_eq
  | H : sput _ _ = (_, _) |- _ => unfold sput in H; simplify_eq
  | H : slift _ _ = (_, _) |- _ => unfold slift in H; simplify_eq
  | H : Ok _ = Ok _ |- _ => injection H as H; subst
  | H : Ok _ = Err _ |- _ => discriminate H
  | H : Err _ = Ok _ |- _ => discriminate H
  | H : Panic = Ok _ |- _ => discriminate H
  | H : NoFuel = Ok _ |- _ => discriminate H
  | H : Panic = Err _ |- _ => discriminate H
  | H : NoFuel = Err _ |- _ => discriminate H
  end.
Ltac res_inv := repeat res_step.
