(* ===== verification/Bytes.v ===== *)
(** * Bytes, machine integers and text, as the Rust standard library has them

    Bytes are [Byte.byte], so that a byte is in range by its type; [b2z] and
    [z2b] convert to and from [Z], where the arithmetic is done.  A Rust [str]
    is the list of its UTF-8 bytes, with [utf8_valid] for [str::from_utf8].
    The file also has the slice functions the sources use ([strip_prefix],
    [memchr], [memmem::find], [split], [trim_ascii]), [FromStr] and [Display]
    of the integer types, and the lemmas about them that the components share. *)

From Stdlib Require Import ZArith Lia.
From S2P Require Import Prelude.

Open Scope Z_scope.

Notation bytes := (list byte).

#[global] Instance byte_eq_decision : EqDecision byte := Byte.byte_eq_dec.

(** The bytes of an ASCII string literal. *)
Definition bs (s : string) : bytes := list_byte_of_string s.

Definition b2z (b : byte) : Z := Z.of_N (Byte.to_N b).
Definition z2b (z : Z) : byte :=
  match Byte.of_N (Z.to_N (z mod 256)) with
  | Some b => b
  | None => x00
  end.

(** ** Machine integers *)

Definition wrap (bits z : Z) : Z := z mod 2 ^ bits.

Record int_type := IntType { ty_min : Z; ty_max : Z }.

Definition i8 := IntType (- 2 ^ 7) (2 ^ 7 - 1).
Definition u8 := IntType 0 (2 ^ 8 - 1).
Definition i16 := IntType (- 2 ^ 15) (2 ^ 15 - 1).
Definition u16 := IntType 0 (2 ^ 16 - 1).
Definition i32 := IntType (- 2 ^ 31) (2 ^ 31 - 1).
Definition u32 := IntType 0 (2 ^ 32 - 1).
Definition i64 := IntType (- 2 ^ 63) (2 ^ 63 - 1).
Definition u64 := IntType 0 (2 ^ 64 - 1).
Definition i128 := IntType (- 2 ^ 127) (2 ^ 127 - 1).
Definition u128 := IntType 0 (2 ^ 128 - 1).
(** The sources are modelled for a target with 64-bit pointers. *)
Definition usize := u64.

Definition in_type (t : int_type) (z : Z) : bool :=
  (ty_min t <=? z) && (z <=? ty_max t).

(** [T::try_from], [checked_add], [checked_sub], [checked_mul]. *)
Definition checked (t : int_type) (z : Z) : option Z :=
  if in_type t z then Some z else None.

(** [saturating_add], [saturating_mul] on an unsigned type. *)
Definition saturate (t : int_type) (z : Z) : Z := Z.min z (ty_max t).

(** ** Slices *)

(** The bytes of the range [i..j]. *)
Definition slice {A} (i j : nat) (l : list A) : list A := take (j - i) (drop i l).

Fixpoint strip_prefix (p l : bytes) : option bytes :=
  match p, l with
  | [], _ => Some l
  | c :: p', d :: l' => if decide (c = d) then strip_prefix p' l' else None
  | _ :: _, [] => None
  end.

Definition starts_with (p l : bytes) : bool :=
  match strip_prefix p l with Some _ => true | None => false end.

Definition strip_suffix (p l : bytes) : option bytes :=
  reverse <$> strip_prefix (reverse p) (reverse l).

Definition ends_with (p l : bytes) : bool :=
  match strip_suffix p l with Some _ => true | None => false end.

(** [str::is_empty]. *)
Definition is_empty (s : bytes) : bool := bool_decide (s = []).

(** [memchr]: the position of the first byte that satisfies [p]. *)
Fixpoint find_byte (p : byte -> bool) (l : bytes) : option nat :=
  match l with
  | [] => None
  | c :: l' => if p c then Some O else S <$> find_byte p l'
  end.

Definition memchr (c : byte) : bytes -> option nat :=
  find_byte (fun d => bool_decide (d = c)).

(** [memmem::find]: the position of the first occurrence of [needle]. *)
Fixpoint memmem (needle l : bytes) : option nat :=
  if starts_with needle l then Some O
  else match l with
       | [] => None
       | _ :: l' => S <$> memmem needle l'
       end.

(** [slice::split]: the pieces between the separators, at least one. *)
Fixpoint split_by (p : byte -> bool) (l : bytes) : list bytes :=
  match l with
  | [] => [[]]
  | c :: l' =>
      if p c then [] :: split_by p l'
      else match split_by p l' with
           | [] => [[c]]
           | piece :: rest => (c :: piece) :: rest
           end
  end.

Definition split_on (c : byte) : bytes -> list bytes :=
  split_by (fun d => bool_decide (d = c)).

(** [str::split_once] with a pattern of one or more bytes. *)
Definition split_once (pat l : bytes) : option (bytes * bytes) :=
  match memmem pat l with
  | Some i => Some (take i l, drop (i + length pat) l)
  | None => None
  end.

(** ** ASCII classes *)

Definition between (lo hi : Z) (b : byte) : bool :=
  (lo <=? b2z b) && (b2z b <=? hi).

Definition is_digit : byte -> bool := between 48 57.
Definition is_lower : byte -> bool := between 97 122.
Definition is_upper : byte -> bool := between 65 90.
Definition is_alnum (b : byte) : bool := is_digit b || is_lower b || is_upper b.
Definition is_ascii (b : byte) : bool := b2z b <? 128.

(** [u8::is_ascii_whitespace]: space, tab, line feed, form feed, return. *)
Definition is_space (b : byte) : bool :=
  bool_decide (b ∈ [x20; x09; x0a; x0c; x0d]).

Definition to_lower (b : byte) : byte := if is_upper b then z2b (b2z b + 32) else b.

Definition eq_ignore_case (a b : bytes) : bool :=
  bool_decide (to_lower <$> a = to_lower <$> b).

Fixpoint trim_start (p : byte -> bool) (l : bytes) : bytes :=
  match l with
  | c :: l' => if p c then trim_start p l' else l
  | [] => []
  end.

Definition trim_end (p : byte -> bool) (l : bytes) : bytes :=
  reverse (trim_start p (reverse l)).

Definition trim_ascii (l : bytes) : bytes := trim_end is_space (trim_start is_space l).

(** ** Decimal numbers *)

Definition digit_val (b : byte) : Z := b2z b - 48.
Definition digit_byte (d : Z) : byte := z2b (48 + d).

Definition dec_value (l : bytes) : Z :=
  fold_left (fun acc b => 10 * acc + digit_val b) l 0.

(** [rest] does not continue a run of digits. *)
Definition no_digit (rest : bytes) : bool :=
  match rest with [] => true | c :: _ => negb (is_digit c) end.

(** [FromStr] of an integer type: an optional sign, then one or more digits. *)
Definition parse_int (t : int_type) (s : bytes) : option Z :=
  let '(neg, digits) :=
    match s with
    | x2b :: rest => (false, rest)
    | x2d :: rest => if ty_min t <? 0 then (true, rest) else (false, s)
    | _ => (false, s)
    end in
  if bool_decide (digits = []) || negb (forallb is_digit digits) then None
  else checked t (if neg then - dec_value digits else dec_value digits).

(** [Display] of an integer type. *)
Fixpoint print_dec_go (fuel : nat) (n : Z) : bytes :=
  match fuel with
  | O => []
  | S fuel' =>
      if n <? 10 then [digit_byte n]
      else print_dec_go fuel' (n / 10) ++ [digit_byte (n mod 10)]
  end.

Definition print_dec (n : Z) : bytes := print_dec_go (S (Z.to_nat (Z.log2 n))) n.

Definition print_int (z : Z) : bytes :=
  if z <? 0 then x2d :: print_dec (- z) else print_dec z.

(** ** UTF-8 (the table of [core::str::from_utf8]) *)

Definition is_cont : byte -> bool := between 128 191.

Definition utf8_second3 (v : Z) (b : byte) : bool :=
  if v =? 224 then between 160 191 b
  else if v =? 237 then between 128 159 b
  else is_cont b.

Definition utf8_second4 (v : Z) (b : byte) : bool :=
  if v =? 240 then between 144 191 b
  else if v =? 244 then between 128 143 b
  else is_cont b.

Fixpoint utf8_valid (l : bytes) : bool :=
  match l with
  | [] => true
  | b0 :: l1 =>
      let v := b2z b0 in
      if v <? 128 then utf8_valid l1
      else if between 194 223 b0 then
        match l1 with
        | b1 :: l2 => is_cont b1 && utf8_valid l2
        | [] => false
        end
      else if between 224 239 b0 then
        match l1 with
        | b1 :: b2 :: l3 => utf8_second3 v b1 && is_cont b2 && utf8_valid l3
        | _ => false
        end
      else if between 240 244 b0 then
        match l1 with
        | b1 :: b2 :: b3 :: l4 =>
            utf8_second4 v b1 && is_cont b2 && is_cont b3 && utf8_valid l4
        | _ => false
        end
      else false
  end.

(** ** Lemmas: bytes and integers *)

Lemma b2z_range b : 0 <= b2z b < 256.
Proof.
  unfold b2z. pose proof (Byte.to_N_bounded b). lia.
Qed.

Lemma b2z_z2b z : b2z (z2b z) = z mod 256.
Proof.
  unfold b2z, z2b. pose proof (Z.mod_pos_bound z 256 eq_refl).
  destruct (Byte.of_N (Z.to_N (z mod 256))) eqn:E.
  - apply Byte.to_of_N in E. rewrite E. lia.
  - apply Byte.of_N_None_iff in E. lia.
Qed.

Lemma b2z_inj a b : b2z a = b2z b -> a = b.
Proof.
  unfold b2z. intros H. apply N2Z.inj in H.
  pose proof (Byte.of_to_N a). pose proof (Byte.of_to_N b). congruence.
Qed.

Lemma z2b_b2z b : z2b (b2z b) = b.
Proof.
  apply b2z_inj. rewrite b2z_z2b. apply Z.mod_small, b2z_range.
Qed.

Lemma b2z_z2b_small z : 0 <= z < 256 -> b2z (z2b z) = z.
Proof. intros. rewrite b2z_z2b. by apply Z.mod_small. Qed.

Lemma checked_Some t z z' : checked t z = Some z' <-> z' = z /\ in_type t z = true.
Proof. unfold checked. destruct (in_type t z); naive_solver. Qed.

Lemma in_type_spec t z : in_type t z = true <-> ty_min t <= z <= ty_max t.
Proof. unfold in_type. rewrite andb_true_iff, !Z.leb_le. done. Qed.

Lemma between_spec lo hi b : between lo hi b = true <-> lo <= b2z b <= hi.
Proof. unfold between. rewrite andb_true_iff, !Z.leb_le. done. Qed.

(** ** Lemmas: lists *)

Lemma app_split_le {A} (d w c w' : list A) :
  d ++ w = c ++ w' -> (length d <= length c)%nat ->
  exists k, c = d ++ k /\ w = k ++ w'.
Proof.
  intros E Hl. exists (drop (length d) c).
  assert (d = take (length d) c) as Hd.
  { apply (f_equal (take (length d))) in E.
    by rewrite take_app_length, take_app_le in E by done. }
  split; [rewrite Hd at 1; by rewrite take_drop|].
  apply (f_equal (drop (length d))) in E.
  by rewrite drop_app_length, drop_app_le in E by done.
Qed.

Lemma slice_all {A} (l : list A) : slice 0 (length l) l = l.
Proof. unfold slice. by rewrite drop_0, Nat.sub_0_r, firstn_all. Qed.

Lemma slice_0 {A} j (l : list A) : slice 0 j l = take j l.
Proof. unfold slice. by rewrite drop_0, Nat.sub_0_r. Qed.

Lemma slice_empty {A} i (l : list A) : slice i i l = [].
Proof. unfold slice. by rewrite Nat.sub_diag. Qed.

Lemma length_slice {A} i j (l : list A) :
  (j <= length l)%nat -> length (slice i j l) = (j - i)%nat.
Proof. intros. unfold slice. rewrite length_take, length_drop. lia. Qed.

(** ** Lemmas: searching and splitting *)

Lemma strip_prefix_Some p l l' : strip_prefix p l = Some l' <-> l = p ++ l'.
Proof.
  revert l. induction p as [|c p IH]; intros [|d l]; simpl; try naive_solver.
  case_decide; rewrite ?IH; naive_solver.
Qed.

Lemma starts_with_spec p l : starts_with p l = true <-> exists l', l = p ++ l'.
Proof.
  unfold starts_with. destruct (strip_prefix p l) eqn:E.
  - apply strip_prefix_Some in E. naive_solver.
  - split; [done|]. intros [l' H]. apply strip_prefix_Some in H. congruence.
Qed.

Lemma starts_with_app p l : starts_with p (p ++ l) = true.
Proof. apply starts_with_spec. eauto. Qed.

Lemma strip_suffix_Some p l l' : strip_suffix p l = Some l' <-> l = l' ++ p.
Proof.
  unfold strip_suffix. rewrite fmap_Some. split.
  - intros (x & H & ->). apply strip_prefix_Some in H.
    rewrite <- (reverse_involutive l), H, reverse_app, reverse_involutive. done.
  - intros ->. exists (reverse l'). rewrite strip_prefix_Some, reverse_app, reverse_involutive.
    done.
Qed.

Lemma find_byte_Some p l i :
  find_byte p l = Some i <->
  exists a c b, l = a ++ c :: b /\ length a = i /\ p c = true /\ Forall (fun d => p d = false) a.
Proof.
  revert i. induction l as [|d l IH]; intros i; simpl.
  { split; [done|]. intros ([|] & ? & ? & ? & _); done. }
  destruct (p d) eqn:E.
  - split.
    + intros [= <-]. by exists [], d, l.
    + intros ([|x a] & c & b & ? & Hl & Hc & Ha); simplify_list_eq; [done|].
      inversion Ha; congruence.
  - rewrite fmap_Some. setoid_rewrite IH. split.
    + intros (j & (a & c & b & -> & <- & Hc & Ha) & ->).
      exists (d :: a), c, b. repeat split; [done|]. by constructor.
    + intros ([|x a] & c & b & ? & Hl & Hc & Ha); simplify_list_eq; [congruence|].
      inversion Ha. naive_solver.
Qed.

Lemma find_byte_None p l : find_byte p l = None <-> Forall (fun d => p d = false) l.
Proof.
  induction l as [|d l IH]; simpl; [done|].
  rewrite Forall_cons. destruct (p d); [naive_solver|].
  rewrite fmap_None, IH. naive_solver.
Qed.

Lemma memchr_Some c l i :
  memchr c l = Some i <-> exists a b, l = a ++ c :: b /\ length a = i /\ c ∉ a.
Proof.
  unfold memchr. rewrite find_byte_Some. split.
  - intros (a & d & b & -> & <- & Hc & Ha). apply bool_decide_eq_true in Hc as ->.
    exists a, b. repeat split. intros Hin. rewrite Forall_forall in Ha.
    specialize (Ha _ Hin). by apply bool_decide_eq_false in Ha.
  - intros (a & b & -> & <- & Hni). exists a, c, b. repeat split.
    + by apply bool_decide_eq_true.
    + apply Forall_forall. intros d Hd. apply bool_decide_eq_false. intros ->. done.
Qed.

Lemma memchr_None c l : memchr c l = None <-> c ∉ l.
Proof.
  unfold memchr. rewrite find_byte_None, Forall_forall.
  setoid_rewrite bool_decide_eq_false. naive_solver.
Qed.

Lemma memchr_app c a b : c ∉ a -> memchr c (a ++ c :: b) = Some (length a).
Proof. intros. apply memchr_Some. eauto. Qed.

Lemma split_by_piece p a : Forall (fun d => p d = false) a -> split_by p a = [a].
Proof. induction 1 as [|d a E _ IH]; simpl; [done|]. by rewrite E, IH. Qed.

Lemma split_by_app p a c b :
  Forall (fun d => p d = false) a -> p c = true ->
  split_by p (a ++ c :: b) = a :: split_by p b.
Proof.
  intros Ha Hc. induction Ha as [|d a E _ IH]; simpl; [by rewrite Hc|].
  by rewrite E, IH.
Qed.

Lemma split_on_piece c p : c ∉ p -> split_on c p = [p].
Proof.
  intros Hp. apply split_by_piece, Forall_forall. intros d Hd. apply bool_decide_eq_false.
  by intros ->.
Qed.

Lemma split_on_app c p rest : c ∉ p -> split_on c (p ++ c :: rest) = p :: split_on c rest.
Proof.
  intros Hp. apply split_by_app; [|by apply bool_decide_eq_true].
  apply Forall_forall. intros d Hd. apply bool_decide_eq_false. by intros ->.
Qed.

(** The pieces of a text between separators; what follows the last one is a piece
    as well. *)
Inductive pieces (sep : byte) : bytes -> list bytes -> Prop :=
| last_piece l : sep ∉ l -> pieces sep l [l]
| more_pieces l rest ls : sep ∉ l -> pieces sep rest ls -> pieces sep (l ++ sep :: rest) (l :: ls).

Lemma pieces_cons sep c l piece ls : c <> sep -> pieces sep l (piece :: ls) -> pieces sep (c :: l) ((c :: piece) :: ls).
Proof.
  intros Hc Hp. inversion Hp as [l' Hl|l' rest ls' Hl Hr]; subst.
  - apply last_piece. apply not_elem_of_cons. by split.
  - apply (more_pieces sep (c :: piece)); [|done]. apply not_elem_of_cons. by split.
Qed.

Lemma pieces_split sep text ls : pieces sep text ls <-> split_on sep text = ls.
Proof.
  split.
  - induction 1 as [l Hl|l rest ls Hl _ IH]; [by apply split_on_piece|]. by rewrite split_on_app, IH.
  - intros <-. unfold split_on. induction text as [|c text IH]; [apply last_piece, not_elem_of_nil|].
    cbn [split_by]. case_bool_decide as Hc; [subst c; apply (more_pieces sep []); [apply not_elem_of_nil|done]|].
    destruct (split_by _ text) as [|piece ls]; [inversion IH|]. by apply pieces_cons.
Qed.

(** ** Lemmas: trimming *)

Lemma trim_start_spec p l : exists pre, l = pre ++ trim_start p l /\ Forall (fun c => p c = true) pre.
Proof.
  induction l as [|c l (pre & E & Hp)]; [by exists []|]. cbn [trim_start].
  destruct (p c) eqn:Ec; [|by exists []]. exists (c :: pre). split; [by rewrite E at 1|by constructor].
Qed.

Lemma trim_start_class p pre l :
  Forall (fun c => p c = true) pre -> trim_start p (pre ++ l) = trim_start p l.
Proof. induction 1 as [|c pre E _ IH]; [done|]. cbn. by rewrite E. Qed.

Lemma trim_start_id p l : (forall c, head l = Some c -> p c = false) -> trim_start p l = l.
Proof. intros H. destruct l as [|c l]; [done|]. cbn. by rewrite (H c). Qed.

Lemma trim_end_spec p l : exists post, l = trim_end p l ++ post /\ Forall (fun c => p c = true) post.
Proof.
  unfold trim_end. destruct (trim_start_spec p (reverse l)) as (pre & E & Hp).
  exists (reverse pre). split; [|by apply Forall_reverse].
  by rewrite <- reverse_app, <- E, reverse_involutive.
Qed.

Lemma trim_end_class p l post :
  Forall (fun c => p c = true) post -> trim_end p (l ++ post) = trim_end p l.
Proof. intros H. unfold trim_end. rewrite reverse_app, trim_start_class; [done|]. by apply Forall_reverse. Qed.

(** Nothing before a byte that stays is trimmed at the end. *)
Lemma trim_end_keeps p a c l : p c = false -> trim_end p (a ++ c :: l) = a ++ c :: trim_end p l.
Proof.
  intros Hc. unfold trim_end. rewrite reverse_app, reverse_cons, <- app_assoc.
  destruct (trim_start_spec p (reverse l)) as (pre & E & Hp).
  rewrite E at 1. rewrite <- app_assoc, trim_start_class by done.
  destruct (trim_start p (reverse l)) as [|d r] eqn:Er; cbn [app].
  - rewrite trim_start_id by (cbn; by intros ? [= <-]).
    by rewrite reverse_cons, reverse_involutive.
  - assert (p d = false) as Hd.
    { clear -Er. revert Er. induction (reverse l) as [|x xs IH]; [done|]. cbn. destruct (p x) eqn:Ex; [done|].
      by intros [= <- _]. }
    rewrite trim_start_id by (cbn; by intros ? [= <-]).
    change (d :: r ++ c :: reverse a) with ((d :: r) ++ c :: reverse a).
    rewrite reverse_app, reverse_cons, reverse_involutive, <- app_assoc. done.
Qed.

Lemma span_spec (p : byte -> bool) l :
  exists a b, l = a ++ b /\ Forall (fun c => p c = true) a /\ (forall c, head b = Some c -> p c = false).
Proof.
  destruct (trim_start_spec p l) as (pre & E & Hp). exists pre, (trim_start p l).
  split; [done|]. split; [done|]. clear. intros c. induction l as [|x l IH]; [done|]. cbn.
  destruct (p x) eqn:Ex; [done|]. by intros [= <-].
Qed.

(** ** Lemmas: decimal numbers *)

Lemma dec_value_snoc l b : dec_value (l ++ [b]) = 10 * dec_value l + digit_val b.
Proof. unfold dec_value. by rewrite fold_left_app. Qed.

(** Every text is a run of digits, possibly empty, and a rest. *)
Lemma digits_span l :
  exists ds rest, l = ds ++ rest /\ forallb is_digit ds = true /\ no_digit rest = true.
Proof.
  induction l as [|c l (ds & rest & -> & Hd & Hr)]; [by exists [], []|].
  destruct (is_digit c) eqn:E; [|exists [], (c :: ds ++ rest); simpl; by rewrite E].
  exists (c :: ds), rest. simpl. by rewrite E, Hd.
Qed.

Lemma is_digit_byte d : 0 <= d < 10 -> is_digit (digit_byte d) = true.
Proof.
  intros. apply between_spec. unfold digit_byte. rewrite b2z_z2b_small; lia.
Qed.

Lemma digit_val_byte d : 0 <= d < 10 -> digit_val (digit_byte d) = d.
Proof. intros. unfold digit_val, digit_byte. rewrite b2z_z2b_small; lia. Qed.

Lemma digit_val_range b : is_digit b = true -> 0 <= digit_val b <= 9.
Proof. unfold is_digit, digit_val. rewrite between_spec. lia. Qed.

Lemma dec_value_nonneg l : forallb is_digit l = true -> 0 <= dec_value l.
Proof.
  induction l as [|b l IH] using rev_ind; [done|].
  rewrite forallb_app, andb_true_iff, dec_value_snoc. simpl.
  rewrite andb_true_r. intros [Hl Hb%digit_val_range]. specialize (IH Hl). lia.
Qed.

Lemma dec_value_lt l : forallb is_digit l = true -> dec_value l < 10 ^ Z.of_nat (length l).
Proof.
  induction l as [|b l IH] using rev_ind; [done|].
  rewrite forallb_app, andb_true_iff, dec_value_snoc, length_app. simpl.
  rewrite andb_true_r. intros [Hl Hb%digit_val_range]. specialize (IH Hl).
  rewrite Nat2Z.inj_add, Z.pow_add_r by lia. change (10 ^ Z.of_nat 1) with 10. lia.
Qed.

Lemma print_dec_go_value fuel n :
  0 <= n < 10 ^ Z.of_nat fuel ->
  dec_value (print_dec_go fuel n) = n /\ forallb is_digit (print_dec_go fuel n) = true.
Proof.
  revert n. induction fuel as [|fuel IH]; intros n Hn.
  { change (10 ^ Z.of_nat 0) with 1 in Hn. simpl. split; [|done].
    unfold dec_value. simpl. lia. }
  simpl. destruct (n <? 10) eqn:E.
  - split; [|simpl; rewrite is_digit_byte by lia; done].
    change [digit_byte n] with ([] ++ [digit_byte n]).
    rewrite dec_value_snoc, digit_val_byte by lia. unfold dec_value. simpl. lia.
  - assert (0 <= n / 10 < 10 ^ Z.of_nat fuel) as Hdiv.
    { rewrite Nat2Z.inj_succ, Z.pow_succ_r in Hn by lia.
      split; [apply Z.div_pos; lia | apply Z.div_lt_upper_bound; lia]. }
    destruct (IH _ Hdiv) as [IHv IHd].
    pose proof (Z.mod_pos_bound n 10 eq_refl).
    rewrite dec_value_snoc, forallb_app, IHd, IHv. simpl.
    rewrite digit_val_byte, is_digit_byte by lia. split; [|done].
    pose proof (Z.div_mod n 10). lia.
Qed.

Lemma print_dec_fuel n : 0 <= n -> n < 10 ^ Z.of_nat (S (Z.to_nat (Z.log2 n))).
Proof.
  intros Hn. rewrite Nat2Z.inj_succ, Z2Nat.id by apply Z.log2_nonneg.
  destruct (decide (n = 0)) as [->|]; [done|].
  pose proof (Z.log2_spec n ltac:(lia)) as [_ H].
  eapply Z.lt_le_trans; [exact H|].
  apply Z.pow_le_mono_l. lia.
Qed.

Lemma print_dec_value n : 0 <= n -> dec_value (print_dec n) = n.
Proof. intros. apply print_dec_go_value. split; [done | by apply print_dec_fuel]. Qed.

Lemma print_dec_digits n : 0 <= n -> forallb is_digit (print_dec n) = true.
Proof. intros. apply print_dec_go_value. split; [done | by apply print_dec_fuel]. Qed.

Lemma print_dec_nonempty n : print_dec n <> [].
Proof.
  unfold print_dec. simpl. destruct (n <? 10); [done|]. by destruct (print_dec_go _ _).
Qed.

Lemma is_digit_not_sign b : is_digit b = true -> b <> x2b /\ b <> x2d.
Proof. intros H. split; intros ->; vm_compute in H; done. Qed.

Lemma parse_int_digits t ds :
  ds <> [] -> forallb is_digit ds = true ->
  parse_int t ds = checked t (dec_value ds).
Proof.
  intros Hne Hd. unfold parse_int. destruct ds as [|b ds]; [done|].
  assert (b <> x2b /\ b <> x2d) as [H1 H2].
  { apply is_digit_not_sign. simpl in Hd. by apply andb_true_iff in Hd as [-> _]. }
  transitivity (if bool_decide (b :: ds = []) || negb (forallb is_digit (b :: ds)) then None
                else checked t (dec_value (b :: ds))).
  - destruct b; done.
  - by rewrite Hd.
Qed.

Lemma parse_print_dec t n :
  0 <= n -> in_type t n = true -> parse_int t (print_dec n) = Some n.
Proof.
  intros Hn Ht. rewrite parse_int_digits, print_dec_value;
    auto using print_dec_nonempty, print_dec_digits.
  apply checked_Some. done.
Qed.

(** Printing an integer and parsing it back is the identity on its type. *)
Lemma parse_print_int t z : in_type t z = true -> parse_int t (print_int z) = Some z.
Proof.
  intros Ht. unfold print_int. destruct (z <? 0) eqn:E.
  - apply Z.ltb_lt in E. pose proof Ht as Hr. apply in_type_spec in Hr.
    unfold parse_int. replace (ty_min t <? 0) with true by lia.
    rewrite bool_decide_false by apply print_dec_nonempty.
    rewrite print_dec_digits, print_dec_value by lia. simpl.
    rewrite Z.opp_involutive. apply checked_Some. done.
  - apply parse_print_dec; [lia|done].
Qed.

Lemma parse_print_int_none t z : in_type t z = false -> parse_int t (print_int z) = None.
Proof.
  intros Ht. unfold print_int. destruct (z <? 0) eqn:E.
  - apply Z.ltb_lt in E. unfold parse_int. destruct (ty_min t <? 0); [|done].
    rewrite bool_decide_false by apply print_dec_nonempty.
    rewrite print_dec_digits, print_dec_value by lia. simpl.
    rewrite Z.opp_involutive. unfold checked. by rewrite Ht.
  - apply Z.ltb_ge in E.
    rewrite parse_int_digits, print_dec_value; auto using print_dec_nonempty, print_dec_digits.
    unfold checked. by rewrite Ht.
Qed.

Lemma parse_int_range t s z : parse_int t s = Some z -> in_type t z = true.
Proof.
  unfold parse_int. intros H.
  destruct (match s with x2b :: rest => _ | _ => _ end) as [neg digits].
  destruct (bool_decide _ || _); [done|]. apply checked_Some in H. naive_solver.
Qed.

(** ** Lemmas: UTF-8 *)

Lemma utf8_valid_ascii l : forallb is_ascii l = true -> utf8_valid l = true.
Proof.
  induction l as [|b l IH]; simpl; [done|].
  unfold is_ascii at 1. destruct (b2z b <? 128); simpl; done.
Qed.

Lemma utf8_valid_cons_ascii b l :
  is_ascii b = true -> utf8_valid (b :: l) = utf8_valid l.
Proof. intros H. unfold is_ascii in H. simpl. by rewrite H. Qed.

Lemma is_ascii_digit b : is_digit b = true -> is_ascii b = true.
Proof. unfold is_digit, is_ascii. rewrite between_spec. lia. Qed.

Lemma utf8_valid_app_n n a b :
  (length a <= n)%nat -> utf8_valid a = true -> utf8_valid (a ++ b) = utf8_valid b.
Proof.
  revert a. induction n as [|n IH]; intros [|b0 a] Hn; simpl in *; try done; try lia.
  destruct (b2z b0 <? 128); [intros; apply IH; [lia|done]|].
  destruct (between 194 223 b0).
  { destruct a as [|b1 a]; [done|]. simpl in *. destruct (is_cont b1); [|done]. simpl.
    intros; apply IH; [lia|done]. }
  destruct (between 224 239 b0).
  { destruct a as [|b1 [|b2 a]]; try done. simpl in *.
    destruct (utf8_second3 _ b1); [|done]. destruct (is_cont b2); [|done]. simpl.
    intros; apply IH; [lia|done]. }
  destruct (between 240 244 b0); [|done].
  destruct a as [|b1 [|b2 [|b3 a]]]; try done. simpl in *.
  destruct (utf8_second4 _ b1); [|done].
  destruct (is_cont b2); [|done]. destruct (is_cont b3); [|done]. simpl.
  intros; apply IH; [lia|done].
Qed.

Lemma utf8_valid_app a b : utf8_valid a = true -> utf8_valid (a ++ b) = utf8_valid b.
Proof. by apply utf8_valid_app_n with (n := length a). Qed.

Lemma is_empty_spec s : is_empty s = true <-> s = [].
Proof. apply bool_decide_eq_true. Qed.
Lemma is_empty_false s : is_empty s = false <-> s <> [].
Proof. apply bool_decide_eq_false. Qed.
