(* ===== verification/Blockstate.v ===== *)
(** * MAPI block headers and the block state machine (src/framing/blockstate.rs)

    A MAPI message is a sequence of blocks, each a two-byte little-endian header
    (size of the body times two, plus one for the last block) and the body.
    The file models [Header], [BlockState] and [BlockState::skip_headers], gives
    the wire format as the relation [message], and proves that the state machine
    decodes it, however the bytes are cut into pieces. *)

From Stdlib Require Import ZArith Lia.
From S2P Require Import Prelude Bytes.

Open Scope Z_scope.

(** [BLOCKSIZE] of src/framing/mod.rs. *)
Definition BLOCKSIZE : nat := Z.to_nat 8190.

Inductive FramingError :=
| InvalidBlockSize
| InvalidHeaderLength (n : nat)
| MessageAlreadyComplete
| TooLong.

(** [to_str], and [Display], which adds the length to the second text. *)
Definition framing_error_to_str (e : FramingError) : string :=
  match e with
  | InvalidBlockSize => "network layer: invalid block; network byte stream out of sync?"
  | InvalidHeaderLength _ => "network layer: invalid block header length"
  | MessageAlreadyComplete => "network layer: message is already complete"
  | TooLong => "network layer: message too long"
  end.

Definition framing_error_display (e : FramingError) : bytes :=
  match e with
  | InvalidHeaderLength length =>
      bs "network layer: invalid block header length " ++ print_int (Z.of_nat length)
  | _ => bs (framing_error_to_str e)
  end.

#[global] Instance FramingError_eq_dec : EqDecision FramingError.
Proof. solve_decision. Defined.

(** ** Header *)

Record Header := MkHeader { hdr_lo : byte; hdr_hi : byte }.

#[global] Instance Header_eq_dec : EqDecision Header.
Proof. solve_decision. Defined.

Definition u16_to_le_bytes (n : Z) : byte * byte := (z2b n, z2b (n / 256)).
Definition u16_from_le_bytes (lo hi : byte) : Z := b2z lo + 256 * b2z hi.

Definition header_new {E} (size : nat) (last : bool) : res E Header :=
  let? _ := rassert (size <=? BLOCKSIZE)%nat in
  let n := wrap 16 (wrap 16 (2 * wrap 16 (Z.of_nat size)) + Z.b2z last) in
  let '(lo, hi) := u16_to_le_bytes n in
  Ok (MkHeader lo hi).

Definition header_size (h : Header) : nat :=
  Z.to_nat (u16_from_le_bytes (hdr_lo h) (hdr_hi h) / 2).

Definition header_is_last (h : Header) : bool :=
  0 <? Z.land (b2z (hdr_lo h)) 1.

Definition header_as_bytes (h : Header) : bytes := [hdr_lo h; hdr_hi h].

Definition header_from_bytes (lo hi : byte) : res FramingError Header :=
  let header := MkHeader lo hi in
  if (header_size header <=? BLOCKSIZE)%nat then Ok header else Err InvalidBlockSize.

Definition header_from_slice (slice : bytes) : res FramingError Header :=
  match slice with
  | [lo; hi] => header_from_bytes lo hi
  | _ => Err (InvalidHeaderLength (length slice))
  end.

(** ** BlockState *)

Inductive BlockState :=
| Start
| PartialHeader (lo : byte)
| Body (remaining : nat) (last : bool)
| End.

#[global] Instance BlockState_eq_dec : EqDecision BlockState.
Proof. solve_decision. Defined.

Definition blockstate_new (remaining : nat) (last : bool) : BlockState :=
  match remaining, last with
  | O, false => Start
  | O, true => End
  | S _, _ => Body remaining last
  end.

Definition from_header (h : Header) : BlockState :=
  blockstate_new (header_size h) (header_is_last h).

(** The loop of [skip_headers], with [data] the bytes from [pos] on.  The result
    is the range of body bytes and the state after them. *)
Fixpoint skip_headers_loop (st : BlockState) (data : bytes) (pos : nat)
    : res FramingError (nat * nat * BlockState) :=
  match data with
  | [] => Ok (pos, pos, st)
  | b :: rest =>
      let avail := length data in
      match st with
      | Body remaining last =>
          if (avail <? remaining)%nat then
            Ok (pos, pos + avail, blockstate_new (remaining - avail) last)%nat
          else
            let? _ := rassert (negb (remaining =? 0)%nat) in
            Ok (pos, pos + remaining, blockstate_new 0 last)%nat
      | Start =>
          match rest with
          | b' :: rest' =>
              let? header := header_from_slice [b; b'] in
              skip_headers_loop (from_header header) rest' (pos + 2)%nat
          | [] => Ok (pos + 1, pos + 1, PartialHeader b)%nat
          end
      | PartialHeader lo =>
          let? header := header_from_bytes lo b in
          skip_headers_loop (from_header header) rest (pos + 1)%nat
      | End => Err MessageAlreadyComplete
      end
  end.

Definition skip_headers (st : BlockState) (data : bytes)
    : res FramingError (nat * nat * BlockState) :=
  skip_headers_loop st data 0.

(** [BlockState::interpret]: the new state is stored only on success. *)
Definition interpret (data : bytes) : comp BlockState FramingError (nat * nat) :=
  fun st =>
    match skip_headers st data with
    | Ok (start, stop, new) => (Ok (start, stop), new)
    | Err e => (Err e, st)
    | Panic => (Panic, st)
    | NoFuel => (NoFuel, st)
    end.

(** ** The wire format *)

(** The bytes of the header of a block. *)
Definition hdr (size : nat) (last : bool) : bytes :=
  let n := 2 * Z.of_nat size + Z.b2z last in [z2b n; z2b (n / 256)].

(** [message w p]: the bytes [w] are one complete message with payload [p]. *)
Inductive message : bytes -> bytes -> Prop :=
| message_last p :
    (length p <= BLOCKSIZE)%nat ->
    message (hdr (length p) true ++ p) p
| message_more c w p :
    (length c <= BLOCKSIZE)%nat -> message w p ->
    message (hdr (length c) false ++ c ++ w) (c ++ p).

(** [expects st w p]: in state [st], the rest of the message is [w] and the
    payload still to come is [p]. *)
Definition expects (st : BlockState) (w p : bytes) : Prop :=
  match st with
  | Start => message w p
  | PartialHeader lo => message (lo :: w) p
  | Body remaining last =>
      (0 < remaining)%nat /\
      exists c w' p', w = c ++ w' /\ p = c ++ p' /\ length c = remaining /\
        if last then w' = [] /\ p' = [] else message w' p'
  | End => w = [] /\ p = []
  end.

(** What [BlockState] values the code builds: a body is never empty. *)
Definition wf_state (st : BlockState) : Prop :=
  match st with
  | Body remaining _ => (0 < remaining <= BLOCKSIZE)%nat
  | _ => True
  end.

(** ** Headers *)

Lemma BLOCKSIZE_Z : Z.of_nat BLOCKSIZE = 8190.
Proof. unfold BLOCKSIZE. lia. Qed.

Lemma BLOCKSIZE_pos : (0 < BLOCKSIZE)%nat.
Proof. pose proof BLOCKSIZE_Z. lia. Qed.

#[global] Opaque BLOCKSIZE.

Lemma u16_bytes_roundtrip n :
  0 <= n < 65536 -> u16_from_le_bytes (z2b n) (z2b (n / 256)) = n.
Proof.
  intros. unfold u16_from_le_bytes. rewrite !b2z_z2b.
  rewrite (Z.mod_small (n / 256)) by (split; [apply Z.div_pos | apply Z.div_lt_upper_bound]; lia).
  pose proof (Z.div_mod n 256). lia.
Qed.

Lemma header_word size last :
  (size <= BLOCKSIZE)%nat -> 0 <= 2 * Z.of_nat size + Z.b2z last < 16384.
Proof. pose proof BLOCKSIZE_Z. destruct last; simpl; lia. Qed.

Lemma header_new_ok E size last :
  (size <= BLOCKSIZE)%nat ->
  exists h, @header_new E size last = Ok h /\ header_as_bytes h = hdr size last.
Proof.
  intros Hs. pose proof (header_word size last Hs) as Hw.
  unfold header_new. replace (size <=? BLOCKSIZE)%nat with true by (symmetry; by apply Nat.leb_le).
  eexists. split; [reflexivity|].
  unfold header_as_bytes, hdr, wrap. simpl.
  assert (0 <= Z.b2z last <= 1) by (destruct last; simpl; lia).
  rewrite (Z.mod_small (Z.of_nat size)) by (simpl; lia).
  rewrite (Z.mod_small (2 * _)) by (simpl; lia).
  rewrite Z.mod_small by (simpl; lia). done.
Qed.

Lemma header_hdr_size size last :
  (size <= BLOCKSIZE)%nat ->
  header_size (MkHeader (z2b (2 * Z.of_nat size + Z.b2z last))
                        (z2b ((2 * Z.of_nat size + Z.b2z last) / 256))) = size.
Proof.
  intros Hs. pose proof (header_word size last Hs). unfold header_size. simpl.
  rewrite u16_bytes_roundtrip by lia.
  replace ((2 * Z.of_nat size + Z.b2z last) / 2) with (Z.of_nat size); [lia|].
  apply Z.div_unique with (Z.b2z last); destruct last; simpl; lia.
Qed.

Lemma land_1_mod2 z : Z.land z 1 = z mod 2.
Proof. apply (Z.land_ones z 1). lia. Qed.

Lemma header_hdr_last size last hi :
  header_is_last (MkHeader (z2b (2 * Z.of_nat size + Z.b2z last)) hi) = last.
Proof.
  unfold header_is_last. simpl. rewrite land_1_mod2, b2z_z2b.
  rewrite <- Znumtheory.Zmod_div_mod; [| lia | lia | exists 128; done].
  rewrite Z.mul_comm, Z.add_comm, Z.mod_add by lia. by destruct last.
Qed.

Lemma header_from_slice_hdr size last :
  (size <= BLOCKSIZE)%nat ->
  exists h, header_from_slice (hdr size last) = Ok h /\
            header_size h = size /\ header_is_last h = last.
Proof.
  intros Hs. unfold hdr, header_from_slice, header_from_bytes.
  rewrite header_hdr_size by done.
  replace (size <=? BLOCKSIZE)%nat with true by (symmetry; by apply Nat.leb_le).
  eexists. split; [done|]. split; [by apply header_hdr_size | apply header_hdr_last].
Qed.

Lemma header_from_bytes_size lo hi h :
  header_from_bytes lo hi = Ok h -> (header_size h <= BLOCKSIZE)%nat.
Proof.
  unfold header_from_bytes. destruct (_ <=? _)%nat eqn:E; [|done].
  intros [= <-]. by apply Nat.leb_le.
Qed.

(** A header the decoder accepts is the encoding of its size and flag. *)
Lemma header_from_bytes_hdr lo hi h :
  header_from_bytes lo hi = Ok h ->
  [lo; hi] = hdr (header_size h) (header_is_last h).
Proof.
  intros H. assert (h = MkHeader lo hi) as ->.
  { unfold header_from_bytes in H. destruct (_ <=? _)%nat; congruence. }
  unfold hdr, header_size, header_is_last, u16_from_le_bytes. simpl.
  pose proof (b2z_range lo). pose proof (b2z_range hi).
  rewrite land_1_mod2.
  set (n := b2z lo + 256 * b2z hi).
  assert (2 * Z.of_nat (Z.to_nat (n / 2)) + Z.b2z (0 <? b2z lo mod 2) = n) as ->.
  { pose proof (Z.div_mod n 2 ltac:(done)) as Hdm.
    assert (n mod 2 = b2z lo mod 2) as Hm.
    { unfold n. replace (256 * b2z hi) with ((128 * b2z hi) * 2) by lia.
      apply Z.mod_add. lia. }
    pose proof (Z.mod_pos_bound n 2). pose proof (Z.div_pos n 2).
    rewrite Z2Nat.id by lia. rewrite <- Hm in *.
    destruct (0 <? n mod 2) eqn:E; simpl; lia. }
  f_equal.
  - apply b2z_inj. rewrite b2z_z2b. unfold n.
    rewrite Z.mul_comm, Z.mod_add by lia. by rewrite Z.mod_small.
  - f_equal. apply b2z_inj. rewrite b2z_z2b. unfold n.
    rewrite Z.mul_comm, Z.div_add by lia.
    rewrite (Z.div_small (b2z lo)) by lia. by rewrite Z.mod_small.
Qed.

(** ** The relation between headers, states and messages *)

(** The bytes and payload that follow a header announcing [size] and [last]. *)
Definition follows (size : nat) (last : bool) (w p : bytes) : Prop :=
  exists c w' p', w = c ++ w' /\ p = c ++ p' /\ length c = size /\
    if last then w' = [] /\ p' = [] else message w' p'.

Lemma hdr_length size last : length (hdr size last) = 2%nat.
Proof. done. Qed.

Lemma hdr_inj s l s' l' x y :
  (s <= BLOCKSIZE)%nat -> (s' <= BLOCKSIZE)%nat ->
  hdr s l ++ x = hdr s' l' ++ y -> s = s' /\ l = l' /\ x = y.
Proof.
  intros Hs Hs' H. apply app_inj_1 in H as [H ->]; [|done].
  destruct (header_from_slice_hdr s l Hs) as (h & E & <- & <-).
  destruct (header_from_slice_hdr s' l' Hs') as (h' & E' & <- & <-).
  rewrite <- H in E'. rewrite E in E'. by injection E' as ->.
Qed.

Lemma message_hdr size last w p :
  (size <= BLOCKSIZE)%nat -> message (hdr size last ++ w) p <-> follows size last w p.
Proof.
  intros Hs. split.
  - intros H. remember (hdr size last ++ w) as x eqn:Hx.
    destruct H as [p Hp | c w' p Hc Hm].
    + apply hdr_inj in Hx as (<- & <- & <-); [|done|done].
      exists p, [], []. by rewrite !app_nil_r.
    + apply hdr_inj in Hx as (<- & <- & <-); [|done|done].
      by exists c, w', p.
  - intros (c & w' & p' & -> & -> & <- & H). destruct last.
    + destruct H as [-> ->]. rewrite !app_nil_r. by constructor.
    + by constructor.
Qed.

Lemma expects_new size last w p :
  expects (blockstate_new size last) w p <-> follows size last w p.
Proof.
  unfold follows. destruct size as [|n]; [destruct last|]; simpl.
  - split.
    + intros [-> ->]. by exists [], [], [].
    + intros (c & w' & p' & -> & -> & Hc & -> & ->). by destruct c.
  - split.
    + intros H. by exists [], w, p.
    + intros (c & w' & p' & -> & -> & Hc & H). by destruct c.
  - naive_solver lia.
Qed.

Lemma expects_body remaining last w p :
  expects (Body remaining last) w p <-> (0 < remaining)%nat /\ follows remaining last w p.
Proof. done. Qed.

(** Decoding a header moves to the state that expects the rest of its block. *)
Lemma from_header_expects lo hi h w p :
  header_from_bytes lo hi = Ok h ->
  expects (from_header h) w p <-> message (lo :: hi :: w) p.
Proof.
  intros H. unfold from_header. rewrite expects_new, <- message_hdr.
  - change (lo :: hi :: w) with ([lo; hi] ++ w).
    by rewrite (header_from_bytes_hdr _ _ _ H).
  - by eapply header_from_bytes_size.
Qed.

(** Every message starts with a header the decoder accepts. *)
Lemma message_header w p :
  message w p -> exists lo hi h w', w = lo :: hi :: w' /\ header_from_bytes lo hi = Ok h.
Proof.
  assert (forall size last w',
    (size <= BLOCKSIZE)%nat ->
    exists lo hi h w2, hdr size last ++ w' = lo :: hi :: w2 /\ header_from_bytes lo hi = Ok h)
    as Hgen.
  { intros size last w' Hs. destruct (header_from_slice_hdr size last Hs) as (h & E & _ & _).
    do 3 eexists. exists w'. split; [reflexivity|]. exact E. }
  destruct 1; by apply Hgen.
Qed.

Lemma wf_state_new size last :
  (size <= BLOCKSIZE)%nat -> wf_state (blockstate_new size last).
Proof. destruct size, last; simpl; lia. Qed.

Lemma wf_from_header lo hi h :
  header_from_bytes lo hi = Ok h -> wf_state (from_header h).
Proof. intros. eapply wf_state_new, header_from_bytes_size. done. Qed.

#[export] Hint Resolve wf_state_new wf_from_header BLOCKSIZE_pos : rust.

(** Taking some bytes off a body. *)
Lemma follows_split size last d w p :
  (length d <= size)%nat ->
  follows size last (d ++ w) p <->
  exists p', p = d ++ p' /\ follows (size - length d) last w p'.
Proof.
  intros Hn. split.
  - intros (c & w' & p' & E & -> & Hc & H).
    destruct (app_split_le d w c w') as (k & -> & ->); [done|lia|].
    exists (k ++ p'). rewrite app_assoc. split; [done|].
    exists k, w', p'. rewrite length_app in Hc. repeat split; [lia|done].
  - intros (p1 & -> & c & w' & p' & -> & -> & Hc & H).
    exists (d ++ c), w', p'. rewrite length_app, !app_assoc. repeat split; [lia|done].
Qed.

(** ** Lemmas about [skip_headers] *)

Definition shift_range (k : nat) (r : res FramingError (nat * nat * BlockState)) :=
  let? (i, j, st) := r in Ok ((k + i)%nat, (k + j)%nat, st).

Lemma skip_headers_shift k data st pos :
  skip_headers_loop st data (k + pos) = shift_range k (skip_headers_loop st data pos).
Proof.
  revert st pos. induction data as [data IH] using (induction_ltof1 _ length).
  intros st pos. destruct data as [|b rest]; [done|].
  destruct st as [|lo|r last|]; simpl.
  - destruct rest as [|b' rest]; simpl.
    + rewrite !Nat.add_assoc. done.
    + destruct (header_from_bytes b b'); simpl; try done.
      rewrite <- Nat.add_assoc. apply IH. unfold ltof. simpl. lia.
  - destruct (header_from_bytes lo b); simpl; try done.
    rewrite <- Nat.add_assoc. apply IH. unfold ltof. simpl. lia.
  - destruct (_ <? _)%nat; simpl; [by rewrite !Nat.add_assoc|].
    destruct r; simpl; [done|]. by rewrite !Nat.add_assoc.
  - done.
Qed.

Lemma skip_headers_start b b' rest :
  skip_headers Start (b :: b' :: rest) =
  let? h := header_from_bytes b b' in shift_range 2 (skip_headers (from_header h) rest).
Proof.
  unfold skip_headers. simpl. destruct (header_from_bytes b b'); simpl; try done.
  apply (skip_headers_shift 2 _ _ 0).
Qed.

Lemma skip_headers_partial lo b rest :
  skip_headers (PartialHeader lo) (b :: rest) =
  let? h := header_from_bytes lo b in shift_range 1 (skip_headers (from_header h) rest).
Proof.
  unfold skip_headers. simpl. destruct (header_from_bytes lo b); simpl; try done.
  apply (skip_headers_shift 1 _ _ 0).
Qed.

Lemma skip_headers_body remaining last data :
  data <> [] -> (0 < remaining)%nat ->
  skip_headers (Body remaining last) data =
  Ok (0%nat, Nat.min remaining (length data),
      blockstate_new (remaining - length data) last).
Proof.
  intros Hd Hr. destruct data as [|b rest]; [done|]. unfold skip_headers. simpl.
  destruct (Nat.ltb_spec (S (length rest)) remaining).
  - rewrite Nat.min_r by lia. done.
  - destruct remaining; [lia|]. rewrite Nat.min_l by lia.
    replace (S remaining - S (length rest))%nat with 0%nat by lia. done.
Qed.

Lemma shift_range_ok k r i j st :
  shift_range k r = Ok (i, j, st) <->
  exists i' j', r = Ok (i', j', st) /\ i = (k + i')%nat /\ j = (k + j')%nat.
Proof. destruct r as [[[]]| | |]; simpl; naive_solver. Qed.

(** An induction principle that follows the loop of [skip_headers]. *)
Lemma skip_headers_ind (P : BlockState -> bytes -> Prop) :
  (forall st, P st []) ->
  (forall b, P Start [b]) ->
  (forall b b' rest,
     (forall h, header_from_bytes b b' = Ok h -> P (from_header h) rest) ->
     P Start (b :: b' :: rest)) ->
  (forall lo b rest,
     (forall h, header_from_bytes lo b = Ok h -> P (from_header h) rest) ->
     P (PartialHeader lo) (b :: rest)) ->
  (forall remaining last b rest, P (Body remaining last) (b :: rest)) ->
  (forall b rest, P End (b :: rest)) ->
  forall st data, P st data.
Proof.
  intros Hnil Hone Hstart Hpart Hbody Hend st data. revert st.
  induction data as [data IH] using (induction_ltof1 _ length). intros st.
  destruct data as [|b [|b' rest]]; [done| |].
  - destruct st; auto.
  - destruct st; auto.
    + apply Hstart. intros. apply IH. unfold ltof. simpl. lia.
    + apply Hpart. intros. apply IH. unfold ltof. simpl. lia.
Qed.

(** A range lies inside the data, and an empty range means that everything
    was consumed. *)
Lemma skip_headers_range st data i j st' :
  wf_state st -> skip_headers st data = Ok (i, j, st') ->
  (i <= j <= length data)%nat /\ (i = j -> j = length data) /\ wf_state st'.
Proof.
  revert i j st'. pattern st, data.
  apply skip_headers_ind; clear st data.
  - intros st i j st' Hwf [= <- <- <-]. done.
  - intros b i j st' _ [= <- <- <-]. simpl. lia.
  - intros b b' rest IH i j st' _. rewrite skip_headers_start. intros H. res_inv.
    apply shift_range_ok in H as (i' & j' & H & -> & ->).
    edestruct IH as (? & ? & ?); eauto with rust. simpl. repeat split; auto; lia.
  - intros lo b rest IH i j st' _. rewrite skip_headers_partial. intros H. res_inv.
    apply shift_range_ok in H as (i' & j' & H & -> & ->).
    edestruct IH as (? & ? & ?); eauto with rust. simpl. repeat split; auto; lia.
  - intros r last b rest i j st' [Hr Hb]. rewrite skip_headers_body by done.
    intros [= <- <- <-]. split; [cbn [length]; lia|]. split; [cbn [length]; lia|].
    apply wf_state_new. lia.
  - intros b rest i j st' _. done.
Qed.

Lemma skip_headers_returns st data : wf_state st -> returns (skip_headers st data).
Proof.
  pattern st, data. apply skip_headers_ind; clear st data.
  - done.
  - done.
  - intros b b' rest IH _. rewrite skip_headers_start.
    apply returns_bind; [unfold header_from_bytes; by case_match|].
    intros h Hh. specialize (IH h Hh (wf_from_header _ _ _ Hh)).
    by destruct (skip_headers (from_header h) rest) as [[[]]| | |].
  - intros lo b rest IH _. rewrite skip_headers_partial.
    apply returns_bind; [unfold header_from_bytes; by case_match|].
    intros h Hh. specialize (IH h Hh (wf_from_header _ _ _ Hh)).
    by destruct (skip_headers (from_header h) rest) as [[[]]| | |].
  - intros r last b rest [Hr _]. by rewrite skip_headers_body.
  - done.
Qed.

(** What was consumed, put in front of what the new state expects, is what the
    old state expects. *)
Lemma skip_headers_sound st data i j st' w p :
  skip_headers st data = Ok (i, j, st') -> expects st' w p ->
  expects st (take j data ++ w) (slice i j data ++ p).
Proof.
  revert i j st'. pattern st, data.
  apply skip_headers_ind; clear st data.
  - intros st i j st' [= <- <- <-]. done.
  - intros b i j st' [= <- <- <-]. done.
  - intros b b' rest IH i j st'. rewrite skip_headers_start. intros H He. res_inv.
    apply shift_range_ok in H as (i' & j' & H & -> & ->).
    eapply IH in H; [|done|done]. by apply (from_header_expects b b') in H.
  - intros lo b rest IH i j st'. rewrite skip_headers_partial. intros H He. res_inv.
    apply shift_range_ok in H as (i' & j' & H & -> & ->).
    eapply IH in H; [|done|done]. by apply (from_header_expects lo b) in H.
  - intros r last b rest i j st'. destruct (decide (r = 0%nat)) as [->|Hr]; [done|].
    assert (b :: rest <> []) as Hne by done. revert Hne. generalize (b :: rest) as d.
    intros d Hne. rewrite skip_headers_body by (done || lia).
    intros [= <- <- <-] He. apply expects_new in He. apply expects_body. split; [lia|].
    assert (length (take (Nat.min r (length d)) d) = Nat.min r (length d)) as Hm
      by (rewrite length_take; lia).
    unfold slice. rewrite drop_0, Nat.sub_0_r.
    apply follows_split; [lia|]. eexists. split; [done|].
    rewrite Hm. by replace (r - Nat.min r (length d))%nat with (r - length d)%nat by lia.
  - done.
Qed.

(** On a prefix of an expected message the machine does not fail, and the new
    state expects the bytes it did not consume. *)
Lemma skip_headers_complete st data w p :
  expects st (data ++ w) p ->
  exists i j st' p', skip_headers st data = Ok (i, j, st') /\
    p = slice i j data ++ p' /\ expects st' (drop j data ++ w) p'.
Proof.
  revert p. pattern st, data. apply skip_headers_ind; clear st data.
  - intros st p He. by exists 0%nat, 0%nat, st, p.
  - intros b p He. by exists 1%nat, 1%nat, (PartialHeader b), p.
  - intros b b' rest IH p He. rewrite skip_headers_start.
    destruct (message_header _ _ He) as (lo & hi & h & w' & [= <- <- <-] & Hh).
    rewrite Hh. simpl. apply (from_header_expects _ _ _ _ _ Hh) in He.
    destruct (IH h Hh p He) as (i & j & st' & p' & -> & -> & He').
    exists (2 + i)%nat, (2 + j)%nat, st', p'. done.
  - intros lo b rest IH p He. rewrite skip_headers_partial.
    destruct (message_header _ _ He) as (lo' & hi & h & w' & [= <- <- <-] & Hh).
    rewrite Hh. simpl. apply (from_header_expects _ _ _ _ _ Hh) in He.
    destruct (IH h Hh p He) as (i & j & st' & p' & -> & -> & He').
    exists (1 + i)%nat, (1 + j)%nat, st', p'. done.
  - intros r last b rest p [Hr He]%expects_body.
    rewrite skip_headers_body by done.
    set (d := b :: rest) in *. set (m := Nat.min r (length d)).
    assert (length (take m d) = m) as Hm by (rewrite length_take; lia).
    rewrite <- (take_drop m d), <- app_assoc in He.
    apply follows_split in He as (p' & -> & He); [|lia].
    exists 0%nat, m, (blockstate_new (r - length d) last), p'.
    unfold slice. rewrite drop_0, Nat.sub_0_r. split; [done|]. split; [done|].
    apply expects_new. by replace (r - length d)%nat with (r - length (take m d))%nat by lia.
  - intros b rest p [? ?]. done.
Qed.

(** ** Theorems *)

(** A block header made by [Header::new] for any size the protocol allows is
    accepted by [TryFrom<&[u8]>] and gives back the size and the last-block
    flag; [new] does not panic there. *)
Theorem header_roundtrip E size last :
  (size <= BLOCKSIZE)%nat ->
  exists h, @header_new E size last = Ok h /\ header_from_slice (header_as_bytes h) = Ok h /\
    header_size h = size /\ header_is_last h = last.
Proof.
  intros Hs. destruct (header_new_ok E size last Hs) as (h & Hn & Hb).
  destruct (header_from_slice_hdr size last Hs) as (h' & Hh' & Hsz & Hl).
  exists h. rewrite Hb. assert (h = h') as ->; [|done].
  rewrite <- Hb in Hh'. destruct h as [lo hi]. simpl in Hh'.
  unfold header_from_bytes in Hh'. case_match; naive_solver.
Qed.

Lemma header_roundtrip_witness :
  exists h, @header_new unit (Z.to_nat 8190) true = Ok h /\ header_from_slice (header_as_bytes h) = Ok h /\
    header_size h = Z.to_nat 8190 /\ header_is_last h = true.
Proof. apply header_roundtrip. pose proof BLOCKSIZE_Z. lia. Defined.

(** [skip_headers] on any bytes in any well-formed state: when it succeeds, the
    range is inside the data, the new state is well formed, and the bytes seen
    are a prefix of what the old state expects exactly when the remaining bytes
    are what the new state expects, the payload being the range in front of
    the payload still to come. *)
Theorem skip_headers_correct st data i j st' w p :
  wf_state st -> skip_headers st data = Ok (i, j, st') ->
  (i <= j <= length data)%nat /\ wf_state st' /\
  (expects st (data ++ w) p <->
   exists p', p = slice i j data ++ p' /\ expects st' (drop j data ++ w) p').
Proof.
  intros Hwf Hs. destruct (skip_headers_range _ _ _ _ _ Hwf Hs) as (Hr & _ & Hwf').
  split; [done|]. split; [done|]. split.
  - intros He. apply skip_headers_complete in He as (i' & j' & st2 & p' & Hs' & -> & He).
    rewrite Hs in Hs'. injection Hs' as <- <- <-. eauto.
  - intros (p' & -> & He). eapply skip_headers_sound in He; [|exact Hs].
    by rewrite app_assoc, take_drop in He.
Qed.

Lemma skip_headers_correct_witness :
  (2 <= 4 <= 4)%nat /\ wf_state (Body 1 true) /\
  (expects Start (([x07; x00] ++ bs "ab") ++ bs "c") (bs "abc") <->
   exists p', bs "abc" = slice 2 4 ([x07; x00] ++ bs "ab") ++ p' /\
     expects (Body 1 true) (drop 4 ([x07; x00] ++ bs "ab") ++ bs "c") p').
Proof. apply (skip_headers_correct Start ([x07; x00] ++ bs "ab") 2 4 (Body 1 true)); [exact I|]. by vm_compute. Defined.

(** The state machine never fails on a message: cut anywhere, the first part is
    accepted; and on arbitrary bytes it returns a range or an error, never a
    panic ([unreachable!] included). *)
Theorem skip_headers_accepts st data w p :
  wf_state st ->
  returns (skip_headers st data) /\
  (expects st (data ++ w) p -> exists i j st', skip_headers st data = Ok (i, j, st')).
Proof.
  intros Hwf. split; [by apply skip_headers_returns|].
  intros (i & j & st' & p' & Hs & _ & _)%skip_headers_complete. eauto.
Qed.

Lemma skip_headers_accepts_witness :
  returns (skip_headers (PartialHeader x07) [x00; x61]) /\
  (expects (PartialHeader x07) ([x00; x61] ++ bs "bc") (bs "abc") ->
   exists i j st', skip_headers (PartialHeader x07) [x00; x61] = Ok (i, j, st')).
Proof. apply skip_headers_accepts. exact I. Defined.

#[global] Opaque header_as_bytes hdr.
