(* ===== verification/IO.v ===== *)
(** * [std::io]: errors, [Read] and [Write], and their provided methods

    The framing layer talks to a socket only through [io::Read] and
    [io::Write].  A reader is a type of states with a [read] operation (class
    [Read]); [ReadLaws] is the documented contract of [io::Read]: a read
    delivers a prefix of the bytes that are still to come, at most as many as
    the buffer holds, delivers none only for an empty buffer or at the end of
    the stream, and consumes none when it fails.  [read_exact], [take],
    [read_to_end] and [write_all] are the standard library's loops over these
    operations, retries after [Interrupted] included.

    [pending] is the bytes the peer sends before it closes, [patience] bounds
    the number of interruptions still to come, and [reliable] says that no
    other error occurs.  [Wire] is a concrete duplex stream whose reads and
    writes are cut up by a script of events; it satisfies both contracts. *)

From Stdlib Require Import ZArith Lia.
From S2P Require Import Prelude Bytes Blockstate.

Open Scope nat_scope.

Inductive ErrorKind :=
| UnexpectedEof | Interrupted | InvalidData | InvalidInput | TimedOut
| WouldBlock | WriteZero | NotFound | OtherKind (code : nat).

#[global] Instance ErrorKind_eq_dec : EqDecision ErrorKind.
Proof. solve_decision. Defined.

(** What an [io::Error] carries beside its kind. *)
Inductive Payload :=
| Simple
| Framing (e : FramingError)
| Message (m : string).

#[global] Instance Payload_eq_dec : EqDecision Payload.
Proof. solve_decision. Defined.

Record io_error := IoError { kind : ErrorKind; payload : Payload }.

#[global] Instance io_error_eq_dec : EqDecision io_error.
Proof. solve_decision. Defined.

(** [From<FramingError> for io::Error]. *)
Definition io_of_framing (e : FramingError) : io_error := IoError InvalidData (Framing e).

Definition is_interrupted (e : io_error) : bool := bool_decide (kind e = Interrupted).

(** ** [Read] *)

Class Read (R : Type) := read : nat -> comp R io_error bytes.

(** [read_exact] of the standard library.  [need] is the unfilled length. *)
Fixpoint read_exact `{Read R} (fuel need : nat) : comp R io_error bytes :=
  fun s =>
    match need with
    | O => (Ok [], s)
    | _ =>
        match fuel with
        | O => (NoFuel, s)
        | S fuel' =>
            match read need s with
            | (Ok [], s') => (Err (IoError UnexpectedEof (Message "failed to fill whole buffer")), s')
            | (Ok l, s') =>
                match read_exact fuel' (need - length l) s' with
                | (Ok l', s'') => (Ok (l ++ l'), s'')
                | r => r
                end
            | (Err e, s') => if is_interrupted e then read_exact fuel' need s' else (Err e, s')
            | (Panic, s') => (Panic, s')
            | (NoFuel, s') => (NoFuel, s')
            end
        end
    end.

(** [Take<R>], as a reader whose state is the limit and the inner reader. *)
Definition take_read `{Read R} (n : nat) : comp (nat * R) io_error bytes :=
  fun '(limit, s) =>
    match limit with
    | O => (Ok [], (limit, s))
    | _ =>
        match read (Nat.min n limit) s with
        | (Ok l, s') =>
            if length l <=? limit then (Ok l, (limit - length l, s')) else (Panic, (limit, s'))
        | (Err e, s') => (Err e, (limit, s'))
        | (Panic, s') => (Panic, (limit, s'))
        | (NoFuel, s') => (NoFuel, (limit, s'))
        end
    end.

#[export] Instance Read_take `{Read R} : Read (nat * R) := take_read.

(** [read_to_end]: the size of the buffer of each read is the standard
    library's business; [sizes] is the sequence it chooses. *)
Fixpoint read_to_end `{Read R} (fuel : nat) (sizes : nat -> nat) (buffer : bytes)
    : comp R io_error bytes :=
  fun s =>
    match fuel with
    | O => (NoFuel, s)
    | S fuel' =>
        match read (sizes fuel) s with
        | (Ok [], s') => (Ok buffer, s')
        | (Ok l, s') => read_to_end fuel' sizes (buffer ++ l) s'
        | (Err e, s') =>
            if is_interrupted e then read_to_end fuel' sizes buffer s' else (Err e, s')
        | (Panic, s') => (Panic, s')
        | (NoFuel, s') => (NoFuel, s')
        end
    end.

Class ReadLaws (R : Type) `{Read R} := {
  pending : R -> bytes;
  patience : R -> nat;
  reliable : R -> Prop;
  read_ok n s l s' :
    read n s = (Ok l, s') ->
    pending s = l ++ pending s' /\ length l <= n /\ patience s' <= patience s /\
    (l = [] -> n = O \/ pending s = []) /\ (reliable s -> reliable s');
  read_err n s e s' :
    read n s = (Err e, s') ->
    pending s' = pending s /\ patience s' <= patience s /\
    (is_interrupted e = true -> patience s' < patience s) /\
    (reliable s -> is_interrupted e = true /\ reliable s');
  read_returns n s : returns (read n s).1
}.

(** A bound on the number of reads that deliver something or are interrupted. *)
Definition effort `{ReadLaws R} (s : R) : nat := patience s + length (pending s).

(** ** [Write] *)

Class Write (W : Type) := {
  write : bytes -> comp W io_error nat;
  write_vectored : list bytes -> comp W io_error nat
}.

Definition write_zero : io_error := IoError WriteZero (Message "failed to write whole buffer").

(** [write_all] of the standard library. *)
Fixpoint write_all `{Write W} (fuel : nat) (data : bytes) : comp W io_error unit :=
  fun s =>
    match data with
    | [] => (Ok tt, s)
    | _ =>
        match fuel with
        | O => (NoFuel, s)
        | S fuel' =>
            match write data s with
            | (Ok O, s') => (Err write_zero, s')
            | (Ok n, s') => write_all fuel' (drop n data) s'
            | (Err e, s') => if is_interrupted e then write_all fuel' data s' else (Err e, s')
            | (Panic, s') => (Panic, s')
            | (NoFuel, s') => (NoFuel, s')
            end
        end
    end.

Class WriteLaws (W : Type) `{Write W} := {
  written : W -> bytes;
  wpatience : W -> nat;
  wreliable : W -> Prop;
  write_ok data s n s' :
    write data s = (Ok n, s') ->
    n <= length data /\ written s' = written s ++ take n data /\
    wpatience s' <= wpatience s /\
    (wreliable s -> wreliable s' /\ (data <> [] -> n <> O));
  write_err data s e s' :
    write data s = (Err e, s') ->
    written s' = written s /\ wpatience s' <= wpatience s /\
    (is_interrupted e = true -> wpatience s' < wpatience s) /\
    (wreliable s -> is_interrupted e = true /\ wreliable s');
  write_returns data s : returns (write data s).1;
  write_vectored_ok bufs s n s' :
    write_vectored bufs s = (Ok n, s') ->
    n <= length (concat bufs) /\ written s' = written s ++ take n (concat bufs) /\
    wpatience s' <= wpatience s /\
    (wreliable s -> wreliable s' /\ (concat bufs <> [] -> n <> O));
  write_vectored_err bufs s e s' :
    write_vectored bufs s = (Err e, s') ->
    written s' = written s /\ wpatience s' <= wpatience s /\
    (is_interrupted e = true -> wpatience s' < wpatience s) /\
    (wreliable s -> is_interrupted e = true /\ wreliable s');
  write_vectored_returns bufs s : returns (write_vectored bufs s).1
}.

(** A stream in both directions, whose reads and writes do not disturb each other. *)
Class DuplexLaws (S : Type) `{ReadLaws S} `{WriteLaws S} := {
  read_keeps n (s : S) :
    let s' := (read n s).2 in
    written s' = written s /\ wpatience s' = wpatience s /\ (wreliable s -> wreliable s');
  write_keeps data (s : S) :
    let s' := (write data s).2 in
    pending s' = pending s /\ patience s' = patience s /\ (reliable s -> reliable s');
  write_vectored_keeps bufs (s : S) :
    let s' := (write_vectored bufs s).2 in
    pending s' = pending s /\ patience s' = patience s /\ (reliable s -> reliable s')
}.

(** ** A concrete duplex stream *)

(** What the next call does: transfer at most [S k] bytes, be
    interrupted, or fail. *)
Inductive event :=
| Give (k : nat)
| Intr
| Fault (k : ErrorKind).

Record Wire := MkWire { inbox : bytes; outbox : bytes; revents : list event; wevents : list event }.

Definition wire_read (n : nat) : comp Wire io_error bytes :=
  fun w =>
    match revents w with
    | [] => (Ok (take n (inbox w)), MkWire (drop n (inbox w)) (outbox w) [] (wevents w))
    | Give k :: es =>
        let m := Nat.min n (S k) in
        (Ok (take m (inbox w)), MkWire (drop m (inbox w)) (outbox w) es (wevents w))
    | Intr :: es =>
        (Err (IoError Interrupted Simple), MkWire (inbox w) (outbox w) es (wevents w))
    | Fault k :: es => (Err (IoError k Simple), MkWire (inbox w) (outbox w) es (wevents w))
    end.

Definition wire_write (data : bytes) : comp Wire io_error nat :=
  fun w =>
    match wevents w with
    | [] => (Ok (length data), MkWire (inbox w) (outbox w ++ data) (revents w) [])
    | Give k :: es =>
        let m := Nat.min (length data) (S k) in
        (Ok m, MkWire (inbox w) (outbox w ++ take m data) (revents w) es)
    | Intr :: es =>
        (Err (IoError Interrupted Simple), MkWire (inbox w) (outbox w) (revents w) es)
    | Fault k :: es => (Err (IoError k Simple), MkWire (inbox w) (outbox w) (revents w) es)
    end.

#[export] Instance Read_Wire : Read Wire := wire_read.
#[export] Instance Write_Wire : Write Wire :=
  {| write := wire_write; write_vectored := fun bufs => wire_write (concat bufs) |}.

Definition not_fault (e : event) : bool :=
  match e with Fault _ => false | _ => true end.

#[export] Program Instance ReadLaws_Wire : ReadLaws Wire := {|
  pending := inbox;
  patience := fun w => length (revents w);
  reliable := fun w => Forall (fun e => not_fault e = true) (revents w)
|}.
Next Obligation.
  unfold read, Read_Wire, wire_read. intros n [ib ob [|[k| |k] es] we] l s'; simpl; intros [= <- <-]; simpl.
  - rewrite take_drop, length_take. repeat split; try lia; try done.
    intros [?|?]%take_nil_inv; auto.
  - rewrite take_drop, length_take. repeat split; try lia.
    + intros [?|?]%take_nil_inv; [left; lia|auto].
    + by inversion 1.
Qed.
Next Obligation.
  unfold read, Read_Wire, wire_read.
  intros n [ib ob [|[k| |k] es] we] e s'; simpl; intros [= <- <-]; simpl;
    (split; [done|]); (split; [lia|]).
  - split; [lia|]. inversion 1; done.
  - split; [lia|]. inversion 1; done.
Qed.
Next Obligation.
  unfold read, Read_Wire, wire_read.
  by intros n [ib ob [|[k| |k] es] we].
Qed.

Lemma wire_write_ok data w n w' :
  wire_write data w = (Ok n, w') ->
  n <= length data /\ outbox w' = outbox w ++ take n data /\
  length (wevents w') <= length (wevents w) /\
  (Forall (fun e => not_fault e = true) (wevents w) ->
   Forall (fun e => not_fault e = true) (wevents w') /\ (data <> [] -> n <> O)).
Proof.
  unfold wire_write. destruct w as [ib ob re [|[k| |k] es]]; simpl; intros [= <- <-]; simpl.
  - rewrite firstn_all. repeat split; try lia; try done. by destruct data.
  - repeat split; try lia.
    + by inversion H.
    + intros. destruct data; [done|]. simpl. lia.
Qed.

Lemma wire_write_err data w e w' :
  wire_write data w = (Err e, w') ->
  outbox w' = outbox w /\ length (wevents w') <= length (wevents w) /\
  (is_interrupted e = true -> length (wevents w') < length (wevents w)) /\
  (Forall (fun e => not_fault e = true) (wevents w) ->
   is_interrupted e = true /\ Forall (fun e => not_fault e = true) (wevents w')).
Proof.
  unfold wire_write. destruct w as [ib ob re [|[k| |k] es]]; simpl; intros [= <- <-]; simpl;
    (split; [done|]); (split; [lia|]).
  - split; [lia|]. inversion 1; done.
  - split; [lia|]. inversion 1; done.
Qed.

Lemma wire_write_returns data w : returns (wire_write data w).1.
Proof. by destruct w as [ib ob re [|[k| |k] es]]. Qed.

#[export] Instance WriteLaws_Wire : WriteLaws Wire := {|
  written := outbox;
  wpatience := fun w => length (wevents w);
  wreliable := fun w => Forall (fun e => not_fault e = true) (wevents w);
  write_ok := wire_write_ok;
  write_err := wire_write_err;
  write_returns := wire_write_returns;
  write_vectored_ok := fun bufs => wire_write_ok (concat bufs);
  write_vectored_err := fun bufs => wire_write_err (concat bufs);
  write_vectored_returns := fun bufs => wire_write_returns (concat bufs)
|}.

#[export] Instance DuplexLaws_Wire : DuplexLaws Wire.
Proof.
  split.
  - intros n [ib ob [|[k| |k] es] we]; done.
  - intros data [ib ob re [|[k| |k] es]]; done.
  - intros bufs [ib ob re [|[k| |k] es]]; done.
Qed.

(** ** [read_exact] *)

Section ReadExact.
Context {R : Type} `{ReadLaws R}.

Lemma read_exact_ok fuel n s l s' :
  read_exact fuel n s = (Ok l, s') ->
  length l = n /\ pending s = l ++ pending s' /\ patience s' <= patience s /\
  (reliable s -> reliable s').
Proof.
  revert n s l s'. induction fuel as [|fuel IH]; intros [|n] s l s'; simpl; try naive_solver.
  destruct (read (S n) s) as [[l0|e| |] s1] eqn:E; try done.
  - apply read_ok in E as (Hp & Hl & Hpat & _ & Hrel).
    destruct l0 as [|b l0]; [done|].
    destruct (read_exact fuel (S n - length (b :: l0)) s1) as [[l1|e| |] s2] eqn:E1; try done.
    intros [= <- <-]. apply IH in E1 as (Hl1 & Hp1 & Hpat1 & Hrel1).
    rewrite Hp, Hp1. simpl in *. rewrite length_app, app_assoc.
    repeat split; [lia|lia|auto].
  - apply read_err in E as (Hp & Hpat & _ & Hrel).
    destruct (is_interrupted e); [|done]. intros E1.
    apply IH in E1 as (Hl1 & Hp1 & Hpat1 & Hrel1). rewrite <- Hp, Hp1.
    repeat split; [done|lia|]. intros Hs. by apply Hrel1, Hrel.
Qed.

Lemma read_exact_err fuel n s e s' :
  read_exact fuel n s = (Err e, s') ->
  is_interrupted e = false /\ (reliable s -> length (pending s) < n).
Proof.
  revert n s s'. induction fuel as [|fuel IH]; intros [|n] s s'; simpl; try done.
  destruct (read (S n) s) as [[l0|e'| |] s1] eqn:E; try done.
  - apply read_ok in E as (Hp & Hl & Hpat & Hemp & Hrel).
    destruct l0 as [|b l0].
    + intros [= <- <-]. destruct (Hemp eq_refl) as [?|Hz]; [done|].
      rewrite Hz. simpl. split; [done|lia].
    + destruct (read_exact fuel (S n - length (b :: l0)) s1) as [[l1|e1| |] s2] eqn:E1;
        try done.
      intros [= <- <-]. apply IH in E1 as [? Hlen]. split; [done|]. intros Hs.
      specialize (Hlen (Hrel Hs)). rewrite Hp, length_app. lia.
  - apply read_err in E as (Hp & Hpat & _ & Hrel).
    destruct (is_interrupted e') eqn:Ei.
    + intros E1. apply IH in E1 as [? Hlen]. split; [done|]. intros Hs. rewrite <- Hp.
      apply Hlen. by apply Hrel.
    + intros [= <- <-]. split; [done|]. intros Hs. destruct (Hrel Hs). congruence.
Qed.

Lemma read_exact_returns fuel n s : effort s < fuel -> returns (read_exact fuel n s).1.
Proof.
  unfold effort. revert n s. induction fuel as [|fuel IH]; intros [|n] s Hf; simpl; try done; [lia|].
  pose proof (read_returns (S n) s) as Hret.
  destruct (read (S n) s) as [[l0|e'| |] s1] eqn:E; try done.
  - apply read_ok in E as (Hp & Hl & Hpat & _ & _).
    destruct l0 as [|b l0]; [done|]. rewrite Hp, length_app in Hf. simpl in Hf.
    specialize (IH (S n - length (b :: l0)) s1 ltac:(lia)).
    by destruct (read_exact fuel (S n - length (b :: l0)) s1) as [[]].
  - apply read_err in E as (Hp & Hpat & Hi & _).
    destruct (is_interrupted e'); [|done]. apply IH. specialize (Hi eq_refl). rewrite Hp. lia.
Qed.

End ReadExact.

(** ** [write_all] *)

Section WriteAll.
Context {W : Type} `{WriteLaws W}.

Lemma write_all_ok fuel data s u s' :
  write_all fuel data s = (Ok u, s') ->
  written s' = written s ++ data /\ wpatience s' <= wpatience s /\
  (wreliable s -> wreliable s').
Proof.
  revert data s. induction fuel as [|fuel IH]; intros [|b data] s; cbn [write_all];
    try (intros [= <- <-]; rewrite app_nil_r; by auto); try done.
  destruct (write (b :: data) s) as [[[|n]|e| |] s1] eqn:E; try done.
  - apply write_ok in E as (Hn & Hw & Hpat & Hrel). intros E1.
    apply IH in E1 as (Hw1 & Hpat1 & Hrel1).
    rewrite Hw1, Hw, <- app_assoc, take_drop. repeat split; [lia|naive_solver].
  - apply write_err in E as (Hw & Hpat & _ & Hrel). destruct (is_interrupted e); [|done].
    intros E1. apply IH in E1 as (Hw1 & Hpat1 & Hrel1).
    rewrite Hw1, Hw. repeat split; [lia|naive_solver].
Qed.

Lemma write_all_reliable fuel data s :
  wreliable s -> wpatience s + length data < fuel ->
  exists s', write_all fuel data s = (Ok tt, s').
Proof.
  revert data s. induction fuel as [|fuel IH]; intros [|b data] s Hr Hf; cbn [write_all];
    eauto; [simpl in Hf; lia|].
  pose proof (write_returns (b :: data) s) as Hret.
  destruct (write (b :: data) s) as [[n|e| |] s1] eqn:E; try done.
  - apply write_ok in E as (Hn & Hw & Hpat & Hrel). destruct (Hrel Hr) as [Hr1 Hn0].
    destruct n as [|n]; [by destruct Hn0|]. apply IH; [done|].
    rewrite length_drop. simpl in *. lia.
  - apply write_err in E as (Hw & Hpat & Hi & Hrel). destruct (Hrel Hr) as [Hei Hr1].
    rewrite Hei. apply IH; [done|]. specialize (Hi Hei). lia.
Qed.

End WriteAll.

(** ** What reading and writing preserve *)

Section Preserve.
Context {R : Type} `{Read R} (I : R -> Prop) (HI : forall n s, I s -> I (read n s).2).

Lemma read_exact_preserves fuel n : preserves I (read_exact fuel n).
Proof.
  revert n. induction fuel as [|fuel IH]; intros [|n] s Hs; simpl; try done.
  specialize (HI (S n) s Hs). destruct (read (S n) s) as [[l|e| |] s1]; try done.
  - destruct l as [|b l]; [done|]. specialize (IH (S n - length (b :: l)) s1 HI).
    by destruct (read_exact fuel (S n - length (b :: l)) s1) as [[] ?].
  - destruct (is_interrupted e); [by apply IH|done].
Qed.

Lemma take_read_preserves n : preserves (fun ls => I (snd ls)) (take_read n).
Proof.
  intros [[|limit] s] Hs; simpl; [done|]. specialize (HI (Nat.min n (S limit)) s Hs).
  destruct (read _ s) as [[l|e| |] s1]; try done.
  by destruct (length l <=? S limit).
Qed.

Lemma read_to_end_preserves fuel sizes buffer : preserves I (read_to_end fuel sizes buffer).
Proof.
  revert buffer. induction fuel as [|fuel IH]; intros buffer s Hs; [done|]. cbn [read_to_end].
  specialize (HI (sizes (S fuel)) s Hs). destruct (read _ s) as [[l|e| |] s1]; try done.
  - destruct l; [done|]. by apply IH.
  - destruct (is_interrupted e); [by apply IH|done].
Qed.

End Preserve.

Section PreserveWrite.
Context {W : Type} `{Write W} (I : W -> Prop) (HI : forall data s, I s -> I (write data s).2).

Lemma write_all_preserves fuel data : preserves I (write_all fuel data).
Proof.
  revert data. induction fuel as [|fuel IH]; intros [|b data] s Hs; try done. cbn [write_all].
  specialize (HI (b :: data) s Hs). destruct (write (b :: data) s) as [[[|n]|e| |] s1]; try done.
  - by apply IH.
  - destruct (is_interrupted e); [by apply IH|done].
Qed.

End PreserveWrite.
