(* ===== verification/Writing.v ===== *)
(** * The outgoing message buffer (src/framing/writing.rs)

    [MapiBuf] collects the bytes of one or more messages and cuts them into
    blocks as they arrive: the header of the block being filled is a dummy that
    [finish_block] overwrites.  The abstract buffer [SpecBuf] is a list of
    finished payloads and the payload of the message being written; the
    simulation relation [represents] and the refinement theorem say that the
    bytes [reset] hands out are exactly the messages with those payloads. *)

From Stdlib Require Import ZArith Lia.
From S2P Require Import Prelude Bytes Blockstate IO.

Open Scope nat_scope.

Record MapiBuf := MkMapiBuf {
  buffer : bytes;
  block_left : nat;
  reset_pending : bool
}.

(** [MapiBuf::with_buf] clears the vector it is given; [new] and [default] call it. *)
Definition with_buf (vec : bytes) : MapiBuf :=
  MkMapiBuf [xff; xff] BLOCKSIZE false.
Definition mapibuf_new : MapiBuf := with_buf [].

Section Operations.
Context {E : Type}.

Definition prepare_reset : comp MapiBuf E unit :=
  fun mb =>
    (Ok tt,
     if reset_pending mb then MkMapiBuf (take 2 (buffer mb)) (block_left mb) false else mb).

(** [Vec::extend_from_slice] and the bookkeeping of the open block. *)
Definition extend (chunk : bytes) : comp MapiBuf E unit :=
  fun mb =>
    (Ok tt, MkMapiBuf (buffer mb ++ chunk) (block_left mb - length chunk) (reset_pending mb)).

Definition finish_block (last : bool) : comp MapiBuf E unit :=
  do? mb := sget in
  do! slift (rassert (block_left mb <=? BLOCKSIZE)) in
  let used := BLOCKSIZE - block_left mb in
  do? header := slift (header_new used last) in
  do! slift (rassert (used + 2 <=? length (buffer mb))) in
  let start := length (buffer mb) - used - 2 in
  let patched :=
    take start (buffer mb) ++ header_as_bytes header ++ drop (start + 2) (buffer mb) in
  sput (MkMapiBuf (patched ++ [xff; xff]) BLOCKSIZE (reset_pending mb)).

(** The loop of [append_long]; every round appends at least one byte. *)
Fixpoint append_long_loop (fuel : nat) (data : bytes) : comp MapiBuf E unit :=
  match data with
  | [] => sret tt
  | _ :: _ =>
      match fuel with
      | O => slift NoFuel
      | S fuel' =>
          do? mb0 := sget in
          do! (if block_left mb0 =? 0 then finish_block false else sret tt) in
          do? mb := sget in
          let n := Nat.min (length data) (block_left mb) in
          do! extend (take n data) in
          append_long_loop fuel' (drop n data)
      end
  end.

Definition append_long (data : bytes) : comp MapiBuf E unit :=
  append_long_loop (length data) data.

Definition append (data : bytes) : comp MapiBuf E unit :=
  do! prepare_reset in
  do? mb := sget in
  if length data <=? block_left mb then extend data else append_long data.

Definition end_message : comp MapiBuf E unit :=
  do! prepare_reset in finish_block true.

(** [MapiBuf::reset], with its [debug_assert_eq!] active. *)
Definition reset : comp MapiBuf E bytes :=
  do! prepare_reset in
  do? mb := sget in
  do! slift (rassert (block_left mb =? BLOCKSIZE)) in
  let raw_len :=
    if block_left mb =? BLOCKSIZE then length (buffer mb) - 2 else length (buffer mb) in
  do! sput (MkMapiBuf (buffer mb) BLOCKSIZE true) in
  sret (take raw_len (buffer mb)).

Definition end_reset : comp MapiBuf E bytes :=
  do! end_message in reset.

Definition peek (mb : MapiBuf) : bytes :=
  if reset_pending mb then [] else buffer mb.

Fixpoint append_all (chunks : list bytes) : comp MapiBuf E unit :=
  match chunks with
  | [] => sret tt
  | c :: cs => do! append c in append_all cs
  end.

End Operations.

(** [write_reset] and [write_reset_plus]: the buffer and the writer together. *)
Definition write_reset `{Write W} (fuel : nat) : comp (MapiBuf * W) io_error unit :=
  fun '(mb, wr) =>
    match end_reset mb with
    | (Ok data, mb') =>
        match write_all fuel data wr with
        | (Ok _, wr') => (Ok tt, (mb', wr'))
        | (Err e, wr') => (Err e, (mb', wr'))
        | (Panic, wr') => (Panic, (mb', wr'))
        | (NoFuel, wr') => (NoFuel, (mb', wr'))
        end
    | (Err e, mb') => (Err e, (mb', wr))
    | (Panic, mb') => (Panic, (mb', wr))
    | (NoFuel, mb') => (NoFuel, (mb', wr))
    end.

Definition write_reset_plus `{Write W} (fuel : nat) (extra : list bytes)
    : comp (MapiBuf * W) io_error unit :=
  fun '(mb, wr) =>
    match append_all extra mb with
    | (Ok _, mb') => write_reset fuel (mb', wr)
    | (Err e, mb') => (Err e, (mb', wr))
    | (Panic, mb') => (Panic, (mb', wr))
    | (NoFuel, mb') => (NoFuel, (mb', wr))
    end.

(** ** Specification *)

(** The bytes of several messages in a row. *)
Inductive messages : bytes -> list bytes -> Prop :=
| messages_nil : messages [] []
| messages_snoc ws ps w p :
    messages ws ps -> message w p -> messages (ws ++ w) (ps ++ [p]).

Record SpecBuf := MkSpecBuf { finished : list bytes; current : bytes }.

Inductive buf_op := OpAppend (data : bytes) | OpEnd | OpReset.

(** One operation on the abstract buffer: [None] is the contract violation
    that [reset] asserts against, a reset in the middle of a message. *)
Definition spec_step (op : buf_op) (sb : SpecBuf) : option (list (list bytes) * SpecBuf) :=
  match op with
  | OpAppend data => Some ([], MkSpecBuf (finished sb) (current sb ++ data))
  | OpEnd => Some ([], MkSpecBuf (finished sb ++ [current sb]) [])
  | OpReset =>
      if decide (current sb = []) then Some ([finished sb], MkSpecBuf [] []) else None
  end.

Definition impl_step {E} (op : buf_op) : comp MapiBuf E (list bytes) :=
  match op with
  | OpAppend data => do! append data in sret []
  | OpEnd => do! end_message in sret []
  | OpReset => do? wire := reset in sret [wire]
  end.

Fixpoint spec_run (ops : list buf_op) (sb : SpecBuf) : option (list (list bytes) * SpecBuf) :=
  match ops with
  | [] => Some ([], sb)
  | op :: ops' =>
      match spec_step op sb with
      | Some (out, sb') =>
          match spec_run ops' sb' with
          | Some (outs, sb'') => Some (out ++ outs, sb'')
          | None => None
          end
      | None => None
      end
  end.

Fixpoint impl_run {E} (ops : list buf_op) : comp MapiBuf E (list bytes) :=
  match ops with
  | [] => sret []
  | op :: ops' =>
      do? out := impl_step op in
      do? outs := impl_run ops' in
      sret (out ++ outs)
  end.

(** [sealed w c]: [w] is a row of full blocks, none the last, with payload [c]. *)
Inductive sealed : bytes -> bytes -> Prop :=
| sealed_nil : sealed [] []
| sealed_snoc w c d :
    sealed w c -> length d = BLOCKSIZE ->
    sealed (w ++ hdr BLOCKSIZE false ++ d) (c ++ d).

(** The bytes that the headers of these messages and their payloads take at most. *)
Definition wire_bound (ps : list bytes) : nat := 3 * length (concat ps) + 2 * length ps.

(** The shape of the buffer while a message is open: finished messages, full
    blocks of the open message, a dummy header and the open block. *)
Definition is_open (mb : MapiBuf) (sb : SpecBuf) : Prop :=
  exists done w c h t,
    buffer mb = done ++ w ++ h ++ t /\ length h = 2 /\
    (messages done (finished sb) /\ length done <= wire_bound (finished sb)) /\ sealed w c /\ current sb = c ++ t /\
    length t + block_left mb = BLOCKSIZE /\ (t = [] -> c = []).

Definition represents (mb : MapiBuf) (sb : SpecBuf) : Prop :=
  if reset_pending mb then
    2 <= length (buffer mb) /\ block_left mb = BLOCKSIZE /\
    finished sb = [] /\ current sb = []
  else is_open mb sb.

(** ** Lemmas *)

Lemma sealed_message w c w' p : sealed w c -> message w' p -> message (w ++ w') (c ++ p).
Proof.
  intros Hs. revert w' p. induction Hs as [|w c d _ IH Hd]; intros w' p Hm; [done|].
  rewrite <- !app_assoc. apply IH. rewrite <- Hd. constructor; [lia|done].
Qed.

Lemma sealed_length w c : sealed w c -> length w <= 3 * length c.
Proof.
  induction 1 as [|w c d _ IH Hd]; [done|]. rewrite !length_app, hdr_length.
  pose proof BLOCKSIZE_pos. lia.
Qed.

Lemma wire_bound_app ps qs : wire_bound (ps ++ qs) = wire_bound ps + wire_bound qs.
Proof. unfold wire_bound. rewrite concat_app, !length_app. lia. Qed.

Lemma represents_new vec : represents (with_buf vec) (MkSpecBuf [] []).
Proof.
  exists [], [], [], [xff; xff], []. simpl. repeat split; try constructor.
Qed.

Section Lemmas.
Context {E : Type}.

Lemma prepare_reset_open mb sb :
  represents mb sb ->
  exists mb', @prepare_reset E mb = (Ok tt, mb') /\ is_open mb' sb /\
              reset_pending mb' = false /\ block_left mb' = block_left mb.
Proof.
  unfold represents, prepare_reset. destruct (reset_pending mb) eqn:Ep.
  - intros (Hl & Hb & Hf & Hc). eexists. repeat split.
    exists [], [], [], (take 2 (buffer mb)), []. simpl.
    rewrite Hf, Hc, Hb, app_nil_r, length_take. repeat split; try constructor; lia.
  - intros Ho. eexists. repeat split; eauto.
Qed.

Lemma finish_block_open (last : bool) mb done w h t :
  buffer mb = done ++ w ++ h ++ t -> length h = 2 ->
  length t + block_left mb = BLOCKSIZE ->
  @finish_block E last mb =
  (Ok tt, MkMapiBuf (done ++ w ++ hdr (length t) last ++ t ++ [xff; xff])
                    BLOCKSIZE (reset_pending mb)).
Proof.
  intros Hb Hh Hl. unfold finish_block, sbind, sget, slift, sput, rassert.
  replace (block_left mb <=? BLOCKSIZE) with true by (symmetry; apply Nat.leb_le; lia).
  replace (BLOCKSIZE - block_left mb) with (length t) by lia.
  destruct (header_new_ok E (length t) last) as (hd & -> & Hhd); [lia|].
  assert (length (buffer mb) = length done + (length w + (2 + length t))) as Hlen.
  { rewrite Hb, !length_app, Hh. done. }
  replace (length t + 2 <=? length (buffer mb)) with true by (symmetry; apply Nat.leb_le; lia).
  rewrite Hhd. do 2 f_equal.
  replace (length (buffer mb) - length t - 2) with (length (done ++ w)) by (rewrite length_app; lia).
  replace (length (done ++ w) + 2) with (length (done ++ w ++ h)) by (rewrite !length_app; lia).
  rewrite Hb. rewrite (app_assoc done w (h ++ t)), take_app_length.
  replace ((done ++ w) ++ h ++ t) with ((done ++ w ++ h) ++ t) by by rewrite <- !app_assoc.
  rewrite drop_app_length. by rewrite <- !app_assoc.
Qed.

Lemma extend_open chunk mb sb :
  is_open mb sb -> length chunk <= block_left mb ->
  exists mb', @extend E chunk mb = (Ok tt, mb') /\
    is_open mb' (MkSpecBuf (finished sb) (current sb ++ chunk)) /\
    reset_pending mb' = reset_pending mb.
Proof.
  intros (done & w & c & h & t & Hb & Hh & [Hm Hbound] & Hs & Hc & Hl & Ht) Hlen.
  eexists. split; [done|]. split; [|done].
  exists done, w, c, h, (t ++ chunk). simpl.
  rewrite Hb, Hc, length_app, <- !app_assoc. repeat split; auto; [lia|].
  intros [-> ->]%app_nil. auto.
Qed.

Lemma append_long_open fuel data mb sb :
  length data <= fuel -> is_open mb sb -> reset_pending mb = false ->
  exists mb', @append_long_loop E fuel data mb = (Ok tt, mb') /\
    is_open mb' (MkSpecBuf (finished sb) (current sb ++ data)) /\
    reset_pending mb' = false.
Proof.
  revert data mb sb. induction fuel as [|fuel IH]; intros data mb sb Hf Ho Hp.
  { destruct data; [|simpl in Hf; lia]. eexists. split; [done|].
    rewrite app_nil_r. by destruct sb. }
  destruct data as [|b rest].
  { eexists. split; [done|]. rewrite app_nil_r. by destruct sb. }
  cbn [append_long_loop]. remember (b :: rest) as data eqn:Edata.
  assert (0 < length data) as Hpos by (rewrite Edata; simpl; lia).
  set (n := fun mb : MapiBuf => Nat.min (length data) (block_left mb)).
  assert (exists mb1,
    (if block_left mb =? 0 then finish_block false else sret tt) mb = (@Ok E _ tt, mb1) /\
    0 < block_left mb1 /\ reset_pending mb1 = false /\
    is_open (MkMapiBuf (buffer mb1 ++ take (n mb1) data) (block_left mb1 - length (take (n mb1) data)) false)
            (MkSpecBuf (finished sb) (current sb ++ take (n mb1) data)))
    as (mb1 & Hstep & Hleft & Hp1 & Ho1).
  { destruct (Nat.eqb_spec (block_left mb) 0) as [Hz|Hnz].
    - destruct Ho as (done & w & c & h & t & Hb & Hh & Hm & Hs & Hc & Hl & Ht).
      eexists. split; [by eapply finish_block_open|]. simpl.
      pose proof BLOCKSIZE_pos. repeat split; [done|done|].
      unfold n. simpl. set (chunk := take (Nat.min (length data) BLOCKSIZE) data).
      assert (length chunk = Nat.min (length data) BLOCKSIZE) as Hck.
      { unfold chunk. rewrite length_take. lia. }
      exists done, (w ++ hdr BLOCKSIZE false ++ t), (c ++ t), [xff; xff], chunk.
      simpl. replace (length t) with BLOCKSIZE by lia. rewrite Hc, <- !app_assoc.
      split; [done|]. split; [done|]. split; [done|].
      split; [constructor; [done|lia]|]. split; [done|]. split; [lia|].
      + intros Hnil. rewrite Hnil in Hck. simpl in Hck. lia.
    - exists mb. repeat split; [lia|done|].
      destruct (extend_open (take (n mb) data) mb sb Ho) as (mb' & [= <-] & Ho' & _).
      { rewrite length_take. unfold n. lia. }
      by rewrite Hp in Ho'. }
  unfold sbind at 1, sget at 1. unfold sbind at 1. rewrite Hstep.
  unfold sbind at 1, sget at 1. unfold sbind at 1, extend at 1. rewrite Hp1.
  destruct (IH (drop (n mb1) data) _ _ ltac:(rewrite length_drop; unfold n; lia) Ho1 eq_refl)
    as (mb' & Hrun & Ho' & Hp').
  exists mb'. split; [exact Hrun|]. split; [|done]. simpl in Ho'.
  by rewrite <- app_assoc, take_drop in Ho'.
Qed.

Lemma append_represents data mb sb :
  represents mb sb ->
  exists mb', @append E data mb = (Ok tt, mb') /\ reset_pending mb' = false /\
    represents mb' (MkSpecBuf (finished sb) (current sb ++ data)).
Proof.
  intros (mb1 & Hp & Ho & Hr & _)%prepare_reset_open.
  unfold append, sbind, sget. rewrite Hp. unfold represents.
  destruct (Nat.leb_spec (length data) (block_left mb1)) as [Hle|Hgt].
  - destruct (extend_open data mb1 sb Ho Hle) as (mb2 & -> & Ho2 & Hr2).
    exists mb2. rewrite Hr2, Hr. done.
  - destruct (append_long_open (length data) data mb1 sb) as (mb2 & Hrun & Ho2 & Hr2); auto.
    unfold append_long. rewrite Hrun. exists mb2. by rewrite Hr2.
Qed.

Lemma end_represents mb sb :
  represents mb sb ->
  exists mb', @end_message E mb = (Ok tt, mb') /\ reset_pending mb' = false /\
    represents mb' (MkSpecBuf (finished sb ++ [current sb]) []).
Proof.
  intros (mb1 & Hp & Ho & Hr & _)%prepare_reset_open.
  unfold end_message, sbind. rewrite Hp.
  destruct Ho as (done & w & c & h & t & Hb & Hh & Hm & Hs & Hc & Hl & Ht).
  erewrite finish_block_open by eauto. eexists. split; [done|]. simpl. split; [done|].
  unfold represents. simpl. rewrite Hr.
  exists (done ++ w ++ hdr (length t) true ++ t), [], [], [xff; xff], []. simpl.
  rewrite <- !app_assoc.
  split; [done|]. split; [done|].
  split; [|split; [constructor|split; [done|split; [done|done]]]].
  destruct Hm as [Hm Hbound]. rewrite Hc. split.
  - constructor; [done|]. apply sealed_message; [done|]. constructor. lia.
  - pose proof (sealed_length w c Hs). rewrite wire_bound_app, !length_app, hdr_length.
    unfold wire_bound at 2. simpl. rewrite app_nil_r, length_app. lia.
Qed.

Lemma reset_represents mb sb :
  represents mb sb ->
  if decide (current sb = []) then
    exists wire mb', @reset E mb = (Ok wire, mb') /\
      (messages wire (finished sb) /\ length wire <= wire_bound (finished sb)) /\
      reset_pending mb' = true /\ represents mb' (MkSpecBuf [] [])
  else exists mb', @reset E mb = (Panic, mb').
Proof.
  intros (mb1 & Hp & Ho & Hr & _)%prepare_reset_open.
  unfold reset, sbind, sget, slift, sput. rewrite Hp.
  destruct Ho as (done & w & c & h & t & Hb & Hh & [Hm Hbound] & Hs & Hc & Hl & Ht).
  case_decide as Hcur.
  - rewrite Hcur in Hc. symmetry in Hc. apply app_nil in Hc as [-> ->].
    simpl in Hl. rewrite Hl, Nat.eqb_refl. simpl. do 2 eexists. split; [done|].
    assert (w = []) as ->.
    { inversion Hs as [|w0 c0 d Hs0 Hd E1 E2]; [done|].
      apply (f_equal length) in E2. rewrite length_app in E2. simpl in E2.
      pose proof BLOCKSIZE_pos. lia. }
    rewrite Hb, app_nil_r. simpl. rewrite length_app, Hh, Nat.add_sub, take_app_length.
    unfold represents. simpl. rewrite length_app, Hh. repeat split; auto. lia.
  - assert (t <> []) as Hne. { intros ->. rewrite (Ht eq_refl) in Hc. done. }
    destruct (Nat.eqb_spec (block_left mb1) BLOCKSIZE) as [Heq|].
    + destruct t; [done|]. simpl in Hl. lia.
    + simpl. eauto.
Qed.

Lemma impl_step_refines op mb sb :
  represents mb sb ->
  match spec_step op sb with
  | Some (out, sb') =>
      exists wires mb', @impl_step E op mb = (Ok wires, mb') /\
        Forall2 messages wires out /\ represents mb' sb'
  | None => exists mb', @impl_step E op mb = (Panic, mb')
  end.
Proof.
  intros Hr. destruct op as [data| |]; simpl.
  - destruct (append_represents data mb sb Hr) as (mb' & Hrun & _ & Hr').
    unfold sbind. rewrite Hrun. exists [], mb'. repeat split; [constructor|done].
  - destruct (end_represents mb sb Hr) as (mb' & Hrun & _ & Hr').
    unfold sbind. rewrite Hrun. exists [], mb'. repeat split; [constructor|done].
  - pose proof (reset_represents mb sb Hr) as H. unfold sbind. case_decide.
    + destruct H as (wire & mb' & -> & [Hm _] & _ & Hr'). exists [wire], mb'.
      repeat split; [by repeat constructor|done].
    + destruct H as (mb' & ->). eauto.
Qed.

Lemma impl_run_refines ops mb sb :
  represents mb sb ->
  match spec_run ops sb with
  | Some (outs, sb') =>
      exists wires mb', @impl_run E ops mb = (Ok wires, mb') /\
        Forall2 messages wires outs /\ represents mb' sb'
  | None => exists mb', @impl_run E ops mb = (Panic, mb')
  end.
Proof.
  revert mb sb. induction ops as [|op ops IH]; intros mb sb Hr; simpl.
  { exists [], mb. repeat split; [constructor|done]. }
  pose proof (impl_step_refines op mb sb Hr) as Hstep. unfold sbind.
  destruct (spec_step op sb) as [[out sb1]|].
  - destruct Hstep as (wires & mb1 & -> & Hw & Hr1). specialize (IH mb1 sb1 Hr1).
    destruct (spec_run ops sb1) as [[outs sb2]|].
    + destruct IH as (wires2 & mb2 & -> & Hw2 & Hr2). exists (wires ++ wires2), mb2.
      repeat split; [by apply Forall2_app|done].
    + destruct IH as (mb2 & ->). eauto.
  - destruct Hstep as (mb1 & ->). eauto.
Qed.

End Lemmas.

(** ** Theorems *)

(** C14: Any sequence of [append], [end] and [reset] on a fresh buffer behaves like
    the abstract buffer: each [reset] hands out exactly the finished messages,
    correctly cut into blocks, in order; the only failure is the assertion
    against a [reset] in the middle of a message. *)
Theorem mapibuf_refines E vec ops :
  match spec_run ops (MkSpecBuf [] []) with
  | Some (outs, sb') =>
      exists wires mb', @impl_run E ops (with_buf vec) = (Ok wires, mb') /\
        Forall2 messages wires outs /\ represents mb' sb'
  | None => exists mb', @impl_run E ops (with_buf vec) = (Panic, mb')
  end.
Proof. apply impl_run_refines, represents_new. Qed.

Lemma end_reset_represents E mb sb :
  represents mb sb ->
  exists wire mb', @end_reset E mb = (Ok wire, mb') /\
    (messages wire (finished sb ++ [current sb]) /\ length wire <= wire_bound (finished sb ++ [current sb])) /\
    represents mb' (MkSpecBuf [] []).
Proof.
  intros Hr. unfold end_reset, sbind.
  destruct (@end_represents E mb sb Hr) as (mb1 & -> & _ & Hr1).
  destruct (@reset_represents E _ _ Hr1) as (wire & mb2 & -> & Hm & _ & Hr2). eauto 10.
Qed.

Lemma append_all_represents E chunks mb sb :
  represents mb sb ->
  exists mb', @append_all E chunks mb = (Ok tt, mb') /\
    represents mb' (MkSpecBuf (finished sb) (current sb ++ concat chunks)).
Proof.
  revert mb sb. induction chunks as [|c cs IH]; intros mb [fin cur] Hr; simpl.
  - exists mb. by rewrite app_nil_r.
  - destruct (@append_represents E c _ _ Hr) as (mb1 & Hrun & _ & Hr1).
    destruct (IH _ _ Hr1) as (mb2 & Hrun2 & Hr2). unfold sbind. rewrite Hrun.
    exists mb2. simpl in *. by rewrite <- app_assoc in Hr2.
Qed.

Section Writers.
Context {W : Type} `{WriteLaws W}.

Lemma write_reset_plus_reliable fuel extra mb sb wr :
  represents mb sb -> wreliable wr ->
  exists wire, messages wire (finished sb ++ [current sb ++ concat extra]) /\
    (wpatience wr + length wire < fuel ->
     exists mb' wr', write_reset_plus fuel extra (mb, wr) = (Ok tt, (mb', wr')) /\
       represents mb' (MkSpecBuf [] []) /\ wreliable wr' /\
       written wr' = written wr ++ wire).
Proof.
  intros Hr Hw. destruct (append_all_represents io_error extra mb sb Hr) as (mb1 & Ha & Hr1).
  destruct (end_reset_represents io_error mb1 _ Hr1) as (wire & mb2 & He & [Hm _] & Hr2).
  exists wire. split; [done|]. intros Hf.
  destruct (write_all_reliable fuel wire wr Hw Hf) as (wr' & Hwr).
  exists mb2, wr'. unfold write_reset_plus. rewrite Ha. unfold write_reset. rewrite He, Hwr.
  apply write_all_ok in Hwr as (Hout & _ & Hrel). auto.
Qed.

End Writers.
