(* ===== verification/Reading.v ===== *)
(** * The incoming message reader (src/framing/reading.rs)

    [MapiReader] reads the payload of one message from any [Read].  It is
    verified against the contract [ReadLaws] of the underlying reader and the
    wire format [message]: on every stream, what it returns is the payload of
    the bytes it consumed (soundness), and on a stream that starts with a
    message it returns that payload and stops at the message's last byte,
    whatever the sizes of the individual reads (completeness). *)

From Stdlib Require Import ZArith Lia.
From S2P Require Import Prelude Bytes Blockstate IO.

Open Scope nat_scope.

Record MapiReader (R : Type) := MkReader { inner : R; state : BlockState }.
Arguments MkReader {R}.
Arguments inner {R}.
Arguments state {R}.

Section Operations.
Context {R : Type} `{Read R}.

Definition reader_new (r : R) : MapiReader R := MkReader r Start.

(** [self.state.interpret(..)?], the framing error converted to an [io::Error]. *)
Definition interpret_io (data : bytes) : comp (MapiReader R) io_error (nat * nat) :=
  fun rd =>
    let '(r, st) := interpret data (state rd) in
    (res_map_err io_of_framing r, MkReader (inner rd) st).

Definition plain_eof (e : io_error) : io_error :=
  if decide (kind e = UnexpectedEof) then IoError UnexpectedEof Simple else e.

Definition read_header (fuel n : nat) : comp (MapiReader R) io_error unit :=
  fun rd =>
    match read_exact fuel n (inner rd) with
    | (Ok buf, s) => (do! interpret_io buf in sret tt) (MkReader s (state rd))
    | (Err e, s) => (Err (plain_eof e), MkReader s (state rd))
    | (Panic, s) => (Panic, MkReader s (state rd))
    | (NoFuel, s) => (NoFuel, MkReader s (state rd))
    end.

Definition read_some (n : nat) : comp (MapiReader R) io_error bytes :=
  fun rd =>
    let '(r, s) := read n (inner rd) in
    (let? l := r in
     if decide (l = []) then Err (IoError UnexpectedEof Simple) else Ok l,
     MkReader s (state rd)).

(** [read_body]: [len] is the length of the caller's buffer; the result is the
    part of the buffer that holds body bytes. *)
Definition read_body (remaining : nat) (last : bool) (len : nat)
    : comp (MapiReader R) io_error bytes :=
  do! slift (rassert (0 <? remaining)) in
  let ideal_read := if last then remaining else remaining + 2 in
  do? data := read_some (Nat.min ideal_read len) in
  do? (start, stop) := interpret_io data in
  do! slift (rassert (start =? 0)) in
  do! (if stop <? length data then
         let tail := drop stop data in
         do? (start', stop') := interpret_io tail in
         do! slift (rassert (stop' <=? start')) in
         slift (rassert (stop' =? length tail))
       else sret tt) in
  sret (take stop data).

Fixpoint do_read_loop (efuel fuel len : nat) : comp (MapiReader R) io_error bytes :=
  fun rd =>
    match state rd with
    | Body remaining last => read_body remaining last len rd
    | End => (Ok [], rd)
    | Start =>
        match fuel with
        | O => (NoFuel, rd)
        | S fuel' => (do! read_header efuel 2 in do_read_loop efuel fuel' len) rd
        end
    | PartialHeader _ =>
        match fuel with
        | O => (NoFuel, rd)
        | S fuel' => (do! read_header efuel 1 in do_read_loop efuel fuel' len) rd
        end
    end.

Definition do_read (fuel len : nat) : comp (MapiReader R) io_error bytes :=
  if len =? 0 then sret [] else do_read_loop fuel fuel len.

(** [skip_to_end] and [finish]. *)
Fixpoint skip_to_end (efuel fuel : nat) : comp (MapiReader R) io_error unit :=
  fun rd =>
    if decide (state rd = End) then (Ok tt, rd)
    else match fuel with
         | O => (NoFuel, rd)
         | S fuel' =>
             (do! do_read efuel (BLOCKSIZE + 2) in skip_to_end efuel fuel') rd
         end.

Definition finish (fuel : nat) : comp (MapiReader R) io_error unit :=
  skip_to_end fuel fuel.

(** [(&mut reader).take(limit).read_to_end(buffer)]. *)
Definition take_to_end (fuel : nat) (sizes : nat -> nat) (limit : nat) (buffer : bytes)
    : comp (MapiReader R) io_error bytes :=
  fun rd =>
    let '(r, (_, rd')) :=
      @read_to_end _ (@take_read _ (do_read fuel)) fuel sizes buffer (limit, rd) in
    (r, rd').

(** The checks after the limited read, the same in both functions below. *)
Definition check_limit (fuel : nat) : comp (MapiReader R) io_error unit :=
  do? rd := sget in
  do! (if decide (state rd = End) then sret tt
       else do? extra := do_read fuel 1 in
            if decide (extra = []) then sret tt else sfail (io_of_framing TooLong)) in
  do? rd' := sget in
  if decide (state rd' = End) then finish fuel else sfail (io_of_framing TooLong).

Definition run_reader {A} (m : comp (MapiReader R) io_error A) : comp R io_error A :=
  fun s => let '(r, rd) := m (reader_new s) in (r, inner rd).

Definition to_limited (fuel : nat) (sizes : nat -> nat) (buffer : bytes) (limit : nat)
    : comp R io_error bytes :=
  run_reader (
    do? out := take_to_end fuel sizes limit buffer in
    do! check_limit fuel in
    sret out).

(** [read_to_string] checks the bytes it has read before it appends them. *)
Definition to_limited_string (fuel : nat) (sizes : nat -> nat) (buffer : bytes) (limit : nat)
    : comp R io_error bytes :=
  run_reader (
    do? out := take_to_end fuel sizes limit [] in
    do! (if utf8_valid out then sret tt
         else sfail (IoError InvalidData (Message "stream did not contain valid UTF-8"))) in
    do! check_limit fuel in
    sret (buffer ++ out)).

End Operations.

(** ** What reading a message preserves *)

Section Preserve.
Context {R : Type} `{Read R} (I : R -> Prop) (HI : forall n s, I s -> I (read n s).2).

Notation inside := (fun rd : MapiReader R => I (inner rd)).

Lemma interpret_io_preserves data : preserves inside (interpret_io data).
Proof. intros rd Hrd. unfold interpret_io. by destruct (interpret data (state rd)). Qed.
#[local] Hint Resolve interpret_io_preserves : rust.

Lemma read_header_preserves fuel n : preserves inside (read_header fuel n).
Proof.
  intros rd Hrd. unfold read_header.
  pose proof (read_exact_preserves I HI fuel n (inner rd) Hrd) as Hs.
  destruct (read_exact fuel n (inner rd)) as [[buf|e| |] s]; try done.
  by apply (preserves_bind inside); [auto with rust..|].
Qed.

Lemma read_some_preserves n : preserves inside (read_some n).
Proof.
  intros rd Hrd. unfold read_some. specialize (HI n (inner rd) Hrd).
  by destruct (read n (inner rd)) as [r s].
Qed.
#[local] Hint Resolve read_header_preserves read_some_preserves : rust.

Lemma read_body_preserves remaining last len : preserves inside (read_body remaining last len).
Proof.
  unfold read_body. apply preserves_bind; [auto with rust|]. intros _.
  apply preserves_bind; [auto with rust|]. intros data.
  apply preserves_bind; [auto with rust|]. intros [start stop].
  apply preserves_bind; [auto with rust|]. intros _.
  apply preserves_bind; [|auto with rust]. apply preserves_if; [|auto with rust].
  apply preserves_bind; [auto with rust|]. intros [start' stop']. auto with rust.
Qed.

Lemma do_read_preserves fuel len : preserves inside (do_read fuel len).
Proof.
  unfold do_read. apply preserves_if; [auto with rust|].
  enough (forall efuel, preserves inside (do_read_loop efuel fuel len)) by auto.
  intros efuel. induction fuel as [|fuel IH]; intros rd Hrd; cbn [do_read_loop];
    destruct (state rd); try done; try by apply read_body_preserves.
  - revert rd Hrd. apply (preserves_bind inside); auto with rust.
  - revert rd Hrd. apply (preserves_bind inside); auto with rust.
Qed.

Lemma finish_preserves fuel : preserves inside (finish fuel).
Proof.
  unfold finish. enough (forall efuel, preserves inside (skip_to_end efuel fuel)) by auto.
  intros efuel. induction fuel as [|fuel IH]; intros rd Hrd; cbn [skip_to_end];
    destruct (decide (state rd = End)); try done.
  revert rd Hrd n. intros rd Hrd _. revert rd Hrd.
  apply (preserves_bind inside); [apply do_read_preserves|auto].
Qed.
#[local] Hint Resolve do_read_preserves finish_preserves : rust.

Lemma take_to_end_preserves fuel sizes limit buffer :
  preserves inside (take_to_end fuel sizes limit buffer).
Proof.
  intros rd Hrd. unfold take_to_end.
  pose proof (@read_to_end_preserves _ (@take_read _ (do_read fuel)) _
    (@take_read_preserves _ (do_read fuel) inside (do_read_preserves fuel))
    fuel sizes buffer (limit, rd) Hrd) as H1.
  by destruct (read_to_end _ _ _ _) as [r [n rd']].
Qed.

Lemma check_limit_preserves fuel : preserves inside (check_limit fuel).
Proof.
  unfold check_limit. apply preserves_bind; [auto with rust|]. intros rd. apply preserves_bind.
  - apply preserves_decide; [auto with rust|]. apply preserves_bind; [auto with rust|].
    intros extra. auto with rust.
  - intros _. apply preserves_bind; [auto with rust|]. intros rd'. auto with rust.
Qed.
#[local] Hint Resolve take_to_end_preserves check_limit_preserves : rust.

Lemma run_reader_preserves {A} (m : comp (MapiReader R) io_error A) :
  preserves inside m -> preserves I (run_reader m).
Proof.
  intros Hm s Hs. unfold run_reader. specialize (Hm (reader_new s) Hs). by destruct (m _).
Qed.

Lemma to_limited_preserves fuel sizes buffer limit : preserves I (to_limited fuel sizes buffer limit).
Proof.
  apply run_reader_preserves, preserves_bind; [auto with rust|].
  intros out. apply preserves_bind; auto with rust.
Qed.

Lemma to_limited_string_preserves fuel sizes buffer limit :
  preserves I (to_limited_string fuel sizes buffer limit).
Proof.
  apply run_reader_preserves, preserves_bind; [auto with rust|]. intros out.
  apply preserves_bind; [destruct (utf8_valid out); auto with rust|].
  intros _. apply preserves_bind; auto with rust.
Qed.

End Preserve.

(** ** Lemmas *)

Section Lemmas.
Context {R : Type} `{ReadLaws R}.
Implicit Types rd : MapiReader R.

(** [advances rd l rd']: between [rd] and [rd'] some bytes were consumed, and
    what they carry is the payload [l]. *)
Definition advances rd (l : bytes) rd' : Prop :=
  exists c, pending (inner rd) = c ++ pending (inner rd') /\
    forall w p, expects (state rd') w p -> expects (state rd) (c ++ w) (l ++ p).

Lemma advances_refl rd s' :
  pending s' = pending (inner rd) -> advances rd [] (MkReader s' (state rd)).
Proof. intros Hp. exists []. simpl. by rewrite Hp. Qed.

Lemma advances_trans rd1 l1 rd2 l2 rd3 :
  advances rd1 l1 rd2 -> advances rd2 l2 rd3 -> advances rd1 (l1 ++ l2) rd3.
Proof.
  intros (c1 & Hp1 & H1) (c2 & Hp2 & H2). exists (c1 ++ c2).
  rewrite Hp1, Hp2, app_assoc. split; [done|]. intros w p Hw.
  rewrite <- !app_assoc. auto.
Qed.

(** Consuming [data] whole through [skip_headers]. *)
Lemma advances_skip rd s' data i st' :
  pending (inner rd) = data ++ pending s' ->
  skip_headers (state rd) data = Ok (i, length data, st') ->
  advances rd (slice i (length data) data) (MkReader s' st').
Proof.
  intros Hp Hs. exists data. split; [done|]. simpl. intros w p Hw.
  eapply skip_headers_sound in Hs; [|done]. by rewrite firstn_all in Hs.
Qed.

(** *** [interpret_io] *)

Lemma interpret_io_ok data rd i j rd' :
  interpret_io data rd = (Ok (i, j), rd') <->
  exists st', skip_headers (state rd) data = Ok (i, j, st') /\ rd' = MkReader (inner rd) st'.
Proof.
  unfold interpret_io, interpret.
  destruct (skip_headers (state rd) data) as [[[]]| | |]; naive_solver.
Qed.

Lemma interpret_io_err data rd e rd' :
  interpret_io data rd = (Err e, rd') -> is_interrupted e = false /\ rd' = rd.
Proof.
  unfold interpret_io, interpret. destruct rd as [s st]. simpl.
  destruct (skip_headers st data) as [[[]]| | |]; naive_solver.
Qed.

Lemma interpret_io_returns data rd :
  wf_state (state rd) -> returns (interpret_io data rd).1.
Proof.
  intros Hwf. pose proof (skip_headers_returns (state rd) data Hwf) as Hr.
  unfold interpret_io, interpret.
  by destruct (skip_headers (state rd) data) as [[[]]| | |].
Qed.

(** At most one header is decoded from two bytes. *)
Lemma skip_headers_short st data i j st' :
  match st with Start => length data <= 2 | PartialHeader _ => length data <= 1 | _ => False end ->
  skip_headers st data = Ok (i, j, st') -> i = length data /\ j = length data.
Proof.
  intros Hl Hs. destruct st; try done.
  - destruct data as [|b [|b' [|]]]; simpl in Hl; try lia.
    + by injection Hs as <- <- _.
    + by injection Hs as <- <- _.
    + rewrite skip_headers_start in Hs. res_inv.
      apply shift_range_ok in Hs as (i' & j' & [= <- <- <-] & -> & ->). done.
  - destruct data as [|b [|]]; simpl in Hl; try lia.
    + by injection Hs as <- <- _.
    + rewrite skip_headers_partial in Hs. res_inv.
      apply shift_range_ok in Hs as (i' & j' & [= <- <- <-] & -> & ->). done.
Qed.

(** *** [read_header] *)

Definition header_need (st : BlockState) : nat :=
  match st with Start => 2 | PartialHeader _ => 1 | _ => 0 end.

Lemma read_header_ok fuel n rd u rd' :
  0 < n -> n = header_need (state rd) ->
  read_header fuel n rd = (Ok u, rd') ->
  advances rd [] rd' /\ wf_state (state rd') /\
  effort (inner rd') < effort (inner rd) /\
  (reliable (inner rd) -> reliable (inner rd')).
Proof.
  intros Hn Hneed. unfold read_header.
  destruct (read_exact fuel n (inner rd)) as [[buf|e| |] s] eqn:E; try done.
  intros Hrun. apply read_exact_ok in E as (Hl & Hp & Hpat & Hrel).
  apply sbind_ok in Hrun as ([i j] & rd1 & Hi & [= _ <-]).
  apply interpret_io_ok in Hi as (st' & Hs & ->). simpl in Hs.
  destruct (skip_headers_short (state rd) buf i j st') as [-> ->]; [|done|].
  { destruct (state rd); simpl in *; lia. }
  split.
  { rewrite <- (slice_empty (length buf) buf). by apply advances_skip. }
  simpl. split; [|split; [|done]].
  - eapply skip_headers_range; [|exact Hs]. destruct (state rd); simpl in *; done || lia.
  - unfold effort. rewrite Hp, length_app. lia.
Qed.

Lemma read_header_err fuel n rd e rd' :
  read_header fuel n rd = (Err e, rd') -> is_interrupted e = false.
Proof.
  unfold read_header.
  destruct (read_exact fuel n (inner rd)) as [[buf|e'| |] s] eqn:E; try done.
  - intros Hrun. apply sbind_err in Hrun as [Hrun|([] & rd1 & _ & Hrun)]; [|done].
    by apply interpret_io_err in Hrun as [? _].
  - intros [= <- <-]. apply read_exact_err in E as [Hi _].
    unfold plain_eof. by case_decide.
Qed.

Lemma read_header_returns fuel n rd :
  wf_state (state rd) -> effort (inner rd) < fuel -> returns (read_header fuel n rd).1.
Proof.
  intros Hwf Hf. unfold read_header.
  pose proof (read_exact_returns fuel n (inner rd) Hf) as Hr.
  destruct (read_exact fuel n (inner rd)) as [[buf|e| |] s]; try done.
  apply returns_sbind; [by apply interpret_io_returns|done].
Qed.

(** *** [read_body] *)

Lemma read_some_ok n rd l rd' :
  read_some n rd = (Ok l, rd') ->
  l <> [] /\ length l <= n /\ pending (inner rd) = l ++ pending (inner rd') /\
  state rd' = state rd /\ effort (inner rd') < effort (inner rd) /\
  (reliable (inner rd) -> reliable (inner rd')).
Proof.
  unfold read_some. destruct (read n (inner rd)) as [r s] eqn:E. intros [= Hr <-]. res_inv.
  case_decide as Hl; res_inv. apply read_ok in E as (Hp & Hn & Hpat & _ & Hrel).
  simpl. repeat split; auto. unfold effort. rewrite Hp, length_app.
  destruct l; [done|]. simpl. lia.
Qed.

(** What the state machine does with the bytes of one read of a body: the first
    [stop] are body bytes, the rest is a part of the next header. *)
Lemma body_advances remaining last data st1 stop rd s' :
  state rd = Body remaining last -> data <> [] ->
  pending (inner rd) = data ++ pending s' ->
  skip_headers (Body remaining last) data = Ok (0, stop, st1) ->
  (stop = length data -> advances rd (take stop data) (MkReader s' st1)) /\
  (forall i st2, skip_headers st1 (drop stop data) = Ok (i, length (drop stop data), st2) ->
     length (drop stop data) <= i ->
     advances rd (take stop data) (MkReader s' st2)).
Proof.
  intros Hst Hne Hp Hs. rewrite <- Hst in Hs. split.
  - intros ->. rewrite <- (slice_all (take _ _)), firstn_all. by apply advances_skip.
  - intros i st2 Hs2 Hi. exists data. split; [done|]. simpl. intros w p Hw.
    eapply skip_headers_sound in Hs2; [|exact Hw].
    eapply skip_headers_sound in Hs; [|exact Hs2].
    rewrite firstn_all, app_assoc, take_drop in Hs.
    replace (slice i (length (drop stop data)) (drop stop data)) with (@nil byte) in Hs.
    + unfold slice in Hs. by rewrite drop_0, Nat.sub_0_r in Hs.
    + unfold slice. by replace (length (drop stop data) - i) with 0 by lia.
Qed.

Lemma read_body_ok remaining last len rd l rd' :
  state rd = Body remaining last -> remaining <= BLOCKSIZE -> 0 < len ->
  read_body remaining last len rd = (Ok l, rd') ->
  l <> [] /\ length l <= len /\ advances rd l rd' /\ wf_state (state rd') /\
  effort (inner rd') < effort (inner rd) /\ (reliable (inner rd) -> reliable (inner rd')).
Proof.
  intros Hst Hrem Hlen. unfold read_body. intros Hrun.
  apply sbind_ok in Hrun as (? & rd0 & [= Hpos <-] & Hrun).
  apply rassert_ok, Nat.ltb_lt in Hpos.
  apply sbind_ok in Hrun as (data & rd1 & Hsome & Hrun).
  apply read_some_ok in Hsome as (Hne & Hdl & Hp & Hst1 & Heff & Hrel).
  apply sbind_ok in Hrun as ([start stop] & rd2 & Hint & Hrun).
  apply interpret_io_ok in Hint as (st1 & Hskip & ->).
  apply sbind_ok in Hrun as (? & rd3 & [= Hz <-] & Hrun).
  apply rassert_ok, Nat.eqb_eq in Hz as ->.
  apply sbind_ok in Hrun as (? & rd4 & Htail & [= <- <-]).
  rewrite Hst1, Hst in Hskip. pose proof Hskip as Hbody.
  rewrite skip_headers_body in Hbody by done. injection Hbody as <- Est1.
  assert (wf_state (Body remaining last)) as Hwf by (simpl; lia).
  destruct (skip_headers_range _ _ _ _ _ Hwf Hskip) as (Hr & _ & Hwf1).
  destruct (body_advances _ _ _ _ _ rd (inner rd1) Hst Hne Hp Hskip) as [Hadv1 Hadv2].
  assert (0 < length data) by (destruct data; [done|simpl; lia]).
  split; [intros Hnil; apply (f_equal length) in Hnil; rewrite length_take in Hnil; simpl in Hnil; lia|].
  split; [rewrite length_take; lia|].
  destruct (Nat.ltb_spec (Nat.min remaining (length data)) (length data)) as [Hlt|Hge].
  - apply sbind_ok in Htail as ([i j] & rd5 & Hint2 & Htail).
    apply interpret_io_ok in Hint2 as (st2 & Hskip2 & ->). simpl in Hskip2.
    apply sbind_ok in Htail as (? & rd6 & [= Hi <-] & [= Hj <-]).
    apply rassert_ok, Nat.leb_le in Hi. apply rassert_ok, Nat.eqb_eq in Hj as ->.
    destruct (skip_headers_range _ _ _ _ _ Hwf1 Hskip2) as (_ & _ & Hwf2).
    eauto 10.
  - apply sret_ok in Htail as [_ <-]. assert (Nat.min remaining (length data) = length data) by lia.
    eauto 10.
Qed.

Lemma read_some_err n rd e rd' :
  read_some n rd = (Err e, rd') -> is_interrupted e = true ->
  pending (inner rd') = pending (inner rd) /\ state rd' = state rd /\
  effort (inner rd') < effort (inner rd) /\ (reliable (inner rd) -> reliable (inner rd')).
Proof.
  unfold read_some. destruct (read n (inner rd)) as [r s] eqn:E. intros [= Hr <-] Hi.
  destruct r as [l|e'| |]; simpl in Hr; try done.
  - case_decide; [|done]. by injection Hr as <-.
  - injection Hr as ->. apply read_err in E as (Hp & _ & Hpat & Hrel).
    specialize (Hpat Hi). simpl. repeat split; [done|unfold effort; rewrite Hp; lia|naive_solver].
Qed.

Lemma read_body_err remaining last len rd e rd' :
  read_body remaining last len rd = (Err e, rd') -> is_interrupted e = true ->
  advances rd [] rd' /\ state rd' = state rd /\ effort (inner rd') < effort (inner rd) /\
  (reliable (inner rd) -> reliable (inner rd')).
Proof.
  unfold read_body. intros Hrun Hi.
  apply sbind_err in Hrun as [Hrun|(? & rd0 & [= _ <-] & Hrun)].
  { unfold slift, rassert in Hrun. by destruct (0 <? remaining). }
  apply sbind_err in Hrun as [Hrun|(data & rd1 & _ & Hrun)].
  { apply read_some_err in Hrun as (Hp & Hst & Heff & Hrel); [|done].
    repeat split; auto. destruct rd' as [s' st']. simpl in *. subst st'.
    by apply advances_refl. }
  exfalso.
  apply sbind_err in Hrun as [Hrun|([start stop] & rd2 & _ & Hrun)].
  { apply interpret_io_err in Hrun as [Hf _]. congruence. }
  apply sbind_err in Hrun as [Hrun|(? & rd3 & _ & Hrun)].
  { unfold slift, rassert in Hrun. by destruct (start =? 0). }
  apply sbind_err in Hrun as [Hrun|(? & rd4 & _ & Hrun)]; [|done].
  destruct (stop <? length data); [|done].
  apply sbind_err in Hrun as [Hrun|([i j] & rd5 & _ & Hrun)].
  { apply interpret_io_err in Hrun as [Hf _]. congruence. }
  apply sbind_err in Hrun as [Hrun|(? & rd6 & _ & Hrun)];
    unfold slift, rassert in Hrun; by case_match.
Qed.

(** The bytes that a read of a body leaves for the next header. *)
Lemma body_tail remaining (last : bool) (data : bytes) stop st1 :
  0 < remaining -> data <> [] ->
  length data <= (if last then remaining else remaining + 2) ->
  skip_headers (Body remaining last) data = Ok (0, stop, st1) ->
  stop < length data -> st1 = Start /\ length (drop stop data) <= 2.
Proof.
  intros Hr Hne Hl. rewrite skip_headers_body by done. intros [= <- <-] Hlt.
  destruct last; [lia|]. rewrite length_drop.
  replace (remaining - length data) with 0 by lia. split; [done|lia].
Qed.

Lemma read_some_returns n rd : returns (read_some n rd).1.
Proof.
  unfold read_some. pose proof (read_returns n (inner rd)) as Hr.
  destruct (read n (inner rd)) as [[l| | |] s]; simpl in *; try done. by case_decide.
Qed.

Lemma read_body_returns remaining last len rd :
  state rd = Body remaining last -> 0 < remaining <= BLOCKSIZE ->
  returns (read_body remaining last len rd).1.
Proof.
  intros Hst Hrem. unfold read_body.
  unfold sbind at 1, slift at 1. replace (0 <? remaining) with true by (symmetry; apply Nat.ltb_lt; lia).
  apply returns_sbind; [apply read_some_returns|].
  intros data rd1 (Hne & Hdl & _ & Hst1 & _ & _)%read_some_ok. rewrite Hst in Hst1.
  apply returns_sbind; [apply interpret_io_returns; by rewrite Hst1|].
  intros [start stop] rd2 (st1 & Hskip & ->)%interpret_io_ok. rewrite Hst1 in Hskip.
  assert (wf_state st1) as Hwf1.
  { eapply skip_headers_range; [|exact Hskip]. done. }
  assert (start = 0) as ->.
  { rewrite skip_headers_body in Hskip by (done || lia). by injection Hskip. }
  unfold sbind at 1, slift at 1. simpl.
  apply returns_sbind; [|done].
  destruct (Nat.ltb_spec stop (length data)) as [Hlt|]; [|done].
  destruct (body_tail remaining last data stop st1) as [-> Htl]; auto; [lia|lia|].
  apply returns_sbind; [by apply interpret_io_returns|].
  intros [i j] rd3 (st2 & Hskip2 & ->)%interpret_io_ok.
  destruct (skip_headers_short Start _ i j st2 Htl Hskip2) as [-> ->].
  unfold sbind, slift, rassert. by rewrite Nat.leb_refl, Nat.eqb_refl.
Qed.

(** *** [do_read] *)

(** One round of the loop, with the two header cases as one. *)
Lemma do_read_loop_unfold efuel fuel len rd :
  do_read_loop efuel fuel len rd =
  match state rd, fuel with
  | Body remaining last, _ => read_body remaining last len rd
  | End, _ => (Ok [], rd)
  | st, O => (NoFuel, rd)
  | st, S fuel' =>
      (do! read_header efuel (header_need st) in do_read_loop efuel fuel' len) rd
  end.
Proof. destruct fuel; simpl; by destruct (state rd). Qed.

Record read_post rd (l : bytes) rd' : Prop := {
  post_advances : advances rd l rd';
  post_wf : wf_state (state rd');
  post_effort : effort (inner rd') <= effort (inner rd);
  post_reliable : reliable (inner rd) -> reliable (inner rd')
}.

Lemma read_post_refl rd : wf_state (state rd) -> read_post rd [] rd.
Proof. intros Hwf. constructor; auto. exists []. by split. Qed.

Lemma read_post_trans rd1 l1 rd2 l2 rd3 :
  read_post rd1 l1 rd2 -> read_post rd2 l2 rd3 -> read_post rd1 (l1 ++ l2) rd3.
Proof.
  intros [H1 W1 E1 R1] [H2 W2 E2 R2]. constructor; auto; [|lia].
  by eapply advances_trans.
Qed.

Lemma read_post_header fuel rd u rd' :
  0 < header_need (state rd) ->
  read_header fuel (header_need (state rd)) rd = (Ok u, rd') ->
  read_post rd [] rd' /\ effort (inner rd') < effort (inner rd).
Proof.
  intros Hn Hr. apply read_header_ok in Hr as (? & ? & ? & ?); auto.
  split; [constructor; auto; lia|done].
Qed.

Lemma do_read_loop_ok efuel fuel len rd l rd' :
  wf_state (state rd) -> 0 < len -> do_read_loop efuel fuel len rd = (Ok l, rd') ->
  read_post rd l rd' /\ length l <= len /\
  (l <> [] -> effort (inner rd') < effort (inner rd)) /\ (l = [] -> state rd' = End).
Proof.
  revert rd. induction fuel as [|fuel IH]; intros rd Hwf Hlen; rewrite do_read_loop_unfold.
  all: destruct (state rd) as [|lo|r last|] eqn:Est; try done.
  2,6: intros [= <- <-]; split; [apply read_post_refl; by rewrite Est|]; simpl; repeat split; (done || lia).
  1,4: intros Hrun; apply read_body_ok in Hrun as (? & ? & ? & ? & ? & ?);
       [|done|simpl in Hwf; lia|done]; split; [constructor; auto; lia|]; repeat split; auto; done.
  all: intros (? & rd1 & Hh & Hrun)%sbind_ok; rewrite <- Est in Hh;
    apply read_post_header in Hh as [Hpost Heff]; [|rewrite Est; simpl; lia];
    destruct (IH rd1 (post_wf _ _ _ Hpost) Hlen Hrun) as (Hpost' & ? & ? & ?);
    split; [by apply (read_post_trans rd [] rd1 l rd')|]; repeat split; auto;
    destruct Hpost'; lia.
Qed.

Lemma do_read_loop_err efuel fuel len rd e rd' :
  wf_state (state rd) -> do_read_loop efuel fuel len rd = (Err e, rd') ->
  is_interrupted e = true ->
  read_post rd [] rd' /\ effort (inner rd') < effort (inner rd).
Proof.
  revert rd. induction fuel as [|fuel IH]; intros rd Hwf; rewrite do_read_loop_unfold.
  all: destruct (state rd) as [|lo|r last|] eqn:Est; try done.
  1,4: intros Hrun Hi; apply read_body_err in Hrun as (? & Hs & ? & ?); [|done];
    split; [constructor; auto; [by rewrite Hs, Est|lia]|done].
  all: intros Hrun Hi; apply sbind_err in Hrun as [Hrun|(? & rd1 & Hh & Hrun)];
    [apply read_header_err in Hrun; congruence|]; rewrite <- Est in Hh;
    apply read_post_header in Hh as [Hpost Heff]; [|rewrite Est; simpl; lia];
    destruct (IH rd1 (post_wf _ _ _ Hpost) Hrun Hi) as (Hpost' & ?);
    (split; [by apply (read_post_trans rd [] rd1 [] rd')|lia]).
Qed.

Lemma do_read_loop_returns efuel fuel len rd :
  wf_state (state rd) -> effort (inner rd) < efuel -> effort (inner rd) < fuel ->
  returns (do_read_loop efuel fuel len rd).1.
Proof.
  revert rd. induction fuel as [|fuel IH]; intros rd Hwf He Hf; [lia|].
  rewrite do_read_loop_unfold.
  destruct (state rd) as [|lo|r last|] eqn:Est; try done; [| |by apply read_body_returns].
  all: apply returns_sbind; [apply read_header_returns; [by rewrite Est|done]|];
    intros ? rd1 Hh; rewrite <- Est in Hh;
    apply read_post_header in Hh as [[] Heff]; [|rewrite Est; simpl; lia];
    apply IH; [done|lia|lia].
Qed.

Lemma do_read_ok fuel len rd l rd' :
  wf_state (state rd) -> do_read fuel len rd = (Ok l, rd') ->
  read_post rd l rd' /\ length l <= len /\
  (l <> [] -> effort (inner rd') < effort (inner rd)) /\
  (l = [] -> len = 0 \/ state rd' = End).
Proof.
  unfold do_read. destruct (Nat.eqb_spec len 0) as [->|Hn].
  - intros Hwf [= <- <-]. split; [by apply read_post_refl|]. simpl.
    repeat split; [lia|done|by left].
  - intros Hwf Hrun. apply do_read_loop_ok in Hrun as (? & ? & ? & ?); [|done|lia].
    split; [done|]. split; [done|]. split; [done|]. auto.
Qed.

Lemma do_read_err fuel len rd e rd' :
  wf_state (state rd) -> do_read fuel len rd = (Err e, rd') -> is_interrupted e = true ->
  read_post rd [] rd' /\ effort (inner rd') < effort (inner rd).
Proof.
  unfold do_read. destruct (Nat.eqb_spec len 0) as [->|Hn]; [done|]. apply do_read_loop_err.
Qed.

Lemma do_read_returns fuel len rd :
  wf_state (state rd) -> effort (inner rd) < fuel -> returns (do_read fuel len rd).1.
Proof.
  intros. unfold do_read. destruct (len =? 0); [done|]. by apply do_read_loop_returns.
Qed.

(** *** On a stream that starts with the rest of a message *)

(** The stream holds the bytes that complete the message, then [rest]; the
    payload still to come is [p]. *)
Definition on_track rd (rest p : bytes) : Prop :=
  exists w, pending (inner rd) = w ++ rest /\ expects (state rd) w p.

(** What a read may do there: deliver a prefix of the payload, or be
    interrupted while there is payload to deliver. *)
Definition tracks (rest p : bytes) (out : res io_error bytes * MapiReader R) : Prop :=
  match out with
  | (Ok l, rd') => exists p', p = l ++ p' /\ on_track rd' rest p'
  | (Err e, rd') => is_interrupted e = true /\ p <> [] /\ on_track rd' rest p
  | _ => False
  end.

Lemma message_length w p : message w p -> 2 <= length w.
Proof. intros (lo & hi & h & w' & -> & _)%message_header. simpl. lia. Qed.

Lemma on_track_header fuel rd rest p :
  0 < header_need (state rd) -> on_track rd rest p -> reliable (inner rd) ->
  effort (inner rd) < fuel ->
  exists rd', read_header fuel (header_need (state rd)) rd = (Ok tt, rd') /\
    on_track rd' rest p.
Proof.
  intros Hn (w & Hp & Hw) Hrel Hf. unfold read_header.
  assert (header_need (state rd) <= length w) as Hlen.
  { destruct (state rd); simpl in *; try lia; apply message_length in Hw; simpl in Hw; lia. }
  pose proof (read_exact_returns fuel (header_need (state rd)) (inner rd) Hf) as Hret.
  destruct (read_exact fuel _ (inner rd)) as [[buf|e| |] s] eqn:E; try done.
  2: { apply read_exact_err in E as [_ E]. specialize (E Hrel). rewrite Hp, length_app in E. lia. }
  apply read_exact_ok in E as (Hl & Hp' & _ & _). rewrite Hp in Hp'. symmetry in Hp'.
  apply app_split_le in Hp' as (w' & -> & Hp'); [|lia].
  destruct (skip_headers_complete _ _ _ _ Hw) as (i & j & st' & p' & Hs & Hpp & He).
  destruct (skip_headers_short (state rd) buf i j st') as [-> ->]; [|done|].
  { destruct (state rd); simpl in *; lia. }
  unfold sbind, interpret_io, interpret. simpl. rewrite Hs. simpl. eexists. split; [done|].
  exists w'. rewrite drop_all in He. rewrite slice_empty in Hpp. simpl in Hpp. by subst p'.
Qed.

(** The room there is before the end of the message. *)
Lemma body_room remaining last w p :
  expects (Body remaining last) w p ->
  0 < remaining /\ p <> [] /\ (if last then remaining else remaining + 2) <= length w.
Proof.
  intros (Hpos & c & wc & pc & -> & -> & Hc & Hmore). split; [done|]. split.
  - intros Hn. apply app_eq_nil in Hn as [-> _]. simpl in Hc. lia.
  - rewrite length_app. destruct last; [lia|]. apply message_length in Hmore. lia.
Qed.

Lemma on_track_some n rd rest p remaining last :
  state rd = Body remaining last -> on_track rd rest p -> reliable (inner rd) -> 0 < n ->
  n <= (if last then remaining else remaining + 2) ->
  match read_some n rd with
  | (Ok data, rd') => exists w', pending (inner rd') = w' ++ rest /\ data <> [] /\
      length data <= n /\ state rd' = state rd /\ expects (state rd) (data ++ w') p
  | (Err e, rd') => is_interrupted e = true /\ on_track rd' rest p
  | _ => False
  end.
Proof.
  intros Hst (w & Hp & Hw) Hrel Hn Hideal.
  destruct (body_room remaining last w p) as (Hpos & _ & Hroom); [by rewrite <- Hst|].
  pose proof (read_some_returns n rd) as Hret.
  destruct (read_some n rd) as [[data|e| |] rd'] eqn:E; try done.
  - apply read_some_ok in E as (Hne & Hl & Hp' & Hst' & _). rewrite Hp in Hp'. symmetry in Hp'.
    apply app_split_le in Hp' as (w' & -> & Hp'); [|lia]. eauto 10.
  - unfold read_some in E. destruct (read n (inner rd)) as [r s] eqn:Er.
    injection E as E <-. destruct r as [data|e'| |]; simpl in E; try done.
    + case_decide as Hd; [|done]. exfalso. apply read_ok in Er as (_ & _ & _ & Hemp & _).
      destruct (Hemp Hd) as [?|Hz]; [lia|]. rewrite Hp in Hz. apply app_eq_nil in Hz as [-> _].
      simpl in Hroom. lia.
    + injection E as <-. apply read_err in Er as (Hs & _ & _ & Hr). destruct (Hr Hrel) as [Hi _].
      split; [done|]. exists w. simpl. by rewrite Hs.
Qed.

Lemma on_track_body remaining last len rd rest p :
  state rd = Body remaining last -> remaining <= BLOCKSIZE -> 0 < len ->
  on_track rd rest p -> reliable (inner rd) ->
  tracks rest p (read_body remaining last len rd).
Proof.
  intros Hst Hrem Hlen Htr Hrel. pose proof Htr as (w0 & _ & Hw0). rewrite Hst in Hw0.
  apply body_room in Hw0 as (Hpos & Hpne & _).
  unfold read_body. rewrite (proj2 (Nat.ltb_lt 0 remaining)) by done.
  set (ideal := if last then remaining else remaining + 2).
  assert (remaining <= ideal) by (destruct last; simpl; lia).
  pose proof (on_track_some (Nat.min ideal len) rd rest p remaining last Hst Htr Hrel
    ltac:(lia) ltac:(subst ideal; lia)) as Hsome.
  unfold sbind at 1, slift at 1. simpl. unfold sbind at 1.
  destruct (read_some (Nat.min ideal len) rd) as [[data|e| |] [s1 st1]]; try done; [|naive_solver].
  destruct Hsome as (w & Hp & Hne & Hdl & Hst1 & Hw). simpl in *. subst st1.
  destruct (skip_headers_complete _ _ _ _ Hw) as (i & stop & st2 & p' & Hs & Hpp & He).
  pose proof Hs as Hbody. rewrite Hst, skip_headers_body in Hbody by done.
  injection Hbody as <- <- Hst2.
  unfold sbind at 1, interpret_io at 1, interpret. simpl. rewrite Hs. simpl.
  unfold sbind at 1, slift at 1. simpl. rewrite slice_0 in Hpp. unfold sbind at 1.
  destruct (Nat.ltb_spec (Nat.min remaining (length data)) (length data)) as [Hlt|Hge].
  2: { simpl. exists p'. split; [done|]. exists w. simpl. by rewrite drop_ge in He by lia. }
  destruct (skip_headers_complete _ _ _ _ He) as (i' & j' & st3 & p'' & Hs' & Hpp' & He').
  rewrite Hst in Hs. destruct (body_tail remaining last data (Nat.min remaining (length data)) st2 Hpos Hne)
    as [-> Htl]; [subst ideal; lia|done|done|].
  destruct (skip_headers_short Start _ i' j' st3 Htl Hs') as [-> ->].
  unfold sbind at 1, interpret_io, interpret. simpl. rewrite Hs'. simpl.
  unfold sbind, slift, rassert. rewrite Nat.leb_refl, Nat.eqb_refl. simpl.
  exists p'. split; [done|]. exists w. simpl.
  rewrite slice_empty in Hpp'. rewrite drop_all in He'. simpl in *. by subst p''.
Qed.

Lemma on_track_loop efuel fuel len rd rest p :
  wf_state (state rd) -> 0 < len -> on_track rd rest p -> reliable (inner rd) ->
  effort (inner rd) < efuel -> effort (inner rd) < fuel ->
  tracks rest p (do_read_loop efuel fuel len rd).
Proof.
  revert rd. induction fuel as [|fuel IH]; intros rd Hwf Hlen Htr Hrel He Hf; [lia|].
  rewrite do_read_loop_unfold.
  destruct (state rd) as [|lo|r last|] eqn:Est;
    [| |simpl in Hwf; apply on_track_body; auto; lia|by exists p].
  all: destruct (on_track_header efuel rd rest p) as (rd1 & Hh & Htr1);
    [rewrite Est; simpl; lia|done|done|done|];
    rewrite <- Est; unfold sbind; rewrite Hh;
    apply read_post_header in Hh as [[] ?]; [|rewrite Est; simpl; lia];
    apply IH; auto; lia.
Qed.

Lemma do_read_tracks fuel len rd rest p :
  wf_state (state rd) -> on_track rd rest p -> reliable (inner rd) ->
  effort (inner rd) < fuel -> tracks rest p (do_read fuel len rd).
Proof.
  intros. unfold do_read. destruct (Nat.eqb_spec len 0); [by exists p|].
  apply on_track_loop; auto. lia.
Qed.

(** *** [read_to_end] of the limited reader *)

Notation read_limited fuel := (@read_to_end _ (@take_read _ (do_read fuel))).

Lemma take_read_ok fuel n limit rd l limit' rd' :
  wf_state (state rd) -> @take_read _ (do_read fuel) n (limit, rd) = (Ok l, (limit', rd')) ->
  read_post rd l rd' /\ length l <= limit /\ limit' = limit - length l /\
  (l <> [] -> effort (inner rd') < effort (inner rd)) /\
  (l = [] -> n = 0 \/ limit = 0 \/ state rd' = End).
Proof.
  intros Hwf. destruct limit as [|k]; cbn [take_read].
  - intros [= <- <- <-]. split; [by apply read_post_refl|]. simpl. repeat split; auto. done.
  - unfold read. destruct (do_read fuel _ rd) as [[l0| | |] rd1] eqn:E; try done.
    apply do_read_ok in E as (? & ? & ? & Hz); [|done].
    destruct (Nat.leb_spec (length l0) (S k)); [|done]. intros [= <- <- <-].
    split; [done|]. split; [done|]. split; [done|]. split; [done|].
    intros Hl. destruct (Hz Hl); [left; lia|auto].
Qed.

Lemma read_limited_ok fuel k sizes buffer limit rd out limit' rd' :
  (forall i, 0 < sizes i) -> wf_state (state rd) ->
  read_limited fuel k sizes buffer (limit, rd) = (Ok out, (limit', rd')) ->
  exists l, out = buffer ++ l /\ length l <= limit /\ read_post rd l rd' /\
    (length l = limit \/ state rd' = End).
Proof.
  intros Hsz. revert buffer limit rd. induction k as [|k IH]; intros buffer limit rd Hwf; [done|].
  cbn [read_to_end]. unfold read at 1.
  destruct (take_read (sizes (S k)) (limit, rd)) as [[l0|e| |] [lim1 rd1]] eqn:E; try done.
  - apply take_read_ok in E as (Hpost & Hl & -> & _ & Hz); [|done]. destruct l0 as [|b l0].
    + intros [= <- <- <-]. exists []. rewrite app_nil_r. simpl. split; [done|]. split; [lia|].
      split; [done|]. destruct (Hz eq_refl) as [Hs|[->|?]]; auto. specialize (Hsz (S k)). lia.
    + intros Hrun. apply IH in Hrun as (l & -> & Hl' & Hpost' & Hend); [|apply Hpost].
      exists ((b :: l0) ++ l). rewrite app_assoc, length_app. split; [done|].
      split; [lia|]. split; [by eapply read_post_trans|]. destruct Hend; [left; lia|auto].
  - destruct (is_interrupted e) eqn:Hi; [|done]. intros Hrun.
    destruct limit as [|m]; [done|]. cbn [take_read] in E. unfold read in E.
    destruct (do_read fuel _ rd) as [[?| | |] rd2] eqn:E2; [by case_match| |done|done].
    injection E as <- <- <-. apply do_read_err in E2 as [Hpost _]; [|done|done].
    apply IH in Hrun as (l & -> & Hl' & Hpost' & Hend); [|apply Hpost].
    exists l. split; [done|]. split; [done|]. split; [|done].
    by apply (read_post_trans rd [] rd2 l rd').
Qed.

Lemma take_read_err fuel n limit rd e limit' rd' :
  @take_read _ (do_read fuel) n (limit, rd) = (Err e, (limit', rd')) ->
  do_read fuel (Nat.min n limit) rd = (Err e, rd') /\ limit' = limit.
Proof.
  destruct limit as [|k]; cbn [take_read]; [done|]. unfold read.
  destruct (do_read fuel _ rd) as [[l0| | |] rd1] eqn:E; try done; [by case_match|].
  by intros [= <- <- <-].
Qed.

Lemma take_read_returns fuel n limit rd :
  wf_state (state rd) -> effort (inner rd) < fuel ->
  returns (@take_read _ (do_read fuel) n (limit, rd)).1.
Proof.
  intros Hwf Hf. destruct limit as [|k]; cbn [take_read]; [done|]. unfold read.
  pose proof (do_read_returns fuel (Nat.min n (S k)) rd Hwf Hf) as Hret.
  destruct (do_read fuel _ rd) as [[l0| | |] rd1] eqn:E; try done.
  apply do_read_ok in E as (_ & Hl & _ & _); [|done].
  rewrite (proj2 (Nat.leb_le _ _)); [done|lia].
Qed.

(** [read_to_end] ends: every read that does not end it delivers or is interrupted. *)
Lemma read_limited_returns fuel k sizes buffer limit rd :
  wf_state (state rd) -> effort (inner rd) < fuel -> effort (inner rd) < k ->
  returns (read_limited fuel k sizes buffer (limit, rd)).1.
Proof.
  revert buffer limit rd. induction k as [|k IH]; intros buffer limit rd Hwf Hf Hk; [lia|].
  cbn [read_to_end]. unfold read at 1.
  pose proof (take_read_returns fuel (sizes (S k)) limit rd Hwf Hf) as Hret.
  destruct (take_read (sizes (S k)) (limit, rd)) as [[l0|e| |] [lim1 rd1]] eqn:E; try done.
  - apply take_read_ok in E as ([] & _ & _ & He & _); [|done].
    destruct l0 as [|b l0]; [done|]. specialize (He ltac:(done)). apply IH; auto; lia.
  - destruct (is_interrupted e) eqn:Hi; [|done]. apply take_read_err in E as [E ->].
    apply do_read_err in E as [[] He]; [|done|done]. apply IH; auto; lia.
Qed.

Lemma read_limited_tracks fuel k sizes buffer limit rd rest p :
  wf_state (state rd) -> on_track rd rest p -> reliable (inner rd) ->
  effort (inner rd) < fuel -> effort (inner rd) < k ->
  exists l p' limit' rd', p = l ++ p' /\ on_track rd' rest p' /\
    read_limited fuel k sizes buffer (limit, rd) = (Ok (buffer ++ l), (limit', rd')).
Proof.
  revert buffer limit rd p.
  induction k as [|k IH]; intros buffer limit rd p Hwf Htr Hrel Hf Hk; [lia|].
  cbn [read_to_end]. unfold read at 1.
  pose proof (take_read_returns fuel (sizes (S k)) limit rd Hwf Hf) as Hret.
  pose proof (do_read_tracks fuel (Nat.min (sizes (S k)) limit) rd rest p Hwf Htr Hrel Hf) as Ht.
  destruct (take_read (sizes (S k)) (limit, rd)) as [[l0|e| |] [lim1 rd1]] eqn:E; try done.
  - pose proof E as E0. apply take_read_ok in E as ([] & _ & _ & He & _); [|done].
    assert (exists p', p = l0 ++ p' /\ on_track rd1 rest p') as (p' & -> & Htr').
    { destruct limit as [|m]; cbn [take_read] in E0.
      - injection E0 as <- <- <-. by exists p.
      - unfold read in E0. destruct (do_read fuel _ rd) as [[?| | |] ?]; try done.
        case_match; [|done]. by injection E0 as <- <- <-. }
    destruct l0 as [|b l0].
    { exists [], p', lim1, rd1. by rewrite app_nil_r. }
    specialize (He ltac:(done)).
    destruct (IH (buffer ++ b :: l0) lim1 rd1 p') as (l & p'' & lim2 & rd2 & -> & Htr2 & Hrun);
      auto; try lia.
    exists ((b :: l0) ++ l), p'', lim2, rd2. rewrite Hrun, <- !app_assoc. done.
  - apply take_read_err in E as [E ->]. rewrite E in Ht. simpl in Ht.
    destruct Ht as (Hi & _ & Htr'). rewrite Hi.
    apply do_read_err in E as [[] He]; [|done|done]. apply IH; auto; lia.
Qed.

(** *** The end of the message *)

Lemma skip_to_end_ok efuel fuel rd u rd' :
  wf_state (state rd) -> skip_to_end efuel fuel rd = (Ok u, rd') ->
  (exists l, read_post rd l rd') /\ state rd' = End.
Proof.
  revert rd. induction fuel as [|fuel IH]; intros rd Hwf; cbn [skip_to_end]; case_decide as Hd;
    try done; try (intros [= _ <-]; split; [exists []; by apply read_post_refl|done]).
  intros (l & rd1 & Hr & Hrun)%sbind_ok. apply do_read_ok in Hr as (Hpost & _); [|done].
  apply IH in Hrun as [(l' & Hpost') He]; [|apply Hpost].
  split; [|done]. exists (l ++ l'). by eapply read_post_trans.
Qed.

Lemma skip_to_end_returns efuel fuel rd :
  wf_state (state rd) -> effort (inner rd) < efuel -> effort (inner rd) < fuel ->
  returns (skip_to_end efuel fuel rd).1.
Proof.
  revert rd. induction fuel as [|fuel IH]; intros rd Hwf He Hf; [lia|].
  cbn [skip_to_end]. case_decide; [done|].
  apply returns_sbind; [by apply do_read_returns|].
  intros l rd1 Hr. apply do_read_ok in Hr as ([] & _ & Hdec & Hend); [|done].
  destruct (decide (l = [])) as [Hl|Hl].
  - destruct (Hend Hl) as [?|Hs]; [lia|]. destruct fuel; simpl; by rewrite decide_True.
  - specialize (Hdec Hl). apply IH; auto; lia.
Qed.

Lemma on_track_end rd rest p : on_track rd rest p -> state rd = End -> p = [] /\ pending (inner rd) = rest.
Proof. intros (w & Hp & Hw) Hs. rewrite Hs in Hw. destruct Hw as [-> ->]. done. Qed.

Lemma finish_end fuel rd : state rd = End -> finish fuel rd = (Ok tt, rd).
Proof. intros. unfold finish. destruct fuel; simpl; by rewrite decide_True. Qed.

Lemma check_limit_ok fuel rd u rd' :
  wf_state (state rd) -> check_limit fuel rd = (Ok u, rd') ->
  read_post rd [] rd' /\ state rd' = End.
Proof.
  intros Hwf. unfold check_limit. intros (? & rd0 & [= <- <-] & Hrun)%sbind_ok.
  apply sbind_ok in Hrun as (? & rd1 & Hmid & Hrun).
  apply sbind_ok in Hrun as (? & rd2 & [= <- <-] & Hrun).
  case_decide as Hend; [|done]. rewrite finish_end in Hrun by done.
  injection Hrun as _ <-. split; [|done]. case_decide.
  - injection Hmid as _ <-. by apply read_post_refl.
  - apply sbind_ok in Hmid as (extra & rd2 & Hr & Hmid). case_decide; [|done].
    injection Hmid as _ <-. subst extra. by apply do_read_ok in Hr as [? _].
Qed.

Lemma check_limit_tracks fuel rd rest p :
  wf_state (state rd) -> on_track rd rest p -> reliable (inner rd) -> effort (inner rd) < fuel ->
  match check_limit fuel rd with
  | (Ok _, rd') => p = [] /\ pending (inner rd') = rest
  | (Err e, _) => p <> [] /\ (e = io_of_framing TooLong \/ is_interrupted e = true)
  | _ => False
  end.
Proof.
  intros Hwf Htr Hrel Hf. unfold check_limit, sbind, sget. case_decide as Hs.
  - simpl. rewrite decide_True, finish_end by done. by apply on_track_end in Htr.
  - pose proof (do_read_tracks fuel 1 rd rest p Hwf Htr Hrel Hf) as Ht.
    destruct (do_read fuel 1 rd) as [[extra|e| |] rd1] eqn:E; try naive_solver.
    destruct Ht as (p' & -> & Htr'). case_decide as Hx; simpl.
    + apply do_read_ok in E as (_ & _ & _ & Hend); [|done].
      destruct (Hend Hx) as [?|Hs1]; [lia|]. rewrite decide_True, finish_end by done.
      subst extra. by apply on_track_end in Htr'.
    + split; [|auto]. by intros [? _]%app_eq_nil.
Qed.

Lemma reader_new_on_track s w rest p :
  pending s = w ++ rest -> message w p -> on_track (reader_new s) rest p.
Proof. intros. by exists w. Qed.

(** A complete read from [Start] to [End] consumed one message. *)
Lemma read_post_message s l rd' :
  read_post (reader_new s) l rd' -> state rd' = End ->
  exists w, pending s = w ++ pending (inner rd') /\ message w l.
Proof.
  intros [(c & Hp & Hx) _ _ _] He. exists c. split; [done|].
  specialize (Hx [] []). rewrite He, !app_nil_r in Hx. by apply Hx.
Qed.

Section Limited.
Context (sizes : nat -> nat) (Hsizes : forall i, 0 < sizes i).

(** The limited read and the checks after it, which both functions make. *)
Lemma limited_sound fuel limit buffer s out rd1 u rd2 :
  take_to_end fuel sizes limit buffer (reader_new s) = (Ok out, rd1) ->
  check_limit fuel rd1 = (Ok u, rd2) ->
  exists w p, pending s = w ++ pending (inner rd2) /\ message w p /\
    out = buffer ++ p /\ length p <= limit.
Proof.
  unfold take_to_end. intros Htake Hcheck.
  destruct (read_limited fuel fuel sizes buffer (limit, reader_new s)) as [r [lim rd]] eqn:E.
  injection Htake as -> ->. apply read_limited_ok in E as (l & -> & Hl & Hpost & _); [|done..].
  apply check_limit_ok in Hcheck as [Hpost' Hend]; [|apply Hpost].
  pose proof (read_post_trans _ _ _ _ _ Hpost Hpost') as Hall. rewrite app_nil_r in Hall.
  apply read_post_message in Hall as (w & Hw & Hm); [|done]. eauto 10.
Qed.

Lemma limited_complete fuel limit buffer s w rest p :
  reliable s -> pending s = w ++ rest -> message w p -> effort s < fuel ->
  exists l rd1, take_to_end fuel sizes limit buffer (reader_new s) = (Ok (buffer ++ l), rd1) /\
    l = take limit p /\
    match check_limit fuel rd1 with
    | (Ok _, rd2) => length p <= limit /\ pending (inner rd2) = rest
    | (Err e, _) => limit < length p /\ (e = io_of_framing TooLong \/ is_interrupted e = true)
    | _ => False
    end.
Proof.
  intros Hrel Hp Hm Hf. pose proof (reader_new_on_track s w rest p Hp Hm) as Htr.
  unfold take_to_end.
  destruct (read_limited_tracks fuel fuel sizes buffer limit (reader_new s) rest p)
    as (l & p' & lim & rd & -> & Htr' & E); [done..|].
  rewrite E. exists l, rd. split; [done|].
  apply read_limited_ok in E as (l' & Hl & Hlen & Hpost & Hstop); [|done..].
  apply app_inv_head in Hl as <-.
  assert (l = take limit (l ++ p')) as Hl.
  { destruct Hstop as [<-|He]; [by rewrite take_app_length|].
    apply on_track_end in Htr' as [-> _]; [|done]. by rewrite app_nil_r, take_ge. }
  split; [done|]. destruct Hpost as [_ Hwf Heff Hrel'].
  pose proof (check_limit_tracks fuel rd rest p' Hwf Htr' (Hrel' Hrel)) as Hc.
  simpl in Heff. specialize (Hc ltac:(lia)). rewrite length_app.
  destruct (check_limit fuel rd) as [[]]; try done.
  - destruct Hc as [-> ->]. simpl. split; [lia|done].
  - destruct Hc as [Hne He]. split; [|done]. destruct Hstop as [<-|Hend].
    + destruct p'; [done|simpl; lia].
    + by apply on_track_end in Htr' as [-> _].
Qed.

Lemma limited_returns fuel limit buffer s :
  effort s < fuel ->
  returns (take_to_end fuel sizes limit buffer (reader_new s)).1 /\
  forall out rd1, take_to_end fuel sizes limit buffer (reader_new s) = (Ok out, rd1) ->
    returns (check_limit fuel rd1).1.
Proof.
  intros Hf. unfold take_to_end.
  pose proof (read_limited_returns fuel fuel sizes buffer limit (reader_new s) I Hf Hf) as Hr.
  destruct (read_limited fuel fuel sizes buffer (limit, reader_new s)) as [r [lim rd]] eqn:E.
  split; [done|]. intros out rd1 [= -> ->].
  apply read_limited_ok in E as (l & _ & _ & [_ Hwf Heff _] & _); [|done..].
  simpl in Heff. unfold check_limit.
  apply returns_sbind; [done|]. intros rd0 rd0' [= <- <-].
  apply returns_sbind.
  - case_decide; [done|]. apply returns_sbind; [apply do_read_returns; auto; lia|].
    intros x rd2 _. by case_decide.
  - intros _ rd2 _. apply returns_sbind; [done|]. intros rd3 rd3' [= <- <-].
    case_decide; [by rewrite finish_end|done].
Qed.

Lemma limited_post fuel limit buffer s out rd1 u rd2 :
  take_to_end fuel sizes limit buffer (reader_new s) = (Ok out, rd1) ->
  check_limit fuel rd1 = (Ok u, rd2) ->
  effort (inner rd2) <= effort s /\ (reliable s -> reliable (inner rd2)).
Proof.
  unfold take_to_end. intros Htake Hcheck.
  destruct (read_limited fuel fuel sizes buffer (limit, reader_new s)) as [r [lim rd]] eqn:E.
  injection Htake as -> ->. apply read_limited_ok in E as (l & -> & Hl & Hpost & _); [|done..].
  apply check_limit_ok in Hcheck as [Hpost' _]; [|apply Hpost].
  by destruct (read_post_trans _ _ _ _ _ Hpost Hpost') as [_ _ He Hr].
Qed.

(** A whole message read, in a form that can be repeated on the rest. *)
Lemma to_limited_next fuel buffer limit s w rest p :
  reliable s -> pending s = w ++ rest -> message w p -> length p <= limit -> effort s < fuel ->
  exists s', to_limited fuel sizes buffer limit s = (Ok (buffer ++ p), s') /\
    pending s' = rest /\ reliable s' /\ effort s' <= effort s.
Proof.
  intros Hrel Hp Hm Hlim Hf.
  destruct (limited_complete fuel limit buffer s w rest p) as (l & rd1 & Ht & -> & Hc); [done..|].
  unfold to_limited, run_reader, sbind. rewrite Ht.
  destruct (check_limit fuel rd1) as [[u|e| |] rd2] eqn:Ec; try done.
  - destruct Hc as [_ <-]. rewrite take_ge in * by done.
    destruct (limited_post _ _ _ _ _ _ _ _ Ht Ec) as [He Hr]. eexists. split; [done|]. auto.
  - destruct Hc. lia.
Qed.

Lemma to_limited_string_next fuel buffer limit s w rest p :
  reliable s -> pending s = w ++ rest -> message w p -> length p <= limit -> effort s < fuel ->
  utf8_valid p = true ->
  exists s', to_limited_string fuel sizes buffer limit s = (Ok (buffer ++ p), s') /\
    pending s' = rest /\ reliable s' /\ effort s' <= effort s.
Proof.
  intros Hrel Hp Hm Hlim Hf Hu.
  destruct (limited_complete fuel limit [] s w rest p) as (l & rd1 & Ht & -> & Hc); [done..|].
  rewrite take_ge in Ht by done. simpl in Ht.
  unfold to_limited_string, run_reader, sbind. rewrite Ht, Hu. simpl.
  destruct (check_limit fuel rd1) as [[u|e| |] rd2] eqn:Ec; try done.
  - destruct Hc as [_ <-]. destruct (limited_post _ _ _ _ _ _ _ _ Ht Ec) as [He Hr].
    eexists. split; [done|]. auto.
  - destruct Hc. lia.
Qed.

End Limited.

End Lemmas.

(** ** Theorems *)

Section Theorems.
Context {R : Type} `{ReadLaws R}.
Context (sizes : nat -> nat) (Hsizes : forall i, 0 < sizes i).

(** C12: On any stream, however its reads are cut up, when [to_limited] succeeds the
    bytes it consumed are one complete message, what it appended to the buffer
    is exactly the payload of that message, and the payload is within the limit. *)
Theorem to_limited_sound fuel buffer limit s out s' :
  to_limited fuel sizes buffer limit s = (Ok out, s') ->
  exists w p, pending s = w ++ pending s' /\ message w p /\
    out = buffer ++ p /\ length p <= limit.
Proof.
  unfold to_limited, run_reader. intros Hrun.
  destruct (sbind _ _ (reader_new s)) as [r rd] eqn:E. injection Hrun as -> <-.
  apply sbind_ok in E as (o & rd1 & Ht & E). apply sbind_ok in E as (u & rd2 & Hc & [= -> <-]).
  by eapply limited_sound.
Qed.

(** C13: On a stream that starts with a message within the limit, with reads of any
    sizes and interruptions in between, [to_limited] returns the payload and
    stops at the last byte of the message. *)
Theorem to_limited_complete fuel buffer limit s w rest p :
  reliable s -> pending s = w ++ rest -> message w p -> length p <= limit ->
  effort s < fuel ->
  exists s', to_limited fuel sizes buffer limit s = (Ok (buffer ++ p), s') /\ pending s' = rest.
Proof.
  intros Hrel Hp Hm Hlim Hf.
  destruct (limited_complete sizes Hsizes fuel limit buffer s w rest p)
    as (l & rd1 & Ht & -> & Hc); [done..|].
  unfold to_limited, run_reader, sbind. rewrite Ht.
  destruct (check_limit fuel rd1) as [[] rd2]; try done.
  - destruct Hc as [_ <-]. rewrite take_ge by done. by eexists.
  - destruct Hc. lia.
Qed.

(** A message longer than the limit is refused with [TooLong] (or the
    interruption of the one-byte probe), never truncated silently. *)
Theorem to_limited_too_long fuel buffer limit s w rest p :
  reliable s -> pending s = w ++ rest -> message w p -> limit < length p ->
  effort s < fuel ->
  exists e s', to_limited fuel sizes buffer limit s = (Err e, s') /\
    (e = io_of_framing TooLong \/ is_interrupted e = true).
Proof.
  intros Hrel Hp Hm Hlim Hf.
  destruct (limited_complete sizes Hsizes fuel limit buffer s w rest p)
    as (l & rd1 & Ht & -> & Hc); [done..|].
  unfold to_limited, run_reader, sbind. rewrite Ht.
  destruct (check_limit fuel rd1) as [[] rd2]; try done.
  - destruct Hc. lia.
  - destruct Hc as [_ Hc]. eauto.
Qed.

(** C40: On every stream, valid or not, [to_limited] ends without a panic: none of
    its assertions fails and every loop terminates. *)
Theorem to_limited_returns fuel buffer limit s :
  effort s < fuel -> returns (to_limited fuel sizes buffer limit s).1.
Proof.
  intros Hf. destruct (limited_returns sizes Hsizes fuel limit buffer s Hf) as [Ht Hc].
  assert (returns ((do? out := take_to_end fuel sizes limit buffer in
    do! check_limit fuel in sret out) (reader_new s)).1) as Hr.
  { apply returns_sbind; [done|]. intros out rd1 E. apply returns_sbind; [by eapply Hc|done]. }
  unfold to_limited, run_reader. by destruct (sbind _ _ (reader_new s)).
Qed.

(** [to_limited_string] returns text: the payload of the consumed message when it
    is valid UTF-8, appended to the string. *)
Theorem to_limited_string_sound fuel buffer limit s out s' :
  to_limited_string fuel sizes buffer limit s = (Ok out, s') ->
  exists w p, pending s = w ++ pending s' /\ message w p /\
    out = buffer ++ p /\ utf8_valid p = true /\ length p <= limit.
Proof.
  unfold to_limited_string, run_reader. intros Hrun.
  destruct (sbind _ _ (reader_new s)) as [r rd] eqn:E. injection Hrun as -> <-.
  apply sbind_ok in E as (o & rd1 & Ht & E). apply sbind_ok in E as (u & rd2 & Hu & E).
  destruct (utf8_valid o) eqn:Hv; [|done]. injection Hu as _ <-.
  apply sbind_ok in E as (u' & rd3 & Hc & [= <- <-]).
  destruct (limited_sound sizes Hsizes fuel limit [] s o rd1 u' rd3 Ht Hc)
    as (w & p & ? & ? & -> & ?). eauto 10.
Qed.

End Theorems.

(** *** Witnesses *)

(** The two messages of the module's own test, in one-to-three-byte reads with an
    interruption. *)
Definition sample_wire : Wire :=
  MkWire (hdr 5 false ++ bs "monet" ++ hdr 2 true ++ bs "db" ++ hdr 4 true ++ bs "yeah") []
         [Give 0; Give 1; Intr; Give 2; Give 0; Intr] [].

Lemma sample_message : message (hdr 5 false ++ bs "monet" ++ hdr 2 true ++ bs "db") (bs "monetdb").
Proof.
  apply (message_more (bs "monet") (hdr 2 true ++ bs "db") (bs "db"));
    [|apply (message_last (bs "db"))]; pose proof BLOCKSIZE_Z; simpl; lia.
Qed.

Lemma sample_reliable : reliable sample_wire.
Proof. repeat constructor. Qed.

Definition thirty_two (_ : nat) : nat := 32.

Lemma to_limited_sound_witness :
  exists w p, pending sample_wire = w ++ pending (MkWire (hdr 4 true ++ bs "yeah") [] [] []) /\ message w p /\
    bs "monetdb" = [] ++ p /\ length p <= 100.
Proof.
  apply (to_limited_sound thirty_two (fun _ => Nat.lt_0_succ 31) 60 [] 100 sample_wire (bs "monetdb")
    (MkWire (hdr 4 true ++ bs "yeah") [] [] [])).
  vm_compute. reflexivity.
Defined.

Lemma to_limited_complete_witness :
  exists s', to_limited 60 thirty_two (bs "x") 7 sample_wire = (Ok (bs "x" ++ bs "monetdb"), s') /\
    pending s' = hdr 4 true ++ bs "yeah".
Proof.
  apply (to_limited_complete thirty_two (fun _ => Nat.lt_0_succ 31) 60 (bs "x") 7 sample_wire
    (hdr 5 false ++ bs "monet" ++ hdr 2 true ++ bs "db")).
  - apply sample_reliable.
  - reflexivity.
  - apply sample_message.
  - simpl; lia.
  - vm_compute; lia.
Defined.

Lemma to_limited_too_long_witness :
  exists e s', to_limited 60 thirty_two [] 6 sample_wire = (Err e, s') /\
    (e = io_of_framing TooLong \/ is_interrupted e = true).
Proof.
  apply (to_limited_too_long thirty_two (fun _ => Nat.lt_0_succ 31) 60 [] 6 sample_wire
    (hdr 5 false ++ bs "monet" ++ hdr 2 true ++ bs "db") (hdr 4 true ++ bs "yeah") (bs "monetdb")).
  - apply sample_reliable.
  - reflexivity.
  - apply sample_message.
  - simpl; lia.
  - vm_compute; lia.
Defined.

Lemma to_limited_returns_witness :
  returns (to_limited 20 thirty_two [] 6 (MkWire [xff; xff; x00] [] [Fault TimedOut] [])).1.
Proof.
  apply (to_limited_returns thirty_two (fun _ => Nat.lt_0_succ 31)). vm_compute; lia.
Defined.

Lemma to_limited_string_sound_witness :
  exists w p, pending sample_wire = w ++ pending (MkWire (hdr 4 true ++ bs "yeah") [] [] []) /\ message w p /\
    bs "monetdb" = [] ++ p /\ utf8_valid p = true /\ length p <= 100.
Proof.
  apply (to_limited_string_sound thirty_two (fun _ => Nat.lt_0_succ 31) 60 [] 100 sample_wire
    (bs "monetdb") (MkWire (hdr 4 true ++ bs "yeah") [] [] [])).
  vm_compute. reflexivity.
Defined.
