(* ===== verification/Roundtrip.v ===== *)
(** * Writer and reader together

    What [MapiBuf::write_reset_plus] sends over any stream, [MapiReader] reads
    back, on a stream that cuts up its reads and writes as it likes. *)

From Stdlib Require Import ZArith Lia.
From S2P Require Import Prelude Bytes Blockstate IO Writing Reading.

Open Scope nat_scope.

Lemma messages_one w p : messages w [p] -> message w p.
Proof.
  intros H. inversion H as [|ws ps w' p' Hs Hm E1 E2]; subst.
  destruct ps as [|? [|]]; simplify_eq/=. by inversion Hs as [|? [|]]; simplify_eq/=.
Qed.

Section Roundtrip.
Context {W : Type} `{WriteLaws W}.
Context {R : Type} `{ReadLaws R}.

(** C1: A message written through [MapiBuf], its pieces appended in any
    division, is read back by [MapiReader::to_limited] as their concatenation,
    and the reader leaves the stream at the first byte after the message: for
    every writer and reader that keep their contracts, whatever the sizes of
    the partial writes and reads and wherever they are interrupted. *)
Theorem write_read_roundtrip wfuel chunks (wr : W) :
  wreliable wr ->
  exists wire, message wire (concat chunks) /\
    (wpatience wr + length wire < wfuel ->
     exists mb' wr', write_reset_plus wfuel chunks (mapibuf_new, wr) = (Ok tt, (mb', wr')) /\
       written wr' = written wr ++ wire) /\
    forall sizes rfuel limit (rd : R) rest,
      (forall i, 0 < sizes i) -> reliable rd -> pending rd = wire ++ rest ->
      length (concat chunks) <= limit -> effort rd < rfuel ->
      exists rd', to_limited rfuel sizes [] limit rd = (Ok (concat chunks), rd') /\
        pending rd' = rest.
Proof.
  intros Hw.
  destruct (write_reset_plus_reliable wfuel chunks mapibuf_new _ wr (represents_new []) Hw)
    as (wire & Hm & Hrun). exists wire. apply messages_one in Hm. simpl in Hm.
  split; [done|]. split; [naive_solver|].
  intros sizes rfuel limit rd rest Hsz Hrel Hp Hlim Hf.
  destruct (limited_complete sizes Hsz rfuel limit [] rd wire rest _ Hrel Hp Hm Hf)
    as (l & rd1 & Ht & -> & Hc).
  unfold to_limited, run_reader, sbind. rewrite Ht.
  destruct (check_limit rfuel rd1) as [[] rd2]; try done.
  - destruct Hc as [_ <-]. rewrite take_ge by done. by eexists.
  - destruct Hc. lia.
Qed.

End Roundtrip.

Lemma write_read_roundtrip_witness :
  exists wire, message wire (bs "sSELECT 1;") /\
    (wpatience (MkWire [] [] [] [Give 3; Intr; Give 0]) + length wire < 40 ->
     exists mb' wr',
       write_reset_plus 40 [bs "s"; bs "SELECT 1"; bs ";"]
         (mapibuf_new, MkWire [] [] [] [Give 3; Intr; Give 0]) = (Ok tt, (mb', wr')) /\
       written wr' = written (MkWire [] [] [] [Give 3; Intr; Give 0]) ++ wire) /\
    forall sizes rfuel limit (rd : Wire) rest,
      (forall i, 0 < sizes i) -> reliable rd -> pending rd = wire ++ rest ->
      length (bs "sSELECT 1;") <= limit -> effort rd < rfuel ->
      exists rd', to_limited rfuel sizes [] limit rd = (Ok (bs "sSELECT 1;"), rd') /\
        pending rd' = rest.
Proof.
  apply (write_read_roundtrip 40 [bs "s"; bs "SELECT 1"; bs ";"]). repeat constructor.
Defined.
