(* ===== verification/Decimal.v ===== *)
(** * Decimal values (src/convert/raw_decimal.rs)

    [RawDecimal] is a number and a scale; the parser is generic in the integer
    type and works digit by digit with checked arithmetic, negative numbers by
    subtraction so that the minimum of the type is accepted.  The theorems say
    exactly which texts are accepted, with which value, and that [at_scale] and
    equality never change the rational number that is represented. *)

From Stdlib Require Import ZArith Lia.
From S2P Require Import Prelude Bytes.

Open Scope Z_scope.

Record RawDecimal := MkDecimal { dec_num : Z; dec_scale : Z }.

Inductive InvalidDecimal :=
| OutOfRange
| UnexpectedCharacter (c : byte)
| Empty.

#[global] Instance RawDecimal_eq_dec : EqDecision RawDecimal.
Proof. solve_decision. Defined.
#[global] Instance InvalidDecimal_eq_dec : EqDecision InvalidDecimal.
Proof. solve_decision. Defined.

Definition small_constant {E} (t : int_type) (num : Z) : res E Z :=
  if in_type t num then Ok num else Panic.

Definition multiply_accumulate {E} (t : int_type) (acc digit : Z) : res E (option Z) :=
  let? ten := small_constant t 10 in
  match checked t (acc * ten) with
  | None => Ok None
  | Some m => let? d := small_constant t digit in Ok (checked t (m + d))
  end.

(** The closure of [parse_signed] for negative numbers. *)
Definition multiply_subtract {E} (t : int_type) (acc digit : Z) : res E (option Z) :=
  let? ten := small_constant t 10 in
  match checked t (acc * ten) with
  | None => Ok None
  | Some m => let? d := small_constant t digit in Ok (checked t (m - d))
  end.

(** The loop of [parse_digits]: the accumulator, the scale, whether a period was
    seen, and the digits that are left. *)
Fixpoint parse_digits_loop (accumulate : Z -> Z -> res InvalidDecimal (option Z))
    (acc scale : Z) (saw_period : bool) (digits : bytes)
    : res InvalidDecimal (Z * Z * bool * bytes) :=
  match digits with
  | [] => Ok (acc, scale, saw_period, [])
  | d :: rest =>
      if is_digit d then
        let? r := accumulate acc (b2z d - 48) in
        match r with
        | Some new =>
            let? scale' := ok_or (checked u8 (scale + 1)) OutOfRange in
            parse_digits_loop accumulate new scale' saw_period rest
        | None => Err OutOfRange
        end
      else if bool_decide (d = x2e) && negb saw_period then
        parse_digits_loop accumulate acc 0 true rest
      else Ok (acc, scale, saw_period, digits)
  end.

Definition parse_digits (t : int_type) (accumulate : Z -> Z -> res InvalidDecimal (option Z))
    (digits : bytes) : res InvalidDecimal (RawDecimal * bytes) :=
  let? zero := small_constant t 0 in
  let? (acc, scale, saw_period, tail) := parse_digits_loop accumulate zero 0 false digits in
  let scale := if saw_period then scale else 0 in
  if (length tail =? length digits)%nat then
    match tail with
    | first :: _ => Err (UnexpectedCharacter first)
    | [] => Err Empty
    end
  else Ok (MkDecimal acc scale, tail).

Definition parse_unsigned (t : int_type) (digits : bytes)
    : res InvalidDecimal (RawDecimal * bytes) :=
  parse_digits t (multiply_accumulate t) digits.

Definition parse_signed (t : int_type) (digits : bytes)
    : res InvalidDecimal (RawDecimal * bytes) :=
  match strip_prefix (bs "-") digits with
  | Some digits' => parse_digits t (multiply_subtract t) digits'
  | None => parse_unsigned t digits
  end.

(** The table of the [raw_decimal!] macro: [parse_signed] for the signed types. *)
Definition parser_of (t : int_type) : bytes -> res InvalidDecimal (RawDecimal * bytes) :=
  if ty_min t <? 0 then parse_signed t else parse_unsigned t.

(** [FromStr]. *)
Definition dec_from_str (t : int_type) (s : bytes) : res InvalidDecimal RawDecimal :=
  let? (dec, rest) := parser_of t s in
  match rest with
  | first :: _ => Err (UnexpectedCharacter first)
  | [] => Ok dec
  end.

(** [checked_pow] fails as soon as the power leaves the type. *)
Definition at_scale (t : int_type) (d : RawDecimal) (s : Z) : option Z :=
  if s <? dec_scale d then None
  else match checked t (10 ^ (s - dec_scale d)) with
       | Some sc => checked t (dec_num d * sc)
       | None => None
       end.

(** [PartialEq]. *)
Definition dec_eq (t : int_type) (a b : RawDecimal) : bool :=
  let highest := Z.max (dec_scale a) (dec_scale b) in
  match at_scale t a highest, at_scale t b highest with
  | Some x, Some y => x =? y
  | _, _ => false
  end.

(** ** Specification *)

(** The integer types the parser is instantiated with hold all digits and ten. *)
Definition dec_type (t : int_type) : Prop := ty_min t <= 0 /\ 127 <= ty_max t.

(** The texts of a decimal number: an integer part, and possibly a period and a
    fraction. *)
Definition dec_text (ip : bytes) (fp : option bytes) : bytes :=
  ip ++ match fp with Some f => x2e :: f | None => [] end.

Definition fraction (fp : option bytes) : bytes := default [] fp.

(** [rest] does not continue the number. *)
Definition dec_stop (fp : option bytes) (rest : bytes) : bool :=
  match rest with
  | [] => true
  | c :: _ => negb (is_digit c) && (bool_decide (c <> x2e) || match fp with Some _ => true | None => false end)
  end.

(** What the parser makes of a number with sign [sgn]: its value, when the value
    fits the type and the scale fits a byte. *)
Definition dec_meaning (t : int_type) (sgn : Z) (ip : bytes) (fp : option bytes) (rest : bytes)
    : res InvalidDecimal (RawDecimal * bytes) :=
  let v := sgn * dec_value (ip ++ fraction fp) in
  if in_type t v && (length ip <=? 255)%nat && (length (fraction fp) <=? 255)%nat
  then Ok (MkDecimal v (Z.of_nat (length (fraction fp))), rest)
  else Err OutOfRange.

(** [d] stands for the rational number [n / 10 ^ k]. *)
Definition stands_for (d : RawDecimal) (n k : Z) : Prop :=
  dec_num d * 10 ^ k = n * 10 ^ dec_scale d.

(** ** Lemmas *)

Definition signed_step (t : int_type) (sgn acc digit : Z) : option Z :=
  match checked t (acc * 10) with
  | Some m => checked t (m + sgn * digit)
  | None => None
  end.

Lemma small_constant_ok E t n : dec_type t -> 0 <= n <= 127 -> @small_constant E t n = Ok n.
Proof.
  intros [? ?] ?. unfold small_constant. by rewrite (proj2 (in_type_spec t n)) by lia.
Qed.

Lemma multiply_accumulate_step E t acc d :
  dec_type t -> 0 <= d <= 9 -> @multiply_accumulate E t acc d = Ok (signed_step t 1 acc d).
Proof.
  intros Ht Hd. unfold multiply_accumulate, signed_step.
  rewrite small_constant_ok by (done || lia). simpl. destruct (checked t (acc * 10)); [|done].
  rewrite small_constant_ok by (done || lia). simpl. by replace (1 * d) with d by lia.
Qed.

Lemma multiply_subtract_step E t acc d :
  dec_type t -> 0 <= d <= 9 -> @multiply_subtract E t acc d = Ok (signed_step t (-1) acc d).
Proof.
  intros Ht Hd. unfold multiply_subtract, signed_step.
  rewrite small_constant_ok by (done || lia). simpl. destruct (checked t (acc * 10)); [|done].
  rewrite small_constant_ok by (done || lia). simpl. by replace (z - d) with (z + -1 * d) by lia.
Qed.

(** Digits that follow a number [a] push its magnitude up. *)
Definition shift_digits (a : Z) (ds : bytes) : Z := a * 10 ^ Z.of_nat (length ds) + dec_value ds.

Lemma dec_value_app_shift a b : dec_value (a ++ b) = shift_digits (dec_value a) b.
Proof.
  unfold shift_digits. induction b as [|x b IH] using rev_ind.
  - rewrite app_nil_r. unfold dec_value at 3. simpl. lia.
  - rewrite app_assoc, !dec_value_snoc, IH, length_app. simpl.
    rewrite Nat2Z.inj_add, Z.pow_add_r by lia. change (10 ^ Z.of_nat 1) with 10. lia.
Qed.

Lemma shift_digits_cons a d ds : shift_digits a (d :: ds) = shift_digits (10 * a + digit_val d) ds.
Proof.
  unfold shift_digits. change (d :: ds) with ([d] ++ ds). rewrite dec_value_app_shift.
  unfold shift_digits, dec_value at 1. simpl fold_left. rewrite length_app. simpl length.
  rewrite Nat2Z.inj_add, Z.pow_add_r by lia. change (10 ^ Z.of_nat 1) with 10. lia.
Qed.

Lemma shift_digits_ge a ds : 0 <= a -> forallb is_digit ds = true -> a <= shift_digits a ds.
Proof.
  intros Ha Hd. apply dec_value_nonneg in Hd. unfold shift_digits.
  assert (1 <= 10 ^ Z.of_nat (length ds)) by (apply (Z.pow_le_mono_r 10 0); lia). nia.
Qed.

Lemma signed_step_in t sgn a d :
  dec_type t -> sgn = 1 \/ sgn = -1 -> 0 <= a -> 0 <= d <= 9 ->
  signed_step t sgn (sgn * a) d = checked t (sgn * (10 * a + d)).
Proof.
  intros [Hmin Hmax] Hs Ha Hd. unfold signed_step.
  replace (sgn * (10 * a + d)) with (sgn * a * 10 + sgn * d) by lia.
  destruct (checked t (sgn * a * 10)) as [m|] eqn:E; [by apply checked_Some in E as [-> _]|].
  symmetry. apply eq_None_not_Some. intros [m Hm].
  apply checked_Some in Hm as [_ Hm%in_type_spec].
  unfold checked in E. rewrite (proj2 (in_type_spec t (sgn * a * 10))) in E; [done|].
  destruct Hs as [-> | ->]; lia.
Qed.

(** A number that does not fit does not fit with more digits either. *)
Lemma in_type_shift t sgn a ds :
  dec_type t -> sgn = 1 \/ sgn = -1 -> 0 <= a -> forallb is_digit ds = true ->
  in_type t (sgn * a) = false -> in_type t (sgn * shift_digits a ds) = false.
Proof.
  intros [Hmin Hmax] Hs Ha Hd Hf. pose proof (shift_digits_ge a ds Ha Hd).
  apply not_true_iff_false. rewrite <- not_true_iff_false in Hf. rewrite in_type_spec in *.
  destruct Hs as [-> | ->]; lia.
Qed.

Lemma leb_255 n : (Z.of_nat n <=? 255) = (n <=? 255)%nat.
Proof. destruct (Z.leb_spec (Z.of_nat n) 255), (Nat.leb_spec n 255); done || lia. Qed.

Section Loop.
Context (t : int_type) (sgn : Z) (accumulate : Z -> Z -> res InvalidDecimal (option Z)).
Context (Ht : dec_type t) (Hsgn : sgn = 1 \/ sgn = -1).
Context (Hacc : forall a d, 0 <= d <= 9 -> accumulate a d = Ok (signed_step t sgn a d)).

(** The loop over a run of digits. *)
Lemma parse_digits_loop_run a scale saw ds rest :
  0 <= a -> 0 <= scale -> scale <= 255 -> in_type t (sgn * a) = true ->
  forallb is_digit ds = true ->
  parse_digits_loop accumulate (sgn * a) scale saw (ds ++ rest) =
  if in_type t (sgn * shift_digits a ds) && (scale + Z.of_nat (length ds) <=? 255)
  then parse_digits_loop accumulate (sgn * shift_digits a ds)
         (scale + Z.of_nat (length ds)) saw rest
  else Err OutOfRange.
Proof.
  revert a scale. induction ds as [|d ds IH]; intros a scale Ha Hs Hs' Hin Hd.
  { unfold shift_digits, dec_value. cbn [fold_left length app]. change (10 ^ Z.of_nat 0) with 1.
    rewrite Z.mul_1_r, !Z.add_0_r, Hin. by replace (scale <=? 255) with true by lia. }
  simpl in Hd. apply andb_true_iff in Hd as [Hd Hds]. pose proof (digit_val_range d Hd) as Hdv.
  cbn [app parse_digits_loop]. rewrite Hd, Hacc by (unfold digit_val in Hdv; lia).
  fold (digit_val d). cbn [res_bind]. rewrite signed_step_in, shift_digits_cons by done.
  unfold checked at 1. destruct (in_type t (sgn * (10 * a + digit_val d))) eqn:Ein.
  2: { rewrite (in_type_shift t sgn (10 * a + digit_val d)) by (done || lia). done. }
  cbn [length]. unfold checked. change (in_type u8) with (in_type (IntType 0 255)).
  unfold in_type at 1. cbn [ty_min ty_max].
  destruct (Z.leb_spec (scale + 1) 255) as [Hle|Hgt].
  - replace (0 <=? scale + 1) with true by lia. cbn [andb ok_or res_bind].
    rewrite IH by (done || lia).
    replace (scale + 1 + Z.of_nat (length ds)) with (scale + Z.of_nat (S (length ds))) by lia.
    done.
  - rewrite andb_false_r. cbn [ok_or res_bind].
    rewrite (proj2 (Z.leb_gt (scale + Z.of_nat (S (length ds))) 255)) by lia. by rewrite andb_false_r.
Qed.

Lemma parse_digits_loop_stop acc scale saw rest :
  match rest with [] => true | c :: _ => negb (is_digit c) && (bool_decide (c <> x2e) || saw) end = true ->
  parse_digits_loop accumulate acc scale saw rest = Ok (acc, scale, saw, rest).
Proof.
  destruct rest as [|c rest]; [done|]. intros [Hd Hp]%andb_true_iff.
  apply negb_true_iff in Hd. simpl. rewrite Hd.
  apply orb_true_iff in Hp as [Hp| ->]; [|by rewrite andb_false_r].
  apply bool_decide_eq_true in Hp. by rewrite bool_decide_false.
Qed.

Lemma parse_digits_meaning ip fp rest :
  forallb is_digit (ip ++ fraction fp) = true -> dec_text ip fp <> [] ->
  dec_stop fp rest = true ->
  parse_digits t accumulate (dec_text ip fp ++ rest) = dec_meaning t sgn ip fp rest.
Proof.
  rewrite forallb_app. intros [Hip Hfp]%andb_true_iff Hne Hstop.
  unfold parse_digits, dec_meaning. rewrite small_constant_ok by (done || lia). cbn [res_bind].
  assert (in_type t (sgn * 0) = true) as H0.
  { apply in_type_spec. destruct Ht. lia. }
  replace 0 with (sgn * 0) at 1 by lia. unfold dec_text at 1. rewrite <- app_assoc.
  rewrite parse_digits_loop_run by (done || lia).
  assert (forall l, shift_digits 0 l = dec_value l) as Hsh by (intros; unfold shift_digits; lia).
  rewrite !Hsh, Z.add_0_l, dec_value_app_shift.
  destruct (in_type t (sgn * dec_value ip)) eqn:E1.
  2: { cbn [andb]. rewrite (in_type_shift t sgn (dec_value ip)); [done|done|done| |done|done].
       by apply dec_value_nonneg. }
  rewrite leb_255.
  destruct (Nat.leb_spec (length ip) 255) as [Hl|Hl]; cbn [andb]; [|by rewrite andb_false_r].
  destruct fp as [f|]; cbn [fraction default option_fmap] in *.
  - cbn [app parse_digits_loop]. replace (is_digit x2e) with false by done.
    replace (bool_decide (x2e = x2e)) with true by done. cbn [andb negb].
    rewrite parse_digits_loop_run; [|by apply dec_value_nonneg|done|done|done|done].
    rewrite andb_true_r, Z.add_0_l.
    rewrite leb_255.
    destruct (_ && _)%bool; [|done].
    rewrite parse_digits_loop_stop by done. cbn [res_bind].
    rewrite (proj2 (Nat.eqb_neq _ _)); [done|]. unfold dec_text. rewrite !length_app. simpl. lia.
  - rewrite parse_digits_loop_stop by done. cbn [res_bind].
    unfold shift_digits. simpl length. change (10 ^ Z.of_nat 0) with 1.
    rewrite Z.mul_1_r. change (dec_value []) with 0. rewrite Z.add_0_r, E1. cbn [andb].
    rewrite (proj2 (Nat.eqb_neq _ _)); [done|]. unfold dec_text. rewrite !length_app.
    unfold dec_text in Hne. rewrite app_nil_r in Hne. destruct ip; [done|simpl; lia].
Qed.

End Loop.

(** Every input is a number text, possibly empty, and a rest that does not
    continue it. *)
Lemma dec_split l :
  exists ip fp rest, l = dec_text ip fp ++ rest /\
    forallb is_digit (ip ++ fraction fp) = true /\ dec_stop fp rest = true.
Proof.
  destruct (digits_span l) as (ip & r & -> & Hip & Hr).
  destruct (decide (head r = Some x2e)) as [Hyes|Hno].
  - destruct r as [|c r']; [done|]. injection Hyes as ->. destruct (digits_span r') as (f & rest & -> & Hf & Hrest).
    exists ip, (Some f), rest. unfold dec_text. rewrite <- app_assoc.
    split; [done|]. rewrite forallb_app, Hip. split; [done|].
    destruct rest as [|c rest]; [done|]. simpl in *. by rewrite Hrest, orb_true_r.
  - exists ip, None, r. unfold dec_text. rewrite !app_nil_r. repeat split; [done|].
    destruct r as [|c r]; [done|]. simpl in *. rewrite Hr. simpl.
    rewrite bool_decide_true; [done|]. by intros ->.
Qed.

Lemma parse_digits_nothing t accumulate rest :
  dec_type t -> dec_stop None rest = true ->
  parse_digits t accumulate rest =
  match rest with [] => Err Empty | c :: _ => Err (UnexpectedCharacter c) end.
Proof.
  intros Ht Hs. unfold parse_digits. rewrite small_constant_ok by (done || lia). cbn [res_bind].
  rewrite parse_digits_loop_stop by (destruct rest; done). cbn [res_bind].
  rewrite Nat.eqb_refl. done.
Qed.

Definition sign_text (neg : bool) : bytes := if neg then bs "-" else [].
Definition sign_of (neg : bool) : Z := if neg then -1 else 1.

Lemma strip_minus neg ip fp rest :
  forallb is_digit (ip ++ fraction fp) = true -> dec_text ip fp <> [] ->
  strip_prefix (bs "-") (sign_text neg ++ dec_text ip fp ++ rest) =
  if neg then Some (dec_text ip fp ++ rest) else None.
Proof.
  intros Hd Hne. destruct neg; [by apply strip_prefix_Some|].
  destruct ip as [|c ip]; [by destruct fp|]. simpl in *.
  apply andb_true_iff in Hd as [Hc _]. apply is_digit_not_sign in Hc as [_ Hc].
  by rewrite decide_False.
Qed.

Lemma parser_of_text t neg ip fp rest :
  dec_type t -> (neg = true -> ty_min t < 0) ->
  forallb is_digit (ip ++ fraction fp) = true -> dec_text ip fp <> [] ->
  dec_stop fp rest = true ->
  parser_of t (sign_text neg ++ dec_text ip fp ++ rest) =
  dec_meaning t (sign_of neg) ip fp rest.
Proof.
  intros Ht Hneg Hd Hne Hs. unfold parser_of. destruct (Z.ltb_spec (ty_min t) 0).
  - unfold parse_signed. rewrite strip_minus by done. destruct neg; apply parse_digits_meaning; auto;
      intros; [by apply multiply_subtract_step|by apply multiply_accumulate_step].
  - destruct neg; [specialize (Hneg eq_refl); lia|]. apply parse_digits_meaning; auto.
    intros; by apply multiply_accumulate_step.
Qed.

(** What the parser does with an input that does not start with a number. *)
Lemma parser_of_split t s :
  dec_type t ->
  (exists neg ip fp rest, (neg = true -> ty_min t < 0) /\
     s = sign_text neg ++ dec_text ip fp ++ rest /\
     forallb is_digit (ip ++ fraction fp) = true /\ dec_text ip fp <> [] /\
     dec_stop fp rest = true) \/
  (exists e, parser_of t s = Err e).
Proof.
  intros Ht.
  assert (forall neg s', (neg = true -> ty_min t < 0) -> s = sign_text neg ++ s' ->
    (neg = false -> ty_min t < 0 -> strip_prefix (bs "-") s = None) ->
    (exists ip fp rest, s' = dec_text ip fp ++ rest /\
       forallb is_digit (ip ++ fraction fp) = true /\ dec_text ip fp <> [] /\
       dec_stop fp rest = true) \/ exists e, parser_of t s = Err e) as Haux.
  { intros neg s' Hneg -> Hno. destruct (dec_split s') as (ip & fp & rest & -> & Hd & Hs).
    destruct (decide (dec_text ip fp = [])) as [Hnil|]; [|left; eauto 10]. right.
    assert (fp = None) as -> by (destruct fp, ip; done). rewrite Hnil. simpl.
    unfold parser_of, parse_signed, parse_unsigned. destruct neg.
    - rewrite (proj2 (Z.ltb_lt _ _)) by auto. rewrite (proj2 (strip_prefix_Some _ _ rest)) by done.
      rewrite parse_digits_nothing by done. destruct rest; eauto.
    - rewrite Hnil in Hno. simpl in *.
      destruct (Z.ltb_spec (ty_min t) 0); [rewrite Hno by done|];
        rewrite parse_digits_nothing by done; destruct rest; eauto. }
  destruct (decide (ty_min t < 0)) as [Hsg|Hsg].
  - destruct (strip_prefix (bs "-") s) as [s'|] eqn:E.
    + apply strip_prefix_Some in E.
      destruct (Haux true s' ltac:(done) E ltac:(done)) as [(ip & fp & rest & -> & ?)|?]; [|auto].
      left. exists true, ip, fp, rest. done.
    + destruct (Haux false s ltac:(done) eq_refl ltac:(done)) as [(ip & fp & rest & -> & ?)|?]; [|auto].
      left. exists false, ip, fp, rest. done.
  - destruct (Haux false s ltac:(done) eq_refl ltac:(done)) as [(ip & fp & rest & -> & ?)|?]; [|auto].
    left. exists false, ip, fp, rest. done.
Qed.

(** ** Theorems *)

(** C37: [FromStr] accepts exactly the texts of decimal numbers: an optional minus
    sign for the signed types, digits with at most one period and at least one
    character; the value fits the type (its minimum included) and each part has
    at most 255 digits.  The result is that value with the number of
    fractional digits as its scale. *)
Theorem dec_from_str_iff t s d :
  dec_type t ->
  dec_from_str t s = Ok d <->
  exists neg ip fp, (neg = true -> ty_min t < 0) /\
    s = sign_text neg ++ dec_text ip fp /\ dec_text ip fp <> [] /\
    forallb is_digit (ip ++ fraction fp) = true /\
    (length ip <= 255)%nat /\ (length (fraction fp) <= 255)%nat /\
    dec_num d = sign_of neg * dec_value (ip ++ fraction fp) /\
    in_type t (dec_num d) = true /\ dec_scale d = Z.of_nat (length (fraction fp)).
Proof.
  intros Ht. unfold dec_from_str. split.
  - intros H. destruct (parser_of_split t s Ht) as [(neg & ip & fp & rest & Hneg & -> & Hd & Hne & Hs)|(e & He)].
    2: { by rewrite He in H. }
    rewrite parser_of_text in H by done. unfold dec_meaning in H.
    destruct (in_type t _ && _ && _) eqn:E; [|done]. cbn [res_bind] in H.
    destruct rest; [|done]. injection H as <-. rewrite !andb_true_iff, !Nat.leb_le in E.
    exists neg, ip, fp. rewrite app_nil_r. naive_solver.
  - intros (neg & ip & fp & Hneg & -> & Hne & Hd & Hl1 & Hl2 & Hv & Hin & Hsc).
    rewrite <- (app_nil_r (dec_text ip fp)), parser_of_text by done.
    unfold dec_meaning. rewrite <- Hv, Hin.
    rewrite !(proj2 (Nat.leb_le _ _)) by done. simpl. destruct d. simpl in *. by rewrite Hsc.
Qed.

Lemma dec_from_str_iff_witness :
  dec_from_str i8 (bs "-1.28") = Ok (MkDecimal (-128) 2) <->
  exists neg ip fp, (neg = true -> ty_min i8 < 0) /\
    bs "-1.28" = sign_text neg ++ dec_text ip fp /\ dec_text ip fp <> [] /\
    forallb is_digit (ip ++ fraction fp) = true /\
    (length ip <= 255)%nat /\ (length (fraction fp) <= 255)%nat /\
    dec_num (MkDecimal (-128) 2) = sign_of neg * dec_value (ip ++ fraction fp) /\
    in_type i8 (dec_num (MkDecimal (-128) 2)) = true /\
    dec_scale (MkDecimal (-128) 2) = Z.of_nat (length (fraction fp)).
Proof. apply dec_from_str_iff. split; vm_compute; done. Defined.

(** On every input [FromStr] returns a value or an error: the conversion of the
    small constants never panics and the scale never overflows silently. *)
Theorem dec_from_str_returns t s : dec_type t -> returns (dec_from_str t s).
Proof.
  intros Ht. unfold dec_from_str.
  destruct (parser_of_split t s Ht) as [(neg & ip & fp & rest & Hneg & -> & Hd & Hne & Hs)|(e & ->)];
    [|done].
  rewrite parser_of_text by done. unfold dec_meaning. case_match; [|done]. by destruct rest.
Qed.

Lemma dec_from_str_returns_witness : returns (dec_from_str u8 (bs "1.2.3")).
Proof. apply dec_from_str_returns. split; vm_compute; done. Defined.

Lemma at_scale_Some t d s v :
  at_scale t d s = Some v <->
  dec_scale d <= s /\ in_type t (10 ^ (s - dec_scale d)) = true /\
  v = dec_num d * 10 ^ (s - dec_scale d) /\ in_type t v = true.
Proof.
  unfold at_scale. destruct (Z.ltb_spec s (dec_scale d)); [split; [done|lia]|].
  destruct (checked t (10 ^ (s - dec_scale d))) as [sc|] eqn:E.
  - apply checked_Some in E as [-> Hin]. rewrite checked_Some. naive_solver.
  - unfold checked in E. destruct (in_type t _) eqn:Hin; naive_solver.
Qed.

Lemma at_scale_stands_for t d s v :
  0 <= dec_scale d -> at_scale t d s = Some v -> stands_for d v s.
Proof.
  rewrite at_scale_Some. unfold stands_for. intros Hsc (Hs & _ & -> & _).
  replace s with (s - dec_scale d + dec_scale d) at 1 by lia.
  rewrite Z.pow_add_r by lia. lia.
Qed.

(** C38: [at_scale] is exact: it returns [v] when [v] is the number at that scale, the
    scale is not reduced and neither the factor nor the product leaves the type;
    then [v] at scale [s] is the same rational number. *)
Theorem at_scale_exact t d s v :
  0 <= dec_scale d ->
  (at_scale t d s = Some v <->
   dec_scale d <= s /\ in_type t (10 ^ (s - dec_scale d)) = true /\
   v = dec_num d * 10 ^ (s - dec_scale d) /\ in_type t v = true) /\
  (at_scale t d s = Some v -> stands_for d v s).
Proof. intros. split; [apply at_scale_Some|by apply at_scale_stands_for]. Qed.

Lemma at_scale_exact_witness :
  (at_scale i32 (MkDecimal 123 2) 4 = Some 12300 <->
   2 <= 4 /\ in_type i32 (10 ^ (4 - 2)) = true /\ 12300 = 123 * 10 ^ (4 - 2) /\
   in_type i32 12300 = true) /\
  (at_scale i32 (MkDecimal 123 2) 4 = Some 12300 -> stands_for (MkDecimal 123 2) 12300 4).
Proof. apply (at_scale_exact i32 (MkDecimal 123 2) 4 12300). done. Defined.

Lemma dec_eq_true t a b :
  dec_eq t a b = true <->
  exists v, at_scale t a (Z.max (dec_scale a) (dec_scale b)) = Some v /\
            at_scale t b (Z.max (dec_scale a) (dec_scale b)) = Some v.
Proof.
  unfold dec_eq. destruct (at_scale t a _), (at_scale t b _); try naive_solver.
  rewrite Z.eqb_eq. naive_solver.
Qed.

(** Equal decimals are the same rational number, and equality is reflexive and
    symmetric on the values of the type. *)
Theorem dec_eq_sound t a b :
  dec_type t -> 0 <= dec_scale a -> 0 <= dec_scale b ->
  (dec_eq t a b = true -> dec_num a * 10 ^ dec_scale b = dec_num b * 10 ^ dec_scale a) /\
  dec_eq t a b = dec_eq t b a /\
  (in_type t (dec_num a) = true -> dec_eq t a a = true).
Proof.
  intros Ht Ha Hb. split; [|split].
  - intros (v & H1 & H2)%dec_eq_true.
    apply at_scale_stands_for in H1; [|done]. apply at_scale_stands_for in H2; [|done].
    unfold stands_for in *. set (m := Z.max _ _) in *.
    assert (0 < 10 ^ m) by (apply Z.pow_pos_nonneg; lia). nia.
  - unfold dec_eq. rewrite (Z.max_comm (dec_scale b)).
    destruct (at_scale t a _), (at_scale t b _); try done. apply Z.eqb_sym.
  - intros Hin. apply dec_eq_true. exists (dec_num a). rewrite Z.max_id, at_scale_Some.
    rewrite Z.sub_diag, Z.mul_1_r.
    assert (in_type t 1 = true) by (apply in_type_spec; destruct Ht; lia). done.
Qed.

Lemma dec_eq_sound_witness :
  (dec_eq i32 (MkDecimal 10 0) (MkDecimal 100 1) = true -> 10 * 10 ^ 1 = 100 * 10 ^ 0) /\
  dec_eq i32 (MkDecimal 10 0) (MkDecimal 100 1) = dec_eq i32 (MkDecimal 100 1) (MkDecimal 10 0) /\
  (in_type i32 10 = true -> dec_eq i32 (MkDecimal 10 0) (MkDecimal 10 0) = true).
Proof. apply (dec_eq_sound i32 (MkDecimal 10 0) (MkDecimal 100 1)); [split; vm_compute|..]; done. Defined.

(** The [impl Eq] is not an equivalence: zero at scale 0, 2 and 4 over [i8]. *)
Lemma dec_eq_not_transitive :
  dec_eq i8 (MkDecimal 0 0) (MkDecimal 0 2) = true /\
  dec_eq i8 (MkDecimal 0 2) (MkDecimal 0 4) = true /\
  dec_eq i8 (MkDecimal 0 0) (MkDecimal 0 4) = false.
Proof. by vm_compute. Qed.
