(* ===== verification/Floats.v ===== *)
(** * Floating point texts ([FromStr] of [f32] and [f64])

    What the getters for [f32] and [f64] use of the standard library of Rust: the
    grammar of the texts that are accepted, and rounding to the nearest value of
    the format, ties to even.  A value is counted in units of the least positive
    value of its format, so that all of it is integer arithmetic. *)

From Stdlib Require Import ZArith Lia.
From S2P Require Import Prelude Bytes.

Open Scope Z_scope.

(** ** Formats and values *)

(** Significands have [precision] bits, the least positive value is
    [2^least_exponent], and the greatest significands count [2^exponents] units. *)
Record float_format := Format { precision : Z; least_exponent : Z; exponents : Z }.

Definition f32 : float_format := Format 24 (-149) 253.
Definition f64 : float_format := Format 53 (-1074) 2045.

Inductive float :=
| NaN (negative : bool)
| Infinite (negative : bool)
| Finite (negative : bool) (units : Z).

(** Half of [d] or more rounds up; exactly half only when [q] is odd. *)
Definition round_quotient (q r d : Z) : Z :=
  if (2 * r <? d) || ((2 * r =? d) && Z.even q) then q else q + 1.

(** The exponent of a number of whole units: 0, or such that the significand has
    all its bits. *)
Definition exponent_of (f : float_format) (units : Z) : Z :=
  Z.max 0 (Z.log2 units + 1 - precision f).

(** [n / d] units, rounded. *)
Definition round_units (f : float_format) (n d : Z) : Z :=
  let k := exponent_of f (n / d) in
  let d' := d * 2 ^ k in
  round_quotient (n / d') (n mod d') d' * 2 ^ k.

(** The number [digits * 10^e] as a ratio in units of the format. *)
Definition units_num (f : float_format) (digits e : Z) : Z :=
  digits * 10 ^ Z.max 0 e * 2 ^ (- least_exponent f).
Definition units_den (e : Z) : Z := 10 ^ Z.max 0 (- e).

Definition round_decimal (f : float_format) (negative : bool) (digits e : Z) : float :=
  let units := round_units f (units_num f digits e) (units_den e) in
  if 2 ^ (precision f + exponents f) <=? units then Infinite negative else Finite negative units.

(** ** Texts *)

Fixpoint span_digits (s : bytes) : bytes * bytes :=
  match s with
  | c :: rest =>
      if is_digit c then let '(ds, tail) := span_digits rest in (c :: ds, tail) else ([], s)
  | [] => ([], [])
  end.

(** An optional sign. *)
Definition split_sign (s : bytes) : bool * bytes :=
  match s with
  | x2d :: rest => (true, rest)
  | x2b :: rest => (false, rest)
  | _ => (false, s)
  end.

(** What follows the digits: nothing, or an exponent. *)
Definition parse_exponent (s : bytes) : option Z :=
  match s with
  | [] => Some 0
  | c :: rest =>
      if bool_decide (c = x65 \/ c = x45) then
        let '(neg, rest) := split_sign rest in
        let '(ds, tail) := span_digits rest in
        if is_empty ds || negb (is_empty tail) then None
        else Some (if neg then - dec_value ds else dec_value ds)
      else None
  end.

(** A number without its sign: its digits and its power of ten. *)
Definition parse_number (s : bytes) : option (Z * Z) :=
  let '(ip, rest) := span_digits s in
  let '(fp, rest) := match rest with x2e :: r => span_digits r | _ => ([], rest) end in
  if is_empty (ip ++ fp) then None
  else
    match parse_exponent rest with
    | Some e => Some (dec_value (ip ++ fp), e - Z.of_nat (length fp))
    | None => None
    end.

Inductive FloatErrorKind := EmptyFloat | InvalidFloat.

Definition float_from_str (f : float_format) (s : bytes) : res FloatErrorKind float :=
  if is_empty s then Err EmptyFloat
  else
    let '(neg, rest) := split_sign s in
    match parse_number rest with
    | Some (digits, e) => Ok (round_decimal f neg digits e)
    | None =>
        if eq_ignore_case rest (bs "nan") then Ok (NaN neg)
        else if eq_ignore_case rest (bs "inf") || eq_ignore_case rest (bs "infinity") then
          Ok (Infinite neg)
        else Err InvalidFloat
    end.

(** ** Rounding is to the nearest value *)

(** The magnitudes of a format, in units. *)
Definition representable (f : float_format) (units : Z) : Prop :=
  exists m k, 0 <= m < 2 ^ precision f /\ 0 <= k <= exponents f /\ units = m * 2 ^ k.

Definition format_ok (f : float_format) : Prop := 1 < precision f /\ 0 < exponents f /\ least_exponent f <= 0.

(** Where overflow begins: half way from the greatest value to the next power of two. *)
Definition overflows (f : float_format) (n d : Z) : Prop :=
  d * ((2 ^ (precision f + 1) - 1) * 2 ^ (exponents f - 1)) <= n.

Lemma round_quotient_near q r d : 0 < d -> 0 <= r < d ->
  let q' := round_quotient q r d in
  (q' = q /\ 2 * r <= d \/ q' = q + 1 /\ d <= 2 * r) /\ (2 * r = d -> Z.even q' = true).
Proof.
  intros Hd Hr. unfold round_quotient. cbv zeta.
  destruct (Z.ltb_spec (2 * r) d); simpl; [split; lia|].
  destruct (Z.eqb_spec (2 * r) d); simpl; [|split; lia].
  destruct (Z.even q) eqn:E; [by split; [lia|]|].
  split; [lia|]. intros _. by rewrite Z.even_add, E.
Qed.

Section Rounding.
Context (f : float_format) (n d : Z).
Hypothesis Hf : format_ok f.
Hypothesis Hn : 0 <= n.
Hypothesis Hd : 0 < d.

Notation p := (precision f).
Notation k := (exponent_of f (n / d)).
Notation scaled := (n / (d * 2 ^ k)).

Lemma exponent_nonneg : 0 <= k.
Proof. unfold exponent_of. lia. Qed.

(** The scaled significand fits, and has all its bits unless the exponent is 0. *)
Lemma significand_range : 0 <= scaled < 2 ^ p /\ (0 < k -> 2 ^ (p - 1) <= scaled).
Proof.
  pose proof exponent_nonneg as Hk. destruct Hf as (Hp & _ & _).
  assert (0 <= n / d) as Hq by (apply Z.div_pos; lia).
  rewrite <- Z.div_div by (try apply Z.pow_pos_nonneg; lia).
  assert (0 < 2 ^ k) by (apply Z.pow_pos_nonneg; lia).
  assert (n / d < 2 ^ p * 2 ^ k) as Hlt.
  { rewrite <- Z.pow_add_r by lia.
    destruct (decide (n / d = 0)) as [->|]; [apply Z.pow_pos_nonneg; unfold exponent_of; lia|].
    eapply Z.lt_le_trans; [apply (Z.log2_spec (n / d)); lia|].
    apply Z.pow_le_mono_r; [lia|]. unfold exponent_of. lia. }
  split.
  { split; [apply Z.div_pos; lia|]. apply Z.div_lt_upper_bound; lia. }
  intros Hk0. apply Z.div_le_lower_bound; [lia|]. rewrite <- Z.pow_add_r by lia.
  assert (k = Z.log2 (n / d) + 1 - p) as E by (unfold exponent_of in *; lia). rewrite E.
  replace (Z.log2 (n / d) + 1 - p + (p - 1)) with (Z.log2 (n / d)) by lia.
  apply Z.log2_spec. destruct (decide (n / d = 0)) as [E0|]; [|lia].
  unfold exponent_of in Hk0. rewrite E0 in Hk0. simpl in Hk0. lia.
Qed.

(** Every value of the format lies at or below the lower neighbour of [n / d], or
    at or above the upper one. *)
Lemma no_value_between u : representable f u ->
  u <= scaled * 2 ^ k \/ (scaled + 1) * 2 ^ k <= u.
Proof.
  intros (m & j & Hm & Hj & ->). pose proof exponent_nonneg as Hk.
  destruct significand_range as [Hs Hfull].
  destruct (decide (k <= j)) as [Hkj|Hkj].
  - replace j with ((j - k) + k) by lia. rewrite Z.pow_add_r, Z.mul_assoc by lia.
    assert (0 < 2 ^ k) by (apply Z.pow_pos_nonneg; lia).
    destruct (decide (m * 2 ^ (j - k) <= scaled)); [left|right]; apply Z.mul_le_mono_nonneg_r; lia.
  - left. assert (0 < k) as Hk0 by lia. specialize (Hfull Hk0). destruct Hf as (Hp & _ & _).
    assert (m * 2 ^ j <= 2 ^ p * 2 ^ j) as H1 by (apply Z.mul_le_mono_nonneg_r; [apply Z.pow_nonneg|]; lia).
    assert (2 ^ p * 2 ^ j <= 2 ^ (p - 1) * 2 ^ k) as H2
      by (rewrite <- !Z.pow_add_r by lia; apply Z.pow_le_mono_r; lia).
    assert (2 ^ (p - 1) * 2 ^ k <= scaled * 2 ^ k)
      by (apply Z.mul_le_mono_nonneg_r; [apply Z.pow_nonneg|]; lia).
    lia.
Qed.

(** The rounded value is one of the neighbours, the nearer one. *)
Lemma round_units_neighbour :
  let u := round_units f n d in
  (u = scaled * 2 ^ k /\ 2 * (n - d * u) <= d * 2 ^ k /\ d * u <= n) \/
  (u = (scaled + 1) * 2 ^ k /\ 2 * (d * u - n) <= d * 2 ^ k /\ n <= d * u).
Proof.
  cbv zeta. pose proof exponent_nonneg as Hk.
  assert (0 < 2 ^ k) as H2 by (apply Z.pow_pos_nonneg; lia).
  assert (0 < d * 2 ^ k) as Hd' by lia.
  pose proof (Z.div_mod n (d * 2 ^ k) ltac:(lia)) as Hdm.
  pose proof (Z.mod_pos_bound n (d * 2 ^ k) Hd') as Hr.
  unfold round_units. destruct (round_quotient_near scaled (n mod (d * 2 ^ k)) _ Hd' Hr)
    as [[[-> H]|[-> H]] _]; [left|right]; (split; [done|]); nia.
Qed.

Lemma round_units_nearest u : representable f u ->
  Z.abs (n - d * round_units f n d) <= Z.abs (n - d * u).
Proof.
  intros Hu. pose proof (no_value_between u Hu) as Hb. pose proof exponent_nonneg as Hk.
  assert (0 < 2 ^ k) by (apply Z.pow_pos_nonneg; lia).
  destruct round_units_neighbour as [(E & H1 & H3)|(E & H1 & H3)]; destruct Hb as [Hb|Hb]; nia.
Qed.

Lemma round_units_even : 2 * (n mod (d * 2 ^ k)) = d * 2 ^ k ->
  exists m, round_units f n d = m * 2 ^ k /\ Z.even m = true.
Proof.
  intros Ht. pose proof exponent_nonneg as Hk.
  assert (0 < 2 ^ k) by (apply Z.pow_pos_nonneg; lia).
  assert (0 < d * 2 ^ k) as Hd' by lia.
  destruct (round_quotient_near scaled _ _ Hd' (Z.mod_pos_bound n _ Hd')) as [_ He].
  eexists. split; [reflexivity|]. by apply He.
Qed.

Notation greatest := ((2 ^ p - 1) * 2 ^ exponents f).
Notation bound := (2 ^ (p + exponents f)).

Lemma greatest_bound : greatest + 2 ^ exponents f = bound /\ 0 < 2 ^ exponents f /\
  2 * ((2 ^ (p + 1) - 1) * 2 ^ (exponents f - 1)) = greatest + bound.
Proof.
  destruct Hf as (Hp & He & _).
  assert (2 ^ exponents f = 2 * 2 ^ (exponents f - 1)) as ->
    by (rewrite <- Z.pow_succ_r by lia; f_equal; lia).
  assert (2 ^ (p + exponents f) = 2 ^ p * (2 * 2 ^ (exponents f - 1))) as ->
    by (rewrite <- Z.pow_succ_r, <- Z.pow_add_r by lia; f_equal; lia).
  rewrite Z.pow_add_r by lia. assert (0 < 2 ^ (exponents f - 1)) by (apply Z.pow_pos_nonneg; lia). nia.
Qed.

Lemma representable_le u : representable f u -> u <= greatest.
Proof.
  intros (m & j & Hm & Hj & ->). destruct Hf as (Hp & He & _).
  transitivity ((2 ^ p - 1) * 2 ^ j).
  - apply Z.mul_le_mono_nonneg_r; [apply Z.pow_nonneg|]; lia.
  - apply Z.mul_le_mono_nonneg_l; [lia|apply Z.pow_le_mono_r; lia].
Qed.

Lemma round_units_representable : round_units f n d < bound -> representable f (round_units f n d).
Proof.
  pose proof exponent_nonneg as Hk. destruct significand_range as [Hs Hfull].
  destruct Hf as (Hp & He & _). intros Hlt.
  assert (0 < 2 ^ k) by (apply Z.pow_pos_nonneg; lia).
  assert (exists m, round_units f n d = m * 2 ^ k /\ scaled <= m <= scaled + 1) as (m & E & Hm)
    by (destruct round_units_neighbour as [(-> & _)|(-> & _)]; eexists; (split; [done|]); lia).
  rewrite E in Hlt |- *.
  destruct (decide (m = 2 ^ p)) as [->|Hne].
  - rewrite <- Z.pow_add_r in Hlt by lia. apply Z.pow_lt_mono_r_iff in Hlt; [|lia..].
    exists (2 ^ (p - 1)), (k + 1). split; [|split; [lia|]].
    + split; [apply Z.pow_nonneg; lia|apply Z.pow_lt_mono_r; lia].
    + rewrite <- !Z.pow_add_r by lia. f_equal. lia.
  - exists m, k. split; [lia|]. split; [|done]. split; [done|].
    destruct (decide (0 < k)) as [Hk0|]; [|lia]. specialize (Hfull Hk0).
    assert (2 ^ (p - 1) * 2 ^ k < bound) as H1
      by (eapply Z.le_lt_trans; [|exact Hlt]; apply Z.mul_le_mono_nonneg_r; lia).
    rewrite <- Z.pow_add_r in H1 by lia. apply Z.pow_lt_mono_r_iff in H1; lia.
Qed.

End Rounding.

Section Overflow.
Context (f : float_format) (n d : Z).
Hypothesis Hf : format_ok f.
Hypothesis Hn : 0 <= n.
Hypothesis Hd : 0 < d.

Notation p := (precision f).
Notation k := (exponent_of f (n / d)).
Notation scaled := (n / (d * 2 ^ k)).
Notation greatest := ((2 ^ p - 1) * 2 ^ exponents f).
Notation bound := (2 ^ (p + exponents f)).

(** The bound itself is a value of the format with one exponent more, for which
    rounding is the same. *)
Lemma round_units_bound : Z.abs (n - d * round_units f n d) <= Z.abs (n - d * bound).
Proof.
  destruct Hf as (Hp & He & Hl).
  change (round_units f n d) with (round_units (Format p (least_exponent f) (exponents f + 1)) n d).
  apply round_units_nearest; [by unfold format_ok; simpl; lia|done|done|].
  exists (2 ^ (p - 1)), (exponents f + 1). cbn [precision exponents]. split; [|split; [lia|]].
  - split; [apply Z.pow_nonneg; lia|apply Z.pow_lt_mono_r; lia].
  - rewrite <- !Z.pow_add_r by lia. f_equal. lia.
Qed.

(** The middle between the greatest value and the bound is not rounded down. *)
Lemma middle_rounds_up : 2 * n = d * (greatest + bound) -> round_units f n d <> greatest.
Proof.
  destruct (greatest_bound f Hf) as (Hb & H2E & _). destruct Hf as (Hp & He & _).
  pose proof (exponent_nonneg f n d) as Hk. assert (0 < 2 ^ k) as H2k by (apply Z.pow_pos_nonneg; lia).
  intros Hmid Hu. destruct (round_units_neighbour f n d Hd) as [(E & H1 & _)|(_ & _ & H3)]; [|rewrite Hu in H3; nia].
  rewrite Hu in E, H1. assert (2 ^ exponents f <= 2 ^ k) as Hle by nia.
  apply Z.pow_le_mono_r_iff in Hle; [|lia..].
  assert (2 ^ p = 2 * 2 ^ (p - 1)) as Hodd
    by (rewrite <- Z.pow_succ_r by lia; f_equal; lia).
  assert (k = exponents f) as Hke.
  { destruct (decide (k = exponents f)) as [|Hne]; [done|exfalso].
    assert (scaled * 2 ^ (k - exponents f) = 2 ^ p - 1) as H.
    { apply (Z.mul_reg_r _ _ (2 ^ exponents f)); [lia|].
      rewrite <- Z.mul_assoc, <- Z.pow_add_r by lia.
      replace (k - exponents f + exponents f) with k by lia. lia. }
    replace (k - exponents f) with (1 + (k - exponents f - 1)) in H by lia.
    rewrite Z.pow_add_r in H by lia. lia. }
  assert (scaled = 2 ^ p - 1) as Hs by (rewrite Hke in *; nia).
  destruct (round_units_even f n d Hd) as (m & Em & Hm).
  { pose proof (Z.div_mod n (d * 2 ^ k) ltac:(nia)) as Hdm. rewrite Hs in Hdm. rewrite Hke in *. nia. }
  assert (m = 2 ^ p - 1) as -> by (rewrite Hu, Hke in Em; nia).
  rewrite Hodd in Hm. replace (2 * 2 ^ (p - 1) - 1) with (2 * (2 ^ (p - 1) - 1) + 1) in Hm by lia.
  by rewrite Z.even_odd in Hm.
Qed.

Lemma round_units_overflow : bound <= round_units f n d <-> overflows f n d.
Proof.
  destruct (greatest_bound f Hf) as (Hb & H2E & Hmid). unfold overflows.
  assert (d * ((2 ^ (p + 1) - 1) * 2 ^ (exponents f - 1)) <= n <-> d * (greatest + bound) <= 2 * n) as ->
    by (rewrite <- Hmid; nia).
  split.
  - intros Hu. assert (representable f greatest) as Hg.
    { destruct Hf as (Hp & He & _). exists (2 ^ p - 1), (exponents f).
      split; [|split; [lia|done]]. pose proof (Z.pow_pos_nonneg 2 p). lia. }
    pose proof (round_units_nearest f n d Hf Hn Hd _ Hg). nia.
  - intros Ho. destruct (Z.le_gt_cases bound (round_units f n d)) as [|Hlt]; [done|exfalso].
    pose proof (representable_le f Hf _ (round_units_representable f n d Hf Hn Hd Hlt)) as Hle.
    pose proof round_units_bound as Hnear.
    destruct (decide (round_units f n d = greatest)) as [Hg|Hne].
    + destruct (decide (2 * n = d * (greatest + bound))) as [Hm|]; [by apply middle_rounds_up|].
      rewrite Hg in Hnear. nia.
    + nia.
Qed.

End Overflow.

(** ** The grammar *)

Inductive sign_text : bytes -> bool -> Prop :=
| No_sign : sign_text [] false
| Plus : sign_text [x2b] false
| Minus : sign_text [x2d] true.

Definition all_digits (ds : bytes) : Prop := forallb is_digit ds = true.

Inductive exponent_text : bytes -> Z -> Prop :=
| No_exponent : exponent_text [] 0
| Exponent c s neg ds :
    c = x65 \/ c = x45 -> sign_text s neg -> all_digits ds -> ds <> [] ->
    exponent_text (c :: s ++ ds) (if neg then - dec_value ds else dec_value ds).

(** The texts of numbers: an optional sign, digits with at most one period before,
    among or after them, and an optional exponent. *)
Inductive decimal_text : bytes -> bool -> Z -> Z -> Prop :=
| Decimal_text s neg ip point fp x e :
    sign_text s neg -> all_digits ip -> all_digits fp -> ip ++ fp <> [] ->
    point = [x2e] \/ point = [] /\ fp = [] -> exponent_text x e ->
    decimal_text (s ++ ip ++ point ++ fp ++ x) neg (dec_value (ip ++ fp)) (e - Z.of_nat (length fp)).

(** The texts of the other values: an optional sign and a word in any case. *)
Inductive word_text : bytes -> float -> Prop :=
| Nan_text s neg word : sign_text s neg -> to_lower <$> word = bs "nan" ->
    word_text (s ++ word) (NaN neg)
| Inf_text s neg word : sign_text s neg -> to_lower <$> word = bs "inf" ->
    word_text (s ++ word) (Infinite neg)
| Infinity_text s neg word : sign_text s neg -> to_lower <$> word = bs "infinity" ->
    word_text (s ++ word) (Infinite neg).

Lemma span_digits_app ds rest : all_digits ds -> no_digit rest = true ->
  span_digits (ds ++ rest) = (ds, rest).
Proof.
  unfold all_digits. induction ds as [|c ds IH]; simpl.
  - intros _. destruct rest as [|c rest]; simpl; [done|]. by intros ->%negb_true_iff.
  - intros [-> H]%andb_true_iff Hr. by rewrite IH.
Qed.

Lemma span_digits_spec s : let '(ds, rest) := span_digits s in
  s = ds ++ rest /\ all_digits ds /\ no_digit rest = true.
Proof.
  destruct (digits_span s) as (ds & rest & -> & Hd & Hr). by rewrite span_digits_app.
Qed.

Lemma split_sign_spec s : let '(neg, rest) := split_sign s in
  exists t, sign_text t neg /\ s = t ++ rest.
Proof.
  unfold split_sign. destruct s as [|c rest]; [exists []; eauto using sign_text|].
  destruct c; try (exists []; by eauto using sign_text).
  - exists [x2b]; eauto using sign_text.
  - exists [x2d]; eauto using sign_text.
Qed.

(** What does not begin with a sign. *)
Definition unsigned (s : bytes) : Prop := forall c rest, s = c :: rest -> c <> x2b /\ c <> x2d.

Lemma split_sign_app t neg s : sign_text t neg -> unsigned s -> split_sign (t ++ s) = (neg, s).
Proof.
  intros [] Hs; [|done..]. unfold split_sign. destruct s as [|c rest]; [done|].
  destruct (Hs c rest eq_refl). by destruct c.
Qed.

Lemma unsigned_digits ds rest : all_digits ds -> ds <> [] -> unsigned (ds ++ rest).
Proof.
  intros Hd Hne c r E. destruct ds as [|c' ds]; [done|]. injection E as -> _.
  apply is_digit_not_sign. by apply andb_true_iff in Hd as [? _].
Qed.

Lemma parse_exponent_iff s e : parse_exponent s = Some e <-> exponent_text s e.
Proof.
  split.
  - destruct s as [|c rest]; simpl; [intros [= <-]; constructor|].
    case_bool_decide as Hc; [|done].
    pose proof (split_sign_spec rest) as Hs. destruct (split_sign rest) as [neg r1].
    destruct Hs as (t & Ht & ->). pose proof (span_digits_spec r1) as Hd.
    destruct (span_digits r1) as [ds tail]. destruct Hd as (-> & Hds & _).
    destruct (is_empty ds) eqn:Ed; [done|]. destruct (is_empty tail) eqn:Et; [|done].
    apply is_empty_spec in Et as ->. apply is_empty_false in Ed. simpl. intros [= <-].
    rewrite app_nil_r. by constructor.
  - intros [|c s' neg ds Hc Hs Hd Hne]; [done|]. cbn [parse_exponent app].
    rewrite bool_decide_true by done.
    rewrite (split_sign_app _ _ _ Hs) by (rewrite <- (app_nil_r ds); by apply unsigned_digits).
    rewrite <- (app_nil_r ds) at 1. rewrite span_digits_app by done.
    apply is_empty_false in Hne. by rewrite Hne.
Qed.

Lemma exponent_no_digit x e : exponent_text x e -> no_digit x = true /\ forall r, x <> x2e :: r.
Proof. by intros [|c s neg ds [-> | ->]]. Qed.

Lemma parse_number_app ip point fp x e :
  all_digits ip -> all_digits fp -> ip ++ fp <> [] -> point = [x2e] \/ point = [] /\ fp = [] ->
  exponent_text x e ->
  parse_number (ip ++ point ++ fp ++ x) = Some (dec_value (ip ++ fp), e - Z.of_nat (length fp)).
Proof.
  intros Hi Hf Hne Hp Hx. destruct (exponent_no_digit _ _ Hx) as [Hnd Hdot]. unfold parse_number.
  apply is_empty_false in Hne. destruct Hp as [-> |[-> ->]].
  - rewrite (span_digits_app ip) by done. simpl.
    rewrite (span_digits_app fp), Hne by done. apply parse_exponent_iff in Hx. by rewrite Hx.
  - simpl in *. rewrite (span_digits_app ip) by done.
    assert (forall A (a : bytes -> A) b, match x with x2e :: r => a r | _ => b end = b) as Hm.
    { intros A a b. destruct x as [|c r]; [done|]. destruct c; try done. by destruct (Hdot r). }
    rewrite Hm, Hne. apply parse_exponent_iff in Hx. by rewrite Hx.
Qed.

Lemma parse_number_inv s digits e : parse_number s = Some (digits, e) ->
  exists ip point fp x e', s = ip ++ point ++ fp ++ x /\ all_digits ip /\ all_digits fp /\
    ip ++ fp <> [] /\ (point = [x2e] \/ point = [] /\ fp = []) /\ exponent_text x e' /\
    digits = dec_value (ip ++ fp) /\ e = e' - Z.of_nat (length fp).
Proof.
  unfold parse_number. pose proof (span_digits_spec s) as Hs.
  destruct (span_digits s) as [ip rest]. destruct Hs as (-> & Hi & Hn).
  assert (exists point fp x, rest = point ++ fp ++ x /\ all_digits fp /\
    (point = [x2e] \/ point = [] /\ fp = []) /\
    match rest with x2e :: r => span_digits r | _ => ([], rest) end = (fp, x))
    as (point & fp & x & -> & Hf & Hp & ->).
  { destruct rest as [|c r]; [exists [], [], []; naive_solver|].
    destruct (decide (c = x2e)) as [->|Hc].
    - pose proof (span_digits_spec r) as Hr. destruct (span_digits r) as [fp x].
      destruct Hr as (-> & Hf & _). exists [x2e], fp, x. eauto.
    - exists [], [], (c :: r). repeat split; try done; [by right|]. by destruct c. }
  destruct (is_empty (ip ++ fp)) eqn:Ene; [done|]. apply is_empty_false in Ene.
  destruct (parse_exponent x) as [e'|] eqn:Ex; [|done]. intros [= <- <-].
  apply parse_exponent_iff in Ex. exists ip, point, fp, x, e'. eauto 10.
Qed.

Lemma number_unsigned ip point fp x e :
  all_digits ip -> all_digits fp -> ip ++ fp <> [] -> point = [x2e] \/ point = [] /\ fp = [] ->
  exponent_text x e -> unsigned (ip ++ point ++ fp ++ x).
Proof.
  intros Hi Hf Hne Hp Hx. destruct ip as [|c ip]; [|by apply (unsigned_digits (c :: ip))].
  destruct Hp as [-> |[-> ->]]; [|done]. intros c r [= <- _]. done.
Qed.

(** The accepted texts of numbers are those of the grammar. *)
Lemma float_from_str_number f text neg digits e : decimal_text text neg digits e ->
  float_from_str f text = Ok (round_decimal f neg digits e).
Proof.
  intros [s neg' ip point fp x e' Hs Hi Hf Hne Hp Hx]. unfold float_from_str.
  assert (is_empty (s ++ ip ++ point ++ fp ++ x) = false) as ->.
  { apply is_empty_false. destruct Hp as [-> |[-> ->]]; destruct s, ip; done. }
  rewrite (split_sign_app _ _ _ Hs) by (by eapply number_unsigned).
  by erewrite parse_number_app.
Qed.

(** What begins with another letter is not a number. *)
Lemma letter_first word w : to_lower <$> word = w -> (forall c rest, w = c :: rest -> c = x6e \/ c = x69) ->
  w <> [] -> unsigned word /\ word <> [] /\ parse_number word = None.
Proof.
  intros <- Hc Hne. destruct word as [|c word]; [done|].
  destruct (Hc _ _ eq_refl) as [H|H]; destruct c; try discriminate H;
    split_and!; try done; intros c' r' [= <- _]; done.
Qed.

Lemma float_from_str_word f text v : word_text text v -> float_from_str f text = Ok v.
Proof.
  assert (forall s neg word w, sign_text s neg -> to_lower <$> word = w -> w <> [] ->
    (forall c rest, w = c :: rest -> c = x6e \/ c = x69) ->
    float_from_str f (s ++ word) =
      if eq_ignore_case word (bs "nan") then Ok (NaN neg)
      else if eq_ignore_case word (bs "inf") || eq_ignore_case word (bs "infinity") then Ok (Infinite neg)
      else Err InvalidFloat) as H.
  { intros s neg word w Hs Hw Hne Hc. destruct (letter_first word w Hw Hc Hne) as (Hu & Hnil & Hp).
    unfold float_from_str.
    assert (is_empty (s ++ word) = false) as -> by (apply is_empty_false; destruct s, word; done).
    rewrite (split_sign_app _ _ _ Hs Hu), Hp. done. }
  intros [s neg word Hs Hw|s neg word Hs Hw|s neg word Hs Hw]; rewrite (H s neg word _ Hs Hw);
    try done; try (intros c r [= <- _]; auto; done); unfold eq_ignore_case; rewrite Hw; done.
Qed.

Lemma float_from_str_inv f text v : float_from_str f text = Ok v ->
  (exists neg digits e, decimal_text text neg digits e /\ v = round_decimal f neg digits e) \/
  word_text text v.
Proof.
  unfold float_from_str. destruct (is_empty text); [done|].
  pose proof (split_sign_spec text) as Hs. destruct (split_sign text) as [neg rest].
  destruct Hs as (t & Ht & ->). destruct (parse_number rest) as [[digits e]|] eqn:En.
  - intros [= <-]. left. apply parse_number_inv in En
      as (ip & point & fp & x & e' & -> & Hi & Hf & Hne & Hp & Hx & -> & ->).
    do 3 eexists. split; [by constructor|done].
  - intros H. right. unfold eq_ignore_case in H.
    repeat case_bool_decide; simplify_eq/=; by constructor.
Qed.

(** ** Correct rounding of the texts *)

(** The float [v] is the value of the format nearest to
    [(-1)^neg * digits * 10^e], or infinite when the number is too large. *)
Definition nearest (f : float_format) (neg : bool) (digits e : Z) (v : float) : Prop :=
  let n := units_num f digits e in
  let d := units_den e in
  match v with
  | Finite neg' u =>
      neg' = neg /\ representable f u /\ ~ overflows f n d /\
      forall u', representable f u' -> Z.abs (n - d * u) <= Z.abs (n - d * u')
  | Infinite neg' => neg' = neg /\ overflows f n d
  | NaN _ => False
  end.

Lemma f32_ok : format_ok f32.
Proof. by unfold format_ok. Qed.

Lemma f64_ok : format_ok f64.
Proof. by unfold format_ok. Qed.

Lemma round_decimal_nearest f neg digits e : format_ok f -> 0 <= digits ->
  nearest f neg digits e (round_decimal f neg digits e).
Proof.
  intros Hf Hdig. unfold nearest, round_decimal. cbv zeta.
  assert (0 < units_den e) as Hd by (apply Z.pow_pos_nonneg; lia).
  assert (0 <= units_num f digits e) as Hn
    by (unfold units_num; repeat apply Z.mul_nonneg_nonneg; try apply Z.pow_nonneg; lia).
  pose proof (round_units_overflow f _ _ Hf Hn Hd) as Ho.
  destruct (Z.leb_spec (2 ^ (precision f + exponents f)) (round_units f (units_num f digits e) (units_den e)))
    as [Hle|Hlt]; [by split; [|apply Ho]|].
  split; [done|]. split; [by apply round_units_representable|].
  split; [by intros H%Ho; lia|]. intros u'. by apply round_units_nearest.
Qed.

Lemma decimal_text_nonneg text neg digits e : decimal_text text neg digits e -> 0 <= digits.
Proof.
  intros [s neg' ip point fp x e' _ Hi Hf _ _ _]. apply dec_value_nonneg.
  rewrite forallb_app. by apply andb_true_iff.
Qed.

Lemma all_digits_ascii ds : all_digits ds -> forallb is_ascii ds = true.
Proof.
  unfold all_digits. rewrite !forallb_forall. intros H c Hc. by apply is_ascii_digit, H.
Qed.

Lemma sign_text_ascii s neg : sign_text s neg -> forallb is_ascii s = true.
Proof. by intros []. Qed.

Lemma word_text_ascii text v : word_text text v -> forallb is_ascii text = true.
Proof.
  assert (forall word w, to_lower <$> word = w -> forallb is_ascii w = true ->
    forallb is_ascii word = true) as H.
  { intros word w <-. rewrite !forallb_forall. intros H c Hc. specialize (H (to_lower c)).
    assert (is_ascii (to_lower c) = is_ascii c) as <- by by destruct c.
    apply H. by apply (in_map to_lower). }
  intros [s neg word Hs Hw|s neg word Hs Hw|s neg word Hs Hw]; rewrite forallb_app, (H _ _ Hw) by done;
    by rewrite (sign_text_ascii _ _ Hs).
Qed.

Lemma decimal_text_ascii text neg digits e : decimal_text text neg digits e ->
  forallb is_ascii text = true.
Proof.
  intros [s neg' ip point fp x e' Hs Hi Hf _ Hp Hx]. rewrite !forallb_app, !andb_true_iff.
  split; [by eapply sign_text_ascii|]. split; [by apply all_digits_ascii|].
  split; [by destruct Hp as [-> |[-> _]]|]. split; [by apply all_digits_ascii|].
  destruct Hx as [|c s' n ds [-> | ->] Hs' Hd _]; [done|..];
    cbn; rewrite forallb_app; apply andb_true_iff;
    (split; [by eapply sign_text_ascii|by apply all_digits_ascii]).
Qed.
