(* ===== verification/Errors.v ===== *)
(** * Errors of the client (src/cursor/mod.rs, src/cursor/replies.rs)

    The error enumerations keep the constructors of the source.  A message
    built with [format!] is kept as the list of its literal parts and
    arguments, so that no rendering has to be modelled. *)

From Stdlib Require Import ZArith Lia.
From S2P Require Import Prelude Bytes Blockstate IO Decimal.

Open Scope Z_scope.

(** [core::num::IntErrorKind], the kinds that [FromStr] gives. *)
Inductive IntErrorKind := IntEmpty | InvalidDigit | PosOverflow | NegOverflow.

Inductive BadReply :=
| Unicode (context : string)
| UnknownResponse (line : bytes)
| SepNotFound (sep : byte)
| InvalidHeader (m : list piece)
| UnexpectedHeader (line : bytes)
| UnexpectedEnd
| TooManyColumns (n : Z)
| TooFewColumns (n : nat)
| TooManyIncludedRows (included total : Z)
| TooManyRows (total : Z)
| InvalidBackslashEscape
| InvalidQuotedIdentifier
| ColumnIndexOutOfBounds (idx len : nat)
| ResultIdMismatch (expected actual : Z)
| ColumnCountMismatch (expected : nat) (actual : Z)
| RowCountMismatch (expected : Z) (actual : Z)
| RowOffsetMismatch (expected actual : Z)
| EmptyExportWindow (start requested : Z)
(** The parts of a formatted message: literal text, and arguments shown with
    [{}] or [{:?}]. *)
with piece :=
| Lit (s : string)
| Arg (s : bytes)
| Debug (s : bytes)
| Num (z : Z)
| OfInt (e : IntErrorKind)
| OfDecimal (e : InvalidDecimal)
| OfReply (e : BadReply).

Notation message_text := (list piece).

Record ServerError := MkServerError {
  sqlstate : option bytes;
  err_message : bytes;
  display : bytes
}.

Inductive CursorError :=
| Server (e : ServerError)
| Closed
| IO (e : io_error)
| Timeout
| Cancelled
| FramingErr (e : FramingError)
| BadReplyErr (e : BadReply)
| NoResultSet
| Conversion (expected_type : string) (m : message_text)
| Metadata (what : string)
| InvalidRange (start count total_rows : Z)
| FileTransfer (m : message_text)
| UploadComplete
| UploadRefused (refusal : CursorError) (server : bytes)
| PreparedResult
| ResultNotResident (rows_included total_rows : Z)
| Poisoned.

(** [ServerError::from_wire]: the first five characters are an SQLSTATE when
    they are alphanumeric and followed by an exclamation mark. *)
Definition from_wire (display : bytes) : ServerError :=
  let has_sqlstate :=
    (6 <=? length display)%nat &&
    bool_decide (nth_error display 5 = Some x21) &&
    forallb is_alnum (take 5 display) in
  if has_sqlstate then
    MkServerError (Some (take 5 display)) (drop 6 display) display
  else MkServerError None display display.

Definition with_context (context : bytes) (error : ServerError) : ServerError :=
  MkServerError (sqlstate error)
    (context ++ bs ": " ++ err_message error)
    (context ++ bs ": " ++ display error).

Definition conversion_error (expected : string) (m : message_text) : CursorError :=
  Conversion expected m.

(** [From<io::Error> for CursorError], through [IoError]. *)
Definition cursor_of_io (e : io_error) : CursorError := IO e.

(** Nothing of the text the server sent is lost or invented. *)
Lemma from_wire_text text :
  display (from_wire text) = text /\
  match sqlstate (from_wire text) with
  | Some code => length code = 5%nat /\ forallb is_alnum code = true /\
      text = code ++ [x21] ++ err_message (from_wire text)
  | None => err_message (from_wire text) = text
  end.
Proof.
  unfold from_wire. destruct (_ && _) eqn:E; [|done]. split; [done|].
  rewrite !andb_true_iff, Nat.leb_le in E. destruct E as [[Hl Hb%bool_decide_eq_true] Ha].
  simpl. split; [rewrite length_take; lia|]. split; [done|].
  destruct text as [|b0 [|b1 [|b2 [|b3 [|b4 [|b5 text]]]]]]; try done.
  by injection Hb as ->.
Qed.
