(* ===== verification/Temporal.v ===== *)
(** * Dates, times and time zones (src/convert/raw_temporal.rs)

    The parsers consume a field from the left; the state of the monad is the
    part of the field that is left ([field: &mut &[u8]]).  The integer parser of
    the [atoi] crate is the parameter [from_radix_10_checked] with the contract
    its documentation states.  The theorems characterise the accepted texts
    exactly, so that a parsed value is the one the text shows. *)

From Stdlib Require Import ZArith Lia.
From S2P Require Import Prelude Bytes Blockstate IO Decimal Errors.

Open Scope Z_scope.

Record RawDate := MkDate { day : Z; month : Z; year : Z }.
Record RawTime := MkTime { microseconds : Z; seconds : Z; minutes : Z; hours : Z }.
Record RawTimestamp := MkTimestamp { ts_date : RawDate; ts_time : RawTime }.
Record RawTz := MkTz { seconds_east : Z }.
Record RawTimeTz := MkTimeTz { ttz_time : RawTime; ttz_tz : RawTz }.
Record RawTimestampTz := MkTimestampTz { tstz_date : RawDate; tstz_time : RawTime; tstz_tz : RawTz }.

(** [atoi::FromRadix10Checked]: the number at the start of the slice ([None] when
    it does not fit the type) and the index of the byte after its digits. *)
Class Radix10 := from_radix_10_checked : int_type -> bytes -> option Z * nat.

Class Radix10Laws `{Radix10} := from_radix_10_digits t ds rest :
  forallb is_digit ds = true -> no_digit rest = true ->
  from_radix_10_checked t (ds ++ rest) = (checked t (dec_value ds), length ds).

Notation parser A := (comp bytes CursorError A).

Section Operations.
Context `{Radix10}.

Definition take_unsigned (V : int_type) (T : string) : parser Z :=
  fun data =>
    match from_radix_10_checked V data with
    | (Some v, S n) => (Ok v, drop (S n) data)
    | _ => (Err (conversion_error T [Lit "invalid integer "; Debug data]), data)
    end.

(** The loop of [take_signed]: the value and the number of digits used. *)
Fixpoint take_signed_loop (V : int_type) (negative : bool) (digits : bytes) (value : Z) (count : nat)
    : Z * nat :=
  match digits with
  | [] => (value, count)
  | digit :: rest =>
      if negb (is_digit digit) then (value, count)
      else match checked V (value * 10) with
           | None => (value, count)
           | Some multiplied =>
               match checked V (if negative then multiplied - (b2z digit - 48)
                                else multiplied + (b2z digit - 48)) with
               | None => (value, count)
               | Some next => take_signed_loop V negative rest next (S count)
               end
           end
  end.

(** The conversions of [10] and of a digit to [V] cannot fail in the types the
    code uses, [i16] and larger. *)
Definition take_signed (V : int_type) (T : string) : parser Z :=
  fun data =>
    let '(negative, digits) :=
      match strip_prefix (bs "-") data with
      | Some digits => (true, digits)
      | None => (false, data)
      end in
    if negb (in_type V 10) then
      (Err (conversion_error T [Lit "integer type cannot represent 10"]), data)
    else
      let '(value, count) := take_signed_loop V negative digits 0 0 in
      if (count =? 0)%nat ||
         match nth_error digits count with Some c => is_digit c | None => false end
      then (Err (conversion_error T [Lit "invalid integer "; Debug data]), data)
      else (Ok value, drop count digits).

Definition take_sep (T : string) (delimiter : bytes) : parser unit :=
  fun data =>
    match strip_prefix delimiter data with
    | Some rest => (Ok tt, rest)
    | None => (Err (conversion_error T [Lit "expected delimiter "; Debug delimiter]), data)
    end.

Definition expect_end (T : string) : parser unit :=
  fun data =>
    if decide (data = []) then (Ok tt, data)
    else (Err (conversion_error T [Lit "unexpected data: "; Debug data]), data).

Definition date_parse : parser RawDate :=
  do? year := take_signed i16 "RawDate" in
  do! take_sep "RawDate" (bs "-") in
  do? month := take_unsigned u8 "RawDate" in
  do! take_sep "RawDate" (bs "-") in
  do? day := take_unsigned u8 "RawDate" in
  sret (MkDate day month year).

(** The fractional part of [RawTime::parse], before it is scaled. *)
Definition fractional_part : parser RawDecimal :=
  fun field =>
    if starts_with (bs ".") field then
      match parse_unsigned u32 field with
      | Ok (dec, rest) => (Ok dec, rest)
      | Err e => (Err (conversion_error "RawTime" [Lit "server sent invalid TIME: "; OfDecimal e]), field)
      | Panic => (Panic, field)
      | NoFuel => (NoFuel, field)
      end
    else (Ok (MkDecimal 0 6), field).

Definition time_parse : parser RawTime :=
  do? hours := take_unsigned u8 "RawTime" in
  do! take_sep "RawTime" (bs ":") in
  do? minutes := take_unsigned u8 "RawTime" in
  do! take_sep "RawTime" (bs ":") in
  do? seconds := take_unsigned u8 "RawTime" in
  do? dec := fractional_part in
  match at_scale u32 dec 6 with
  | None => sfail (conversion_error "RawTime" [Lit "server sent too many decimal digits"])
  | Some microseconds => sret (MkTime microseconds seconds minutes hours)
  end.

(** [u32] arithmetic, which panics on overflow. *)
Definition microseconds_within_minute {E} (t : RawTime) : res E Z :=
  let product := 1000000 * seconds t in
  let sum := microseconds t + product in
  let? _ := rassert (in_type u32 product && in_type u32 sum) in Ok sum.

Definition timestamp_parse : parser RawTimestamp :=
  do? date := date_parse in
  do! take_sep "RawTimestamp" (bs " ") in
  do? time := time_parse in
  sret (MkTimestamp date time).

(** [RawTz::parse]: [i32] arithmetic, which panics on overflow. *)
Definition tz_parse : parser RawTz :=
  fun field =>
    let body (sign : Z) : parser RawTz :=
      do? hours := take_unsigned u8 "RawTz" in
      do! take_sep "RawTz" (bs ":") in
      do? mins := take_unsigned u8 "RawTz" in
      let east := 3600 * hours + 60 * mins in
      do! slift (rassert (in_type i32 east && in_type i32 (sign * east))) in
      sret (MkTz (sign * east)) in
    match field with
    | x2b :: rest => body 1 rest
    | x2d :: rest => body (-1) rest
    | [] => (Err (conversion_error "RawTz" [Lit "missing timezone"]), field)
    | _ => (Err (conversion_error "RawTz" [Lit "invalid timezone: "; Debug field]), field)
    end.

Definition timetz_parse : parser RawTimeTz :=
  do? time := time_parse in
  do? tz := tz_parse in
  sret (MkTimeTz time tz).

Definition timestamptz_parse : parser RawTimestampTz :=
  do? ts := timestamp_parse in
  do? tz := tz_parse in
  sret (MkTimestampTz (ts_date ts) (ts_time ts) tz).

(** The parser of a whole field, as every [FromMonet::extract] of this file
    applies it. *)
Definition parse_field {A} (T : string) (p : parser A) (field : bytes) : res CursorError A :=
  ((do? v := p in do! expect_end T in sret v) field).1.

End Operations.

(** ** Specification: the texts of the values *)

Definition shows (V : int_type) (v : Z) (ds : bytes) : Prop :=
  ds <> [] /\ forallb is_digit ds = true /\ v = dec_value ds /\ in_type V v = true.

Definition date_text (d : RawDate) (s : bytes) : Prop :=
  exists neg y m dd, s = sign_text neg ++ y ++ bs "-" ++ m ++ bs "-" ++ dd /\
    y <> [] /\ forallb is_digit y = true /\ year d = sign_of neg * dec_value y /\
    in_type i16 (year d) = true /\ shows u8 (month d) m /\ shows u8 (day d) dd.

(** A fraction of up to six digits, or none at all. *)
Definition fraction_text (micros : Z) (f : option bytes) : Prop :=
  forallb is_digit (fraction f) = true /\ (length (fraction f) <= 6)%nat /\
  micros = dec_value (fraction f) * 10 ^ (6 - Z.of_nat (length (fraction f))).

Definition time_text (t : RawTime) (f : option bytes) (s : bytes) : Prop :=
  exists h m ss, s = h ++ bs ":" ++ m ++ bs ":" ++ ss ++ dec_text [] f /\
    shows u8 (hours t) h /\ shows u8 (minutes t) m /\ shows u8 (seconds t) ss /\
    fraction_text (microseconds t) f.

(** What may follow a time: no digit, and no period unless the time has one. *)
Definition time_stop (f : option bytes) (rest : bytes) : bool := dec_stop f rest.

Definition tz_text (z : RawTz) (s : bytes) : Prop :=
  exists (neg : bool) h m hv mv, s = (if neg then bs "-" else bs "+") ++ h ++ bs ":" ++ m /\
    shows u8 hv h /\ shows u8 mv m /\
    seconds_east z = sign_of neg * (3600 * hv + 60 * mv).

(** ** Lemmas *)

Lemma dec_type_i16 : dec_type i16.
Proof. split; vm_compute; done. Qed.
Lemma dec_type_u32 : dec_type u32.
Proof. split; vm_compute; done. Qed.
#[export] Hint Resolve dec_type_i16 dec_type_u32 : rust.

Lemma take_sep_iff T d s u rest :
  take_sep T d s = (Ok u, rest) <-> s = d ++ rest.
Proof.
  unfold take_sep. destruct (strip_prefix d s) as [r|] eqn:E.
  - apply strip_prefix_Some in E as ->. destruct u. split; [by intros [= ->]|].
    by intros ->%app_inv_head.
  - split; [done|]. intros Hs. apply strip_prefix_Some in Hs. congruence.
Qed.

Section SignedLoop.
Context (V : int_type) (neg : bool) (HV : dec_type V).

Lemma take_signed_step value digit :
  is_digit digit = true -> 0 <= value ->
  match checked V (sign_of neg * value * 10) with
  | None => None
  | Some multiplied =>
      checked V (if neg then multiplied - (b2z digit - 48) else multiplied + (b2z digit - 48))
  end = checked V (sign_of neg * (10 * value + digit_val digit)).
Proof.
  intros Hd%digit_val_range Hv.
  rewrite <- (signed_step_in V (sign_of neg)) by (done || (destruct neg; auto)).
  unfold signed_step, digit_val. destruct (checked V _); [|done].
  f_equal. destruct neg; simpl; lia.
Qed.

Lemma take_signed_loop_run ds rest a count :
  forallb is_digit ds = true -> no_digit rest = true -> 0 <= a ->
  in_type V (sign_of neg * a) = true ->
  if in_type V (sign_of neg * shift_digits a ds) then
    take_signed_loop V neg (ds ++ rest) (sign_of neg * a) count =
    (sign_of neg * shift_digits a ds, (count + length ds)%nat)
  else exists v k, (k < length ds)%nat /\
    take_signed_loop V neg (ds ++ rest) (sign_of neg * a) count = (v, (count + k)%nat).
Proof.
  intros Hd Hrest. revert a count. induction ds as [|d ds IH]; intros a count Ha Hin.
  { unfold shift_digits, dec_value. cbn [fold_left length app]. change (10 ^ Z.of_nat 0) with 1.
    rewrite Z.mul_1_r, Z.add_0_r, Hin, Nat.add_0_r.
    destruct rest as [|c rest]; [done|]. simpl in *. by rewrite Hrest. }
  simpl in Hd. apply andb_true_iff in Hd as [Hd Hds].
  cbn [app take_signed_loop]. rewrite Hd. cbn [negb].
  pose proof (take_signed_step a d Hd Ha) as Hstep. rewrite shift_digits_cons.
  pose proof (digit_val_range d Hd) as Hdv.
  destruct (in_type V (sign_of neg * (10 * a + digit_val d))) eqn:Ein.
  - unfold checked in Hstep at 3. rewrite Ein in Hstep.
    destruct (checked V (sign_of neg * a * 10)) as [m|]; [|done]. rewrite Hstep.
    specialize (IH Hds (10 * a + digit_val d) (S count) ltac:(lia) Ein).
    destruct (in_type V _).
    + rewrite IH. simpl. f_equal. lia.
    + destruct IH as (v & k & Hk & IH). exists v, (S k). split; [simpl; lia|].
      rewrite IH. f_equal. lia.
  - rewrite (in_type_shift V (sign_of neg)); [|done|destruct neg; auto|lia|done|done].
    unfold checked in Hstep at 3. rewrite Ein in Hstep.
    exists (sign_of neg * a), 0%nat. split; [simpl; lia|]. rewrite Nat.add_0_r.
    destruct (checked V (sign_of neg * a * 10)) as [m|]; [by rewrite Hstep|done].
Qed.

End SignedLoop.

Lemma take_signed_sign neg ds rest :
  ds <> [] -> forallb is_digit ds = true ->
  strip_prefix (bs "-") (sign_text neg ++ ds ++ rest) = if neg then Some (ds ++ rest) else None.
Proof.
  intros Hne Hd. pose proof (strip_minus neg ds None rest) as H.
  unfold dec_text, fraction in H. rewrite !app_nil_r in H. auto.
Qed.

Lemma nth_error_stop ds rest :
  match nth_error (ds ++ rest) (length ds) with Some c => is_digit c | None => false end =
  negb (no_digit rest).
Proof.
  induction ds as [|d ds IH]; simpl; [|done]. destruct rest; simpl; [done|].
  by rewrite negb_involutive.
Qed.

Lemma nth_error_digit ds rest k :
  forallb is_digit ds = true -> (k < length ds)%nat ->
  match nth_error (ds ++ rest) k with Some c => is_digit c | None => false end = true.
Proof.
  revert k. induction ds as [|d ds IH]; intros [|k] Hd Hk; simpl in *; try lia;
    apply andb_true_iff in Hd as [? ?]; [done|]. apply IH; [done|lia].
Qed.

Lemma take_signed_iff V T s v rest :
  dec_type V ->
  take_signed V T s = (Ok v, rest) <->
  exists neg ds, s = sign_text neg ++ ds ++ rest /\ ds <> [] /\ forallb is_digit ds = true /\
    v = sign_of neg * dec_value ds /\ in_type V v = true /\ no_digit rest = true.
Proof.
  intros HV. assert (in_type V 10 = true) as H10 by (apply in_type_spec; destruct HV; lia).
  assert (forall l, shift_digits 0 l = dec_value l) as Hsh by (intros; unfold shift_digits; lia).
  assert (forall neg, in_type V (sign_of neg * 0) = true) as H0.
  { intros. apply in_type_spec. destruct HV. lia. }
  assert (forall neg ds r, forallb is_digit ds = true -> no_digit r = true ->
    let '(value, count) := take_signed_loop V neg (ds ++ r) 0 0 in
    if (count =? 0)%nat || match nth_error (ds ++ r) count with Some c => is_digit c | None => false end
    then ds = [] \/ in_type V (sign_of neg * dec_value ds) = false
    else ds <> [] /\ in_type V (sign_of neg * dec_value ds) = true /\
         value = sign_of neg * dec_value ds /\ count = length ds) as Hloop.
  { intros neg ds r Hd Hr.
    pose proof (take_signed_loop_run V neg HV ds r 0 0 Hd Hr ltac:(lia) (H0 neg)) as Hrun.
    rewrite Hsh, Z.mul_0_r in Hrun. destruct (in_type V (sign_of neg * dec_value ds)) eqn:Ein.
    - rewrite Hrun, Nat.add_0_l, nth_error_stop, Hr.
      destruct ds as [|d ds]; [by left|]. simpl. done.
    - destruct Hrun as (w & k & Hk & Hrun). rewrite Hrun, Nat.add_0_l, nth_error_digit by done.
      rewrite orb_true_r. by right. }
  unfold take_signed. rewrite H10. cbn [negb]. split.
  - destruct (match strip_prefix (bs "-") s with Some digits => (true, digits) | None => (false, s) end)
      as [neg digits] eqn:Esign.
    assert (s = sign_text neg ++ digits) as ->.
    { destruct (strip_prefix (bs "-") s) eqn:E; injection Esign as <- <-; [|done].
      by apply strip_prefix_Some in E. }
    destruct (digits_span digits) as (ds & r & -> & Hd & Hr). specialize (Hloop neg ds r Hd Hr).
    destruct (take_signed_loop V neg (ds ++ r) 0 0) as [value count].
    destruct (_ || _); [done|]. intros [= <- <-]. destruct Hloop as (? & ? & -> & ->).
    exists neg, ds. by rewrite drop_app_length.
  - intros (neg & ds & -> & Hne & Hd & -> & Hin & Hr). rewrite take_signed_sign by done.
    specialize (Hloop neg ds rest Hd Hr).
    destruct neg; cbn [sign_text app]; (destruct (take_signed_loop V _ (ds ++ rest) 0 0) as [value count];
      destruct (_ || _);
      [destruct Hloop; congruence|destruct Hloop as (_ & _ & -> & ->)];
      by rewrite drop_app_length).
Qed.

Section Theorems.
Context `{Radix10Laws}.

Lemma take_unsigned_iff V T s v rest :
  take_unsigned V T s = (Ok v, rest) <->
  exists ds, s = ds ++ rest /\ shows V v ds /\ no_digit rest = true.
Proof.
  unfold take_unsigned. split.
  - destruct (digits_span s) as (ds & r & -> & Hd & Hr).
    rewrite from_radix_10_digits by done. destruct (checked V (dec_value ds)) eqn:E; [|done].
    apply checked_Some in E as [-> Hin].
    destruct (length ds) as [|n] eqn:El; [done|]. intros [= <- <-].
    exists ds. rewrite <- El, drop_app_length. repeat split; [|done|done|done].
    by intros ->.
  - intros (ds & -> & (Hne & Hd & -> & Hin) & Hr). rewrite from_radix_10_digits by done.
    unfold checked. rewrite Hin. destruct (length ds) as [|n] eqn:El.
    + by destruct ds.
    + by rewrite <- El, drop_app_length.
Qed.

(** Composing parsers that accept exactly certain texts. *)
Lemma date_parse_spec s d rest :
  date_parse s = (Ok d, rest) <->
  exists txt, s = txt ++ rest /\ date_text d txt /\ no_digit rest = true.
Proof.
  unfold date_parse. split.
  - intros (y & s1 & Hy & Hrun)%sbind_ok.
    apply take_signed_iff in Hy as (neg & ds & -> & Hne & Hd & Hyv & Hyi & _); [|auto with rust].
    apply sbind_ok in Hrun as (? & s2 & ->%take_sep_iff & Hrun).
    apply sbind_ok in Hrun as (m & s3 & (ms & -> & Hm & _)%take_unsigned_iff & Hrun).
    apply sbind_ok in Hrun as (? & s4 & ->%take_sep_iff & Hrun).
    apply sbind_ok in Hrun as (dd & s5 & (dds & -> & Hdd & Hend)%take_unsigned_iff & [= <- <-]).
    exists (sign_text neg ++ ds ++ bs "-" ++ ms ++ bs "-" ++ dds). split.
    + by rewrite <- !app_assoc.
    + split; [|done]. exists neg, ds, ms, dds. done.
  - intros (txt & -> & (neg & y & m & dd & -> & Hne & Hd & Hyv & Hyi & Hm & Hdd) & Hend).
    rewrite <- !app_assoc.
    apply sbind_ok. exists (year d), (bs "-" ++ m ++ bs "-" ++ dd ++ rest). split.
    { apply take_signed_iff; [auto with rust|]. exists neg, y. done. }
    apply sbind_ok. exists tt, (m ++ bs "-" ++ dd ++ rest). split; [by apply take_sep_iff|].
    apply sbind_ok. exists (month d), (bs "-" ++ dd ++ rest). split.
    { apply take_unsigned_iff. by exists m. }
    apply sbind_ok. exists tt, (dd ++ rest). split; [by apply take_sep_iff|].
    apply sbind_ok. exists (day d), rest. split; [|by destruct d].
    apply take_unsigned_iff. by exists dd.
Qed.

Lemma fraction_scaled f :
  forallb is_digit f = true -> (length f <= 6)%nat ->
  0 <= dec_value f * 10 ^ (6 - Z.of_nat (length f)) < 10 ^ 6.
Proof.
  intros Hd Hl. pose proof (dec_value_lt f Hd). pose proof (dec_value_nonneg f Hd).
  assert (0 < 10 ^ (6 - Z.of_nat (length f))) by (apply Z.pow_pos_nonneg; lia).
  replace (10 ^ 6) with (10 ^ Z.of_nat (length f) * 10 ^ (6 - Z.of_nat (length f)))
    by (rewrite <- Z.pow_add_r by lia; f_equal; lia). nia.
Qed.

Lemma in_u32 v : in_type u32 v = true <-> 0 <= v <= 4294967295.
Proof. rewrite in_type_spec. done. Qed.

Lemma parse_unsigned_fraction f rest :
  forallb is_digit f = true -> no_digit rest = true ->
  parse_unsigned u32 (x2e :: f ++ rest) = dec_meaning u32 1 [] (Some f) rest.
Proof.
  intros Hd Hr. unfold parse_unsigned.
  apply (parse_digits_meaning u32 1 (multiply_accumulate u32)) with (ip := []) (fp := Some f);
    auto with rust.
  - intros. apply multiply_accumulate_step; auto with rust.
  - destruct rest; [done|]. simpl in *. by rewrite Hr, orb_true_r.
Qed.

Lemma fractional_spec s rest micros :
  no_digit s = true ->
  (exists dec, fractional_part s = (Ok dec, rest) /\ at_scale u32 dec 6 = Some micros) <->
  exists f, s = dec_text [] f ++ rest /\ fraction_text micros f /\ time_stop f rest = true.
Proof.
  intros Hs. unfold fractional_part, time_stop. split.
  - intros (dec & Hf & Hat). destruct (starts_with (bs ".") s) eqn:Edot.
    + apply starts_with_spec in Edot as [s' ->].
      destruct (digits_span s') as (f & r & -> & Hd & Hr). change (bs ".") with [x2e] in *. simpl app in *.
      rewrite parse_unsigned_fraction in Hf by done. unfold dec_meaning in Hf.
      destruct (in_type u32 _ && _ && _) eqn:E; [|done]. injection Hf as <- <-.
      apply at_scale_Some in Hat as (Hsc & Hp & -> & Hin). simpl in *.
      exists (Some f). split; [done|]. split.
      * split; [done|]. split; [simpl; lia|]. change (fraction (Some f)) with f. lia.
      * destruct r; [done|]. simpl in *. by rewrite Hr, orb_true_r.
    + injection Hf as <- <-. vm_compute in Hat. injection Hat as <-.
      exists None. split; [done|]. split; [split; [done|split; [simpl; lia|done]]|]. destruct s as [|c s]; [done|]. simpl in *.
      rewrite Hs, orb_false_r. apply bool_decide_eq_true. intros ->. done.
  - intros (f & -> & (Hd & Hl & ->) & Hstop).
    destruct f as [f|]; cbn [dec_text app] in *.
    + change (fraction (Some f)) with f in *. exists (MkDecimal (dec_value f) (Z.of_nat (length f))).
      assert (no_digit rest = true) as Hr.
      { destruct rest; [done|]. simpl in *. by apply andb_true_iff in Hstop as [-> _]. }
      change (starts_with (bs ".") (x2e :: f ++ rest)) with true.
      pose proof (fraction_scaled f Hd Hl). pose proof (dec_value_lt f Hd).
      pose proof (dec_value_nonneg f Hd).
      assert (10 ^ Z.of_nat (length f) <= 10 ^ 6) by (apply Z.pow_le_mono_r; lia).
      assert (10 ^ (6 - Z.of_nat (length f)) <= 10 ^ 6) by (apply Z.pow_le_mono_r; lia).
      change (10 ^ 6) with 1000000 in *. split.
      * rewrite parse_unsigned_fraction by done. unfold dec_meaning. simpl fraction.
        rewrite app_nil_l, Z.mul_1_l, (proj2 (in_u32 _)) by lia.
        by rewrite (proj2 (Nat.leb_le (length f) 255)) by lia.
      * apply at_scale_Some. simpl. rewrite !in_u32.
        pose proof (Z.pow_nonneg 10 (6 - Z.of_nat (length f))). lia.
    + exists (MkDecimal 0 6). simpl app.
      assert (starts_with (bs ".") rest = false) as ->.
      { apply not_true_iff_false. intros [r ->]%starts_with_spec. done. }
      done.
Qed.

Lemma time_parse_spec s t rest :
  time_parse s = (Ok t, rest) <->
  exists txt f, s = txt ++ rest /\ time_text t f txt /\ time_stop f rest = true.
Proof.
  unfold time_parse. split.
  - intros (h & s1 & (hs & -> & Hh & _)%take_unsigned_iff & Hrun)%sbind_ok.
    apply sbind_ok in Hrun as (? & s2 & ->%take_sep_iff & Hrun).
    apply sbind_ok in Hrun as (m & s3 & (ms & -> & Hm & _)%take_unsigned_iff & Hrun).
    apply sbind_ok in Hrun as (? & s4 & ->%take_sep_iff & Hrun).
    apply sbind_ok in Hrun as (sc & s5 & (scs & -> & Hsc & Hnd)%take_unsigned_iff & Hrun).
    apply sbind_ok in Hrun as (dec & s6 & Hdec & Hrun).
    destruct (at_scale u32 dec 6) as [micros|] eqn:Hat; [|done]. injection Hrun as <- <-.
    destruct (proj1 (fractional_spec s5 s6 micros Hnd)) as (f & -> & Hf & Hstop); [by exists dec|].
    exists (hs ++ bs ":" ++ ms ++ bs ":" ++ scs ++ dec_text [] f), f. split.
    + by rewrite <- !app_assoc.
    + split; [|done]. by exists hs, ms, scs.
  - intros (txt & f & -> & (h & m & ss & -> & Hh & Hm & Hsc & Hf) & Hstop).
    rewrite <- !app_assoc.
    assert (no_digit (dec_text [] f ++ rest) = true) as Hnd.
    { destruct f; [done|]. unfold time_stop, dec_stop in Hstop. simpl.
      destruct rest; [done|]. simpl. by apply andb_true_iff in Hstop as [-> _]. }
    apply sbind_ok. exists (hours t), (bs ":" ++ m ++ bs ":" ++ ss ++ dec_text [] f ++ rest).
    split; [apply take_unsigned_iff; by exists h|].
    apply sbind_ok. exists tt, (m ++ bs ":" ++ ss ++ dec_text [] f ++ rest).
    split; [by apply take_sep_iff|].
    apply sbind_ok. exists (minutes t), (bs ":" ++ ss ++ dec_text [] f ++ rest).
    split; [apply take_unsigned_iff; by exists m|].
    apply sbind_ok. exists tt, (ss ++ dec_text [] f ++ rest).
    split; [by apply take_sep_iff|].
    apply sbind_ok. exists (seconds t), (dec_text [] f ++ rest).
    split; [apply take_unsigned_iff; by exists ss|].
    destruct (proj2 (fractional_spec (dec_text [] f ++ rest) rest (microseconds t) Hnd))
      as (dec & Hfr & Hat); [by exists f|].
    apply sbind_ok. exists dec, rest. split; [done|]. rewrite Hat. by destruct t.
Qed.

Lemma tz_parse_spec s z rest :
  tz_parse s = (Ok z, rest) <->
  exists txt, s = txt ++ rest /\ tz_text z txt /\ no_digit rest = true.
Proof.
  assert (forall neg s', (do? hours := take_unsigned u8 "RawTz" in
      do! take_sep "RawTz" (bs ":") in
      do? mins := take_unsigned u8 "RawTz" in
      let east := 3600 * hours + 60 * mins in
      do! slift (rassert (in_type i32 east && in_type i32 (sign_of neg * east))) in
      sret (MkTz (sign_of neg * east))) s' = (Ok z, rest) <->
    exists h m hv mv, s' = h ++ bs ":" ++ m ++ rest /\ shows u8 hv h /\ shows u8 mv m /\
      seconds_east z = sign_of neg * (3600 * hv + 60 * mv) /\ no_digit rest = true) as Hbody.
  { intros neg s'. split.
    - intros (h & s1 & (hs & -> & Hh & _)%take_unsigned_iff & Hrun)%sbind_ok.
      apply sbind_ok in Hrun as (? & s2 & ->%take_sep_iff & Hrun).
      apply sbind_ok in Hrun as (m & s3 & (ms & -> & Hm & Hr)%take_unsigned_iff & Hrun).
      apply sbind_ok in Hrun as (? & s4 & [= _ <-] & [= <- <-]). by exists hs, ms, h, m.
    - intros (h & m & hv & mv & -> & Hh & Hm & Hz & Hr).
      apply sbind_ok. exists hv, (bs ":" ++ m ++ rest). split; [apply take_unsigned_iff; by exists h|].
      apply sbind_ok. exists tt, (m ++ rest). split; [by apply take_sep_iff|].
      apply sbind_ok. exists mv, rest. split; [apply take_unsigned_iff; by exists m|].
      assert (0 <= hv <= 255 /\ 0 <= mv <= 255) as [Hhv Hmv].
      { destruct Hh as (_ & _ & _ & Hh), Hm as (_ & _ & _ & Hm).
        apply in_type_spec in Hh, Hm. done. }
      apply sbind_ok. exists tt, rest. split; [|destruct z; simpl in Hz; by rewrite Hz].
      unfold slift, rassert.
      assert (forall v, -1000000 <= v <= 1000000 -> in_type i32 v = true) as Hi32.
      { intros v Hv. apply in_type_spec. change (ty_min i32) with (-2147483648).
        change (ty_max i32) with 2147483647. lia. }
      rewrite !Hi32; [done|destruct neg; simpl; lia|lia]. }
  split.
  - intros Hrun. unfold tz_parse in Hrun. destruct s as [|c s']; [done|].
    destruct (decide (c = x2b)) as [->|Hp]; [|destruct (decide (c = x2d)) as [->|Hm]].
    + apply (Hbody false) in Hrun as (h & m & hv & mv & -> & Hh & Hm & Hz & Hr).
      exists (bs "+" ++ h ++ bs ":" ++ m). split; [by rewrite <- !app_assoc|]. split; [|done].
      by exists false, h, m, hv, mv.
    + apply (Hbody true) in Hrun as (h & m & hv & mv & -> & Hh & Hm & Hz & Hr).
      exists (bs "-" ++ h ++ bs ":" ++ m). split; [by rewrite <- !app_assoc|]. split; [|done].
      by exists true, h, m, hv, mv.
    + exfalso. destruct c; done.
  - intros (txt & -> & (neg & h & m & hv & mv & -> & Hh & Hm & Hz) & Hr).
    destruct neg; rewrite <- !app_assoc; simpl app.
    + apply (Hbody true). by exists h, m, hv, mv.
    + apply (Hbody false). by exists h, m, hv, mv.
Qed.

Lemma timestamp_parse_spec s v rest :
  timestamp_parse s = (Ok v, rest) <->
  exists dt tm f, s = (dt ++ bs " " ++ tm) ++ rest /\ date_text (ts_date v) dt /\
    time_text (ts_time v) f tm /\ time_stop f rest = true.
Proof.
  unfold timestamp_parse. split.
  - intros (d & s1 & (dt & -> & Hd & _)%date_parse_spec & Hrun)%sbind_ok.
    apply sbind_ok in Hrun as (? & s2 & ->%take_sep_iff & Hrun).
    apply sbind_ok in Hrun as (t & s3 & (tm & f & -> & Ht & Hs)%time_parse_spec & [= <- <-]).
    exists dt, tm, f. by rewrite <- !app_assoc.
  - intros (dt & tm & f & -> & Hd & Ht & Hs). rewrite <- !app_assoc.
    apply sbind_ok. exists (ts_date v), (bs " " ++ tm ++ rest).
    split; [apply date_parse_spec; by exists dt|].
    apply sbind_ok. exists tt, (tm ++ rest). split; [by apply take_sep_iff|].
    apply sbind_ok. exists (ts_time v), rest. split; [|by destruct v].
    apply time_parse_spec. by exists tm, f.
Qed.

Lemma tz_text_stop z txt f rest : tz_text z txt -> time_stop f (txt ++ rest) = true.
Proof. intros ([] & h & m & hv & mv & -> & _); by destruct f. Qed.

Lemma timestamptz_parse_spec s v rest :
  timestamptz_parse s = (Ok v, rest) <->
  exists dt tm f zt, s = (dt ++ bs " " ++ tm) ++ zt ++ rest /\ date_text (tstz_date v) dt /\
    time_text (tstz_time v) f tm /\ tz_text (tstz_tz v) zt /\ no_digit rest = true.
Proof.
  unfold timestamptz_parse. split.
  - intros (ts & s1 & (dt & tm & f & -> & Hd & Ht & _)%timestamp_parse_spec & Hrun)%sbind_ok.
    apply sbind_ok in Hrun as (z & s2 & (zt & -> & Hz & Hr)%tz_parse_spec & [= <- <-]).
    by exists dt, tm, f, zt.
  - intros (dt & tm & f & zt & -> & Hd & Ht & Hz & Hr).
    apply sbind_ok. exists (MkTimestamp (tstz_date v) (tstz_time v)), (zt ++ rest). split.
    { apply timestamp_parse_spec. exists dt, tm, f. repeat split; auto. by eapply tz_text_stop. }
    apply sbind_ok. exists (tstz_tz v), rest. split; [|by destruct v].
    apply tz_parse_spec. by exists zt.
Qed.

Lemma timetz_parse_spec s v rest :
  timetz_parse s = (Ok v, rest) <->
  exists tm f zt, s = tm ++ zt ++ rest /\ time_text (ttz_time v) f tm /\
    tz_text (ttz_tz v) zt /\ no_digit rest = true.
Proof.
  unfold timetz_parse. split.
  - intros (t & s1 & (tm & f & -> & Ht & _)%time_parse_spec & Hrun)%sbind_ok.
    apply sbind_ok in Hrun as (z & s2 & (zt & -> & Hz & Hr)%tz_parse_spec & [= <- <-]).
    by exists tm, f, zt.
  - intros (tm & f & zt & -> & Ht & Hz & Hr).
    apply sbind_ok. exists (ttz_time v), (zt ++ rest). split.
    { apply time_parse_spec. exists tm, f. repeat split; auto. by eapply tz_text_stop. }
    apply sbind_ok. exists (ttz_tz v), rest. split; [|by destruct v].
    apply tz_parse_spec. by exists zt.
Qed.

Lemma parse_field_ok {A} T (p : parser A) field v :
  parse_field T p field = Ok v <-> p field = (Ok v, []).
Proof.
  unfold parse_field, sbind, expect_end, sret.
  destruct (p field) as [[a| | |] rest]; [|naive_solver..].
  destruct (decide (rest = [])); simpl; naive_solver.
Qed.

(** A TIMESTAMP WITH TIME ZONE field is accepted exactly when it is a date, a
    space, a time with at most six fractional digits and a zone offset, and the
    value read is the one the text shows: the year (down to the minimum of its
    type), the microseconds at scale six, the offset in seconds with its sign. *)
Theorem timestamptz_exact field v :
  parse_field "RawTimestampTz" timestamptz_parse field = Ok v <->
  exists dt tm f zt, field = dt ++ bs " " ++ tm ++ zt /\ date_text (tstz_date v) dt /\
    time_text (tstz_time v) f tm /\ tz_text (tstz_tz v) zt.
Proof.
  rewrite parse_field_ok, timestamptz_parse_spec. setoid_rewrite app_nil_r.
  split; intros (dt & tm & f & zt & -> & H'); exists dt, tm, f, zt.
  - rewrite <- !app_assoc. naive_solver.
  - rewrite <- !app_assoc. naive_solver.
Qed.

(** The same for TIME WITH TIME ZONE, TIMESTAMP, TIME and DATE fields. *)
Theorem temporal_fields_exact field :
  (forall v, parse_field "RawTimeTz" timetz_parse field = Ok v <->
     exists tm f zt, field = tm ++ zt /\ time_text (ttz_time v) f tm /\ tz_text (ttz_tz v) zt) /\
  (forall v, parse_field "RawTimestamp" timestamp_parse field = Ok v <->
     exists dt tm f, field = dt ++ bs " " ++ tm /\ date_text (ts_date v) dt /\
       time_text (ts_time v) f tm) /\
  (forall v, parse_field "RawTime" time_parse field = Ok v <-> exists f, time_text v f field) /\
  (forall v, parse_field "RawDate" date_parse field = Ok v <-> date_text v field).
Proof.
  repeat split.
  - rewrite parse_field_ok, timetz_parse_spec. setoid_rewrite app_nil_r. naive_solver.
  - rewrite parse_field_ok, timetz_parse_spec. setoid_rewrite app_nil_r. naive_solver.
  - rewrite parse_field_ok, timestamp_parse_spec. setoid_rewrite app_nil_r. naive_solver.
  - rewrite parse_field_ok, timestamp_parse_spec. setoid_rewrite app_nil_r.
    intros (dt & tm & f & ? & ? & ?). by exists dt, tm, f.
  - rewrite parse_field_ok, time_parse_spec. setoid_rewrite app_nil_r. naive_solver.
  - rewrite parse_field_ok, time_parse_spec. setoid_rewrite app_nil_r. naive_solver.
  - rewrite parse_field_ok, date_parse_spec. setoid_rewrite app_nil_r. naive_solver.
  - rewrite parse_field_ok, date_parse_spec. setoid_rewrite app_nil_r. naive_solver.
Qed.

Lemma parse_unsigned_returns s : returns (parse_unsigned u32 s).
Proof.
  destruct (parser_of_split u32 s dec_type_u32)
    as [(neg & ip & fp & rest & Hneg & -> & Hd & Hne & Hs)|(e & He)].
  - pose proof (parser_of_text u32 neg ip fp rest dec_type_u32 Hneg Hd Hne Hs) as Hp.
    change (parser_of u32) with (parse_unsigned u32) in Hp. rewrite Hp.
    unfold dec_meaning. by case_match.
  - change (parser_of u32) with (parse_unsigned u32) in He. by rewrite He.
Qed.

Lemma take_unsigned_returns V T s : returns (take_unsigned V T s).1.
Proof. unfold take_unsigned. by destruct (from_radix_10_checked V s) as [[v|] [|n]]. Qed.

Lemma take_sep_returns T d s : returns (take_sep T d s).1.
Proof. unfold take_sep. by case_match. Qed.

Lemma take_signed_returns V T s : returns (take_signed V T s).1.
Proof.
  unfold take_signed. case_match. destruct (negb _); [done|].
  destruct (take_signed_loop _ _ _ _ _). by destruct (_ || _).
Qed.

#[local] Hint Resolve take_unsigned_returns take_sep_returns take_signed_returns : rust.

Local Ltac parse_returns :=
  repeat first [solve [auto with rust] | apply returns_sbind; [|intros]].

Lemma time_parse_returns s : returns (time_parse s).1.
Proof.
  unfold time_parse. parse_returns.
  { unfold fractional_part. case_match; [|done].
    match goal with |- context [parse_unsigned u32 ?x] =>
      pose proof (parse_unsigned_returns x); by destruct (parse_unsigned u32 x) as [[]| | |] end. }
  by case_match.
Qed.

Lemma date_parse_returns s : returns (date_parse s).1.
Proof. unfold date_parse. by parse_returns. Qed.

Lemma tz_parse_returns s : returns (tz_parse s).1.
Proof.
  assert (forall sign s', sign = 1 \/ sign = -1 -> returns ((do? hours := take_unsigned u8 "RawTz" in
      do! take_sep "RawTz" (bs ":") in
      do? mins := take_unsigned u8 "RawTz" in
      let east := 3600 * hours + 60 * mins in
      do! slift (rassert (in_type i32 east && in_type i32 (sign * east))) in
      sret (MkTz (sign * east))) s').1) as Hbody.
  { intros sign s' Hs. apply returns_sbind; [apply take_unsigned_returns|].
    intros h s1 (hs & -> & (_ & _ & _ & Hh%in_type_spec) & _)%take_unsigned_iff.
    apply returns_sbind; [apply take_sep_returns|]. intros ? s2 ->%take_sep_iff.
    apply returns_sbind; [apply take_unsigned_returns|].
    intros m s3 (ms & -> & (_ & _ & _ & Hm%in_type_spec) & _)%take_unsigned_iff.
    change (ty_min u8) with 0 in *. change (ty_max u8) with 255 in *.
    apply returns_sbind; [|done]. unfold slift, rassert. cbn [fst].
    assert (forall v, -1000000 <= v <= 1000000 -> in_type i32 v = true) as Hi32.
    { intros v Hv. apply in_type_spec. change (ty_min i32) with (-2147483648).
      change (ty_max i32) with 2147483647. lia. }
    rewrite !Hi32; [done|destruct Hs as [-> | ->]; lia|lia]. }
  unfold tz_parse. destruct s as [|c s]; [done|].
  destruct c; try done; apply Hbody; auto.
Qed.

#[local] Hint Resolve date_parse_returns time_parse_returns tz_parse_returns : rust.

(** Every temporal field, whatever its bytes, is parsed to a value or a conversion
    error: no arithmetic overflow, no index out of range.  The microseconds of a
    parsed time are less than a second and [microseconds_within_minute] does not
    overflow on it. *)
Theorem temporal_fields_return field :
  returns (parse_field "RawTimestampTz" timestamptz_parse field) /\
  returns (parse_field "RawTimeTz" timetz_parse field) /\
  returns (parse_field "RawTimestamp" timestamp_parse field) /\
  forall t, parse_field "RawTime" time_parse field = Ok t ->
    0 <= microseconds t < 1000000 /\
    @microseconds_within_minute unit t = Ok (microseconds t + 1000000 * seconds t).
Proof.
  assert (forall A T (p : parser A), returns (p field).1 -> returns (parse_field T p field)) as Hp.
  { intros A T p Hr. unfold parse_field. apply returns_sbind; [done|].
    intros a rest _. apply returns_sbind; [|done]. unfold expect_end. by case_decide. }
  repeat split.
  - apply Hp. unfold timestamptz_parse, timestamp_parse. by parse_returns.
  - apply Hp. unfold timetz_parse. by parse_returns.
  - apply Hp. unfold timestamp_parse. by parse_returns.
  - apply parse_field_ok, time_parse_spec in H1 as (txt & f & -> & (h & m & ss & -> & _ & _ & _ & Hf) & _).
    destruct Hf as (Hd & Hl & ->). by apply fraction_scaled.
  - apply parse_field_ok, time_parse_spec in H1 as (txt & f & -> & (h & m & ss & -> & _ & _ & _ & Hf) & _).
    destruct Hf as (Hd & Hl & ->). by apply fraction_scaled.
  - apply parse_field_ok, time_parse_spec in H1 as (txt & f & -> & (h & m & ss & -> & _ & _ & Hs & Hf) & _).
    destruct Hf as (Hd & Hl & Hm). pose proof (fraction_scaled _ Hd Hl) as Hb. rewrite <- Hm in Hb.
    destruct Hs as (_ & _ & _ & Hs%in_type_spec).
    change (ty_min u8) with 0 in *. change (ty_max u8) with 255 in *. change (10 ^ 6) with 1000000 in *.
    unfold microseconds_within_minute. rewrite !(proj2 (in_u32 _)) by lia. done.
Qed.

End Theorems.

(** ** A concrete integer parser, and witnesses *)

Fixpoint count_digits (s : bytes) : nat :=
  match s with
  | c :: s' => if is_digit c then S (count_digits s') else O
  | [] => O
  end.

Definition radix10_ref : Radix10 :=
  fun t s => (checked t (dec_value (take (count_digits s) s)), count_digits s).

Lemma radix10_ref_laws : @Radix10Laws radix10_ref.
Proof.
  intros t ds rest Hd Hr. unfold from_radix_10_checked, radix10_ref.
  assert (count_digits (ds ++ rest) = length ds) as ->; [|by rewrite take_app_length].
  induction ds as [|d ds IH]; simpl in *.
  - destruct rest; [done|]. simpl in *. by destruct (is_digit b).
  - apply andb_true_iff in Hd as [-> Hd]. by rewrite IH.
Qed.

Lemma timestamptz_exact_witness :
  @parse_field _ "RawTimestampTz" (@timestamptz_parse radix10_ref) (bs "-32768-10-16 10:32:59.12-05:30") =
    Ok (MkTimestampTz (MkDate 16 10 (-32768)) (MkTime 120000 59 32 10) (MkTz (-19800))) <->
  exists dt tm f zt, bs "-32768-10-16 10:32:59.12-05:30" = dt ++ bs " " ++ tm ++ zt /\
    date_text (MkDate 16 10 (-32768)) dt /\ time_text (MkTime 120000 59 32 10) f tm /\
    tz_text (MkTz (-19800)) zt.
Proof. apply (@timestamptz_exact radix10_ref radix10_ref_laws _ (MkTimestampTz _ _ _)). Defined.

Lemma temporal_fields_exact_witness :
  exists f, time_text (MkTime 789000 56 34 12) f (bs "12:34:56.789").
Proof.
  apply (@temporal_fields_exact radix10_ref radix10_ref_laws (bs "12:34:56.789")).
  by vm_compute.
Defined.

Lemma temporal_fields_return_witness :
  0 <= microseconds (MkTime 789000 56 34 12) < 1000000 /\
  @microseconds_within_minute unit (MkTime 789000 56 34 12) = Ok (789000 + 1000000 * 56).
Proof.
  apply (@temporal_fields_return radix10_ref radix10_ref_laws (bs "12:34:56.789")).
  by vm_compute.
Defined.

Example timestamptz_sample :
  @parse_field _ "RawTimestampTz" (@timestamptz_parse radix10_ref) (bs "2024-10-16 10:32:59.12-05:00") =
  Ok (MkTimestampTz (MkDate 16 10 2024) (MkTime 120000 59 32 10) (MkTz (-18000))).
Proof. by vm_compute. Qed.
