(* ===== verification/MonetTypes.v ===== *)
(** * Column types (src/monettypes.rs) *)

From Stdlib Require Import ZArith Lia.
From S2P Require Import Prelude Bytes.

Open Scope Z_scope.

Inductive MonetType :=
| Bool | TinyInt | SmallInt | Int | BigInt | HugeInt | Oid
| Decimal (precision scale : Z)
| Varchar (width : Z)
| Real | Double | MonthInterval | DayInterval | SecInterval
| Time | TimeTz | Date | Timestamp | TimestampTz
| Blob | Url | Inet | Inet4 | Inet6 | Json | Uuid | Geometry | Xml.

#[global] Instance MonetType_eq_dec : EqDecision MonetType.
Proof. solve_decision. Defined.

(** [Display]. *)
Definition show_type (t : MonetType) : bytes :=
  match t with
  | Bool => bs "BOOL"
  | TinyInt => bs "TINYINT"
  | SmallInt => bs "SMALLINT"
  | Int => bs "INT"
  | BigInt => bs "BIGINT"
  | HugeInt => bs "HUGEINT"
  | Oid => bs "OID"
  | Decimal p s => bs "DECIMAL(" ++ print_dec p ++ bs ", " ++ print_dec s ++ bs ")"
  | Varchar n => bs "VARCHAR(" ++ print_dec n ++ bs ")"
  | Real => bs "REAL"
  | Double => bs "DOUBLE"
  | MonthInterval => bs "MONTH_INTERVAL"
  | DayInterval => bs "DAY_INTERVAL"
  | SecInterval => bs "SEC_INTERVAL"
  | Time => bs "TIME"
  | TimeTz => bs "TIMETZ"
  | Date => bs "DATE"
  | Timestamp => bs "TIMESTAMP"
  | TimestampTz => bs "TIMESTAMPTZ"
  | Blob => bs "BLOB"
  | Url => bs "URL"
  | Inet => bs "INET"
  | Inet4 => bs "INET4"
  | Inet6 => bs "INET6"
  | Json => bs "JSON"
  | Uuid => bs "UUID"
  | Geometry => bs "GEOMETRY"
  | Xml => bs "XML"
  end.

(** The table of [from_mapi_code]. *)
Definition mapi_codes : list (string * MonetType) :=
  [("boolean", Bool); ("tinyint", TinyInt); ("smallint", SmallInt); ("int", Int);
   ("bigint", BigInt); ("hugeint", HugeInt); ("oid", Oid);
   ("char", Varchar 0); ("clob", Varchar 0); ("str", Varchar 0); ("varchar", Varchar 0);
   ("decimal", Decimal 0 0); ("real", Real); ("double", Double);
   ("month_interval", MonthInterval); ("day_interval", DayInterval);
   ("sec_interval", SecInterval); ("time", Time); ("timetz", TimeTz); ("date", Date);
   ("timestamp", Timestamp); ("timestamptz", TimestampTz); ("blob", Blob); ("url", Url);
   ("inet", Inet); ("inet4", Inet4); ("inet6", Inet6); ("json", Json); ("uuid", Uuid);
   ("geometry", Geometry); ("xml", Xml)]%string.

Fixpoint lookup_code (table : list (string * MonetType)) (code : bytes) : option MonetType :=
  match table with
  | [] => None
  | (name, typ) :: rest => if decide (code = bs name) then Some typ else lookup_code rest code
  end.

Definition from_mapi_code (code : bytes) : option MonetType := lookup_code mapi_codes code.
