(* ===== verification/ReplyBuf.v ===== *)
(** * The reply buffer (src/cursor/replies.rs, [ReplyBuf])

    A response and a read position.  [convert_backslashes] unescapes a quoted
    field in place with raw pointers; here the pointers are offsets into the
    data, a read or write outside of it is a [Panic], and the loop works on the
    one shared vector, so that the theorems show both that no access leaves the
    allocation and that a byte is never read after it was overwritten. *)

From Stdlib Require Import ZArith Lia.
From stdpp Require Import sets.
From S2P Require Import Prelude Bytes Blockstate IO Decimal Errors.

Open Scope nat_scope.

Record ReplyBuf := MkBuf { data : bytes; pos : nat }.

Notation reply A := (comp ReplyBuf BadReply A).

Definition buf_new (vec : bytes) : ReplyBuf := MkBuf vec 0.
Definition into_vec (b : ReplyBuf) : bytes := data b.

(** [&self.data[self.pos..]]; the position never leaves the data, see [wf_buf]. *)
Definition peek (b : ReplyBuf) : bytes := drop (pos b) (data b).
Definition buf_is_empty (b : ReplyBuf) : bool := bool_decide (peek b = []).

Definition consume (nbytes : nat) : reply bytes :=
  fun b =>
    match checked usize (Z.of_nat (pos b) + Z.of_nat nbytes)%Z with
    | None => (Err UnexpectedEnd, b)
    | Some _ =>
        let newpos := pos b + nbytes in
        if length (data b) <? newpos then (Err UnexpectedEnd, b)
        else (Ok (slice (pos b) newpos (data b)), MkBuf (data b) newpos)
    end.

Definition find (b : ReplyBuf) (c : byte) : option nat := memchr c (peek b).

(** [memchr2], with the byte that was found. *)
Definition find2 (b : ReplyBuf) (byte1 byte2 : byte) : option (nat * byte) :=
  let haystack := peek b in
  match find_byte (fun d => bool_decide (d = byte1) || bool_decide (d = byte2)) haystack with
  | Some i => match nth_error haystack i with Some c => Some (i, c) | None => None end
  | None => None
  end.

Definition find_line (b : ReplyBuf) (first : byte) : option nat :=
  match peek b with
  | [] => None
  | c :: _ =>
      if decide (c = first) then Some 0
      else (fun idx => idx + 1) <$> memmem [x0a; first] (peek b)
  end.

Definition split (sep : byte) : reply bytes :=
  fun b =>
    match find b sep with
    | None => (Err (if buf_is_empty b then UnexpectedEnd else SepNotFound sep), b)
    | Some stop => (do? ret := consume (stop + 1) in sret (take stop ret)) b
    end.

Definition position (b : ReplyBuf) : nat := pos b.

Definition range (b : ReplyBuf) (start len : nat) : res BadReply bytes :=
  let? _ := ok_or (checked usize (Z.of_nat start + Z.of_nat len)%Z) UnexpectedEnd in
  if start + len <=? length (data b) then Ok (slice start (start + len) (data b))
  else Err UnexpectedEnd.

Definition from_utf8 (context : string) (s : bytes) : res BadReply bytes :=
  if utf8_valid s then Ok s else Err (Unicode context).

Definition split_str (sep : byte) (context : string) : reply bytes :=
  do? head := split sep in slift (from_utf8 context head).

(** ** [convert_backslashes] *)

(** [rd.read()] and [wr.write(..)]. *)
Definition read_at (rd : nat) : comp bytes BadReply byte :=
  fun d => match d !! rd with Some b => (Ok b, d) | None => (Panic, d) end.
Definition write_at (wr : nat) (b : byte) : comp bytes BadReply unit :=
  fun d => if wr <? length d then (Ok tt, <[wr := b]> d) else (Panic, d).

Definition sub_48 (b : byte) : Z := wrap 8 (b2z b - 48).

(** The byte after a backslash at [rd]: the unescaped byte and the new [rd]. *)
Definition read_escape (rd stop : nat) : comp bytes BadReply (byte * nat) :=
  let avail := stop - rd in
  if avail <? 1 then sfail InvalidBackslashEscape
  else
    do? chr := read_at rd in
    let rd := rd + 1 in
    if decide (chr = x74) then sret (x09, rd)
    else if decide (chr = x6e) then sret (x0a, rd)
    else if decide (chr = x66) then sret (x0c, rd)
    else if decide (chr = x72) then sret (x0d, rd)
    else if decide (chr = x5c) then sret (x5c, rd)
    else if decide (chr = x22) then sret (x22, rd)
    else if between 48 51 chr then
      let e1 := sub_48 chr in
      if avail <? 3 then sfail UnexpectedEnd
      else
        do? c2 := read_at rd in
        let e2 := sub_48 c2 in
        let rd := rd + 1 in
        do? c3 := read_at rd in
        let e3 := sub_48 c3 in
        let rd := rd + 1 in
        if negb (Z.land (Z.lor e2 e3) 248 =? 0)%Z then sfail InvalidBackslashEscape
        else sret (z2b (Z.lor (Z.lor (wrap 8 (Z.shiftl e1 6)) (wrap 8 (Z.shiftl e2 3))) e3), rd)
    else sfail InvalidBackslashEscape.

(** The loop; [stop] is the end of the data.  Every round reads at least one byte. *)
Fixpoint convert_loop (fuel stop wr rd : nat) : comp bytes BadReply (nat * nat) :=
  if rd =? stop then sfail UnexpectedEnd
  else match fuel with
       | O => slift NoFuel
       | S fuel' =>
           do? b := read_at rd in
           let rd := rd + 1 in
           if decide (b = x5c) then
             do? (unescaped, rd) := read_escape rd stop in
             do! write_at wr unescaped in
             convert_loop fuel' stop (wr + 1) rd
           else if decide (b = x22) then sret (wr, rd)
           else
             do! write_at wr b in
             convert_loop fuel' stop (wr + 1) rd
       end.

Definition convert_backslashes (skip : nat) : reply bytes :=
  fun b =>
    let start := pos b + skip in
    let stop := length (data b) in
    if stop <? start then (Panic, b)
    else
      match convert_loop stop stop start start (data b) with
      | (Ok (wr, rd), d) => (Ok (slice (pos b) wr d), MkBuf d rd)
      | (Err e, d) => (Err e, MkBuf d (pos b))
      | (Panic, d) => (Panic, MkBuf d (pos b))
      | (NoFuel, d) => (NoFuel, MkBuf d (pos b))
      end.

(** ** Specification *)

Definition wf_buf (b : ReplyBuf) : Prop :=
  pos b <= length (data b) /\ (Z.of_nat (length (data b)) < 2 ^ 63)%Z.

(** The octal digits of a byte. *)
Definition octal (v : byte) : bytes :=
  [digit_byte (b2z v / 64); digit_byte (b2z v / 8 mod 8); digit_byte (b2z v mod 8)]%Z.

(** [escaped v e]: the text [e] between the quotes stands for the bytes [v]. *)
Inductive escaped : bytes -> bytes -> Prop :=
| escaped_nil : escaped [] []
| escaped_plain c v e : c <> x22 -> c <> x5c -> escaped v e -> escaped (c :: v) (c :: e)
| escaped_letter c l v e :
    (l, c) ∈ [(x74, x09); (x6e, x0a); (x66, x0c); (x72, x0d); (x5c, x5c); (x22, x22)] ->
    escaped v e -> escaped (c :: v) (x5c :: l :: e)
| escaped_octal c v e : escaped v e -> escaped (c :: v) (x5c :: octal c ++ e).

(** ** The conversion as a function on the text *)

Definition letter_escape (c : byte) : option byte :=
  if decide (c = x74) then Some x09
  else if decide (c = x6e) then Some x0a
  else if decide (c = x66) then Some x0c
  else if decide (c = x72) then Some x0d
  else if decide (c = x5c) then Some x5c
  else if decide (c = x22) then Some x22
  else None.

Definition octal_value (c1 c2 c3 : byte) : byte :=
  z2b (Z.lor (Z.lor (wrap 8 (Z.shiftl (sub_48 c1) 6)) (wrap 8 (Z.shiftl (sub_48 c2) 3))) (sub_48 c3)).

Definition octal_ok (c2 c3 : byte) : bool := (Z.land (Z.lor (sub_48 c2) (sub_48 c3)) 248 =? 0)%Z.

Definition cons_first (b : byte) (r : res BadReply (bytes * bytes)) : res BadReply (bytes * bytes) :=
  let? (v, rest) := r in Ok (b :: v, rest).

Fixpoint unescape (l : bytes) : res BadReply (bytes * bytes) :=
  match l with
  | [] => Err UnexpectedEnd
  | b :: l1 =>
      if decide (b = x5c) then
        match l1 with
        | [] => Err InvalidBackslashEscape
        | chr :: l2 =>
            match letter_escape chr with
            | Some u => cons_first u (unescape l2)
            | None =>
                if between 48 51 chr then
                  match l2 with
                  | c2 :: c3 :: l3 =>
                      if octal_ok c2 c3 then cons_first (octal_value chr c2 c3) (unescape l3)
                      else Err InvalidBackslashEscape
                  | _ => Err UnexpectedEnd
                  end
                else Err InvalidBackslashEscape
            end
        end
      else if decide (b = x22) then Ok ([], l1)
      else cons_first b (unescape l1)
  end.

Lemma lookup_drop_head {A} (d : list A) i x l : drop i d = x :: l -> d !! i = Some x /\ drop (i + 1) d = l.
Proof.
  intros H. split.
  - by rewrite <- (Nat.add_0_r i), <- lookup_drop, H.
  - by rewrite <- drop_drop, H.
Qed.

Lemma drop_length_cons {A} (d : list A) i x l : drop i d = x :: l -> i + S (length l) = length d.
Proof. intros H. apply (f_equal length) in H. rewrite length_drop in H. simpl in H. lia. Qed.

(** One escape sequence: the bytes are read, in range, and nothing is written. *)
Lemma read_escape_spec d rd l :
  drop rd d = l -> rd <= length d ->
  read_escape rd (length d) d =
  match l with
  | [] => (Err InvalidBackslashEscape, d)
  | chr :: l2 =>
      match letter_escape chr with
      | Some u => (Ok (u, rd + 1), d)
      | None =>
          if between 48 51 chr then
            match l2 with
            | c2 :: c3 :: l3 =>
                if octal_ok c2 c3 then (Ok (octal_value chr c2 c3, rd + 3), d)
                else (Err InvalidBackslashEscape, d)
            | _ => (Err UnexpectedEnd, d)
            end
          else (Err InvalidBackslashEscape, d)
      end
  end.
Proof.
  intros Hd Hrd. unfold read_escape.
  destruct l as [|chr l2].
  { apply (f_equal length) in Hd. rewrite length_drop in Hd. simpl in Hd.
    by rewrite (proj2 (Nat.ltb_lt _ _)) by lia. }
  pose proof (drop_length_cons _ _ _ _ Hd) as Hlen.
  rewrite (proj2 (Nat.ltb_ge _ _)) by lia. apply lookup_drop_head in Hd as [Hchr Hd].
  unfold sbind at 1, read_at at 1. rewrite Hchr. unfold letter_escape.
  repeat (case_decide; [done|]).
  destruct (between 48 51 chr); [|done]. destruct l2 as [|c2 [|c3 l3]];
    [by rewrite (proj2 (Nat.ltb_lt _ _)) by (simpl in Hlen; lia)..|].
  rewrite (proj2 (Nat.ltb_ge _ _)) by (simpl in Hlen; lia).
  apply lookup_drop_head in Hd as [Hc2 Hd]. apply lookup_drop_head in Hd as [Hc3 Hd].
  unfold sbind, read_at. rewrite Hc2, Hc3. unfold octal_ok, octal_value.
  replace (rd + 1 + 1 + 1) with (rd + 3) by lia. by destruct (_ =? 0)%Z.
Qed.


(** What the loop leaves behind when it succeeds: the value just written, the
    bytes before it and the bytes not yet read untouched. *)
Record converted (d : bytes) (wr : nat) (v rest : bytes) (d' : bytes) : Prop := {
  conv_length : length d' = length d;
  conv_before : take wr d' = take wr d;
  conv_value : slice wr (wr + length v) d' = v;
  conv_after : drop (length d - length rest) d' = rest
}.

Lemma slice_take_drop {A} i j (d : list A) : i <= j -> slice i j d = drop i (take j d).
Proof. intros. unfold slice. rewrite skipn_firstn_comm. done. Qed.

Lemma slice_app {A} i j k (l : list A) : i <= j <= k -> slice i k l = slice i j l ++ slice j k l.
Proof.
  intros. unfold slice. replace (k - i) with ((j - i) + (k - j)) by lia.
  rewrite <- take_take_drop, drop_drop. by replace (i + (j - i)) with j by lia.
Qed.

(** Writing [b] at [wr] and then converting the rest. *)
Lemma converted_write d wr b v rest d' :
  wr < length d -> converted (<[wr := b]> d) (S wr) v rest d' -> converted d wr (b :: v) rest d'.
Proof.
  intros Hwr [Hl Hb Hv Ha]. rewrite length_insert in *. constructor; auto.
  - apply (f_equal (take wr)) in Hb. rewrite !take_take, Nat.min_l in Hb by lia.
    by rewrite take_insert_ge in Hb.
  - assert (take (S wr) d' = take wr d ++ [b]) as Hsw.
    { rewrite Hb. rewrite (take_S_r _ _ b) by (apply list_lookup_insert_eq; lia).
      by rewrite take_insert_ge. }
    rewrite slice_take_drop by lia. rewrite slice_take_drop in Hv by lia.
    rewrite <- (take_drop (S wr) (take (wr + length (b :: v)) d')), take_take, Nat.min_l by (simpl; lia).
    rewrite Hsw, drop_app_le by (rewrite length_app, length_take; simpl; lia).
    rewrite drop_app_le by (rewrite length_take; lia).
    rewrite drop_ge by (rewrite length_take; lia). simpl. f_equal.
    rewrite <- Hv at 2. do 2 f_equal. lia.
Qed.

Lemma convert_loop_spec fuel d wr rd l :
  drop rd d = l -> rd <= length d -> wr <= rd -> length l <= fuel ->
  match unescape l with
  | Ok (v, rest) => exists d', converted d wr v rest d' /\ length rest < length l /\
      convert_loop fuel (length d) wr rd d = (Ok (wr + length v, length d - length rest), d')
  | Err e => exists d', length d' = length d /\ take wr d' = take wr d /\
      convert_loop fuel (length d) wr rd d = (Err e, d')
  | _ => False
  end.
Proof.
  revert d wr rd l. induction fuel as [|fuel IH]; intros d wr rd l Hd Hrd Hwr Hf.
  { destruct l; [|simpl in Hf; lia]. apply (f_equal length) in Hd.
    rewrite length_drop in Hd. simpl in *. rewrite (proj2 (Nat.eqb_eq _ _)) by lia. by exists d. }
  destruct l as [|b l1].
  { apply (f_equal length) in Hd. rewrite length_drop in Hd. simpl in *.
    rewrite (proj2 (Nat.eqb_eq _ _)) by lia. by exists d. }
  pose proof (drop_length_cons _ _ _ _ Hd) as Hlen.
  remember (convert_loop (S fuel) (length d) wr rd d) as run eqn:Hrun. cbn [convert_loop] in Hrun.
  rewrite (proj2 (Nat.eqb_neq _ _)) in Hrun by lia. apply lookup_drop_head in Hd as [Hb Hd].
  unfold sbind at 1, read_at at 1 in Hrun. rewrite Hb in Hrun.
  assert (forall u k l', drop (rd + 1 + k) d = l' -> rd + 1 + k <= length d ->
    length l' < length (b :: l1) ->
    match cons_first u (unescape l') with
    | Ok (v, rest) => exists d', converted d wr v rest d' /\ length rest < length (b :: l1) /\
        (do! write_at wr u in convert_loop fuel (length d) (wr + 1) (rd + 1 + k)) d =
        (Ok (wr + length v, length d - length rest), d')
    | Err e => exists d', length d' = length d /\ take wr d' = take wr d /\
        (do! write_at wr u in convert_loop fuel (length d) (wr + 1) (rd + 1 + k)) d = (Err e, d')
    | _ => False
    end) as Hstep.
  { intros u k l' Hd' Hk Hl'. unfold sbind, write_at. rewrite (proj2 (Nat.ltb_lt _ _)) by lia.
    specialize (IH (<[wr := u]> d) (wr + 1) (rd + 1 + k) l').
    rewrite length_insert, drop_insert_lt in IH by lia.
    specialize (IH Hd' Hk ltac:(lia) ltac:(simpl in *; lia)).
    destruct (unescape l') as [[v rest]|e| |]; simpl; try done.
    - destruct IH as (d' & Hc & Hlr & ->). exists d'. split; [|split; [simpl in *; lia|]].
      + apply converted_write; [lia|]. by rewrite Nat.add_1_r in Hc.
      + by replace (wr + 1 + length v) with (wr + length (u :: v)) by (simpl; lia).
    - destruct IH as (d' & Hl2 & Ht2 & ->). exists d'. split; [done|]. split; [|done].
      apply (f_equal (take wr)) in Ht2. rewrite !take_take, Nat.min_l in Ht2 by lia.
      by rewrite take_insert_ge in Ht2. }
  cbn [unescape]. destruct (decide (b = x5c)) as [->|Hnb].
  - unfold sbind at 1 in Hrun. rewrite (read_escape_spec d (rd + 1) l1 Hd) in Hrun by lia.
    destruct l1 as [|chr l2]; [by exists d|].
    destruct (letter_escape chr) as [u|].
    + rewrite Hrun. apply (Hstep u 1 l2);
        [by apply lookup_drop_head in Hd as [_ Hd]|simpl in Hlen; lia|simpl; lia].
    + destruct (between 48 51 chr); [|by exists d].
      destruct l2 as [|c2 [|c3 l3]]; [by exists d..|].
      destruct (octal_ok c2 c3); [|by exists d].
      rewrite Hrun. apply (Hstep (octal_value chr c2 c3) 3 l3); [|simpl in Hlen; lia|simpl; lia].
      replace (rd + 1 + 3) with (rd + 1 + 1 + 1 + 1) by lia.
      by do 3 (apply lookup_drop_head in Hd as [_ Hd]).
  - destruct (decide (b = x22)) as [->|Hnq].
    + exists d. split; [|split; [simpl; lia|]].
      * constructor; auto; [by rewrite Nat.add_0_r, slice_empty|].
        replace (length d - length l1) with (rd + 1) by lia. done.
      * rewrite Hrun. unfold sret. replace (length d - length l1) with (rd + 1) by lia.
        by rewrite Nat.add_0_r.
    + specialize (Hstep b 0 l1). rewrite Nat.add_0_r in Hstep. rewrite Hrun.
      apply Hstep; [done|lia|simpl; lia].
Qed.

(** ** The texts that are accepted *)

Lemma octal_facts c :
  match octal c with
  | [c1; c2; c3] => letter_escape c1 = None /\ between 48 51 c1 = true /\
      octal_ok c2 c3 = true /\ octal_value c1 c2 c3 = c
  | _ => False
  end.
Proof. destruct c; vm_compute; done. Qed.

Lemma octal_ok_digits c2 c3 : octal_ok c2 c3 = true -> between 48 55 c2 = true /\ between 48 55 c3 = true.
Proof.
  unfold octal_ok. rewrite Z.eqb_eq, Z.land_lor_distr_l, Z.lor_eq_0_iff.
  assert (forall c, Z.land (sub_48 c) 248 = 0%Z -> between 48 55 c = true) as Hc.
  { intros c. destruct c; vm_compute; done. }
  naive_solver.
Qed.

Lemma octal_digit_cases c :
  between 48 55 c = true -> c ∈ [x30; x31; x32; x33; x34; x35; x36; x37].
Proof.
  destruct c; try (intros; done); intros _; set_solver.
Qed.

Lemma octal_of_value c1 c2 c3 :
  between 48 51 c1 = true -> octal_ok c2 c3 = true -> octal (octal_value c1 c2 c3) = [c1; c2; c3].
Proof.
  intros H1 H23. apply octal_ok_digits in H23 as [H2%octal_digit_cases H3%octal_digit_cases].
  assert (between 48 55 c1 = true) as H1' by (apply between_spec in H1; apply between_spec; lia).
  apply octal_digit_cases in H1'. set_unfold in H1'. set_unfold in H2. set_unfold in H3.
  repeat destruct H1' as [->|H1']; try done; repeat destruct H2 as [->|H2]; try done;
    repeat destruct H3 as [->|H3]; done.
Qed.

Lemma letter_escape_Some l c :
  letter_escape l = Some c <->
  (l, c) ∈ [(x74, x09); (x6e, x0a); (x66, x0c); (x72, x0d); (x5c, x5c); (x22, x22)].
Proof.
  rewrite !elem_of_cons, elem_of_nil. unfold letter_escape. repeat case_decide; naive_solver.
Qed.

Lemma unescape_escaped v e rest : escaped v e -> unescape (e ++ x22 :: rest) = Ok (v, rest).
Proof.
  induction 1 as [|c v e Hq Hb _ IH|c l v e Hl _ IH|c v e _ IH].
  - done.
  - simpl. by rewrite !decide_False, IH.
  - apply letter_escape_Some in Hl. simpl. by rewrite Hl, IH.
  - pose proof (octal_facts c) as Hc. unfold octal in *. simpl in *.
    destruct Hc as (-> & -> & -> & ->). by rewrite IH.
Qed.

Lemma unescape_sound l v rest :
  unescape l = Ok (v, rest) -> exists e, l = e ++ x22 :: rest /\ escaped v e.
Proof.
  revert v. induction l as [l IH] using (induction_ltof1 _ length). unfold ltof in IH.
  intros v. destruct l as [|b l1]; [done|]. cbn [unescape].
  destruct (decide (b = x5c)) as [->|Hnb].
  - destruct l1 as [|chr l2]; [done|]. destruct (letter_escape chr) as [u|] eqn:El.
    + unfold cons_first. destruct (unescape l2) as [[v' r]| | |] eqn:E; try done.
      intros [= <- <-]. apply IH in E as (e & -> & He); [|simpl; lia].
      exists (x5c :: chr :: e). split; [done|]. apply escaped_letter; [|done].
      by apply letter_escape_Some.
    + destruct (between 48 51 chr) eqn:Eb; [|done]. destruct l2 as [|c2 [|c3 l3]]; try done.
      destruct (octal_ok c2 c3) eqn:Eo; [|done]. unfold cons_first.
      destruct (unescape l3) as [[v' r]| | |] eqn:E; try done. intros [= <- <-].
      apply IH in E as (e & -> & He); [|simpl; lia].
      exists (x5c :: [chr; c2; c3] ++ e). split; [done|].
      rewrite <- (octal_of_value chr c2 c3) by done. by apply escaped_octal.
  - destruct (decide (b = x22)) as [->|Hnq].
    + intros [= <- <-]. exists []. split; [done|constructor].
    + unfold cons_first. destruct (unescape l1) as [[v' r]| | |] eqn:E; try done.
      intros [= <- <-]. apply IH in E as (e & -> & He); [|simpl; lia].
      exists (b :: e). split; [done|]. by constructor.
Qed.

Lemma unescape_returns l : returns (unescape l).
Proof.
  induction l as [l IH] using (induction_ltof1 _ length). unfold ltof in IH.
  assert (forall u l', length l' < length l -> returns (cons_first u (unescape l'))) as Hc.
  { intros u l' Hl. specialize (IH l' Hl). unfold cons_first. by destruct (unescape l') as [[]| | |]. }
  destruct l as [|b l1]; [done|]. cbn [unescape]. case_decide.
  - destruct l1 as [|chr l2]; [done|]. destruct (letter_escape chr).
    + apply Hc. simpl. lia.
    + destruct (between 48 51 chr); [|done]. destruct l2 as [|c2 [|c3 l3]]; try done.
      destruct (octal_ok c2 c3); [|done]. apply Hc. simpl. lia.
  - case_decide; [done|]. apply Hc. simpl. lia.
Qed.

(** ** Operations on well-formed buffers *)

Lemma wf_buf_new vec : (Z.of_nat (length vec) < 2 ^ 63)%Z -> wf_buf (buf_new vec).
Proof. intros. split; simpl; [lia|done]. Qed.

Lemma length_peek b : length (peek b) = length (data b) - pos b.
Proof. apply length_drop. Qed.

Lemma checked_usize_ok n : (Z.of_nat n < 2 ^ 64)%Z -> checked usize (Z.of_nat n) = Some (Z.of_nat n).
Proof.
  intros. apply checked_Some. split; [done|]. apply in_type_spec.
  change (ty_min usize) with 0%Z. change (ty_max usize) with (2 ^ 64 - 1)%Z. lia.
Qed.

Lemma consume_ok n b :
  wf_buf b -> n <= length (peek b) ->
  consume n b = (Ok (take n (peek b)), MkBuf (data b) (pos b + n)).
Proof.
  intros [Hp Hl] Hn. rewrite length_peek in Hn. unfold consume.
  rewrite <- Nat2Z.inj_add, checked_usize_ok by lia.
  rewrite (proj2 (Nat.ltb_ge _ _)) by lia. unfold slice, peek. by rewrite Nat.add_comm, Nat.add_sub.
Qed.

Lemma peek_consume b n : peek (MkBuf (data b) (pos b + n)) = drop n (peek b).
Proof. unfold peek. simpl. by rewrite drop_drop. Qed.

Lemma wf_consume b n : wf_buf b -> n <= length (peek b) -> wf_buf (MkBuf (data b) (pos b + n)).
Proof. intros [Hp Hl]. rewrite length_peek. split; simpl; [lia|done]. Qed.

Lemma split_found sep b a rest :
  wf_buf b -> peek b = a ++ sep :: rest -> sep ∉ a ->
  split sep b = (Ok a, MkBuf (data b) (pos b + length a + 1)).
Proof.
  intros Hwf Hp Hni. unfold split, find. rewrite Hp, memchr_app by done.
  unfold sbind. rewrite consume_ok; [|done|rewrite Hp, length_app; simpl; lia].
  rewrite Hp. unfold sret. rewrite take_take, Nat.min_l, take_app_length, Nat.add_assoc by lia. done.
Qed.

Lemma split_missing sep b :
  sep ∉ peek b -> split sep b = (Err (if buf_is_empty b then UnexpectedEnd else SepNotFound sep), b).
Proof. intros H. unfold split, find. by rewrite (proj2 (memchr_None _ _)). Qed.

(** [convert_backslashes] against [unescape]. *)
Lemma convert_backslashes_spec skip b :
  wf_buf b -> skip <= length (peek b) ->
  match unescape (drop skip (peek b)) with
  | Ok (v, rest) => exists b', convert_backslashes skip b = (Ok (take skip (peek b) ++ v), b') /\
      wf_buf b' /\ length (data b') = length (data b) /\ peek b' = rest /\
      take (pos b) (data b') = take (pos b) (data b) /\
      slice (pos b) (pos b + (skip + length v)) (data b') = take skip (peek b) ++ v /\
      pos b + (skip + length v) < pos b'
  | Err e => exists b', convert_backslashes skip b = (Err e, b') /\ wf_buf b' /\
      length (data b') = length (data b)
  | _ => False
  end.
Proof.
  intros [Hp Hlim] Hs. rewrite length_peek in Hs. unfold convert_backslashes.
  rewrite (proj2 (Nat.ltb_ge _ _)) by lia. unfold peek at 1. rewrite drop_drop.
  assert (length (drop (pos b + skip) (data b)) <= length (data b)) by (rewrite length_drop; lia).
  pose proof (convert_loop_spec (length (data b)) (data b) (pos b + skip) (pos b + skip)
    _ eq_refl ltac:(lia) ltac:(lia) ltac:(done)) as Hspec.
  pose proof (unescape_returns (drop (pos b + skip) (data b))) as Hret.
  destruct (unescape (drop (pos b + skip) (data b))) as [[v rest]|e| |] eqn:Eu; try done.
  2: { destruct Hspec as (d' & Hl & _ & ->). eexists. split; [done|]. split; [split; simpl; lia|done]. }
  destruct Hspec as (d' & [Hl Hb Hv Ha] & Hlr & ->).
  assert (slice (pos b) (pos b + skip + length v) d' = take skip (peek b) ++ v) as Hval.
  { rewrite (slice_app _ (pos b + skip)), Hv by lia. f_equal.
    rewrite slice_take_drop, Hb, <- slice_take_drop by lia.
    unfold slice, peek. f_equal. lia. }
  eexists. split; [by rewrite Hval|].
  apply unescape_sound in Eu as (e & He & Hesc).
  assert (length v <= length e) as Hve.
  { clear -Hesc. induction Hesc; simpl in *; lia. }
  apply (f_equal length) in He. rewrite length_drop, length_app in He. simpl in He.
  unfold wf_buf. cbn [data pos]. rewrite Nat.add_assoc. split; [split; lia|]. split; [done|].
  split; [done|]. split; [|split; [done|lia]].
  apply (f_equal (take (pos b))) in Hb. by rewrite !take_take, !Nat.min_l in Hb by lia.
Qed.

(** ** Theorems *)

(** [convert_backslashes] on any buffer and any number of bytes to skip: it never
    reads or writes outside the vector and it ends; it succeeds exactly when
    the bytes from there on are the escaped form of some value and a closing
    quote; then the result is the skipped bytes and that value, the buffer is
    positioned after the quote, and the bytes before the field and after it are
    unchanged. *)
Theorem convert_backslashes_correct skip b :
  wf_buf b -> skip <= length (peek b) ->
  returns (convert_backslashes skip b).1 /\
  (forall v e rest, drop skip (peek b) = e ++ x22 :: rest -> escaped v e ->
     exists b', convert_backslashes skip b = (Ok (take skip (peek b) ++ v), b') /\
       peek b' = rest /\ length (data b') = length (data b) /\
       take (pos b) (data b') = take (pos b) (data b)) /\
  (forall out b', convert_backslashes skip b = (Ok out, b') ->
     exists v e, drop skip (peek b) = e ++ x22 :: peek b' /\ escaped v e /\
       out = take skip (peek b) ++ v).
Proof.
  intros Hwf Hs. pose proof (convert_backslashes_spec skip b Hwf Hs) as Hc.
  split; [|split].
  - destruct (unescape (drop skip (peek b))) as [[]| | |]; [| |done|done];
      destruct Hc as (b' & -> & _); done.
  - intros v e rest He Hesc. rewrite He, (unescape_escaped v e rest Hesc) in Hc.
    destruct Hc as (b' & ? & ? & ? & ? & ? & _). eauto 10.
  - intros out b' Hrun. destruct (unescape (drop skip (peek b))) as [[v rest]| | |] eqn:Eu;
      [| |done|done]; destruct Hc as (b'' & Hrun' & Hc); rewrite Hrun in Hrun'; [|done].
    injection Hrun' as -> ->. destruct Hc as (_ & _ & -> & _).
    apply unescape_sound in Eu as (e & He & Hesc). eauto.
Qed.

Lemma convert_backslashes_correct_witness :
  exists b', convert_backslashes 4 (MkBuf (bs "bana\na" ++ [x22; x09]) 0) =
    (Ok (bs "bana" ++ [x0a; x61]), b') /\ peek b' = [x09].
Proof.
  destruct (convert_backslashes_correct 4 (MkBuf (bs "bana\na" ++ [x22; x09]) 0)) as (_ & H & _).
  - split; vm_compute; [lia|done].
  - vm_compute. lia.
  - destruct (H [x0a; x61] (bs "\na") [x09]) as (b' & Hrun & Hp & _).
    + done.
    + apply (escaped_letter x0a x6e); [set_solver|]. constructor; [done|done|constructor].
    + exists b'. split; [exact Hrun|exact Hp].
Defined.
