(* ===== verification/RowSet.v ===== *)
(** * Rows of a result set (src/cursor/rowset.rs)

    [advance] finds the fields of the next row in the reply buffer and records
    them as ranges; quoted fields are unescaped in place.  The theorems say
    that a row as the server writes it is read back field by field, and that
    on arbitrary bytes nothing panics and every recorded range lies inside the
    buffer. *)

From Stdlib Require Import ZArith Lia.
From stdpp Require Import sets.
From S2P Require Import Prelude Bytes Blockstate IO Decimal Errors ReplyBuf.

Open Scope nat_scope.

Record RowSet := MkRowSet {
  rs_buf : ReplyBuf;
  ncols : nat;
  fields : list (option (nat * nat));
  noslice : bool
}.

Definition rowset_new (buf : ReplyBuf) (ncols : nat) : RowSet :=
  MkRowSet buf ncols (replicate ncols None) false.
Definition new_noslice (buf : ReplyBuf) : RowSet :=
  MkRowSet buf 1 [None] true.

Definition has_pending_row (rs : RowSet) : bool := starts_with (bs "[") (peek (rs_buf rs)).

Definition consume_field_separator (comma : bool) : reply unit :=
  do? b := sget in
  let expected := if comma then [x2c; x09] else [x09] in
  if length (peek b) <? length expected then sfail UnexpectedEnd
  else if negb (starts_with expected (peek b)) then sfail (SepNotFound (if comma then x2c else x09))
  else do! consume (length expected) in sret tt.

(** A quoted field, the opening quote still to be skipped. *)
Definition advance_quoted (comma : bool) : reply (option (nat * nat)) :=
  do! consume 1 in
  do? b := sget in
  match find2 b x22 x5c with
  | None => sfail UnexpectedEnd
  | Some (p, c) =>
      if decide (c = x22) then
        let field := (position b, p) in
        do! consume (p + 1) in
        do! consume_field_separator comma in
        sret (Some field)
      else
        let start := position b in
        do? unescaped := convert_backslashes p in
        let field := (start, length unescaped) in
        do! consume_field_separator comma in
        sret (Some field)
  end.

Definition advance_unquoted (comma : bool) : reply (option (nat * nat)) :=
  do? b := sget in
  let start := position b in
  do? rough := split x09 in
  do? adjusted :=
    (if comma then
       match strip_suffix (bs ",") rough with
       | Some adjusted => sret adjusted
       | None => sfail (if decide (rough = []) then UnexpectedEnd else SepNotFound x2c)
       end
     else sret rough) in
  sret (if decide (adjusted = bs "NULL") then None else Some (start, length adjusted)).

(** The loop over the fields: [i] is the index of the first of [n] fields. *)
Fixpoint advance_fields (cols i n : nat) : reply (list (option (nat * nat))) :=
  match n with
  | O => sret []
  | S n' =>
      let comma := i + 1 <? cols in
      do? b := sget in
      do? field :=
        match peek b with
        | [] => sfail UnexpectedEnd
        | first :: _ =>
            if decide (first = x5d) then sfail (TooFewColumns i)
            else if decide (first = x22) then advance_quoted comma
            else advance_unquoted comma
        end in
      do? rest := advance_fields cols (S i) n' in
      sret (field :: rest)
  end.

Definition expect_row_end : reply unit :=
  do? b := sget in
  if length (peek b) <? 2 then sfail UnexpectedEnd
  else if negb (starts_with [x5d; x0a] (peek b)) then sfail (SepNotFound x5d)
  else do! consume 2 in sret tt.

(** Run a computation of the buffer inside the row set. *)
Definition in_buf {A} (m : reply A) : comp RowSet BadReply A :=
  fun rs =>
    let '(r, b) := m (rs_buf rs) in (r, MkRowSet b (ncols rs) (fields rs) (noslice rs)).

Definition set_fields (fs : list (option (nat * nat))) : comp RowSet BadReply unit :=
  fun rs => (Ok tt, MkRowSet (rs_buf rs) (ncols rs) fs (noslice rs)).

(** [self.fields.fill(None)] and the end of the rows. *)
Definition no_more_rows : comp RowSet BadReply bool :=
  do? rs := sget in do! set_fields (replicate (length (fields rs)) None) in sret false.

Definition advance_noslice : comp RowSet BadReply bool :=
  do? rs := sget in
  if negb (starts_with (bs "=") (peek (rs_buf rs))) then no_more_rows
  else
    do! in_buf (consume 1) in
    do? rs1 := sget in
    let start := position (rs_buf rs1) in
    do? value := in_buf (split x0a) in
    do? rs2 := sget in
    match fields rs2 with
    | [] => spanic
    | _ :: fs => do! set_fields (Some (start, length value) :: fs) in sret true
    end.

Definition do_advance : comp RowSet BadReply bool :=
  do? rs := sget in
  if noslice rs then advance_noslice
  else if negb (starts_with (bs "[") (peek (rs_buf rs))) then no_more_rows
  else if length (peek (rs_buf rs)) <? 2 then sfail UnexpectedEnd
  else if negb (starts_with (bs "[ ") (peek (rs_buf rs))) then
    sfail (UnexpectedHeader (peek (rs_buf rs)))
  else
    do! in_buf (consume 2) in
    do? fs := in_buf (advance_fields (ncols rs) 0 (length (fields rs))) in
    do! set_fields fs in
    do! in_buf expect_row_end in
    sret true.

(** [advance]: after an error the fields are cleared. *)
Definition advance : comp RowSet BadReply bool :=
  fun rs =>
    match do_advance rs with
    | (Err e, rs') => (Err e, MkRowSet (rs_buf rs') (ncols rs') [] (noslice rs'))
    | r => r
    end.

(** [finish]: skip to the line where the next reply starts. *)
Definition option_min (a b : option nat) : option nat :=
  match a, b with
  | Some x, Some y => Some (Nat.min x y)
  | Some x, None => Some x
  | None, y => y
  end.

Definition rowset_finish (rs : RowSet) : res BadReply ReplyBuf :=
  let b := rs_buf rs in
  let n := match option_min (find_line b x26) (find_line b x3d) with
           | Some idx => idx
           | None => length (peek b)
           end in
  let '(r, b') := consume n b in
  let? _ := r in Ok b'.

Definition get_field_raw (rs : RowSet) (idx : nat) : res BadReply (option bytes) :=
  let? field := ok_or (fields rs !! idx) (ColumnIndexOutOfBounds idx (length (fields rs))) in
  match field with
  | None => Ok None
  | Some (start, len) => let? v := range (rs_buf rs) start len in Ok (Some v)
  end.

(** ** Specification *)

(** [field_text v t]: the server writes the value [v] ([None] for NULL) as [t]. *)
Inductive field_text : option bytes -> bytes -> Prop :=
| text_null : field_text None (bs "NULL")
| text_plain v :
    x09 ∉ v -> v <> bs "NULL" -> head v <> Some x22 -> head v <> Some x5d ->
    field_text (Some v) v
| text_quoted v e : escaped v e -> field_text (Some v) (x22 :: e ++ [x22]).

Definition sep_text (comma : bool) : bytes := if comma then [x2c; x09] else [x09].

Fixpoint fields_text (ts : list bytes) : bytes :=
  match ts with
  | [] => []
  | t :: ts' => t ++ sep_text (negb (bool_decide (ts' = []))) ++ fields_text ts'
  end.

Definition row_text (ts : list bytes) : bytes := bs "[ " ++ fields_text ts ++ [x5d; x0a].

(** [holds b f v]: the recorded field [f] is the value [v], before the position. *)
Definition holds (b : ReplyBuf) (f : option (nat * nat)) (v : option bytes) : Prop :=
  match f, v with
  | None, None => True
  | Some (s, l), Some w => s + l <= pos b /\ slice s (s + l) (data b) = w
  | _, _ => False
  end.

(** [later b b']: [b'] is the buffer [b] after more of it was consumed; the bytes
    before the old position are unchanged. *)
Record later (b b' : ReplyBuf) : Prop := {
  later_wf : wf_buf b';
  later_length : length (data b') = length (data b);
  later_pos : pos b <= pos b';
  later_before : take (pos b) (data b') = take (pos b) (data b)
}.

(** ** Lemmas *)

Lemma later_trans b1 b2 b3 : later b1 b2 -> later b2 b3 -> later b1 b3.
Proof.
  intros [W1 L1 P1 B1] [W2 L2 P2 B2]. constructor; [done|lia|lia|].
  apply (f_equal (take (pos b1))) in B2. rewrite !take_take, !Nat.min_l in B2 by lia. congruence.
Qed.

Lemma later_refl b : wf_buf b -> later b b.
Proof. by constructor. Qed.

Lemma later_consume b n : wf_buf b -> n <= length (peek b) -> later b (MkBuf (data b) (pos b + n)).
Proof. intros. constructor; simpl; [by apply wf_consume|done|lia|done]. Qed.

Lemma holds_later b b' f v : later b b' -> holds b f v -> holds b' f v.
Proof.
  intros [Hw Hl Hp Hb]. destruct f as [[s l]|], v; simpl; try done. intros [Hs <-].
  split; [lia|]. rewrite !slice_take_drop by lia.
  apply (f_equal (take (s + l))) in Hb. rewrite !take_take, Nat.min_l in Hb by lia.
  by rewrite Hb.
Qed.

Lemma holds_here b b' n :
  n <= length (peek b) -> later b b' -> pos b + n <= pos b' ->
  slice (pos b) (pos b + n) (data b') = slice (pos b) (pos b + n) (data b) ->
  holds b' (Some (pos b, n)) (Some (take n (peek b))).
Proof.
  intros Hn Hl Hp Hs. simpl. split; [lia|]. rewrite Hs. unfold slice, peek.
  by rewrite Nat.add_comm, Nat.add_sub.
Qed.

Lemma separator_found comma b rest :
  wf_buf b -> peek b = sep_text comma ++ rest ->
  exists b', consume_field_separator comma b = (Ok tt, b') /\ later b b' /\ peek b' = rest /\
    data b' = data b.
Proof.
  intros Hwf Hp. unfold consume_field_separator, sbind, sget.
  change (if comma then [x2c; x09] else [x09]) with (sep_text comma).
  rewrite Hp, starts_with_app. cbn [negb].
  rewrite (proj2 (Nat.ltb_ge _ _)) by (rewrite length_app; lia).
  assert (length (sep_text comma) <= length (peek b)) by (rewrite Hp, length_app; lia).
  rewrite consume_ok by done. unfold sret. eexists. split; [done|].
  split; [by apply later_consume|]. by rewrite peek_consume, Hp, drop_app_length.
Qed.

(** The first quote or backslash in the escaped form of a value. *)
Lemma escaped_first v e rest :
  escaped v e ->
  exists a c r, e ++ x22 :: rest = a ++ c :: r /\ (c = x22 \/ c = x5c) /\
    Forall (fun d => d <> x22 /\ d <> x5c) a /\
    (c = x22 -> a = e /\ r = rest /\ v = e) /\
    exists v' e', e ++ x22 :: rest = a ++ e' ++ x22 :: rest /\ escaped v' e' /\ v = a ++ v'.
Proof.
  induction 1 as [|c v e Hq Hb He IH|c l v e Hl He IH|c v e He IH].
  - exists [], x22, rest. split; [done|]. split; [auto|]. split; [done|]. split; [done|].
    exists [], []. split; [done|]. split; [constructor|done].
  - destruct IH as (a & c' & r & Heq & Hc & Ha & Hcase & v' & e' & He' & Hv' & ->).
    exists (c :: a), c', r. simpl. rewrite Heq. split; [done|]. split; [done|].
    split; [by constructor|]. split.
    + intros Hc'. destruct (Hcase Hc') as (? & ? & ?). split; [by f_equal|]. split; [done|by f_equal].
    + exists v', e'. rewrite <- Heq. split; [by rewrite He'|done].
  - exists [], x5c, (l :: e ++ x22 :: rest). split; [done|]. split; [auto|]. split; [done|].
    split; [done|]. exists (c :: v), (x5c :: l :: e). split; [done|].
    split; [by econstructor|done].
  - exists [], x5c, (octal c ++ e ++ x22 :: rest). simpl.
    split; [done|]. split; [auto|]. split; [done|].
    split; [done|]. exists (c :: v), (x5c :: octal c ++ e). split; [done|].
    split; [by constructor|done].
Qed.

Lemma find2_found b a c r :
  peek b = a ++ c :: r -> c = x22 \/ c = x5c -> Forall (fun d => d <> x22 /\ d <> x5c) a ->
  find2 b x22 x5c = Some (length a, c).
Proof.
  intros Hp Hc Ha. unfold find2. rewrite Hp.
  rewrite (proj2 (find_byte_Some _ _ (length a))).
  - by rewrite nth_error_app2, Nat.sub_diag.
  - exists a, c, r. repeat split; [by destruct Hc as [-> | ->]|].
    apply (Forall_impl _ _ _ Ha). intros d [? ?]. by rewrite !bool_decide_false.
Qed.

Lemma quoted_field comma b v e rest :
  wf_buf b -> escaped v e -> peek b = (x22 :: e ++ [x22]) ++ sep_text comma ++ rest ->
  exists f b', advance_quoted comma b = (Ok f, b') /\ later b b' /\ peek b' = rest /\
    holds b' f (Some v).
Proof.
  intros Hwf He Hp. unfold advance_quoted. simpl app in Hp. rewrite <- app_assoc in Hp. simpl app in Hp.
  unfold sbind at 1. rewrite consume_ok; [|done|rewrite Hp; simpl; lia].
  set (b1 := MkBuf (data b) (pos b + 1)).
  assert (later b b1) as Hl1 by (apply later_consume; [done|rewrite Hp; simpl; lia]).
  assert (peek b1 = e ++ x22 :: sep_text comma ++ rest) as Hp1 by (unfold b1; by rewrite peek_consume, Hp).
  destruct (escaped_first v e (sep_text comma ++ rest) He)
    as (a & c & r & Heq & Hc & Ha & Hcase & v' & e' & He' & Hesc' & Hv').
  unfold sbind at 1, sget. rewrite (find2_found b1 a c r) by (congruence || done).
  pose proof (later_wf _ _ Hl1) as Hwf1. case_decide as Hq.
  - destruct (Hcase Hq) as (-> & -> & ->). subst c. unfold sbind at 1.
    rewrite consume_ok; [|done|rewrite Hp1, length_app; simpl; lia].
    set (b2 := MkBuf (data b1) (pos b1 + (length e + 1))).
    assert (later b1 b2) as Hl2 by (apply later_consume; [done|rewrite Hp1, length_app; simpl; lia]).
    destruct (separator_found comma b2 rest) as (b3 & Hsep & Hl3 & Hp3 & Hd3).
    { apply Hl2. } { unfold b2. rewrite peek_consume, Hp1, <- drop_drop, drop_app_length. done. }
    unfold sbind. rewrite Hsep. unfold sret. do 2 eexists. split; [done|].
    split; [by eapply later_trans; [|eapply later_trans]|]. split; [done|].
    apply (holds_later b2); [done|]. unfold holds, position.
    split; [unfold b2; cbn [pos]; lia|]. change (data b2) with (data b1).
    pose proof Hp1 as Hp1'. unfold peek in Hp1'. unfold slice. rewrite Hp1', Nat.add_comm, Nat.add_sub.
    by rewrite take_app_length.
  - assert (length a <= length (peek b1)) as Hla by (rewrite Hp1, Heq, length_app; lia).
    pose proof (convert_backslashes_spec (length a) b1 Hwf1 Hla) as Hconv.
    rewrite Hp1, He', drop_app_length, take_app_length, (unescape_escaped v' e') in Hconv by done.
    destruct Hconv as (b2 & Hconv & Hwf2 & Hlen2 & Hp2 & Hb2 & Hv2 & Hpos2).
    rewrite <- Hv' in *. unfold sbind at 1. rewrite Hconv.
    assert (later b1 b2) as Hl2 by (constructor; auto; lia).
    destruct (separator_found comma b2 rest) as (b3 & Hsep & Hl3 & Hp3 & Hd3); [done|done|].
    unfold sbind. rewrite Hsep. unfold sret. do 2 eexists. split; [done|].
    split; [by eapply later_trans; [|eapply later_trans]|]. split; [done|].
    apply (holds_later b2); [done|]. subst v. unfold holds, position.
    rewrite length_app. split; [lia|done].
Qed.

Lemma unquoted_field comma b v t rest :
  wf_buf b -> field_text v t -> head t <> Some x22 ->
  peek b = t ++ sep_text comma ++ rest ->
  exists f b', advance_unquoted comma b = (Ok f, b') /\ later b b' /\ peek b' = rest /\
    holds b' f v.
Proof.
  intros Hwf Ht Hq Hp. unfold advance_unquoted, sbind at 1, sget.
  assert (x09 ∉ t /\ match v with Some w => w = t /\ t <> bs "NULL" | None => t = bs "NULL" end)
    as [Hnt Hv].
  { destruct Ht as [|w|w e]; [|done|done]. split; [|done]. change (bs "NULL") with [x4e; x55; x4c; x4c]. set_solver. }
  set (tail := if comma then bs "," else []).
  assert (peek b = (t ++ tail) ++ x09 :: rest) as Hp'.
  { rewrite Hp, <- app_assoc. by destruct comma. }
  assert (x09 ∉ t ++ tail) as Hni.
  { rewrite elem_of_app. unfold tail. change (bs ",") with [x2c]. destruct comma; set_solver. }
  unfold sbind at 1. rewrite (split_found x09 b (t ++ tail) rest) by done.
  assert ((if comma then
       match strip_suffix (bs ",") (t ++ tail) with
       | Some adjusted => sret adjusted
       | None => sfail (if decide (t ++ tail = []) then UnexpectedEnd else SepNotFound x2c)
       end
     else sret (t ++ tail)) = @sret ReplyBuf BadReply bytes t) as ->.
  { unfold tail. destruct comma; [|by rewrite app_nil_r].
    by rewrite (proj2 (strip_suffix_Some (bs ",") _ t)). }
  unfold sbind, sret. do 2 eexists. split; [done|].
  rewrite <- Nat.add_assoc.
  assert (length (t ++ tail) + 1 <= length (peek b)) as Hn
    by (rewrite Hp', (length_app (t ++ tail)); simpl; lia).
  pose proof (later_consume b _ Hwf Hn) as Hl. split; [done|]. split.
  { rewrite peek_consume, Hp', <- drop_drop, drop_app_length. done. }
  destruct v as [w|]; destruct Hv as [Hw Hnull] || subst t.
  - subst w. rewrite decide_False by done. unfold position.
    assert (take (length t) (peek b) = t) as Htk by (by rewrite Hp, take_app_length).
    eapply (holds_here b _ (length t)) in Hl;
      [by rewrite Htk in Hl|rewrite Hp, length_app; lia|cbn [pos]; rewrite length_app; lia|done].
  - by rewrite decide_True.
Qed.

Lemma field_text_head v t : field_text v t -> head t <> Some x5d.
Proof. by destruct 1. Qed.

Lemma field_text_quoted v t :
  field_text v t -> head t = Some x22 -> exists w e, v = Some w /\ escaped w e /\ t = x22 :: e ++ [x22].
Proof. destruct 1; try done. eauto. Qed.

(** The loop over the fields reads back every value. *)
Lemma advance_fields_row cols i vs ts b rest :
  Forall2 field_text vs ts -> i + length ts = cols -> wf_buf b ->
  peek b = fields_text ts ++ rest ->
  exists fs b', advance_fields cols i (length ts) b = (Ok fs, b') /\ later b b' /\
    peek b' = rest /\ Forall2 (holds b') fs vs.
Proof.
  intros Hvs. revert i b. induction Hvs as [|v t vs ts Hv Hvs IH]; intros i b Hi Hwf Hp.
  { exists [], b. split; [done|]. split; [by apply later_refl|]. split; [done|constructor]. }
  cbn [length advance_fields fields_text] in *. rewrite <- !app_assoc in Hp.
  assert ((i + 1 <? cols) = negb (bool_decide (ts = []))) as Hcomma.
  { destruct ts; simpl in *; [apply Nat.ltb_ge; lia|apply Nat.ltb_lt; lia]. }
  unfold sbind at 1, sget. rewrite Hcomma. set (comma := negb (bool_decide (ts = []))) in *.
  assert (exists f b1, match peek b with
      | [] => sfail UnexpectedEnd
      | first :: _ =>
          if decide (first = x5d) then sfail (TooFewColumns i)
          else if decide (first = x22) then advance_quoted comma else advance_unquoted comma
      end b = (Ok f, b1) /\ later b b1 /\ peek b1 = fields_text ts ++ rest /\ holds b1 f v)
    as (f & b1 & Hf & Hl1 & Hp1 & Hh1).
  { pose proof (field_text_head _ _ Hv) as Hb.
    destruct (decide (head t = Some x22)) as [Hq|Hq].
    - destruct (field_text_quoted _ _ Hv Hq) as (w & e & -> & He & ->). rewrite Hp. simpl app.
      cbn [app]; cbv iota. rewrite decide_False by done. rewrite decide_True by done.
      eapply quoted_field; [done|exact He|]. by rewrite Hp.
    - destruct (unquoted_field comma b v t (fields_text ts ++ rest) Hwf Hv Hq Hp)
        as (f & b1 & Hrun & H1). exists f, b1. rewrite Hp.
      destruct t as [|c t]; cbn [app].
      + destruct (sep_text comma ++ fields_text ts ++ rest) as [|c r] eqn:Es; [by destruct comma|].
        assert (c <> x5d /\ c <> x22) as [? ?] by (destruct comma; injection Es as <- _; done).
        cbv iota. by rewrite !decide_False.
      + cbv iota. simpl in Hb, Hq. rewrite !decide_False by congruence. done. }
  destruct (IH (S i) b1) as (fs & b2 & Hrun & Hl2 & Hp2 & Hh2); [lia|apply Hl1|done|].
  unfold sbind. rewrite Hf, Hrun. unfold sret. exists (f :: fs), b2. split; [done|].
  split; [by eapply later_trans|]. split; [done|]. constructor; [by eapply holds_later|done].
Qed.

(** *** Safety on arbitrary bytes *)

(** [m] run on [b] returns, keeps the buffer well formed and of length [L], and a
    result satisfies [Q]. *)
Definition safe_at {A} (L : nat) (Q : A -> ReplyBuf -> Prop) (m : reply A) (b : ReplyBuf) : Prop :=
  returns (m b).1 /\ wf_buf (m b).2 /\ length (data (m b).2) = L /\
  forall a, (m b).1 = Ok a -> Q a (m b).2.

Section Safety.
Context (L : nat).

Lemma safe_ret {A} (Q : A -> ReplyBuf -> Prop) a b :
  wf_buf b -> length (data b) = L -> Q a b -> safe_at L Q (sret a) b.
Proof. intros. repeat split; try apply H; auto. intros ? [= <-]. done. Qed.

Lemma safe_fail {A} (Q : A -> ReplyBuf -> Prop) e b :
  wf_buf b -> length (data b) = L -> safe_at L Q (sfail e) b.
Proof. intros. repeat split; try apply H; auto. done. Qed.

Lemma safe_bind {A B} (P : A -> ReplyBuf -> Prop) (Q : B -> ReplyBuf -> Prop) m k b :
  safe_at L P m b ->
  (forall a b', wf_buf b' -> length (data b') = L -> P a b' -> safe_at L Q (k a) b') ->
  safe_at L Q (sbind m k) b.
Proof.
  intros (Hr & Hw & Hl & Hq) Hk. unfold safe_at, sbind.
  destruct (m b) as [[a|e| |] b'] eqn:E; simpl in *; try done.
  apply Hk; auto.
Qed.

Lemma safe_get {B} (Q : B -> ReplyBuf -> Prop) (k : ReplyBuf -> reply B) b :
  safe_at L Q (k b) b -> safe_at L Q (do? b' := sget in k b') b.
Proof. done. Qed.

Definition any {A} (_ : A) (_ : ReplyBuf) : Prop := True.

Lemma safe_consume n b :
  wf_buf b -> length (data b) = L ->
  safe_at L (fun _ b' => b' = MkBuf (data b) (pos b + n) /\ pos b + n <= L) (consume n) b.
Proof.
  intros [Hp Hlim] HL. unfold safe_at, consume. destruct (checked usize _); simpl; [|done].
  destruct (Nat.ltb_spec (length (data b)) (pos b + n)); simpl; [done|].
  unfold wf_buf. simpl. repeat split; auto; lia.
Qed.

Lemma safe_split c b :
  wf_buf b -> length (data b) = L ->
  safe_at L (fun a b' => length a + pos b < pos b') (split c) b.
Proof.
  intros Hwf HL. destruct (memchr c (peek b)) as [i|] eqn:Em.
  - apply memchr_Some in Em as (a & rest & Hp & _ & Hni).
    unfold safe_at. rewrite (split_found c b a rest) by done. simpl.
    apply (f_equal length) in Hp. rewrite length_peek, length_app in Hp. simpl in Hp.
    destruct Hwf as [? ?]. unfold wf_buf. simpl. repeat split; auto; try lia.
    intros ? [= <-]. lia.
  - apply memchr_None in Em. unfold safe_at. by rewrite split_missing.
Qed.

Lemma safe_separator comma b :
  wf_buf b -> length (data b) = L -> safe_at L any (consume_field_separator comma) b.
Proof.
  intros. unfold consume_field_separator. apply safe_get.
  destruct (_ <? _); [by apply safe_fail|]. destruct (negb _); [by apply safe_fail|].
  eapply safe_bind; [by apply safe_consume|]. intros. by apply safe_ret.
Qed.

Definition field_ok (f : option (nat * nat)) (b : ReplyBuf) : Prop :=
  match f with Some (s, l) => s + l <= L | None => True end.

Lemma safe_quoted comma b :
  wf_buf b -> length (data b) = L -> safe_at L field_ok (advance_quoted comma) b.
Proof.
  intros Hwf HL. unfold advance_quoted.
  eapply safe_bind; [by apply safe_consume|]. intros _ b1 Hw1 HL1 _. apply safe_get.
  destruct (find2 b1 x22 x5c) as [[p c]|] eqn:Ef; [|by apply safe_fail].
  assert (p <= length (peek b1)) as Hp.
  { unfold find2 in Ef. destruct (find_byte _ _) as [i|] eqn:Eb; [|done].
    apply find_byte_Some in Eb as (a & d & r & Hpk & Hi & _ & _). case_match; [|done].
    injection Ef as <- _. rewrite Hpk, length_app. lia. }
  assert (pos b1 + length (peek b1) <= L) by (rewrite length_peek; destruct Hw1; lia).
  case_decide.
  - eapply safe_bind; [by apply safe_consume|]. intros _ b2 Hw2 HL2 _.
    eapply safe_bind; [by apply safe_separator|]. intros. apply safe_ret; auto.
    simpl. unfold position. lia.
  - eapply (safe_bind (fun out _ => pos b1 + length out <= L)).
    + pose proof (convert_backslashes_spec p b1 Hw1 Hp) as Hc.
      pose proof (unescape_returns (drop p (peek b1))) as Hr.
      unfold safe_at. destruct (unescape (drop p (peek b1))) as [[v rest]|e| |]; [| |done|done].
      * destruct Hc as (b2 & -> & Hw2 & HL2 & _ & _ & _ & Hpos). simpl. rewrite HL2.
        repeat split; try apply Hw2; auto. intros ? [= <-].
        rewrite length_app, length_take. destruct Hw2. lia.
      * destruct Hc as (b2 & -> & Hw2 & HL2). simpl. rewrite HL2. repeat split; try apply Hw2; done.
    + intros out b2 Hw2 HL2 Hout. eapply safe_bind; [by apply safe_separator|].
      intros. apply safe_ret; auto.
Qed.

Lemma safe_unquoted comma b :
  wf_buf b -> length (data b) = L -> safe_at L field_ok (advance_unquoted comma) b.
Proof.
  intros Hwf HL. unfold advance_unquoted. apply safe_get.
  eapply (safe_bind (fun a b' => length a + pos b < pos b')); [by apply safe_split|].
  intros rough b1 Hw1 HL1 Hr.
  eapply (safe_bind (fun a b' => length a + pos b < L)).
  - assert (length rough + pos b < L) by (destruct Hw1; lia).
    destruct comma; [|by apply safe_ret].
    destruct (strip_suffix (bs ",") rough) as [a|] eqn:Es; [|by apply safe_fail].
    apply strip_suffix_Some in Es as ->. rewrite length_app in *. apply safe_ret; auto. lia.
  - intros a b2 Hw2 HL2 Ha. apply safe_ret; auto. case_decide; [done|]. simpl. unfold position. lia.
Qed.

Lemma safe_fields cols i n b :
  wf_buf b -> length (data b) = L ->
  safe_at L (fun fs b' => Forall (fun f => field_ok f b') fs /\ length fs = n) (advance_fields cols i n) b.
Proof.
  revert i b. induction n as [|n IH]; intros i b Hwf HL; cbn [advance_fields].
  { by apply safe_ret. }
  apply safe_get. eapply (safe_bind field_ok).
  - destruct (peek b) as [|c l]; [by apply safe_fail|].
    case_decide; [by apply safe_fail|]. case_decide; [by apply safe_quoted|by apply safe_unquoted].
  - intros f b1 Hw1 HL1 Hf. eapply safe_bind; [by apply IH|].
    intros fs b2 Hw2 HL2 [Hfs Hn]. apply safe_ret; auto. split; [by constructor|simpl; lia].
Qed.

Lemma safe_row_end b : wf_buf b -> length (data b) = L -> safe_at L any expect_row_end b.
Proof.
  intros. unfold expect_row_end. apply safe_get.
  destruct (_ <? _); [by apply safe_fail|]. destruct (negb _); [by apply safe_fail|].
  eapply safe_bind; [by apply safe_consume|]. intros. by apply safe_ret.
Qed.

End Safety.

(** The invariant of a row set: the buffer is well formed, recorded ranges are
    inside it, and a row set of unsliced rows whose fields were cleared by an error
    has no further line end in front of it. *)
Record wf_rows (rs : RowSet) : Prop := {
  rows_buf : wf_buf (rs_buf rs);
  rows_fields : Forall (fun f => field_ok (length (data (rs_buf rs))) f (rs_buf rs)) (fields rs);
  rows_noslice : noslice rs = true -> fields rs = [] -> x0a ∉ peek (rs_buf rs)
}.

Lemma wf_rows_new b n : wf_buf b -> wf_rows (rowset_new b n).
Proof. intros. constructor; simpl; [done|by apply Forall_replicate|done]. Qed.

Lemma wf_rows_noslice b : wf_buf b -> wf_rows (new_noslice b).
Proof. intros. constructor; simpl; [done|by repeat constructor|done]. Qed.

Lemma no_more_rows_ok rs :
  no_more_rows rs =
  (Ok false, MkRowSet (rs_buf rs) (ncols rs) (replicate (length (fields rs)) None) (noslice rs)).
Proof. done. Qed.

Lemma wf_no_more rs :
  wf_rows rs ->
  wf_rows (MkRowSet (rs_buf rs) (ncols rs) (replicate (length (fields rs)) None) (noslice rs)).
Proof.
  intros [Hb Hf Hn]. constructor; simpl; [done|by apply Forall_replicate|].
  intros Hs Hr. apply Hn; [done|]. by destruct (fields rs).
Qed.

Lemma wf_rows_cleared rs :
  wf_buf (rs_buf rs) -> (noslice rs = true -> x0a ∉ peek (rs_buf rs)) ->
  wf_rows (MkRowSet (rs_buf rs) (ncols rs) [] (noslice rs)).
Proof. intros. constructor; simpl; auto. Qed.

Lemma advance_noslice_safe rs :
  wf_rows rs -> noslice rs = true ->
  match advance_noslice rs with
  | (Ok _, rs') => wf_rows rs'
  | (Err _, rs') => wf_buf (rs_buf rs') /\ x0a ∉ peek (rs_buf rs')
  | _ => False
  end.
Proof.
  intros Hwf Hns. pose proof Hwf as [Hb Hf Hn]. unfold advance_noslice, sbind at 1, sget.
  destruct (starts_with (bs "=") (peek (rs_buf rs))) eqn:Es; cbn [negb];
    [|rewrite no_more_rows_ok; by apply wf_no_more].
  apply starts_with_spec in Es as [l Hl]. simpl app in Hl.
  unfold sbind at 1, in_buf at 1. rewrite consume_ok; [|done|rewrite Hl; simpl; lia].
  set (b1 := MkBuf (data (rs_buf rs)) (pos (rs_buf rs) + 1)).
  assert (peek b1 = l) as Hp1 by (unfold b1; by rewrite peek_consume, Hl).
  assert (wf_buf b1) as Hb1 by (apply wf_consume; [done|rewrite Hl; simpl; lia]).
  unfold sbind at 1. unfold sbind at 1, in_buf at 1. cbn [rs_buf].
  destruct (memchr x0a (peek b1)) as [i|] eqn:Em.
  - apply memchr_Some in Em as (a & rest & Hpk & _ & Hni).
    rewrite (split_found x0a b1 a rest) by done. unfold sbind at 1. cbn [fields].
    destruct (fields rs) as [|f fs] eqn:Ef.
    { exfalso. apply (Hn Hns eq_refl). rewrite Hl. simpl. rewrite <- Hp1, Hpk.
      apply elem_of_cons. right. apply elem_of_app. right. by left. }
    simpl. apply (f_equal length) in Hpk. rewrite length_peek, length_app in Hpk. simpl in Hpk.
    destruct Hb1 as [Hq1 Hq2]. simpl in *.
    constructor; simpl; [split; simpl; lia| |done].
    inversion Hf as [|? ? Hf1 Hf2]; subst. constructor; [simpl; lia|]. done.
  - apply memchr_None in Em. rewrite split_missing by done. done.
Qed.

Lemma do_advance_safe rs :
  wf_rows rs ->
  match do_advance rs with
  | (Ok _, rs') => wf_rows rs'
  | (Err _, rs') => wf_buf (rs_buf rs') /\ (noslice rs' = true -> x0a ∉ peek (rs_buf rs'))
  | _ => False
  end.
Proof.
  intros Hwf. pose proof Hwf as [Hb Hf Hn]. unfold do_advance, sbind at 1, sget.
  destruct (noslice rs) eqn:Hns.
  { pose proof (advance_noslice_safe rs Hwf Hns) as H.
    destruct (advance_noslice rs) as [[]]; naive_solver. }
  destruct (negb (starts_with (bs "[") _)); [rewrite no_more_rows_ok; by apply wf_no_more|].
  destruct (_ <? 2); [simpl; by rewrite Hns|]. destruct (negb _); [simpl; by rewrite Hns|].
  set (L := length (data (rs_buf rs))).
  unfold sbind at 1, in_buf at 1.
  destruct (safe_consume L 2 (rs_buf rs) Hb eq_refl) as (Hr1 & Hw1 & HL1 & _).
  destruct (consume 2 (rs_buf rs)) as [[a|e| |] b1]; try done;
    cbn [fst snd] in *; [|simpl; by rewrite Hns].
  unfold sbind at 1, in_buf at 1. cbn [rs_buf fields ncols noslice].
  destruct (safe_fields L (ncols rs) 0 (length (fields rs)) b1 Hw1 HL1) as (Hr2 & Hw2 & HL2 & Hq2).
  destruct (advance_fields (ncols rs) 0 (length (fields rs)) b1) as [[fs|e| |] b2]; try done;
    cbn [fst snd] in *; [|simpl; by rewrite Hns].
  unfold sbind at 1, set_fields. unfold sbind at 1, in_buf at 1. cbn [rs_buf fields ncols noslice].
  destruct (safe_row_end L b2 Hw2 HL2) as (Hr3 & Hw3 & HL3 & _).
  destruct (expect_row_end b2) as [[u|e| |] b3]; try done; simpl in *; [|by rewrite Hns].
  constructor; simpl; [done| |by rewrite Hns].
  destruct (Hq2 fs eq_refl) as [Hfs _]. rewrite HL3. done.
Qed.

Lemma advance_safe_lemma rs : wf_rows rs -> returns (advance rs).1 /\ wf_rows (advance rs).2.
Proof.
  intros Hwf. pose proof (do_advance_safe rs Hwf) as H. unfold advance.
  destruct (do_advance rs) as [[]]; try done. destruct H. split; [done|]. by apply wf_rows_cleared.
Qed.

Lemma get_field_raw_wf rs idx :
  wf_rows rs -> idx < length (fields rs) -> exists v, get_field_raw rs idx = Ok v.
Proof.
  intros [[Hp Hlim] Hf _] Hi. unfold get_field_raw.
  destruct (lookup_lt_is_Some_2 _ _ Hi) as [f Hlk]. rewrite Hlk. simpl.
  rewrite Forall_lookup in Hf. specialize (Hf _ _ Hlk).
  destruct f as [[s l]|]; [|by eauto]. simpl in Hf. unfold range.
  rewrite <- Nat2Z.inj_add, checked_usize_ok by lia. simpl.
  rewrite (proj2 (Nat.leb_le _ _)) by lia. simpl. eauto.
Qed.

Lemma advance_row_ok rs vs ts rest :
  wf_buf (rs_buf rs) -> noslice rs = false ->
  length (fields rs) = length ts -> ncols rs = length ts ->
  Forall2 field_text vs ts -> peek (rs_buf rs) = row_text ts ++ rest ->
  exists rs', advance rs = (Ok true, rs') /\ peek (rs_buf rs') = rest /\
    wf_buf (rs_buf rs') /\ ncols rs' = ncols rs /\ length (fields rs') = length ts /\
    noslice rs' = false /\ forall i v, vs !! i = Some v -> get_field_raw rs' i = Ok v.
Proof.
  intros Hb Hns Hlf Hnc Hvs Hp. unfold row_text in Hp. rewrite <- !app_assoc in Hp.
  unfold advance, do_advance, sbind at 1, sget. rewrite Hns, Hp.
  change (starts_with (bs "[") (bs "[ " ++ _)) with true.
  cbn [negb]. rewrite (proj2 (Nat.ltb_ge _ _)) by (rewrite length_app; simpl; lia).
  change (starts_with (bs "[ ") (bs "[ " ++ fields_text ts ++ [x5d; x0a] ++ rest)) with true.
  cbn [negb]. assert (2 <= length (peek (rs_buf rs))) as H2 by (rewrite Hp; simpl; lia).
  unfold sbind at 1, in_buf at 1. rewrite consume_ok by done.
  set (b1 := MkBuf (data (rs_buf rs)) (pos (rs_buf rs) + 2)).
  assert (peek b1 = fields_text ts ++ [x5d; x0a] ++ rest) as Hp1
    by (unfold b1; rewrite peek_consume, Hp; done).
  assert (wf_buf b1) as Hw1 by (by apply wf_consume).
  destruct (advance_fields_row (ncols rs) 0 vs ts b1 ([x5d; x0a] ++ rest) Hvs)
    as (fs & b2 & Hrun & Hl2 & Hp2 & Hh2); [by rewrite Hnc|done|done|].
  unfold sbind at 1, in_buf at 1. cbn [rs_buf fields ncols noslice]. rewrite Hlf, Hrun.
  unfold sbind at 1, set_fields. cbn [rs_buf fields ncols noslice].
  unfold sbind at 1, in_buf at 1, expect_row_end, sbind at 1, sget. cbn [rs_buf].
  rewrite Hp2, starts_with_app. cbn [negb].
  rewrite (proj2 (Nat.ltb_ge _ _)) by (rewrite length_app; simpl; lia).
  pose proof (later_wf _ _ Hl2) as Hw2.
  assert (2 <= length (peek b2)) as H2' by (rewrite Hp2; simpl; lia).
  unfold sbind at 1. rewrite consume_ok by done. unfold sret.
  eexists. split; [done|]. cbn [rs_buf fields ncols].
  pose proof (later_consume b2 2 Hw2 H2') as Hl3.
  split; [by rewrite peek_consume, Hp2|]. split; [apply Hl3|]. split; [done|].
  pose proof (Forall2_length _ _ _ Hh2). pose proof (Forall2_length _ _ _ Hvs).
  split; [lia|]. split; [done|]. intros i v Hi.
  destruct (Forall2_lookup_r _ _ _ _ _ Hh2 Hi) as (f & Hf & Hh).
  apply (holds_later _ _ _ _ Hl3) in Hh. unfold get_field_raw. cbn [fields rs_buf]. rewrite Hf. simpl.
  destruct f as [[s l]|], v as [v|]; try done. destruct Hh as [Hs Hsl].
  destruct (later_wf _ _ Hl3) as [Hq1 Hq2]. cbn [pos data] in *. unfold range. cbn [data].
  rewrite <- Nat2Z.inj_add, checked_usize_ok by lia. cbn [ok_or res_bind].
  rewrite (proj2 (Nat.leb_le _ _)) by lia. simpl. by rewrite Hsl.
Qed.

(** After the last row. *)
Lemma advance_end rs :
  noslice rs = false -> starts_with (bs "[") (peek (rs_buf rs)) = false ->
  advance rs = (Ok false, MkRowSet (rs_buf rs) (ncols rs) (replicate (length (fields rs)) None) false).
Proof. intros Hn Hp. unfold advance, do_advance, sbind at 1, sget. rewrite Hn, Hp. simpl. by rewrite Hn. Qed.

(** ** Theorems *)

(** C9: A row as the server writes it, with any mix of NULLs, unquoted values and
    quoted values with any escapes, is read by [advance]; every field then
    reads back as its value (the unescaping of later fields does not disturb
    earlier ones) and the buffer is positioned at the next row. *)
Theorem advance_reads_row rs vs ts rest :
  wf_buf (rs_buf rs) -> noslice rs = false ->
  length (fields rs) = length ts -> ncols rs = length ts ->
  Forall2 field_text vs ts -> peek (rs_buf rs) = row_text ts ++ rest ->
  exists rs', advance rs = (Ok true, rs') /\ peek (rs_buf rs') = rest /\
    wf_buf (rs_buf rs') /\ ncols rs' = ncols rs /\ length (fields rs') = length ts /\
    forall i v, vs !! i = Some v -> get_field_raw rs' i = Ok v.
Proof.
  intros Hb Hn Hl Hc Hv Hp.
  destruct (advance_row_ok rs vs ts rest Hb Hn Hl Hc Hv Hp) as (rs' & ? & ? & ? & ? & ? & _ & ?).
  by exists rs'.
Qed.

(** The row of the module's tests: an escaped quote, a NULL and a number. *)
Definition sample_texts : list bytes := [[x22] ++ bs "mon\" ++ [x22] ++ bs "etdb" ++ [x22]; bs "NULL"; bs "33"].
Definition sample_values : list (option bytes) :=
  [Some (bs "mon" ++ [x22] ++ bs "etdb"); None; Some (bs "33")].

Lemma sample_escaped : escaped (bs "mon" ++ [x22] ++ bs "etdb") (bs "mon\" ++ [x22] ++ bs "etdb").
Proof.
  do 3 (apply escaped_plain; [done|done|]). apply escaped_letter; [set_solver|].
  do 4 (apply escaped_plain; [done|done|]). constructor.
Qed.

Lemma advance_reads_row_witness :
  exists rs', advance (rowset_new (buf_new (row_text sample_texts ++ bs "&1")) 3) = (Ok true, rs') /\
    peek (rs_buf rs') = bs "&1" /\ wf_buf (rs_buf rs') /\ ncols rs' = 3 /\
    length (fields rs') = length sample_texts /\
    forall i v, sample_values !! i = Some v -> get_field_raw rs' i = Ok v.
Proof.
  apply (advance_reads_row (rowset_new (buf_new (row_text sample_texts ++ bs "&1")) 3)).
  - apply wf_buf_new. vm_compute. done.
  - done.
  - done.
  - done.
  - constructor; [apply (text_quoted _ _ sample_escaped)|].
    constructor; [constructor|]. constructor; [|constructor].
    apply text_plain; [vm_compute; set_solver|done|done|done].
  - done.
Defined.

(** C30: On arbitrary bytes and from any row set that satisfies the invariant,
    [advance] returns (no index is out of range, also when it is called again
    after an error) and keeps the invariant; under the invariant every column
    of the row can be read and only a column number out of range is an error. *)
Theorem advance_safe rs :
  wf_rows rs ->
  returns (advance rs).1 /\ wf_rows (advance rs).2 /\
  forall idx, (idx < length (fields rs) -> exists v, get_field_raw rs idx = Ok v) /\
    (length (fields rs) <= idx ->
     get_field_raw rs idx = Err (ColumnIndexOutOfBounds idx (length (fields rs)))).
Proof.
  intros Hwf. destruct (advance_safe_lemma rs Hwf) as [Hr Hw].
  split; [done|]. split; [done|]. intros idx. split; [by apply get_field_raw_wf|].
  intros Hi. unfold get_field_raw. by rewrite (proj2 (lookup_ge_None _ _)).
Qed.

Lemma advance_safe_witness :
  returns (advance (new_noslice (buf_new (bs "=plan")))).1 /\
  wf_rows (advance (new_noslice (buf_new (bs "=plan")))).2.
Proof.
  destruct (advance_safe (new_noslice (buf_new (bs "=plan")))) as (H1 & H2 & _).
  - apply wf_rows_noslice, wf_buf_new. vm_compute. done.
  - exact (conj H1 H2).
Defined.
