(* ===== verification/Replies.v ===== *)
(** * Replies of the server (src/cursor/replies.rs)

    A response is a sequence of replies; [ReplyParser] is the state of a cursor
    in that sequence.  This file has the parsers of the reply headers and of the
    column metadata, the scanners for errors and for autocommit notifications,
    and the step to the next reply.  [bstr]'s line iterator is a parameter. *)

From Stdlib Require Import ZArith Lia.
From stdpp Require Import sets.
From S2P Require Import Prelude Bytes Blockstate IO Decimal Errors MonetTypes ReplyBuf RowSet.

Open Scope Z_scope.

(** ** Text of the standard library used here *)

(** U+FFFD in UTF-8. *)
Definition replacement : bytes := [xef; xbf; xbd].

(** [String::from_utf8_lossy]: every maximal invalid prefix becomes U+FFFD. *)
Fixpoint utf8_lossy (l : bytes) : bytes :=
  match l with
  | [] => []
  | b0 :: l1 =>
      let v := b2z b0 in
      if v <? 128 then b0 :: utf8_lossy l1
      else if between 194 223 b0 then
        match l1 with
        | b1 :: l2 =>
            if is_cont b1 then b0 :: b1 :: utf8_lossy l2 else replacement ++ utf8_lossy l1
        | [] => replacement
        end
      else if between 224 239 b0 then
        match l1 with
        | b1 :: l2 =>
            if utf8_second3 v b1 then
              match l2 with
              | b2 :: l3 =>
                  if is_cont b2 then b0 :: b1 :: b2 :: utf8_lossy l3
                  else replacement ++ utf8_lossy l2
              | [] => replacement
              end
            else replacement ++ utf8_lossy l1
        | [] => replacement
        end
      else if between 240 244 b0 then
        match l1 with
        | b1 :: l2 =>
            if utf8_second4 v b1 then
              match l2 with
              | b2 :: l3 =>
                  if is_cont b2 then
                    match l3 with
                    | b3 :: l4 =>
                        if is_cont b3 then b0 :: b1 :: b2 :: b3 :: utf8_lossy l4
                        else replacement ++ utf8_lossy l3
                    | [] => replacement
                    end
                  else replacement ++ utf8_lossy l2
              | [] => replacement
              end
            else replacement ++ utf8_lossy l1
        | [] => replacement
        end
      else replacement ++ utf8_lossy l1
  end.

(** The error kind of [FromStr] of an integer type, digit by digit. *)
Fixpoint int_error_loop (t : int_type) (neg : bool) (digits : bytes) (acc : Z) : option IntErrorKind :=
  match digits with
  | [] => None
  | c :: rest =>
      if negb (is_digit c) then Some InvalidDigit
      else match checked t (acc * 10) with
           | None => Some (if neg then NegOverflow else PosOverflow)
           | Some m =>
               match checked t (if neg then m - digit_val c else m + digit_val c) with
               | None => Some (if neg then NegOverflow else PosOverflow)
               | Some acc' => int_error_loop t neg rest acc'
               end
           end
  end.

Definition int_error (t : int_type) (s : bytes) : IntErrorKind :=
  match s with
  | [] => IntEmpty
  | [x2b] | [x2d] => InvalidDigit
  | x2b :: rest => default InvalidDigit (int_error_loop t false rest 0)
  | x2d :: rest =>
      if ty_min t <? 0 then default InvalidDigit (int_error_loop t true rest 0) else InvalidDigit
  | _ => default InvalidDigit (int_error_loop t false s 0)
  end.

(** [FromStr] with its error. *)
Definition parse_num (t : int_type) (s : bytes) : res IntErrorKind Z :=
  ok_or (parse_int t s) (int_error t s).

(** [str::split] with the two-byte pattern of the column metadata. *)
Fixpoint split_pair (a b : byte) (l : bytes) : list bytes :=
  match l with
  | [] => [[]]
  | c :: l' =>
      match l' with
      | d :: l'' =>
          if decide (c = a /\ d = b) then [] :: split_pair a b l''
          else match split_pair a b l' with
               | [] => [[c]]
               | piece :: rest => (c :: piece) :: rest
               end
      | [] => [[c]]
      end
  end.

(** ** Scanning a response *)

Definition lines (response : bytes) : list bytes := split_on x0a response.

Definition parse_autocommit_line (line : bytes) : option bool :=
  match strip_prefix (bs "&4") line with
  | None => None
  | Some rest =>
      match rest with
      | [] => None
      | first :: _ =>
          if negb (is_space first) then None
          else match list_find (fun field => field <> []) (split_by is_space rest) with
               | Some (_, flag) =>
                   if decide (flag = bs "t") then Some true
                   else if decide (flag = bs "f") then Some false
                   else None
               | None => None
               end
      end
  end.

Definition response_autocommit (response : bytes) : option bool :=
  if negb (starts_with (bs "&4") response) &&
     match memmem (x0a :: bs "&4") response with None => true | Some _ => false end
  then None
  else last (omap parse_autocommit_line (lines response)).

Definition join_lossy (result : bytes) (messages : list bytes) : bytes :=
  fold_left (fun result m => result ++ [x0a] ++ utf8_lossy m) messages result.

Definition server_error (response : bytes) : option ServerError :=
  if negb (starts_with (bs "!") response) &&
     match memmem [x0a; x21] response with None => true | Some _ => false end
  then None
  else match omap (strip_prefix (bs "!")) (lines response) with
       | [] => None
       | first :: messages => Some (from_wire (join_lossy (utf8_lossy first) messages))
       end.

Definition detect_errors (response : bytes) : res CursorError unit :=
  match server_error response with
  | Some error => Err (Server error)
  | None => Ok tt
  end.

(** ** Result columns *)

Record ResultColumn := MkColumn { table_name : bytes; col_name : bytes; typ : MonetType }.

Definition column_new (name : bytes) (typ : MonetType) : ResultColumn := MkColumn [] name typ.
Definition column_empty : ResultColumn := column_new [] Bool.

Fixpoint decode_chars (chars : bytes) : res BadReply bytes :=
  match chars with
  | [] => Ok []
  | c :: rest =>
      if decide (c <> x5c) then let? decoded := decode_chars rest in Ok (c :: decoded)
      else match rest with
           | e :: rest' =>
               if decide (e = x22 \/ e = x5c) then
                 let? decoded := decode_chars rest' in Ok (e :: decoded)
               else Err InvalidQuotedIdentifier
           | [] => Err InvalidQuotedIdentifier
           end
  end.

Definition decode_column_name (rendered : bytes) : res BadReply bytes :=
  if negb (starts_with [x22] rendered) then Ok rendered
  else match strip_prefix [x22] rendered ≫= strip_suffix [x22] with
       | None => Err InvalidQuotedIdentifier
       | Some inner => decode_chars inner
       end.

(** ** The parser *)

Record ResultSet := MkResultSet {
  result_id : Z;
  prepared : bool;
  next_row : Z;
  total_rows : Z;
  rows_included : Z;
  columns : list ResultColumn;
  row_set : RowSet;
  stashed : option RowSet;
  to_close : option Z
}.

Inductive ReplyParser :=
| Exhausted (vec : bytes)
| ReplyError (buf : ReplyBuf)
| Success (buf : ReplyBuf) (affected : option Z)
| Data (rs : ResultSet)
| Tx (buf : ReplyBuf).

Definition raw_value (rs : ResultSet) (column : nat) : res CursorError (option bytes) :=
  res_map_err BadReplyErr (get_field_raw (row_set rs) column).

Definition default_parser : ReplyParser := Exhausted [].

Definition take_buffer {E} (p : ReplyParser) : res E (bytes * ReplyParser) :=
  match p with
  | Exhausted vec => Ok (vec, Exhausted [])
  | _ => Panic
  end.

Definition affected_rows (p : ReplyParser) : option Z :=
  match p with
  | Success _ affected => affected
  | Data rs => checked i64 (total_rows rs)
  | _ => None
  end.

Definition at_result_set (p : ReplyParser) : bool :=
  match p with Data _ => true | _ => false end.

(** The items of a header line, parsed one by one; [i] is the index of the next. *)
Fixpoint parse_items (t : int_type) (line : bytes) (n i : nat) (parts : list bytes) (count : nat)
    {struct count} : res BadReply (list Z) :=
  match count with
  | O => Ok []
  | S count' =>
      match parts with
      | [] => Err (InvalidHeader [Lit "not enough header items, expected "; Num (Z.of_nat n); Lit ": "; Arg line])
      | p :: parts' =>
          match parse_int t p with
          | None => Err (InvalidHeader [Lit "cannot parse header item "; Num (Z.of_nat i); Lit ": "; Arg line])
          | Some value =>
              let? values := parse_items t line n (S i) parts' count' in Ok (value :: values)
          end
      end
  end.

Definition parse_header_line (t : int_type) (line : bytes) (n : nat) : res BadReply (list Z) :=
  match line with
  | x26 :: d :: x20 :: rest =>
      if is_digit d then parse_items t line n 0 (split_on x20 rest) n
      else Err (InvalidHeader [Lit "expected '&<digit> ' prefix: "; Arg line])
  | _ => Err (InvalidHeader [Lit "expected '&<digit> ' prefix: "; Arg line])
  end.

Definition parse_header (t : int_type) (n : nat) : reply (list Z) :=
  do? line := split_str x0a "header line" in
  slift (parse_header_line t (trim_ascii line) n).

Definition parse_export_header (t : int_type) (n : nat) : reply (list Z) :=
  do? line := split_str x0a "header line" in
  let line := trim_ascii line in
  if negb (starts_with (bs "&6 ") line) then
    sfail (InvalidHeader [Lit "expected '&6 ' prefix: "; Arg line])
  else slift (parse_header_line t line n).

Definition parse_successful_update : reply ReplyParser :=
  do? fields := parse_header i64 1 in
  do? buf := sget in
  sret (Success buf (head fields)).

Definition parse_successful_other : reply ReplyParser :=
  do! parse_header i64 0 in
  do? buf := sget in
  sret (Success buf None).

Definition parse_ok : reply ReplyParser :=
  do? line := split_str x0a "success line" in
  if decide (line <> bs "=OK") then sfail (InvalidHeader [Lit "expected '=OK': "; Arg line])
  else do? buf := sget in sret (Success buf None).

Definition parse_autocommit_status : reply ReplyParser :=
  do? line := split_str x0a "header line" in
  let line := trim_ascii line in
  match parse_autocommit_line line with
  | None => sfail (InvalidHeader [Lit "invalid autocommit header: "; Arg line])
  | Some _ => do? buf := sget in sret (Tx buf)
  end.

Definition parse_error : reply ReplyParser :=
  do! split_str x0a "error header" in
  do? buf := sget in
  sret (ReplyError buf).

(** *** Column metadata *)

Notation column_updater := (ResultColumn -> bytes -> res message_text ResultColumn).

(** The loop of [parse_data_header] over the parts and the columns. *)
Fixpoint update_columns (f : column_updater) (i : nat) (parts : list bytes)
    (columns : list ResultColumn) : res BadReply (list ResultColumn) :=
  match parts, columns with
  | [], [] => Ok []
  | [], _ :: _ => Err (InvalidHeader [Lit "too few columns in data header"])
  | _ :: _, [] => Err (InvalidHeader [Lit "too many columns in data header"])
  | part :: parts', col :: columns' =>
      match f col part with
      | Ok col' =>
          let? rest := update_columns f (S i) parts' columns' in Ok (col' :: rest)
      | Err e => Err (InvalidHeader ([Lit "col "; Num (Z.of_nat i); Lit ": "] ++ e))
      | Panic => Panic
      | NoFuel => NoFuel
      end
  end.

Definition parse_data_header (expected_kind : string) (columns : list ResultColumn)
    (f : column_updater) : reply (list ResultColumn) :=
  do? raw := split x0a in
  do? line := slift (from_utf8 "data header line" raw) in
  match strip_prefix (bs "% ") line with
  | None => sfail (UnexpectedHeader line)
  | Some line =>
      match split_once (bs " # ") line with
      | None => sfail (InvalidHeader [Lit "expected '# ' in data header"])
      | Some (body, kind) =>
          if decide (kind <> bs expected_kind) then
            sfail (InvalidHeader [Lit "expected '"; Lit expected_kind; Lit "' header, found "; Arg kind])
          else slift (update_columns f 0 (split_pair x2c x09 body) columns)
      end
  end.

Definition set_table_name : column_updater :=
  fun col s => Ok (MkColumn (table_name col ++ s) (col_name col) (typ col)).

Definition set_column_name : column_updater :=
  fun col s =>
    match decode_column_name s with
    | Ok name => Ok (MkColumn (table_name col) (col_name col ++ name) (typ col))
    | Err e => Err [OfReply e]
    | Panic => Panic
    | NoFuel => NoFuel
    end.

Definition set_type : column_updater :=
  fun col s =>
    match from_mapi_code s with
    | None => Err [Lit "unknown column type: "; Arg s]
    | Some t => Ok (MkColumn (table_name col) (col_name col) t)
    end.

Definition set_length : column_updater :=
  fun col s =>
    match typ col with
    | Varchar _ =>
        let? n := res_map_err (fun e => [OfInt e]) (parse_num u32 s) in
        Ok (MkColumn (table_name col) (col_name col) (Varchar n))
    | _ => Ok col
    end.

Definition set_typesizes : column_updater :=
  fun col s =>
    match typ col with
    | Decimal _ _ =>
        match split_once (bs " ") s with
        | None => Err [Lit "expect typesizes to be PRECISION <space> SCALE"]
        | Some (pr, sc) =>
            let? p := res_map_err (fun e => [OfInt e]) (parse_num u8 pr) in
            let? s := res_map_err (fun e => [OfInt e]) (parse_num u8 sc) in
            Ok (MkColumn (table_name col) (col_name col) (Decimal p s))
        end
    | _ => Ok col
    end.

(** The checks of the four numbers of a data header. *)
Definition check_data_fields (available : nat) (fields : list Z) : res BadReply (Z * Z * nat * Z) :=
  match fields with
  | [result_id; rows_total; ncols; rows_included] =>
      if rows_total <? rows_included then Err (TooManyIncludedRows rows_included rows_total)
      else if ty_max usize <? ncols then Err (TooManyColumns ncols)
      else
        let minimum_metadata_bytes := saturate usize (Z.max 0 (ncols - 1) * 10) in
        if Z.of_nat available <? minimum_metadata_bytes then Err (TooManyColumns ncols)
        else Ok (result_id, rows_total, Z.to_nat ncols, rows_included)
  | _ => Panic
  end.

(** The five (or, for PLAN results, four) metadata lines. *)
Definition parse_columns (ncols : nat) : reply (list ResultColumn) :=
  do? c1 := parse_data_header "table_name" (replicate ncols column_empty) set_table_name in
  do? c2 := parse_data_header "name" c1 set_column_name in
  do? c3 := parse_data_header "type" c2 set_type in
  do? c4 := parse_data_header "length" c3 set_length in
  do? buf := sget in
  if negb (starts_with (bs "=") (peek buf)) then
    parse_data_header "typesizes" c4 set_typesizes
  else sret c4.

(** [parse_data].  A failing allocation of the column vector, whose size is
    bounded by the metadata, is not modelled. *)
Definition parse_data (prep : bool) : reply ReplyParser :=
  do? fields := parse_header u64 4 in
  do? buf := sget in
  do? (rid, rows_total, ncols, included) := slift (check_data_fields (length (peek buf)) fields) in
  let close := if negb prep && (included <? rows_total) then Some rid else None in
  do? columns := parse_columns ncols in
  do? buf := sget in
  let rows :=
    if starts_with (bs "=") (peek buf) then new_noslice buf
    else rowset_new buf (length columns) in
  sret (Data (MkResultSet rid prep 0 rows_total included columns rows None close)).

(** ** Line iteration of the [bstr] crate: lines without their terminators *)
Class BstrLines := bstr_lines : bytes -> list bytes.

Section Parse.
Context `{BstrLines}.

(** [lines().take_while(|line| line.starts_with(b"=")).count()]. *)
Fixpoint count_while (p : bytes -> bool) (l : list bytes) : nat :=
  match l with
  | x :: l' => if p x then S (count_while p l') else O
  | [] => O
  end.

Definition parse_noslice : reply ReplyParser :=
  do? buf := sget in
  let rows := count_while (starts_with (bs "=")) (bstr_lines (peek buf)) in
  let total := Z.of_nat rows in
  do! slift (ok_or (checked u64 total) (InvalidHeader [Lit "too many '=' result rows"])) in
  sret (Data (MkResultSet 0 false 0 total total [column_new (bs "rel") (Varchar 0)]
                (new_noslice buf) None None)).

(** [ReplyParser::parse]: dispatch on the first bytes. *)
Definition parse (buf : ReplyBuf) : res BadReply ReplyParser :=
  let run (m : reply ReplyParser) := (m buf).1 in
  let ahead := peek buf in
  if decide (ahead = []) then Ok (Exhausted [])
  else if starts_with (bs "&1") ahead then run (parse_data false)
  else if starts_with (bs "&2") ahead then run parse_successful_update
  else if starts_with (bs "&3") ahead then run parse_successful_other
  else if starts_with (bs "&4") ahead then run parse_autocommit_status
  else if starts_with (bs "&5") ahead then run (parse_data true)
  else if starts_with (bs "!") ahead then run parse_error
  else if starts_with (bs "=OK" ++ [x0a]) ahead then run parse_ok
  else if starts_with (bs "=") ahead then run parse_noslice
  else match bstr_lines ahead with
       | line :: _ => Err (UnknownResponse line)
       | [] => Panic
       end.

(** [ReplyParser::new]; the reserved capacity is not part of the model. *)
Definition parser_new (vec : bytes) : res BadReply ReplyParser := parse (buf_new vec).

Definition into_next_reply (p : ReplyParser) : res BadReply (ReplyParser * option Z) :=
  let next (buf : ReplyBuf) (close : option Z) :=
    let? q := parse buf in Ok (q, close) in
  match p with
  | Exhausted vec => next (buf_new vec) None
  | ReplyError buf | Success buf _ | Tx buf => next buf None
  | Data rs =>
      let? buf := rowset_finish (match stashed rs with Some s => s | None => row_set rs end) in
      next buf (to_close rs)
  end.

End Parse.

(** [Cursor::exhaust] on the parser: step to the next reply until there is none,
    collecting the result sets to close. *)
Fixpoint exhaust `{BstrLines} (fuel : nat) (p : ReplyParser) : res BadReply (list Z * ReplyParser) :=
  match p with
  | Exhausted _ => Ok ([], p)
  | _ =>
      match fuel with
      | O => NoFuel
      | S fuel' =>
          let? (q, close) := into_next_reply p in
          let? (closes, final) := exhaust fuel' q in
          Ok (match close with Some id => id :: closes | None => closes end, final)
      end
  end.

(** ** Lemmas: scanning lines *)

Lemma memmem_cons_ne needle c l : memmem needle l <> None -> memmem needle (c :: l) <> None.
Proof.
  intros Hm. cbn [memmem]. destruct (starts_with needle (c :: l)); [done|].
  by destruct (memmem needle l).
Qed.

Lemma memmem_here needle l : starts_with needle l = true -> memmem needle l = Some O.
Proof. intros Hs. destruct l; cbn [memmem]; by rewrite Hs. Qed.

Lemma starts_with_prefix p a l : starts_with p a = true -> starts_with p (a ++ l) = true.
Proof.
  rewrite !starts_with_spec. intros [r ->]. exists (r ++ l). by rewrite app_assoc.
Qed.

(** A line that starts with [p] is found by the search for a line end and [p]. *)
Lemma split_on_found sep p l :
  exists first rest, split_on sep l = first :: rest /\ (exists r, l = first ++ r) /\
    forall line, line ∈ rest -> starts_with p line = true -> memmem (sep :: p) l <> None.
Proof.
  induction l as [|c l (first & rest & Hs & (r & Hr) & Hrest)].
  { exists [], []. repeat split; [by exists []|]. set_solver. }
  unfold split_on in *. cbn [split_by]. case_bool_decide as Hc.
  - subst c. exists [], (split_by (fun d => bool_decide (d = sep)) l).
    split; [done|]. split; [by exists (sep :: l)|]. intros line Hin Hst.
    rewrite Hs in Hin. apply elem_of_cons in Hin as [-> | Hin].
    + rewrite memmem_here; [done|]. unfold starts_with. simpl. rewrite decide_True by done.
      apply (starts_with_prefix p first r) in Hst. rewrite <- Hr in Hst.
      unfold starts_with in Hst. by destruct (strip_prefix p l).
    + by apply memmem_cons_ne, (Hrest line).
  - rewrite Hs. exists (c :: first), rest. split; [done|]. split.
    + exists r. simpl. by rewrite Hr.
    + intros line Hin Hst. by apply memmem_cons_ne, (Hrest line).
Qed.

(** The quick rejection before a scan loses nothing. *)
Lemma scan_prefilter {A} (f : bytes -> option A) p response :
  (forall line a, f line = Some a -> starts_with p line = true) ->
  starts_with p response = false -> memmem (x0a :: p) response = None ->
  omap f (lines response) = [].
Proof.
  intros Hf Hs Hm. destruct (split_on_found x0a p response) as (first & rest & Hl & (r & Hr) & Hrest).
  unfold lines. rewrite Hl.
  assert (forall line, line ∈ first :: rest -> f line = None) as Hnone.
  { intros line Hin. destruct (f line) as [a|] eqn:E; [|done]. apply Hf in E.
    apply elem_of_cons in Hin as [-> | Hin].
    - apply (starts_with_prefix p first r) in E. rewrite <- Hr in E. congruence.
    - by apply Hrest in Hin. }
  clear Hl Hr Hrest. induction (first :: rest) as [|x l IH]; [done|]. cbn.
  rewrite (Hnone x) by (by left). apply IH. intros. apply Hnone. by right.
Qed.

Lemma autocommit_line_prefix line a :
  parse_autocommit_line line = Some a -> starts_with (bs "&4") line = true.
Proof. unfold parse_autocommit_line, starts_with. by destruct (strip_prefix _ line). Qed.

Lemma strip_bang_prefix line a :
  strip_prefix (bs "!") line = Some a -> starts_with (bs "!") line = true.
Proof. unfold starts_with. by intros ->. Qed.

(** ** Lemmas: lossy UTF-8 *)

Lemma replacement_valid l : utf8_valid (replacement ++ l) = utf8_valid l.
Proof. by apply utf8_valid_app. Qed.

Lemma utf8_lossy_n n l :
  (length l <= n)%nat ->
  utf8_valid (utf8_lossy l) = true /\ (utf8_valid l = true -> utf8_lossy l = l).
Proof.
  revert l. induction n as [|n IH]; intros [|b0 l1] Hn; try done; [simpl in Hn; lia|].
  simpl in Hn. cbn [utf8_lossy utf8_valid].
  assert (forall l, (length l <= n)%nat -> utf8_valid (utf8_lossy l) = true) as IHv
    by (intros; by apply IH).
  destruct (b2z b0 <? 128) eqn:E0.
  { destruct (IH l1 ltac:(lia)) as [Hv He]. split; [cbn [utf8_valid]; by rewrite E0|].
    intros. f_equal. auto. }
  destruct (between 194 223 b0) eqn:E2.
  { destruct l1 as [|b1 l2]; [done|]. simpl in Hn. destruct (is_cont b1) eqn:C1.
    - destruct (IH l2 ltac:(lia)) as [Hv He]. split; [cbn [utf8_valid]; by rewrite E0, E2, C1|].
      intros [_ Hl]%andb_true_iff. do 2 f_equal. auto.
    - rewrite replacement_valid. split; [apply IHv; simpl; lia|done]. }
  destruct (between 224 239 b0) eqn:E3.
  { destruct l1 as [|b1 l2]; [done|]. simpl in Hn. destruct (utf8_second3 (b2z b0) b1) eqn:C1.
    - destruct l2 as [|b2 l3]; [done|]. simpl in Hn. destruct (is_cont b2) eqn:C2.
      + destruct (IH l3 ltac:(lia)) as [Hv He].
        split; [cbn [utf8_valid]; by rewrite E0, E2, E3, C1, C2|].
        intros [_ Hl]%andb_true_iff. do 3 f_equal. auto.
      + rewrite replacement_valid. split; [apply IHv; simpl; lia|done].
    - rewrite replacement_valid. split; [apply IHv; simpl; lia|]. by destruct l2. }
  destruct (between 240 244 b0) eqn:E4.
  2: { rewrite replacement_valid. split; [apply IHv; lia|done]. }
  destruct l1 as [|b1 l2]; [done|]. simpl in Hn. destruct (utf8_second4 (b2z b0) b1) eqn:C1.
  - destruct l2 as [|b2 l3]; [done|]. simpl in Hn. destruct (is_cont b2) eqn:C2.
    + destruct l3 as [|b3 l4]; [done|]. simpl in Hn. destruct (is_cont b3) eqn:C3.
      * destruct (IH l4 ltac:(lia)) as [Hv He].
        split; [cbn [utf8_valid]; by rewrite E0, E2, E3, E4, C1, C2, C3|].
        intros [_ Hl]%andb_true_iff. do 4 f_equal. auto.
      * rewrite replacement_valid. split; [apply IHv; simpl; lia|done].
    + rewrite replacement_valid. split; [apply IHv; simpl; lia|]. by destruct l3.
  - rewrite replacement_valid. split; [apply IHv; simpl; lia|]. by destruct l2 as [|? [|]].
Qed.

(** ** Theorems: scanning *)

(** The message that the error lines of a response carry: their texts, invalid
    UTF-8 replaced, joined by line ends. *)
Definition error_text (messages : list bytes) : bytes :=
  match messages with
  | [] => []
  | first :: rest => join_lossy (utf8_lossy first) rest
  end.

(** [server_error] reports an error exactly when some line of the response
    starts with an exclamation mark, with the texts of all such lines in order;
    the quick substring test before the scan changes nothing, and the text that
    is reported keeps everything the server sent, SQLSTATE included. *)
Theorem server_error_lines response :
  let messages := omap (strip_prefix (bs "!")) (lines response) in
  match server_error response with
  | None => messages = []
  | Some e => messages <> [] /\ display e = error_text messages /\
      match sqlstate e with
      | Some code => error_text messages = code ++ [x21] ++ err_message e
      | None => err_message e = error_text messages
      end
  end.
Proof.
  intros messages. unfold server_error. fold messages.
  destruct (starts_with (bs "!") response) eqn:Es; cbn [negb andb];
    [|destruct (memmem [x0a; x21] response) eqn:Em;
      [|exact (scan_prefilter _ (bs "!") _ strip_bang_prefix Es Em)]].
  all: destruct messages as [|first rest]; [done|];
    destruct (from_wire_text (join_lossy (utf8_lossy first) rest)) as [Hd Hs];
    split; [done|]; split; [done|]; destruct (sqlstate _); naive_solver.
Qed.

(** [response_autocommit] is the last autocommit notification among the lines
    of the response; the quick substring test before the scan changes nothing. *)
Theorem response_autocommit_lines response :
  response_autocommit response = last (omap parse_autocommit_line (lines response)).
Proof.
  unfold response_autocommit. destruct (starts_with (bs "&4") response) eqn:Es; simpl; [done|].
  destruct (memmem _ response) eqn:Em; [done|].
  by rewrite (scan_prefilter _ (bs "&4") _ autocommit_line_prefix).
Qed.

(** *** What the lines of a response say *)

(** The lines of a text. *)
Notation text_lines := (pieces x0a).

Lemma text_lines_lines text ls : text_lines text ls -> lines text = ls.
Proof. apply pieces_split. Qed.

(** The messages of the lines that report an error. *)
Inductive error_lines : list bytes -> list bytes -> Prop :=
| error_lines_nil : error_lines [] []
| error_lines_error m ls ms : error_lines ls ms -> error_lines ((x21 :: m) :: ls) (m :: ms)
| error_lines_other l ls ms : head l <> Some x21 -> error_lines ls ms -> error_lines (l :: ls) ms.

Lemma error_lines_omap ls ms : error_lines ls ms -> omap (strip_prefix (bs "!")) ls = ms.
Proof.
  induction 1 as [|m ls ms _ IH|l ls ms Hl _ IH]; [done| |].
  - rewrite <- IH. done.
  - rewrite <- IH. destruct l as [|c l]; [done|].
    assert (strip_prefix (bs "!") (c :: l) = None) as Hs.
    { cbn. rewrite decide_False; [done|]. intros <-. by apply Hl. }
    cbn [omap list_omap]. by rewrite Hs.
Qed.

(** One message on each line, as an error displays them. *)
Definition joined (messages : list bytes) : bytes :=
  match messages with
  | [] => []
  | m :: ms => m ++ concat ((fun m => x0a :: m) <$> ms)
  end.

Lemma error_text_joined messages : error_text messages = joined (utf8_lossy <$> messages).
Proof.
  destruct messages as [|m ms]; [done|]. cbn [error_text joined fmap list_fmap]. generalize (utf8_lossy m).
  unfold join_lossy. induction ms as [|m' ms IH]; intros acc; cbn; [by rewrite app_nil_r|].
  rewrite IH, <- !app_assoc. done.
Qed.

(** The error [e] is the one that these messages report: it displays all of them,
    and an SQLSTATE is what stands before the first exclamation mark. *)
Definition reports (messages : list bytes) (e : ServerError) : Prop :=
  display e = joined (utf8_lossy <$> messages) /\
  match sqlstate e with
  | Some code => length code = 5%nat /\ forallb is_alnum code = true /\ display e = code ++ [x21] ++ err_message e
  | None => err_message e = display e
  end.

Lemma server_error_messages text ls messages :
  text_lines text ls -> error_lines ls messages ->
  match server_error text with
  | None => messages = []
  | Some e => messages <> [] /\ reports messages e
  end.
Proof.
  intros <-%text_lines_lines <-%error_lines_omap. unfold server_error, reports.
  set (messages := omap _ (lines text)).
  assert (match messages with [] => None | first :: ms => Some (from_wire (join_lossy (utf8_lossy first) ms)) end =
    (if negb (starts_with (bs "!") text) &&
        match memmem [x0a; x21] text with None => true | Some _ => false end
     then None else match messages with [] => None | first :: ms => Some (from_wire (join_lossy (utf8_lossy first) ms)) end))
    as <-.
  { destruct (starts_with (bs "!") text) eqn:Es; cbn [negb andb]; [done|].
    destruct (memmem [x0a; x21] text) eqn:Em; [done|].
    unfold messages. by rewrite (scan_prefilter _ (bs "!") _ strip_bang_prefix Es Em). }
  destruct messages as [|first rest]; [done|]. split; [done|].
  change (join_lossy (utf8_lossy first) rest) with (error_text (first :: rest)).
  rewrite error_text_joined. destruct (from_wire_text (joined (utf8_lossy <$> first :: rest))) as [-> Hs].
  split; [done|]. exact Hs.
Qed.

Definition flag_text (b : bool) : bytes := if b then bs "t" else bs "f".

(** An autocommit notification: the flag is the first field; further fields do not
    count. *)
Inductive notification : bytes -> bool -> Prop :=
| Notification b ws more :
    ws <> [] -> Forall (fun c => is_space c = true) ws -> (forall c, head more = Some c -> is_space c = true) ->
    notification (bs "&4" ++ ws ++ flag_text b ++ more) b.

Lemma first_field ws field more :
  Forall (fun c => is_space c = true) ws -> Forall (fun c => is_space c = false) field -> field <> [] ->
  (forall c, head more = Some c -> is_space c = true) ->
  snd <$> list_find (fun f => f <> []) (split_by is_space (ws ++ field ++ more)) = Some field.
Proof.
  intros Hws Hf Hne Hm. induction Hws as [|c ws Hc _ IH]; cbn [app].
  - assert (exists ls, split_by is_space (field ++ more) = field :: ls) as [ls ->].
    { destruct more as [|c more]; [rewrite app_nil_r, split_by_piece by done; eauto|].
      rewrite split_by_app by (try done; by apply Hm). eauto. }
    cbn. by rewrite decide_True.
  - cbn [split_by]. rewrite Hc. cbn [list_find]. rewrite decide_False by (intros H; by apply H).
    by destruct (list_find _ _) as [[i f]|].
Qed.

Lemma no_field ws : Forall (fun c => is_space c = true) ws ->
  list_find (fun f : bytes => f <> []) (split_by is_space ws) = None.
Proof.
  induction 1 as [|c ws Hc _ IH]; [done|]. cbn [split_by]. rewrite Hc. cbn.
  by rewrite decide_False, IH by (intros H; by apply H).
Qed.

Lemma parse_autocommit_line_iff line b : parse_autocommit_line line = Some b <-> notification line b.
Proof.
  split.
  - unfold parse_autocommit_line. destruct (strip_prefix (bs "&4") line) as [rest|] eqn:E; [|done].
    apply strip_prefix_Some in E as ->.
    destruct (span_spec is_space rest) as (ws & r & -> & Hws & Hr).
    destruct (span_spec (fun c => negb (is_space c)) r) as (field & more & -> & Hf & Hm).
    assert (Forall (fun c => is_space c = false) field) as Hf'
      by (apply (Forall_impl _ _ _ Hf); intros c Hc; by apply negb_true_iff).
    assert (forall c, head more = Some c -> is_space c = true) as Hm'
      by (intros c Hc; by apply negb_false_iff, Hm).
    destruct (decide (field = [])) as [->|Hne].
    + assert (more = []) as ->.
      { destruct more as [|c more]; [done|]. pose proof (Hr c eq_refl). specialize (Hm' c eq_refl). congruence. }
      cbn [app]. rewrite app_nil_r, no_field by done. by destruct ws as [|w ws]; [|destruct (negb (is_space w))].
    + pose proof (first_field ws field more Hws Hf' Hne Hm') as Hff.
      destruct (list_find _ _) as [[i f]|]; [|done]. injection Hff as ->.
      destruct ws as [|w ws].
      { destruct field as [|c field]; [done|]. cbn. apply Forall_inv in Hf. by rewrite Hf. }
      cbn [app]. apply Forall_cons in Hws as Hw. destruct Hw as [-> _]. cbn [negb].
      case_decide as Ht; [|case_decide as Hff'; [|done]]; intros [= <-]; subst field.
      * by apply (Notification true (w :: ws) more).
      * by apply (Notification false (w :: ws) more).
  - intros [b' ws more Hne Hws Hm]. unfold parse_autocommit_line.
    rewrite (proj2 (strip_prefix_Some (bs "&4") _ _) eq_refl).
    pose proof (first_field ws (flag_text b') more Hws ltac:(destruct b'; by apply Forall_singleton)
      ltac:(by destruct b') Hm) as Hff.
    destruct ws as [|w ws]; [done|]. cbn [app] in *. apply Forall_cons in Hws as [-> _]. cbn [negb].
    destruct (list_find _ _) as [[i f]|]; [|done]. injection Hff as ->. by destruct b'.
Qed.

(** The line that is read last counts. *)
Lemma response_autocommit_last text ls before line after b :
  text_lines text ls -> ls = before ++ line :: after -> notification line b ->
  Forall (fun l => forall b', ~ notification l b') after -> response_autocommit text = Some b.
Proof.
  intros <-%text_lines_lines Hls Hn Hafter. rewrite response_autocommit_lines, Hls, omap_app. cbn.
  rewrite (proj2 (parse_autocommit_line_iff line b) Hn).
  assert (omap parse_autocommit_line after = []) as ->; [|by rewrite last_snoc].
  clear Hls. induction Hafter as [|l after Hl _ IH]; [done|]. cbn.
  destruct (parse_autocommit_line l) as [b'|] eqn:E; [|done]. apply parse_autocommit_line_iff in E. by destruct (Hl b').
Qed.

Lemma response_autocommit_none text ls :
  text_lines text ls -> Forall (fun l => forall b', ~ notification l b') ls -> response_autocommit text = None.
Proof.
  intros <-%text_lines_lines Hls. rewrite response_autocommit_lines.
  induction Hls as [|l ls Hl _ IH]; [done|]. cbn.
  destruct (parse_autocommit_line l) as [b'|] eqn:E; [|done]. apply parse_autocommit_line_iff in E. by destruct (Hl b').
Qed.

(** The lossy conversion of a server message gives valid UTF-8 and leaves valid
    UTF-8 unchanged. *)
Theorem utf8_lossy_correct l :
  utf8_valid (utf8_lossy l) = true /\ (utf8_valid l = true -> utf8_lossy l = l).
Proof. by apply (utf8_lossy_n (length l)). Qed.

(** ** Column names *)

Definition quote_char (c : byte) : bytes :=
  if decide (c = x22 \/ c = x5c) then [x5c; c] else [c].

(** How the server quotes a column name. *)
Definition quote_name (name : bytes) : bytes := [x22] ++ concat (quote_char <$> name) ++ [x22].

Lemma decode_chars_quoted name : decode_chars (concat (quote_char <$> name)) = Ok name.
Proof.
  induction name as [|c name IH]; [done|]. cbn [fmap list_fmap concat].
  unfold quote_char at 1. case_decide as Hc.
  - cbn [app decode_chars]. rewrite decide_False by tauto. rewrite decide_True by done.
    simpl in IH. by rewrite IH.
  - cbn [app decode_chars]. rewrite decide_True by tauto. simpl in IH. by rewrite IH.
Qed.

(** Column names survive the protocol: a quoted name decodes to the name, with
    any quotes and backslashes in it, and a name that is sent unquoted is taken
    as it is. *)
Theorem decode_column_name_roundtrip name :
  decode_column_name (quote_name name) = Ok name /\
  (head name <> Some x22 -> decode_column_name name = Ok name).
Proof.
  split.
  - unfold decode_column_name, quote_name. rewrite starts_with_app. cbn [negb].
    rewrite (proj2 (strip_prefix_Some [x22] _ _) eq_refl). simpl.
    rewrite (proj2 (strip_suffix_Some [x22] _ (concat (quote_char <$> name)))) by done.
    apply decode_chars_quoted.
  - intros Hh. unfold decode_column_name.
    destruct (starts_with [x22] name) eqn:Es; [|done].
    apply starts_with_spec in Es as [l ->]. done.
Qed.

(** ** The metadata lines *)

Definition join_pair (parts : list bytes) : bytes :=
  match parts with
  | [] => []
  | p :: ps => p ++ concat (fmap (fun q => [x2c; x09] ++ q) ps)
  end.

(** One metadata line as the server writes it, without the line end. *)
Definition meta_line (kind : string) (parts : list bytes) : bytes :=
  bs "% " ++ join_pair parts ++ bs " # " ++ bs kind.

(** A part without separators: no comma, no hash sign, no line end. *)
Definition plain_part (p : bytes) : bool :=
  forallb (fun c => negb (bool_decide (c ∈ [x2c; x23; x0a]))) p.

Lemma split_pair_plain a b p rest :
  a ∉ p -> split_pair a b (p ++ a :: b :: rest) = p :: split_pair a b rest.
Proof.
  intros Hp. induction p as [|c p IH].
  - simpl. by rewrite decide_True.
  - apply not_elem_of_cons in Hp as [Hc Hp]. simpl app. cbn [split_pair].
    destruct (p ++ a :: b :: rest) as [|d l] eqn:E; [by destruct p|].
    rewrite decide_False by naive_solver. by rewrite IH.
Qed.

Lemma split_pair_last a b p : a ∉ p -> split_pair a b p = [p].
Proof.
  induction p as [|c p IH]; intros Hp; [done|]. apply not_elem_of_cons in Hp as [Hc Hp].
  cbn [split_pair]. destruct p as [|d p]; [done|].
  rewrite decide_False by naive_solver. by rewrite IH.
Qed.

Lemma split_pair_join parts :
  parts <> [] -> Forall (fun p => plain_part p = true) parts ->
  split_pair x2c x09 (join_pair parts) = parts.
Proof.
  assert (forall p, plain_part p = true -> x2c ∉ p) as Hplain.
  { intros p Hp. unfold plain_part in Hp. rewrite forallb_forall in Hp. intros Hin.
    apply list_elem_of_In in Hin. apply Hp in Hin. by vm_compute in Hin. }
  intros Hne Hall. destruct parts as [|p ps]; [done|]. simpl.
  inversion Hall as [|? ? Hp Hps]; subst. clear Hne Hall.
  revert p Hp. induction ps as [|q ps IH]; intros p Hp.
  - simpl. rewrite app_nil_r. apply split_pair_last, Hplain, Hp.
  - inversion Hps as [|? ? Hq Hps']; subst. cbn [fmap list_fmap concat app].
    rewrite split_pair_plain by auto. f_equal. by apply IH.
Qed.

Lemma plain_part_free c p : c ∈ [x2c; x23; x0a] -> plain_part p = true -> c ∉ p.
Proof.
  intros Hc Hp Hin. unfold plain_part in Hp. rewrite forallb_forall in Hp.
  apply list_elem_of_In, Hp in Hin. by rewrite bool_decide_true in Hin.
Qed.

Lemma join_pair_free c parts :
  c <> x2c -> c <> x09 -> Forall (fun p => c ∉ p) parts -> c ∉ join_pair parts.
Proof.
  intros H1 H2 Hall. destruct Hall as [|p ps Hp Hps]; simpl; [apply not_elem_of_nil|].
  apply not_elem_of_app. split; [done|].
  induction Hps as [|q ps Hq _ IH]; cbn [fmap list_fmap concat]; [apply not_elem_of_nil|].
  apply not_elem_of_app. split; [|done]. cbn. by rewrite !not_elem_of_cons.
Qed.

Lemma split_once_hash body kind :
  x23 ∉ body -> split_once (bs " # ") (body ++ bs " # " ++ kind) = Some (body, kind).
Proof.
  intros Hb. unfold split_once. change (bs " # ") with [x20; x23; x20].
  assert (memmem [x20; x23; x20] (body ++ [x20; x23; x20] ++ kind) = Some (length body)) as ->.
  { induction body as [|c body IH].
    - apply memmem_here. apply (starts_with_app [x20; x23; x20] kind).
    - apply not_elem_of_cons in Hb as [Hc Hb]. cbn [app memmem].
      assert (starts_with [x20; x23; x20] (c :: body ++ x20 :: x23 :: x20 :: kind) = false) as ->;
        [|cbn [app] in IH; by rewrite IH].
      apply not_true_iff_false. intros [l Hl]%starts_with_spec. injection Hl as -> Hl.
      destruct body as [|d body]; [done|]. injection Hl as -> _.
      apply not_elem_of_cons in Hb as [? _]. done. }
  by rewrite take_app_length, <- drop_drop, drop_app_length.
Qed.

(** Reading one metadata line. *)
Lemma parse_data_header_line kind parts columns columns' f b rest :
  wf_buf b -> peek b = meta_line kind parts ++ x0a :: rest ->
  parts <> [] -> Forall (fun p => plain_part p = true) parts ->
  utf8_valid (meta_line kind parts) = true -> x0a ∉ bs kind ->
  update_columns f 0 parts columns = Ok columns' ->
  exists b', parse_data_header kind columns f b = (Ok columns', b') /\ wf_buf b' /\ peek b' = rest.
Proof.
  intros Hwf Hp Hne Hpl Hu Hk Hup. unfold parse_data_header.
  assert (forall c, c ∈ [x2c; x23; x0a] -> Forall (fun p => c ∉ p) parts) as Hfree.
  { intros c Hc. apply (Forall_impl _ _ _ Hpl). intros p. by apply plain_part_free. }
  assert (x0a ∉ meta_line kind parts) as Hni.
  { unfold meta_line. rewrite !not_elem_of_app. repeat split; auto;
      [change (bs "% ") with [x25; x20]; set_solver| |change (bs " # ") with [x20; x23; x20]; set_solver].
    apply join_pair_free; [done|done|]. apply Hfree. set_solver. }
  unfold sbind at 1. rewrite (split_found x0a b (meta_line kind parts) rest) by done.
  rewrite <- Nat.add_assoc.
  assert (length (meta_line kind parts) + 1 <= length (peek b))%nat as Hn
    by (rewrite Hp, length_app; simpl; lia).
  unfold sbind at 1, slift at 1, from_utf8. rewrite Hu.
  unfold meta_line at 1. rewrite (proj2 (strip_prefix_Some (bs "% ") _ _) eq_refl).
  rewrite split_once_hash.
  2: { apply join_pair_free; [done|done|]. apply Hfree. set_solver. }
  rewrite decide_False by (intros Hx; by apply Hx).
  unfold slift. rewrite split_pair_join, Hup by done.
  eexists. split; [done|]. split; [by apply wf_consume|].
  rewrite peek_consume, Hp, <- drop_drop, drop_app_length. done.
Qed.

(** *** Result sets *)

(** What the five metadata lines say of one column. *)
Record column_text := ColumnText {
  ct_table : bytes; ct_name : bytes; ct_type : bytes; ct_length : bytes; ct_sizes : bytes
}.

(** The column they describe. *)
Definition build_column (c : column_text) : res message_text ResultColumn :=
  let? c1 := set_table_name column_empty (ct_table c) in
  let? c2 := set_column_name c1 (ct_name c) in
  let? c3 := set_type c2 (ct_type c) in
  let? c4 := set_length c3 (ct_length c) in
  set_typesizes c4 (ct_sizes c).

Definition meta_text (cs : list column_text) : bytes :=
  meta_line "table_name" (ct_table <$> cs) ++ x0a ::
  meta_line "name" (ct_name <$> cs) ++ x0a ::
  meta_line "type" (ct_type <$> cs) ++ x0a ::
  meta_line "length" (ct_length <$> cs) ++ x0a ::
  meta_line "typesizes" (ct_sizes <$> cs) ++ [x0a].

Definition plain_column (c : column_text) : Prop :=
  Forall (fun p => plain_part p = true /\ utf8_valid p = true)
    [ct_table c; ct_name c; ct_type c; ct_length c; ct_sizes c].

Lemma update_columns_ok (f : column_updater) (get : column_text -> bytes) cs cols cols' i :
  Forall2 (fun c col => True) cs cols ->
  Forall2 (fun p col' => f p.2 (get p.1) = Ok col') (zip cs cols) cols' ->
  update_columns f i (get <$> cs) cols = Ok cols'.
Proof.
  intros Hlen. revert cols' i. induction Hlen as [|c col cs cols _ _ IH]; intros cols' i Hf.
  - by inversion Hf.
  - inversion Hf as [|? col1 ? cols1 H1 H2]; subst. simpl in *. rewrite H1.
    by rewrite (IH cols1).
Qed.

Lemma meta_line_valid kind parts :
  utf8_valid (bs kind) = true -> Forall (fun p => utf8_valid p = true) parts ->
  utf8_valid (meta_line kind parts) = true.
Proof.
  intros Hk Hp. unfold meta_line. rewrite utf8_valid_app by done.
  rewrite utf8_valid_app; [by rewrite utf8_valid_app|].
  destruct Hp as [|p ps Hp Hps]; [done|]. simpl. rewrite utf8_valid_app by done.
  induction Hps as [|q ps Hq _ IH]; [done|]. cbn [fmap list_fmap concat app].
  rewrite !utf8_valid_cons_ascii by done. by rewrite utf8_valid_app.
Qed.

(** One line of metadata applied to all columns. *)
Lemma meta_line_step kind (get : column_text -> bytes) f cs cols cols' b rest :
  cs <> [] -> length cols = length cs ->
  Forall (fun c => plain_part (get c) = true /\ utf8_valid (get c) = true) cs ->
  utf8_valid (bs kind) = true -> x0a ∉ bs kind ->
  Forall2 (fun p col' => f p.2 (get p.1) = Ok col') (zip cs cols) cols' ->
  wf_buf b -> peek b = meta_line kind (get <$> cs) ++ x0a :: rest ->
  exists b', parse_data_header kind cols f b = (Ok cols', b') /\ wf_buf b' /\ peek b' = rest.
Proof.
  intros Hne Hlen Hpl Hk Hnl Hf Hwf Hp.
  eapply parse_data_header_line; eauto.
  - by destruct cs.
  - rewrite Forall_fmap. apply (Forall_impl _ _ _ Hpl). naive_solver.
  - apply meta_line_valid; [done|]. rewrite Forall_fmap. apply (Forall_impl _ _ _ Hpl). naive_solver.
  - apply update_columns_ok; [|done]. by apply Forall2_true.
Qed.

Lemma build_lists cs cols :
  Forall2 (fun c col => build_column c = Ok col) cs cols ->
  exists k1 k2 k3 k4,
    length k1 = length cs /\ length k2 = length cs /\ length k3 = length cs /\ length k4 = length cs /\
    Forall2 (fun p k => set_table_name p.2 (ct_table p.1) = Ok k)
      (zip cs (replicate (length cs) column_empty)) k1 /\
    Forall2 (fun p k => set_column_name p.2 (ct_name p.1) = Ok k) (zip cs k1) k2 /\
    Forall2 (fun p k => set_type p.2 (ct_type p.1) = Ok k) (zip cs k2) k3 /\
    Forall2 (fun p k => set_length p.2 (ct_length p.1) = Ok k) (zip cs k3) k4 /\
    Forall2 (fun p k => set_typesizes p.2 (ct_sizes p.1) = Ok k) (zip cs k4) cols.
Proof.
  induction 1 as [|c col cs cols Hb _ IH].
  { exists [], [], [], []. simpl. repeat split; constructor. }
  destruct IH as (k1 & k2 & k3 & k4 & L1 & L2 & L3 & L4 & F1 & F2 & F3 & F4 & F5).
  unfold build_column in Hb. res_inv.
  match goal with H1 : set_table_name _ _ = Ok ?x1, H2 : set_column_name ?x1 _ = Ok ?x2,
    H3 : set_type ?x2 _ = Ok ?x3, H4 : set_length ?x3 _ = Ok ?x4 |- _ =>
    exists (x1 :: k1), (x2 :: k2), (x3 :: k3), (x4 :: k4) end.
  simpl. repeat split; try lia; by constructor.
Qed.

Lemma starts_with_meta kind parts rest : starts_with (bs "=") (meta_line kind parts ++ rest) = false.
Proof. done. Qed.

Lemma parse_columns_reads cs cols b rest :
  cs <> [] -> Forall plain_column cs ->
  Forall2 (fun c col => build_column c = Ok col) cs cols ->
  wf_buf b -> peek b = meta_text cs ++ rest ->
  exists b', parse_columns (length cs) b = (Ok cols, b') /\ wf_buf b' /\ peek b' = rest.
Proof.
  intros Hne Hpl Hb Hwf Hp.
  destruct (build_lists cs cols Hb) as (k1 & k2 & k3 & k4 & L1 & L2 & L3 & L4 & F1 & F2 & F3 & F4 & F5).
  assert (Forall (fun c => plain_part (ct_table c) = true /\ utf8_valid (ct_table c) = true) cs /\
    Forall (fun c => plain_part (ct_name c) = true /\ utf8_valid (ct_name c) = true) cs /\
    Forall (fun c => plain_part (ct_type c) = true /\ utf8_valid (ct_type c) = true) cs /\
    Forall (fun c => plain_part (ct_length c) = true /\ utf8_valid (ct_length c) = true) cs /\
    Forall (fun c => plain_part (ct_sizes c) = true /\ utf8_valid (ct_sizes c) = true) cs)
    as (P1 & P2 & P3 & P4 & P5).
  { repeat split; apply (Forall_impl _ _ _ Hpl); unfold plain_column; intros c Hc;
      rewrite !Forall_cons in Hc; tauto. }
  unfold meta_text in Hp. repeat (rewrite <- app_assoc in Hp || rewrite <- app_comm_cons in Hp).
  cbn [app] in Hp.
  assert (forall kind, kind ∈ ["table_name"; "name"; "type"; "length"; "typesizes"]%string ->
    utf8_valid (bs kind) = true /\ x0a ∉ bs kind) as Hkind.
  { intros kind Hk. set_unfold in Hk. destruct_or! Hk; subst kind; (split; [done|vm_compute; set_solver]). }
  unfold parse_columns.
  destruct (meta_line_step "table_name" ct_table set_table_name cs
    (replicate (length cs) column_empty) k1 b _ Hne ltac:(by rewrite length_replicate) P1
    (proj1 (Hkind "table_name" ltac:(set_solver))) (proj2 (Hkind "table_name" ltac:(set_solver)))
    F1 Hwf Hp) as (b1 & R1 & W1 & Q1).
  destruct (meta_line_step "name" ct_name set_column_name cs k1 k2 b1 _ Hne L1 P2
    (proj1 (Hkind "name" ltac:(set_solver))) (proj2 (Hkind "name" ltac:(set_solver)))
    F2 W1 Q1) as (b2 & R2 & W2 & Q2).
  destruct (meta_line_step "type" ct_type set_type cs k2 k3 b2 _ Hne L2 P3
    (proj1 (Hkind "type" ltac:(set_solver))) (proj2 (Hkind "type" ltac:(set_solver)))
    F3 W2 Q2) as (b3 & R3 & W3 & Q3).
  destruct (meta_line_step "length" ct_length set_length cs k3 k4 b3 _ Hne L3 P4
    (proj1 (Hkind "length" ltac:(set_solver))) (proj2 (Hkind "length" ltac:(set_solver)))
    F4 W3 Q3) as (b4 & R4 & W4 & Q4).
  destruct (meta_line_step "typesizes" ct_sizes set_typesizes cs k4 cols b4 _ Hne L4 P5
    (proj1 (Hkind "typesizes" ltac:(set_solver))) (proj2 (Hkind "typesizes" ltac:(set_solver)))
    F5 W4 Q4) as (b5 & R5 & W5 & Q5).
  unfold sbind, sget. rewrite R1, R2, R3, R4. rewrite Q4, starts_with_meta. cbn [negb].
  rewrite R5. eauto.
Qed.

(** *** The header line *)

Definition show_nums (nums : list Z) : bytes :=
  match nums with
  | [] => []
  | n :: ns => print_dec n ++ concat (fmap (fun m => x20 :: print_dec m) ns)
  end.

Lemma print_dec_free c n : 0 <= n -> is_digit c = false -> c ∉ print_dec n.
Proof.
  intros Hn Hc Hin. pose proof (print_dec_digits n Hn) as Hd. rewrite forallb_forall in Hd.
  apply list_elem_of_In, Hd in Hin. congruence.
Qed.

Lemma split_show_nums nums :
  nums <> [] -> Forall (fun n => 0 <= n) nums ->
  split_on x20 (show_nums nums) = print_dec <$> nums.
Proof.
  intros Hne Hall. destruct Hall as [|n ns Hn Hns]; [done|]. clear Hne. simpl.
  revert n Hn. induction Hns as [|m ns Hm _ IH]; intros n Hn; cbn [fmap list_fmap concat].
  - rewrite app_nil_r. apply split_on_piece. by apply print_dec_free.
  - cbn [app]. rewrite split_on_app by (by apply print_dec_free). f_equal. by apply IH.
Qed.

Lemma print_dec_last n : 0 <= n -> exists l c, print_dec n = l ++ [c] /\ is_digit c = true.
Proof.
  intros Hn. pose proof (print_dec_digits n Hn) as Hd.
  destruct (exists_last (print_dec_nonempty n)) as (l & c & E). exists l, c. split; [done|].
  rewrite E, forallb_app in Hd. simpl in Hd. by destruct (is_digit c), (forallb is_digit l).
Qed.

Lemma show_nums_last nums :
  nums <> [] -> Forall (fun n => 0 <= n) nums ->
  exists l c, show_nums nums = l ++ [c] /\ is_digit c = true.
Proof.
  intros Hne Hall. destruct Hall as [|n ns Hn Hns]; [done|]. clear Hne. simpl.
  revert n Hn. induction Hns as [|m ns Hm _ IH]; intros n Hn; cbn [fmap list_fmap concat].
  - rewrite app_nil_r. by apply print_dec_last.
  - destruct (IH m Hm) as (l & c & E & Hc). exists (print_dec n ++ x20 :: l), c.
    rewrite <- app_assoc. cbn [app]. by rewrite <- E.
Qed.

Lemma trim_ascii_id a l c : is_space a = false -> is_space c = false ->
  trim_ascii (a :: l ++ [c]) = a :: l ++ [c].
Proof.
  intros Ha Hc. unfold trim_ascii. cbn [trim_start]. rewrite Ha. unfold trim_end.
  rewrite app_comm_cons, reverse_snoc. cbn [trim_start]. rewrite Hc.
  by rewrite reverse_cons, reverse_involutive.
Qed.

Lemma digit_not_space c : is_digit c = true -> is_space c = false.
Proof. destruct c; done. Qed.

Lemma show_nums_free c nums :
  is_digit c = false -> c <> x20 -> Forall (fun n => 0 <= n) nums -> c ∉ show_nums nums.
Proof.
  intros Hc Hs Hall. destruct Hall as [|n ns Hn Hns]; [apply not_elem_of_nil|]. simpl.
  apply not_elem_of_app. split; [by apply print_dec_free|].
  induction Hns as [|m ns Hm _ IH]; cbn [fmap list_fmap concat]; [apply not_elem_of_nil|].
  apply not_elem_of_app. split; [|done]. apply not_elem_of_cons. split; [done|by apply print_dec_free].
Qed.

Lemma forallb_show_nums nums :
  Forall (fun n => 0 <= n) nums -> forallb is_ascii (show_nums nums) = true.
Proof.
  intros Hall. apply forallb_forall. intros c Hin. apply list_elem_of_In in Hin.
  destruct (is_digit c) eqn:Hd; [by apply is_ascii_digit|].
  destruct (decide (c = x20)) as [->|Hs]; [done|]. by apply show_nums_free in Hin.
Qed.

Lemma parse_items_nums t line n i nums rest :
  Forall (fun m => 0 <= m /\ in_type t m = true) nums ->
  parse_items t line n i ((print_dec <$> nums) ++ rest) (length nums) = Ok nums.
Proof.
  intros Hall. revert i. induction Hall as [|m nums [Hm Ht] _ IH]; intros i; [done|]. simpl.
  rewrite parse_print_dec by done. by rewrite IH.
Qed.

(** A line of numbers is split off as it was sent. *)
Lemma header_line_reads d nums b rest :
  is_digit d = true -> nums <> [] -> Forall (fun m => 0 <= m) nums ->
  wf_buf b -> peek b = (x26 :: d :: x20 :: show_nums nums) ++ x0a :: rest ->
  let line := x26 :: d :: x20 :: show_nums nums in
  exists b', split_str x0a "header line" b = (Ok line, b') /\ trim_ascii line = line /\
    wf_buf b' /\ peek b' = rest.
Proof.
  intros Hd Hne Hall Hwf Hp line.
  assert (x0a ∉ line) as Hni.
  { unfold line. rewrite !not_elem_of_cons. split; [done|].
    split; [intros <-; by vm_compute in Hd|]. split; [done|].
    by apply show_nums_free. }
  unfold split_str, sbind. rewrite (split_found x0a b line rest) by done.
  rewrite <- Nat.add_assoc.
  assert (length line + 1 <= length (peek b))%nat as Hlen by (rewrite Hp, length_app; simpl; lia).
  unfold slift, from_utf8. rewrite utf8_valid_ascii.
  2: { unfold line. simpl. rewrite is_ascii_digit by done. by apply forallb_show_nums. }
  destruct (show_nums_last _ Hne Hall) as (l & c & Hlast & Hc).
  eexists. split; [done|]. split.
  { unfold line. rewrite Hlast. change (d :: x20 :: l ++ [c]) with ((d :: x20 :: l) ++ [c]).
    apply trim_ascii_id; [done|by apply digit_not_space]. }
  split; [by apply wf_consume|].
  rewrite peek_consume, Hp, <- drop_drop, drop_app_length. done.
Qed.

(** The line parses to its numbers, also when there are more than are asked for. *)
Lemma header_line_parsed d t nums extra :
  is_digit d = true -> nums ++ extra <> [] ->
  Forall (fun m => 0 <= m /\ in_type t m = true) nums -> Forall (fun m => 0 <= m) extra ->
  parse_header_line t (x26 :: d :: x20 :: show_nums (nums ++ extra)) (length nums) = Ok nums.
Proof.
  intros Hd Hne Hn He. unfold parse_header_line. rewrite Hd, split_show_nums; [|done|].
  - by rewrite fmap_app, parse_items_nums.
  - apply Forall_app. split; [|done]. apply (Forall_impl _ _ _ Hn). naive_solver.
Qed.

Lemma parse_header_reads d t nums extra b rest :
  is_digit d = true -> nums ++ extra <> [] ->
  Forall (fun m => 0 <= m /\ in_type t m = true) nums -> Forall (fun m => 0 <= m) extra ->
  wf_buf b -> peek b = (x26 :: d :: x20 :: show_nums (nums ++ extra)) ++ x0a :: rest ->
  exists b', parse_header t (length nums) b = (Ok nums, b') /\ wf_buf b' /\ peek b' = rest.
Proof.
  intros Hd Hne Hn He Hwf Hp.
  destruct (header_line_reads d (nums ++ extra) b rest) as (b' & Hs & Ht & Hw & Hr); [done..| |done|done|].
  { apply Forall_app. split; [|done]. apply (Forall_impl _ _ _ Hn). naive_solver. }
  exists b'. unfold parse_header, sbind, slift. rewrite Hs, Ht, header_line_parsed by done. done.
Qed.

(** The header of a further window of rows. *)
Lemma parse_export_header_reads t nums b rest :
  nums <> [] -> Forall (fun m => 0 <= m /\ in_type t m = true) nums ->
  wf_buf b -> peek b = (bs "&6 " ++ show_nums nums) ++ x0a :: rest ->
  exists b', parse_export_header t (length nums) b = (Ok nums, b') /\ wf_buf b' /\ peek b' = rest.
Proof.
  intros Hne Hn Hwf Hp.
  destruct (header_line_reads x36 nums b rest) as (b' & Hs & Ht & Hw & Hr); [done..| |done|done|].
  { apply (Forall_impl _ _ _ Hn). naive_solver. }
  pose proof (header_line_parsed x36 t nums [] eq_refl ltac:(by rewrite app_nil_r) Hn ltac:(done)) as Hl.
  rewrite app_nil_r in Hl.
  exists b'. unfold parse_export_header, sbind, slift. rewrite Hs, Ht.
  change (starts_with (bs "&6 ") (x26 :: x36 :: x20 :: show_nums nums)) with true. cbn [negb].
  by rewrite Hl.
Qed.

Lemma in_u64 v : in_type u64 v = true <-> 0 <= v < 2 ^ 64.
Proof. rewrite in_type_spec. change (ty_min u64) with 0. change (ty_max u64) with (2 ^ 64 - 1). lia. Qed.

Lemma length_join_pair parts : (10 * (length parts - 1) <= 5 * length (join_pair parts))%nat.
Proof.
  destruct parts as [|p ps]; simpl; [lia|]. rewrite length_app.
  assert (2 * length ps <= length (concat ((fun q => [x2c; x09] ++ q) <$> ps)))%nat; [|simpl in *; lia].
  induction ps as [|q ps IH]; cbn [fmap list_fmap concat length app]; [lia|].
  rewrite length_app. simpl in *. lia.
Qed.

Lemma length_meta_text cs : (10 * (length cs - 1) <= length (meta_text cs))%nat.
Proof.
  unfold meta_text, meta_line. repeat (rewrite length_app || cbn [length]).
  pose proof (length_join_pair (ct_table <$> cs)). pose proof (length_join_pair (ct_name <$> cs)).
  pose proof (length_join_pair (ct_type <$> cs)). pose proof (length_join_pair (ct_length <$> cs)).
  pose proof (length_join_pair (ct_sizes <$> cs)).
  rewrite !length_fmap in *. lia.
Qed.

(** A data reply as the server writes it: the header (with any further numbers),
    the metadata of the columns, then the rows. *)
Definition data_reply (rid total included : Z) (extra : list Z) (cs : list column_text)
    (rows : bytes) : bytes :=
  bs "&1 " ++ show_nums (rid :: total :: Z.of_nat (length cs) :: included :: extra) ++ x0a ::
  meta_text cs ++ rows.

Lemma parse_data_reads prep d rid total included extra cs cols rows b :
  is_digit d = true -> cs <> [] -> Forall plain_column cs ->
  Forall2 (fun c col => build_column c = Ok col) cs cols ->
  0 <= rid < 2 ^ 64 -> 0 <= included <= total -> total < 2 ^ 64 ->
  Forall (fun m => 0 <= m) extra -> head rows <> Some x3d ->
  wf_buf b ->
  peek b = (x26 :: d :: x20 :: show_nums (rid :: total :: Z.of_nat (length cs) :: included :: extra))
           ++ x0a :: meta_text cs ++ rows ->
  exists b' b'', parse_data prep b =
      (Ok (Data (MkResultSet rid prep 0 total included cols (rowset_new b' (length cols)) None
              (if negb prep && (included <? total) then Some rid else None))), b'') /\
    wf_buf b' /\ peek b' = rows.
Proof.
  intros Hd Hne Hpl Hb Hrid Hinc Htot Hex Hrows Hwf Hp.
  assert (Z.of_nat (length (peek b)) < 2 ^ 63) as Hlim.
  { rewrite length_peek. destruct Hwf. lia. }
  assert (Z.of_nat (10 * (length cs - 1)) < 2 ^ 63) as Hcs.
  { pose proof (length_meta_text cs). apply (f_equal length) in Hp.
    rewrite length_app in Hp. cbn [length] in Hp. rewrite length_app in Hp. lia. }
  destruct (parse_header_reads d u64 [rid; total; Z.of_nat (length cs); included] extra b
    (meta_text cs ++ rows)) as (b1 & R1 & W1 & Q1); try done.
  { rewrite !Forall_cons, !in_u64. repeat split; try lia. by apply Forall_nil. }
  unfold parse_data, sbind at 1. cbn [length] in R1. rewrite R1.
  unfold sbind at 1, sget. unfold sbind at 1, slift. unfold check_data_fields.
  replace (total <? included) with false by (symmetry; apply Z.ltb_ge; lia).
  replace (ty_max usize <? Z.of_nat (length cs)) with false.
  2: { symmetry. apply Z.ltb_ge. change (ty_max usize) with (2 ^ 64 - 1). lia. }
  assert (Z.of_nat (length (peek b1)) <? saturate usize (Z.max 0 (Z.of_nat (length cs) - 1) * 10) = false) as ->.
  { apply Z.ltb_ge. rewrite Q1, length_app. pose proof (length_meta_text cs). unfold saturate. lia. }
  rewrite Nat2Z.id.
  destruct (parse_columns_reads cs cols b1 rows Hne Hpl Hb W1 Q1) as (b2 & R2 & W2 & Q2).
  unfold sbind at 1. rewrite R2. unfold sbind. rewrite Q2.
  assert (starts_with (bs "=") rows = false) as ->.
  { apply not_true_iff_false. intros [l ->]%starts_with_spec. done. }
  exists b2, b2. done.
Qed.

(** C10: A result set as the server sends it is understood: the identifier, the row
    counts and the metadata of every column (quoted names decoded, the width of
    VARCHAR and the precision of DECIMAL filled in), with the rows left to be
    read; the result is to be closed on the server exactly when it was not sent
    whole. *)
Theorem data_reply_parsed `{BstrLines} rid total included extra cs cols rows :
  cs <> [] -> Forall plain_column cs ->
  Forall2 (fun c col => build_column c = Ok col) cs cols ->
  0 <= rid < 2 ^ 64 -> 0 <= included <= total -> total < 2 ^ 64 ->
  Forall (fun m => 0 <= m) extra -> head rows <> Some x3d ->
  Z.of_nat (length (data_reply rid total included extra cs rows)) < 2 ^ 63 ->
  exists b, parser_new (data_reply rid total included extra cs rows) =
    Ok (Data (MkResultSet rid false 0 total included cols (rowset_new b (length cols)) None
                (if included <? total then Some rid else None))) /\
    wf_buf b /\ peek b = rows.
Proof.
  intros Hne Hpl Hb Hrid Hinc Htot Hex Hrows Hlen.
  destruct (parse_data_reads false x31 rid total included extra cs cols rows
    (buf_new (data_reply rid total included extra cs rows))) as (b & b'' & Hrun & Hw & Hp); try done.
  { by apply wf_buf_new. }
  exists b. split; [|done]. unfold parser_new, parse.
  change (peek (buf_new (data_reply rid total included extra cs rows)))
    with (data_reply rid total included extra cs rows).
  rewrite decide_False by done.
  change (starts_with (bs "&1") (data_reply rid total included extra cs rows)) with true.
  cbv iota. rewrite Hrun. done.
Qed.

(** A two-column result: the quoted name and the types of the module's tests. *)
Definition sample_columns : list column_text :=
  [ColumnText (bs "sys.t") ([x22] ++ bs "a b" ++ [x22]) (bs "varchar") (bs "10") (bs "10 0");
   ColumnText (bs "sys.t") (bs "price") (bs "decimal") (bs "8") (bs "5 2")].

Lemma data_reply_parsed_witness :
  exists b, @parser_new (fun l => [l])
      (data_reply 3 100 10 [0; 55] sample_columns (bs "[ 1,")) =
    Ok (Data (MkResultSet 3 false 0 100 10
      [MkColumn (bs "sys.t") (bs "a b") (Varchar 10); MkColumn (bs "sys.t") (bs "price") (Decimal 5 2)]
      (rowset_new b 2) None (Some 3))) /\ wf_buf b /\ peek b = bs "[ 1,".
Proof.
  apply (@data_reply_parsed (fun l => [l]) 3 100 10 [0; 55] sample_columns
    [MkColumn (bs "sys.t") (bs "a b") (Varchar 10); MkColumn (bs "sys.t") (bs "price") (Decimal 5 2)]).
  - done.
  - repeat constructor.
  - repeat constructor.
  - lia.
  - lia.
  - lia.
  - repeat constructor; lia.
  - done.
  - vm_compute. done.
Defined.

(** A quoted column name may hold the separator of the metadata line: the line is cut
    at its first occurrence, inside the quotes, and the reply is refused. *)
Lemma quoted_hash_refused :
  (parse_data_header "name" [column_empty] set_column_name
     (buf_new (meta_line "name" [quote_name (bs "a # b")] ++ [x0a]))).1 =
  Err (InvalidHeader [Lit "expected '"; Lit "name"; Lit "' header, found ";
                      Arg (bs "b" ++ [x22] ++ bs " # name")]).
Proof. by vm_compute. Qed.
