(* ===== verification/ReplyProgress.v ===== *)
(** * Stepping through the replies of a response

    Parsing any bytes returns a parser or an error, every parser that comes out is
    well formed, and the step to the next reply consumes at least one line, with
    one exception: a reply of unsliced rows (EXPLAIN) that were not read is not
    skipped by [RowSet::finish], so that [Cursor::exhaust] never ends on it. *)

From Stdlib Require Import ZArith Lia.
From stdpp Require Import sets.
From S2P Require Import Prelude Bytes Blockstate IO Decimal Errors MonetTypes ReplyBuf RowSet Replies.

Open Scope Z_scope.

(** ** Parsing never panics *)

Lemma parse_items_returns t line n i parts count : returns (parse_items t line n i parts count).
Proof.
  revert i parts. induction count as [|count IH]; intros i parts; [done|]. simpl.
  destruct parts as [|p parts]; [done|]. destruct (parse_int t p); [|done].
  specialize (IH (S i) parts). by destruct (parse_items _ _ _ _ parts count).
Qed.

Lemma parse_items_length t line n i parts count vs :
  parse_items t line n i parts count = Ok vs -> length vs = count.
Proof.
  revert i parts vs. induction count as [|count IH]; intros i parts vs; simpl.
  { by intros [= <-]. }
  destruct parts as [|p parts]; [done|]. destruct (parse_int t p); [|done].
  intros (ws & Hw & [= <-])%res_bind_ok. simpl. f_equal. by eapply IH.
Qed.

Lemma parse_header_line_cases t line n :
  (exists rest, parse_header_line t line n = parse_items t line n 0 (split_on x20 rest) n) \/
  exists e, parse_header_line t line n = Err e.
Proof.
  unfold parse_header_line.
  destruct line as [|a [|d [|c rest]]]; try (right; destruct a; eauto; fail);
    try (right; by eauto).
  destruct a; try (right; by eauto). destruct c; try (right; by eauto).
  destruct (is_digit d); eauto.
Qed.

Lemma update_columns_returns f i parts cols :
  (forall col s, returns (f col s)) -> returns (update_columns f i parts cols).
Proof.
  intros Hf. revert i cols. induction parts as [|p parts IH]; intros i [|c cols]; try done.
  simpl. specialize (Hf c p). destruct (f c p) as [c'| | |]; try done.
  specialize (IH (S i) cols). by destruct (update_columns f (S i) parts cols).
Qed.

(** ** Well-formed parsers, and progress *)

(** [b'] is [b] after one or more whole lines were consumed. *)
Definition line_later (b b' : ReplyBuf) : Prop :=
  wf_buf b' /\ data b' = data b /\ exists a, peek b = a ++ x0a :: peek b'.

Lemma line_later_trans b1 b2 b3 : line_later b1 b2 -> line_later b2 b3 -> line_later b1 b3.
Proof.
  intros (W1 & D1 & a1 & H1) (W2 & D2 & a2 & H2). split; [done|]. split; [congruence|].
  exists (a1 ++ x0a :: a2). by rewrite H1, H2, <- app_assoc.
Qed.

(** A computation that returns, and on success leaves the buffer some lines later. *)
Definition by_lines {A} (Q : A -> ReplyBuf -> Prop) (m : reply A) (b : ReplyBuf) : Prop :=
  returns (m b).1 /\ forall a, (m b).1 = Ok a -> line_later b (m b).2 /\ Q a (m b).2.

Lemma by_lines_split c ctx b :
  wf_buf b -> c = x0a -> by_lines any (split_str c ctx) b.
Proof.
  intros Hwf ->. unfold by_lines, split_str, sbind.
  destruct (memchr x0a (peek b)) as [i|] eqn:Em.
  - apply memchr_Some in Em as (a & rest & Hp & _ & Hni).
    rewrite (split_found x0a b a rest), <- Nat.add_assoc by done. unfold slift, from_utf8.
    destruct (utf8_valid a); simpl; [|done]. split; [done|]. intros ? [= <-].
    assert (length a + 1 <= length (peek b))%nat by (rewrite Hp, length_app; simpl; lia).
    split; [|done]. split; [by apply wf_consume|]. split; [done|].
    exists a. by rewrite peek_consume, Hp, <- drop_drop, drop_app_length.
  - apply memchr_None in Em. by rewrite split_missing.
Qed.

Lemma by_lines_bind {A B} (P : A -> ReplyBuf -> Prop) (Q : B -> ReplyBuf -> Prop) m k b :
  by_lines P m b ->
  (forall a b', wf_buf b' -> P a b' -> returns (k a b').1 /\
     forall r, (k a b').1 = Ok r -> ((k a b').2 = b' \/ line_later b' (k a b').2) /\ Q r (k a b').2) ->
  by_lines Q (sbind m k) b.
Proof.
  intros [Hr Hl] Hk. unfold by_lines, sbind.
  destruct (m b) as [[a|e| |] b1] eqn:E; simpl in *; try done.
  destruct (Hl a eq_refl) as [Hl1 HP]. destruct (Hk a b1) as [Hr2 Hq]; [apply Hl1|done|].
  split; [done|]. intros r Hrun. destruct (Hq r Hrun) as [[E2|Hl2] HQ].
  - by rewrite E2 in *.
  - split; [by eapply line_later_trans|done].
Qed.

Lemma parse_header_line_returns t line n : returns (parse_header_line t line n).
Proof.
  destruct (parse_header_line_cases t line n) as [[rest ->]|[e ->]]; [apply parse_items_returns|done].
Qed.

Lemma by_lines_header t n b :
  wf_buf b -> by_lines (fun vs _ => length vs = n) (parse_header t n) b.
Proof.
  intros Hwf. unfold parse_header. eapply by_lines_bind; [by apply by_lines_split|].
  intros line b' Hw _. unfold slift. simpl. split; [apply parse_header_line_returns|].
  intros vs Hvs. split; [by left|].
  destruct (parse_header_line_cases t (trim_ascii line) n) as [[rest E]|[e E]]; rewrite E in Hvs; [|done].
  by eapply parse_items_length.
Qed.

Lemma by_lines_data_header kind cols f b :
  (forall col s, returns (f col s)) -> wf_buf b -> by_lines any (parse_data_header kind cols f) b.
Proof.
  intros Hf Hwf. unfold parse_data_header.
  assert ((do? raw := split x0a in do? line := slift (from_utf8 "data header line" raw) in
    match strip_prefix (bs "% ") line with
    | None => sfail (UnexpectedHeader line)
    | Some line => match split_once (bs " # ") line with
      | None => sfail (InvalidHeader [Lit "expected '# ' in data header"])
      | Some (body, kd) => if decide (kd <> bs kind) then
          sfail (InvalidHeader [Lit "expected '"; Lit kind; Lit "' header, found "; Arg kd])
        else slift (update_columns f 0 (split_pair x2c x09 body) cols)
      end
    end) b =
    (do? line := split_str x0a "data header line" in
    match strip_prefix (bs "% ") line with
    | None => sfail (UnexpectedHeader line)
    | Some line => match split_once (bs " # ") line with
      | None => sfail (InvalidHeader [Lit "expected '# ' in data header"])
      | Some (body, kd) => if decide (kd <> bs kind) then
          sfail (InvalidHeader [Lit "expected '"; Lit kind; Lit "' header, found "; Arg kd])
        else slift (update_columns f 0 (split_pair x2c x09 body) cols)
      end
    end) b) as Heq.
  { unfold split_str, sbind. by destruct (split x0a b) as [[]]. }
  unfold by_lines. rewrite Heq. eapply by_lines_bind; [by apply by_lines_split|].
  intros line b' Hw _. destruct (strip_prefix _ line) as [l|]; [|done].
  destruct (split_once _ l) as [[body kd]|]; [|done]. case_decide; [done|]. unfold slift. simpl.
  split; [by apply update_columns_returns|]. intros; split; [by left|done].
Qed.

Lemma updaters_return :
  (forall col s, returns (set_table_name col s)) /\ (forall col s, returns (set_column_name col s)) /\
  (forall col s, returns (set_type col s)) /\ (forall col s, returns (set_length col s)) /\
  (forall col s, returns (set_typesizes col s)).
Proof.
  assert (forall l, returns (decode_chars l)) as Hdec.
  { induction l as [l IH] using (induction_ltof1 _ length). unfold ltof in IH.
    destruct l as [|c l]; [done|]. simpl. case_decide.
    - pose proof (IH l ltac:(simpl; lia)). by destruct (decode_chars l).
    - destruct l as [|e l]; [done|]. case_decide; [|done].
      pose proof (IH l ltac:(simpl; lia)). by destruct (decode_chars l). }
  repeat split; intros col s.
  - unfold set_column_name, decode_column_name. destruct (negb _); [done|].
    destruct (_ ≫= _) as [inner|]; [|done]. specialize (Hdec inner). by destruct (decode_chars inner).
  - unfold set_type. by destruct (from_mapi_code s).
  - unfold set_length. destruct (typ col); try done. unfold parse_num. by destruct (parse_int u32 s).
  - unfold set_typesizes. destruct (typ col); try done. destruct (split_once _ s) as [[pr sc]|]; [|done].
    unfold parse_num. destruct (parse_int u8 pr); [|done]. simpl. by destruct (parse_int u8 sc).
Qed.

Lemma by_lines_columns n b : wf_buf b -> by_lines any (parse_columns n) b.
Proof.
  intros Hwf. destruct updaters_return as (U1 & U2 & U3 & U4 & U5). unfold parse_columns.
  assert (forall A (Q : A -> ReplyBuf -> Prop) m b, by_lines Q m b ->
    returns (m b).1 /\ forall r, (m b).1 = Ok r -> ((m b).2 = b \/ line_later b (m b).2) /\ Q r (m b).2)
    as Hweak.
  { intros A Q m b0 [Hr Hl]. split; [done|]. intros r Hrun. destruct (Hl r Hrun). auto. }
  eapply by_lines_bind; [by apply by_lines_data_header|]. intros c1 b1 Hw1 _. apply Hweak.
  eapply by_lines_bind; [by apply by_lines_data_header|]. intros c2 b2 Hw2 _. apply Hweak.
  eapply by_lines_bind; [by apply by_lines_data_header|]. intros c3 b3 Hw3 _. apply Hweak.
  eapply by_lines_bind; [by apply by_lines_data_header|]. intros c4 b4 Hw4 _.
  unfold sbind, sget. destruct (negb _); [apply Hweak; by apply by_lines_data_header|].
  simpl. split; [done|]. intros; split; [by left|done].
Qed.

(** The contract of [bstr]'s lines used here: something has a first line. *)
Class BstrLaws `{BstrLines} := bstr_lines_some l : l <> [] -> bstr_lines l <> [].

(** The buffer in which a reply was found. *)
Definition reply_buf (p : ReplyParser) : ReplyBuf :=
  match p with
  | Exhausted vec => buf_new vec
  | ReplyError b | Success b _ | Tx b => b
  | Data rs => rs_buf (row_set rs)
  end.

Definition wf_parser (p : ReplyParser) : Prop :=
  wf_buf (reply_buf p) /\
  match p with
  | Data rs => wf_rows (row_set rs) /\ stashed rs = None
  | _ => True
  end.

(** A reply whose header was consumed. *)
Definition parsed_later (buf : ReplyBuf) (p : ReplyParser) : Prop :=
  wf_parser p /\ line_later buf (reply_buf p).

(** A parser that reads header lines and then packs up the buffer. *)
Lemma by_lines_pack {A} (P : A -> ReplyBuf -> Prop) (m : reply A) (pack : A -> ReplyBuf -> ReplyParser) b :
  by_lines P m b ->
  (forall a b', wf_buf b' -> P a b' -> wf_parser (pack a b') /\ reply_buf (pack a b') = b') ->
  let r := ((do? a := m in do? buf := sget in sret (pack a buf)) b).1 in
  returns r /\ forall p, r = Ok p -> parsed_later b p.
Proof.
  intros [Hr Hl] Hk. cbv zeta. unfold sbind, sget, sret.
  destruct (m b) as [[a|e| |] b1] eqn:E; simpl in *; try done.
  destruct (Hl a eq_refl) as [Hl1 HP]. split; [done|]. intros p [= <-].
  destruct (Hk a b1) as [Hw Hb]; [apply Hl1|done|]. split; [done|]. by rewrite Hb.
Qed.

Lemma wf_parser_simple p :
  match p with Data _ => False | _ => True end -> wf_buf (reply_buf p) -> wf_parser p.
Proof. by destruct p. Qed.

Lemma parse_data_later prep b :
  wf_buf b -> let r := (parse_data prep b).1 in returns r /\ forall p, r = Ok p -> parsed_later b p.
Proof.
  intros Hwf. remember (parse_data prep b).1 as r eqn:Er. cbv zeta. unfold parse_data in Er.
  destruct (by_lines_header u64 4 b Hwf) as [Hr Hl]. unfold sbind at 1 in Er.
  destruct (parse_header u64 4 b) as [[fields|e| |] b1]; simpl in Hr, Hl; try done; [|by subst r].
  destruct (Hl fields eq_refl) as [Hl1 H4]. unfold sbind at 1, sget in Er.
  unfold sbind at 1, slift in Er.
  destruct fields as [|f1 [|f2 [|f3 [|f4 [|]]]]]; try done. unfold check_data_fields in Er.
  destruct (f2 <? f4); [by subst r|]. destruct (ty_max usize <? f3); [by subst r|].
  destruct (_ <? _); [by subst r|].
  assert (wf_buf b1) as Hw1 by apply Hl1.
  destruct (by_lines_columns (Z.to_nat f3) b1 Hw1) as [Hr2 Hl2]. unfold sbind at 1 in Er.
  destruct (parse_columns (Z.to_nat f3) b1) as [[cols|e| |] b2]; simpl in Hr2, Hl2; try done;
    [|by subst r].
  destruct (Hl2 cols eq_refl) as [Hl2' _]. unfold sbind, sret in Er. simpl in Er. subst r.
  split; [done|]. intros p [= <-]. assert (wf_buf b2) as Hw2 by apply Hl2'.
  assert (line_later b b2) as Hlater by (by eapply line_later_trans).
  unfold parsed_later, wf_parser. simpl. destruct (starts_with (bs "=") (peek b2)); simpl;
    (split; [|exact Hlater]); (split; [done|]); (split; [|done]);
    auto using wf_rows_noslice, wf_rows_new.
Qed.

Section Progress.
Context `{BstrLaws}.

Lemma parse_simple_later b :
  wf_buf b ->
  (forall m, m = parse_successful_update \/ m = parse_successful_other \/
     m = parse_autocommit_status \/ m = parse_error \/ m = parse_ok ->
   let r := (m b).1 in returns r /\ forall p, r = Ok p -> parsed_later b p).
Proof.
  intros Hwf m Hm. cbv zeta. destruct Hm as [-> |[-> |[-> |[-> | ->]]]].
  - apply (by_lines_pack (fun vs _ => length vs = 1%nat) (parse_header i64 1) (fun fields buf => Success buf (head fields)));
      [by apply by_lines_header|]. intros. split; [by apply wf_parser_simple|done].
  - apply (by_lines_pack (fun vs _ => length vs = 0%nat) (parse_header i64 0) (fun _ buf => Success buf None));
      [by apply by_lines_header|]. intros. split; [by apply wf_parser_simple|done].
  - remember (parse_autocommit_status b).1 as r eqn:Er. unfold parse_autocommit_status, sbind at 1 in Er.
    destruct (by_lines_split x0a "header line" b Hwf eq_refl) as [Hr Hl].
    destruct (split_str x0a "header line" b) as [[line|e| |] b1]; simpl in Hr, Hl; try done; [|by subst r].
    destruct (Hl line eq_refl) as [Hl1 _]. destruct (parse_autocommit_line _); simpl in Er; subst r; [|done].
    split; [done|]. intros p [= <-]. split; [apply wf_parser_simple; [done|apply Hl1]|done].
  - apply (by_lines_pack any (split_str x0a "error header") (fun _ buf => ReplyError buf));
      [by apply by_lines_split|]. intros. split; [by apply wf_parser_simple|done].
  - remember (parse_ok b).1 as r eqn:Er. unfold parse_ok, sbind at 1 in Er.
    destruct (by_lines_split x0a "success line" b Hwf eq_refl) as [Hr Hl].
    destruct (split_str x0a "success line" b) as [[line|e| |] b1]; simpl in Hr, Hl; try done; [|by subst r].
    destruct (Hl line eq_refl) as [Hl1 _]. case_decide; simpl in Er; subst r; [done|].
    split; [done|]. intros p [= <-]. split; [apply wf_parser_simple; [done|apply Hl1]|done].
Qed.

(** What [parse] gives: an error, the end, or a reply some lines later; the
    exception is a reply of unsliced rows, which starts right here. *)
Lemma parse_cases buf :
  wf_buf buf ->
  returns (parse buf) /\
  forall p, parse buf = Ok p ->
    (p = Exhausted [] /\ peek buf = []) \/ parsed_later buf p \/
    (wf_parser p /\ starts_with (bs "=") (peek buf) = true /\
     exists rs, p = Data rs /\ row_set rs = new_noslice buf).
Proof.
  intros Hwf. unfold parse.
  assert (forall m : reply ReplyParser, (returns (m buf).1 /\ forall p, (m buf).1 = Ok p -> parsed_later buf p) ->
    returns (m buf).1 /\ forall p, (m buf).1 = Ok p ->
    (p = Exhausted [] /\ peek buf = []) \/ parsed_later buf p \/
    (wf_parser p /\ starts_with (bs "=") (peek buf) = true /\
     exists rs, p = Data rs /\ row_set rs = new_noslice buf)) as Hm by naive_solver.
  case_decide as Hnil; [split; [done|]; intros p [= <-]; by left|].
  destruct (starts_with (bs "&1") _); [by apply Hm, parse_data_later|].
  destruct (starts_with (bs "&2") _); [apply Hm, parse_simple_later; auto|].
  destruct (starts_with (bs "&3") _); [apply Hm, parse_simple_later; auto|].
  destruct (starts_with (bs "&4") _); [apply Hm, parse_simple_later; auto|].
  destruct (starts_with (bs "&5") _); [by apply Hm, parse_data_later|].
  destruct (starts_with (bs "!") _); [apply Hm, parse_simple_later; auto 6|].
  destruct (starts_with (bs "=OK" ++ [x0a]) _); [apply Hm, parse_simple_later; auto 6|].
  destruct (starts_with (bs "=") _) eqn:Eq.
  - unfold parse_noslice, sbind, sget, slift. destruct (checked u64 _); simpl; [|done].
    split; [done|]. intros p [= <-]. right; right. split; [|eauto].
    split; [done|]. split; [by apply wf_rows_noslice|done].
  - pose proof (bstr_lines_some (peek buf) Hnil). by destruct (bstr_lines (peek buf)).
Qed.

Lemma find_line_spec b first i :
  find_line b first = Some i ->
  (i <= length (peek b))%nat /\ exists l, drop i (peek b) = first :: l.
Proof.
  unfold find_line. destruct (peek b) as [|c l] eqn:Ep; [done|]. case_decide as Hc.
  - intros [= <-]. subst c. simpl. split; [lia|by exists l].
  - rewrite fmap_Some. intros (k & Hk & ->).
    assert (forall n l k, memmem [x0a; first] l = Some k -> (length l <= n)%nat ->
      (k + 1 <= length l)%nat /\ exists r, drop (k + 1) l = first :: r) as Hmem.
    { clear. induction n as [|n IH]; intros l k Hm Hl.
      - destruct l; [|simpl in Hl; lia]. done.
      - destruct l as [|d l]; [done|]. cbn [memmem] in Hm.
        destruct (starts_with [x0a; first] (d :: l)) eqn:Es.
        + injection Hm as <-. apply starts_with_spec in Es as [r E]. injection E as -> ->.
          simpl. split; [lia|by exists r].
        + apply fmap_Some in Hm as (k' & Hk' & ->). simpl in Hl.
          destruct (IH l k' Hk' ltac:(lia)) as [? ?]. simpl. split; [lia|done]. }
    by apply (Hmem (length (c :: l)) (c :: l) k).
Qed.

(** No line of the text starts with an equals sign. *)
Definition no_eq_line (l : bytes) : Prop :=
  starts_with (bs "=") l = false /\ memmem [x0a; x3d] l = None.

Lemma find_line_no_eq b : no_eq_line (peek b) -> find_line b x3d = None.
Proof.
  intros [Hs Hm]. unfold find_line. destruct (peek b) as [|c l]; [done|]. case_decide as Hc.
  - subst c. done.
  - by rewrite Hm.
Qed.

(** [finish] goes to the next line that starts a reply, or to the end. *)
Lemma finish_spec rs :
  wf_buf (rs_buf rs) ->
  exists b', rowset_finish rs = Ok b' /\ wf_buf b' /\ data b' = data (rs_buf rs) /\
    (exists a, peek (rs_buf rs) = a ++ peek b') /\
    (peek b' = [] \/ head (peek b') = Some x26 \/
     head (peek b') = Some x3d /\ find_line (rs_buf rs) x3d <> None).
Proof.
  intros Hwf. set (b := rs_buf rs) in *. unfold rowset_finish. fold b.
  assert (exists n, match option_min (find_line b x26) (find_line b x3d) with
      | Some idx => idx | None => length (peek b) end = n /\ (n <= length (peek b))%nat /\
      (drop n (peek b) = [] \/ head (drop n (peek b)) = Some x26 \/
       head (drop n (peek b)) = Some x3d /\ find_line b x3d <> None))
    as (n & -> & Hn & Hhead).
  { destruct (find_line b x26) as [i|] eqn:E1, (find_line b x3d) as [j|] eqn:E2; cbn [option_min];
      try (apply find_line_spec in E1 as [Hi (li & Hli)]);
      try (apply find_line_spec in E2 as [Hj (lj & Hlj)]); eexists; (split; [done|]).
    - split; [lia|]. destruct (Nat.min_spec i j) as [[_ ->]|[_ ->]]; rewrite ?Hli, ?Hlj; simpl; auto.
    - split; [done|]. rewrite Hli. simpl; auto.
    - split; [done|]. rewrite Hlj. simpl; auto.
    - split; [done|]. left. by rewrite drop_all. }
  rewrite consume_ok by done. simpl. eexists. split; [done|].
  split; [by apply wf_consume|]. split; [done|]. rewrite peek_consume. split; [|done].
  exists (take n (peek b)). by rewrite take_drop.
Qed.

Lemma memmem_suffix needle a l : memmem needle (a ++ l) = None -> memmem needle l = None.
Proof.
  induction a as [|c a IH]; [done|]. cbn [app memmem].
  destruct (starts_with needle (c :: a ++ l)); [done|]. intros Hm. apply fmap_None in Hm. auto.
Qed.

Lemma no_eq_line_later b b' : no_eq_line (peek b) -> line_later b b' -> no_eq_line (peek b').
Proof.
  intros [_ Hm] (_ & _ & a & E). rewrite E in Hm. apply memmem_suffix in Hm. split.
  - apply not_true_iff_false. intros [r Hr]%starts_with_spec.
    rewrite (memmem_here [x0a; x3d]) in Hm; [done|]. rewrite Hr. by apply starts_with_spec; exists r.
  - by apply (memmem_suffix _ [x0a]) in Hm.
Qed.

(** The buffer from which the next reply is parsed. *)
Lemma next_buffer p :
  wf_parser p ->
  exists b close, into_next_reply p = (let? q := parse b in Ok (q, close)) /\ wf_buf b /\
    (exists a, peek (reply_buf p) = a ++ peek b) /\
    (no_eq_line (peek (reply_buf p)) -> no_eq_line (peek b)).
Proof.
  intros [Hwf Hp]. destruct p as [vec|b|b aff|rs|b]; cbn [into_next_reply reply_buf] in *;
    try (eexists _, None; split; [done|]; split; [done|]; split; [by exists []|done]).
  destruct Hp as [Hrows Hst]. rewrite Hst.
  destruct (finish_spec (row_set rs) Hwf) as (b & -> & Hwb & _ & Hsuf & Hhead).
  exists b, (to_close rs). split; [done|]. split; [done|]. split; [done|].
  intros Hno. pose proof (find_line_no_eq _ Hno) as Hf. destruct Hsuf as [a E].
  destruct Hno as [_ Hm]. rewrite E in Hm. apply memmem_suffix in Hm. split; [|done].
  apply not_true_iff_false. intros [r Hr]%starts_with_spec. rewrite Hr in Hhead. naive_solver.
Qed.

(** One step to the next reply. *)
Lemma next_reply_step p :
  wf_parser p ->
  returns (into_next_reply p) /\
  forall q close, into_next_reply p = Ok (q, close) ->
    wf_parser q /\
    (no_eq_line (peek (reply_buf p)) ->
     q = Exhausted [] \/
     (no_eq_line (peek (reply_buf q)) /\
      (length (peek (reply_buf q)) < length (peek (reply_buf p)))%nat)).
Proof.
  intros Hwf. destruct (next_buffer p Hwf) as (b & close & Hrun & Hwb & (a & Ha) & Hno).
  destruct (parse_cases b Hwb) as [Hret Hcases]. rewrite Hrun.
  destruct (parse b) as [q|e| |]; try done. split; [done|]. intros q' c' [= <- <-].
  destruct (Hcases q eq_refl) as [[-> Hnil]|[[Hwq Hl]|(Hwq & Heq & _)]].
  - split; [|auto]. split; [|done]. apply wf_buf_new. simpl. lia.
  - split; [done|]. intros Hne. right. split; [by eapply no_eq_line_later; [apply Hno|]|].
    destruct Hl as (_ & _ & a' & E). rewrite Ha, E, !length_app. simpl. lia.
  - split; [done|]. intros Hne. destruct (Hno Hne) as [Hs _]. congruence.
Qed.

Lemma exhaust_fuel fuel p :
  wf_parser p -> no_eq_line (peek (reply_buf p)) ->
  (length (peek (reply_buf p)) < fuel)%nat ->
  match exhaust fuel p with
  | Ok (_, final) => exists vec, final = Exhausted vec
  | Err _ => True
  | _ => False
  end.
Proof.
  revert p. induction fuel as [|fuel IH]; intros p Hwf Hno Hf; [lia|].
  destruct (next_reply_step p Hwf) as [Hret Hstep].
  assert (match (let? (q, close) := into_next_reply p in
      let? (closes, final) := exhaust fuel q in
      Ok (match close with Some id => id :: closes | None => closes end, final)) with
    | Ok (_, final) => exists vec, final = Exhausted vec
    | Err _ => True
    | _ => False
    end) as Hmain.
  { destruct (into_next_reply p) as [[q close]|e| |]; try done. simpl.
    destruct (Hstep q close eq_refl) as [Hwq Hq].
    destruct (Hq Hno) as [->|[Hnq Hlen]].
    - destruct fuel; simpl; by eexists.
    - specialize (IH q Hwq Hnq ltac:(lia)). by destruct (exhaust fuel q) as [[]| | |]. }
  destruct p; cbn [exhaust]; try exact Hmain. by eexists.
Qed.

(** C11: From any well-formed parser the step to the next reply returns a well-formed
    parser or an error: no byte of a response, well formed or not, makes it
    panic, and the row ranges it hands out stay inside the response. *)
Theorem next_reply_safe vec p :
  Z.of_nat (length vec) < 2 ^ 63 -> wf_parser p ->
  returns (parser_new vec) /\ (forall q, parser_new vec = Ok q -> wf_parser q) /\
  returns (into_next_reply p) /\
  (forall q close, into_next_reply p = Ok (q, close) -> wf_parser q).
Proof.
  intros Hlen Hwf. destruct (parse_cases (buf_new vec) (wf_buf_new vec Hlen)) as [Hret Hcases].
  destruct (next_reply_step p Hwf) as [Hret2 Hstep].
  split; [done|]. split; [|split; [done|]].
  - intros q Hq. destruct (Hcases q Hq) as [[-> _]|[[? _]|[? _]]]; try done.
  - intros q close Hq. by destruct (Hstep q close Hq).
Qed.

(** C39: Stepping through all replies ends: on a response in which no line starts with
    an equals sign, [exhaust] returns after at most as many steps as there are
    bytes, with no reply left. *)
Theorem exhaust_terminates vec p :
  Z.of_nat (length vec) < 2 ^ 63 -> no_eq_line vec -> parser_new vec = Ok p ->
  match exhaust (S (length vec)) p with
  | Ok (_, final) => exists v, final = Exhausted v
  | Err _ => True
  | _ => False
  end.
Proof.
  intros Hlen Hno Hp.
  destruct (parse_cases (buf_new vec) (wf_buf_new vec Hlen)) as [_ Hcases].
  destruct (Hcases p Hp) as [[-> _]|[[Hw Hl]|(_ & Heq & _)]].
  - by eexists.
  - apply exhaust_fuel; [done|by eapply (no_eq_line_later (buf_new vec))|].
    destruct Hl as (_ & _ & a & E). apply (f_equal length) in E.
    change (peek (buf_new vec)) with vec in E. rewrite length_app in E. simpl in E. lia.
  - destruct Hno as [Hs _]. change (peek (buf_new vec)) with vec in Heq. congruence.
Qed.

(** The exception: after a reply of unsliced rows, as EXPLAIN gives, whose rows
    have not been read, the step to the next reply gives the same reply again,
    so that [exhaust] (called by the next [execute], by [close] and by [drop])
    never ends, whatever number of steps it is given. *)
Theorem exhaust_never_ends vec :
  Z.of_nat (length vec) < 2 ^ 63 -> starts_with (bs "=") vec = true ->
  starts_with (bs "=OK" ++ [x0a]) vec = false ->
  (exists z, checked u64 (Z.of_nat (count_while (starts_with (bs "=")) (bstr_lines vec))) = Some z) ->
  exists p, parser_new vec = Ok p /\ into_next_reply p = Ok (p, None) /\
    forall fuel, exhaust fuel p = NoFuel.
Proof.
  intros Hlen Heq Hok (z & Hz). apply starts_with_spec in Heq as [l ->].
  change (bs "=" ++ l) with (x3d :: l) in *. set (vec := x3d :: l) in *.
  assert (forall b, peek b = vec -> (parse b) = (parse_noslice b).1) as Hparse.
  { intros b Hb. unfold parse. rewrite Hb, Hok. rewrite decide_False by done. done. }
  set (rs := MkResultSet 0 false 0
    (Z.of_nat (count_while (starts_with (bs "=")) (bstr_lines vec)))
    (Z.of_nat (count_while (starts_with (bs "=")) (bstr_lines vec)))
    [column_new (bs "rel") (Varchar 0)] (new_noslice (buf_new vec)) None None).
  assert (parse (buf_new vec) = Ok (Data rs)) as Hp.
  { rewrite Hparse by done. unfold parse_noslice, sbind, sget, slift.
    change (peek (buf_new vec)) with vec. by rewrite Hz. }
  assert (into_next_reply (Data rs) = Ok (Data rs, None)) as Hnext.
  { cbn [into_next_reply stashed rs row_set to_close]. unfold rowset_finish, new_noslice. cbn [rs_buf].
    assert (option_min (find_line (buf_new vec) x26) (find_line (buf_new vec) x3d) = Some O) as ->.
    { change (find_line (buf_new vec) x3d) with (Some O).
      destruct (find_line (buf_new vec) x26); simpl; [|done]. by rewrite Nat.min_0_r. }
    rewrite consume_ok by (by apply wf_buf_new || simpl; lia).
    change (MkBuf (data (buf_new vec)) (pos (buf_new vec) + 0)) with (buf_new vec).
    cbn [res_bind]. by rewrite Hp. }
  exists (Data rs). split; [done|]. split; [done|].
  induction fuel as [|fuel IH]; [done|]. cbn [exhaust]. rewrite Hnext. simpl. by rewrite IH.
Qed.

End Progress.

Lemma first_line_laws : @BstrLaws (fun l => [l]).
Proof. by intros l _. Qed.

Lemma next_reply_safe_witness :
  returns (@parser_new (fun l => [l]) (bs "&9")) /\
  returns (@into_next_reply (fun l => [l]) (Tx (buf_new (bs "&1 x")))).
Proof.
  destruct (@next_reply_safe (fun l => [l]) first_line_laws (bs "&9") (Tx (buf_new (bs "&1 x"))))
    as (H1 & _ & H2 & _); [vm_compute; done| |exact (conj H1 H2)].
  split; [|done]. apply wf_buf_new. vm_compute. done.
Defined.

Lemma exhaust_terminates_witness :
  match @exhaust (fun l => [l]) (S (length (bs "&2 1" ++ [x0a] ++ bs "&4 t" ++ [x0a])))
    (Success (MkBuf (bs "&2 1" ++ [x0a] ++ bs "&4 t" ++ [x0a]) 5) (Some 1)) with
  | Ok (_, final) => exists v, final = Exhausted v
  | Err _ => True
  | _ => False
  end.
Proof.
  apply (@exhaust_terminates (fun l => [l]) first_line_laws
    (bs "&2 1" ++ [x0a] ++ bs "&4 t" ++ [x0a])); vm_compute; done.
Defined.

Lemma exhaust_never_ends_witness :
  exists p, @parser_new (fun l => [l]) (bs "=plan" ++ [x0a]) = Ok p /\
    @into_next_reply (fun l => [l]) p = Ok (p, None) /\
    forall fuel, @exhaust (fun l => [l]) fuel p = NoFuel.
Proof.
  apply (@exhaust_never_ends (fun l => [l])); try (vm_compute; done). exists 1. by vm_compute.
Defined.
