(* ===== verification/Convert.v ===== *)
(** * Typed access to fields (src/convert/mod.rs, src/convert/raw_temporal.rs)

    [FromMonet::extract] for the integer types, floating point numbers, booleans,
    decimals, intervals, blobs and the temporal types, on the current row of a
    result set.  The [hex], [uuid], [rust_decimal] and [decimal_rs] crates are
    parameters. *)

From Stdlib Require Import ZArith Lia.
From S2P Require Import Prelude Bytes Blockstate IO Decimal Floats Errors.
From S2P Require Import MonetTypes ReplyBuf RowSet Replies Temporal.

Open Scope Z_scope.

(** [convert::from_utf8]. *)
Definition field_utf8 (field : bytes) : res CursorError bytes :=
  if utf8_valid field then Ok field else Err (BadReplyErr (Unicode "result set")).

Definition transform {A} (T : string) (f : bytes -> res message_text A) (field : bytes)
    : res CursorError (option A) :=
  let? s := field_utf8 field in
  match f s with
  | Ok value => Ok (Some value)
  | Err e => Err (conversion_error T e)
  | Panic => Panic
  | NoFuel => NoFuel
  end.

(** The [FromStr] of the types of the [fromstr_frommonet!] table. *)
Class FromStr (A : Type) := { type_name : string; from_str : bytes -> res message_text A }.

Definition transform_fromstr {A} `{FromStr A} (field : bytes) : res CursorError (option A) :=
  transform type_name from_str field.

(** [let Some(field) = rs.raw_value(colnr)? else { return Ok(None) }]. *)
Definition with_field {A} (rs : ResultSet) (colnr : nat) (k : bytes -> res CursorError (option A))
    : res CursorError (option A) :=
  let? field := raw_value rs colnr in
  match field with
  | None => Ok None
  | Some field => k field
  end.

(** The [extract] of the macro. *)
Definition extract_fromstr {A} `{FromStr A} (rs : ResultSet) (colnr : nat) : res CursorError (option A) :=
  with_field rs colnr transform_fromstr.

Definition int_from_str (t : int_type) (s : bytes) : res message_text Z :=
  res_map_err (fun e => [OfInt e]) (parse_num t s).
Definition FromStr_int (name : string) (t : int_type) : FromStr Z :=
  {| type_name := name; from_str := int_from_str t |}.

Definition bool_from_str (s : bytes) : res message_text bool :=
  if decide (s = bs "true") then Ok true
  else if decide (s = bs "false") then Ok false
  else Err [Lit "provided string was not `true` or `false`"].
Definition FromStr_bool : FromStr bool := {| type_name := "bool"; from_str := bool_from_str |}.

Definition FromStr_decimal (name : string) (t : int_type) : FromStr RawDecimal :=
  {| type_name := name; from_str := fun s => res_map_err (fun e => [OfDecimal e]) (dec_from_str t s) |}.

Definition FromStr_float (name : string) (f : float_format) : FromStr float :=
  {| type_name := name;
     from_str := fun s => res_map_err (fun e =>
       [Lit match e with
            | EmptyFloat => "cannot parse float from empty string"
            | InvalidFloat => "invalid float literal"
            end]) (float_from_str f s) |}.

(** The other crates: their parsers of the bytes or of the text of a field. *)
Definition extract_bytes {A} (T : string) (parse : bytes -> res bytes A) (rs : ResultSet) (colnr : nat)
    : res CursorError (option A) :=
  with_field rs colnr (fun field =>
    match parse field with
    | Ok v => Ok (Some v)
    | Err e => Err (conversion_error T [Arg e])
    | Panic => Panic
    | NoFuel => NoFuel
    end).

(** [impl FromMonet for uuid::Uuid]; [try_parse_ascii] is that of the crate. *)
Definition extract_uuid {Uuid} (try_parse_ascii : bytes -> res bytes Uuid) :=
  extract_bytes "uuid::Uuid" try_parse_ascii.

(** [impl FromMonet for] the two other decimal types; [f] is [Decimal::from_str]. *)
Definition extract_transform {A} (T : string) (f : bytes -> res message_text A) (rs : ResultSet) (colnr : nat)
    : res CursorError (option A) :=
  with_field rs colnr (transform T f).

Definition extract_rust_decimal {A} (from_str : bytes -> res message_text A) :=
  extract_transform "rust_decimal::Decimal" from_str.

Definition extract_decimal_rs {A} (from_str : bytes -> res message_text A) :=
  extract_transform "decimal_rs::Decimal" from_str.

(** [impl FromMonet for Vec<u8>]; [hex_decode] is [hex::decode]. *)
Definition extract_blob (hex_decode : bytes -> res bytes bytes) (rs : ResultSet) (colnr : nat)
    : res CursorError (option bytes) :=
  extract_bytes "Vec<u8>" hex_decode rs colnr.

(** [impl FromMonet for Duration]: the result is in milliseconds. *)
Definition extract_duration (rs : ResultSet) (colnr : nat) : res CursorError (option Z) :=
  let? decimal := @extract_fromstr _ (FromStr_decimal "RawDecimal<u64>" u64) rs colnr in
  match decimal with
  | None => Ok None
  | Some d =>
      match at_scale u64 d 3 with
      | None => Err (Conversion "Duration" [Lit "interval has precision finer than milliseconds"])
      | Some milliseconds => Ok (Some milliseconds)
      end
  end.

(** The [extract] of the temporal types. *)
Definition extract_temporal {A} (T : string) (p : parser A) (rs : ResultSet) (colnr : nat)
    : res CursorError (option A) :=
  with_field rs colnr (fun field => let? v := parse_field T p field in Ok (Some v)).

Section TemporalGetters.
Context `{Radix10}.

Definition extract_date := extract_temporal "RawDate" date_parse.
Definition extract_time := extract_temporal "RawTime" time_parse.
Definition extract_timestamp := extract_temporal "RawTimestamp" timestamp_parse.
Definition extract_timetz := extract_temporal "RawTimeTz" timetz_parse.
Definition extract_timestamptz := extract_temporal "RawTimestampTz" timestamptz_parse.

End TemporalGetters.

(** ** Theorems *)

Lemma with_field_value {A} rs colnr field (k : bytes -> res CursorError (option A)) :
  get_field_raw (row_set rs) colnr = Ok (Some field) -> with_field rs colnr k = k field.
Proof. unfold with_field, raw_value. by intros ->. Qed.

Lemma with_field_null {A} rs colnr (k : bytes -> res CursorError (option A)) :
  get_field_raw (row_set rs) colnr = Ok None -> with_field rs colnr k = Ok None.
Proof. unfold with_field, raw_value. by intros ->. Qed.

Lemma print_int_ascii z : forallb is_ascii (print_int z) = true.
Proof.
  assert (forall n, 0 <= n -> forallb is_ascii (print_dec n) = true) as Hd.
  { intros n Hn. pose proof (print_dec_digits n Hn) as H. rewrite forallb_forall in *.
    intros c Hc. by apply is_ascii_digit, H. }
  unfold print_int. destruct (Z.ltb_spec z 0); [simpl; apply Hd; lia|by apply Hd].
Qed.

Lemma extract_int_value rs colnr name t z :
  get_field_raw (row_set rs) colnr = Ok (Some (print_int z)) -> in_type t z = true ->
  @extract_fromstr _ (FromStr_int name t) rs colnr = Ok (Some z).
Proof.
  intros Hf Ht. unfold extract_fromstr. rewrite (with_field_value _ _ _ _ Hf).
  unfold transform_fromstr, transform, field_utf8.
  rewrite utf8_valid_ascii by apply print_int_ascii. simpl.
  unfold int_from_str, parse_num. by rewrite parse_print_int.
Qed.

(** An integer column reads back exactly: the getter of a type that holds the
    value returns it, SQL NULL is [None], and a value outside the type is a
    conversion error instead of a wrapped number. *)
Theorem extract_int_exact rs colnr name t z :
  (get_field_raw (row_set rs) colnr = Ok (Some (print_int z)) ->
   @extract_fromstr _ (FromStr_int name t) rs colnr =
   if in_type t z then Ok (Some z)
   else Err (Conversion name [OfInt (int_error t (print_int z))])) /\
  (get_field_raw (row_set rs) colnr = Ok None ->
   @extract_fromstr _ (FromStr_int name t) rs colnr = Ok None).
Proof.
  split; [|apply with_field_null]. intros Hf. destruct (in_type t z) eqn:Ht.
  { by apply extract_int_value. }
  unfold extract_fromstr. rewrite (with_field_value _ _ _ _ Hf).
  unfold transform_fromstr, transform, field_utf8.
  rewrite utf8_valid_ascii by apply print_int_ascii. simpl. unfold int_from_str, parse_num.
  by rewrite parse_print_int_none.
Qed.

(** The getters of the temporal types give what the field shows, and NULL is [None];
    for a timestamp with a zone: the date, the time and the offset of its text. *)
Theorem extract_timestamptz_exact `{Radix10Laws} rs colnr field v :
  get_field_raw (row_set rs) colnr = Ok (Some field) ->
  extract_timestamptz rs colnr = Ok (Some v) <->
  exists dt tm f zt, field = dt ++ bs " " ++ tm ++ zt /\ date_text (tstz_date v) dt /\
    time_text (tstz_time v) f tm /\ tz_text (tstz_tz v) zt.
Proof.
  intros Hf. unfold extract_timestamptz, extract_temporal. rewrite (with_field_value _ _ _ _ Hf).
  rewrite <- timestamptz_exact. destruct (parse_field _ _ field); simpl; naive_solver.
Qed.

(** A result set whose current row is one unquoted field. *)
Definition one_field (txt : bytes) : ResultSet :=
  MkResultSet 0 false 0 1 1 [] (MkRowSet (MkBuf txt (length txt)) 1 [Some (O, length txt)] false) None None.

Lemma extract_int_exact_witness :
  @extract_fromstr _ (FromStr_int "i8" i8) (one_field (bs "-128")) 0 = Ok (Some (-128)) /\
  @extract_fromstr _ (FromStr_int "u8" u8) (one_field (bs "-1")) 0 =
    Err (Conversion "u8" [OfInt InvalidDigit]).
Proof.
  destruct (extract_int_exact (one_field (bs "-128")) 0 "i8" i8 (-128)) as [H1 _].
  destruct (extract_int_exact (one_field (bs "-1")) 0 "u8" u8 (-1)) as [H2 _].
  split; [apply H1|apply H2]; by vm_compute.
Defined.

(** An interval column reads back as exactly the number of milliseconds it shows:
    when [Duration::extract] succeeds, the field is the text of a decimal number
    and the milliseconds are that number times one thousand, with nothing
    rounded; finer precision is an error. *)
Theorem extract_duration_exact rs colnr field ms :
  get_field_raw (row_set rs) colnr = Ok (Some field) ->
  extract_duration rs colnr = Ok (Some ms) ->
  exists d, dec_from_str u64 field = Ok d /\ dec_scale d <= 3 /\
    ms = dec_num d * 10 ^ (3 - dec_scale d) /\ in_type u64 ms = true.
Proof.
  intros Hf. unfold extract_duration, extract_fromstr. rewrite (with_field_value _ _ _ _ Hf).
  unfold transform_fromstr, transform, field_utf8.
  destruct (utf8_valid field); simpl; [|done].
  destruct (dec_from_str u64 field) as [d|e| |]; simpl; try done.
  destruct (at_scale u64 d 3) as [v|] eqn:E; [|done]. intros [= <-].
  apply at_scale_Some in E as (? & _ & ? & ?). eauto.
Qed.

Lemma extract_duration_exact_witness :
  exists d, dec_from_str u64 (bs "12.5") = Ok d /\ dec_scale d <= 3 /\
    12500 = dec_num d * 10 ^ (3 - dec_scale d) /\ in_type u64 12500 = true.
Proof. apply (extract_duration_exact (one_field (bs "12.5")) 0); by vm_compute. Defined.

(** C36: A floating point column reads back correctly rounded: a field is accepted
    exactly when it is the text of a number or one of the words for infinity and
    not-a-number, in any case and with an optional sign; a number gives the value
    of the format nearest to it, with its sign, or an infinity when it lies beyond
    the greatest value by half of its spacing or more, and a word gives the value
    that it names, with its sign. *)
Theorem extract_float_nearest rs colnr field name f :
  f = f32 \/ f = f64 -> get_field_raw (row_set rs) colnr = Ok (Some field) ->
  let got := @extract_fromstr _ (FromStr_float name f) rs colnr in
  (forall neg digits e, decimal_text field neg digits e ->
     exists v, got = Ok (Some v) /\ nearest f neg digits e v) /\
  (forall v, word_text field v -> got = Ok (Some v)) /\
  (forall v, got = Ok (Some v) ->
     (exists neg digits e, decimal_text field neg digits e /\ nearest f neg digits e v) \/
     word_text field v).
Proof.
  intros Hfmt Hf. cbv zeta. unfold extract_fromstr. rewrite (with_field_value _ _ _ _ Hf).
  assert (format_ok f) as Hok by (destruct Hfmt as [-> | ->]; [apply f32_ok|apply f64_ok]).
  unfold transform_fromstr, transform, field_utf8. cbn [from_str FromStr_float]. split_and!.
  - intros neg digits e Ht. rewrite utf8_valid_ascii by by eapply decimal_text_ascii. simpl.
    rewrite (float_from_str_number _ _ _ _ _ Ht). simpl. eexists. split; [done|].
    apply round_decimal_nearest; [done|]. by eapply decimal_text_nonneg.
  - intros v Ht. rewrite utf8_valid_ascii by by eapply word_text_ascii. simpl.
    by rewrite (float_from_str_word _ _ _ Ht).
  - intros v. destruct (utf8_valid field); [|done]. simpl.
    destruct (float_from_str f field) as [v'|e| |] eqn:E; try done. simpl. intros [= <-].
    destruct (float_from_str_inv _ _ _ E) as [(neg & digits & e & Ht & ->)|H]; [left|by right].
    do 3 eexists. split; [done|]. apply round_decimal_nearest; [done|]. by eapply decimal_text_nonneg.
Qed.

(** [0.1] is read as the single precision value 13421773 * 2^-27, and [-Inf] as
    the negative infinity. *)
Lemma extract_float_nearest_witness :
  nearest f32 false 1 (-1) (Finite false (13421773 * 2 ^ 122)) /\
  @extract_fromstr _ (FromStr_float "f32" f32) (one_field (bs "0.1")) 0 =
    Ok (Some (Finite false (13421773 * 2 ^ 122))) /\
  @extract_fromstr _ (FromStr_float "f64" f64) (one_field (bs "-Inf")) 0 = Ok (Some (Infinite true)).
Proof.
  assert (forall A B C : Prop, A /\ B -> C -> A /\ B /\ C) as Hsplit by tauto. apply Hsplit; clear Hsplit.
  - destruct (extract_float_nearest (one_field (bs "0.1")) 0 (bs "0.1") "f32" f32) as [H _].
    + by left.
    + by vm_compute.
    + destruct (H false 1 (-1)) as (v & E & Hn).
      * apply (Decimal_text [] false (bs "0") [x2e] (bs "1") [] 0); try done; [constructor|by left|constructor].
      * assert (Ok (Some v) = @Ok CursorError _ (Some (Finite false (13421773 * 2 ^ 122)))) as Ev
          by (rewrite <- E; vm_compute; reflexivity).
        injection Ev as ->. by split.
  - apply (extract_float_nearest (one_field (bs "-Inf")) 0 (bs "-Inf") "f64" f64).
    + by right.
    + by vm_compute.
    + apply (Inf_text [x2d] true (bs "Inf")); [constructor|reflexivity].
Defined.
