(* ===== verification/Delayed.v ===== *)
(** * Delayed commands (src/cursor/delayed.rs)

    Commands whose replies are not awaited at once: [add] queues a message in a
    [MapiBuf] and notes the reply that it will get, [send_delayed] writes what
    is queued, and [recv_delayed] later reads one reply per note and keeps the
    first error that matters. *)

From Stdlib Require Import ZArith Lia.
From S2P Require Import Prelude Bytes Blockstate IO Writing Reading Errors Replies.

Open Scope nat_scope.

Record ExpectedResponse := MkExpected {
  description : bytes;
  ignore_server_error : bool
}.

Record DelayedCommands := MkDelayed {
  dc_buffer : MapiBuf;
  responses : list ExpectedResponse
}.

Definition delayed_new : DelayedCommands := MkDelayed mapibuf_new [].

Section Queue.
Context {E : Type}.

(** A method of the buffer, called on the field. *)
Definition on_buffer {A} (m : comp MapiBuf E A) : comp DelayedCommands E A :=
  fun dc => let '(r, mb) := m (dc_buffer dc) in (r, MkDelayed mb (responses dc)).

Definition push_response (resp : ExpectedResponse) : comp DelayedCommands E unit :=
  fun dc => (Ok tt, MkDelayed (dc_buffer dc) (responses dc ++ [resp])).

(** [cmd] is the pieces of text that [Display] writes one after the other. *)
Definition add_inner (descr : bytes) (cmd : list bytes) (ignore : bool)
    : comp DelayedCommands E unit :=
  do! on_buffer (append_all cmd) in
  do? dc := sget in
  do! (if negb (ends_with [x0a] (Writing.peek (dc_buffer dc)))
       then on_buffer (append [x0a]) else sret tt) in
  do! on_buffer end_message in
  push_response (MkExpected descr ignore).

Definition add (descr : bytes) (cmd : list bytes) : comp DelayedCommands E unit :=
  add_inner descr cmd false.

Definition add_cleanup (descr : bytes) (cmd : list bytes) : comp DelayedCommands E unit :=
  add_inner descr cmd true.

Definition add_xcommand_cleanup (command : bytes) (value : bytes)
    : comp DelayedCommands E unit :=
  add_cleanup command [bs "X"; command; bs " "; value].

End Queue.

(** The queue and the connection together. *)
Definition send_delayed `{Write W} (fuel : nat) : comp (DelayedCommands * W) CursorError unit :=
  fun '(dc, conn) =>
    match on_buffer Writing.reset dc with
    | (Ok raw, dc') =>
        match write_all fuel raw conn with
        | (Ok _, conn') => (Ok tt, (dc', conn'))
        | (Err e, conn') => (Err (cursor_of_io e), (dc', conn'))
        | (Panic, conn') => (Panic, (dc', conn'))
        | (NoFuel, conn') => (NoFuel, (dc', conn'))
        end
    | (Err e, dc') => (Err e, (dc', conn))
    | (Panic, dc') => (Panic, (dc', conn))
    | (NoFuel, dc') => (NoFuel, (dc', conn))
    end.

Definition send_delayed_plus `{Write W} (fuel : nat) (extra : list bytes)
    : comp (DelayedCommands * W) CursorError unit :=
  fun '(dc, conn) =>
    let '(r, (mb, conn')) := write_reset_plus fuel extra (dc_buffer dc, conn) in
    (res_map_err cursor_of_io r, (MkDelayed mb (responses dc), conn')).

(** The loop of [recv_delayed_inner]: the notes are drained, so that none is
    left whether it ends with a result or an error. *)
Fixpoint recv_loop `{Read R} (fuel : nat) (sizes : nat -> nat) (limit : nat)
    (drained : list ExpectedResponse) (first_error : option ServerError)
    : comp R CursorError (option ServerError) :=
  fun conn =>
    match drained with
    | [] => (Ok first_error, conn)
    | resp :: rest =>
        match to_limited fuel sizes [] limit conn with
        | (Ok reply, conn') =>
            let first_error' :=
              match server_error reply with
              | None => first_error
              | Some error =>
                  if ignore_server_error resp then first_error
                  else match first_error with
                       | Some e => Some e
                       | None => Some (with_context (bs "delayed " ++ description resp) error)
                       end
              end in
            recv_loop fuel sizes limit rest first_error' conn'
        | (Err e, conn') => (Err (cursor_of_io e), conn')
        | (Panic, conn') => (Panic, conn')
        | (NoFuel, conn') => (NoFuel, conn')
        end
    end.

Definition recv_delayed `{Read R} (fuel : nat) (sizes : nat -> nat) (limit : nat)
    : comp (DelayedCommands * R) CursorError (option ServerError) :=
  fun '(dc, conn) =>
    let '(r, conn') := recv_loop fuel sizes limit (responses dc) None conn in
    (r, (MkDelayed (dc_buffer dc) [], conn')).

(** ** Lemmas *)

(** A command as it is sent: one line. *)
Definition line_of (cmd : list bytes) : bytes :=
  if ends_with [x0a] (concat cmd) then concat cmd else concat cmd ++ [x0a].

Lemma ends_with_app c a t : t <> [] -> ends_with [c] (a ++ t) = ends_with [c] t.
Proof.
  intros Ht. unfold ends_with, strip_suffix. rewrite reverse_app. simpl.
  destruct (reverse t) as [|x l] eqn:E.
  - apply (f_equal reverse) in E. rewrite reverse_involutive in E. done.
  - simpl. by case_decide.
Qed.

Lemma peek_open mb sb :
  represents mb sb -> current sb <> [] ->
  ends_with [x0a] (Writing.peek mb) = ends_with [x0a] (current sb).
Proof.
  unfold represents, Writing.peek. destruct (reset_pending mb).
  { by intros (_ & _ & _ & ->). }
  intros (done & w & c & h & t & Hb & _ & _ & _ & Hc & _ & Ht) Hne.
  assert (t <> []) as Htne. { intros ->. rewrite (Ht eq_refl) in Hc. by simpl in Hc. }
  rewrite Hb, Hc, !app_assoc, !ends_with_app by done. done.
Qed.

(** The replies to [owed] commands are still to be read, and the queue holds further
    finished messages with the given payloads; there is a note for each of them. *)
Definition queued (dc : DelayedCommands) (owed : nat) (payloads : list bytes) : Prop :=
  represents (dc_buffer dc) (MkSpecBuf payloads []) /\
  length (responses dc) = owed + length payloads.

Lemma queued_new : queued delayed_new 0 [].
Proof. split; [apply represents_new|done]. Qed.

Lemma add_inner_queued E descr cmd ignore dc n ps :
  queued dc n ps -> concat cmd <> [] ->
  exists dc', @add_inner E descr cmd ignore dc = (Ok tt, dc') /\
    queued dc' n (ps ++ [line_of cmd]) /\
    responses dc' = responses dc ++ [MkExpected descr ignore].
Proof.
  intros [Hr Hl] Hne. unfold add_inner, on_buffer, push_response, sbind, sget.
  destruct (append_all_represents E cmd (dc_buffer dc) _ Hr) as (mb1 & -> & Hr1). simpl in Hr1.
  simpl. rewrite (peek_open mb1 _ Hr1) by done. simpl. unfold line_of.
  destruct (ends_with [x0a] (concat cmd)); simpl.
  - destruct (@end_represents E mb1 _ Hr1) as (mb2 & -> & _ & Hr2). eexists. split; [done|].
    split; [|done]. split; [done|]. simpl. rewrite !length_app. simpl. lia.
  - destruct (@append_represents E [x0a] mb1 _ Hr1) as (mb2 & -> & _ & Hr2). simpl in *.
    destruct (@end_represents E mb2 _ Hr2) as (mb3 & -> & _ & Hr3). eexists. split; [done|].
    split; [|done]. split; [done|]. simpl. rewrite !length_app. simpl. lia.
Qed.

(** A command with its description and whether its errors are ignored. *)
Record command := Command { cmd_descr : bytes; cmd_text : list bytes; cmd_ignore : bool }.

Fixpoint add_commands {E} (cmds : list command) : comp DelayedCommands E unit :=
  match cmds with
  | [] => sret tt
  | c :: cmds' =>
      do! add_inner (cmd_descr c) (cmd_text c) (cmd_ignore c) in add_commands cmds'
  end.

Definition expected (c : command) : ExpectedResponse := MkExpected (cmd_descr c) (cmd_ignore c).

Lemma add_commands_queued E cmds dc n ps :
  queued dc n ps -> Forall (fun c => concat (cmd_text c) <> []) cmds ->
  exists dc', @add_commands E cmds dc = (Ok tt, dc') /\
    queued dc' n (ps ++ (line_of ∘ cmd_text <$> cmds)) /\
    responses dc' = responses dc ++ (expected <$> cmds).
Proof.
  intros Hq Hc. revert dc ps Hq. induction Hc as [|c cmds Hne _ IH]; intros dc ps Hq; simpl.
  { exists dc. by rewrite !app_nil_r. }
  destruct (add_inner_queued E (cmd_descr c) (cmd_text c) (cmd_ignore c) dc n ps Hq Hne)
    as (dc1 & E1 & Hq1 & Hr1). unfold sbind. rewrite E1.
  destruct (IH _ _ Hq1) as (dc2 & E2 & Hq2 & Hr2). exists dc2. split; [done|].
  rewrite Hr1 in Hr2. rewrite <- app_assoc in *. done.
Qed.

(** The first error that is not to be ignored, with its context. *)
Fixpoint first_failure (notes : list ExpectedResponse) (replies : list bytes)
    : option ServerError :=
  match notes, replies with
  | note :: notes', reply :: replies' =>
      match server_error reply with
      | Some error =>
          if ignore_server_error note then first_failure notes' replies'
          else Some (with_context (bs "delayed " ++ description note) error)
      | None => first_failure notes' replies'
      end
  | _, _ => None
  end.

(** The errors of notes that ignore them do not matter. *)
Lemma first_failure_ignored notes notes' replies :
  Forall (fun note => ignore_server_error note = true) notes' ->
  first_failure (notes ++ notes') replies = first_failure notes replies.
Proof.
  intros Hi. revert replies. induction notes as [|note notes IH]; intros replies; simpl.
  - revert replies. induction Hi as [|note notes' Hn _ IH]; intros [|reply replies]; try done. simpl.
    destruct (server_error reply); [|apply IH]. rewrite Hn. apply IH.
  - destruct replies as [|reply replies]; [done|]. destruct (server_error reply); [|apply IH].
    destruct (ignore_server_error note); [apply IH|done].
Qed.

Section Receive.
Context {R : Type} `{ReadLaws R} (sizes : nat -> nat) (Hsizes : forall i, 0 < sizes i).

(** [replied w rs rest]: the bytes [w] are the replies [rs] one after the other. *)
Inductive replied : bytes -> list bytes -> Prop :=
| replied_nil : replied [] []
| replied_cons w p ws ps : message w p -> replied ws ps -> replied (w ++ ws) (p :: ps).

Lemma recv_loop_ok fuel limit notes first s ws replies rest :
  replied ws replies -> length notes = length replies ->
  reliable s -> pending s = ws ++ rest -> effort s < fuel ->
  Forall (fun p => length p <= limit) replies ->
  exists s', recv_loop fuel sizes limit notes first s =
    (Ok (match first with Some e => Some e | None => first_failure notes replies end), s') /\
    pending s' = rest /\ reliable s' /\ effort s' <= effort s.
Proof.
  intros Hrep. revert notes first s. induction Hrep as [|w p ws ps Hm _ IH];
    intros notes first s Hlen Hrel Hp Hf Hlim.
  { destruct notes; [|done]. exists s. simpl. by destruct first. }
  destruct notes as [|note notes]; [done|]. injection Hlen as Hlen.
  apply Forall_cons in Hlim as [Hl Hlim]. rewrite <- app_assoc in Hp.
  destruct (to_limited_next sizes Hsizes fuel [] limit s w (ws ++ rest) p)
    as (s1 & E1 & Hp1 & Hrel1 & He1); [done..|].
  cbn [recv_loop]. rewrite E1. cbn [app].
  edestruct (IH notes) as (s' & E' & Hp' & Hrel' & He'); [done|exact Hrel1|exact Hp1|lia|done|].
  exists s'. rewrite E'. split; [|split; [done|split; [done|lia]]].
  simpl. destruct (server_error p) as [error|]; [|done].
  destruct (ignore_server_error note), first; done.
Qed.

End Receive.

(** ** Theorems *)

Section Theorems.
Context {W : Type} `{WriteLaws W}.

(** Queued commands are sent as they were added: after any number of
    non-empty commands, [send_delayed] writes exactly one message per command,
    in order, each a single line; the queue is empty again and there is one
    note per message. *)
Theorem delayed_commands_sent cmds (conn : W) :
  Forall (fun c => concat (cmd_text c) <> []) cmds -> wreliable conn ->
  exists dc wire, add_commands cmds delayed_new = (@Ok CursorError _ tt, dc) /\
    messages wire (line_of ∘ cmd_text <$> cmds) /\
    forall fuel, wpatience conn + length wire < fuel ->
      exists mb conn', send_delayed fuel (dc, conn) =
        (Ok tt, (MkDelayed mb (expected <$> cmds), conn')) /\
        written conn' = written conn ++ wire /\ represents mb (MkSpecBuf [] []).
Proof.
  intros Hc Hw.
  destruct (add_commands_queued CursorError cmds delayed_new 0 [] queued_new Hc)
    as (dc & E & [Hr _] & Hn). simpl in Hr, Hn.
  destruct (@reset_represents CursorError _ _ Hr) as (wire & mb & Er & [Hm _] & _ & Hr').
  exists dc, wire. split; [done|]. split; [done|]. intros fuel Hf.
  destruct (write_all_reliable fuel wire conn Hw Hf) as (conn' & Ew).
  exists mb, conn'. unfold send_delayed, on_buffer. rewrite Er, Ew, Hn.
  apply write_all_ok in Ew as (Hout & _ & _). done.
Qed.

End Theorems.

Section ReceiveTheorem.
Context {R : Type} `{ReadLaws R}.

(** Receiving the delayed replies reads exactly one reply per note and
    leaves the stream after the last of them; the result is the first server
    error of a command whose errors are not ignored, with the description of
    the command, and no note is left. *)
Theorem recv_delayed_first_error sizes fuel limit dc (conn : R) ws replies rest :
  (forall i, 0 < sizes i) -> replied ws replies ->
  length (responses dc) = length replies ->
  reliable conn -> pending conn = ws ++ rest -> effort conn < fuel ->
  Forall (fun p => length p <= limit) replies ->
  exists conn', recv_delayed fuel sizes limit (dc, conn) =
    (Ok (first_failure (responses dc) replies), (MkDelayed (dc_buffer dc) [], conn')) /\
    pending conn' = rest.
Proof.
  intros Hsz Hrep Hlen Hrel Hp Hf Hlim.
  destruct (recv_loop_ok sizes Hsz fuel limit (responses dc) None conn ws replies rest)
    as (conn' & E & Hp' & _); [done..|].
  exists conn'. unfold recv_delayed. by rewrite E.
Qed.

End ReceiveTheorem.

(** *** Witnesses *)

Definition sample_commands : list command :=
  [Command (bs "reply_size") [bs "Xreply_size "; bs "100"] false;
   Command (bs "close") [bs "Xclose 7"; [x0a]] true].

Lemma delayed_commands_sent_witness :
  exists dc wire, add_commands sample_commands delayed_new = (@Ok CursorError _ tt, dc) /\
    messages wire [bs "Xreply_size 100" ++ [x0a]; bs "Xclose 7" ++ [x0a]] /\
    forall fuel, wpatience (MkWire [] [] [] [Give 2; Intr]) + length wire < fuel ->
      exists mb conn', send_delayed fuel (dc, MkWire [] [] [] [Give 2; Intr]) =
        (Ok tt, (MkDelayed mb (expected <$> sample_commands), conn')) /\
        written conn' = written (MkWire [] [] [] [Give 2; Intr]) ++ wire /\
        represents mb (MkSpecBuf [] []).
Proof.
  apply (delayed_commands_sent sample_commands).
  - repeat constructor; discriminate.
  - repeat constructor.
Defined.

Lemma recv_delayed_first_error_witness :
  let wire := hdr 0 true ++ hdr 6 true ++ bs "!nope" ++ [x0a] ++ hdr 0 true in
  exists conn', recv_delayed 60 thirty_two 100
      (MkDelayed mapibuf_new [MkExpected (bs "a") false; MkExpected (bs "b") false],
       MkWire wire [] [Give 0; Intr] []) =
    (Ok (Some (with_context (bs "delayed b") (from_wire (bs "nope")))),
     (MkDelayed mapibuf_new [], conn')) /\ pending conn' = hdr 0 true.
Proof.
  intros wire.
  apply (recv_delayed_first_error thirty_two 60 100
    (MkDelayed mapibuf_new [MkExpected (bs "a") false; MkExpected (bs "b") false])
    (MkWire wire [] [Give 0; Intr] []) (hdr 0 true ++ hdr 6 true ++ bs "!nope" ++ [x0a])
    [[]; bs "!nope" ++ [x0a]] (hdr 0 true)).
  - intros i. apply Nat.lt_0_succ.
  - rewrite <- (app_nil_r (hdr 6 true ++ _)). pose proof BLOCKSIZE_Z.
    apply (replied_cons (hdr 0 true) []); [apply (message_last []); simpl; lia|].
    apply replied_cons; [|constructor].
    apply (message_last (bs "!nope" ++ [x0a])). simpl; lia.
  - reflexivity.
  - repeat constructor.
  - reflexivity.
  - vm_compute; lia.
  - repeat constructor; simpl; lia.
Defined.
