(* ===== verification/Parms.v ===== *)
(** * Connection parameters (src/parms/parameters.rs, src/parms/mod.rs)

    [Parm] names what can be configured, [Value] holds a setting as it was
    given, and [Parameters] is a table of values indexed by [Parm::index] with
    three flags.  The array of the source is a list here, so that an index out
    of range is a [Panic]; [wf] says that it has the length of the array and
    that every value can be read back at the type of its parameter. *)

From Stdlib Require Import ZArith Lia.
From S2P Require Import Prelude Bytes Errors.

Open Scope Z_scope.

(** ** Names of parameters *)

Module ParmType.

Inductive ParmType := Bool | Int | Str.

End ParmType.
Notation ParmType := ParmType.ParmType.

(** [PARM_TABLE_SIZE]: the length of a table indexed by [Parm]. *)
Definition PARM_TABLE_SIZE : nat := 35.

Module Parm.

(** The variants, in the order of the enumeration. *)
Inductive Parm :=
| Database | Host | Port | Tls | User | Password | Autocommit | Binary | Cert
| CertHash | ClientCert | ClientKey | Language | ReplySize | Schema | Sock | SockDir
| Timezone | ConnectTimeout | ReadTimeout | WriteTimeout | OperationTimeout
| ClientInfo | ClientApplication | ClientPrefix | ClientRemark | MaxResponseSize
| MaxPrefetch | TableSchema | Table | Hash | Debug | Logfile.

#[global] Instance Parm_eq_decision : EqDecision Parm.
Proof. solve_decision. Defined.

Definition iter : list Parm :=
  [Database; Host; Port; Tls; User; Password; Autocommit; Binary; Cert; CertHash;
   ClientCert; ClientKey; Language; ReplySize; Schema; Sock; SockDir; Timezone;
   ConnectTimeout; ReadTimeout; WriteTimeout; OperationTimeout; ClientInfo;
   ClientApplication; ClientPrefix; ClientRemark; MaxResponseSize; TableSchema; Table;
   Hash; Debug; Logfile; MaxPrefetch].

Definition as_str (self : Parm) : bytes :=
  bs (match self with
      | Database => "database"
      | Host => "host"
      | Port => "port"
      | Tls => "tls"
      | User => "user"
      | Password => "password"
      | Autocommit => "autocommit"
      | Binary => "binary"
      | Cert => "cert"
      | CertHash => "certhash"
      | ClientCert => "clientcert"
      | ClientKey => "clientkey"
      | Language => "language"
      | ReplySize => "replysize"
      | Schema => "schema"
      | Sock => "sock"
      | SockDir => "sockdir"
      | Timezone => "timezone"
      | ConnectTimeout => "connect_timeout"
      | ReadTimeout => "read_timeout"
      | WriteTimeout => "write_timeout"
      | OperationTimeout => "operation_timeout"
      | ClientInfo => "client_info"
      | ClientApplication => "client_application"
      | ClientPrefix => "client_prefix"
      | ClientRemark => "client_remark"
      | MaxResponseSize => "max_response_size"
      | MaxPrefetch => "maxprefetch"
      | TableSchema => "tableschema"
      | Table => "table"
      | Hash => "hash"
      | Debug => "debug"
      | Logfile => "logfile"
      end).

Definition discriminant (self : Parm) : nat :=
  match self with
  | Database => 0 | Host => 1 | Port => 2 | Tls => 3 | User => 4 | Password => 5
  | Autocommit => 6 | Binary => 7 | Cert => 8 | CertHash => 9 | ClientCert => 10
  | ClientKey => 11 | Language => 12 | ReplySize => 13 | Schema => 14 | Sock => 15
  | SockDir => 16 | Timezone => 17 | ConnectTimeout => 18 | ReadTimeout => 19
  | WriteTimeout => 20 | OperationTimeout => 21 | ClientInfo => 22
  | ClientApplication => 23 | ClientPrefix => 24 | ClientRemark => 25
  | MaxResponseSize => 26 | MaxPrefetch => 27 | TableSchema => 28 | Table => 29
  | Hash => 30 | Debug => 31 | Logfile => 32
  end.

Definition from_str_arms : list (string * Parm) :=
  [("database", Database); ("host", Host); ("port", Port); ("tls", Tls);
   ("user", User); ("password", Password); ("autocommit", Autocommit);
   ("binary", Binary); ("cert", Cert); ("certhash", CertHash);
   ("clientcert", ClientCert); ("clientkey", ClientKey); ("language", Language);
   ("replysize", ReplySize); ("fetchsize", ReplySize); ("schema", Schema);
   ("sock", Sock); ("sockdir", SockDir); ("timezone", Timezone);
   ("connect_timeout", ConnectTimeout); ("read_timeout", ReadTimeout);
   ("write_timeout", WriteTimeout); ("operation_timeout", OperationTimeout);
   ("client_info", ClientInfo); ("client_application", ClientApplication);
   ("client_prefix", ClientPrefix); ("client_remark", ClientRemark);
   ("max_response_size", MaxResponseSize); ("tableschema", TableSchema);
   ("table", Table); ("hash", Hash); ("debug", Debug); ("logfile", Logfile);
   ("maxprefetch", MaxPrefetch)].

(** [FromStr]: the arm of the first literal that is equal to the name. *)
Definition from_str (name : bytes) : option Parm :=
  (fun found => snd (snd found)) <$>
    list_find (fun arm => bs (fst arm) = name) from_str_arms.

(** [*self as usize] checked against the size of the table. *)
Definition index {E} (self : Parm) : res E nat :=
  let idx := discriminant self in
  let? _ := rassert (idx <? PARM_TABLE_SIZE)%nat in Ok idx.

Definition is_core (self : Parm) : bool :=
  match self with
  | Tls | Host | Port | Database | TableSchema | Table => true
  | _ => false
  end.

Definition is_sensitive (self : Parm) : bool :=
  match self with User | Password => true | _ => false end.

Definition ignored (name : bytes) : bool := bool_decide (x5f ∈ name).

Definition parm_type (self : Parm) : ParmType :=
  match self with
  | Tls | Autocommit | ClientInfo => ParmType.Bool
  | Port | ReplySize | Timezone | MaxPrefetch | ConnectTimeout | ReadTimeout
  | WriteTimeout | OperationTimeout | MaxResponseSize => ParmType.Int
  | _ => ParmType.Str
  end.

End Parm.
Notation Parm := Parm.Parm.

(** The errors of the module; a message built with [format!] is kept in parts. *)
Inductive ParmError :=
| UnknownParameter (name : bytes)
| InvalidValue (parm : Parm)
| InvalidBool (parm : Parm)
| InvalidInt (parm : Parm)
| MustBeString (parm : Parm)
| InvalidBinary
| InvalidUrl (m : message_text)
| InvalidPercentEncoding
| InvalidPercentUtf8
| HostSockConflict
| OnlyWithTls (parm : Parm)
| ClientCertRequiresKey
| NotAllowedAsQuery (parm : Parm)
| ClientInfoNewline (parm : Parm).

(** ** Values *)

Definition parse_bool (s : bytes) : option bool :=
  if existsb (fun yes => eq_ignore_case (bs yes) s) ["yes"; "true"; "on"]%string
  then Some true
  else if existsb (fun no => eq_ignore_case (bs no) s) ["no"; "false"; "off"]%string
  then Some false
  else None.

Definition render_bool (b : bool) : bytes := if b then bs "on" else bs "off".

Inductive Value :=
| Bool (b : bool)
| Int (i : Z)
| Str (s : bytes).

#[global] Instance Value_eq_decision : EqDecision Value.
Proof. solve_decision. Defined.

Definition bool_value (self : Value) : option bool :=
  match self with
  | Bool b => Some b
  | Int _ => None
  | Str s => parse_bool s
  end.

Definition int_value (self : Value) : option Z :=
  match self with
  | Bool _ => None
  | Int i => Some i
  | Str s => parse_int i64 s
  end.

Definition binary_value (self : Value) : option Z :=
  match bool_value self with
  | Some false => Some 0
  | Some true => Some 65535
  | None => int_value self ≫= checked u16
  end.

Definition str_value (self : Value) : bytes :=
  match self with
  | Bool b => render_bool b
  | Int i => print_int i
  | Str s => s
  end.

(** [From<&str>], [From<String>] and [From<Cow<str>>]. *)
Definition value_from_str (value : bytes) : Value := Str value.

Definition value_from_bool (value : bool) : Value := Bool value.

(** [From] of the integer types: each is widened to [i64]. *)
Definition value_from_int (value : Z) : Value := Int value.

Definition verify_assign (self : Value) (parm : Parm) : res ParmError unit :=
  match Parm.parm_type parm with
  | ParmType.Bool => let? _ := ok_or (bool_value self) (InvalidBool parm) in Ok tt
  | ParmType.Int => let? _ := ok_or (int_value self) (InvalidInt parm) in Ok tt
  | ParmType.Str =>
      match self with
      | Str _ => Ok tt
      | _ => Err (MustBeString parm)
      end
  end.

(** ** The table of parameters *)

Record Parameters := MkParameters {
  parms : list Value;
  user_changed : bool;
  password_changed : bool;
  timezone_set : bool
}.

(** The test [idx == parm.index()] of a constant function. *)
Definition is_index (idx : nat) (parm : Parm) : bool :=
  match @Parm.index unit parm with Ok i => (idx =? i)%nat | _ => false end.

Definition default_parameter_value_by_index (idx : nat) : Value :=
  if is_index idx Parm.Tls then Bool false
  else if is_index idx Parm.Port then Int (-1)
  else if is_index idx Parm.SockDir then Str (bs "/tmp")
  else if is_index idx Parm.Language then Str (bs "sql")
  else if is_index idx Parm.Autocommit then Bool true
  else if is_index idx Parm.Timezone then Int 0
  else if is_index idx Parm.ReplySize then Int 200
  else if is_index idx Parm.MaxPrefetch then Int 2500
  else if is_index idx Parm.Binary then Str (bs "on")
  else if is_index idx Parm.ClientInfo then Bool true
  else if is_index idx Parm.ConnectTimeout then Int 30
  else if is_index idx Parm.WriteTimeout then Int 60
  else if is_index idx Parm.ReadTimeout || is_index idx Parm.OperationTimeout then Int 0
  else if is_index idx Parm.MaxResponseSize then Int (1024 * 1024 * 1024)
  else Str [].

Definition DEFAULT_PARAMETERS : Parameters :=
  MkParameters (default_parameter_value_by_index <$> seq 0 PARM_TABLE_SIZE)
    false false false.

Definition pcomp := comp Parameters ParmError.

Definition get (self : Parameters) (parm : Parm) : res ParmError Value :=
  let? idx := Parm.index parm in
  match parms self !! idx with
  | Some value => Ok value
  | None => Panic
  end.

Definition get_bool (self : Parameters) (parm : Parm) : res ParmError bool :=
  let? value := get self parm in ok_or (bool_value value) (InvalidBool parm).

Definition get_int (self : Parameters) (parm : Parm) : res ParmError Z :=
  let? value := get self parm in ok_or (int_value value) (InvalidInt parm).

Definition get_str (self : Parameters) (parm : Parm) : res ParmError bytes :=
  let? value := get self parm in Ok (str_value value).

(** The [match] of [replace] that records what has been touched. *)
Definition touch (parm : Parm) (self : Parameters) : Parameters :=
  match parm with
  | Parm.User =>
      MkParameters (parms self) true (password_changed self) (timezone_set self)
  | Parm.Password =>
      MkParameters (parms self) (user_changed self) true (timezone_set self)
  | Parm.Timezone =>
      MkParameters (parms self) (user_changed self) (password_changed self) true
  | _ => self
  end.

(** [mem::swap] of the slot and the new value; the old value is returned. *)
Definition replace (parm : Parm) (value : Value) : pcomp Value :=
  do! slift (verify_assign value parm) in
  do? self := sget in
  let self1 := touch parm self in
  do! sput self1 in
  do? old := slift (get self1 parm) in
  do? idx := slift (Parm.index parm) in
  do! sput (MkParameters (<[idx := value]> (parms self1)) (user_changed self1)
              (password_changed self1) (timezone_set self1)) in
  sret old.

Definition set (parm : Parm) (value : Value) : pcomp unit :=
  do! replace parm value in sret tt.

(** [Result::unwrap] on the result of a method. *)
Definition unwrap {A} (m : pcomp A) : pcomp A := fun s =>
  match m s with
  | (Err _, s') => (Panic, s')
  | r => r
  end.

Definition clear_timezone_set (parm : Parm) : pcomp unit := fun self =>
  (Ok tt, if bool_decide (parm = Parm.Timezone)
          then MkParameters (parms self) (user_changed self) (password_changed self) false
          else self).

Definition reset (parm : Parm) : pcomp unit :=
  do? value := slift (get DEFAULT_PARAMETERS parm) in
  do! unwrap (set parm value) in
  clear_timezone_set parm.

Definition take_parm (parm : Parm) : pcomp Value :=
  do? dflt := slift (get DEFAULT_PARAMETERS parm) in
  do? value := unwrap (replace parm dflt) in
  do! clear_timezone_set parm in
  sret value.

Definition set_named (parm_name : bytes) (value : Value) : pcomp unit :=
  match Parm.from_str parm_name with
  | Some parm => set parm value
  | None =>
      if Parm.ignored parm_name then sret tt
      else sfail (UnknownParameter parm_name)
  end.

Definition is_default (self : Parameters) (parm : Parm) : res ParmError bool :=
  let? value := get self parm in
  let? default_value := get DEFAULT_PARAMETERS parm in
  Ok (match default_value with
      | Bool b => bool_decide (bool_value value = Some b)
      | Int i => bool_decide (int_value value = Some i)
      | Str s => bool_decide (s = str_value value)
      end).

Definition clear_changed (self : Parameters) : Parameters :=
  MkParameters (parms self) false false (timezone_set self).

Definition boundary : pcomp unit :=
  do? self := sget in
  do! match user_changed self, password_changed self with
      | true, false => reset Parm.Password
      | false, true => reset Parm.User
      | _, _ => sret tt
      end in
  do? self' := sget in
  sput (clear_changed self').

(** ** Debug output

    What [Debug] shows of a parameter: its value, or that it is redacted. *)
Inductive debug_entry := Redacted | Shown (v : Value).

Definition debug_parm (self : Parameters) (parm : Parm) : res ParmError (Parm * debug_entry) :=
  if Parm.is_sensitive parm then Ok (parm, Redacted)
  else let? value := get self parm in Ok (parm, Shown value).

Fixpoint ParameterMap (self : Parameters) (l : list Parm)
    : res ParmError (list (Parm * debug_entry)) :=
  match l with
  | [] => Ok []
  | parm :: l' =>
      let? entry := debug_parm self parm in
      let? rest := ParameterMap self l' in
      Ok (entry :: rest)
  end.

Record debug_parameters := MkDebug {
  dbg_parms : list (Parm * debug_entry);
  dbg_user_changed : bool;
  dbg_password_changed : bool;
  dbg_timezone_set : bool
}.

Definition debug (self : Parameters) : res ParmError debug_parameters :=
  let? map := ParameterMap self Parm.iter in
  Ok (MkDebug map (user_changed self) (password_changed self) (timezone_set self)).

(** ** Typed setters

    [with_parm] is the body of a [with_] method: it takes the object, calls
    the setter and returns the object. *)
Definition with_parm (m : pcomp unit) (self : Parameters) : res ParmError Parameters :=
  match m self with
  | (Ok _, self') => Ok self'
  | (Err e, _) => Err e
  | (Panic, _) => Panic
  | (NoFuel, _) => NoFuel
  end.

Definition set_database (value : bytes) : pcomp unit :=
  set Parm.Database (value_from_str value).
Definition with_database (self : Parameters) (value : bytes) : res ParmError Parameters :=
  with_parm (set_database value) self.

Definition set_host (value : bytes) : pcomp unit :=
  set Parm.Host (value_from_str value).
Definition with_host (self : Parameters) (value : bytes) : res ParmError Parameters :=
  with_parm (set_host value) self.

Definition set_port (value : Z) : pcomp unit :=
  set Parm.Port (value_from_int value).
Definition with_port (self : Parameters) (value : Z) : res ParmError Parameters :=
  with_parm (set_port value) self.

Definition set_tls (value : bool) : pcomp unit :=
  set Parm.Tls (value_from_bool value).
Definition with_tls (self : Parameters) (value : bool) : res ParmError Parameters :=
  with_parm (set_tls value) self.

Definition set_user (value : bytes) : pcomp unit :=
  set Parm.User (value_from_str value).
Definition with_user (self : Parameters) (value : bytes) : res ParmError Parameters :=
  with_parm (set_user value) self.

Definition set_password (value : bytes) : pcomp unit :=
  set Parm.Password (value_from_str value).
Definition with_password (self : Parameters) (value : bytes) : res ParmError Parameters :=
  with_parm (set_password value) self.

Definition set_autocommit (value : bool) : pcomp unit :=
  set Parm.Autocommit (value_from_bool value).
Definition with_autocommit (self : Parameters) (value : bool) : res ParmError Parameters :=
  with_parm (set_autocommit value) self.

Definition set_binary (value : Value) : pcomp unit :=
  set Parm.Binary value.
Definition with_binary (self : Parameters) (value : Value) : res ParmError Parameters :=
  with_parm (set_binary value) self.

Definition set_cert (value : bytes) : pcomp unit :=
  set Parm.Cert (value_from_str value).
Definition with_cert (self : Parameters) (value : bytes) : res ParmError Parameters :=
  with_parm (set_cert value) self.

Definition set_certhash (value : bytes) : pcomp unit :=
  set Parm.CertHash (value_from_str value).
Definition with_certhash (self : Parameters) (value : bytes) : res ParmError Parameters :=
  with_parm (set_certhash value) self.

Definition set_clientcert (value : bytes) : pcomp unit :=
  set Parm.ClientCert (value_from_str value).
Definition with_clientcert (self : Parameters) (value : bytes) : res ParmError Parameters :=
  with_parm (set_clientcert value) self.

Definition set_clientkey (value : bytes) : pcomp unit :=
  set Parm.ClientKey (value_from_str value).
Definition with_clientkey (self : Parameters) (value : bytes) : res ParmError Parameters :=
  with_parm (set_clientkey value) self.

Definition set_language (value : bytes) : pcomp unit :=
  set Parm.Language (value_from_str value).
Definition with_language (self : Parameters) (value : bytes) : res ParmError Parameters :=
  with_parm (set_language value) self.

Definition set_replysize (value : Z) : pcomp unit :=
  set Parm.ReplySize (value_from_int value).
Definition with_replysize (self : Parameters) (value : Z) : res ParmError Parameters :=
  with_parm (set_replysize value) self.

Definition set_maxprefetch (value : Z) : pcomp unit :=
  set Parm.MaxPrefetch (value_from_int value).
Definition with_maxprefetch (self : Parameters) (value : Z) : res ParmError Parameters :=
  with_parm (set_maxprefetch value) self.

Definition set_schema (value : bytes) : pcomp unit :=
  set Parm.Schema (value_from_str value).
Definition with_schema (self : Parameters) (value : bytes) : res ParmError Parameters :=
  with_parm (set_schema value) self.

Definition set_sock (value : bytes) : pcomp unit :=
  set Parm.Sock (value_from_str value).
Definition with_sock (self : Parameters) (value : bytes) : res ParmError Parameters :=
  with_parm (set_sock value) self.

Definition set_sockdir (value : bytes) : pcomp unit :=
  set Parm.SockDir (value_from_str value).
Definition with_sockdir (self : Parameters) (value : bytes) : res ParmError Parameters :=
  with_parm (set_sockdir value) self.

Definition set_timezone (value : Z) : pcomp unit :=
  set Parm.Timezone (value_from_int value).
Definition with_timezone (self : Parameters) (value : Z) : res ParmError Parameters :=
  with_parm (set_timezone value) self.

Definition set_connect_timeout (value : Z) : pcomp unit :=
  set Parm.ConnectTimeout (value_from_int value).
Definition with_connect_timeout (self : Parameters) (value : Z) : res ParmError Parameters :=
  with_parm (set_connect_timeout value) self.

Definition set_read_timeout (value : Z) : pcomp unit :=
  set Parm.ReadTimeout (value_from_int value).
Definition with_read_timeout (self : Parameters) (value : Z) : res ParmError Parameters :=
  with_parm (set_read_timeout value) self.

Definition set_write_timeout (value : Z) : pcomp unit :=
  set Parm.WriteTimeout (value_from_int value).
Definition with_write_timeout (self : Parameters) (value : Z) : res ParmError Parameters :=
  with_parm (set_write_timeout value) self.

Definition set_operation_timeout (value : Z) : pcomp unit :=
  set Parm.OperationTimeout (value_from_int value).
Definition with_operation_timeout (self : Parameters) (value : Z) : res ParmError Parameters :=
  with_parm (set_operation_timeout value) self.

Definition set_client_info (value : bytes) : pcomp unit :=
  set Parm.ClientInfo (value_from_str value).
Definition with_client_info (self : Parameters) (value : bytes) : res ParmError Parameters :=
  with_parm (set_client_info value) self.

Definition set_client_application (value : bytes) : pcomp unit :=
  set Parm.ClientApplication (value_from_str value).
Definition with_client_application (self : Parameters) (value : bytes) : res ParmError Parameters :=
  with_parm (set_client_application value) self.

Definition set_client_prefix (value : bytes) : pcomp unit :=
  set Parm.ClientPrefix (value_from_str value).
Definition with_client_prefix (self : Parameters) (value : bytes) : res ParmError Parameters :=
  with_parm (set_client_prefix value) self.

Definition set_client_remark (value : bytes) : pcomp unit :=
  set Parm.ClientRemark (value_from_str value).
Definition with_client_remark (self : Parameters) (value : bytes) : res ParmError Parameters :=
  with_parm (set_client_remark value) self.

Definition set_max_response_size (value : Z) : pcomp unit :=
  set Parm.MaxResponseSize (value_from_int value).
Definition with_max_response_size (self : Parameters) (value : Z) : res ParmError Parameters :=
  with_parm (set_max_response_size value) self.


(** ** Lemmas: the table *)

Lemma index_discriminant {E} p : @Parm.index E p = Ok (Parm.discriminant p).
Proof. by destruct p. Qed.

Lemma discriminant_lt p : (Parm.discriminant p < PARM_TABLE_SIZE)%nat.
Proof. destruct p; vm_compute; lia. Qed.

Lemma discriminant_inj p q : Parm.discriminant p = Parm.discriminant q -> p = q.
Proof. destruct p, q; simpl; congruence. Qed.

Lemma iter_complete p : p ∈ Parm.iter.
Proof. destruct p; vm_compute; repeat constructor. Qed.

Lemma default_assignable p :
  exists v, get DEFAULT_PARAMETERS p = Ok v /\ verify_assign v p = Ok tt.
Proof. destruct p; (eexists; split; [vm_compute; reflexivity|reflexivity]). Qed.

(** The value that a fresh table has for a parameter. *)
Definition default_value (p : Parm) : Value :=
  default_parameter_value_by_index (Parm.discriminant p).

Lemma get_default p : get DEFAULT_PARAMETERS p = Ok (default_value p).
Proof. by destruct p. Qed.

Lemma default_value_assignable p : verify_assign (default_value p) p = Ok tt.
Proof. by destruct p. Qed.

(** A table has the length of the array, and every value can be assigned to
    the parameter it is stored for. *)
Definition wf (self : Parameters) : Prop :=
  length (parms self) = PARM_TABLE_SIZE /\
  forall p v, get self p = Ok v -> verify_assign v p = Ok tt.

(** What the table holds for a parameter. *)
Definition value_of (self : Parameters) (p : Parm) : Value :=
  default (Str []) (parms self !! Parm.discriminant p).

Lemma get_value_of self p :
  length (parms self) = PARM_TABLE_SIZE -> get self p = Ok (value_of self p).
Proof.
  intros H. unfold get, value_of. rewrite index_discriminant. simpl.
  destruct (lookup_lt_is_Some_2 (parms self) (Parm.discriminant p)) as [v ->]; [|done].
  rewrite H. apply discriminant_lt.
Qed.

Lemma wf_get self p : wf self -> get self p = Ok (value_of self p).
Proof. intros [H _]. by apply get_value_of. Qed.

Lemma wf_assignable self p : wf self -> verify_assign (value_of self p) p = Ok tt.
Proof. intros H. apply H. by apply wf_get. Qed.

Lemma wf_default : wf DEFAULT_PARAMETERS.
Proof.
  split; [done|]. intros p v. rewrite get_default. intros [= <-].
  apply default_value_assignable.
Qed.

Lemma verify_assign_returns v p :
  verify_assign v p = Ok tt \/ exists e, verify_assign v p = Err e.
Proof.
  unfold verify_assign. destruct (Parm.parm_type p);
    [destruct (bool_value v)|destruct (int_value v)|destruct v]; eauto.
Qed.

(** Storing a value of the right type. *)
Definition store (p : Parm) (v : Value) (self : Parameters) : Parameters :=
  let self1 := touch p self in
  MkParameters (<[Parm.discriminant p := v]> (parms self)) (user_changed self1)
    (password_changed self1) (timezone_set self1).

Lemma touch_parms p self : parms (touch p self) = parms self.
Proof. by destruct p. Qed.

Lemma store_length p v self : length (parms (store p v self)) = length (parms self).
Proof. simpl. apply length_insert. Qed.

Lemma value_of_store p v self q :
  length (parms self) = PARM_TABLE_SIZE ->
  value_of (store p v self) q = if decide (q = p) then v else value_of self q.
Proof.
  intros H. unfold value_of, store. simpl. destruct (decide (q = p)) as [->|Hne].
  - rewrite list_lookup_insert_eq; [done|]. rewrite H. apply discriminant_lt.
  - rewrite list_lookup_insert_ne; [done|]. intros E. by apply Hne, eq_sym, discriminant_inj.
Qed.

Lemma wf_store p v self : wf self -> verify_assign v p = Ok tt -> wf (store p v self).
Proof.
  intros Hwf Hv. split; [rewrite store_length; apply Hwf|]. intros q w Hq.
  rewrite get_value_of in Hq by (rewrite store_length; apply Hwf).
  rewrite value_of_store in Hq by apply Hwf. injection Hq as <-.
  destruct (decide (q = p)) as [->|_]; [done|]. by apply wf_assignable.
Qed.

Lemma wf_parms self self' : parms self' = parms self -> wf self -> wf self'.
Proof. unfold wf, get. by intros ->. Qed.

Lemma replace_ok p v self :
  wf self -> verify_assign v p = Ok tt ->
  replace p v self = (Ok (value_of self p), store p v self).
Proof.
  intros Hwf Hv. unfold replace, sbind, slift, sget, sput, sret. rewrite Hv.
  rewrite (get_value_of (touch p self)) by (rewrite touch_parms; apply Hwf).
  rewrite index_discriminant. unfold store, value_of. by rewrite touch_parms.
Qed.

Lemma replace_err p v self e :
  verify_assign v p = Err e -> replace p v self = (Err e, self).
Proof. intros Hv. unfold replace, sbind, slift. by rewrite Hv. Qed.

Lemma set_ok p v self :
  wf self -> verify_assign v p = Ok tt -> set p v self = (Ok tt, store p v self).
Proof. intros Hwf Hv. unfold set, sbind. by rewrite replace_ok. Qed.

Lemma set_err p v self e : verify_assign v p = Err e -> set p v self = (Err e, self).
Proof. intros Hv. unfold set, sbind. by erewrite replace_err. Qed.

(** [clear_timezone_set] as a function on the table. *)
Definition restore (p : Parm) (self : Parameters) : Parameters :=
  (clear_timezone_set p (store p (default_value p) self)).2.

Lemma reset_ok p self : wf self -> reset p self = (Ok tt, restore p self).
Proof.
  intros Hwf. unfold reset, unwrap, sbind, slift. rewrite get_default.
  by rewrite set_ok by auto using default_value_assignable.
Qed.

Lemma take_ok p self : wf self -> take_parm p self = (Ok (value_of self p), restore p self).
Proof.
  intros Hwf. unfold take_parm, unwrap, sbind, slift. rewrite get_default.
  by rewrite replace_ok by auto using default_value_assignable.
Qed.

Lemma restore_parms p self : parms (restore p self) = parms (store p (default_value p) self).
Proof. unfold restore, clear_timezone_set. simpl. by case_bool_decide. Qed.

Lemma wf_restore p self : wf self -> wf (restore p self).
Proof.
  intros Hwf. eapply wf_parms; [apply restore_parms|].
  by apply wf_store, default_value_assignable.
Qed.

#[export] Hint Resolve wf_store wf_restore default_value_assignable wf_default : rust.

(** ** The contract of a parameter table

    A map from parameters to values, together with what has been touched since
    the last boundary.  A request that is refused leaves it as it was. *)

Record settings := MkSettings {
  val : Parm -> Value;
  user_touched : bool;
  password_touched : bool;
  timezone_given : bool
}.

Definition assign (p : Parm) (v : Value) (s : settings) : settings :=
  MkSettings (fun q => if decide (q = p) then v else val s q)
    (user_touched s || bool_decide (p = Parm.User))
    (password_touched s || bool_decide (p = Parm.Password))
    (timezone_given s || bool_decide (p = Parm.Timezone)).

Definition forget (p : Parm) (s : settings) : settings :=
  let s1 := assign p (default_value p) s in
  MkSettings (val s1) (user_touched s1) (password_touched s1)
    (timezone_given s && negb (bool_decide (p = Parm.Timezone))).

Definition pair_credentials (s : settings) : settings :=
  let s1 := if user_touched s && negb (password_touched s) then forget Parm.Password s
            else if password_touched s && negb (user_touched s) then forget Parm.User s
            else s in
  MkSettings (val s1) false false (timezone_given s1).

(** The requests that change a table. *)
Inductive request :=
| Set_ (p : Parm) (v : Value)
| Replace (p : Parm) (v : Value)
| Reset_ (p : Parm)
| Take (p : Parm)
| Named (name : bytes) (v : Value)
| Boundary.

Definition nothing (m : pcomp unit) : pcomp (option Value) := do! m in sret None.

(** A request as the code performs it, with the value that it returns. *)
Definition perform (r : request) : pcomp (option Value) :=
  match r with
  | Set_ p v => nothing (set p v)
  | Replace p v => do? old := replace p v in sret (Some old)
  | Reset_ p => nothing (reset p)
  | Take p => do? old := take_parm p in sret (Some old)
  | Named name v => nothing (set_named name v)
  | Boundary => nothing boundary
  end.

Definition spec_assign (p : Parm) (v : Value) (out : option Value) (s : settings)
    : res ParmError (option Value) * settings :=
  match verify_assign v p with
  | Err e => (Err e, s)
  | _ => (Ok out, assign p v s)
  end.

Definition perform_spec (r : request) (s : settings)
    : res ParmError (option Value) * settings :=
  match r with
  | Set_ p v => spec_assign p v None s
  | Replace p v => spec_assign p v (Some (val s p)) s
  | Reset_ p => (Ok None, forget p s)
  | Take p => (Ok (Some (val s p)), forget p s)
  | Named name v =>
      match Parm.from_str name with
      | Some p => spec_assign p v None s
      | None => if Parm.ignored name then (Ok None, s) else (Err (UnknownParameter name), s)
      end
  | Boundary => (Ok None, pair_credentials s)
  end.

(** A client that performs requests one after the other, whatever they return. *)
Fixpoint run {S} (step : request -> S -> res ParmError (option Value) * S)
    (rs : list request) (s : S) : list (res ParmError (option Value)) * S :=
  match rs with
  | [] => ([], s)
  | r :: rs' =>
      let '(o, s1) := step r s in
      let '(os, s2) := run step rs' s1 in
      (o :: os, s2)
  end.

Definition refines (self : Parameters) (s : settings) : Prop :=
  wf self /\ (forall p, value_of self p = val s p) /\
  user_changed self = user_touched s /\ password_changed self = password_touched s /\
  timezone_set self = timezone_given s.

Definition settings_of (self : Parameters) : settings :=
  MkSettings (value_of self) (user_changed self) (password_changed self) (timezone_set self).

Lemma refines_settings_of self : wf self -> refines self (settings_of self).
Proof. by repeat split; try apply H. Qed.

Lemma touch_flags p self :
  user_changed (touch p self) = user_changed self || bool_decide (p = Parm.User) /\
  password_changed (touch p self) = password_changed self || bool_decide (p = Parm.Password) /\
  timezone_set (touch p self) = timezone_set self || bool_decide (p = Parm.Timezone).
Proof. destruct p; simpl; rewrite ?orb_false_r, ?orb_true_r; done. Qed.

Lemma refines_assign self s p v :
  refines self s -> verify_assign v p = Ok tt -> refines (store p v self) (assign p v s).
Proof.
  intros (Hwf & Hv & Hu & Hp & Ht) Hok. destruct (touch_flags p self) as (Eu & Ep & Et).
  split; [auto with rust|]. split.
  - intros q. rewrite value_of_store by apply Hwf. simpl. by rewrite Hv.
  - simpl. by rewrite Eu, Ep, Et, Hu, Hp, Ht.
Qed.

Lemma refines_forget self s p : refines self s -> refines (restore p self) (forget p s).
Proof.
  intros Href. pose proof (refines_assign _ _ p _ Href (default_value_assignable p)) as Ha.
  destruct Ha as (_ & Hv & Hu & Hp & Ht). destruct Href as (Hwf & _ & _ & _ & Ht0).
  split; [auto with rust|]. unfold value_of in *. rewrite restore_parms.
  split; [done|]. unfold restore, clear_timezone_set, forget in *. simpl in *.
  case_bool_decide; simpl; rewrite ?andb_false_r, ?andb_true_r; [done|].
  rewrite Ht, orb_false_r. done.
Qed.

Lemma boundary_refines self s :
  refines self s ->
  exists self', boundary self = (Ok tt, self') /\ refines self' (pair_credentials s).
Proof.
  intros Href. pose proof Href as (Hwf & Hv & Hu & Hp & Ht).
  assert (forall self1 s1, refines self1 s1 ->
    refines (clear_changed self1) (MkSettings (val s1) false false (timezone_given s1))) as Hclear.
  { intros self1 s1 (Hwf1 & Hv1 & _ & _ & Ht1). split; [by eapply wf_parms|]. done. }
  unfold boundary, pair_credentials, sbind, sget, sput. rewrite Hu, Hp.
  destruct (user_touched s), (password_touched s); cbn [andb negb];
    rewrite ?reset_ok by done; (eexists; split; [reflexivity|]); apply Hclear;
    auto using refines_forget.
Qed.

Lemma set_refines self s p v :
  refines self s ->
  exists self', nothing (set p v) self = ((spec_assign p v None s).1, self') /\
    refines self' (spec_assign p v None s).2.
Proof.
  intros Href. unfold spec_assign, nothing, sbind.
  destruct (verify_assign_returns v p) as [Hok|[e He]].
  - rewrite set_ok by (done || apply Href). rewrite Hok. eauto using refines_assign.
  - erewrite set_err by done. rewrite He. eauto.
Qed.

Lemma perform_refines r self s :
  refines self s ->
  exists self', perform r self = ((perform_spec r s).1, self') /\
    refines self' (perform_spec r s).2.
Proof.
  intros Href. pose proof Href as (Hwf & Hv & _).
  destruct r as [p v|p v|p|p|name v|]; simpl.
  - by apply set_refines.
  - unfold spec_assign, sbind. destruct (verify_assign_returns v p) as [Hok|[e He]].
    + rewrite replace_ok by done. rewrite Hok, Hv. eauto using refines_assign.
    + erewrite replace_err by done. rewrite He. eauto.
  - unfold nothing, sbind. rewrite reset_ok by done. eauto using refines_forget.
  - unfold sbind. rewrite take_ok by done. rewrite Hv. eauto using refines_forget.
  - unfold set_named. destruct (Parm.from_str name); [by apply set_refines|].
    destruct (Parm.ignored name); unfold nothing, sbind; simpl; eauto.
  - destruct (boundary_refines self s Href) as (self' & E & Href').
    unfold nothing, sbind. rewrite E. eauto.
Qed.

Lemma run_refines rs self s :
  refines self s ->
  (run perform rs self).1 = (run perform_spec rs s).1 /\
  refines (run perform rs self).2 (run perform_spec rs s).2.
Proof.
  revert self s. induction rs as [|r rs IH]; intros self s Href; [done|].
  destruct (perform_refines r self s Href) as (self1 & E & Href1). simpl. rewrite E.
  destruct (perform_spec r s) as [o s1]. simpl in *. destruct (IH self1 s1 Href1) as [Eo Es].
  destruct (run perform rs self1), (run perform_spec rs s1). simpl in *. by subst.
Qed.

Lemma run_wf rs self : wf self -> wf (run perform rs self).2.
Proof. intros H. by destruct (run_refines rs self _ (refines_settings_of self H)) as (_ & ? & _). Qed.

(** ** Theorems *)

(** C28: A table of parameters behaves as a map.  Whatever requests a client
    performs, in whatever order and going on after refusals, the array with its
    flags returns the same results as the abstract map and stays related to it:
    an assignment that does not fit the type of its parameter is refused and
    changes nothing, [take] and [reset] restore the default and no request
    panics. *)
Theorem parameters_refine (rs : list request) (self : Parameters) :
  wf self ->
  (run perform rs self).1 = (run perform_spec rs (settings_of self)).1 /\
  refines (run perform rs self).2 (run perform_spec rs (settings_of self)).2.
Proof. intros H. by apply run_refines, refines_settings_of. Qed.

Lemma parameters_refine_witness :
  let rs := [Set_ Parm.User (Int 1); Named (bs "timezone") (Str (bs "60"));
             Take Parm.Timezone; Named (bs "nonsense") (Bool true)] in
  (run perform rs DEFAULT_PARAMETERS).1 =
    [Err (MustBeString Parm.User); Ok None; Ok (Some (Str (bs "60")));
     Err (UnknownParameter (bs "nonsense"))] /\
  timezone_set (run perform rs DEFAULT_PARAMETERS).2 = false.
Proof.
  intros rs. destruct (parameters_refine rs DEFAULT_PARAMETERS wf_default) as [E R].
  destruct R as (_ & _ & _ & _ & Et). rewrite E, Et. split; reflexivity.
Defined.

(** C35: Reading a parameter at its own type never fails.  After any requests on
    a fresh table, [get_bool] of a boolean parameter, [get_int] of an integer
    parameter and [get_str] of any parameter return a value. *)
Theorem typed_reads_succeed rs p :
  let self := (run perform rs DEFAULT_PARAMETERS).2 in
  (exists s, get_str self p = Ok s) /\
  match Parm.parm_type p with
  | ParmType.Bool => exists b, get_bool self p = Ok b
  | ParmType.Int => exists i, get_int self p = Ok i
  | ParmType.Str => exists s, get self p = Ok (Str s)
  end.
Proof.
  intros self. assert (wf self) as Hwf by apply run_wf, wf_default.
  pose proof (wf_assignable self p Hwf) as Ha. unfold get_str, get_bool, get_int.
  rewrite (wf_get self p Hwf). simpl. split; [eauto|]. unfold verify_assign in Ha.
  destruct (Parm.parm_type p).
  - destruct (bool_value _); [eauto|done].
  - destruct (int_value _); [eauto|done].
  - destruct (value_of self p); [done..|eauto].
Qed.

Lemma from_str_sound name p :
  Parm.from_str name = Some p ->
  name = Parm.as_str p \/ (name = bs "fetchsize" /\ p = Parm.ReplySize).
Proof.
  unfold Parm.from_str. intros ([i [text q]] & H & ->)%fmap_Some.
  apply list_find_Some in H as (Hi & <- & _). simpl.
  apply list_elem_of_lookup_2 in Hi. unfold Parm.from_str_arms in Hi.
  repeat (apply elem_of_cons in Hi as [[= -> ->]|Hi]; [auto|]).
  by apply not_elem_of_nil in Hi.
Qed.

Lemma from_str_complete name p :
  name = Parm.as_str p \/ (name = bs "fetchsize" /\ p = Parm.ReplySize) ->
  Parm.from_str name = Some p.
Proof. intros [->|[-> ->]]; [destruct p|]; reflexivity. Qed.

(** Parsing the name of a parameter is the inverse of printing it: a name
    is recognised as [p] exactly when it is the text that [as_str] gives for
    [p], with the one alias [fetchsize] for [ReplySize]; so that no two
    parameters share a name. *)
Theorem parm_names_exact name p :
  Parm.from_str name = Some p <->
  name = Parm.as_str p \/ (name = bs "fetchsize" /\ p = Parm.ReplySize).
Proof. split; [apply from_str_sound|apply from_str_complete]. Qed.

(** *** Credentials *)

(** The request assigns the parameter, and the assignment is accepted. *)
Definition assigns (p : Parm) (r : request) : bool :=
  match r with
  | Set_ q v | Replace q v =>
      bool_decide (q = p) && match verify_assign v q with Err _ => false | _ => true end
  | Reset_ q | Take q => bool_decide (q = p)
  | Named name v =>
      match Parm.from_str name with
      | Some q =>
          bool_decide (q = p) && match verify_assign v q with Err _ => false | _ => true end
      | None => false
      end
  | Boundary => false
  end.

Lemma perform_spec_touched r s :
  r <> Boundary ->
  let s' := (perform_spec r s).2 in
  user_touched s' = user_touched s || assigns Parm.User r /\
  password_touched s' = password_touched s || assigns Parm.Password r /\
  (forall p, assigns p r = false -> val s' p = val s p).
Proof.
  intros Hr. assert (forall q v o, let s' := (spec_assign q v o s).2 in
    user_touched s' = user_touched s || assigns Parm.User (Set_ q v) /\
    password_touched s' = password_touched s || assigns Parm.Password (Set_ q v) /\
    (forall p, assigns p (Set_ q v) = false -> val s' p = val s p)) as Hassign.
  { intros q v o. unfold spec_assign, assigns.
    destruct (verify_assign v q); simpl; rewrite ?andb_true_r, ?andb_false_r, ?orb_false_r;
      (split; [done|]); (split; [done|]); intros p; rewrite ?andb_true_r, ?bool_decide_eq_false;
      intros; try done; apply decide_False; congruence. }
  destruct r as [q v|q v|q|q|name v|]; simpl; try apply (Hassign q v).
  1,2: (split; [done|]); (split; [done|]); intros p; rewrite bool_decide_eq_false;
    intros; apply decide_False; congruence.
  - destruct (Parm.from_str name) as [q|]; [apply (Hassign q v)|].
    destruct (Parm.ignored name); simpl; by rewrite !orb_false_r.
  - done.
Qed.

Lemma run_touched rs s :
  Boundary ∉ rs ->
  let s' := (run perform_spec rs s).2 in
  user_touched s' = user_touched s || existsb (assigns Parm.User) rs /\
  password_touched s' = password_touched s || existsb (assigns Parm.Password) rs /\
  (forall p, existsb (assigns p) rs = false -> val s' p = val s p).
Proof.
  revert s. induction rs as [|r rs IH]; intros s Hb; simpl.
  { by rewrite !orb_false_r. }
  apply not_elem_of_cons in Hb as [Hr Hb].
  destruct (perform_spec_touched r s) as (Eu & Ep & Ev); [congruence|].
  destruct (perform_spec r s) as [o s1]. simpl in *. destruct (IH s1 Hb) as (Iu & Ip & Iv).
  destruct (run perform_spec rs s1) as [os s2]. simpl in *.
  rewrite Iu, Ip, Eu, Ep, !orb_assoc. do 2 (split; [done|]).
  intros p [H1 H2]%orb_false_iff. by rewrite Iv, Ev.
Qed.

(** What the boundary after the requests [rs] makes of the credentials. *)
Definition paired (rs : list request) (self s1 s2 : Parameters) : Prop :=
  user_changed s2 = false /\ password_changed s2 = false /\
  (forall p, Parm.is_sensitive p = false -> value_of s2 p = value_of s1 p) /\
  match existsb (assigns Parm.User) rs, existsb (assigns Parm.Password) rs with
  | true, true => value_of s2 Parm.User = value_of s1 Parm.User /\
                  value_of s2 Parm.Password = value_of s1 Parm.Password
  | true, false => value_of s2 Parm.User = value_of s1 Parm.User /\
                   value_of s2 Parm.Password = Str []
  | false, true => value_of s2 Parm.User = Str [] /\
                   value_of s2 Parm.Password = value_of s1 Parm.Password
  | false, false => value_of s2 Parm.User = value_of self Parm.User /\
                    value_of s2 Parm.Password = value_of self Parm.Password
  end.

Lemma boundary_paired rs self :
  wf self -> user_changed self = false -> password_changed self = false ->
  Boundary ∉ rs ->
  let s1 := (run perform rs self).2 in
  exists s2, boundary s1 = (Ok tt, s2) /\ paired rs self s1 s2.
Proof.
  intros Hwf Hu Hp Hb s1.
  destruct (run_refines rs self _ (refines_settings_of self Hwf)) as [_ Href]. fold s1 in Href.
  destruct (run_touched rs (settings_of self) Hb) as (Eu & Ep & Ev).
  destruct (boundary_refines _ _ Href) as (s2 & E2 & (_ & Hv2 & Hu2 & Hp2 & _)).
  destruct Href as (_ & Hv1 & _). simpl in Eu, Ep. rewrite Hu in Eu. rewrite Hp in Ep.
  simpl in Eu, Ep. exists s2. split; [done|]. unfold paired. rewrite Hu2, Hp2.
  do 2 (split; [done|]). unfold pair_credentials in Hv2. rewrite Eu, Ep in Hv2.
  pose proof (Ev Parm.User) as EvU. pose proof (Ev Parm.Password) as EvP.
  destruct (existsb (assigns Parm.User) rs), (existsb (assigns Parm.Password) rs);
    simpl in Hv2; (split; [intros p Hs; rewrite Hv2, Hv1;
      try (rewrite decide_False; [done|by intros ->]); done|]);
    rewrite !Hv2, ?Hv1; simpl; auto.
Qed.

(** Credentials are never mixed.  When requests are performed after a
    boundary and another boundary follows, a user name that was given without a
    password comes with an empty password and the other way round; when neither
    was given both are as before, and no other parameter is changed by the
    boundary. *)
Theorem boundary_pairs_credentials rs self :
  wf self -> user_changed self = false -> password_changed self = false ->
  Boundary ∉ rs ->
  let s1 := (run perform rs self).2 in
  exists s2, boundary s1 = (Ok tt, s2) /\ paired rs self s1 s2.
Proof. apply boundary_paired. Qed.

Lemma boundary_pairs_credentials_witness :
  let rs := [Set_ Parm.User (Str (bs "monetdb")); Set_ Parm.Password (Str (bs "secret"));
             Set_ Parm.Host (Str (bs "example.org"))] in
  let self := (boundary (run perform rs DEFAULT_PARAMETERS).2).2 in
  let s1 := (run perform [Set_ Parm.User (Str (bs "other"))] self).2 in
  exists s2, boundary s1 = (Ok tt, s2) /\ value_of s2 Parm.Password = Str [] /\
    value_of s2 Parm.User = Str (bs "other").
Proof.
  intros rs self.
  destruct (boundary_pairs_credentials [Set_ Parm.User (Str (bs "other"))] self)
    as (s2 & E & _ & _ & _ & Hm).
  - destruct (boundary_refines _ _ (refines_settings_of _ (run_wf rs _ wf_default)))
      as (s' & E & Hr). unfold self. rewrite E. apply Hr.
  - reflexivity.
  - reflexivity.
  - by intros [?|?%not_elem_of_nil]%elem_of_cons.
  - exists s2. destruct Hm as [Hu Hp]. rewrite Hu. split; [exact E|]. split; [exact Hp|]. reflexivity.
Defined.

(** *** Typed setters *)

Definition str_setters : list (Parm * (bytes -> pcomp unit)) :=
  [(Parm.Database, set_database); (Parm.Host, set_host); (Parm.User, set_user);
   (Parm.Password, set_password); (Parm.Cert, set_cert); (Parm.CertHash, set_certhash);
   (Parm.ClientCert, set_clientcert); (Parm.ClientKey, set_clientkey);
   (Parm.Language, set_language); (Parm.Schema, set_schema); (Parm.Sock, set_sock);
   (Parm.SockDir, set_sockdir); (Parm.ClientApplication, set_client_application);
   (Parm.ClientPrefix, set_client_prefix); (Parm.ClientRemark, set_client_remark)].

Definition int_setters : list (Parm * (Z -> pcomp unit)) :=
  [(Parm.Port, set_port); (Parm.ReplySize, set_replysize);
   (Parm.MaxPrefetch, set_maxprefetch); (Parm.Timezone, set_timezone);
   (Parm.ConnectTimeout, set_connect_timeout); (Parm.ReadTimeout, set_read_timeout);
   (Parm.WriteTimeout, set_write_timeout);
   (Parm.OperationTimeout, set_operation_timeout);
   (Parm.MaxResponseSize, set_max_response_size)].

Definition bool_setters : list (Parm * (bool -> pcomp unit)) :=
  [(Parm.Tls, set_tls); (Parm.Autocommit, set_autocommit)].

(** The setter accepts its argument, stores it as the value of its parameter
    and leaves the others alone. *)
Definition stores (p : Parm) (v : Value) (m : pcomp unit) (self : Parameters) : Prop :=
  exists self', m self = (Ok tt, self') /\ wf self' /\
    forall q, value_of self' q = if decide (q = p) then v else value_of self q.

Lemma set_stores p v self : wf self -> verify_assign v p = Ok tt -> stores p v (set p v) self.
Proof.
  intros Hwf Hv. exists (store p v self). rewrite set_ok by done.
  split; [done|]. split; [auto with rust|]. intros q. apply value_of_store, Hwf.
Qed.

(** The typed setters cannot fail.  Each setter of a string, integer or
    boolean parameter stores its argument for its own parameter, whatever the
    argument is, and changes no other parameter. *)
Theorem typed_setters_store self :
  wf self ->
  Forall (fun '(p, m) => forall s, stores p (Str s) (m s) self) str_setters /\
  Forall (fun '(p, m) => forall z, stores p (Int z) (m z) self) int_setters /\
  Forall (fun '(p, m) => forall b, stores p (Bool b) (m b) self) bool_setters.
Proof.
  intros Hwf. repeat split; repeat constructor; intros; by apply set_stores.
Qed.

Lemma typed_setters_store_witness :
  exists self', set_replysize (-5) DEFAULT_PARAMETERS = (Ok tt, self') /\
    value_of self' Parm.ReplySize = Int (-5) /\ value_of self' Parm.Port = Int (-1).
Proof.
  destruct (typed_setters_store DEFAULT_PARAMETERS wf_default) as (_ & Hi & _).
  apply Forall_inv_tail, Forall_inv in Hi. destruct (Hi (-5)) as (self' & E & _ & Hv).
  exists self'. split; [exact E|]. rewrite !Hv. split; reflexivity.
Defined.

(** The setter of [Binary] takes any value, but a number or a boolean is
    refused: only a string can be stored, although [binary_value] would read a
    number or a boolean. *)
Lemma set_binary_strings_only v self :
  set_binary v self = (Err (MustBeString Parm.Binary), self) \/ exists s, v = Str s.
Proof. destruct v; [left|left|right]; eauto. Qed.

(** *** Secrets *)

(** Two tables that may differ in the credentials only. *)
Definition same_public (self other : Parameters) : Prop :=
  (forall p, Parm.is_sensitive p = false -> get self p = get other p) /\
  user_changed self = user_changed other /\
  password_changed self = password_changed other /\
  timezone_set self = timezone_set other.

Lemma ParameterMap_public self other l :
  same_public self other -> ParameterMap self l = ParameterMap other l.
Proof.
  intros (Hg & _). induction l as [|p l IH]; simpl; [done|]. rewrite IH. f_equal.
  unfold debug_parm. destruct (Parm.is_sensitive p) eqn:E; [done|]. by rewrite Hg.
Qed.

(** [Debug] output of a table does not depend on the user name and the
    password: two tables that differ in nothing else are shown alike. *)
Theorem debug_hides_credentials self other :
  same_public self other -> debug self = debug other.
Proof.
  intros H. unfold debug. rewrite (ParameterMap_public self other) by done.
  destruct H as (_ & -> & -> & ->). done.
Qed.

Lemma debug_hides_credentials_witness :
  let with_password s := store Parm.Password (Str (bs s)) DEFAULT_PARAMETERS in
  debug (with_password "secret"%string) = debug (with_password "other"%string) /\
  exists d, debug (with_password "secret"%string) = Ok d.
Proof.
  intros with_password. split.
  - apply debug_hides_credentials. repeat split. intros p Hp.
    destruct p; first [reflexivity|discriminate Hp].
  - eexists. reflexivity.
Defined.
