(* ===== verification/Validate.v ===== *)
(** * Validation of connection parameters (src/parms/parameters.rs)

    [Validated::new] reads every parameter at its type, checks the rules that
    the comments of the source number 2 to 9 and those of the crate, and
    derives where and how to connect.  The rules are definitions of their own,
    called in the order of the source.  Whether the clock can represent the
    present time plus a timeout is a property of the machine: [representable]
    is what [Instant::now().checked_add] answers. *)

From Stdlib Require Import ZArith Lia.
From S2P Require Import Prelude Bytes Errors Parms.

Open Scope Z_scope.

Inductive TlsVerify := Off | Hash | Cert | System.

#[global] Instance TlsVerify_eq_decision : EqDecision TlsVerify.
Proof. solve_decision. Defined.

Definition MAX_TIMEOUT_SECONDS : Z := (ty_max u32 - 1) / 1000.

(** [str::is_empty]. *)
Record Validated := MkValidated {
  database : bytes;
  tls : bool;
  user : bytes;
  password : bytes;
  autocommit : bool;
  cert : bytes;
  language : bytes;
  replysize : Z;
  maxprefetch : option Z;
  schema : bytes;
  client_info : bool;
  client_application : bytes;
  client_prefix : bytes;
  client_remark : bytes;
  connect_timezone_seconds : option Z;
  connect_scan : bool;
  connect_unix : bytes;
  connect_tcp : bytes;
  connect_port : Z;
  connect_tls_verify : TlsVerify;
  connect_certhash_digits : bytes;
  connect_clientkey : bytes;
  connect_clientcert : bytes;
  connect_binary : Z;
  connect_timeout : option Z;
  read_timeout : option Z;
  write_timeout : option Z;
  operation_timeout : option Z;
  max_response_size : Z
}.

(** ** The members before validation *)

Record raw := MkRaw {
  raw_database : bytes; raw_host : bytes; raw_port : Z; raw_tls : bool;
  raw_user : bytes; raw_password : bytes; raw_autocommit : bool;
  raw_cert : bytes; raw_certhash : bytes; raw_clientcert : bytes; raw_clientkey : bytes;
  raw_language : bytes; raw_replysize : Z; raw_maxprefetch : Z;
  raw_schema : bytes; raw_sock : bytes; raw_sockdir : bytes;
  raw_timezone : Z; raw_binary : Value;
  raw_connect_timeout : Z; raw_read_timeout : Z; raw_write_timeout : Z;
  raw_operation_timeout : Z; raw_max_response_size : Z;
  raw_client_info : bool; raw_client_application : bytes;
  raw_client_prefix : bytes; raw_client_remark : bytes;
  raw_tableschema : bytes; raw_table : bytes
}.

Definition extract (parms : Parameters) : res ParmError raw :=
  let? raw_database := get_str parms Parm.Database in
  let? raw_host := get_str parms Parm.Host in
  let? raw_port := get_int parms Parm.Port in
  let? raw_tls := get_bool parms Parm.Tls in
  let? raw_user := get_str parms Parm.User in
  let? raw_password := get_str parms Parm.Password in
  let? raw_autocommit := get_bool parms Parm.Autocommit in
  let? raw_cert := get_str parms Parm.Cert in
  let? raw_certhash := get_str parms Parm.CertHash in
  let? raw_clientcert := get_str parms Parm.ClientCert in
  let? raw_clientkey := get_str parms Parm.ClientKey in
  let? raw_language := get_str parms Parm.Language in
  let? raw_replysize := get_int parms Parm.ReplySize in
  let? raw_maxprefetch := get_int parms Parm.MaxPrefetch in
  let? raw_schema := get_str parms Parm.Schema in
  let? raw_sock := get_str parms Parm.Sock in
  let? raw_sockdir := get_str parms Parm.SockDir in
  let? raw_timezone := get_int parms Parm.Timezone in
  let? raw_binary := get parms Parm.Binary in
  let? raw_connect_timeout := get_int parms Parm.ConnectTimeout in
  let? raw_read_timeout := get_int parms Parm.ReadTimeout in
  let? raw_write_timeout := get_int parms Parm.WriteTimeout in
  let? raw_operation_timeout := get_int parms Parm.OperationTimeout in
  let? raw_max_response_size := get_int parms Parm.MaxResponseSize in
  let? raw_client_info := get_bool parms Parm.ClientInfo in
  let? raw_client_application := get_str parms Parm.ClientApplication in
  let? raw_client_prefix := get_str parms Parm.ClientPrefix in
  let? raw_client_remark := get_str parms Parm.ClientRemark in
  let? raw_tableschema := get_str parms Parm.TableSchema in
  let? raw_table := get_str parms Parm.Table in
  Ok (MkRaw raw_database raw_host raw_port raw_tls raw_user raw_password raw_autocommit
        raw_cert raw_certhash raw_clientcert raw_clientkey raw_language raw_replysize
        raw_maxprefetch raw_schema raw_sock raw_sockdir raw_timezone raw_binary
        raw_connect_timeout raw_read_timeout raw_write_timeout raw_operation_timeout
        raw_max_response_size raw_client_info raw_client_application raw_client_prefix
        raw_client_remark raw_tableschema raw_table).

(** ** Rules *)

(** [if cond { return Err(e) }]. *)
Definition refuse_if (cond : bool) (e : ParmError) : res ParmError unit :=
  if cond then Err e else Ok tt.

Definition valid_name_char (c : byte) : bool :=
  is_alnum c || bool_decide (c = x2d) || bool_decide (c = x2e) || bool_decide (c = x5f).

Definition valid_name (parm : Parm) (name : bytes) : res ParmError bytes :=
  if negb (forallb valid_name_char name) then Err (InvalidValue parm)
  else if starts_with [x2d] name then Err (InvalidValue parm)
  else Ok name.

(** One character of a fingerprint: the digit to keep, a colon to skip, or an
    error. *)
Definition certhash_char (c : byte) : option bytes :=
  if is_digit c || between 97 102 c then Some [c]
  else if between 65 70 c then Some [to_lower c]
  else if bool_decide (c = x3a) then Some []
  else None.

Fixpoint certhash_loop (digits fingerprint : bytes) : option bytes :=
  match fingerprint with
  | [] => Some digits
  | c :: rest =>
      match certhash_char c with
      | Some d => certhash_loop (digits ++ d) rest
      | None => None
      end
  end.

Definition valid_certhash (certhash : bytes) : res ParmError bytes :=
  match strip_prefix (bs "sha256:") certhash with
  | None => Err (InvalidValue Parm.CertHash)
  | Some fingerprint =>
      match certhash_loop [] fingerprint with
      | None => Err (InvalidValue Parm.CertHash)
      | Some digits =>
          if negb ((16 <=? length digits) && (length digits <=? 64))%nat
          then Err (InvalidValue Parm.CertHash)
          else Ok digits
      end
  end.

(** Rules 2 to 6: the binary level and the digits of the certificate pin. *)
Definition check_transport (r : raw) : res ParmError (Z * bytes) :=
  let? _ := refuse_if (negb (is_empty (raw_host r)) && negb (is_empty (raw_sock r)))
              HostSockConflict in
  let? connect_binary := ok_or (binary_value (raw_binary r)) InvalidBinary in
  let? _ := refuse_if (negb (is_empty (raw_sock r)) && raw_tls r) (OnlyWithTls Parm.Sock) in
  let? connect_certhash_digits :=
    if is_empty (raw_certhash r) then Ok [] else valid_certhash (raw_certhash r) in
  let? _ :=
    if negb (raw_tls r) then
      let? _ := refuse_if (negb (is_empty (raw_cert r))) (OnlyWithTls Parm.Cert) in
      refuse_if (negb (is_empty (raw_certhash r))) (OnlyWithTls Parm.CertHash)
    else Ok tt in
  Ok (connect_binary, connect_certhash_digits).

(** Rules 7 and 8: the names and the port. *)
Definition check_names (r : raw) : res ParmError bytes :=
  let? database := valid_name Parm.Database (raw_database r) in
  let? _ := valid_name Parm.TableSchema (raw_tableschema r) in
  let? _ := valid_name Parm.Table (raw_table r) in
  Ok database.

Definition check_port (r : raw) : res ParmError Z :=
  if raw_port r =? -1 then Ok 50000
  else if (1 <=? raw_port r) && (raw_port r <=? 65535) then Ok (wrap 16 (raw_port r))
  else Err (InvalidValue Parm.Port).

(** Rule 9 and the rules of this crate. *)
Definition check_client (r : raw) : res ParmError unit :=
  let newline s := bool_decide (x0a ∈ s) in
  let? _ := refuse_if (negb (is_empty (raw_clientcert r)) && is_empty (raw_clientkey r))
              ClientCertRequiresKey in
  let? _ := refuse_if (raw_client_info r && newline (raw_client_application r))
              (ClientInfoNewline Parm.ClientApplication) in
  let? _ := refuse_if (raw_client_info r && newline (raw_client_prefix r))
              (ClientInfoNewline Parm.ClientPrefix) in
  let? _ := refuse_if (raw_client_info r && newline (raw_client_remark r))
              (ClientInfoNewline Parm.ClientRemark) in
  refuse_if (negb (bool_decide (raw_language r = bs "sql"))) (InvalidValue Parm.Language).

(** ** Virtual parameters *)

Definition scan_of (r : raw) (database : bytes) : bool :=
  negb (is_empty database) && is_empty (raw_sock r) && is_empty (raw_host r)
  && (raw_port r =? -1) && negb (raw_tls r).

Definition unix_of (r : raw) (connect_port : Z) : bytes :=
  if negb (is_empty (raw_sock r)) then raw_sock r
  else if raw_tls r then []
  else if is_empty (raw_host r)
  then raw_sockdir r ++ bs "/.s.monetdb." ++ print_int connect_port
  else [].

Definition tcp_of (r : raw) : bytes :=
  if negb (is_empty (raw_sock r)) then []
  else if is_empty (raw_host r) then bs "localhost"
  else raw_host r.

Definition tls_verify_of (r : raw) (connect_certhash_digits : bytes) : TlsVerify :=
  if negb (raw_tls r) then Off
  else if negb (is_empty connect_certhash_digits) then Hash
  else if negb (is_empty (raw_cert r)) then Cert
  else System.

Definition clientcert_of (r : raw) : bytes :=
  if negb (is_empty (raw_clientcert r)) then raw_clientcert r else raw_clientkey r.

Definition timezone_of (parms : Parameters) (r : raw) : res ParmError (option Z) :=
  if timezone_set parms then
    let? minutes := ok_or (checked i32 (raw_timezone r)) (InvalidValue Parm.Timezone) in
    let? seconds := ok_or (checked i32 (minutes * 60)) (InvalidValue Parm.Timezone) in
    Ok (Some seconds)
  else Ok None.

(** A size in bytes or rows: a [usize] other than zero. *)
Definition nonzero_of (parm : Parm) (value : Z) : res ParmError Z :=
  ok_or (checked usize value ≫= fun size => if negb (size =? 0) then Some size else None)
    (InvalidValue parm).

Definition maxprefetch_of (r : raw) : res ParmError (option Z) :=
  let value := raw_maxprefetch r in
  if value =? -1 then Ok None
  else if 0 <=? value then
    let? n := ok_or (checked usize value) (InvalidValue Parm.MaxPrefetch) in Ok (Some n)
  else Err (InvalidValue Parm.MaxPrefetch).

Section Clock.
Context (representable : Z -> bool).

Definition valid_timeout (parm : Parm) (seconds : Z) : res ParmError (option Z) :=
  if seconds =? 0 then Ok None
  else if (1 <=? seconds) && (seconds <=? MAX_TIMEOUT_SECONDS) then
    let timeout := wrap 64 seconds in
    if negb (representable timeout) then Err (InvalidValue parm)
    else Ok (Some timeout)
  else Err (InvalidValue parm).

Definition Validated_new (parms : Parameters) : res ParmError Validated :=
  let? r := extract parms in
  let? transport := check_transport r in
  let (connect_binary, connect_certhash_digits) := transport in
  let? database := check_names r in
  let? connect_port := check_port r in
  let? _ := check_client r in
  let connect_scan := scan_of r database in
  let connect_unix := unix_of r connect_port in
  let connect_tcp := tcp_of r in
  let connect_tls_verify := tls_verify_of r connect_certhash_digits in
  let connect_clientkey := raw_clientkey r in
  let connect_clientcert := clientcert_of r in
  let? connect_timezone_seconds := timezone_of parms r in
  let? connect_timeout := valid_timeout Parm.ConnectTimeout (raw_connect_timeout r) in
  let? read_timeout := valid_timeout Parm.ReadTimeout (raw_read_timeout r) in
  let? write_timeout := valid_timeout Parm.WriteTimeout (raw_write_timeout r) in
  let? operation_timeout := valid_timeout Parm.OperationTimeout (raw_operation_timeout r) in
  let? replysize := nonzero_of Parm.ReplySize (raw_replysize r) in
  let? maxprefetch := maxprefetch_of r in
  let? max_response_size := nonzero_of Parm.MaxResponseSize (raw_max_response_size r) in
  Ok (MkValidated database (raw_tls r) (raw_user r) (raw_password r) (raw_autocommit r)
        (raw_cert r) (raw_language r) replysize maxprefetch (raw_schema r)
        (raw_client_info r) (raw_client_application r) (raw_client_prefix r)
        (raw_client_remark r) connect_timezone_seconds connect_scan connect_unix
        connect_tcp connect_port connect_tls_verify connect_certhash_digits
        connect_clientkey connect_clientcert connect_binary connect_timeout read_timeout
        write_timeout operation_timeout max_response_size).

Definition validate (self : Parameters) : res ParmError Validated := Validated_new self.

End Clock.

(** ** Debug output *)

Inductive debug_field :=
| FRedacted
| FStr (s : bytes)
| FBool (b : bool)
| FNum (z : Z)
| FOpt (o : option Z)
| FVerify (v : TlsVerify).

Definition debug_validated (self : Validated) : list (string * debug_field) :=
  [("database", FStr (database self)); ("tls", FBool (tls self));
   ("user", FRedacted); ("password", FRedacted);
   ("autocommit", FBool (autocommit self)); ("cert", FStr (cert self));
   ("language", FStr (language self)); ("replysize", FNum (replysize self));
   ("maxprefetch", FOpt (maxprefetch self)); ("schema", FStr (schema self));
   ("client_info", FBool (client_info self));
   ("client_application", FStr (client_application self));
   ("client_prefix", FStr (client_prefix self));
   ("client_remark", FStr (client_remark self));
   ("connect_timezone_seconds", FOpt (connect_timezone_seconds self));
   ("connect_scan", FBool (connect_scan self));
   ("connect_unix", FStr (connect_unix self)); ("connect_tcp", FStr (connect_tcp self));
   ("connect_port", FNum (connect_port self));
   ("connect_tls_verify", FVerify (connect_tls_verify self));
   ("connect_certhash_digits", FStr (connect_certhash_digits self));
   ("connect_clientkey", FStr (connect_clientkey self));
   ("connect_clientcert", FStr (connect_clientcert self));
   ("connect_binary", FNum (connect_binary self));
   ("connect_timeout", FOpt (connect_timeout self));
   ("read_timeout", FOpt (read_timeout self));
   ("write_timeout", FOpt (write_timeout self));
   ("operation_timeout", FOpt (operation_timeout self));
   ("max_response_size", FNum (max_response_size self))]%string.

(** ** Lemmas: reading the members *)

Definition str_of (self : Parameters) (p : Parm) : bytes := str_value (value_of self p).
Definition int_of (self : Parameters) (p : Parm) : Z := default 0 (int_value (value_of self p)).
Definition bool_of (self : Parameters) (p : Parm) : bool :=
  default false (bool_value (value_of self p)).

Lemma get_str_of self p : wf self -> get_str self p = Ok (str_of self p).
Proof. intros H. unfold get_str. by rewrite wf_get. Qed.

Lemma get_int_of self p :
  wf self -> Parm.parm_type p = ParmType.Int -> get_int self p = Ok (int_of self p).
Proof.
  intros H Ht. unfold get_int, int_of. rewrite wf_get by done. simpl.
  pose proof (wf_assignable self p H) as Ha. unfold verify_assign in Ha. rewrite Ht in Ha.
  by destruct (int_value _).
Qed.

Lemma get_bool_of self p :
  wf self -> Parm.parm_type p = ParmType.Bool -> get_bool self p = Ok (bool_of self p).
Proof.
  intros H Ht. unfold get_bool, bool_of. rewrite wf_get by done. simpl.
  pose proof (wf_assignable self p H) as Ha. unfold verify_assign in Ha. rewrite Ht in Ha.
  by destruct (bool_value _).
Qed.

Definition raw_of (self : Parameters) : raw :=
  let s := str_of self in let i := int_of self in let b := bool_of self in
  MkRaw (s Parm.Database) (s Parm.Host) (i Parm.Port) (b Parm.Tls) (s Parm.User)
    (s Parm.Password) (b Parm.Autocommit) (s Parm.Cert) (s Parm.CertHash)
    (s Parm.ClientCert) (s Parm.ClientKey) (s Parm.Language) (i Parm.ReplySize)
    (i Parm.MaxPrefetch) (s Parm.Schema) (s Parm.Sock) (s Parm.SockDir)
    (i Parm.Timezone) (value_of self Parm.Binary) (i Parm.ConnectTimeout)
    (i Parm.ReadTimeout) (i Parm.WriteTimeout) (i Parm.OperationTimeout)
    (i Parm.MaxResponseSize) (b Parm.ClientInfo) (s Parm.ClientApplication)
    (s Parm.ClientPrefix) (s Parm.ClientRemark) (s Parm.TableSchema) (s Parm.Table).

Lemma extract_ok self : wf self -> extract self = Ok (raw_of self).
Proof.
  intros H. unfold extract.
  repeat (rewrite ?get_str_of, ?get_int_of, ?get_bool_of, ?wf_get by done; cbn [res_bind]).
  done.
Qed.

(** ** Lemmas: each rule as a condition *)

Lemma refuse_if_returns b e : returns (refuse_if b e).
Proof. by destruct b. Qed.



(** Letters, digits, dashes, periods and underscores, not a dash first. *)
Definition name_ok (s : bytes) : Prop :=
  Forall (fun c => valid_name_char c = true) s /\ head s <> Some x2d.

Lemma valid_name_ok p s d : valid_name p s = Ok d <-> d = s /\ name_ok s.
Proof.
  unfold valid_name, name_ok.
  assert (forallb valid_name_char s = true <-> Forall (fun c => valid_name_char c = true) s) as Hf.
  { rewrite forallb_forall, Forall_forall. split; intros H c; specialize (H c);
      rewrite <- ?list_elem_of_In in *; auto. }
  assert (starts_with [x2d] s = true <-> head s = Some x2d) as Hs.
  { rewrite starts_with_spec. destruct s; simpl; naive_solver. }
  destruct (forallb valid_name_char s) eqn:E1; simpl.
  - destruct (starts_with [x2d] s) eqn:E2; naive_solver.
  - naive_solver.
Qed.

Definition is_hex (c : byte) : bool := is_digit c || between 97 102 c || between 65 70 c.

(** [sha256:] and hexadecimal digits with colons between them, 16 to 64 digits. *)
Definition pin_digits (fingerprint : bytes) : bytes :=
  to_lower <$> filter (fun c => c <> x3a) fingerprint.

Definition pin_ok (certhash digits : bytes) : Prop :=
  exists fingerprint, certhash = bs "sha256:" ++ fingerprint /\
    Forall (fun c => is_hex c = true \/ c = x3a) fingerprint /\
    digits = pin_digits fingerprint /\ (16 <= length digits <= 64)%nat.

Lemma certhash_char_spec c :
  certhash_char c =
    if is_hex c then Some [to_lower c] else if bool_decide (c = x3a) then Some [] else None.
Proof. destruct c; reflexivity. Qed.

Lemma hex_not_colon c : is_hex c = true -> c <> x3a.
Proof. by intros H ->. Qed.

Lemma certhash_loop_ok acc fp d :
  certhash_loop acc fp = Some d <->
  Forall (fun c => is_hex c = true \/ c = x3a) fp /\ d = acc ++ pin_digits fp.
Proof.
  revert acc. induction fp as [|c fp IH]; intros acc; simpl.
  { unfold pin_digits. simpl. rewrite app_nil_r. naive_solver. }
  rewrite certhash_char_spec, Forall_cons. unfold pin_digits. rewrite filter_cons.
  destruct (is_hex c) eqn:Eh.
  - rewrite decide_True by by apply hex_not_colon. rewrite IH, fmap_cons, <- app_assoc.
    naive_solver.
  - case_bool_decide as Ec.
    + rewrite decide_False by naive_solver. rewrite IH, app_nil_r. naive_solver.
    + naive_solver.
Qed.

Lemma valid_certhash_ok s d : valid_certhash s = Ok d <-> pin_ok s d.
Proof.
  unfold valid_certhash, pin_ok. split.
  - destruct (strip_prefix _ s) as [fp|] eqn:Es; [|done]. apply strip_prefix_Some in Es.
    destruct (certhash_loop [] fp) as [d'|] eqn:El; [|done]. apply certhash_loop_ok in El.
    destruct ((16 <=? _)%nat && _)%bool eqn:Eb; [|done]. intros [= <-].
    apply andb_true_iff in Eb as [?%Nat.leb_le ?%Nat.leb_le]. naive_solver.
  - intros (fp & -> & Hf & -> & Hl).
    rewrite (proj2 (strip_prefix_Some (bs "sha256:") _ fp)) by done.
    rewrite (proj2 (certhash_loop_ok [] fp (pin_digits fp))) by done.
    rewrite (proj2 (Nat.leb_le _ _)), (proj2 (Nat.leb_le _ _)) by lia. done.
Qed.

Lemma valid_certhash_returns s : returns (valid_certhash s).
Proof.
  unfold valid_certhash. destruct (strip_prefix _ _); [|done].
  destruct (certhash_loop _ _); [|done]. by destruct (negb _).
Qed.

Lemma check_transport_ok r b d :
  check_transport r = Ok (b, d) <->
  (raw_host r = [] \/ raw_sock r = []) /\
  binary_value (raw_binary r) = Some b /\
  (raw_sock r <> [] -> raw_tls r = false) /\
  (raw_certhash r = [] /\ d = [] \/ raw_certhash r <> [] /\ pin_ok (raw_certhash r) d) /\
  (raw_tls r = false -> raw_cert r = [] /\ raw_certhash r = []).
Proof.
  unfold check_transport. rewrite <- (valid_certhash_ok (raw_certhash r) d).
  destruct (is_empty (raw_host r)) eqn:E1; [apply is_empty_spec in E1|apply is_empty_false in E1];
  (destruct (is_empty (raw_sock r)) eqn:E2; [apply is_empty_spec in E2|apply is_empty_false in E2]);
  (destruct (is_empty (raw_cert r)) eqn:E3; [apply is_empty_spec in E3|apply is_empty_false in E3]);
  (destruct (is_empty (raw_certhash r)) eqn:E4; [apply is_empty_spec in E4|apply is_empty_false in E4]);
  destruct (raw_tls r), (binary_value (raw_binary r)), (valid_certhash (raw_certhash r));
  simpl; naive_solver.
Qed.

Lemma check_names_ok r d :
  check_names r = Ok d <->
  d = raw_database r /\ name_ok (raw_database r) /\ name_ok (raw_tableschema r) /\
  name_ok (raw_table r).
Proof.
  unfold check_names. rewrite res_bind_ok. setoid_rewrite valid_name_ok.
  setoid_rewrite res_bind_ok. setoid_rewrite valid_name_ok.
  setoid_rewrite res_bind_ok. setoid_rewrite valid_name_ok. split.
  - intros (? & [-> ?] & ? & [-> ?] & ? & [-> ?] & [= <-]). done.
  - intros (-> & ? & ? & ?). eauto 10.
Qed.

Lemma check_port_ok r z :
  check_port r = Ok z <->
  (raw_port r = -1 /\ z = 50000) \/ (1 <= raw_port r <= 65535 /\ z = raw_port r).
Proof.
  unfold check_port. destruct (Z.eqb_spec (raw_port r) (-1)); [naive_solver lia|].
  destruct ((1 <=? raw_port r) && (raw_port r <=? 65535)) eqn:E.
  - assert (1 <= raw_port r <= 65535) by lia. unfold wrap. rewrite Z.mod_small by lia.
    naive_solver lia.
  - naive_solver lia.
Qed.

Lemma newline_spec (s : bytes) : bool_decide (x0a ∈ s) = false <-> x0a ∉ s.
Proof. apply bool_decide_eq_false. Qed.

Lemma check_client_ok r u :
  check_client r = Ok u <->
  (raw_clientcert r <> [] -> raw_clientkey r <> []) /\
  (raw_client_info r = true -> x0a ∉ raw_client_application r /\
     x0a ∉ raw_client_prefix r /\ x0a ∉ raw_client_remark r) /\
  raw_language r = bs "sql".
Proof.
  unfold check_client. rewrite <- !newline_spec.
  destruct (is_empty (raw_clientcert r)) eqn:E1; [apply is_empty_spec in E1|apply is_empty_false in E1];
  (destruct (is_empty (raw_clientkey r)) eqn:E2; [apply is_empty_spec in E2|apply is_empty_false in E2]);
  destruct (raw_client_info r), (bool_decide (x0a ∈ raw_client_application r)),
    (bool_decide (x0a ∈ raw_client_prefix r)), (bool_decide (x0a ∈ raw_client_remark r)),
    u; simpl; try naive_solver;
  unfold refuse_if; case_bool_decide; simpl; naive_solver.
Qed.

Lemma timezone_of_ok self r o :
  timezone_of self r = Ok o <->
  (timezone_set self = false /\ o = None) \/
  (timezone_set self = true /\ in_type i32 (raw_timezone r * 60) = true /\
   o = Some (raw_timezone r * 60)).
Proof.
  unfold timezone_of. destruct (timezone_set self); [|naive_solver].
  destruct (in_type i32 (raw_timezone r * 60)) eqn:E.
  - assert (in_type i32 (raw_timezone r) = true) as E'.
    { rewrite in_type_spec in *. simpl in *. lia. }
    unfold checked. rewrite E'. simpl. rewrite E. simpl. naive_solver.
  - unfold checked. destruct (in_type i32 (raw_timezone r)); simpl; rewrite ?E; simpl; naive_solver.
Qed.

Lemma nonzero_of_ok p z n : nonzero_of p z = Ok n <-> n = z /\ 1 <= z <= ty_max usize.
Proof.
  unfold nonzero_of. rewrite ok_or_ok. unfold checked.
  destruct (in_type usize z) eqn:E.
  - apply in_type_spec in E. simpl in *. destruct (Z.eqb_spec z 0); simpl; naive_solver lia.
  - simpl. split; [done|]. intros [_ H]. assert (in_type usize z = true); [|congruence].
    apply in_type_spec. simpl in *. lia.
Qed.

Lemma maxprefetch_of_ok r o :
  maxprefetch_of r = Ok o <->
  (raw_maxprefetch r = -1 /\ o = None) \/
  (0 <= raw_maxprefetch r <= ty_max usize /\ o = Some (raw_maxprefetch r)).
Proof.
  unfold maxprefetch_of. destruct (Z.eqb_spec (raw_maxprefetch r) (-1)); [naive_solver lia|].
  destruct (Z.leb_spec 0 (raw_maxprefetch r)); [|naive_solver lia].
  unfold checked. destruct (in_type usize (raw_maxprefetch r)) eqn:E; simpl.
  - apply in_type_spec in E. simpl in *. naive_solver lia.
  - split; [done|]. intros [[? _]|[Hr _]]; [lia|].
    assert (in_type usize (raw_maxprefetch r) = true); [|congruence].
    apply in_type_spec. simpl in *. lia.
Qed.

Section Timeouts.
Context (representable : Z -> bool).

(** Zero turns the timeout off; the others are bounded and can be added to the clock. *)
Definition timeout_ok (z : Z) : Prop :=
  z = 0 \/ (1 <= z <= MAX_TIMEOUT_SECONDS /\ representable z = true).

Lemma valid_timeout_ok p z o :
  valid_timeout representable p z = Ok o <->
  timeout_ok z /\ o = (if z =? 0 then None else Some z).
Proof.
  unfold valid_timeout, timeout_ok. destruct (Z.eqb_spec z 0); [naive_solver lia|].
  destruct ((1 <=? z) && (z <=? MAX_TIMEOUT_SECONDS)) eqn:E.
  - assert (MAX_TIMEOUT_SECONDS < 2 ^ 64) by done.
    assert (1 <= z <= MAX_TIMEOUT_SECONDS) by lia.
    unfold wrap. rewrite Z.mod_small by lia. destruct (representable z) eqn:Er; naive_solver lia.
  - naive_solver lia.
Qed.

(** ** The contract of validation *)

(** The rules that are checked. *)
Record acceptable (self : Parameters) : Prop := Acceptable {
  acc_endpoint : str_of self Parm.Host = [] \/ str_of self Parm.Sock = [];
  acc_binary : exists b, binary_value (value_of self Parm.Binary) = Some b;
  acc_sock : str_of self Parm.Sock <> [] -> bool_of self Parm.Tls = false;
  acc_pin : str_of self Parm.CertHash = [] \/
    exists digits, pin_ok (str_of self Parm.CertHash) digits;
  acc_tls : bool_of self Parm.Tls = false ->
    str_of self Parm.Cert = [] /\ str_of self Parm.CertHash = [];
  acc_names : Forall (fun p => name_ok (str_of self p))
    [Parm.Database; Parm.TableSchema; Parm.Table];
  acc_port : int_of self Parm.Port = -1 \/ 1 <= int_of self Parm.Port <= 65535;
  acc_clientcert : str_of self Parm.ClientCert <> [] -> str_of self Parm.ClientKey <> [];
  acc_info : bool_of self Parm.ClientInfo = true ->
    Forall (fun p => x0a ∉ str_of self p)
      [Parm.ClientApplication; Parm.ClientPrefix; Parm.ClientRemark];
  acc_language : str_of self Parm.Language = bs "sql";
  acc_timezone : timezone_set self = true ->
    in_type i32 (int_of self Parm.Timezone * 60) = true;
  acc_timeouts : Forall (fun p => timeout_ok (int_of self p))
    [Parm.ConnectTimeout; Parm.ReadTimeout; Parm.WriteTimeout; Parm.OperationTimeout];
  acc_sizes : Forall (fun p => 1 <= int_of self p <= ty_max usize)
    [Parm.ReplySize; Parm.MaxResponseSize];
  acc_prefetch : -1 <= int_of self Parm.MaxPrefetch <= ty_max usize
}.

(** The last two sentences of rule 7: a table is named with its table schema and a
    table schema with its database. *)
Definition path_complete (self : Parameters) : Prop :=
  (str_of self Parm.Table <> [] -> str_of self Parm.TableSchema <> []) /\
  (str_of self Parm.TableSchema <> [] -> str_of self Parm.Database <> []).

(** All the rules, rule 7 in full. *)
Definition documented (self : Parameters) : Prop := acceptable self /\ path_complete self.

Lemma validate_ok self v :
  wf self ->
  validate representable self = Ok v <->
  let r := raw_of self in
  exists b d port tz t1 t2 t3 t4 n m k,
    check_transport r = Ok (b, d) /\ check_names r = Ok (raw_database r) /\
    check_port r = Ok port /\ check_client r = Ok tt /\ timezone_of self r = Ok tz /\
    valid_timeout representable Parm.ConnectTimeout (raw_connect_timeout r) = Ok t1 /\
    valid_timeout representable Parm.ReadTimeout (raw_read_timeout r) = Ok t2 /\
    valid_timeout representable Parm.WriteTimeout (raw_write_timeout r) = Ok t3 /\
    valid_timeout representable Parm.OperationTimeout (raw_operation_timeout r) = Ok t4 /\
    nonzero_of Parm.ReplySize (raw_replysize r) = Ok n /\ maxprefetch_of r = Ok m /\
    nonzero_of Parm.MaxResponseSize (raw_max_response_size r) = Ok k /\
    v = MkValidated (raw_database r) (raw_tls r) (raw_user r) (raw_password r)
          (raw_autocommit r) (raw_cert r) (raw_language r) n m (raw_schema r)
          (raw_client_info r) (raw_client_application r) (raw_client_prefix r)
          (raw_client_remark r) tz (scan_of r (raw_database r)) (unix_of r port) (tcp_of r)
          port (tls_verify_of r d) d (raw_clientkey r) (clientcert_of r) b t1 t2 t3 t4 k.
Proof.
  intros Hwf. cbv zeta. unfold validate, Validated_new. rewrite extract_ok by done.
  set (r := raw_of self).
  cbn [res_bind]. split.
  - intros H. apply res_bind_ok in H as ([b d] & Ht & H).
    apply res_bind_ok in H as (dd & Hn & H).
    assert (dd = raw_database r) as -> by (apply check_names_ok in Hn; tauto).
    res_inv. repeat eexists; eauto. by match goal with u : unit |- _ => destruct u end.
  - intros (b & d & port & tz & t1 & t2 & t3 & t4 & n & m & k & E1 & E2 & E3 & E4 & E5 & E6
      & E7 & E8 & E9 & E10 & E11 & E12 & ->).
    rewrite E1. cbn [res_bind].
    repeat match goal with H : ?x = Ok _ |- context [?x] => rewrite H; cbn [res_bind] end.
    done.
Qed.

End Timeouts.

Lemma validate_returns representable self :
  wf self -> returns (validate representable self).
Proof.
  intros Hwf. unfold validate, Validated_new. rewrite extract_ok by done. cbn [res_bind].
  set (r := raw_of self). clearbody r.
  assert (forall p s, returns (valid_name p s)) as Hname.
  { intros. unfold valid_name. destruct (negb _); [done|]. by destruct (starts_with _ _). }
  assert (forall p z, returns (valid_timeout representable p z)) as Htimeout.
  { intros. unfold valid_timeout. by repeat case_match. }
  assert (forall p z, returns (nonzero_of p z)) as Hnonzero.
  { intros. unfold nonzero_of. by destruct (_ ≫= _). }
  assert (forall b e, returns (refuse_if b e)) as Hrefuse by apply refuse_if_returns.
  repeat first
    [ apply returns_bind; [|intros]
    | exact I | apply Hname | apply Htimeout | apply Hnonzero | apply Hrefuse
    | apply valid_certhash_returns
    | progress unfold check_transport, check_names, check_client
    | match goal with |- returns (if ?b then _ else _) => destruct b end
    | match goal with |- returns (let (_, _) := ?x in _) => destruct x end
    | match goal with |- returns (ok_or ?x _) => destruct x end
    | progress unfold timezone_of, maxprefetch_of, check_port ].
Qed.

(** ** Theorems *)

Lemma validate_acceptable representable self :
  wf self ->
  ((exists v, validate representable self = Ok v) <-> acceptable representable self).
Proof.
  intros Hwf. setoid_rewrite (validate_ok _ self); [|done].
  set (r := raw_of self). split.
  - intros (v & b & d & port & tz & t1 & t2 & t3 & t4 & n & m & k & E1 & E2 & E3 & E4 & E5
      & E6 & E7 & E8 & E9 & E10 & E11 & E12 & _).
    apply check_transport_ok in E1 as (H1 & H2 & H3 & H4 & H5).
    apply check_names_ok in E2 as (_ & N1 & N2 & N3). apply check_port_ok in E3.
    apply check_client_ok in E4 as (C1 & C2 & C3). apply timezone_of_ok in E5.
    apply valid_timeout_ok in E6 as [T1 _], E7 as [T2 _], E8 as [T3 _], E9 as [T4 _].
    apply nonzero_of_ok in E10 as [_ S1], E12 as [_ S2]. apply maxprefetch_of_ok in E11.
    apply Acceptable; rewrite ?Forall_cons, ?Forall_nil; try done.
    + by exists b.
    + destruct H4 as [[? _]|[_ ?]]; [by left|right; by exists d].
    + destruct E3 as [[? _]|[? _]]; auto.
    + intros Hi. destruct (C2 Hi) as (? & ? & ?). done.
    + intros Hs. destruct E5 as [[Hn _]|(_ & Hz & _)]; [congruence|done].
    + destruct E11 as [[Hm _]|[Hm _]]; subst r; simpl in *; lia.
  - intros [H1 [b H2] H3 H4 H5 H6 H7 H8 H9 H10 H11 H12 H13 H14].
    rewrite ?Forall_cons, ?Forall_nil in *.
    assert (exists d, check_transport r = Ok (b, d)) as [d E1].
    { setoid_rewrite check_transport_ok.
      destruct (decide (str_of self Parm.CertHash = [])) as [E|E].
      - exists []. naive_solver.
      - destruct H4 as [H4|[d Hd]]; [done|]. exists d. naive_solver. }
    assert (check_names r = Ok (raw_database r)) as E2 by (apply check_names_ok; naive_solver).
    assert (exists port, check_port r = Ok port) as [port E3].
    { setoid_rewrite check_port_ok. destruct H7; eauto. }
    assert (check_client r = Ok tt) as E4 by (apply check_client_ok; naive_solver).
    assert (exists tz, timezone_of self r = Ok tz) as [tz E5].
    { setoid_rewrite timezone_of_ok. destruct (timezone_set self); eauto 6. }
    assert (exists m, maxprefetch_of r = Ok m) as [m E11].
    { setoid_rewrite maxprefetch_of_ok.
      destruct (decide (int_of self Parm.MaxPrefetch = -1)); [eauto|].
      exists (Some (int_of self Parm.MaxPrefetch)). right. split; [|done]. subst r; simpl in *; lia. }
    destruct H12 as (T1 & T2 & T3 & T4 & _). destruct H13 as (N1 & N2 & _).
    do 12 eexists. rewrite E1, E2, E3, E4, E5, E11, !valid_timeout_ok, !nonzero_of_ok. eauto 20.
Qed.



(** How a validated configuration connects and verifies the server. *)
Definition tls_policy (self : Parameters) (v : Validated) : Prop :=
  (connect_tls_verify v = Off <-> tls v = false) /\
  (tls v = true -> connect_unix v = [] /\ connect_tcp v <> [] /\ connect_scan v = false) /\
  (connect_tls_verify v = Hash ->
     pin_ok (str_of self Parm.CertHash) (connect_certhash_digits v)) /\
  (connect_tls_verify v = Cert -> cert v <> [] /\ str_of self Parm.CertHash = []) /\
  (connect_tls_verify v = System -> cert v = [] /\ str_of self Parm.CertHash = []).

Lemma tls_policy_holds representable self v :
  wf self -> validate representable self = Ok v -> tls_policy self v.
Proof.
  intros Hwf. rewrite validate_ok by done. cbv zeta. set (r := raw_of self).
  intros (b & d & port & tz & t1 & t2 & t3 & t4 & n & m & k & E1 & _ & _ & _ & _ & _
      & _ & _ & _ & _ & _ & _ & ->). unfold tls_policy. cbn.
  apply check_transport_ok in E1 as (H1 & _ & H3 & H4 & H5).
  change (str_of self Parm.CertHash) with (raw_certhash r).
  change (bool_of self Parm.Tls) with (raw_tls r). change (str_of self Parm.Cert) with (raw_cert r).
  assert (raw_certhash r = [] <-> d = []) as Hd.
  { destruct H4 as [[]|[? (fp & _ & _ & _ & Hl)]]; [done|]. split; [done|].
    intros ->. simpl in Hl. lia. }
  unfold tls_verify_of, unix_of, tcp_of, scan_of, is_empty.
  destruct (raw_tls r); simpl; [|naive_solver].
  repeat case_bool_decide; simpl; rewrite ?andb_false_r; naive_solver.
Qed.

(** The TLS policy.  In a validated configuration the server certificate
    goes unverified only when TLS is off; with TLS there is no local socket and
    no scan, only TCP to a non-empty host; a pin that is used has 16 to 64
    lower-case digits, which are those of the given fingerprint; and a
    certificate file that is used is not empty. *)
Theorem validated_tls_policy representable self v :
  wf self -> validate representable self = Ok v -> tls_policy self v.
Proof. apply tls_policy_holds. Qed.

Lemma validated_tls_policy_witness :
  let self := store Parm.Tls (Bool true)
    (store Parm.CertHash (Str (bs "sha256:AB:cd:01:23:45:67:89:00")) DEFAULT_PARAMETERS) in
  exists v, validate (fun _ => true) self = Ok v /\ connect_tls_verify v = Hash /\
    pin_ok (str_of self Parm.CertHash) (bs "abcd012345678900").
Proof.
  intros self. eexists. split; [vm_compute; reflexivity|]. split; [reflexivity|].
  assert (wf self) as Hwf.
  { apply wf_store; [apply wf_store; [apply wf_default|reflexivity]|reflexivity]. }
  edestruct (validated_tls_policy (fun _ => true) self) as (_ & _ & H & _);
    [exact Hwf|vm_compute; reflexivity|]. apply H. reflexivity.
Defined.

(** A validated configuration names a target and its numbers are in range:
    there is a local socket or a TCP host to connect to, the port is in 1..65535,
    the binary level is a [u16], the time zone fits an [i32] and is the given
    number of minutes, every timeout is positive and at most the largest
    supported one, and the reply size and the response limit are positive. *)
Theorem validated_in_range representable self v :
  wf self -> validate representable self = Ok v ->
  (connect_unix v <> [] \/ connect_tcp v <> []) /\
  1 <= connect_port v <= 65535 /\ in_type u16 (connect_binary v) = true /\
  (forall s, connect_timezone_seconds v = Some s ->
     in_type i32 s = true /\ s = int_of self Parm.Timezone * 60) /\
  Forall (fun t => forall s, t = Some s -> 1 <= s <= MAX_TIMEOUT_SECONDS)
    [connect_timeout v; read_timeout v; write_timeout v; operation_timeout v] /\
  1 <= replysize v <= ty_max usize /\ 1 <= max_response_size v <= ty_max usize /\
  (forall n, maxprefetch v = Some n -> 0 <= n <= ty_max usize).
Proof.
  intros Hwf. rewrite validate_ok by done. cbv zeta. set (r := raw_of self).
  intros (b & d & port & tz & t1 & t2 & t3 & t4 & n & m & k & E1 & _ & E3 & _ & E5
      & E6 & E7 & E8 & E9 & E10 & E11 & E12 & ->).
  cbn [connect_unix connect_tcp connect_port connect_binary connect_timezone_seconds
    connect_timeout read_timeout write_timeout operation_timeout replysize
    max_response_size maxprefetch].
  change (int_of self Parm.Timezone) with (raw_timezone r). clearbody r.
  apply check_transport_ok in E1 as (_ & Eb & _). apply check_port_ok in E3.
  apply timezone_of_ok in E5. apply valid_timeout_ok in E6, E7, E8, E9.
  apply nonzero_of_ok in E10 as [-> ?], E12 as [-> ?]. apply maxprefetch_of_ok in E11.
  assert (forall z o, timeout_ok representable z /\ o = (if z =? 0 then None else Some z) ->
    forall s, o = Some s -> 1 <= s <= MAX_TIMEOUT_SECONDS) as Ht.
  { intros z o [[->|[? _]] ->] s; [done|]. destruct (Z.eqb_spec z 0); naive_solver. }
  repeat split; try lia.
  - unfold unix_of, tcp_of. destruct (is_empty (raw_sock r)) eqn:Es; simpl.
    + right. destruct (is_empty (raw_host r)) eqn:Eh; [discriminate|]. by apply is_empty_false.
    + left. by apply is_empty_false.
  - unfold binary_value in Eb. destruct (bool_value _) as [[]|]; [naive_solver..|].
    destruct (int_value _); [|done]. simpl in Eb. apply checked_Some in Eb. naive_solver.
  - naive_solver.
  - naive_solver.
  - rewrite !Forall_cons, Forall_nil. eauto 10.
  - naive_solver lia.
  - naive_solver lia.
Qed.

Lemma validated_in_range_witness :
  exists v, validate (fun _ => true) DEFAULT_PARAMETERS = Ok v /\ connect_port v = 50000 /\
    1 <= connect_port v <= 65535.
Proof.
  eexists. split; [vm_compute; reflexivity|]. split; [reflexivity|].
  edestruct (validated_in_range (fun _ => true) DEFAULT_PARAMETERS) as (_ & H & _);
    [exact wf_default|vm_compute; reflexivity|]. exact H.
Defined.

(** The comment on rule 7 says that a table needs a table schema and a table
    schema needs a database; a table on its own is accepted. *)
Lemma table_without_schema_accepted :
  let self := store Parm.Table (Str (bs "t")) DEFAULT_PARAMETERS in
  str_of self Parm.TableSchema = [] /\ str_of self Parm.Database = [] /\
  exists v, validate (fun _ => true) self = Ok v.
Proof. split; [reflexivity|]. split; [reflexivity|]. eexists. vm_compute. reflexivity. Qed.

(** The same members with other credentials. *)
Definition with_credentials (u p : bytes) (r : raw) : raw :=
  MkRaw (raw_database r) (raw_host r) (raw_port r) (raw_tls r) u p (raw_autocommit r)
    (raw_cert r) (raw_certhash r) (raw_clientcert r) (raw_clientkey r) (raw_language r)
    (raw_replysize r) (raw_maxprefetch r) (raw_schema r) (raw_sock r) (raw_sockdir r)
    (raw_timezone r) (raw_binary r) (raw_connect_timeout r) (raw_read_timeout r)
    (raw_write_timeout r) (raw_operation_timeout r) (raw_max_response_size r)
    (raw_client_info r) (raw_client_application r) (raw_client_prefix r)
    (raw_client_remark r) (raw_tableschema r) (raw_table r).

Lemma raw_of_public self other :
  (forall p, Parm.is_sensitive p = false -> value_of self p = value_of other p) ->
  raw_of other =
    with_credentials (raw_user (raw_of other)) (raw_password (raw_of other)) (raw_of self).
Proof.
  intros Hp. unfold raw_of, with_credentials, str_of, int_of, bool_of. simpl. by rewrite !Hp.
Qed.

(** The [Debug] output of a validated configuration does not depend on the
    user name and the password: two tables that differ in nothing else validate
    to configurations that are shown alike. *)
Theorem debug_validated_hides_credentials representable self other v w :
  wf self -> wf other ->
  (forall p, Parm.is_sensitive p = false -> value_of self p = value_of other p) ->
  timezone_set self = timezone_set other ->
  validate representable self = Ok v -> validate representable other = Ok w ->
  debug_validated v = debug_validated w.
Proof.
  intros Hs Ho Hp Ht. rewrite !validate_ok by done. cbv zeta.
  rewrite (raw_of_public self other Hp). generalize (raw_user (raw_of other)) as u.
  generalize (raw_password (raw_of other)) as q. set (r := raw_of self). intros q u.
  intros (b & d & port & tz & t1 & t2 & t3 & t4 & n & m & k & E1 & _ & E3 & _ & E5
      & E6 & E7 & E8 & E9 & E10 & E11 & E12 & ->).
  intros (b' & d' & port' & tz' & t1' & t2' & t3' & t4' & n' & m' & k' & F1 & _ & F3 & _ & F5
      & F6 & F7 & F8 & F9 & F10 & F11 & F12 & ->).
  change (check_transport (with_credentials u q r)) with (check_transport r) in F1.
  change (check_port (with_credentials u q r)) with (check_port r) in F3.
  change (timezone_of other (with_credentials u q r)) with (timezone_of other r) in F5.
  change (maxprefetch_of (with_credentials u q r)) with (maxprefetch_of r) in F11.
  unfold timezone_of in *. rewrite Ht in E5. cbn [with_credentials raw_connect_timeout
    raw_read_timeout raw_write_timeout raw_operation_timeout raw_replysize
    raw_max_response_size] in F6, F7, F8, F9, F10, F12.
  clearbody r. rewrite E1 in F1. rewrite E3 in F3. rewrite E5 in F5. rewrite E6 in F6.
  rewrite E7 in F7. rewrite E8 in F8. rewrite E9 in F9. rewrite E10 in F10.
  rewrite E11 in F11. rewrite E12 in F12. simplify_eq. reflexivity.
Qed.

Lemma debug_validated_hides_credentials_witness :
  let with_password s := store Parm.Password (Str (bs s)) DEFAULT_PARAMETERS in
  exists v w, validate (fun _ => true) (with_password "secret"%string) = Ok v /\
    validate (fun _ => true) (with_password "other"%string) = Ok w /\
    password v <> password w /\ debug_validated v = debug_validated w.
Proof.
  intros with_password.
  assert (forall s, wf (with_password s)) as Hwf.
  { intros s. apply wf_store; [apply wf_default|reflexivity]. }
  eexists _, _. split; [vm_compute; reflexivity|]. split; [vm_compute; reflexivity|].
  split; [discriminate|].
  apply (debug_validated_hides_credentials (fun _ => true)
           (with_password "secret"%string) (with_password "other"%string));
    [apply Hwf|apply Hwf| |reflexivity|vm_compute; reflexivity|vm_compute; reflexivity].
  intros p Hp. destruct p; first [reflexivity|discriminate Hp].
Defined.
