(* ===== verification/Url.v ===== *)
(** * Connection URLs (src/parms/urlparser.rs, src/parms/parameters.rs)

    [parse_any_url] overwrites parameters from a URL, [url_from_parms] renders
    parameters as a URL.  The [url] crate takes a URL apart: [Url_parse] stands
    for [Url::parse], and [Url] has what the accessors of the crate return.
    Nothing is assumed about it.  The percent coding is that of the source;
    [is_ipv6] is [str::parse::<Ipv6Addr>] of the standard library. *)

From Stdlib Require Import ZArith Lia.
From stdpp Require Import sets.
From S2P Require Import Prelude Bytes Errors Parms Validate.

Open Scope Z_scope.

(** ** What the [url] crate returns *)

(** The addresses are kept as the text that [to_string] gives. *)
Inductive Host :=
| Domain (dom : bytes)
| Ipv4 (text : bytes)
| Ipv6 (text : bytes).

Record Url := MkUrl {
  username : bytes;
  url_password : option bytes;
  host : option Host;
  host_str : option bytes;
  port : option Z;
  path : bytes;
  path_segments : option (list bytes);
  query : option bytes;
  query_pairs : list (bytes * bytes)
}.

(** ** Percent coding *)

Definition unhex (digit : byte) : res ParmError Z :=
  if is_digit digit then Ok (b2z digit - 48)
  else if between 97 102 digit then Ok (b2z digit - 97 + 10)
  else if between 65 70 digit then Ok (b2z digit - 65 + 10)
  else Err InvalidPercentEncoding.

(** The [while] loop: the bytes pushed to [buf].  The sum is a [u8]. *)
Fixpoint percent_decode_loop (buf data : bytes) : res ParmError bytes :=
  match data with
  | [] => Ok buf
  | b :: rest =>
      if negb (bool_decide (b = x25)) then percent_decode_loop (buf ++ [b]) rest
      else
        match rest with
        | [] => Err InvalidPercentEncoding
        | [_] => Err InvalidPercentEncoding
        | hi :: lo :: rest' =>
            let? h := unhex hi in
            let? l := unhex lo in
            match checked u8 (16 * h + l) with
            | Some v => percent_decode_loop (buf ++ [z2b v]) rest'
            | None => Panic
            end
        end
  end.

Definition percent_decode (s : bytes) : res ParmError bytes :=
  match memchr x25 s with
  | None => Ok s
  | Some idx =>
      let? buf := percent_decode_loop (take idx s) (drop idx s) in
      if utf8_valid buf then Ok buf else Err InvalidPercentUtf8
  end.

Definition safe (b : byte) : bool :=
  is_lower b || is_upper b || is_digit b
  || bool_decide (b ∈ [x2d; x2e; x5f; x7e]).

Definition HEX_DIGITS : bytes := bs "0123456789abcdef".

(** The text pushed for one byte. *)
Definition encode_byte (b : byte) : bytes :=
  if safe b then [b]
  else
    let digit i := default x00 (HEX_DIGITS !! Z.to_nat i) in
    [x25; digit (b2z b / 16); digit (b2z b mod 16)].

Definition percent_encode (buffer s : bytes) : bytes := buffer ++ (s ≫= encode_byte).

(** ** IPv6 addresses, as [core::net] reads them

    Each reader gives the input that is left, or fails without consuming. *)

Fixpoint span (p : byte -> bool) (l : bytes) : bytes * bytes :=
  match l with
  | [] => ([], [])
  | c :: l' => if p c then let '(a, b) := span p l' in (c :: a, b) else ([], l)
  end.

Definition hex_digit (c : byte) : bool := is_digit c || between 97 102 c || between 65 70 c.

(** [read_number(16, Some(4), true)]. *)
Definition read_group (l : bytes) : option bytes :=
  let '(ds, rest) := span hex_digit l in
  if (1 <=? length ds)%nat && (length ds <=? 4)%nat then Some rest else None.

(** [read_number(10, Some(3), false)] at [u8]. *)
Definition read_octet (l : bytes) : option bytes :=
  let '(ds, rest) := span is_digit l in
  if (1 <=? length ds)%nat && (length ds <=? 3)%nat && (dec_value ds <=? 255)
     && negb ((1 <? length ds)%nat && bool_decide (head ds = Some x30))
  then Some rest else None.

Definition read_given_char (c : byte) (l : bytes) : option bytes := strip_prefix [c] l.

(** [read_separator]: a separator before every element but the first. *)
Definition read_separator (sep : byte) (i : nat) (inner : bytes -> option bytes) (l : bytes)
    : option bytes :=
  match i with
  | O => inner l
  | S _ => read_given_char sep l ≫= inner
  end.

Definition read_ipv4_addr (l : bytes) : option bytes :=
  read_octet l ≫= fun l1 => read_separator x2e 1 read_octet l1 ≫= fun l2 =>
  read_separator x2e 2 read_octet l2 ≫= read_separator x2e 3 read_octet.

(** [read_groups] on a slice of [limit] groups, from group [i] on, with [left]
    groups to go: the number of groups read, whether an embedded IPv4 address
    ended it, and the input that is left. *)
Fixpoint read_groups (left i limit : nat) (l : bytes) : nat * bool * bytes :=
  match left with
  | O => (limit, false, l)
  | S left' =>
      let ipv4 :=
        if (i <? limit - 1)%nat then read_separator x3a i read_ipv4_addr l else None in
      match ipv4 with
      | Some rest => ((i + 2)%nat, true, rest)
      | None =>
          match read_separator x3a i read_group l with
          | Some rest => read_groups left' (S i) limit rest
          | None => (i, false, l)
          end
      end
  end.

Definition read_ipv6_addr (l : bytes) : option bytes :=
  let '(head_size, head_ipv4, l1) := read_groups 8 0 8 l in
  if (head_size =? 8)%nat then Some l1
  else if head_ipv4 then None
  else
    read_given_char x3a l1 ≫= fun l2 => read_given_char x3a l2 ≫= fun l3 =>
    let limit := (8 - (head_size + 1))%nat in
    let '(_, _, l4) := read_groups limit 0 limit l3 in Some l4.

(** [host.parse::<Ipv6Addr>().is_ok()]: the address must be the whole text. *)
Definition is_ipv6 (l : bytes) : bool := bool_decide (read_ipv6_addr l = Some []).

(** ** From URL to parameters *)

Definition is_our_url (url : bytes) : bool :=
  starts_with (bs "monetdb://") url || starts_with (bs "monetdbs://") url
  || starts_with (bs "mapi:monetdb://") url.

Definition path_error (unexpected : bytes) : ParmError :=
  InvalidUrl [Lit "invalid path component "; Debug unexpected].

(** The host that a parsed URL stands for; [localhost] is the empty host. *)
Definition monetdb_host (parsed : Url) : res ParmError bytes :=
  match host parsed with
  | None => Ok []
  | Some (Domain dom) =>
      let? name := percent_decode dom in
      Ok (if bool_decide (name = bs "localhost") then []
          else if bool_decide (name = bs "localhost.") then bs "localhost"
          else name)
  | Some (Ipv4 ip) => Ok ip
  | Some (Ipv6 ip) => Ok ip
  end.

Definition set_port_of (parsed : Url) : pcomp unit :=
  match port parsed with
  | Some p => set Parm.Port (value_from_int p)
  | None => set Parm.Port (value_from_int (-1))
  end.

(** The path: at most a database, a table schema and a table. *)
Definition monetdb_path (segments : list bytes) : pcomp unit :=
  let segment p s := do? v := slift (percent_decode s) in set p (value_from_str v) in
  match segments with
  | [] => sret tt
  | db :: rest =>
      do! segment Parm.Database db in
      match rest with
      | [] => sret tt
      | sch :: rest =>
          do! segment Parm.TableSchema sch in
          match rest with
          | [] => sret tt
          | tab :: rest =>
              do! segment Parm.Table tab in
              match rest with
              | [] => sret tt
              | unexpected :: _ => sfail (path_error unexpected)
              end
          end
      end
  end.

(** The loop over the query pairs. *)
Fixpoint monetdb_query (pairs : list (bytes * bytes)) : pcomp unit :=
  match pairs with
  | [] => sret tt
  | (k, v) :: rest =>
      match Parm.from_str k with
      | Some parm =>
          if Parm.is_core parm then sfail (NotAllowedAsQuery parm)
          else do! set parm (value_from_str v) in monetdb_query rest
      | None =>
          if Parm.ignored k then monetdb_query rest
          else sfail (UnknownParameter k)
      end
  end.

(** The user information that neither parser accepts. *)
Definition has_userinfo (parsed : Url) : bool :=
  negb (bool_decide (username parsed = [])) || bool_decide (is_Some (url_password parsed)).

(** The loop over the query of a [mapi:] URL, which is not percent-decoded. *)
Fixpoint legacy_query (items : list bytes) : pcomp unit :=
  match items with
  | [] => sret tt
  | x :: rest =>
      do! match split_once [x3d] x with
          | Some (k, v) =>
              if bool_decide (k = bs "language") then set Parm.Language (value_from_str v)
              else if bool_decide (k = bs "database") then set Parm.Database (value_from_str v)
              else sret tt
          | None => sret tt
          end in
      legacy_query rest
  end.

(** The database of a [mapi:] URL: its one path component. *)
Definition legacy_database (parsed : Url) : res ParmError bytes :=
  match path_segments parsed with
  | Some (db :: unexpected :: _) => Err (path_error unexpected)
  | Some [db] => Ok db
  | _ => Ok []
  end.

Section Parser.
Context (Url_parse : bytes -> bytes + Url).

(** [Url::parse(..).map_err(..)?]; the left of the sum is the text of the error. *)
Definition parse_url (url : bytes) : res ParmError Url :=
  match Url_parse url with
  | inr parsed => Ok parsed
  | inl e => Err (InvalidUrl [Arg e])
  end.

Definition parse_monetdb_url (use_tls : bool) (url : bytes) : pcomp unit :=
  do? parsed := slift (parse_url url) in
  if has_userinfo parsed then
    sfail (InvalidUrl
      [Lit "user information is not allowed after ://; use ?user= and &password="])
  else
    do! set_tls use_tls in
    do? host := slift (monetdb_host parsed) in
    do! set Parm.Host (value_from_str host) in
    do! set_port_of parsed in
    do! match path_segments parsed with
        | Some segments => monetdb_path segments
        | None => sret tt
        end in
    monetdb_query (query_pairs parsed).

Definition parse_legacy_url (url : bytes) : pcomp unit :=
  do? parsed := slift (parse_url (drop 5 url)) in
  if has_userinfo parsed then
    sfail (InvalidUrl
      [Lit "no user name or password allowed after the ://, use ?user= and password= instead"])
  else
    do! match host_str parsed with
        | Some host =>
            do! set Parm.Host (value_from_str host) in
            do! set Parm.Sock (value_from_str []) in
            do? database := slift (legacy_database parsed) in
            set Parm.Database (value_from_str database)
        | None =>
            do! set Parm.Host (value_from_str []) in
            do! set Parm.Sock (value_from_str (path parsed)) in
            set Parm.Database (value_from_str [])
        end in
    do! set_port_of parsed in
    match query parsed with
    | Some q => legacy_query (split_on x26 q)
    | None => sret tt
    end.

Definition parse_any_url (url : bytes) : pcomp unit :=
  if starts_with (bs "monetdb://") url then parse_monetdb_url false url
  else if starts_with (bs "monetdbs://") url then parse_monetdb_url true url
  else if starts_with (bs "mapi:monetdb://") url then parse_legacy_url url
  else sfail (InvalidUrl [Lit "must start with monetdb://, monetdbs:// or mapi:monetdb://"]).

(** The object is cloned, the clone is changed, and only a change that succeeds
    is stored back. *)
Definition apply_url (url : bytes) : pcomp unit := fun self =>
  match (do! boundary in do! parse_any_url url in boundary) self with
  | (Ok _, updated) => (Ok tt, updated)
  | (Err e, _) => (Err e, self)
  | (Panic, _) => (Panic, self)
  | (NoFuel, _) => (NoFuel, self)
  end.

Definition from_url (url : bytes) : res ParmError Parameters :=
  with_parm (apply_url url) DEFAULT_PARAMETERS.

Definition basic (database user password : bytes) : res ParmError Parameters :=
  with_parm (
    do! (if is_our_url database then apply_url database
         else set Parm.Database (value_from_str database)) in
    do! (if negb (bool_decide (user = [])) then set Parm.User (value_from_str user)
         else sret tt) in
    do! (if negb (bool_decide (password = [])) then set Parm.Password (value_from_str password)
         else sret tt) in
    boundary) DEFAULT_PARAMETERS.

End Parser.

(** ** From parameters to URL *)

(** The authority: host and port. *)
Definition url_authority (parms : Parameters) : res ParmError bytes :=
  let? p := get_int parms Parm.Port in
  let port := if (p =? -1) || (p =? 50000) then None else Some p in
  let? host := get_str parms Parm.Host in
  let host := if bool_decide (host = bs "localhost") then [] else host in
  let host :=
    if bool_decide (is_Some port) && bool_decide (host = []) then bs "localhost" else host in
  let url :=
    if is_ipv6 host then [x5b] ++ host ++ [x5d] else percent_encode [] host in
  Ok (match port with
      | Some p => url ++ [x3a] ++ print_int p
      | None => url
      end).

Definition url_path (parms : Parameters) : res ParmError bytes :=
  let? database := get_str parms Parm.Database in
  let? tableschema := get_str parms Parm.TableSchema in
  let? table := get_str parms Parm.Table in
  let empty (s : bytes) := bool_decide (s = []) in
  let url := [] in
  let url :=
    if negb (empty database) || negb (empty tableschema) || negb (empty table)
    then percent_encode (url ++ [x2f]) database else url in
  let url :=
    if negb (empty tableschema) || negb (empty table)
    then percent_encode (url ++ [x2f]) tableschema else url in
  Ok (if negb (empty table) then percent_encode (url ++ [x2f]) table else url).

(** The loop over the selected parameters; [sep] is the next separator. *)
Fixpoint url_query (parms : Parameters) (sep : byte) (selection : list Parm)
    : res ParmError bytes :=
  match selection with
  | [] => Ok []
  | p :: rest =>
      if Parm.is_core p then url_query parms sep rest
      else
        let? dflt := is_default parms p in
        if negb dflt then
          let? value := get_str parms p in
          let? tail := url_query parms x26 rest in
          Ok (percent_encode ([sep] ++ Parm.as_str p ++ [x3d]) value ++ tail)
        else url_query parms sep rest
  end.

Definition url_from_parms (parms : Parameters) (selection : list Parm) : res ParmError bytes :=
  let? tls := get_bool parms Parm.Tls in
  let scheme := if tls then bs "monetdbs" else bs "monetdb" in
  let? authority := url_authority parms in
  let? path := url_path parms in
  let? query := url_query parms x3f selection in
  Ok (scheme ++ bs "://" ++ authority ++ path ++ query).

Definition url_with_credentials (self : Parameters) : res ParmError bytes :=
  url_from_parms self Parm.iter.

Definition url_without_credentials (self : Parameters) : res ParmError bytes :=
  url_from_parms self (filter (fun p => negb (Parm.is_sensitive p)) Parm.iter).

(** ** Lemmas: percent coding *)

Lemma unhex_range c v : unhex c = Ok v -> 0 <= v < 16.
Proof.
  unfold unhex. destruct (is_digit c) eqn:E1; [|destruct (between 97 102 c) eqn:E2;
    [|destruct (between 65 70 c) eqn:E3; [|done]]]; intros [= <-];
    repeat match goal with H : _ = true |- _ => apply between_spec in H end; lia.
Qed.

Lemma checked_byte h l : 0 <= h < 16 -> 0 <= l < 16 -> checked u8 (16 * h + l) = Some (16 * h + l).
Proof. intros. apply checked_Some. split; [done|]. apply in_type_spec. simpl. lia. Qed.

(** What a percent-encoded text stands for. *)
Inductive decodes : bytes -> bytes -> Prop :=
| dec_nil : decodes [] []
| dec_plain b s d : b <> x25 -> decodes s d -> decodes (b :: s) (b :: d)
| dec_escape hi lo h l s d :
    unhex hi = Ok h -> unhex lo = Ok l -> decodes s d ->
    decodes (x25 :: hi :: lo :: s) (z2b (16 * h + l) :: d).

Lemma decode_loop_complete s d :
  decodes s d -> forall buf, percent_decode_loop buf s = Ok (buf ++ d).
Proof.
  induction 1 as [|b s d Hb _ IH|hi lo h l s d Hh Hl _ IH]; intros buf; simpl.
  - by rewrite app_nil_r.
  - rewrite bool_decide_false by done. simpl. rewrite IH. by rewrite <- app_assoc.
  - rewrite Hh. simpl. rewrite Hl. simpl.
    rewrite checked_byte by eauto using unhex_range. rewrite IH. by rewrite <- app_assoc.
Qed.

Lemma decode_loop_sound_n n s buf :
  (length s <= n)%nat ->
  (exists d, decodes s d /\ percent_decode_loop buf s = Ok (buf ++ d)) \/
  ((forall d, ~ decodes s d) /\ percent_decode_loop buf s = Err InvalidPercentEncoding).
Proof.
  revert s buf. induction n as [|n IH]; intros s buf Hn.
  { destruct s; [|simpl in Hn; lia]. left. exists []. split; [constructor|]. simpl.
    by rewrite app_nil_r. }
  destruct s as [|b s]; [left; exists []; split; [constructor|]; simpl; by rewrite app_nil_r|].
  simpl in Hn. simpl. case_bool_decide as Hb; simpl.
  - subst b. destruct s as [|hi [|lo s]].
    1,2: right; split; [intros d Hd; inversion Hd; done|done].
    destruct (unhex hi) as [h|e| |] eqn:Eh; simpl.
    2: { right. split; [intros d Hd; inversion Hd; simplify_eq; congruence|].
         unfold unhex in Eh. repeat case_match; congruence. }
    2,3: unfold unhex in Eh; repeat case_match; congruence.
    destruct (unhex lo) as [l|e| |] eqn:El; simpl.
    2: { right. split; [intros d Hd; inversion Hd; simplify_eq; congruence|].
         unfold unhex in El. repeat case_match; congruence. }
    2,3: unfold unhex in El; repeat case_match; congruence.
    rewrite checked_byte by eauto using unhex_range. simpl in Hn.
    destruct (IH s (buf ++ [z2b (16 * h + l)]) ltac:(lia)) as [(d & Hd & ->)|[Hd ->]].
    + left. eexists. split; [by econstructor|]. by rewrite <- app_assoc.
    + right. split; [|done]. intros d Hd'. inversion Hd'; simplify_eq; naive_solver.
  - destruct (IH s (buf ++ [b]) ltac:(lia)) as [(d & Hd & ->)|[Hd ->]].
    + left. eexists. split; [by constructor|]. by rewrite <- app_assoc.
    + right. split; [|done]. intros d Hd'. inversion Hd'; simplify_eq. naive_solver.
Qed.

Lemma decode_loop_app buf a b :
  x25 ∉ a -> percent_decode_loop buf (a ++ b) = percent_decode_loop (buf ++ a) b.
Proof.
  revert buf. induction a as [|c a IH]; intros buf Ha; simpl; [by rewrite app_nil_r|].
  apply not_elem_of_cons in Ha as [Hc Ha]. rewrite bool_decide_false by done. simpl.
  rewrite IH by done. by rewrite <- app_assoc.
Qed.

Lemma decodes_plain s : x25 ∉ s -> decodes s s.
Proof.
  induction s as [|c s IH]; [constructor|]. intros [? ?]%not_elem_of_cons.
  constructor; auto.
Qed.

Lemma decodes_fun s d1 d2 : decodes s d1 -> decodes s d2 -> d1 = d2.
Proof.
  intros H1 H2. pose proof (decode_loop_complete _ _ H1 []) as E1.
  rewrite (decode_loop_complete _ _ H2 []) in E1. by injection E1.
Qed.

(** The fast path for a text without percent signs agrees with the loop. *)
Lemma percent_decode_loop_eq s :
  utf8_valid s = true ->
  percent_decode s =
    let? buf := percent_decode_loop [] s in
    if utf8_valid buf then Ok buf else Err InvalidPercentUtf8.
Proof.
  intros Hu. unfold percent_decode. destruct (memchr x25 s) as [i|] eqn:E.
  - apply memchr_Some in E as (a & b & -> & <- & Hb).
    rewrite take_app_length, drop_app_length, decode_loop_app by done. done.
  - apply memchr_None in E.
    rewrite (decode_loop_complete s s) by by apply decodes_plain. simpl. by rewrite Hu.
Qed.

(** Percent decoding is exact: on a text it gives [d] exactly when the
    text's escapes stand for the bytes of [d] and these are UTF-8; on any other
    text it gives one of its two errors, and it never overflows a byte. *)
Theorem percent_decode_exact s :
  utf8_valid s = true ->
  (forall d, percent_decode s = Ok d <-> decodes s d /\ utf8_valid d = true) /\
  (percent_decode s = Err InvalidPercentEncoding <-> forall d, ~ decodes s d) /\
  returns (percent_decode s).
Proof.
  intros Hu. rewrite percent_decode_loop_eq by done.
  destruct (decode_loop_sound_n (length s) s [] (Nat.le_refl _)) as [(d & Hd & ->)|[Hd ->]]; simpl.
  - assert (forall d', decodes s d' -> d' = d) as Hfun by (intros; by eapply decodes_fun).
    destruct (utf8_valid d) eqn:Ev; (split; [intros d'; split|split; [split|done]]).
    + by intros [= <-].
    + by intros [->%Hfun _].
    + done.
    + intros H. by destruct (H d).
    + done.
    + intros [->%Hfun H]. congruence.
    + done.
    + intros H. by destruct (H d).
  - split; [|done]. intros d. split; [done|]. intros [H _]. by destruct (Hd d).
Qed.

Lemma percent_decode_exact_witness :
  decodes (bs "caf%C3%a9") (bs "caf" ++ [xc3; xa9]).
Proof.
  assert (utf8_valid (bs "caf%C3%a9") = true) as Hu by reflexivity.
  destruct (percent_decode_exact (bs "caf%C3%a9") Hu) as (H & _).
  apply (H (bs "caf" ++ [xc3; xa9])). vm_compute. reflexivity.
Defined.

(** The bytes that encoding produces: none of them has a meaning in a URL. *)
Definition url_char (b : byte) : bool := safe b || bool_decide (b = x25).

Lemma encode_byte_cases b :
  (b <> x25 /\ encode_byte b = [b]) \/
  (exists hi lo, encode_byte b = [x25; hi; lo] /\
     unhex hi = Ok (b2z b / 16) /\ unhex lo = Ok (b2z b mod 16)).
Proof.
  destruct b; first [left; split; [discriminate|reflexivity] |
    right; eexists _, _; split; [reflexivity|]; split; reflexivity].
Qed.

Lemma encode_byte_decodes b s d : decodes s d -> decodes (encode_byte b ++ s) (b :: d).
Proof.
  intros H. destruct (encode_byte_cases b) as [[Hb ->]|(hi & lo & -> & Hhi & Hlo)].
  - by constructor.
  - pose proof (dec_escape _ _ _ _ _ _ Hhi Hlo H) as Hd.
    rewrite <- Z_div_mod_eq_full, z2b_b2z in Hd. done.
Qed.

Lemma encode_decodes s : decodes (s ≫= encode_byte) s.
Proof. induction s as [|b s IH]; [constructor|]. by apply encode_byte_decodes. Qed.

Lemma encode_byte_chars b : Forall (fun c => url_char c = true) (encode_byte b).
Proof. destruct b; repeat constructor. Qed.

Lemma encode_chars s : Forall (fun c => url_char c = true) (s ≫= encode_byte).
Proof.
  induction s as [|b s IH]; [constructor|]. apply Forall_app. split; [|done].
  apply encode_byte_chars.
Qed.

Lemma encode_ascii s : utf8_valid (s ≫= encode_byte) = true.
Proof.
  apply utf8_valid_ascii. pose proof (encode_chars s) as H.
  induction H as [|c l Hc _ IH]; [done|]. simpl. rewrite IH, andb_true_r.
  destruct c; first [reflexivity|discriminate Hc].
Qed.

Lemma percent_roundtrip_lemma s :
  utf8_valid s = true -> percent_decode (s ≫= encode_byte) = Ok s.
Proof.
  intros Hu. rewrite percent_decode_loop_eq by apply encode_ascii.
  rewrite (decode_loop_complete _ _ (encode_decodes s)). simpl. by rewrite Hu.
Qed.

(** Percent encoding and decoding are a round trip for every text, and the
    encoded text appended to a buffer consists of letters, digits, [-], [.],
    [_], [~] and [%] only. *)
Theorem percent_roundtrip buffer s :
  utf8_valid s = true ->
  exists text, percent_encode buffer s = buffer ++ text /\
    Forall (fun c => url_char c = true) text /\ percent_decode text = Ok s.
Proof.
  intros Hu. exists (s ≫= encode_byte). split; [done|].
  split; [apply encode_chars|by apply percent_roundtrip_lemma].
Qed.

Lemma percent_roundtrip_witness :
  percent_decode (percent_encode [] (bs "a&b=c?/+#")) = Ok (bs "a&b=c?/+#").
Proof.
  destruct (percent_roundtrip [] (bs "a&b=c?/+#")) as (text & E & _ & Hd); [reflexivity|].
  rewrite E. exact Hd.
Defined.

(** ** Lemmas: operations keep a table well formed *)

(** The operation returns to its caller and leaves a well-formed table. *)
Definition keeps {A} (m : pcomp A) : Prop :=
  forall self, wf self -> returns (m self).1 /\ wf (m self).2.

Lemma keeps_sbind {A B} (m : pcomp A) (k : A -> pcomp B) :
  keeps m -> (forall a, keeps (k a)) -> keeps (sbind m k).
Proof.
  intros Hm Hk self Hwf. destruct (Hm self Hwf) as [Hr Hw]. unfold sbind.
  destruct (m self) as [[] s']; simpl in *; try done. by apply Hk.
Qed.

Lemma keeps_sret {A} (a : A) : keeps (sret a).
Proof. by intros self Hwf. Qed.

Lemma keeps_sfail {A} e : keeps (@sfail _ _ A e).
Proof. by intros self Hwf. Qed.

Lemma keeps_slift {A} (r : res ParmError A) : returns r -> keeps (slift r).
Proof. by intros Hr self Hwf. Qed.

Lemma keeps_set p v : keeps (set p v).
Proof.
  intros self Hwf. destruct (verify_assign_returns v p) as [Hv|[e Hv]].
  - rewrite set_ok by done. split; [done|]. by apply wf_store.
  - by erewrite set_err.
Qed.

Lemma keeps_boundary : keeps boundary.
Proof.
  intros self Hwf. destruct (boundary_refines self _ (refines_settings_of self Hwf))
    as (self' & -> & Hr & _). done.
Qed.

Lemma decode_loop_returns buf s : returns (percent_decode_loop buf s).
Proof.
  by destruct (decode_loop_sound_n (length s) s buf (Nat.le_refl _)) as [(d & _ & ->)|[_ ->]].
Qed.

Lemma percent_decode_returns s : returns (percent_decode s).
Proof.
  unfold percent_decode. destruct (memchr x25 s); [|done].
  apply returns_bind; [apply decode_loop_returns|]. intros buf _. by destruct (utf8_valid buf).
Qed.

Create HintDb keeps.
#[export] Hint Resolve keeps_sret keeps_sfail keeps_set keeps_boundary keeps_slift
  percent_decode_returns : keeps.

Lemma keeps_monetdb_query pairs : keeps (monetdb_query pairs).
Proof.
  induction pairs as [|[k v] pairs IH]; simpl; [auto with keeps|].
  destruct (Parm.from_str k) as [p|]; [destruct (Parm.is_core p)|destruct (Parm.ignored k)];
    auto using keeps_sbind with keeps.
Qed.

Lemma keeps_monetdb_path segments : keeps (monetdb_path segments).
Proof.
  assert (forall p s, keeps (do? v := slift (percent_decode s) in set p (value_from_str v))).
  { intros. apply keeps_sbind; auto with keeps. }
  unfold monetdb_path. destruct segments as [|a [|b [|c [|d rest]]]];
    repeat (apply keeps_sbind; [done|intros _]); auto with keeps.
Qed.

Lemma keeps_legacy_query items : keeps (legacy_query items).
Proof.
  induction items as [|x items IH]; simpl; [auto with keeps|].
  apply keeps_sbind; [|done]. destruct (split_once _ x) as [[k v]|]; [|auto with keeps].
  repeat case_bool_decide; auto with keeps.
Qed.

Lemma keeps_set_port parsed : keeps (set_port_of parsed).
Proof. unfold set_port_of. destruct (port parsed); auto with keeps. Qed.

Lemma monetdb_host_returns parsed : returns (monetdb_host parsed).
Proof.
  unfold monetdb_host. destruct (host parsed) as [[]|]; try done.
  apply returns_bind; [apply percent_decode_returns|done].
Qed.

Lemma legacy_database_returns parsed : returns (legacy_database parsed).
Proof. unfold legacy_database. by destruct (path_segments parsed) as [[|? []]|]. Qed.

#[export] Hint Resolve keeps_monetdb_query keeps_monetdb_path keeps_legacy_query keeps_set_port
  monetdb_host_returns legacy_database_returns : keeps.

(** ** Lemmas: items of a query *)

Lemma memmem_char c l a b : l = a ++ c :: b -> c ∉ a -> memmem [c] l = Some (length a).
Proof.
  intros -> Ha. induction a as [|x a IH].
  - simpl. unfold starts_with. simpl. by rewrite decide_True.
  - apply not_elem_of_cons in Ha as [Hx Ha]. cbn [app memmem length]. unfold starts_with. simpl.
    rewrite decide_False by done. rewrite IH by done. done.
Qed.

Lemma split_once_char c a b : c ∉ a -> split_once [c] (a ++ c :: b) = Some (a, b).
Proof.
  intros Ha. unfold split_once. erewrite memmem_char by done. simpl.
  rewrite take_app_length. replace (length a + 1)%nat with (length (a ++ [c]))
    by (rewrite length_app; simpl; lia).
  change (c :: b) with ([c] ++ b). by rewrite app_assoc, drop_app_length.
Qed.

Lemma split_once_none c x : c ∉ x -> split_once [c] x = None.
Proof.
  intros Hc. unfold split_once. assert (memmem [c] x = None) as ->; [|done].
  induction x as [|d x IH]; [done|]. apply not_elem_of_cons in Hc as [Hd Hx]. cbn [memmem].
  unfold starts_with. simpl. by rewrite decide_False, IH by done.
Qed.

(** ** What a URL means

    The settings that a URL gives, in order, stated apart from the parser. *)

Notation setting := (Parm * Value)%type.

(** A percent-coded text; where nothing is coded the text stands for itself. *)
Definition coded (s d : bytes) : Prop := decodes s d /\ (x25 ∈ s -> utf8_valid d = true).

(** The host that is meant: [localhost] leaves it open, [localhost.] is the host of
    that name. *)
Inductive host_means : option Host -> bytes -> Prop :=
| host_absent : host_means None []
| host_local dom : coded dom (bs "localhost") -> host_means (Some (Domain dom)) []
| host_localhost dom : coded dom (bs "localhost.") -> host_means (Some (Domain dom)) (bs "localhost")
| host_named dom name :
    coded dom name -> name <> bs "localhost" -> name <> bs "localhost." ->
    host_means (Some (Domain dom)) name
| host_ipv4 text : host_means (Some (Ipv4 text)) text
| host_ipv6 text : host_means (Some (Ipv6 text)) text.

(** At most three components name a database, a table schema and a table. *)
Definition path_means (segments : list bytes) (gs : list setting) : Prop :=
  (length segments <= 3)%nat /\
  exists names, Forall2 coded segments names /\
    gs = zip [Parm.Database; Parm.TableSchema; Parm.Table] (Str <$> names).

(** Every item names a parameter that may stand in a query, or is to be ignored. *)
Inductive query_means : list (bytes * bytes) -> list setting -> Prop :=
| query_end : query_means [] []
| query_parm k v p rest gs :
    Parm.from_str k = Some p -> Parm.is_core p = false -> query_means rest gs ->
    query_means ((k, v) :: rest) ((p, Str v) :: gs)
| query_ignored k v rest gs :
    Parm.from_str k = None -> x5f ∈ k -> query_means rest gs -> query_means ((k, v) :: rest) gs.

(** The query of a [mapi:] URL gives a language and a database; the rest is ignored. *)
Inductive item_means : bytes -> list setting -> Prop :=
| item_language v : item_means (bs "language=" ++ v) [(Parm.Language, Str v)]
| item_database v : item_means (bs "database=" ++ v) [(Parm.Database, Str v)]
| item_other k v : x3d ∉ k -> k <> bs "language" -> k <> bs "database" -> item_means (k ++ x3d :: v) []
| item_plain x : x3d ∉ x -> item_means x [].

Definition port_setting (parsed : Url) : setting := (Parm.Port, Int (default (-1) (port parsed))).

Definition no_userinfo (parsed : Url) : Prop := username parsed = [] /\ url_password parsed = None.

Inductive monetdb_means (tls : bool) (parsed : Url) : list setting -> Prop :=
| monetdb_settings name names query :
    no_userinfo parsed -> host_means (host parsed) name ->
    path_means (default [] (path_segments parsed)) names -> query_means (query_pairs parsed) query ->
    monetdb_means tls parsed
      ([(Parm.Tls, Bool tls); (Parm.Host, Str name); port_setting parsed] ++ names ++ query).

(** Where a [mapi:] URL leads: to a host and one database, or to a socket. *)
Inductive legacy_target (parsed : Url) : list setting -> Prop :=
| legacy_host h segments :
    host_str parsed = Some h -> default [] (path_segments parsed) = segments -> (length segments <= 1)%nat ->
    legacy_target parsed
      [(Parm.Host, Str h); (Parm.Sock, Str []); (Parm.Database, Str (default [] (head segments)))]
| legacy_socket :
    host_str parsed = None ->
    legacy_target parsed [(Parm.Host, Str []); (Parm.Sock, Str (path parsed)); (Parm.Database, Str [])].

Inductive legacy_means (parsed : Url) : list setting -> Prop :=
| legacy_settings target items gss :
    no_userinfo parsed -> legacy_target parsed target ->
    (forall q, query parsed = Some q -> pieces x26 q items) -> (query parsed = None -> items = []) ->
    Forall2 item_means items gss ->
    legacy_means parsed (target ++ [port_setting parsed] ++ concat gss).

(** The values fit the types of their parameters. *)
Definition fits (gs : list setting) : Prop := Forall (fun g => verify_assign g.2 g.1 = Ok tt) gs.

(** The last value given to a parameter. *)
Fixpoint given (gs : list setting) (p : Parm) : option Value :=
  match gs with
  | [] => None
  | (q, v) :: rest =>
      match given rest p with
      | Some w => Some w
      | None => if decide (q = p) then Some v else None
      end
  end.

(** The table [self'] is [self] with these settings: what is given counts, what is
    not given stays, and of the credentials, when only one is given, the other one
    is reset. *)
Record applied (gs : list setting) (self self' : Parameters) : Prop := Applied {
  ap_wf : wf self';
  ap_given p v : given gs p = Some v -> value_of self' p = v;
  ap_kept p : given gs p = None -> Parm.is_sensitive p = false -> value_of self' p = value_of self p;
  ap_user : given gs Parm.User <> None -> given gs Parm.Password = None ->
    value_of self' Parm.Password = default_value Parm.Password;
  ap_password : given gs Parm.Password <> None -> given gs Parm.User = None ->
    value_of self' Parm.User = default_value Parm.User;
  ap_neither p : given gs Parm.User = None -> given gs Parm.Password = None ->
    value_of self' p = default (val (pair_credentials (settings_of self)) p) (given gs p);
  ap_timezone : timezone_set self' = timezone_set self || bool_decide (is_Some (given gs Parm.Timezone));
  ap_user_changed : user_changed self' = false;
  ap_password_changed : password_changed self' = false
}.

(** *** The parser does what is meant *)

Definition store_all (gs : list setting) (self : Parameters) : Parameters :=
  fold_left (fun self g => store g.1 g.2 self) gs self.

Lemma wf_store_all gs self : wf self -> fits gs -> wf (store_all gs self).
Proof.
  intros Hwf Hf. revert self Hwf. induction Hf as [|[p v] gs Hv _ IH]; intros self Hwf; [done|].
  by apply IH, wf_store.
Qed.

(** [m] makes exactly the assignments of a list in [G], and fails when there is none
    that fits. *)
Definition performs {A} (m : pcomp A) (G : list setting -> Prop) : Prop := forall self, wf self ->
  (forall gs, G gs -> fits gs -> exists a, m self = (Ok a, store_all gs self)) /\
  (forall a self', m self = (Ok a, self') -> exists gs, G gs /\ fits gs /\ self' = store_all gs self).

Lemma performs_iff {A} (m : pcomp A) (G G' : list setting -> Prop) :
  performs m G -> (forall gs, G gs <-> G' gs) -> performs m G'.
Proof. intros H HG self Hwf. destruct (H self Hwf) as [H1 H2]. split; naive_solver. Qed.

Lemma performs_set p v : performs (set p v) (eq [(p, v)]).
Proof.
  intros self Hwf. destruct (verify_assign_returns v p) as [Hv|[e Hv]].
  - rewrite set_ok by done. split; [intros gs <- _; by eexists|]. intros a self' [= <- <-].
    exists [(p, v)]. split; [done|]. by split; [apply Forall_singleton|].
  - erewrite set_err by done. split; [|done]. intros gs <- Hf. apply Forall_inv in Hf. simpl in Hf. congruence.
Qed.

Lemma performs_ret {A} (a : A) : performs (sret a) (eq []).
Proof.
  intros self Hwf. split; [intros gs <- _; by exists a|]. intros ? self' [= _ <-]. exists []. by repeat constructor.
Qed.

Lemma performs_fail {A} e (G : list setting -> Prop) : (forall gs, ~ G gs) -> performs (@sfail _ _ A e) G.
Proof. intros HG self Hwf. split; [|done]. intros gs H. by destruct (HG gs). Qed.

Lemma performs_bind {A B} (m : pcomp A) (k : A -> pcomp B) (G1 G2 : list setting -> Prop) :
  performs m G1 -> (forall a, performs (k a) G2) ->
  performs (sbind m k) (fun gs => exists g1 g2, gs = g1 ++ g2 /\ G1 g1 /\ G2 g2).
Proof.
  intros Hm Hk self Hwf. destruct (Hm self Hwf) as [H1 H2]. unfold sbind. split.
  - intros gs (g1 & g2 & -> & HG1 & HG2) [Hf1 Hf2]%Forall_app. destruct (H1 g1 HG1 Hf1) as [a ->].
    unfold store_all. rewrite fold_left_app. apply Hk; [by apply wf_store_all|done|done].
  - intros b self'. destruct (m self) as [[a|e| |] s1] eqn:E; try done.
    destruct (H2 a s1 eq_refl) as (g1 & HG1 & Hf1 & ->). intros E2.
    destruct (Hk a _ (wf_store_all _ _ Hwf Hf1)) as [_ H3].
    destruct (H3 b self' E2) as (g2 & HG2 & Hf2 & ->). exists (g1 ++ g2).
    split; [by exists g1, g2|]. split; [by apply Forall_app|]. unfold store_all. by rewrite fold_left_app.
Qed.

(** A value that is computed first. *)
Lemma performs_lift {A B} (r : res ParmError A) (k : A -> pcomp B) (G : list setting -> Prop) :
  (forall a, r = Ok a -> performs (k a) G) -> ((forall a, r <> Ok a) -> forall gs, ~ G gs) ->
  performs (do? a := slift r in k a) G.
Proof.
  intros Hk Hn self Hwf. unfold sbind, slift. destruct r as [a|e| |]; [by apply Hk|..];
    (split; [intros gs HG; by destruct (Hn ltac:(done) gs)|done]).
Qed.

Lemma coded_decode s d : percent_decode s = Ok d <-> coded s d.
Proof.
  unfold coded, percent_decode. destruct (memchr x25 s) as [i|] eqn:E.
  - apply memchr_Some in E as (a & b & -> & <- & Hb).
    rewrite take_app_length, drop_app_length. change a with ([] ++ a) at 1. rewrite <- decode_loop_app by done.
    assert (x25 ∈ a ++ x25 :: b) as Hin by set_solver.
    destruct (decode_loop_sound_n _ (a ++ x25 :: b) [] (Nat.le_refl _)) as [(d' & Hd & ->)|[Hd ->]]; simpl.
    + destruct (utf8_valid d') eqn:Eu; split.
      * by intros [= <-].
      * intros [Hd' _]. by rewrite (decodes_fun _ _ _ Hd Hd').
      * done.
      * intros [Hd' Hu]. rewrite (decodes_fun _ _ _ Hd Hd') in Eu. rewrite Hu in Eu by done. done.
    + split; [done|]. intros [H _]. by destruct (Hd d).
  - apply memchr_None in E. split.
    + intros [= <-]. split; [by apply decodes_plain|done].
    + intros [H _]. by rewrite (decodes_fun _ _ _ H (decodes_plain _ E)).
Qed.

Lemma host_means_iff parsed h : monetdb_host parsed = Ok h <-> host_means (host parsed) h.
Proof.
  unfold monetdb_host. destruct (host parsed) as [[dom|t|t]|]; [| | |];
    try (split; [intros [= <-]; constructor|by inversion 1]).
  split.
  - intros (name & Hn%coded_decode & [= <-])%res_bind_ok.
    case_bool_decide; [subst; by apply host_local|].
    case_bool_decide; [subst; by apply host_localhost|by apply host_named].
  - inversion 1 as [|dom' Hc|dom' Hc|dom' name Hc H1 H2| |]; subst; apply coded_decode in Hc; rewrite Hc; cbn [res_bind];
      [done|done|]. by rewrite !bool_decide_false.
Qed.

Lemma performs_segment p s :
  performs (do? v := slift (percent_decode s) in set p (value_from_str v))
    (fun gs => exists d, coded s d /\ gs = [(p, Str d)]).
Proof.
  apply performs_lift.
  - intros d Hd. eapply performs_iff; [apply performs_set|]. intros gs. split.
    + intros <-. exists d. by rewrite <- coded_decode.
    + intros (d' & Hd' & ->). apply coded_decode in Hd'. rewrite Hd in Hd'. by injection Hd' as <-.
  - intros Hn gs (d & Hd%coded_decode & _). by destruct (Hn d).
Qed.

Lemma performs_path segments : performs (monetdb_path segments) (path_means segments).
Proof.
  unfold monetdb_path. destruct segments as [|a [|b [|c rest]]].
  - eapply performs_iff; [apply performs_ret|]. intros gs. unfold path_means. split.
    + intros <-. split; [simpl; lia|]. by exists [].
    + intros (_ & names & ->%Forall2_nil_inv_l & ->). done.
  - eapply performs_iff; [apply performs_bind; [apply performs_segment|intros; apply performs_ret]|].
    intros gs. unfold path_means. split.
    + intros (g1 & g2 & -> & (d & Hd & ->) & <-). split; [simpl; lia|]. exists [d]. split; [|done]. by repeat (apply Forall2_cons_2; [done|]).
    + intros (_ & names & (d & r & Hd & ->%Forall2_nil_inv_l & ->)%Forall2_cons_inv_l & ->).
      exists [(Parm.Database, Str d)], []. eauto.
  - eapply performs_iff.
    { apply performs_bind; [apply performs_segment|]. intros _.
      apply performs_bind; [apply performs_segment|intros; apply performs_ret]. }
    intros gs. unfold path_means. split.
    + intros (g1 & g2 & -> & (d & Hd & ->) & g3 & g4 & -> & (d' & Hd' & ->) & <-). split; [simpl; lia|].
      exists [d; d']. split; [|done]. by repeat (apply Forall2_cons_2; [done|]).
    + intros (_ & names & (d & r & Hd & (d' & r' & Hd' & ->%Forall2_nil_inv_l & ->)%Forall2_cons_inv_l & ->)%Forall2_cons_inv_l & ->).
      exists [(Parm.Database, Str d)], [(Parm.TableSchema, Str d')]. split; [done|]. split; [eauto|].
      exists [(Parm.TableSchema, Str d')], []. eauto.
  - destruct rest as [|x rest]; (eapply performs_iff; [apply performs_bind; [apply performs_segment|intros _];
      apply performs_bind; [apply performs_segment|intros _];
      apply performs_bind; [apply performs_segment|intros _];
      (apply performs_ret || (apply (performs_fail _ (fun _ => False)); by intros ? []))|]).
    + intros gs. unfold path_means. split.
      * intros (g1 & g2 & -> & (d & Hd & ->) & g3 & g4 & -> & (d' & Hd' & ->) & g5 & g6 & -> & (d'' & Hd'' & ->) & <-).
        split; [simpl; lia|]. exists [d; d'; d'']. split; [|done]. by repeat (apply Forall2_cons_2; [done|]).
      * intros (_ & names & (d & r & Hd & (d' & r' & Hd' & (d'' & r'' & Hd'' & ->%Forall2_nil_inv_l & ->)%Forall2_cons_inv_l & ->)%Forall2_cons_inv_l & ->)%Forall2_cons_inv_l & ->).
        exists [(Parm.Database, Str d)], [(Parm.TableSchema, Str d'); (Parm.Table, Str d'')].
        split; [done|]. split; [eauto|].
        exists [(Parm.TableSchema, Str d')], [(Parm.Table, Str d'')]. split; [done|]. split; [eauto|].
        exists [(Parm.Table, Str d'')], []. eauto.
    + intros gs. unfold path_means. split; [naive_solver|]. intros [Hl _]. simpl in Hl. lia.
Qed.

Lemma performs_query pairs : performs (monetdb_query pairs) (query_means pairs).
Proof.
  induction pairs as [|[k v] pairs IH]; cbn [monetdb_query].
  { eapply performs_iff; [apply performs_ret|]. intros gs. split; [intros <-; constructor|by inversion 1]. }
  destruct (Parm.from_str k) as [p|] eqn:Ek.
  - destruct (Parm.is_core p) eqn:Ec.
    { apply performs_fail. intros gs. inversion 1; congruence. }
    eapply performs_iff; [apply performs_bind; [apply performs_set|intros; apply IH]|]. intros gs. split.
    + intros (g1 & g2 & -> & <- & Hq). by econstructor.
    + inversion 1; [|congruence]. simplify_eq. eexists [_], _. done.
  - destruct (Parm.ignored k) eqn:Ei; unfold Parm.ignored in Ei.
    + apply bool_decide_eq_true in Ei. eapply performs_iff; [apply IH|]. intros gs.
      split; [by apply query_ignored|inversion 1; [congruence|done]].
    + apply bool_decide_eq_false in Ei. apply performs_fail. intros gs. inversion 1; congruence.
Qed.

(** *** The effect of settings on the table *)

Definition assign_all (gs : list setting) (s : settings) : settings :=
  fold_left (fun s g => assign g.1 g.2 s) gs s.

Lemma refines_store_all gs self s :
  refines self s -> fits gs -> refines (store_all gs self) (assign_all gs s).
Proof.
  intros Hr Hf. revert self s Hr. induction Hf as [|[p v] gs Hv _ IH]; intros self s Hr; [done|].
  by apply IH, refines_assign.
Qed.

Lemma given_cons q v gs p :
  is_Some (given ((q, v) :: gs) p) <-> p = q \/ is_Some (given gs p).
Proof. cbn [given]. destruct (given gs p); [split; eauto|]. destruct (decide (q = p)); naive_solver. Qed.

Lemma assign_all_spec gs s :
  (forall p, val (assign_all gs s) p = default (val s p) (given gs p)) /\
  user_touched (assign_all gs s) = user_touched s || bool_decide (is_Some (given gs Parm.User)) /\
  password_touched (assign_all gs s) = password_touched s || bool_decide (is_Some (given gs Parm.Password)) /\
  timezone_given (assign_all gs s) = timezone_given s || bool_decide (is_Some (given gs Parm.Timezone)).
Proof.
  revert s. induction gs as [|[q v] gs IH]; intros s.
  { cbn. rewrite !orb_false_r. done. }
  cbn [assign_all fold_left fst snd]. fold (assign_all gs (assign q v s)).
  destruct (IH (assign q v s)) as (Hv & Hu & Hp & Ht).
  assert (forall p, bool_decide (is_Some (given ((q, v) :: gs) p)) =
    bool_decide (q = p) || bool_decide (is_Some (given gs p))) as Hg.
  { intros p. rewrite <- bool_decide_or. apply bool_decide_ext. rewrite given_cons. naive_solver. }
  split; [|rewrite Hu, Hp, Ht, !Hg; cbn; by rewrite !orb_assoc].
  intros p. rewrite Hv. cbn. destruct (given gs p); [done|].
  destruct (decide (p = q)) as [->|Hne]; [by rewrite decide_True|by rewrite decide_False by auto].
Qed.

(** Credentials aside, a boundary keeps all values. *)
Lemma val_paired s p : Parm.is_sensitive p = false -> val (pair_credentials s) p = val s p.
Proof.
  intros Hp. unfold pair_credentials, forget. destruct (user_touched s), (password_touched s); cbn;
    try done; rewrite decide_False; try done; by intros ->.
Qed.

Lemma timezone_paired s : timezone_given (pair_credentials s) = timezone_given s.
Proof.
  unfold pair_credentials, forget. destruct (user_touched s), (password_touched s); cbn; by rewrite ?andb_true_r.
Qed.

(** Between two boundaries the settings are applied. *)
Lemma applied_between gs self s1 s2 :
  wf self -> fits gs -> boundary self = (Ok tt, s1) -> boundary (store_all gs s1) = (Ok tt, s2) ->
  applied gs self s2.
Proof.
  intros Hwf Hf E1 E2.
  destruct (boundary_refines self _ (refines_settings_of self Hwf)) as (s1' & E1' & R1).
  rewrite E1 in E1'. injection E1' as <-. set (t1 := pair_credentials (settings_of self)) in *.
  destruct (boundary_refines _ _ (refines_store_all gs s1 t1 R1 Hf)) as (s2' & E2' & R2).
  rewrite E2 in E2'. injection E2' as <-. destruct R2 as (Hw & Hv & Hu & Hp & Ht).
  destruct (assign_all_spec gs t1) as (Av & Au & Ap & At).
  assert (user_touched t1 = false /\ password_touched t1 = false) as [Fu Fp] by done.
  rewrite Fu in Au. rewrite Fp in Ap. cbn in Au, Ap. rewrite timezone_paired, At in Ht.
  unfold t1 in Ht. rewrite timezone_paired in Ht.
  assert (forall p, val (pair_credentials (assign_all gs t1)) p =
    if decide (p = Parm.Password /\ is_Some (given gs Parm.User) /\ given gs Parm.Password = None) then default_value p
    else if decide (p = Parm.User /\ is_Some (given gs Parm.Password) /\ given gs Parm.User = None) then default_value p
    else default (val t1 p) (given gs p)) as Hval.
  { intros p. unfold pair_credentials, forget. rewrite Au, Ap.
    destruct (given gs Parm.User) eqn:Gu, (given gs Parm.Password) eqn:Gp; cbn -[t1]; repeat case_decide; subst;
      rewrite ?Av, ?Gu, ?Gp; naive_solver. }
  split; try done.
  - intros p v Hg. rewrite Hv, Hval. repeat case_decide; [naive_solver..|]. by rewrite Hg.
  - intros p Hg Hs. rewrite Hv, Hval. repeat case_decide; [naive_solver..|]. rewrite Hg.
    exact (val_paired (settings_of self) p Hs).
  - intros [v Hg]%not_eq_None_Some Hn. rewrite Hv, Hval, decide_True; [done|]. by split_and!.
  - intros [v Hg]%not_eq_None_Some Hn. rewrite Hv, Hval, decide_False, decide_True; [done| |]; naive_solver.
  - intros p Hn1 Hn2. rewrite Hv, Hval, Hn1, Hn2.
    rewrite !decide_False; [done|by intros (_ & [? ?] & _)..].
Qed.

(** An item of the query of a [mapi:] URL. *)
Lemma performs_item x :
  performs (match split_once [x3d] x with
            | Some (k, v) =>
                if bool_decide (k = bs "language") then set Parm.Language (value_from_str v)
                else if bool_decide (k = bs "database") then set Parm.Database (value_from_str v)
                else sret tt
            | None => sret tt
            end) (item_means x).
Proof.
  assert (forall k k' (v v' : bytes), x3d ∉ k -> x3d ∉ k' -> k ++ x3d :: v = k' ++ x3d :: v' -> k = k' /\ v = v') as Hinj.
  { intros k k' v v' Hk Hk' E. pose proof (split_once_char x3d k v Hk) as E1.
    rewrite E, split_once_char in E1 by done. by injection E1. }
  assert (x3d ∉ bs "language" /\ x3d ∉ bs "database") as [Hl Hd] by (by split; apply (bool_decide_unpack _)).
  destruct (decide (x3d ∈ x)) as [Hx|Hx].
  - apply list_elem_of_split_l in Hx as (k & v & -> & Hk). rewrite split_once_char by done.
    assert (forall gs, item_means (k ++ x3d :: v) gs ->
      k = bs "language" /\ gs = [(Parm.Language, Str v)] \/ k = bs "database" /\ gs = [(Parm.Database, Str v)] \/
      k <> bs "language" /\ k <> bs "database" /\ gs = []) as Hinv.
    { intros gs Hm. remember (k ++ x3d :: v) as x eqn:E. destruct Hm as [v'|v'|k' v' Hk' Hn1 Hn2|x' Hx'].
      - apply (Hinj (bs "language")) in E as [<- <-]; auto.
      - apply (Hinj (bs "database")) in E as [<- <-]; auto.
      - apply Hinj in E as [<- <-]; auto.
      - subst x'. destruct Hx'. set_solver. }
    case_bool_decide as H1; [|case_bool_decide as H2]; (eapply performs_iff; [apply performs_set || apply performs_ret|]);
      intros gs; (split; [intros <-|intros Hm%Hinv]).
    + subst k. apply (item_language v).
    + naive_solver.
    + subst k. apply (item_database v).
    + naive_solver.
    + by apply item_other.
    + naive_solver.
  - rewrite split_once_none by done. eapply performs_iff; [apply performs_ret|]. intros gs.
    split; [intros <-; by apply item_plain|]. intros Hm.
    destruct Hm; try done; destruct Hx; set_solver.
Qed.

Lemma performs_legacy_query items :
  performs (legacy_query items) (fun gs => exists gss, Forall2 item_means items gss /\ gs = concat gss).
Proof.
  induction items as [|x items IH]; cbn [legacy_query].
  { eapply performs_iff; [apply performs_ret|]. intros gs. split.
    - intros <-. by exists [].
    - by intros (gss & ->%Forall2_nil_inv_l & ->). }
  eapply performs_iff; [apply performs_bind; [apply performs_item|intros; apply IH]|]. intros gs. split.
  - intros (g1 & g2 & -> & H1 & gss & H2 & ->). exists (g1 :: gss). split; [by constructor|done].
  - intros (gss & (g & r & Hg & Hr & ->)%Forall2_cons_inv_l & ->). exists g, (concat r). eauto.
Qed.

Lemma performs_port parsed : performs (set_port_of parsed) (eq [port_setting parsed]).
Proof. unfold set_port_of, port_setting. destruct (port parsed); apply performs_set. Qed.

Lemma has_userinfo_spec parsed : has_userinfo parsed = false <-> no_userinfo parsed.
Proof.
  unfold has_userinfo, no_userinfo. rewrite orb_false_iff, negb_false_iff, bool_decide_eq_true, bool_decide_eq_false.
  rewrite <- eq_None_not_Some. tauto.
Qed.

Section ParserLemmas.
Context (Url_parse : bytes -> bytes + Url).

(** The settings that a URL gives, by its scheme. *)
Inductive url_means : bytes -> list setting -> Prop :=
| means_monetdb rest parsed gs :
    Url_parse (bs "monetdb://" ++ rest) = inr parsed -> monetdb_means false parsed gs ->
    url_means (bs "monetdb://" ++ rest) gs
| means_monetdbs rest parsed gs :
    Url_parse (bs "monetdbs://" ++ rest) = inr parsed -> monetdb_means true parsed gs ->
    url_means (bs "monetdbs://" ++ rest) gs
| means_mapi rest parsed gs :
    Url_parse (bs "monetdb://" ++ rest) = inr parsed -> legacy_means parsed gs ->
    url_means (bs "mapi:monetdb://" ++ rest) gs.

Lemma performs_monetdb use_tls url :
  performs (parse_monetdb_url Url_parse use_tls url)
    (fun gs => exists parsed, Url_parse url = inr parsed /\ monetdb_means use_tls parsed gs).
Proof.
  unfold parse_monetdb_url, parse_url. apply performs_lift.
  2: { intros Hn gs (parsed & Hp & _). rewrite Hp in Hn. by destruct (Hn parsed). }
  intros parsed Hp. destruct (Url_parse url) as [e|parsed'] eqn:Eu; [done|]. injection Hp as ->.
  destruct (has_userinfo parsed) eqn:Eh.
  { apply performs_fail. intros gs (parsed' & [= <-] & [name names query Hno _ _ _]).
    apply has_userinfo_spec in Hno. congruence. }
  apply has_userinfo_spec in Eh. eapply performs_iff.
  { apply performs_bind; [apply performs_set|intros _].
    apply (performs_lift _ _ (fun gs => exists name names query, host_means (host parsed) name /\
      path_means (default [] (path_segments parsed)) names /\ query_means (query_pairs parsed) query /\
      gs = [(Parm.Host, Str name); port_setting parsed] ++ names ++ query)).
    - intros name Hname. pose proof Hname as Hm%host_means_iff. eapply performs_iff.
      { apply performs_bind; [apply performs_set|intros _].
        apply performs_bind; [apply performs_port|intros _].
        apply (performs_bind _ _ (path_means (default [] (path_segments parsed)))); [|intros; apply performs_query].
        destruct (path_segments parsed); [apply performs_path|apply (performs_path [])]. }
      intros gs. split.
      + intros (g1 & g2 & -> & <- & g3 & g4 & -> & <- & names & query & -> & Hn & Hq). by exists name, names, query.
      + intros (name' & names & query & Hm' & Hn & Hq & ->). apply host_means_iff in Hm'. rewrite Hname in Hm'. injection Hm' as <-.
        eexists [_], _. split; [done|]. split; [done|]. eexists [_], _. split; [done|]. split; [done|]. eauto.
    - intros Hn gs (name & names & query & Hm%host_means_iff & _). by destruct (Hn name). }
  intros gs. split.
  - intros (g1 & g2 & -> & <- & name & names & query & Hm & Hn & Hq & ->). exists parsed. split; [done|].
    by apply (monetdb_settings use_tls parsed name names query).
  - intros (parsed' & [= <-] & [name names query Hno Hm Hn Hq]). eexists [_], _.
    split; [done|]. split; [done|]. by exists name, names, query.
Qed.

Lemma performs_legacy url :
  performs (parse_legacy_url Url_parse url)
    (fun gs => exists parsed, Url_parse (drop 5 url) = inr parsed /\ legacy_means parsed gs).
Proof.
  unfold parse_legacy_url, parse_url. apply performs_lift.
  2: { intros Hn gs (parsed & Hp & _). rewrite Hp in Hn. by destruct (Hn parsed). }
  intros parsed Hp. destruct (Url_parse _) as [e|parsed'] eqn:Eu; [done|]. injection Hp as ->.
  destruct (has_userinfo parsed) eqn:Eh.
  { apply performs_fail. intros gs (parsed' & [= <-] & [target items gss Hno _ _ _]).
    apply has_userinfo_spec in Hno. congruence. }
  apply has_userinfo_spec in Eh. eapply performs_iff.
  { apply (performs_bind _ _ (legacy_target parsed)).
    - destruct (host_str parsed) as [h|] eqn:Ehost.
      + eapply performs_iff.
        { apply performs_bind; [apply performs_set|intros _]. apply performs_bind; [apply performs_set|intros _].
          apply (performs_lift _ _ (fun gs => (length (default [] (path_segments parsed)) <= 1)%nat /\
            gs = [(Parm.Database, Str (default [] (head (default [] (path_segments parsed)))))])).
          - intros db Hdb. eapply performs_iff; [apply performs_set|]. intros gs. unfold legacy_database in Hdb.
            destruct (path_segments parsed) as [[|db' [|]]|]; try done; injection Hdb as <-; simpl; split;
              try (by intros <-; split; [lia|]); by intros [_ ->].
          - intros Hn gs [Hl ->]. unfold legacy_database in Hn.
            destruct (path_segments parsed) as [[|db [|]]|]; try (by eapply Hn); simpl in Hl; lia. }
        intros gs. split.
        * intros (g1 & g2 & -> & <- & g3 & g4 & -> & <- & Hl & ->). by apply (legacy_host parsed h _ Ehost eq_refl).
        * intros [h' segments Hh <- Hl|]; [|congruence]. simplify_eq.
          eexists [_], _. split; [done|]. split; [done|]. eexists [_], _. done.
      + eapply performs_iff.
        { apply performs_bind; [apply performs_set|intros _]. apply performs_bind; [apply performs_set|intros _].
          apply performs_set. }
        intros gs. split.
        * intros (g1 & g2 & -> & <- & g3 & g4 & -> & <- & <-). by apply legacy_socket.
        * intros [h' segments Hh <- Hl|_]; [congruence|].
          eexists [_], _. split; [done|]. split; [done|]. by eexists [_], _.
    - intros _. apply (performs_bind _ _ (eq [port_setting parsed]) (fun gs => exists items gss,
        (forall q, query parsed = Some q -> pieces x26 q items) /\ (query parsed = None -> items = []) /\
        Forall2 item_means items gss /\ gs = concat gss)); [apply performs_port|intros _].
      destruct (query parsed) as [q|].
      + eapply performs_iff; [apply performs_legacy_query|]. intros gs. split.
        * intros (gss & H & ->). exists (split_on x26 q), gss. split; [|done]. intros q' [= <-]. by apply pieces_split.
        * intros (items & gss & Hq & _ & H & ->). exists gss. specialize (Hq q eq_refl). apply pieces_split in Hq as <-. done.
      + eapply performs_iff; [apply performs_ret|]. intros gs. split.
        * intros <-. exists [], []. by repeat constructor.
        * intros (items & gss & _ & Hn & H & ->). rewrite Hn in H by done. by apply Forall2_nil_inv_l in H as ->. }
  intros gs. split.
  - intros (target & g2 & -> & Ht & g3 & g4 & -> & <- & items & gss & Hq & Hn & Hi & ->). exists parsed.
    split; [done|]. by apply (legacy_settings parsed target items gss).
  - intros (parsed' & [= <-] & [target items gss Hno Ht Hq Hn Hi]). exists target. eexists.
    split; [done|]. split; [done|]. eexists [_], _. split; [done|]. split; [done|]. by exists items, gss.
Qed.

Lemma performs_any_url url : performs (parse_any_url Url_parse url) (url_means url).
Proof.
  unfold parse_any_url.
  destruct (starts_with (bs "monetdb://") url) eqn:E1.
  { apply starts_with_spec in E1 as [rest ->]. eapply performs_iff; [apply performs_monetdb|]. intros gs. split.
    - intros (parsed & Hp & Hm). by eapply means_monetdb.
    - intros Hm. inversion Hm as [r parsed gs' Hp Hg E|r parsed gs' Hp Hg E|r parsed gs' Hp Hg E]; subst; eauto. }
  destruct (starts_with (bs "monetdbs://") url) eqn:E2.
  { apply starts_with_spec in E2 as [rest ->]. eapply performs_iff; [apply performs_monetdb|]. intros gs. split.
    - intros (parsed & Hp & Hm). by eapply means_monetdbs.
    - intros Hm. inversion Hm as [r parsed gs' Hp Hg E|r parsed gs' Hp Hg E|r parsed gs' Hp Hg E]; subst; eauto. }
  destruct (starts_with (bs "mapi:monetdb://") url) eqn:E3.
  { apply starts_with_spec in E3 as [rest ->]. eapply performs_iff; [apply performs_legacy|]. intros gs. split.
    - intros (parsed & Hp & Hm). by eapply means_mapi.
    - intros Hm. inversion Hm as [r parsed gs' Hp Hg E|r parsed gs' Hp Hg E|r parsed gs' Hp Hg E]; subst; eauto. }
  apply performs_fail. intros gs Hm.
  destruct Hm; (by rewrite (proj2 (starts_with_spec _ _) (ex_intro _ _ eq_refl)) in E1) ||
    (by rewrite (proj2 (starts_with_spec _ _) (ex_intro _ _ eq_refl)) in E2) ||
    (by rewrite (proj2 (starts_with_spec _ _) (ex_intro _ _ eq_refl)) in E3).
Qed.

Lemma parse_url_returns url : returns (parse_url Url_parse url).
Proof. unfold parse_url. by destruct (Url_parse url). Qed.

Lemma keeps_parse_any_url url : keeps (parse_any_url Url_parse url).
Proof.
  assert (forall b u, keeps (parse_monetdb_url Url_parse b u)) as Hm.
  { intros b u. unfold parse_monetdb_url, set_tls.
    apply keeps_sbind; [apply keeps_slift, parse_url_returns|intros parsed].
    destruct (has_userinfo parsed); [auto with keeps|].
    repeat (apply keeps_sbind; [solve [auto with keeps]|intros ?]).
    apply keeps_sbind; [|auto with keeps].
    destruct (path_segments parsed); auto with keeps. }
  unfold parse_any_url. do 2 (destruct (starts_with _ url); [apply Hm|]).
  destruct (starts_with _ url); [|auto with keeps]. unfold parse_legacy_url.
  apply keeps_sbind; [apply keeps_slift, parse_url_returns|intros parsed].
  destruct (has_userinfo parsed); [auto with keeps|].
  apply keeps_sbind; [destruct (host_str parsed)|intros _].
  1,2: repeat (apply keeps_sbind; [solve [auto with keeps]|intros ?]); auto with keeps.
  apply keeps_sbind; [auto with keeps|intros _].
  destruct (query parsed); auto with keeps.
Qed.

Lemma boundary_flags self self' u :
  boundary self = (Ok u, self') -> user_changed self' = false /\ password_changed self' = false.
Proof. unfold boundary. intros H. res_inv. done. Qed.

Lemma apply_url_keeps url self :
  wf self ->
  (exists e, apply_url Url_parse url self = (Err e, self)) \/
  (exists self', apply_url Url_parse url self = (Ok tt, self') /\ wf self' /\
     user_changed self' = false /\ password_changed self' = false).
Proof.
  intros Hwf. unfold apply_url.
  assert (keeps (do! boundary in do! parse_any_url Url_parse url in boundary)) as Hk.
  { repeat (apply keeps_sbind; [solve [auto using keeps_parse_any_url with keeps]|intros ?]).
    auto with keeps. }
  destruct (Hk self Hwf) as [Hr Hw]. clear Hk.
  destruct (sbind boundary _ self) as [[[]|e| |] self'] eqn:E; simpl in *; try done;
    [right|left; eauto].
  exists self'. split; [done|]. split; [done|]. res_inv. eauto using boundary_flags.
Qed.


End ParserLemmas.

(** A parser that knows one URL, for concrete runs. *)
Definition one_url (url : bytes) (parsed : Url) : bytes -> bytes + Url := fun s =>
  if bool_decide (s = url) then inr parsed else inl (bs "unsupported").

Definition example_url : bytes :=
  bs "monetdb://replacement.example/demo?user=alice&unknown=value".

Definition example_parsed : Url :=
  MkUrl [] None (Some (Domain (bs "replacement.example")))
    (Some (bs "replacement.example")) None (bs "/demo") (Some [bs "demo"])
    (Some (bs "user=alice&unknown=value"))
    [(bs "user", bs "alice"); (bs "unknown", bs "value")].

Definition good_url : bytes := bs "monetdb://replacement.example/demo?user=alice&x_y=1".

Definition good_parsed : Url :=
  MkUrl [] None (Some (Domain (bs "replacement.example")))
    (Some (bs "replacement.example")) None (bs "/demo") (Some [bs "demo"])
    (Some (bs "user=alice&x_y=1"))
    [(bs "user", bs "alice"); (bs "x_y", bs "1")].


(** ** Lemmas: the text of a URL *)

(** The parameters that a URL shows after the question mark. *)
Definition shown (parms : Parameters) (p : Parm) : bool :=
  negb (Parm.is_core p) && match is_default parms p with Ok d => negb d | _ => false end.

Definition shown_pairs (parms : Parameters) (selection : list Parm) : list (bytes * bytes) :=
  (fun p => (Parm.as_str p, str_value (value_of parms p))) <$>
    filter (fun p => shown parms p = true) selection.

Fixpoint render (sep : byte) (pairs : list (bytes * bytes)) : bytes :=
  match pairs with
  | [] => []
  | (k, v) :: rest => [sep] ++ k ++ [x3d] ++ (v ≫= encode_byte) ++ render x26 rest
  end.

Lemma is_default_ok parms p : wf parms -> exists d, is_default parms p = Ok d.
Proof. intros H. unfold is_default. rewrite wf_get, get_default by done. simpl. eauto. Qed.

Lemma url_query_render parms sep selection :
  wf parms -> url_query parms sep selection = Ok (render sep (shown_pairs parms selection)).
Proof.
  intros Hwf. unfold shown_pairs. revert sep. induction selection as [|p l IH]; intros sep; [done|].
  destruct (is_default_ok parms p Hwf) as [d Hd].
  assert (shown parms p = negb (Parm.is_core p) && negb d) as Hs by (unfold shown; by rewrite Hd).
  cbn [url_query]. destruct (Parm.is_core p).
  { simpl in Hs. rewrite filter_cons_False by congruence. apply IH. }
  rewrite Hd. cbn [res_bind]. destruct d; cbn [negb andb] in *.
  { rewrite filter_cons_False by congruence. apply IH. }
  rewrite filter_cons_True by done. unfold get_str. rewrite wf_get by done. cbn [res_bind].
  rewrite IH. unfold percent_encode. simpl. by rewrite <- !app_assoc.
Qed.

(** A reader of the query part: items between ampersands, each a name and a
    percent-encoded value on the sides of an equals sign. *)
Definition read_item (item : bytes) : option (bytes * bytes) :=
  '(k, v) ← split_once [x3d] item;
  match percent_decode v with Ok d => Some (k, d) | _ => None end.

Definition read_query (q : bytes) : option (list (bytes * bytes)) :=
  match q with
  | [] => Some []
  | c :: body => if bool_decide (c = x3f) then mapM read_item (split_on x26 body) else None
  end.

Definition plain_key (k : bytes) : Prop := x3d ∉ k /\ x26 ∉ k.

Lemma encoded_not c v : url_char c = false -> c ∉ (v ≫= encode_byte).
Proof.
  intros Hc Hin. pose proof (encode_chars v) as H. rewrite Forall_forall in H.
  specialize (H _ Hin). congruence.
Qed.

Lemma read_item_ok k v :
  x3d ∉ k -> utf8_valid v = true ->
  read_item (k ++ x3d :: (v ≫= encode_byte)) = Some (k, v).
Proof.
  intros Hk Hv. unfold read_item. simpl. rewrite split_once_char by done. simpl.
  by rewrite percent_roundtrip_lemma.
Qed.

Lemma read_render pairs :
  Forall (fun kv => plain_key (fst kv) /\ utf8_valid (snd kv) = true) pairs ->
  read_query (render x3f pairs) = Some pairs.
Proof.
  destruct pairs as [|[k v] pairs]; [done|]. simpl.
  set (item k v := k ++ x3d :: (v ≫= encode_byte) : bytes).
  revert k v. induction pairs as [|[k' v'] pairs IH]; intros k v [[[H1 H2] Hv] Hr]%Forall_cons;
    simpl in *.
  - rewrite app_nil_r, split_on_piece.
    + cbn [mapM]. rewrite read_item_ok by done. done.
    + rewrite elem_of_app, elem_of_cons. intros [?|[?|?]]; [done..|].
      by eapply (encoded_not x26 v).
  - replace (k ++ x3d :: (v ≫= encode_byte) ++ x26 :: k' ++ x3d :: (v' ≫= encode_byte) ++ render x26 pairs)
      with (item k v ++ x26 :: (k' ++ x3d :: (v' ≫= encode_byte) ++ render x26 pairs))
      by (unfold item; by rewrite <- !app_assoc).
    rewrite split_on_app.
    + cbn [mapM]. unfold item at 1. rewrite read_item_ok by done. rewrite IH by done. done.
    + unfold item. rewrite elem_of_app, elem_of_cons. intros [?|[?|?]]; [done..|].
      by eapply (encoded_not x26 v).
Qed.

(** *** The part before the query *)

Definition ip_char (c : byte) : bool :=
  hex_digit c || bool_decide (c = x3a) || bool_decide (c = x2e).

(** What is between two positions of the input is made of address characters. *)
Definition ip_between (l r : bytes) : Prop :=
  exists a, l = a ++ r /\ Forall (fun c => ip_char c = true) a.

Lemma ip_between_refl l : ip_between l l.
Proof. by exists []. Qed.

Lemma ip_between_trans l1 l2 l3 : ip_between l1 l2 -> ip_between l2 l3 -> ip_between l1 l3.
Proof.
  intros (a & -> & Ha) (b & -> & Hb). exists (a ++ b). rewrite app_assoc.
  split; [done|]. by apply Forall_app.
Qed.

Definition consumes (f : bytes -> option bytes) : Prop :=
  forall l r, f l = Some r -> ip_between l r.

Lemma span_app p l a b :
  span p l = (a, b) -> l = a ++ b /\ Forall (fun c => p c = true) a.
Proof.
  revert a. induction l as [|c l IH]; intros a; simpl; [by intros [= <- <-]|].
  destruct (p c) eqn:E; [|by intros [= <- <-]].
  destruct (span p l) as [a' b']. intros [= <- <-]. destruct (IH a' eq_refl) as [-> Ha].
  split; [done|]. by constructor.
Qed.

Lemma consumes_group : consumes read_group.
Proof.
  intros l r. unfold read_group. destruct (span hex_digit l) as [ds rest] eqn:E.
  apply span_app in E as [-> H]. destruct (_ && _); [|done]. intros [= <-].
  exists ds. split; [done|]. eapply Forall_impl; [exact H|]. intros c Hc.
  unfold ip_char. by rewrite Hc.
Qed.

Lemma consumes_octet : consumes read_octet.
Proof.
  intros l r. unfold read_octet. destruct (span is_digit l) as [ds rest] eqn:E.
  apply span_app in E as [-> H]. destruct (_ && _); [|done]. intros [= <-].
  exists ds. split; [done|]. eapply Forall_impl; [exact H|]. intros c Hc.
  unfold ip_char, hex_digit. by rewrite Hc.
Qed.

Lemma consumes_char c : ip_char c = true -> consumes (read_given_char c).
Proof.
  intros Hc l r. unfold read_given_char. intros ->%strip_prefix_Some.
  exists [c]. split; [done|]. by constructor.
Qed.

Lemma consumes_bind f g :
  consumes f -> consumes g -> consumes (fun l => f l ≫= g).
Proof.
  intros Hf Hg l r (m & Hm & Hr)%bind_Some. eauto using ip_between_trans.
Qed.

Lemma consumes_separator sep i inner :
  ip_char sep = true -> consumes inner -> consumes (read_separator sep i inner).
Proof.
  intros Hs Hi. destruct i; [done|]. apply consumes_bind; [by apply consumes_char|done].
Qed.

Lemma consumes_ipv4 : consumes read_ipv4_addr.
Proof.
  intros l r (l1 & H1 & H)%bind_Some. apply bind_Some in H as (l2 & H2 & H).
  apply bind_Some in H as (l3 & H3 & H).
  apply consumes_octet in H1. apply consumes_separator in H2, H3, H;
    auto using consumes_octet. eauto using ip_between_trans.
Qed.

Lemma read_groups_between left i limit l n b r :
  read_groups left i limit l = (n, b, r) -> ip_between l r.
Proof.
  revert i l. induction left as [|left IH]; intros i l; simpl.
  { intros [= _ _ <-]. apply ip_between_refl. }
  destruct (if (i <? limit - 1)%nat then _ else _) as [rest|] eqn:E.
  - intros [= _ _ <-]. destruct (i <? limit - 1)%nat; [|done].
    by apply consumes_separator in E; auto using consumes_ipv4.
  - destruct (read_separator x3a i read_group l) as [rest|] eqn:Eg.
    + intros H%IH. apply consumes_separator in Eg; auto using consumes_group.
      eauto using ip_between_trans.
    + intros [= _ _ <-]. apply ip_between_refl.
Qed.

Lemma is_ipv6_chars l : is_ipv6 l = true -> Forall (fun c => ip_char c = true) l.
Proof.
  unfold is_ipv6. rewrite bool_decide_eq_true. unfold read_ipv6_addr.
  destruct (read_groups 8 0 8 l) as [[n b] l1] eqn:E1. apply read_groups_between in E1.
  intros H. assert (ip_between l []) as (a & -> & Ha); [|by rewrite app_nil_r].
  destruct (n =? 8)%nat; [injection H as ->; done|]. destruct b; [done|].
  apply bind_Some in H as (l2 & H2 & H). apply bind_Some in H as (l3 & H3 & H).
  destruct (read_groups _ 0 _ l3) as [[n' b'] l4] eqn:E4. injection H as ->.
  apply read_groups_between in E4. apply consumes_char in H2, H3; try done.
  eauto using ip_between_trans.
Qed.

Lemma print_int_no c z : is_digit c = false -> c <> x2d -> c ∉ print_int z.
Proof.
  intros Hd Hm. assert (forall n, 0 <= n -> c ∉ print_dec n) as Hp.
  { intros n Hn Hin. pose proof (print_dec_digits n Hn) as H.
    rewrite forallb_forall in H. specialize (H c). rewrite <- list_elem_of_In in H.
    rewrite H in Hd by done. done. }
  unfold print_int. destruct (Z.ltb_spec z 0).
  - apply not_elem_of_cons. split; [done|]. apply Hp. lia.
  - by apply Hp.
Qed.

Lemma url_authority_ok parms :
  wf parms -> exists a, url_authority parms = Ok a /\ x3f ∉ a.
Proof.
  intros Hwf. unfold url_authority. assert (exists z, get_int parms Parm.Port = Ok z) as [z ->].
  { unfold get_int. rewrite wf_get by done. simpl.
    pose proof (wf_assignable parms Parm.Port Hwf) as Ha. unfold verify_assign in Ha. simpl in Ha.
    destruct (int_value _); [eauto|done]. }
  unfold get_str. rewrite wf_get by done. cbn [res_bind]. eexists. split; [reflexivity|].
  set (h := if bool_decide (is_Some _) && _ then _ else _). clearbody h.
  assert (x3f ∉ (if is_ipv6 h then [x5b] ++ h ++ [x5d] else percent_encode [] h)) as Hh.
  { destruct (is_ipv6 h) eqn:E.
    - apply is_ipv6_chars in E. rewrite Forall_forall in E.
      rewrite !elem_of_app, !elem_of_cons, elem_of_nil. intros [[|[]]|[H|[|[]]]]; try done.
      specialize (E _ H). vm_compute in E. discriminate E.
    - by apply encoded_not. }
  destruct ((z =? -1) || (z =? 50000)); [done|].
  rewrite !elem_of_app, elem_of_cons, elem_of_nil.
  intros [?|[[|[]]|H]]; try done. by eapply print_int_no in H.
Qed.

Lemma url_path_ok parms : wf parms -> exists a, url_path parms = Ok a /\ x3f ∉ a.
Proof.
  intros Hwf. unfold url_path, get_str. rewrite !wf_get by done. cbn [res_bind].
  assert (forall b s, x3f ∉ b -> x3f ∉ percent_encode (b ++ [x2f]) s) as He.
  { intros b s Hb. unfold percent_encode. rewrite !elem_of_app, elem_of_cons, elem_of_nil.
    intros [[?|[|[]]]|H]; try done. by apply encoded_not in H. }
  assert (x3f ∉ ([] : bytes)) by apply not_elem_of_nil.
  eexists. split; [reflexivity|]. repeat case_match; auto.
Qed.

Lemma as_str_plain p : plain_key (Parm.as_str p).
Proof.
  split; destruct p; apply (bool_decide_eq_true_1 _); reflexivity.
Qed.

(** The strings of the table are UTF-8, as the type [str] has it. *)
Definition texts_utf8 (self : Parameters) : Prop :=
  forall p s, value_of self p = Str s -> utf8_valid s = true.

Lemma texts_utf8_default : texts_utf8 DEFAULT_PARAMETERS.
Proof.
  intros p s Hv. assert (value_of DEFAULT_PARAMETERS p = default_value p) as Ed.
  { pose proof (wf_get DEFAULT_PARAMETERS p wf_default) as H. rewrite get_default in H.
    by injection H. }
  rewrite Ed in Hv.
  assert (match default_value p with Str s => utf8_valid s | _ => true end = true) as H
    by (destruct p; reflexivity).
  by rewrite Hv in H.
Qed.

Lemma texts_utf8_store self p s :
  wf self -> texts_utf8 self -> utf8_valid s = true -> texts_utf8 (store p (Str s) self).
Proof.
  intros Hwf Hu Hs q s'. rewrite value_of_store by apply Hwf.
  destruct (decide (q = p)); [naive_solver|apply Hu].
Qed.

Lemma str_value_utf8 self p : texts_utf8 self -> utf8_valid (str_value (value_of self p)) = true.
Proof.
  intros H. destruct (value_of self p) as [[]|z|s] eqn:E; [done..| |by apply (H p)].
  simpl. apply utf8_valid_ascii, forallb_forall. intros c Hc%list_elem_of_In.
  destruct (is_ascii c) eqn:Ea; [done|]. exfalso. eapply print_int_no; [..|exact Hc].
  - destruct (is_digit c) eqn:Ed; [|done]. apply is_ascii_digit in Ed. congruence.
  - intros ->. done.
Qed.

Lemma url_from_parms_ok self selection :
  wf self ->
  exists front, x3f ∉ front /\
    url_from_parms self selection = Ok (front ++ render x3f (shown_pairs self selection)).
Proof.
  intros Hwf. unfold url_from_parms.
  assert (exists b, get_bool self Parm.Tls = Ok b) as [b ->].
  { unfold get_bool. rewrite wf_get by done. simpl.
    pose proof (wf_assignable self Parm.Tls Hwf) as Ha. unfold verify_assign in Ha. simpl in Ha.
    destruct (bool_value _); [eauto|done]. }
  destruct (url_authority_ok self Hwf) as (a & -> & Ha).
  destruct (url_path_ok self Hwf) as (q & -> & Hq). rewrite url_query_render by done.
  cbn [res_bind]. exists ((if b then bs "monetdbs" else bs "monetdb") ++ bs "://" ++ a ++ q).
  split; [|by rewrite <- !app_assoc].
  rewrite !elem_of_app. intros [H|[H|[H|H]]]; try done; revert H; [destruct b|]; vm_compute;
    intros H; repeat (apply elem_of_cons in H as [H|H]; [discriminate H|]);
    by apply not_elem_of_nil in H.
Qed.

(** C34: Rendering parameters as a URL loses no query parameter and lets no
    value escape from its place: the URL is some text without a question mark
    followed by a query from which a reader that splits at [&] and [=] and
    percent-decodes gets back exactly the parameters that are neither in the
    authority and path nor at their default, each with its value as text. *)
Theorem url_query_roundtrip self selection :
  wf self -> texts_utf8 self ->
  exists front q, url_from_parms self selection = Ok (front ++ q) /\ x3f ∉ front /\
    read_query q = Some (shown_pairs self selection).
Proof.
  intros Hwf Hu. destruct (url_from_parms_ok self selection Hwf) as (front & Hf & ->).
  eexists front, _. split; [reflexivity|]. split; [done|]. apply read_render.
  unfold shown_pairs. apply Forall_fmap, Forall_forall. intros p _. simpl.
  split; [apply as_str_plain|by apply str_value_utf8].
Qed.

Lemma url_query_roundtrip_witness :
  let self := store Parm.Password (Str (bs "a&b=c?")) DEFAULT_PARAMETERS in
  exists front q, url_with_credentials self = Ok (front ++ q) /\
    read_query q = Some [(bs "password", bs "a&b=c?")].
Proof.
  intros self. assert (wf self) as Hwf by (apply wf_store; [apply wf_default|reflexivity]).
  destruct (url_query_roundtrip self Parm.iter Hwf) as (front & q & E & _ & Hq).
  - apply texts_utf8_store; [apply wf_default|apply texts_utf8_default|reflexivity].
  - exists front, q. split; [exact E|]. rewrite Hq. vm_compute. reflexivity.
Defined.

Lemma url_query_public self other sep selection :
  (forall p, Parm.is_sensitive p = false -> get self p = get other p) ->
  Forall (fun p => Parm.is_sensitive p = false) selection ->
  url_query self sep selection = url_query other sep selection.
Proof.
  intros Hg H. revert sep. induction H as [|p l Hp _ IH]; intros sep; simpl; [done|].
  destruct (Parm.is_core p); [done|]. unfold is_default, get_str. rewrite Hg by done.
  destruct (get other p); simpl; [|done..]. destruct (get DEFAULT_PARAMETERS p); simpl; [|done..].
  destruct (negb _); [|done]. simpl. by rewrite IH.
Qed.

(** [url_without_credentials] shows nothing of the credentials: two tables
    that differ only in the user name and the password have the same URL. *)
Theorem url_without_credentials_hides self other :
  same_public self other ->
  url_without_credentials self = url_without_credentials other.
Proof.
  intros (Hg & _). unfold url_without_credentials, url_from_parms, url_authority, url_path,
    get_bool, get_int, get_str. rewrite !Hg by done.
  rewrite (url_query_public self other); [done..|].
  apply Forall_forall. intros p [Hp _]%list_elem_of_filter. by destruct (Parm.is_sensitive p).
Qed.

Lemma url_without_credentials_hides_witness :
  let with_user s := store Parm.User (Str (bs s)) DEFAULT_PARAMETERS in
  url_without_credentials (with_user "alice"%string) =
    url_without_credentials (with_user "bob"%string) /\
  url_without_credentials (with_user "alice"%string) = Ok (bs "monetdb://").
Proof.
  intros with_user. split; [|vm_compute; reflexivity].
  apply url_without_credentials_hides. repeat split. intros p Hp.
  destruct p; first [reflexivity|discriminate Hp].
Defined.

(** The host [localhost] asks for TCP, an empty host for a local socket too;
    rendered as a URL the two are the same text. *)
Lemma url_forgets_localhost :
  let self h := store Parm.Host (Str h) (store Parm.Database (Str (bs "demo")) DEFAULT_PARAMETERS) in
  url_with_credentials (self (bs "localhost")) = url_with_credentials (self []) /\
  exists v w, validate (fun _ => true) (self (bs "localhost")) = Ok v /\
    validate (fun _ => true) (self []) = Ok w /\
    connect_unix v = [] /\ connect_scan v = false /\
    connect_unix w = bs "/tmp/.s.monetdb.50000" /\ connect_scan w = true.
Proof.
  split; [vm_compute; reflexivity|]. eexists _, _.
  split; [vm_compute; reflexivity|]. split; [vm_compute; reflexivity|].
  repeat split.
Qed.

(** ** Credentials in a URL *)

(** The value of the last query pair with the given name. *)
Fixpoint last_value (name : bytes) (pairs : list (bytes * bytes)) : option bytes :=
  match pairs with
  | [] => None
  | (k, v) :: rest =>
      match last_value name rest with
      | Some x => Some x
      | None => if bool_decide (k = name) then Some v else None
      end
  end.

(** The assignments that the query makes. *)
Definition query_requests (pairs : list (bytes * bytes)) : list request :=
  omap (fun kv => (fun p => Set_ p (Str (snd kv))) <$> Parm.from_str (fst kv)) pairs.

Lemma set_run p v self s' :
  set p v self = (Ok tt, s') -> s' = (run perform [Set_ p v] self).2.
Proof. intros E. simpl. unfold nothing, sbind. by rewrite E. Qed.

Lemma run_app {S} (step : request -> S -> _ * S) rs1 rs2 s :
  (run step (rs1 ++ rs2) s).2 = (run step rs2 (run step rs1 s).2).2.
Proof.
  revert s. induction rs1 as [|r rs1 IH]; intros s; simpl; [done|].
  destruct (step r s) as [o s1]. specialize (IH s1).
  destruct (run step (rs1 ++ rs2) s1), (run step rs1 s1). done.
Qed.

(** The operation performs the requests [rs] for some [rs] that all satisfy [P],
    when it succeeds. *)
Definition runs_as {A} (P : request -> Prop) (m : pcomp A) : Prop :=
  forall self a s', m self = (Ok a, s') ->
    exists rs, Forall P rs /\ s' = (run perform rs self).2.

Lemma runs_as_sbind {A B} P (m : pcomp A) (k : A -> pcomp B) :
  runs_as P m -> (forall a, runs_as P (k a)) -> runs_as P (sbind m k).
Proof.
  intros Hm Hk self b s' (a & s1 & E1 & E2)%sbind_ok.
  destruct (Hm _ _ _ E1) as (rs1 & H1 & ->). destruct (Hk _ _ _ _ E2) as (rs2 & H2 & ->).
  exists (rs1 ++ rs2). split; [by apply Forall_app|]. by rewrite run_app.
Qed.

Lemma runs_as_slift {A} P (r : res ParmError A) : runs_as P (slift r).
Proof. intros self a s' [= _ <-]. by exists []. Qed.

Lemma runs_as_sret {A} P (a : A) : runs_as P (sret a).
Proof. intros self b s' [= _ <-]. by exists []. Qed.

Lemma runs_as_sfail {A} P e : runs_as P (@sfail _ _ A e).
Proof. by intros self b s' [=]. Qed.

Lemma runs_as_set (P : request -> Prop) p v : P (Set_ p v) -> runs_as P (set p v).
Proof. intros HP self [] s' E. exists [Set_ p v]. split; [by constructor|]. by apply set_run. Qed.

(** A request that assigns something other than a credential. *)
Definition other_request (r : request) : Prop :=
  exists p v, r = Set_ p v /\ Parm.is_sensitive p = false.

Create HintDb runs.
#[export] Hint Resolve runs_as_slift runs_as_sret runs_as_sfail : runs.
#[export] Hint Extern 1 (runs_as other_request (set _ _)) =>
  apply runs_as_set; eexists _, _; done : runs.

Lemma monetdb_query_run pairs self s' :
  monetdb_query pairs self = (Ok tt, s') ->
  s' = (run perform (query_requests pairs) self).2.
Proof.
  revert self. induction pairs as [|[k v] pairs IH]; intros self E; simpl in *.
  { by injection E as <-. }
  unfold query_requests. simpl. fold (query_requests pairs).
  destruct (Parm.from_str k) as [p|]; simpl.
  - destruct (Parm.is_core p); [done|]. apply sbind_ok in E as ([] & s1 & E1 & E2).
    apply set_run in E1. simpl in E1. apply IH in E2. unfold value_from_str in E1.
    destruct (nothing (set p (Str v)) self) as [o s2]. simpl in E1. subst s2.
    by destruct (run perform (query_requests pairs) s1).
  - destruct (Parm.ignored k); [by apply IH|done].
Qed.

Section Credentials.
Context (Url_parse : bytes -> bytes + Url).

Lemma parse_monetdb_run b url parsed self s' :
  Url_parse url = inr parsed ->
  parse_monetdb_url Url_parse b url self = (Ok tt, s') ->
  exists rs, Forall other_request rs /\
    s' = (run perform (rs ++ query_requests (query_pairs parsed)) self).2.
Proof.
  intros Hp. unfold parse_monetdb_url, parse_url. rewrite Hp. unfold slift at 1.
  intros (parsed' & s1 & [= <- <-] & E)%sbind_ok. destruct (has_userinfo parsed); [done|].
  assert (runs_as other_request (do! set_tls b in do? host := slift (monetdb_host parsed) in
    do! set Parm.Host (value_from_str host) in do! set_port_of parsed in
    match path_segments parsed with
    | Some segments => monetdb_path segments | None => sret tt end)) as Hr.
  { unfold set_tls, set_port_of.
    repeat first [solve [auto with runs] | simple apply runs_as_sbind; [|intros ?]].
    - destruct (port parsed); auto with runs.
    - destruct (path_segments parsed) as [segments|]; [|auto with runs]. unfold monetdb_path.
      destruct segments as [|x1 [|x2 [|x3 [|x4 rest]]]];
        repeat first [solve [auto with runs] | simple apply runs_as_sbind; [|intros ?]]. }
  apply sbind_ok in E as (u1 & s1 & E1 & E). apply sbind_ok in E as (h & s2 & E2 & E).
  apply sbind_ok in E as (u3 & s3 & E3 & E). apply sbind_ok in E as (u4 & s4 & E4 & E).
  apply sbind_ok in E as (u5 & s5 & E5 & E). apply monetdb_query_run in E as ->.
  destruct (Hr self u5 s5) as (rs & Hrs & ->).
  { unfold sbind at 1. rewrite E1. unfold sbind at 1. rewrite E2. unfold sbind at 1.
    rewrite E3. unfold sbind at 1. rewrite E4. exact E5. }
  exists rs. split; [done|]. by rewrite run_app.
Qed.

End Credentials.

Lemma perform_set_other p v self q :
  wf self -> p <> q -> value_of (perform (Set_ p v) self).2 q = value_of self q.
Proof.
  intros Hwf Hne. unfold perform, nothing, sbind.
  destruct (verify_assign_returns v p) as [Hv|[e Hv]].
  - rewrite set_ok by done. simpl. rewrite value_of_store by apply Hwf.
    by rewrite decide_False by congruence.
  - by erewrite set_err.
Qed.

Lemma perform_set_wf p v self : wf self -> wf (perform (Set_ p v) self).2.
Proof.
  intros Hwf. unfold perform, nothing, sbind. destruct (keeps_set p v self Hwf) as [_ Hw].
  by destruct (set p v self) as [[] ?].
Qed.

Lemma run_query_value q pairs self :
  Parm.parm_type q = ParmType.Str -> wf self ->
  value_of (run perform (query_requests pairs) self).2 q =
    match last_value (Parm.as_str q) pairs with Some s => Str s | None => value_of self q end.
Proof.
  intros Ht. revert self. induction pairs as [|[k v] pairs IH]; intros self Hwf; [done|].
  unfold query_requests. cbn [omap list_omap fst snd last_value]. fold (query_requests pairs).
  destruct (Parm.from_str k) as [p|] eqn:Ek; simpl.
  - destruct (perform (Set_ p (Str v)) self) as [o s1] eqn:Ep. cbn [perform] in Ep. rewrite Ep.
    assert (wf s1) as Hs1 by (pose proof (perform_set_wf p (Str v) self Hwf) as H;
      cbn [perform] in H; by rewrite Ep in H).
    specialize (IH s1 Hs1). destruct (run perform (query_requests pairs) s1). simpl in *.
    rewrite IH. destruct (last_value _ pairs); [done|].
    destruct (decide (p = q)) as [->|Hne].
    + assert (k = Parm.as_str q) as ->.
      { apply from_str_sound in Ek as [?|[_ Hq]]; [done|]. rewrite Hq in Ht. discriminate Ht. }
      rewrite bool_decide_true by done. unfold nothing, sbind in Ep.
      rewrite set_ok in Ep by (done || unfold verify_assign; by rewrite Ht).
      injection Ep as _ <-. rewrite value_of_store by apply Hwf. by rewrite decide_True.
    + rewrite bool_decide_false.
      * pose proof (perform_set_other p (Str v) self q Hwf Hne) as H. cbn [perform] in H.
        by rewrite Ep in H.
      * intros ->. rewrite from_str_complete with (p := q) in Ek by auto. congruence.
  - rewrite IH by done. destruct (last_value _ pairs); [done|].
    rewrite bool_decide_false; [done|]. intros ->.
    rewrite from_str_complete with (p := q) in Ek by auto. congruence.
Qed.

Lemma run_other_value rs self q :
  Forall other_request rs -> Parm.is_sensitive q = true -> wf self ->
  wf (run perform rs self).2 /\ value_of (run perform rs self).2 q = value_of self q.
Proof.
  intros H Hq. revert self. induction H as [|r rs (p & v & -> & Hp) _ IH]; intros self Hwf; [done|].
  cbn [run]. destruct (perform (Set_ p v) self) as [o s1] eqn:Ep.
  assert (wf s1) as Hs1 by (pose proof (perform_set_wf p v self Hwf) as H; by rewrite Ep in H).
  assert (value_of s1 q = value_of self q) as Hv.
  { rewrite <- (perform_set_other p v self q Hwf); [by rewrite Ep|congruence]. }
  destruct (IH s1 Hs1) as [Hw Hv']. destruct (run perform rs s1). simpl in *. by rewrite Hv'.
Qed.

Lemma assigns_other q rs :
  Forall other_request rs -> Parm.is_sensitive q = true -> existsb (assigns q) rs = false.
Proof.
  intros H Hq. induction H as [|r rs (p & v & -> & Hp) _ IH]; [done|]. simpl. rewrite IH.
  rewrite bool_decide_false; [done|]. congruence.
Qed.

Lemma assigns_query q pairs :
  Parm.is_sensitive q = true ->
  existsb (assigns q) (query_requests pairs) =
    match last_value (Parm.as_str q) pairs with Some _ => true | None => false end.
Proof.
  intros Hq. induction pairs as [|[k v] pairs IH]; [done|].
  unfold query_requests. cbn [omap list_omap fst snd last_value]. fold (query_requests pairs).
  destruct (Parm.from_str k) as [p|] eqn:Ek; simpl.
  - rewrite IH. destruct (last_value _ pairs); [apply orb_true_r|]. rewrite orb_false_r.
    destruct (decide (p = q)) as [->|Hne].
    + apply from_str_sound in Ek as [->|[_ ->]]; [|done].
      rewrite !bool_decide_true by done. simpl. unfold verify_assign. by destruct q.
    + rewrite (bool_decide_false (p = q)) by done. simpl. rewrite bool_decide_false; [done|].
      intros ->. rewrite from_str_complete with (p := q) in Ek by auto. congruence.
  - rewrite IH. destruct (last_value _ pairs); [done|]. rewrite bool_decide_false; [done|].
    intros ->. rewrite from_str_complete with (p := q) in Ek by auto. congruence.
Qed.

Lemma no_boundary rs pairs :
  Forall other_request rs -> Boundary ∉ rs ++ query_requests pairs.
Proof.
  intros H. rewrite elem_of_app. intros [Hin|Hin].
  - rewrite Forall_forall in H. by destruct (H _ Hin) as (p & v & ? & _).
  - unfold query_requests in Hin. apply list_elem_of_omap in Hin as ([k v] & _ & Hin).
    simpl in Hin. destruct (Parm.from_str k); discriminate Hin.
Qed.

(** The credentials after a URL are those of the URL or those from before,
    never a mixture.  When a [monetdb://] or [monetdbs://] URL is applied, a
    user name and a password in its query are both taken (the last of each);
    when only one of them is given the other becomes empty; when neither is
    given both stay as the preceding boundary left them. *)
Theorem apply_url_credentials Url_parse url parsed self s0 s' :
  wf self -> Url_parse url = inr parsed ->
  starts_with (bs "monetdb://") url || starts_with (bs "monetdbs://") url = true ->
  boundary self = (Ok tt, s0) -> apply_url Url_parse url self = (Ok tt, s') ->
  (value_of s' Parm.User, value_of s' Parm.Password) =
  match last_value (bs "user") (query_pairs parsed),
        last_value (bs "password") (query_pairs parsed) with
  | Some u, Some p => (Str u, Str p)
  | Some u, None => (Str u, Str [])
  | None, Some p => (Str [], Str p)
  | None, None => (value_of s0 Parm.User, value_of s0 Parm.Password)
  end.
Proof.
  intros Hwf Hparse Hs Hb. unfold apply_url, sbind at 1. rewrite Hb.
  destruct (sbind _ _ s0) as [[[]|e| |] s2] eqn:E; [|done..]. intros [= <-].
  apply sbind_ok in E as ([] & s1 & E1 & E2).
  assert (wf s0) as Hw0 by (pose proof (keeps_boundary self Hwf) as [_ H]; by rewrite Hb in H).
  assert (exists rs, Forall other_request rs /\
    s1 = (run perform (rs ++ query_requests (query_pairs parsed)) s0).2) as (rs & Hrs & Es1).
  { unfold parse_any_url in E1. destruct (starts_with (bs "monetdb://") url);
      [|destruct (starts_with (bs "monetdbs://") url); [|done]];
      by eapply parse_monetdb_run in E1. }
  destruct (boundary_flags _ _ _ Hb) as [Hu Hp].
  destruct (boundary_paired (rs ++ query_requests (query_pairs parsed)) s0 Hw0 Hu Hp
              (no_boundary _ _ Hrs)) as (s3 & E3 & _ & _ & _ & Hm).
  rewrite <- Es1, E2 in E3. injection E3 as <-. rewrite <- Es1 in Hm.
  rewrite !existsb_app, !(assigns_other Parm.User), !(assigns_other Parm.Password),
    !assigns_query in Hm by done. cbn [orb] in Hm.
  assert (forall q, Parm.is_sensitive q = true -> value_of s1 q =
    match last_value (Parm.as_str q) (query_pairs parsed) with
    | Some s => Str s | None => value_of s0 q end) as Hv.
  { intros q Hq. destruct (run_other_value rs s0 q Hrs Hq Hw0) as [Hw1 Hv1].
    rewrite Es1, run_app, run_query_value by (done || by destruct q). by rewrite Hv1. }
  rewrite !Hv in Hm by done. change (Parm.as_str Parm.User) with (bs "user") in Hm.
  change (Parm.as_str Parm.Password) with (bs "password") in Hm.
  destruct (last_value (bs "user") _), (last_value (bs "password") _);
    destruct Hm as [-> ->]; reflexivity.
Qed.

Lemma apply_url_credentials_witness :
  let url := bs "monetdb:///demo?user=alice" in
  let parsed := MkUrl [] None None None None (bs "/demo") (Some [bs "demo"])
    (Some (bs "user=alice")) [(bs "user", bs "alice")] in
  let self := store Parm.Password (Str (bs "secret")) DEFAULT_PARAMETERS in
  exists s', apply_url (one_url url parsed) url self = (Ok tt, s') /\
    value_of s' Parm.User = Str (bs "alice") /\ value_of s' Parm.Password = Str [].
Proof.
  intros url parsed self. eexists. split; [vm_compute; reflexivity|].
  assert (wf self) as Hwf by (apply wf_store; [apply wf_default|reflexivity]).
  destruct (boundary self) as [[[]|?| |] s0] eqn:E; [|vm_compute in E; discriminate E..].
  epose proof (apply_url_credentials (one_url url parsed) url parsed self s0 _ Hwf
    ltac:(reflexivity) ltac:(reflexivity) E ltac:(vm_compute; reflexivity)) as H.
  split; [exact (f_equal fst H)|exact (f_equal snd H)].
Defined.
