(* ===== verification/ServerSock.v ===== *)
(** * Sockets with timeouts and a read buffer (src/framing/mod.rs)

    [ServerSock] puts a read buffer and timeouts in front of a socket.  The
    clock is a sequence of instants, one per call of [Instant::now]; instants
    and durations are numbers of nanoseconds.  The inner socket is any reader
    and writer with a way to set its timeouts ([ServerSockTrait]).

    The theorem of the file is an instance: over an inner socket that keeps the
    contracts of [io::Read] and [io::Write] and takes timeouts, a [ServerSock] keeps
    them too, in both directions, so that everything proved about [MapiReader] and
    about cursors holds for the sockets that the program uses. *)

From Stdlib Require Import ZArith Lia.
From S2P Require Import Prelude Bytes Blockstate IO Reading Errors Parms Validate.

Open Scope Z_scope.

(** ** Timeouts *)

Definition nanos (seconds : Z) : Z := seconds * 10 ^ 9.

Definition MAX_TIMEOUT : Z := nanos MAX_TIMEOUT_SECONDS.

Record Timeouts := MkTimeouts {
  t_read : option Z;
  t_write : option Z;
  t_operation : option Z
}.

Definition from_validated (parms : Validated) : Timeouts :=
  MkTimeouts (nanos <$> read_timeout parms) (nanos <$> write_timeout parms)
    (nanos <$> operation_timeout parms).

Definition bounded (self : Timeouts) : Timeouts :=
  let cap timeout := (fun value => Z.min value MAX_TIMEOUT) <$> timeout in
  MkTimeouts (cap (t_read self)) (cap (t_write self)) (cap (t_operation self)).

Lemma bounded_idempotent t : bounded (bounded t) = bounded t.
Proof.
  unfold bounded. cbn. f_equal; match goal with |- _ <$> (_ <$> ?o) = _ => destruct o end; cbn; f_equal; lia.
Qed.

Record ActiveTimeouts := MkActive {
  a_read : option Z;
  a_write : option Z;
  deadline : option Z
}.

(** [ActiveTimeouts::new] at the instant [now]; [fits] says which instants the
    clock can represent. *)
Definition active_new {E} (fits : Z -> bool) (now : Z) (timeouts : Timeouts)
    : res E ActiveTimeouts :=
  let timeouts := bounded timeouts in
  match t_operation timeouts with
  | None => Ok (MkActive (t_read timeouts) (t_write timeouts) None)
  | Some timeout =>
      if fits (now + timeout)
      then Ok (MkActive (t_read timeouts) (t_write timeouts) (Some (now + timeout)))
      else Panic
  end.

Definition for_connection (timeouts : Timeouts) (deadline : option Z) : ActiveTimeouts :=
  let timeouts := bounded timeouts in
  MkActive (t_read timeouts) (t_write timeouts) deadline.

Definition deadline_expired : io_error :=
  IoError TimedOut (Message "operation deadline expired").

(** [limit] at the instant [now]. *)
Definition limit (self : ActiveTimeouts) (now : Z) (idle : option Z)
    : res io_error (option Z) :=
  let? remaining :=
    match deadline self with
    | Some deadline =>
        if now <=? deadline then
          if deadline - now =? 0 then Err deadline_expired else Ok (Some (deadline - now))
        else Err deadline_expired
    | None => Ok None
    end in
  let lim :=
    match idle, remaining with
    | Some idle, Some remaining => Some (Z.min idle remaining)
    | Some idle, None => Some idle
    | None, remaining => remaining
    end in
  if match lim with Some l => MAX_TIMEOUT <? l | None => false end
  then Err (IoError InvalidInput (Message "timeout exceeds the portable socket limit"))
  else Ok lim.

(** A limit that is granted is at most the idle timeout, ends by the deadline,
    and is one that the socket interfaces support. *)
Lemma limit_ok self now idle r :
  limit self now idle = Ok r ->
  (forall i, idle = Some i -> exists l, r = Some l /\ l <= i) /\
  (forall d, deadline self = Some d -> exists l, r = Some l /\ now + l <= d) /\
  (forall l, r = Some l -> l <= MAX_TIMEOUT).
Proof.
  unfold limit. intros (rem & Hrem & H)%res_bind_ok.
  assert (r = match idle, rem with
    | Some idle, Some remaining => Some (Z.min idle remaining)
    | Some idle, None => Some idle | None, remaining => remaining end /\
    match r with Some l => l <= MAX_TIMEOUT | None => True end) as [Hr Hmax].
  { cbv zeta in H. destruct (match idle with Some _ => _ | None => _ end) as [l|];
      [destruct (Z.ltb_spec MAX_TIMEOUT l); [done|]|]; by injection H as <-. }
  clear H. destruct (deadline self) as [d|].
  - destruct (Z.leb_spec now d); [|done]. destruct (Z.eqb_spec (d - now) 0); [done|].
    injection Hrem as <-. subst r.
    destruct idle as [i|]; simpl in *; repeat split; intros; simplify_eq;
      try (eexists; split; [done|lia]); lia.
  - injection Hrem as <-. subst r. destruct idle as [i|]; simpl in *;
      repeat split; intros; simplify_eq; eauto with lia.
Qed.

(** ** The socket and its control *)

Inductive RawSocket := Tcp | Unix.

(** What the two [Mutex]es hold.  [shutdown] takes the raw socket out, so that
    it is shut down once. *)
Record SocketControl := MkControl { raw_socket : option RawSocket; timeouts : ActiveTimeouts }.

Definition control_new (raw : RawSocket) (active : ActiveTimeouts) : SocketControl :=
  MkControl (Some raw) active.

Definition start_operation {E} (fits : Z -> bool) (now : Z) (t : Timeouts)
    : comp SocketControl E unit :=
  do? active := slift (active_new fits now t) in
  fun self => (Ok tt, MkControl (raw_socket self) active).

Definition set_connection_deadline {E} (t : Timeouts) (deadline : option Z)
    : comp SocketControl E unit :=
  fun self => (Ok tt, MkControl (raw_socket self) (for_connection t deadline)).

Definition read_timeout_active (self : SocketControl) : bool :=
  bool_decide (is_Some (a_read (timeouts self))) || bool_decide (is_Some (deadline (timeouts self))).

Definition write_timeout_active (self : SocketControl) : bool :=
  bool_decide (is_Some (a_write (timeouts self))) || bool_decide (is_Some (deadline (timeouts self))).

(** [shutdown_os] is what the operating system answers. *)
Definition shutdown (shutdown_os : RawSocket -> res io_error unit)
    : comp SocketControl io_error unit :=
  fun self =>
    (match raw_socket self with
     | None => Ok tt
     | Some socket => shutdown_os socket
     end, MkControl None (timeouts self)).

Class ServerSockTrait (S : Type) := {
  set_socket_read_timeout : option Z -> comp S io_error unit;
  set_socket_write_timeout : option Z -> comp S io_error unit
}.

Definition READ_BUFFER_SIZE : nat := 64 * 1024.

Record ServerSock (S : Type) := MkSock {
  sock_inner : S;
  control : SocketControl;
  read_buffer : option bytes;
  read_position : nat;
  read_length : nat;
  last_read_timeout : option (option Z);
  last_write_timeout : option (option Z);
  ticks : nat
}.
Arguments MkSock {S}.
Arguments sock_inner {S}.
Arguments control {S}.
Arguments read_buffer {S}.
Arguments read_position {S}.
Arguments read_length {S}.
Arguments last_read_timeout {S}.
Arguments last_write_timeout {S}.
Arguments ticks {S}.

Definition with_control {S} (sock : S) (c : SocketControl) : ServerSock S :=
  MkSock sock c (Some (repeat x00 READ_BUFFER_SIZE)) 0 0 None None 0.

(** [wrap] is for a socket that buffers on its own. *)
Definition wrap_sock {S} (sock : S) (c : SocketControl) : ServerSock S :=
  MkSock sock c None 0 0 None None 0.

Definition normalize_timeout (error : io_error) (timeout_active : bool) : io_error :=
  if bool_decide (kind error = WouldBlock) && timeout_active
  then IoError TimedOut (payload error) else error.

Section Sock.
Context {S : Type} `{!Read S} `{!Write S} `{!ServerSockTrait S}.
Context (clock : nat -> Z).

Notation scomp := (comp (ServerSock S) io_error).

(** A call on the inner socket. *)
Definition on_inner {A} (m : comp S io_error A) : scomp A := fun s =>
  let '(r, i) := m (sock_inner s) in
  (r, MkSock i (control s) (read_buffer s) (read_position s) (read_length s)
        (last_read_timeout s) (last_write_timeout s) (ticks s)).

(** [control.read_limit()] or [write_limit()]: one look at the clock. *)
Definition tick_limit (idle : ActiveTimeouts -> option Z) : scomp (option Z) := fun s =>
  (limit (timeouts (control s)) (clock (ticks s)) (idle (timeouts (control s))),
   MkSock (sock_inner s) (control s) (read_buffer s) (read_position s) (read_length s)
     (last_read_timeout s) (last_write_timeout s) (Datatypes.S (ticks s))).

Definition update_read_timeout : scomp unit :=
  do? timeout := tick_limit a_read in
  do? s := sget in
  if negb (bool_decide (last_read_timeout s = Some timeout)) then
    do! on_inner (set_socket_read_timeout timeout) in
    fun s => (Ok tt, MkSock (sock_inner s) (control s) (read_buffer s) (read_position s)
                       (read_length s) (Some timeout) (last_write_timeout s) (ticks s))
  else sret tt.

Definition update_write_timeout : scomp unit :=
  do? timeout := tick_limit a_write in
  do? s := sget in
  if negb (bool_decide (last_write_timeout s = Some timeout)) then
    do! on_inner (set_socket_write_timeout timeout) in
    fun s => (Ok tt, MkSock (sock_inner s) (control s) (read_buffer s) (read_position s)
                       (read_length s) (last_read_timeout s) (Some timeout) (ticks s))
  else sret tt.

(** [map_err(|e| normalize_timeout(e, active))]. *)
Definition normalized {A} (active : SocketControl -> bool) (m : scomp A) : scomp A := fun s =>
  let '(r, s') := m s in
  (res_map_err (fun e => normalize_timeout e (active (control s'))) r, s').

(** Refill the buffer: what was read overwrites its front. *)
Definition fill (buf : bytes) : scomp unit :=
  do! update_read_timeout in
  do? l := normalized read_timeout_active (on_inner (read (length buf))) in
  fun s => (Ok tt, MkSock (sock_inner s) (control s) (Some (l ++ drop (length l) buf)) 0
                     (length l) (last_read_timeout s) (last_write_timeout s) (ticks s)).

Definition sock_read (n : nat) : scomp bytes :=
  if (n =? 0)%nat then sret []
  else
    do? s := sget in
    match read_buffer s with
    | None => on_inner (read n)
    | Some buf =>
        do! (if (read_position s =? read_length s)%nat then fill buf else sret tt) in
        do? s := sget in
        let buf := default [] (read_buffer s) in
        do! slift (rassert ((read_position s <=? read_length s)%nat &&
                            (read_length s <=? length buf)%nat)) in
        let available := slice (read_position s) (read_length s) buf in
        let count := Nat.min (length available) n in
        do! sput (MkSock (sock_inner s) (control s) (read_buffer s) (read_position s + count)
                    (read_length s) (last_read_timeout s) (last_write_timeout s) (ticks s)) in
        sret (take count available)
    end.

(** The body that [write], [write_vectored] and [flush] share. *)
Definition sock_write {A} (op : comp S io_error A) : scomp A :=
  do? s := sget in
  match read_buffer s with
  | None => on_inner op
  | Some _ =>
      do! update_write_timeout in
      normalized write_timeout_active (on_inner op)
  end.

(** The methods of [io::Write]; [flush_inner] is that of the inner socket. *)
Definition ServerSock_write (buf : bytes) : scomp nat := sock_write (write buf).
Definition ServerSock_write_vectored (bufs : list bytes) : scomp nat := sock_write (write_vectored bufs).
Definition ServerSock_flush (flush_inner : comp S io_error unit) : scomp unit := sock_write flush_inner.

(** [ServerSock::start_operation] and [set_connection_deadline] at an instant. *)
Definition with_timeouts {E} (m : comp SocketControl E unit) : comp (ServerSock S) E unit := fun s =>
  let '(r, c) := m (control s) in
  (r, MkSock (sock_inner s) c (read_buffer s) (read_position s) (read_length s)
        (last_read_timeout s) (last_write_timeout s) (ticks s)).

Definition sock_start_operation {E} (fits : Z -> bool) (now : Z) (t : Timeouts) : comp (ServerSock S) E unit :=
  with_timeouts (start_operation fits now t).

Definition sock_set_connection_deadline {E} (t : Timeouts) (deadline : option Z) : comp (ServerSock S) E unit :=
  with_timeouts (set_connection_deadline t deadline).

(** A [ServerSock] as a socket passes the timeouts on. *)
Definition sock_set_read_timeout (timeout : option Z) : scomp unit :=
  on_inner (set_socket_read_timeout timeout).
Definition sock_set_write_timeout (timeout : option Z) : scomp unit :=
  on_inner (set_socket_write_timeout timeout).

#[export] Instance ServerSockTrait_ServerSock : ServerSockTrait (ServerSock S) := {|
  set_socket_read_timeout := sock_set_read_timeout;
  set_socket_write_timeout := sock_set_write_timeout
|}.

(** [from_tcp] and [from_unix]; [try_clone] is the operating system's answer. *)
Definition from_tcp (try_clone : res io_error unit) (sock : S) (t : Timeouts) (deadline : option Z)
    : res io_error (ServerSock S) :=
  let? _ := try_clone in Ok (with_control sock (control_new Tcp (for_connection t deadline))).

Definition from_unix (try_clone : res io_error unit) (sock : S) (t : Timeouts) (deadline : option Z)
    : res io_error (ServerSock S) :=
  let? _ := try_clone in Ok (with_control sock (control_new Unix (for_connection t deadline))).

End Sock.

(** ** The contract of the inner socket *)

(** Setting a timeout moves no data; on a reliable socket it succeeds, and it
    never fails with [Interrupted]. *)
Class SockLaws (S : Type) `{ReadLaws S} `{WriteLaws S} `{!ServerSockTrait S} := {
  set_read_timeout_law t s r s' :
    set_socket_read_timeout t s = (r, s') ->
    pending s' = pending s /\ (patience s' <= patience s)%nat /\
    (reliable s -> r = Ok tt /\ reliable s') /\
    match r with Ok _ => True | Err e => is_interrupted e = false | _ => False end;
  set_write_timeout_law t s r s' :
    set_socket_write_timeout t s = (r, s') ->
    written s' = written s /\ (wpatience s' <= wpatience s)%nat /\
    (wreliable s -> r = Ok tt /\ wreliable s') /\
    match r with Ok _ => True | Err e => is_interrupted e = false | _ => False end
}.

(** Setting a timeout for one direction does not concern the other. *)
Class SockDuplexLaws (S : Type) `{SockLaws S} `{!DuplexLaws S} := {
  set_read_timeout_keeps t (s : S) :
    let s' := (set_socket_read_timeout t s).2 in
    written s' = written s /\ wpatience s' = wpatience s /\ (wreliable s -> wreliable s');
  set_write_timeout_keeps t (s : S) :
    let s' := (set_socket_write_timeout t s).2 in
    pending s' = pending s /\ patience s' = patience s /\ (reliable s -> reliable s')
}.

Lemma READ_BUFFER_SIZE_pos : (0 < READ_BUFFER_SIZE)%nat.
Proof. unfold READ_BUFFER_SIZE. lia. Qed.

#[local] Opaque READ_BUFFER_SIZE.

(** The buffer has its size and the positions are in range. *)
Definition wf_sock {S} (s : ServerSock S) : Prop :=
  match read_buffer s with
  | None => True
  | Some buf => length buf = READ_BUFFER_SIZE /\
      (read_position s <= read_length s <= length buf)%nat
  end.

(** An idle timeout without a deadline, within the supported range. *)
Definition no_deadline (idle : ActiveTimeouts -> option Z) (c : SocketControl) : Prop :=
  deadline (timeouts c) = None /\ forall i, idle (timeouts c) = Some i -> i <= MAX_TIMEOUT.

(** Every look at the clock grants a limit: the idle timeout is in range and the
    deadline, if there is one, is never reached. *)
Definition granted (clock : nat -> Z) (idle : ActiveTimeouts -> option Z) (c : SocketControl) : Prop :=
  forall k, exists r, limit (timeouts c) (clock k) (idle (timeouts c)) = Ok r.

Lemma limit_no_deadline idle c now :
  no_deadline idle c -> limit (timeouts c) now (idle (timeouts c)) = Ok (idle (timeouts c)).
Proof.
  intros [Hd Hi]. unfold limit. rewrite Hd. cbn [res_bind].
  destruct (idle (timeouts c)) as [i|]; [|done]. specialize (Hi i eq_refl).
  by rewrite (proj2 (Z.ltb_ge _ _)).
Qed.

Lemma no_deadline_granted clock idle c : no_deadline idle c -> granted clock idle c.
Proof. intros Hc k. eexists. by apply limit_no_deadline. Qed.

(** A new deadline grants limits for as long as it lies ahead. *)
Lemma deadline_granted clock idle c d :
  deadline (timeouts c) = Some d -> (forall k, clock k < d <= clock k + MAX_TIMEOUT) -> granted clock idle c.
Proof.
  intros Hd Hclock k. specialize (Hclock k). unfold limit. rewrite Hd.
  rewrite (proj2 (Z.leb_le _ _)), (proj2 (Z.eqb_neq _ _)) by lia. cbn [res_bind].
  destruct (idle (timeouts c)) as [i|]; rewrite (proj2 (Z.ltb_ge _ _)) by lia; eauto.
Qed.

Lemma limit_returns self now idle : returns (limit self now idle).
Proof.
  unfold limit. apply returns_bind.
  - destruct (deadline self) as [d|]; [|done].
    destruct (now <=? d); [by destruct (d - now =? 0)|done].
  - intros rem _. cbv zeta. by destruct (match _ with Some _ => _ | None => _ end).
Qed.

Lemma limit_not_interrupted self now idle e :
  limit self now idle = Err e -> is_interrupted e = false.
Proof.
  unfold limit. intros [H|(rem & _ & H)]%res_bind_err.
  - destruct (deadline self) as [d|]; [|done]. destruct (now <=? d); [destruct (d - now =? 0)|];
      by simplify_eq.
  - cbv zeta in H. by destruct (match _ with Some l => MAX_TIMEOUT <? l | None => false end);
      simplify_eq.
Qed.

Lemma normalize_interrupted e b : is_interrupted (normalize_timeout e b) = is_interrupted e.
Proof.
  unfold normalize_timeout, is_interrupted. destruct b; [|by rewrite andb_false_r].
  rewrite andb_true_r. destruct (decide (kind e = WouldBlock)) as [Hk|Hk].
  - rewrite (bool_decide_true (kind e = WouldBlock)) by done. simpl. by rewrite Hk.
  - by rewrite (bool_decide_false (kind e = WouldBlock)) by done.
Qed.

Section SockLemmas.
Context {S : Type} `{SockLaws S} (clock : nat -> Z).

Lemma never_refused idle (s : ServerSock S) e :
  granted clock idle (control s) ->
  limit (timeouts (control s)) (clock (ticks s)) (idle (timeouts (control s))) <> Err e.
Proof. intros Hg. by destruct (Hg (ticks s)) as [r ->]. Qed.

(** Bytes that were read ahead come before those of the inner socket. *)
Definition sock_pending (s : ServerSock S) : bytes :=
  match read_buffer s with
  | None => pending (sock_inner s)
  | Some buf => slice (read_position s) (read_length s) buf ++ pending (sock_inner s)
  end.

Definition sock_reliable (s : ServerSock S) : Prop :=
  reliable (sock_inner s) /\
  match read_buffer s with None => True | Some _ => granted clock a_read (control s) end.

(** Two states that agree on everything but the inner socket, the clock and
    the remembered timeouts. *)
Definition same_buffer (s s' : ServerSock S) : Prop :=
  control s' = control s /\ read_buffer s' = read_buffer s /\
  read_position s' = read_position s /\ read_length s' = read_length s.

Lemma update_read_timeout_spec s r s' :
  update_read_timeout clock s = (r, s') ->
  same_buffer s s' /\ pending (sock_inner s') = pending (sock_inner s) /\
  (patience (sock_inner s') <= patience (sock_inner s))%nat /\
  (reliable (sock_inner s) -> granted clock a_read (control s) ->
   r = Ok tt /\ reliable (sock_inner s')) /\
  match r with Ok _ => True | Err e => is_interrupted e = false | _ => False end.
Proof.
  unfold update_read_timeout, sbind, tick_limit, sget, sret.
  pose proof (limit_returns (timeouts (control s)) (clock (ticks s)) (a_read (timeouts (control s)))) as Hret.
  destruct (limit _ _ _) as [t|e| |] eqn:El; try done; cbn [sock_inner last_read_timeout].
  2: { intros [= <- <-]. repeat split; try done; try lia.
       - by destruct (never_refused a_read s e).
       - by eapply limit_not_interrupted. }
  destruct (negb _).
  2: { intros [= <- <-]. by repeat split. }
  unfold on_inner. cbn [sock_inner].
  destruct (set_socket_read_timeout t (sock_inner s)) as [r1 i1] eqn:Es.
  apply set_read_timeout_law in Es as (Hp & Hpat & Hrel & Hr).
  destruct r1; try done; intros [= <- <-]; repeat split; simpl; try done.
  all: by destruct (Hrel ltac:(done)).
Qed.

(** An inner read with its errors normalized. *)
Lemma inner_read_spec n s r s' :
  normalized read_timeout_active (on_inner (read n)) s = (r, s') ->
  same_buffer s s' /\
  match r with
  | Ok l => pending (sock_inner s) = l ++ pending (sock_inner s') /\ (length l <= n)%nat /\
      (patience (sock_inner s') <= patience (sock_inner s))%nat /\
      (l = [] -> n = O \/ pending (sock_inner s) = []) /\
      (reliable (sock_inner s) -> reliable (sock_inner s'))
  | Err e => pending (sock_inner s') = pending (sock_inner s) /\
      (patience (sock_inner s') <= patience (sock_inner s))%nat /\
      (is_interrupted e = true -> (patience (sock_inner s') < patience (sock_inner s))%nat) /\
      (reliable (sock_inner s) -> is_interrupted e = true /\ reliable (sock_inner s'))
  | _ => False
  end.
Proof.
  unfold normalized, on_inner. pose proof (read_returns n (sock_inner s)) as Hret.
  destruct (read n (sock_inner s)) as [r1 i1] eqn:E.
  destruct r1 as [l|e| |]; try done; intros [= <- <-]; (split; [done|]); simpl.
  - by apply read_ok in E.
  - rewrite normalize_interrupted. by apply read_err in E.
Qed.

Lemma fill_spec buf s r s' :
  read_buffer s = Some buf -> length buf = READ_BUFFER_SIZE ->
  fill clock buf s = (r, s') ->
  control s' = control s /\
  (patience (sock_inner s') <= patience (sock_inner s))%nat /\
  match r with
  | Ok _ => exists l buf', read_buffer s' = Some buf' /\ length buf' = READ_BUFFER_SIZE /\
      read_position s' = O /\ (read_length s' <= length buf')%nat /\
      slice 0 (read_length s') buf' = l /\ read_length s' = length l /\
      pending (sock_inner s) = l ++ pending (sock_inner s') /\
      (l = [] -> pending (sock_inner s) = []) /\
      (reliable (sock_inner s) -> granted clock a_read (control s) -> reliable (sock_inner s'))
  | Err e => same_buffer s s' /\ pending (sock_inner s') = pending (sock_inner s) /\
      (is_interrupted e = true -> (patience (sock_inner s') < patience (sock_inner s))%nat) /\
      (reliable (sock_inner s) -> granted clock a_read (control s) ->
       is_interrupted e = true /\ reliable (sock_inner s'))
  | _ => False
  end.
Proof.
  intros Hb Hl. unfold fill, sbind.
  destruct (update_read_timeout clock s) as [r1 s1] eqn:E1.
  apply update_read_timeout_spec in E1 as ((Hc & Hb1 & Hp1 & Hl1) & Hpend & Hpat & Hrel & Hr).
  destruct r1 as [[]|e| |]; try done.
  2: { intros [= <- <-]. repeat split; try done; try congruence.
       all: destruct Hrel as [? _]; done. }
  destruct (normalized read_timeout_active (on_inner (read (length buf))) s1) as [r2 s2] eqn:E2.
  apply inner_read_spec in E2 as ((Hc2 & Hb2 & Hp2 & Hl2) & Hspec).
  destruct r2 as [l|e| |]; try done.
  - destruct Hspec as (Hp & Hlen & Hpat2 & Hnil & Hrel2). intros [= <- <-]. simpl.
    split; [congruence|]. split; [lia|]. exists l, (l ++ drop (length l) buf).
    split; [done|]. split; [rewrite length_app, length_drop; lia|]. split; [done|].
    split; [rewrite length_app; lia|]. split; [by rewrite slice_0, take_app_length|].
    split; [done|]. split; [congruence|]. split.
    + intros Hz. destruct (Hnil Hz) as [Hz'|?]; [|congruence]. rewrite Hl in Hz'. pose proof READ_BUFFER_SIZE_pos. lia.
    + intros Hr1 Hd. destruct (Hrel Hr1 Hd) as [_ ?]. auto.
  - destruct Hspec as (Hp & Hpat2 & Hi & Hrel2). intros [= <- <-].
    split; [congruence|]. split; [lia|]. split; [repeat split; congruence|].
    split; [congruence|]. split; [intros; specialize (Hi ltac:(done)); lia|].
    intros Hr1 Hd. destruct (Hrel Hr1 Hd) as [_ ?]. auto.
Qed.

(** What a read of at most [n] bytes does to a socket. *)
Definition read_outcome (n : nat) (s : ServerSock S) (out : res io_error bytes * ServerSock S)
    : Prop :=
  let s' := out.2 in
  wf_sock s' /\ (patience (sock_inner s') <= patience (sock_inner s))%nat /\
  match out.1 with
  | Ok l => sock_pending s = l ++ sock_pending s' /\ (length l <= n)%nat /\
      (l = [] -> n = O \/ sock_pending s = []) /\ (sock_reliable s -> sock_reliable s')
  | Err e => sock_pending s' = sock_pending s /\
      (is_interrupted e = true -> (patience (sock_inner s') < patience (sock_inner s))%nat) /\
      (sock_reliable s -> is_interrupted e = true /\ sock_reliable s')
  | _ => False
  end.

(** Handing out bytes of a buffer that holds some, or none at the end. *)
Definition serve (n : nat) : comp (ServerSock S) io_error bytes :=
  do? s := sget in
  let buf := default [] (read_buffer s) in
  do! slift (rassert ((read_position s <=? read_length s)%nat &&
                      (read_length s <=? length buf)%nat)) in
  let available := slice (read_position s) (read_length s) buf in
  let count := Nat.min (length available) n in
  do! sput (MkSock (sock_inner s) (control s) (read_buffer s) (read_position s + count)
              (read_length s) (last_read_timeout s) (last_write_timeout s) (ticks s)) in
  sret (take count available).

Lemma slice_split_at {A} i j k (l : list A) :
  (i + k <= j)%nat -> slice i j l = take k (slice i j l) ++ slice (i + k) j l.
Proof.
  intros Hk. unfold slice. rewrite <- drop_drop.
  rewrite <- (take_drop k (take (j - i) (drop i l))) at 1. f_equal.
  rewrite skipn_firstn_comm. f_equal. lia.
Qed.

Lemma serve_spec n s buf :
  wf_sock s -> read_buffer s = Some buf -> (0 < n)%nat ->
  (read_position s < read_length s)%nat \/ pending (sock_inner s) = [] ->
  read_outcome n s (serve n s).
Proof.
  intros Hwf Hb Hn Hav. unfold wf_sock in Hwf. rewrite Hb in Hwf. destruct Hwf as [Hlen Hpos].
  unfold serve, sbind, sget, slift, sput, sret. rewrite Hb. cbn [from_option id].
  rewrite (proj2 (Nat.leb_le (read_position s) (read_length s))),
    (proj2 (Nat.leb_le (read_length s) (length buf))) by lia. cbn [andb rassert].
  set (av := slice (read_position s) (read_length s) buf).
  assert (length av = (read_length s - read_position s)%nat) as Hla.
  { unfold av. rewrite length_slice by lia. lia. }
  unfold read_outcome, wf_sock, sock_pending, sock_reliable. cbn. rewrite Hb.
  split; [split; [done|lia]|]. split; [lia|]. rewrite length_take.
  split.
  - rewrite app_assoc. f_equal. apply slice_split_at. lia.
  - split; [lia|]. split; [|done]. fold av. intros Hz%(f_equal length). rewrite length_take in Hz.
    simpl in Hz. right. destruct Hav as [?|Hp]; [lia|].
    assert (av = []) as -> by (apply nil_length_inv; lia). done.
Qed.

Lemma sock_read_spec n s : wf_sock s -> read_outcome n s (sock_read clock n s).
Proof.
  intros Hwf. unfold sock_read. destruct (Nat.eqb_spec n 0) as [->|Hn].
  { unfold read_outcome, sret. simpl. eauto 10. }
  unfold sbind at 1, sget at 1. destruct (read_buffer s) as [buf|] eqn:Hb.
  2: { unfold on_inner. pose proof (read_returns n (sock_inner s)) as Hret.
       destruct (read n (sock_inner s)) as [r i] eqn:E.
       unfold read_outcome, wf_sock, sock_pending, sock_reliable. simpl. rewrite Hb.
       destruct r as [l|e| |]; try done.
       - apply read_ok in E as (? & ? & ? & ? & ?). naive_solver.
       - apply read_err in E as (? & ? & ? & ?). naive_solver. }
  fold (serve n). destruct (Nat.eqb_spec (read_position s) (read_length s)) as [Heq|Hne].
  2: { unfold sbind at 1, sret at 1. eapply serve_spec; [done..|lia|].
       unfold wf_sock in Hwf. rewrite Hb in Hwf. lia. }
  pose proof Hwf as Hwf0. unfold wf_sock in Hwf. rewrite Hb in Hwf. destruct Hwf as [Hlen Hpos].
  assert (sock_pending s = pending (sock_inner s)) as Hpend.
  { unfold sock_pending. by rewrite Hb, Heq, slice_empty. }
  unfold sbind at 1. destruct (fill clock buf s) as [r s1] eqn:Ef.
  apply fill_spec in Ef as (Hc & Hpat & Hr); [|done..].
  destruct r as [[]|e| |]; try done.
  - destruct Hr as (l & buf' & Hb' & Hlen' & Hp' & Hl' & Hsl & Hll & Hpd & Hnil & Hrel).
    destruct (serve_spec n s1 buf') as (Hw1 & Hpat1 & Hout); [|done|lia| |].
    { unfold wf_sock. rewrite Hb'. split; [done|]. lia. }
    { rewrite Hp', Hll. destruct l; [|simpl; lia]. right.
      rewrite Hnil in Hpd by done. by simpl in Hpd. }
    assert (sock_pending s1 = sock_pending s) as Hps.
    { unfold sock_pending at 1. by rewrite Hb', Hp', Hsl, Hpend, Hpd. }
    assert (sock_reliable s -> sock_reliable s1) as Hrs.
    { unfold sock_reliable. rewrite Hb, Hb', Hc. intros [? ?]. auto. }
    split; [done|]. split; [lia|].
    destruct (serve n s1) as [[l2|e| |] s2]; simpl in *; try done.
    + rewrite Hps in Hout. naive_solver.
    + rewrite Hps in Hout. destruct Hout as (? & Hi & Hr2). split; [done|].
      split; [intros He; specialize (Hi He); lia|auto].
  - destruct Hr as ((_ & Hb1 & Hp1 & Hl1) & Hpd & Hi & Hrel).
    unfold read_outcome. simpl. split; [unfold wf_sock; rewrite Hb1, Hb, Hp1, Hl1; lia|].
    split; [done|]. split; [unfold sock_pending; by rewrite Hb1, Hb, Hp1, Hl1, Hpd|].
    split; [done|]. unfold sock_reliable. rewrite Hb1, Hb, Hc. intros [? ?].
    destruct (Hrel ltac:(done) ltac:(done)). auto.
Qed.

(** *** Writing *)

Definition sock_wreliable (s : ServerSock S) : Prop :=
  wreliable (sock_inner s) /\
  match read_buffer s with None => True | Some _ => granted clock a_write (control s) end.

Lemma update_write_timeout_spec s r s' :
  update_write_timeout clock s = (r, s') ->
  same_buffer s s' /\ written (sock_inner s') = written (sock_inner s) /\
  (wpatience (sock_inner s') <= wpatience (sock_inner s))%nat /\
  (wreliable (sock_inner s) -> granted clock a_write (control s) ->
   r = Ok tt /\ wreliable (sock_inner s')) /\
  match r with Ok _ => True | Err e => is_interrupted e = false | _ => False end.
Proof.
  unfold update_write_timeout, sbind, tick_limit, sget, sret.
  pose proof (limit_returns (timeouts (control s)) (clock (ticks s)) (a_write (timeouts (control s)))) as Hret.
  destruct (limit _ _ _) as [t|e| |] eqn:El; try done; cbn [sock_inner last_write_timeout].
  2: { intros [= <- <-]. repeat split; try done; try lia.
       - by destruct (never_refused a_write s e).
       - by eapply limit_not_interrupted. }
  destruct (negb _).
  2: { intros [= <- <-]. by repeat split. }
  unfold on_inner. cbn [sock_inner].
  destruct (set_socket_write_timeout t (sock_inner s)) as [r1 i1] eqn:Es.
  apply set_write_timeout_law in Es as (Hp & Hpat & Hrel & Hr).
  destruct r1; try done; intros [= <- <-]; repeat split; simpl; try done.
  all: by destruct (Hrel ltac:(done)).
Qed.

(** What an inner write of the bytes [data] does. *)
Definition writes (data : bytes) (op : comp S io_error nat) : Prop :=
  (forall i n i', op i = (Ok n, i') ->
     (n <= length data)%nat /\ written i' = written i ++ take n data /\
     (wpatience i' <= wpatience i)%nat /\
     (wreliable i -> wreliable i' /\ (data <> [] -> n <> O))) /\
  (forall i e i', op i = (Err e, i') ->
     written i' = written i /\ (wpatience i' <= wpatience i)%nat /\
     (is_interrupted e = true -> (wpatience i' < wpatience i)%nat) /\
     (wreliable i -> is_interrupted e = true /\ wreliable i')) /\
  (forall i, returns (op i).1).

Lemma writes_write data : writes data (write data).
Proof. split; [apply write_ok|]. split; [apply write_err|apply write_returns]. Qed.

Lemma writes_vectored bufs : writes (concat bufs) (write_vectored bufs).
Proof.
  split; [apply write_vectored_ok|]. split; [apply write_vectored_err|apply write_vectored_returns].
Qed.

Definition write_outcome (data : bytes) (s : ServerSock S) (out : res io_error nat * ServerSock S)
    : Prop :=
  let s' := out.2 in
  same_buffer s s' /\ (wpatience (sock_inner s') <= wpatience (sock_inner s))%nat /\
  match out.1 with
  | Ok n => (n <= length data)%nat /\
      written (sock_inner s') = written (sock_inner s) ++ take n data /\
      (sock_wreliable s -> sock_wreliable s' /\ (data <> [] -> n <> O))
  | Err e => written (sock_inner s') = written (sock_inner s) /\
      (is_interrupted e = true -> (wpatience (sock_inner s') < wpatience (sock_inner s))%nat) /\
      (sock_wreliable s -> is_interrupted e = true /\ sock_wreliable s')
  | _ => False
  end.

Lemma sock_write_spec data op s :
  writes data op -> write_outcome data s (sock_write clock op s).
Proof.
  intros (Hok & Herr & Hret). unfold sock_write, sbind at 1, sget.
  unfold write_outcome, sock_wreliable. destruct (read_buffer s) as [buf|] eqn:Hb.
  2: { unfold on_inner. specialize (Hret (sock_inner s)).
       destruct (op (sock_inner s)) as [[n|e| |] i] eqn:E; simpl in *; try done.
       - apply Hok in E as (? & ? & ? & Hr). rewrite Hb. do 4 (split; [done|]).
         intros [Hw _]. destruct (Hr Hw). auto.
       - apply Herr in E as (? & ? & ? & Hr). rewrite Hb. do 4 (split; [done|]).
         intros [Hw _]. destruct (Hr Hw). auto. }
  unfold sbind. destruct (update_write_timeout clock s) as [r1 s1] eqn:E1.
  apply update_write_timeout_spec in E1 as (Hsame & Hw & Hpat & Hrel & Hr).
  pose proof Hsame as (Hc & Hb1 & _ & _).
  destruct r1 as [[]|e| |]; try done; simpl.
  2: { split; [done|]. split; [done|]. split; [done|]. split; [congruence|].
       intros [? ?]. by destruct (Hrel ltac:(done) ltac:(done)). }
  unfold normalized, on_inner. specialize (Hret (sock_inner s1)).
  destruct (op (sock_inner s1)) as [[n|e| |] i] eqn:E; simpl in *; try done.
  - apply Hok in E as (Hn & Hwr & Hp & Hrl). split; [done|]. split; [lia|].
    split; [done|]. split; [congruence|]. rewrite Hb1, Hb, Hc. intros [Hr1 Hd].
    destruct (Hrel Hr1 Hd) as [_ Hr2]. destruct (Hrl Hr2). auto.
  - apply Herr in E as (Hwr & Hp & Hi & Hrl). split; [done|]. split; [lia|].
    rewrite normalize_interrupted. split; [congruence|].
    split; [intros He; specialize (Hi He); lia|]. rewrite Hb1, Hb, Hc. intros [Hr1 Hd].
    destruct (Hrel Hr1 Hd) as [_ Hr2]. destruct (Hrl Hr2). auto.
Qed.

Lemma wf_same_buffer (s s' : ServerSock S) : same_buffer s s' -> wf_sock s -> wf_sock s'.
Proof. intros (_ & Hb & Hp & Hl). unfold wf_sock. by rewrite Hb, Hp, Hl. Qed.

End SockLemmas.

(** *** The other direction *)

Section Duplex.
Context {S : Type} `{SockDuplexLaws S} (clock : nat -> Z).

(** Reading from a socket that was [s0] keeps what is to be written. *)
Definition write_side (s0 s : ServerSock S) : Prop :=
  written (sock_inner s) = written (sock_inner s0) /\ wpatience (sock_inner s) = wpatience (sock_inner s0) /\
  (wreliable (sock_inner s0) -> wreliable (sock_inner s)) /\
  control s = control s0 /\ (read_buffer s = None <-> read_buffer s0 = None).

(** Writing to it keeps what is to be read. *)
Definition read_side (s0 s : ServerSock S) : Prop :=
  pending (sock_inner s) = pending (sock_inner s0) /\ patience (sock_inner s) = patience (sock_inner s0) /\
  (reliable (sock_inner s0) -> reliable (sock_inner s)) /\
  control s = control s0 /\ read_buffer s = read_buffer s0 /\
  read_position s = read_position s0 /\ read_length s = read_length s0.

Lemma inner_write_side {A} (m : comp S io_error A) s0 :
  (forall i, let i' := (m i).2 in
     written i' = written i /\ wpatience i' = wpatience i /\ (wreliable i -> wreliable i')) ->
  preserves (write_side s0) (on_inner m).
Proof.
  intros Hm s (? & ? & ? & ? & ?). unfold on_inner. specialize (Hm (sock_inner s)).
  destruct (m (sock_inner s)) as [r i]. destruct Hm as (? & ? & ?). unfold write_side. cbn in *.
  split_and!; try congruence; tauto.
Qed.

Lemma inner_read_side {A} (m : comp S io_error A) s0 :
  (forall i, let i' := (m i).2 in
     pending i' = pending i /\ patience i' = patience i /\ (reliable i -> reliable i')) ->
  preserves (read_side s0) (on_inner m).
Proof.
  intros Hm s (? & ? & ? & ? & ?). unfold on_inner. specialize (Hm (sock_inner s)).
  destruct (m (sock_inner s)) as [r i]. destruct Hm as (? & ? & ?). unfold read_side. cbn in *.
  split_and!; try congruence; tauto.
Qed.

Lemma preserves_normalized {A} J active (m : comp (ServerSock S) io_error A) :
  preserves J m -> preserves J (normalized active m).
Proof. intros Hm s Hs. specialize (Hm s Hs). unfold normalized. by destruct (m s). Qed.

#[local] Hint Resolve preserves_normalized : rust.
#[local] Hint Extern 1 (preserves _ (on_inner (set_socket_read_timeout ?t))) =>
  exact (inner_write_side _ _ (set_read_timeout_keeps t)) : rust.
#[local] Hint Extern 1 (preserves _ (on_inner (set_socket_write_timeout ?t))) =>
  exact (inner_read_side _ _ (set_write_timeout_keeps t)) : rust.
#[local] Hint Extern 1 (preserves _ (on_inner (read ?n))) => exact (inner_write_side _ _ (read_keeps n)) : rust.

Lemma tick_limit_write_side idle s0 : preserves (write_side s0) (tick_limit clock idle).
Proof. by intros s Hs. Qed.

Lemma tick_limit_read_side idle s0 : preserves (read_side s0) (tick_limit clock idle).
Proof. by intros s Hs. Qed.

#[local] Hint Resolve tick_limit_write_side tick_limit_read_side : rust.

Lemma update_read_write_side s0 : preserves (write_side s0) (update_read_timeout clock).
Proof.
  unfold update_read_timeout. repeat (apply preserves_bind; [auto with rust|intros ?]).
  apply preserves_if; [|auto with rust]. apply preserves_bind; [auto with rust|intros ?].
  intros s Hs. exact Hs.
Qed.

Lemma update_write_read_side s0 : preserves (read_side s0) (update_write_timeout clock).
Proof.
  unfold update_write_timeout. repeat (apply preserves_bind; [auto with rust|intros ?]).
  apply preserves_if; [|auto with rust]. apply preserves_bind; [auto with rust|intros ?].
  intros s Hs. exact Hs.
Qed.

#[local] Hint Resolve update_read_write_side update_write_read_side : rust.

Lemma fill_write_side buf s0 :
  read_buffer s0 <> None -> preserves (write_side s0) (fill clock buf).
Proof.
  intros Hb. unfold fill. repeat (apply preserves_bind; [auto with rust|intros ?]).
  intros s (? & ? & ? & ? & ?). unfold write_side. cbn. by split_and!.
Qed.

Lemma sock_read_write_side n s0 : preserves (write_side s0) (sock_read clock n).
Proof.
  unfold sock_read. apply preserves_if; [auto with rust|]. intros s Hs. unfold sbind at 1, sget at 1.
  destruct (read_buffer s) as [buf|] eqn:Eb; [|by apply (inner_write_side (read n) s0 (read_keeps n))].
  assert (read_buffer s0 <> None) as Hb.
  { destruct Hs as (_ & _ & _ & _ & Hb). rewrite Eb in Hb. by intros ?%Hb. }
  apply (preserves_bind (write_side s0)); [apply preserves_if; [by apply fill_write_side|auto with rust]| |exact Hs].
  intros _ s1 Hs1. unfold sbind, sget, slift. by destruct (rassert _).
Qed.

Lemma sock_write_read_side op s0 :
  preserves (read_side s0) (on_inner op) -> preserves (read_side s0) (sock_write (A:=nat) clock op).
Proof.
  intros Hop. unfold sock_write. apply preserves_bind; [auto with rust|]. intros s.
  destruct (read_buffer s); [|done]. apply preserves_bind; [auto with rust|intros _].
  by apply preserves_normalized.
Qed.

Lemma write_side_refl s : write_side s s.
Proof. by split_and!. Qed.

Lemma read_side_refl s : read_side s s.
Proof. by split_and!. Qed.

(** What the two sides mean for the stream that the socket is. *)
Lemma write_side_keeps s0 s :
  write_side s0 s ->
  written (sock_inner s) = written (sock_inner s0) /\ wpatience (sock_inner s) = wpatience (sock_inner s0) /\
  (sock_wreliable clock s0 -> sock_wreliable clock s).
Proof.
  intros (Hw & Hp & Hr & Hc & Hb). split; [done|]. split; [done|]. intros [Hr0 Hg]. split; [auto|].
  revert Hb Hg. rewrite Hc. destruct (read_buffer s), (read_buffer s0); try done.
  intros Hb _. discriminate (proj2 Hb eq_refl).
Qed.

Lemma read_side_keeps s0 s :
  read_side s0 s ->
  sock_pending s = sock_pending s0 /\ patience (sock_inner s) = patience (sock_inner s0) /\
  (sock_reliable clock s0 -> sock_reliable clock s).
Proof.
  intros (Hp & Hpa & Hr & Hc & Hb & Hpos & Hl). unfold sock_pending, sock_reliable.
  rewrite Hb, Hpos, Hl, Hp, Hc. naive_solver.
Qed.

End Duplex.

(** ** The contract discharged

    The sockets whose buffer is in order, for a given clock. *)
Definition sock (S : Type) (clock : nat -> Z) : Type := {s : ServerSock S | wf_sock s}.

Section Instances.
Context {S : Type} `{SockLaws S} (clock : nat -> Z).

#[export] Instance Read_sock : Read (sock S clock) := fun n s =>
  let out := sock_read clock n (proj1_sig s) in
  (out.1, exist _ out.2 (proj1 (sock_read_spec clock n (proj1_sig s) (proj2_sig s)))).

Definition write_sock data (op : comp (ServerSock S) io_error nat)
    (Hop : forall s, write_outcome clock data s (op s)) : comp (sock S clock) io_error nat := fun s =>
  let out := op (proj1_sig s) in
  (out.1, exist _ out.2 (wf_same_buffer _ _ (proj1 (Hop (proj1_sig s))) (proj2_sig s))).

Lemma ServerSock_write_spec buf s : write_outcome clock buf s (ServerSock_write clock buf s).
Proof. apply sock_write_spec, writes_write. Qed.

Lemma ServerSock_write_vectored_spec bufs s :
  write_outcome clock (concat bufs) s (ServerSock_write_vectored clock bufs s).
Proof. apply sock_write_spec, writes_vectored. Qed.

#[export] Instance Write_sock : Write (sock S clock) := {|
  write := fun data => write_sock data (ServerSock_write clock data) (ServerSock_write_spec data);
  write_vectored := fun bufs =>
    write_sock (concat bufs) (ServerSock_write_vectored clock bufs) (ServerSock_write_vectored_spec bufs)
|}.

#[export] Program Instance ReadLaws_sock : ReadLaws (sock S clock) := {|
  pending := fun s => sock_pending (proj1_sig s);
  patience := fun s => patience (sock_inner (proj1_sig s));
  reliable := fun s => sock_reliable clock (proj1_sig s)
|}.
Next Obligation.
  intros n [s Hwf] l s'. unfold read, Read_sock. intros [= Hl <-]. simpl.
  pose proof (sock_read_spec clock n s Hwf) as (_ & Hpat & Hout). rewrite Hl in Hout.
  destruct Hout as (? & ? & ? & ?). auto 6.
Qed.
Next Obligation.
  intros n [s Hwf] e s'. unfold read, Read_sock. intros [= He <-]. simpl.
  pose proof (sock_read_spec clock n s Hwf) as (_ & Hpat & Hout). rewrite He in Hout.
  destruct Hout as (? & ? & ?). auto 6.
Qed.
Next Obligation.
  intros n [s Hwf]. unfold read, Read_sock. simpl.
  pose proof (sock_read_spec clock n s Hwf) as (_ & Hpat & Hout).
  by destruct (sock_read clock n s).1.
Qed.

Lemma write_sock_ok data op Hop s n s' :
  write_sock data op Hop s = (Ok n, s') ->
  (n <= length data)%nat /\
  written (sock_inner (proj1_sig s')) = written (sock_inner (proj1_sig s)) ++ take n data /\
  (wpatience (sock_inner (proj1_sig s')) <= wpatience (sock_inner (proj1_sig s)))%nat /\
  (sock_wreliable clock (proj1_sig s) -> sock_wreliable clock (proj1_sig s') /\ (data <> [] -> n <> O)).
Proof.
  destruct s as [s Hwf]. unfold write_sock. intros [= He <-]. simpl.
  pose proof (Hop s) as (_ & Hpat & Hout).
  rewrite He in Hout.
  destruct Hout as (? & ? & ?). auto 6.
Qed.

Lemma write_sock_err data op Hop s e s' :
  write_sock data op Hop s = (Err e, s') ->
  written (sock_inner (proj1_sig s')) = written (sock_inner (proj1_sig s)) /\
  (wpatience (sock_inner (proj1_sig s')) <= wpatience (sock_inner (proj1_sig s)))%nat /\
  (is_interrupted e = true ->
   (wpatience (sock_inner (proj1_sig s')) < wpatience (sock_inner (proj1_sig s)))%nat) /\
  (sock_wreliable clock (proj1_sig s) -> is_interrupted e = true /\ sock_wreliable clock (proj1_sig s')).
Proof.
  destruct s as [s Hwf]. unfold write_sock. intros [= He <-]. simpl.
  pose proof (Hop s) as (_ & Hpat & Hout).
  rewrite He in Hout.
  destruct Hout as (? & ? & ?). auto 6.
Qed.

Lemma write_sock_returns data op Hop s : returns (write_sock data op Hop s).1.
Proof.
  destruct s as [s Hwf]. unfold write_sock. simpl.
  pose proof (Hop s) as (_ & _ & Hout).
  by destruct (op s).1.
Qed.

#[export] Instance WriteLaws_sock : WriteLaws (sock S clock) := {|
  written := fun s => written (sock_inner (proj1_sig s));
  wpatience := fun s => wpatience (sock_inner (proj1_sig s));
  wreliable := fun s => sock_wreliable clock (proj1_sig s);
  write_ok := fun data => write_sock_ok data _ (ServerSock_write_spec data);
  write_err := fun data => write_sock_err data _ (ServerSock_write_spec data);
  write_returns := fun data => write_sock_returns data _ (ServerSock_write_spec data);
  write_vectored_ok := fun bufs => write_sock_ok _ _ (ServerSock_write_vectored_spec bufs);
  write_vectored_err := fun bufs => write_sock_err _ _ (ServerSock_write_vectored_spec bufs);
  write_vectored_returns := fun bufs => write_sock_returns _ _ (ServerSock_write_vectored_spec bufs)
|}.

End Instances.

#[export] Instance DuplexLaws_sock {S : Type} `{SockDuplexLaws S} (clock : nat -> Z) : DuplexLaws (sock S clock).
Proof.
  split.
  - intros n [s Hwf]. exact (write_side_keeps clock _ _ (sock_read_write_side clock n s s (write_side_refl s))).
  - intros data [s Hwf]. apply (read_side_keeps clock). apply sock_write_read_side; [|apply read_side_refl].
    exact (inner_read_side _ _ (write_keeps data)).
  - intros bufs [s Hwf]. apply (read_side_keeps clock). apply sock_write_read_side; [|apply read_side_refl].
    exact (inner_read_side _ _ (write_vectored_keeps bufs)).
Qed.

(** ** Theorems *)

Section Theorems.
Context {S : Type} `{SockLaws S} (clock : nat -> Z).

(** Whole messages come through a buffered socket.  When the bytes that a
    [ServerSock] has read ahead followed by those of the inner socket start with
    a message, [MapiReader::to_limited] over the [ServerSock] returns its payload
    and leaves exactly the rest, whatever the division into reads, the
    interruptions and the earlier reads that filled the buffer; the read buffer
    neither loses, repeats nor reorders a byte. *)
Theorem server_sock_receives sizes fuel lim (s : ServerSock S) (Hwf : wf_sock s) w rest p :
  (forall i, (0 < sizes i)%nat) -> sock_reliable clock s -> sock_pending s = w ++ rest ->
  message w p -> (length p <= lim)%nat ->
  (patience (sock_inner s) + length (sock_pending s) < fuel)%nat ->
  exists s' : sock S clock,
    to_limited fuel sizes [] lim (exist _ s Hwf : sock S clock) = (Ok p, s') /\
    sock_pending (proj1_sig s') = rest.
Proof.
  intros Hsz Hr Hp Hm Hl Hf.
  destruct (to_limited_next sizes Hsz fuel [] lim (exist _ s Hwf : sock S clock) w rest p)
    as (s' & E & Hp' & _); [done..|].
  exists s'. done.
Qed.

End Theorems.

(** A granted socket timeout respects every limit: it is no longer than the
    idle timeout, the operation ends by its deadline, and it never exceeds the
    largest timeout that every socket interface supports; an expired deadline is
    refused. *)
Theorem limit_sound self now idle :
  returns (limit self now idle) /\
  (forall d, deadline self = Some d -> d <= now -> limit self now idle = Err deadline_expired) /\
  forall r, limit self now idle = Ok r ->
    (forall i, idle = Some i -> exists l, r = Some l /\ l <= i) /\
    (forall d, deadline self = Some d -> exists l, r = Some l /\ now + l <= d) /\
    (forall l, r = Some l -> l <= MAX_TIMEOUT).
Proof.
  split; [apply limit_returns|]. split; [|intros r; apply limit_ok].
  intros d Hd Hle. unfold limit. rewrite Hd. destruct (Z.leb_spec now d); [|done].
  by rewrite (proj2 (Z.eqb_eq _ _)) by lia.
Qed.

(** *** Witnesses *)

#[export] Instance ServerSockTrait_Wire : ServerSockTrait Wire := {|
  set_socket_read_timeout := fun _ => sret tt;
  set_socket_write_timeout := fun _ => sret tt
|}.

#[export] Instance SockLaws_Wire : SockLaws Wire.
Proof. split; intros t s r s' [= <- <-]; auto. Qed.

Definition sample_sock : ServerSock Wire :=
  with_control sample_wire (control_new Tcp (for_connection (MkTimeouts None None None) None)).

Lemma sample_sock_wf : wf_sock sample_sock.
Proof. split; [apply repeat_length|]. split; apply Nat.le_0_l. Qed.

Lemma server_sock_receives_witness :
  exists s' : sock Wire (fun _ => 0),
    to_limited 60 thirty_two [] 7 (exist _ sample_sock sample_sock_wf : sock Wire (fun _ => 0)) =
      (Ok (bs "monetdb"), s') /\
    sock_pending (proj1_sig s') = hdr 4 true ++ bs "yeah".
Proof.
  assert (sock_pending sample_sock = inbox sample_wire) as Hp.
  { unfold sock_pending, sample_sock. cbn [with_control read_buffer read_position read_length].
    rewrite slice_empty. reflexivity. }
  apply (server_sock_receives (fun _ => 0) thirty_two 60 7 sample_sock sample_sock_wf
    (hdr 5 false ++ bs "monet" ++ hdr 2 true ++ bs "db")).
  - intros i. apply Nat.lt_0_succ.
  - split; [apply sample_reliable|]. apply no_deadline_granted. split; [reflexivity|]. intros i. discriminate.
  - rewrite Hp. reflexivity.
  - apply sample_message.
  - simpl; lia.
  - rewrite Hp. vm_compute; lia.
Defined.
