(* ===== verification/Login.v ===== *)
(** * Logging in (src/framing/connecting.rs, src/util/hash_algorithms.rs)

    The server sends a challenge; the client answers with its credentials,
    hashed, and as many session settings as the server takes in the handshake,
    and queues the rest as delayed commands; the server accepts, rejects or
    redirects.  [establish_connection] follows at most ten redirects and never
    from TLS to plain text.

    The digests of the hash crates and [hex::encode] are parameters, as are the
    local time zone, the description of the client process, and the operating
    system's ways to connect ([Net]). *)

From Stdlib Require Import ZArith Lia.
From stdpp Require Import gmap.
From S2P Require Import Prelude Bytes Blockstate IO Writing Reading Errors Replies Delayed.
From S2P Require Import Parms Validate Url ServerSock.

Open Scope Z_scope.

(** An [UnexpectedResponse] holds a text, or the error whose text it shows. *)
Inductive ConnectError :=
| ParmErr (e : ParmError)
| ConnectIO (e : io_error)
| ConnectTimeout
| Utf
| InvalidChallenge (m : string)
| UnsupportedHashAlgo (names : bytes)
| TlsNotSupported
| TlsDowngrade
| TlsError (m : bytes)
| OnlySqlSupported
| TooManyRedirects
| Rejected (m : bytes)
| UnexpectedResponse (m : bytes + CursorError)
| UnixDomain
| SocketAttempts (unix tcp : ConnectError).

(** [From<io::Error> for ConnectError]. *)
Definition connect_of_io (e : io_error) : ConnectError :=
  if bool_decide (kind e = TimedOut) then ConnectTimeout else ConnectIO e.

(** ** Hash algorithms *)

Inductive Algo := Ripemd160 | Sha512 | Sha384 | Sha256 | Sha224.

Definition algos : list (bytes * Algo) :=
  [(bs "RIPEMD160", Ripemd160); (bs "SHA512", Sha512); (bs "SHA384", Sha384);
   (bs "SHA256", Sha256); (bs "SHA224", Sha224)].

Fixpoint find_first (names : list bytes) : option (bytes * Algo) :=
  match names with
  | [] => None
  | name :: rest =>
      match list_find (fun na => fst na = name) algos with
      | Some (_, found) => Some found
      | None => find_first rest
      end
  end.

Definition find_algo (comma_separated_names : bytes) : option (bytes * Algo) :=
  find_first (split_on x2c comma_separated_names).

(** ** The challenge *)

Inductive Endian := Big | Lit.

Definition endian_text (e : Endian) : bytes :=
  match e with Big => bs "BIG" | Lit => bs "LIT" end.

(** [Endian::NATIVE] of a little-endian target. *)
Definition NATIVE : Endian := Lit.

Record Challenge := MkChallenge {
  salt : bytes;
  server_type : bytes;
  response_algos : bytes;
  endian : Endian;
  prehash_algo : bytes;
  sql_handshake_option_level : Z;
  binary : Z;
  clientinfo : bool
}.

Definition challenge_err {A} (msg : string) : res ConnectError A := Err (InvalidChallenge msg).

(** The optional fields: the levels and the flag so far, and the options to go. *)
Fixpoint challenge_options (level binary : Z) (info : bool) (options : list bytes)
    : res ConnectError (Z * Z * bool) :=
  match options with
  | [] => Ok (level, binary, info)
  | option :: rest =>
      match strip_prefix (bs "sql=") option with
      | Some l =>
          match parse_int u8 l with
          | Some level' => challenge_options level' binary info rest
          | None => challenge_err "invalid handshake options level"
          end
      | None =>
          match strip_prefix (bs "BINARY=") option with
          | Some l =>
              match parse_int u16 l with
              | Some binary' => challenge_options level binary' info rest
              | None => challenge_err "invalid binary level"
              end
          | None =>
              match strip_prefix (bs "OOBINTR=") option with
              | Some l =>
                  match parse_int u16 l with
                  | Some _ => challenge_options level binary info rest
                  | None => challenge_err "invalid oobintr level"
                  end
              | None =>
                  if bool_decide (option = bs "CLIENTINFO")
                  then challenge_options level binary true rest
                  else challenge_options level binary info rest
              end
          end
      end
  end.

(** The next part, or an error about the one that is missing. *)
Definition next_part (parts : list bytes) (missing : string)
    : res ConnectError (bytes * list bytes) :=
  match parts with
  | part :: rest => Ok (part, rest)
  | [] => challenge_err missing
  end.

Definition Challenge_new (line : bytes) : res ConnectError Challenge :=
  let parts := split_on x3a (trim_end (fun c => bool_decide (c = x3a)) line) in
  let? (salt, parts) := next_part parts "salt missing" in
  let? (server_type, parts) := next_part parts "server_type missing" in
  let? (protocol, parts) := next_part parts "protocol missing" in
  let? _ := if bool_decide (protocol = bs "9") then Ok tt else challenge_err "unknown protocol" in
  let? (response_algos, parts) := next_part parts "hashes missing" in
  let? (e, parts) := next_part parts "endian missing" in
  let? endian :=
    if bool_decide (e = bs "BIG") then Ok Big
    else if bool_decide (e = bs "LIT") then Ok Lit
    else challenge_err "invalid endian" in
  let? (prehash_algo, parts) := next_part parts "password hash algo missing" in
  let? (level, binary, info) :=
    challenge_options 0 0 false (parts ≫= split_on x2c) in
  Ok (MkChallenge salt server_type response_algos endian prehash_algo level binary info).

(** ** The session state *)

#[export] Instance byte_countable : Countable byte.
Proof. apply (inj_countable Byte.to_N Byte.of_N). intros b. apply Byte.of_to_N. Defined.

(** [InnerServerMetadata] of src/conn.rs, which a session keeps once it is loaded. *)
Record InnerServerMetadata := MkMetadata {
  environment : gmap bytes bytes;
  version : Z * Z * Z;
  md_prehash_algo : bytes
}.

Record ServerState := MkState {
  s_autocommit : bool;
  s_reply_size : Z;
  s_time_zone_seconds : Z;
  s_sql_metadata : option InnerServerMetadata;
  s_prehash_algo : bytes;
  s_server_endian : Endian;
  s_binary_level : Z;
  s_max_response_size : Z
}.

Definition ServerState_new (prehash_algo : bytes) (server_endian : Endian)
    (binary_level max_response_size : Z) : ServerState :=
  MkState true 100 0 None prehash_algo server_endian binary_level max_response_size.

(** ** Client information *)

Record ClientInfo := MkClientInfo {
  client_hostname : bytes;
  application_name : bytes;
  client_library : bytes;
  ci_remark : bytes;
  client_pid : Z
}.

Definition items (self : ClientInfo) : list (bytes * bytes) :=
  let all :=
    [(bs "ClientHostname", negb (is_empty (client_hostname self)), client_hostname self);
     (bs "ApplicationName", negb (is_empty (application_name self)), application_name self);
     (bs "ClientLibrary", negb (is_empty (client_library self)), client_library self);
     (bs "ClientRemark", negb (is_empty (ci_remark self)), ci_remark self);
     (bs "ClientPid", true, print_int (client_pid self))] in
  (fun item => (fst (fst item), snd item)) <$>
    filter (fun item => snd (fst item) = true) all.

(** The pieces that [SqlForm] writes. *)
Fixpoint sql_form (prefix : bytes) (l : list (bytes * bytes)) : list bytes :=
  match l with
  | [] => []
  | (k, v) :: rest => [prefix; k; bs "="; v; [x0a]] ++ sql_form [] rest
  end.

(** ** The response *)

(** What the handshake writes to: the response, the next separator between
    options, and the queue of commands. *)
Record handshake := MkHandshake { response : bytes; sep : bytes; queue : DelayedCommands }.

Definition hcomp := comp handshake ConnectError.

Definition write_response (text : bytes) : hcomp unit := fun h =>
  (Ok tt, MkHandshake (response h ++ text) (sep h) (queue h)).

Definition on_queue {A} (m : comp DelayedCommands ConnectError A) : hcomp A := fun h =>
  let '(r, dc) := m (queue h) in (r, MkHandshake (response h) (sep h) dc).

(** A setting goes into the response when the server takes its level there,
    and is sent as a command otherwise. *)
Definition arrange (level_limit lvl : Z) (key : bytes) (value : Z) (cmd : list bytes)
    : hcomp unit :=
  if lvl <? level_limit then
    do? h := sget in
    do! write_response (sep h ++ key ++ bs "=" ++ print_int value) in
    fun h => (Ok tt, MkHandshake (response h) (bs ",") (queue h))
  else on_queue (add key cmd).

(** [{:02}]. *)
Definition pad2 (z : Z) : bytes := if z <? 10 then bs "0" ++ print_int z else print_int z.

Definition timezone_command (mins : Z) : list bytes :=
  let sign := if mins <? 0 then bs "-" else bs "+" in
  let a := Z.abs mins in
  [bs "sSET TIME ZONE INTERVAL '"; sign; pad2 (a / 60); bs ":"; pad2 (a mod 60);
   bs "' HOUR TO MINUTE;"].

(** [str::replace] of each double quote by two. *)
Definition double_quotes (s : bytes) : bytes :=
  s ≫= fun c => if bool_decide (c = x22) then [x22; x22] else [c].

Definition schema_command (schema : bytes) : list bytes :=
  [bs "sSET SCHEMA "; [x22]; double_quotes schema; [x22]; bs ";"].

(** The settings of an SQL session that differ from those of a new one. *)
Definition handshake_settings (parms : Validated) (level_limit seconds_east : Z)
    (state : ServerState) : hcomp ServerState :=
  let arrange := arrange level_limit in
  do! (if negb (Bool.eqb (s_autocommit state) (autocommit parms)) then
         let v := if autocommit parms then 1 else 0 in
         arrange 1 (bs "auto_commit") v [bs "Xauto_commit "; print_int v]
       else sret tt) in
  do! (if negb (s_reply_size state =? replysize parms) then
         arrange 2 (bs "reply_size") (replysize parms)
           [bs "Xreply_size "; print_int (replysize parms)]
       else sret tt) in
  do! arrange 3 (bs "size_header") 1 [bs "Xsizeheader 1"] in
  let mins := Z.quot seconds_east 60 in
  do! (if negb (s_time_zone_seconds state =? seconds_east) then
         arrange 5 (bs "time_zone") seconds_east (timezone_command mins)
       else sret tt) in
  do! (if negb (is_empty (schema parms)) then
         on_queue (add (bs "schema") (schema_command (schema parms)))
       else sret tt) in
  let time_zone :=
    if negb (s_time_zone_seconds state =? seconds_east)
    then (if 5 <? level_limit then seconds_east else mins * 60)
    else s_time_zone_seconds state in
  sret (MkState (autocommit parms) (replysize parms) time_zone (s_sql_metadata state) (s_prehash_algo state)
          (s_server_endian state) (s_binary_level state) (s_max_response_size state)).

Inductive Login :=
| Redirect (url : bytes)
| Restart
| Complete (state : ServerState).

Definition process_redirects (state : ServerState) (reply : bytes) : res ConnectError Login :=
  let reply := trim_ascii reply in
  if is_empty reply || starts_with (bs "=OK") reply then Ok (Complete state)
  else if starts_with [x5e] reply then
    let first_line := default [] (head (split_on x0a reply)) in
    let redirect := drop 1 first_line in
    if starts_with (bs "mapi:merovingian://proxy") redirect then Ok Restart
    else Ok (Redirect redirect)
  else
    match strip_prefix [x21] reply with
    | Some message => Err (Rejected message)
    | None =>
        match strip_prefix [x23] reply with
        | Some _ => Ok (Complete state)
        | None => Err (UnexpectedResponse (inl reply))
        end
    end.

(** [timezone_offset_east_of_utc] of src/convert/temporal_time.rs; what the [time]
    crate finds is a parameter, [None] when it refuses. *)
Definition timezone_offset_east_of_utc (current_local_offset : option Z) : Z :=
  match current_local_offset with Some offset => offset | None => 0 end.

(** The first of the implementations that are compiled in. *)
Definition default_offset (feature_time : bool) (current_local_offset : option Z) : Z :=
  hd 0 ((if feature_time then [timezone_offset_east_of_utc current_local_offset] else []) ++ [0]).

Section Client.

(** The digest functions and [hex::encode], the local time zone, and what
    [ClientInfo::default] finds out about the process. *)
Context (digest : Algo -> bytes -> bytes) (hex_encode : bytes -> bytes).
Context (local_offset : Z) (process_info : ClientInfo) (PUBLIC_NAME : bytes).

Definition client_info_of (parms : Validated) : ClientInfo :=
  let info := process_info in
  MkClientInfo (client_hostname info)
    (if negb (is_empty (client_application parms)) then client_application parms
     else application_name info)
    (if negb (is_empty (client_prefix parms)) then client_prefix parms ++ bs " / " ++ PUBLIC_NAME
     else client_library info)
    (if negb (is_empty (client_remark parms)) then client_remark parms else ci_remark info)
    (client_pid info).

(** The password, hashed once unless it is given as a hash, then hashed with the salt. *)
Definition hashed_password (password : bytes) (prehash algo : Algo) (salt : bytes) : bytes :=
  let prehashed :=
    match strip_prefix [x01] password with
    | Some hex_digits => hex_digits
    | None => hex_encode (digest prehash password)
    end in
  hex_encode (digest algo (prehashed ++ salt)).

Definition challenge_response (parms : Validated) (chal : Challenge)
    : res ConnectError (bytes * ServerState * DelayedCommands) :=
  let (user, password) :=
    if bool_decide (server_type chal = bs "merovingian") then (bs "merovingian", [])
    else (user parms, password parms) in
  let? (prehash_name, prehash) :=
    ok_or (find_algo (prehash_algo chal)) (UnsupportedHashAlgo (prehash_algo chal)) in
  let? (algo_name, algo) :=
    ok_or (find_algo (response_algos chal)) (UnsupportedHashAlgo (response_algos chal)) in
  let hashed := hashed_password password prehash algo (salt chal) in
  let text :=
    endian_text NATIVE ++ bs ":" ++ user ++ bs ":{" ++ algo_name ++ bs "}" ++ hashed
    ++ bs ":" ++ language parms ++ bs ":" ++ database parms ++ bs ":FILETRANS:" in
  let binary_level := Z.min (binary chal) (connect_binary parms) in
  let state :=
    ServerState_new prehash_name (endian chal) binary_level (max_response_size parms) in
  let seconds_east :=
    match connect_timezone_seconds parms with Some tz => tz | None => local_offset end in
  let '(r, h) :=
    (do? state :=
       (if bool_decide (language parms = bs "sql")
        then handshake_settings parms (sql_handshake_option_level chal) seconds_east state
        else sret state) in
     do! write_response (bs ":") in
     do! (if clientinfo chal && client_info parms then
            do! on_queue (on_buffer
                  (append_all (sql_form (bs "Xclientinfo ") (items (client_info_of parms))))) in
            do! on_queue (on_buffer end_message) in
            on_queue (push_response (MkExpected (bs "ClientInfo") true))
          else sret tt) in
     sret state) (MkHandshake text [] delayed_new) in
  let? state := r in
  Ok (response h, state, queue h).

(** ** One login on a socket *)

Section Socket.
Context {S : Type} `{!Read S} `{!Write S} (fuel : nat) (sizes : nat -> nat).

Definition sock_lift {A} (m : comp S io_error A) : comp S ConnectError A := fun s =>
  let '(r, s') := m s in (res_map_err connect_of_io r, s').

(** [mbuf.append(response)] and [write_reset] are [write_reset_plus] with one chunk. *)
Definition login (parms : Validated) : comp S ConnectError (Login * DelayedCommands) :=
  do? server_message := sock_lift (to_limited_string fuel sizes [] 5000) in
  do? chal := slift (Challenge_new server_message) in
  do? answer := slift (challenge_response parms chal) in
  let '(response, state, delayed) := answer in
  do! sock_lift (fun s =>
        let '(r, (_, s')) := write_reset_plus fuel [response] (mapibuf_new, s) in (r, s')) in
  do? server_message := sock_lift (to_limited_string fuel sizes [] 5000) in
  do? login := slift (process_redirects state server_message) in
  sret (login, delayed).

End Socket.

End Client.

(** ** Connecting *)

(** How a worker thread answers within the time that is left. *)
Inductive worker (A : Type) :=
| Finished (r : A + io_error)
| Late
| Lost.
Arguments Finished {A}.
Arguments Late {A}.
Arguments Lost {A}.

(** What the operating system and the TLS library do.  [World] is their state;
    [S] is the type of sockets; [Tcp] and [Unix] are the raw ones. *)
Class Net (World S Tcp Unix Addr : Type) := {
  now : World -> Z * World;
  spawn_error : World -> option io_error * World;
  unix_connect : bytes -> option Z -> World -> worker Unix * World;
  resolve : bytes -> Z -> option Z -> World -> worker (list Addr) * World;
  tcp_connect : Addr -> option Z -> World -> (Tcp + io_error) * World;
  from_unix : Unix -> Timeouts -> option Z -> World -> (S + io_error) * World;
  from_tcp : Tcp -> Timeouts -> option Z -> World -> (S + io_error) * World;
  tls_wrap : Validated -> S -> World -> (S + ConnectError) * World;
  apply_deadline : Timeouts -> S -> S
}.

Section Connect.
Context {World S Tcp Unix Addr : Type} `{!Net World S Tcp Unix Addr}.
Context `{!Read S} `{!Write S} (fuel : nat) (sizes : nat -> nat).

Notation ccomp := (comp World ConnectError).

(** An operating-system call that returns a value or an [io::Error]. *)
Definition os {A} (call : World -> (A + io_error) * World) : ccomp A := fun w =>
  let '(r, w') := call w in
  (match r with inl a => Ok a | inr e => Err (connect_of_io e) end, w').

(** [ConnectionDeadline::remaining]. *)
Definition remaining (deadline : option Z) : ccomp (option Z) :=
  match deadline with
  | None => sret None
  | Some d => fun w =>
      let '(t, w') := now w in
      (if t <=? d then Ok (Some (d - t)) else Err ConnectTimeout, w')
  end.

(** A text with a part that is not constant. *)
Definition message (text : bytes) : Payload := Message (String.string_of_list_byte text).

Definition worker_result {A} (thread_name : bytes) (r : worker A) : res ConnectError A :=
  match r with
  | Finished (inl a) => Ok a
  | Finished (inr e) => Err (connect_of_io e)
  | Late => Err ConnectTimeout
  | Lost => Err (connect_of_io (IoError (OtherKind 0) 
              (message (thread_name ++ bs " worker stopped without a result"))))
  end.

Definition run_io_with_deadline {A} (deadline : option Z) (thread_name : bytes)
    (operation : option Z -> World -> worker A * World) : ccomp A :=
  do? time_left := remaining deadline in
  match time_left with
  | None => fun w => let '(r, w') := operation None w in (worker_result thread_name r, w')
  | Some t => fun w =>
      match spawn_error w with
      | (Some e, w') => (Err (connect_of_io e), w')
      | (None, w') => let '(r, w'') := operation (Some t) w' in (worker_result thread_name r, w'')
      end
  end.

(** A write on the socket itself. *)
Definition on_sock (s : S) (data : bytes) : ccomp S := fun w =>
  let '(r, s') := write_all fuel data s in
  (let? _ := res_map_err connect_of_io r in Ok s', w).

Definition connect_unix_socket (parms : Validated) (deadline : option Z) : ccomp S :=
  do? raw := run_io_with_deadline deadline (bs "monetdb-unix-connect")
              (unix_connect (connect_unix parms)) in
  do? s := os (from_unix raw (from_validated parms) deadline) in
  on_sock s (bs "0").

(** The loop over the addresses; [err] is the last error. *)
Fixpoint connect_tcp_addresses (deadline : option Z) (err : option io_error)
    (addresses : list Addr) : ccomp (option Tcp) :=
  match addresses with
  | [] =>
      match err with
      | Some e => sfail (connect_of_io e)
      | None => sret None
      end
  | address :: rest =>
      do? time_left := remaining deadline in
      do? r := fun w => let '(r, w') := tcp_connect address time_left w in (Ok r, w') in
      match r with
      | inr e => connect_tcp_addresses deadline (Some e) rest
      | inl value => sret (Some value)
      end
  end.

Definition no_addresses (host : bytes) : io_error :=
  IoError NotFound (message (bs "no ip addresses for '" ++ host ++ bs "'")).

Definition resolve_tcp_addresses (host : bytes) (port : Z) (deadline : option Z) : ccomp (list Addr) :=
  run_io_with_deadline deadline (bs "monetdb-dns-resolution") (resolve host port).

Definition connect_tcp_socket (parms : Validated) (deadline : option Z) : ccomp S :=
  do? addresses := resolve_tcp_addresses (connect_tcp parms) (connect_port parms) deadline in
  do? found := connect_tcp_addresses deadline None addresses in
  match found with
  | None => sfail (connect_of_io (no_addresses (connect_tcp parms)))
  | Some raw => os (from_tcp raw (from_validated parms) deadline)
  end.

Definition wrap_tls (parms : Validated) (s : S) : ccomp S :=
  if negb (tls parms) then on_sock s (repeat x00 8)
  else fun w =>
    let '(r, w') := tls_wrap parms s w in
    (match r with inl s' => Ok s' | inr e => Err e end, w').

(** The result of an attempt as a value, so that the caller can go on. *)
Definition attempt {A} (m : ccomp A) : ccomp (A + ConnectError) := fun w =>
  match m w with
  | (Ok a, w') => (Ok (inl a), w')
  | (Err e, w') => (Ok (inr e), w')
  | (Panic, w') => (Panic, w')
  | (NoFuel, w') => (NoFuel, w')
  end.

Definition no_address_configured : ConnectError :=
  connect_of_io (IoError InvalidInput (Message "no connection address configured")).

Definition connect_socket (parms : Validated) (deadline : option Z) : ccomp S :=
  do? first :=
    (if negb (is_empty (connect_unix parms)) then
       do? r := attempt (connect_unix_socket parms deadline) in
       sret (match r with inl s => inl s | inr e => inr (Some e) end)
     else sret (inr None)) in
  match first with
  | inl s => sret s
  | inr unix_error =>
      if negb (is_empty (connect_tcp parms)) then
        do? r := attempt (connect_tcp_socket parms deadline) in
        match r with
        | inl s => wrap_tls parms s
        | inr e =>
            sfail (match unix_error with Some u => SocketAttempts u e | None => e end)
        end
      else sfail (default no_address_configured unix_error)
  end.

Section Redirects.
Context (Url_parse : bytes -> bytes + Url) (representable : Z -> bool).

Definition validate_parms (parms : Parameters) : res ConnectError Validated :=
  res_map_err ParmErr (validate representable parms).

(** [apply_redirect] on the parameters of the loop, which are dropped on error. *)
Definition apply_redirect (parms : Parameters) (url : bytes) : res ConnectError Parameters :=
  let? v := validate_parms parms in
  let? parms' := res_map_err ParmErr (with_parm (apply_url Url_parse url) parms) in
  if tls v then
    let? v' := validate_parms parms' in
    if negb (tls v') then Err TlsDowngrade else Ok parms'
  else Ok parms'.

(** [login] as the loop uses it: any operation on the socket with that result. *)
Context (do_login : Validated -> comp S ConnectError (Login * DelayedCommands)).

Definition connection : Type := S * ServerState * DelayedCommands * Timeouts.

(** [Login::Complete]: the delayed commands are sent, their replies not awaited. *)
Definition finish_login (v : Validated) (s : S) (state : ServerState) (delayed : DelayedCommands)
    : res ConnectError connection :=
  let '(r, (delayed', s')) := send_delayed fuel (delayed, s) in
  match r with
  | Ok _ =>
      let timeouts := from_validated v in
      Ok (apply_deadline timeouts s', state, delayed', timeouts)
  | Err (IO e) => Err (ConnectIO e)
  | Err e => Err (UnexpectedResponse (inr e))
  | Panic => Panic
  | NoFuel => NoFuel
  end.

(** The loop of [establish_connection] with [budget] rounds left. *)
Fixpoint establish_loop (budget : nat) (deadline : option Z) (parms : Parameters)
    (restarted : option S) : ccomp connection :=
  match budget with
  | O => sfail TooManyRedirects
  | Datatypes.S budget' =>
      do? v := slift (validate_parms parms) in
      do? s := (match restarted with
                | Some s => sret s
                | None => connect_socket v deadline
                end) in
      let '(r, s') := do_login v s in
      do? outcome := slift r in
      let '(login, delayed) := outcome in
      match login with
      | Complete state => slift (finish_login v s' state delayed)
      | Redirect url =>
          do? parms' := slift (apply_redirect parms url) in
          establish_loop budget' deadline parms' None
      | Restart => establish_loop budget' deadline parms (Some s')
      end
  end.

(** [ConnectionDeadline::new]: the instant at which connecting must be done, if the
    clock can represent it. *)
Definition deadline_new (timeout : option Z) : ccomp (option Z) :=
  do? start := fun w => let '(t, w') := now w in (Ok t, w') in
  sret (match timeout with
        | Some t => if representable t then Some (start + nanos t) else None
        | None => None
        end).

Definition establish_connection (parms : Parameters) : ccomp connection :=
  do? v := slift (validate_parms parms) in
  do? deadline := deadline_new (connect_timeout v) in
  establish_loop 10 deadline parms None.

End Redirects.

End Connect.

(** ** Lemmas: the challenge *)

(** The value of the last option with the given prefix. *)
Fixpoint last_level (prefix : bytes) (options : list bytes) (dflt : Z) (t : int_type) : Z :=
  match options with
  | [] => dflt
  | option :: rest =>
      match strip_prefix prefix option with
      | Some l => last_level prefix rest (default dflt (parse_int t l)) t
      | None => last_level prefix rest dflt t
      end
  end.

(** The level of an option with this prefix is a number of the type. *)
Definition level_ok (prefix : bytes) (t : int_type) (option : bytes) : Prop :=
  forall l, strip_prefix prefix option = Some l -> is_Some (parse_int t l).

Definition option_ok (option : bytes) : Prop :=
  level_ok (bs "sql=") u8 option /\ level_ok (bs "BINARY=") u16 option /\
  level_ok (bs "OOBINTR=") u16 option.

Definition level_okb (prefix : bytes) (t : int_type) (option : bytes) : bool :=
  match strip_prefix prefix option with
  | Some l => match parse_int t l with Some _ => true | None => false end
  | None => true
  end.

Definition option_okb (option : bytes) : bool :=
  level_okb (bs "sql=") u8 option && level_okb (bs "BINARY=") u16 option
  && level_okb (bs "OOBINTR=") u16 option.

Lemma level_okb_sound prefix t option : level_okb prefix t option = true -> level_ok prefix t option.
Proof.
  unfold level_okb, level_ok. intros H l E. rewrite E in H. by destruct (parse_int t l).
Qed.

Lemma options_okb_sound options : forallb option_okb options = true -> Forall option_ok options.
Proof.
  induction options as [|o options IH]; [constructor|]. simpl. intros [Ho H]%andb_true_iff.
  apply andb_true_iff in Ho as [[H1 H2]%andb_true_iff H3].
  constructor; [|auto]. repeat split; by apply level_okb_sound.
Qed.

Lemma prefix_head p c l : strip_prefix (c :: p) l <> None -> head l = Some c.
Proof. destruct l as [|d l]; simpl; [done|]. case_decide; naive_solver. Qed.

Lemma challenge_options_ok level binary info options :
  Forall option_ok options ->
  challenge_options level binary info options =
    Ok (last_level (bs "sql=") options level u8, last_level (bs "BINARY=") options binary u16,
        info || bool_decide (bs "CLIENTINFO" ∈ options)).
Proof.
  intros H. revert level binary info.
  induction H as [|o options (H1 & H2 & H3) _ IH]; intros level binary info;
    cbn [challenge_options last_level].
  { by rewrite orb_false_r. }
  assert (forall (b : bool), (o = bs "CLIENTINFO" <-> b = true) ->
    info || bool_decide (bs "CLIENTINFO" ∈ o :: options) =
    (info || b) || bool_decide (bs "CLIENTINFO" ∈ options)) as Hin.
  { intros b Hb. rewrite <- orb_assoc. f_equal.
    rewrite (bool_decide_ext _ (b = true \/ bs "CLIENTINFO" ∈ options))
      by (rewrite elem_of_cons, <- Hb; naive_solver).
    rewrite bool_decide_or. f_equal. by destruct b. }
  assert (forall p, strip_prefix p o <> None -> head p <> Some x43 -> p <> [] ->
    o <> bs "CLIENTINFO") as Hne.
  { intros [|c p] Hs Hc Hp; [done|]. apply prefix_head in Hs. intros ->.
    apply Hc. simpl. by rewrite <- Hs. }
  destruct (strip_prefix (bs "sql=") o) as [l|] eqn:E1.
  { destruct (H1 l E1) as [v Hv]. rewrite Hv, IH. cbn [default from_option].
    assert (strip_prefix (bs "BINARY=") o = None) as ->.
    { apply eq_None_not_Some. intros [x Hx]. apply strip_prefix_Some in E1, Hx. by subst o. }
    rewrite (Hin false); [by rewrite orb_false_r|]. split; [|done]. intros Ho.
    by destruct (Hne (bs "sql=")); rewrite ?E1. }
  destruct (strip_prefix (bs "BINARY=") o) as [l|] eqn:E2.
  { destruct (H2 l E2) as [v Hv]. rewrite Hv, IH. cbn [default from_option].
    rewrite (Hin false); [by rewrite orb_false_r|]. split; [|done]. intros Ho.
    by destruct (Hne (bs "BINARY=")); rewrite ?E2. }
  destruct (strip_prefix (bs "OOBINTR=") o) as [l|] eqn:E3.
  { destruct (H3 l E3) as [v Hv]. rewrite Hv, IH.
    rewrite (Hin false); [by rewrite orb_false_r|]. split; [|done]. intros Ho.
    by destruct (Hne (bs "OOBINTR=")); rewrite ?E3. }
  destruct (decide (o = bs "CLIENTINFO")) as [Ho|Ho].
  - rewrite (bool_decide_true (o = bs "CLIENTINFO")), IH by done.
    rewrite (Hin true); [by rewrite orb_true_r|by split].
  - rewrite (bool_decide_false (o = bs "CLIENTINFO")), IH by done.
    rewrite (Hin false); [by rewrite orb_false_r|by split].
Qed.

(** Fields with a separator between them. *)
Fixpoint join (c : byte) (fields : list bytes) : bytes :=
  match fields with
  | [] => []
  | [f] => f
  | f :: rest => f ++ c :: join c rest
  end.

Lemma split_join c fields :
  fields <> [] -> Forall (fun f => c ∉ f) fields -> split_on c (join c fields) = fields.
Proof.
  intros Hne H. induction H as [|f fields Hf Hr IH]; [done|].
  destruct fields as [|g fields]; [by apply split_on_piece|].
  simpl. rewrite split_on_app by done. f_equal. by apply IH.
Qed.

Lemma trim_end_app p a b :
  Forall (fun c => p c = true) b -> (forall c, last a = Some c -> p c = false) ->
  trim_end p (a ++ b) = a.
Proof.
  intros Hb Ha. unfold trim_end. rewrite reverse_app, trim_start_class.
  - destruct a as [|c a _] using rev_ind; [done|]. rewrite reverse_snoc. simpl.
    rewrite Ha by apply last_snoc. rewrite reverse_cons, reverse_involutive. done.
  - by apply Forall_reverse.
Qed.

Lemma join_last c fields f :
  f <> [] -> last (join c (fields ++ [f])) = last f.
Proof.
  intros Hf. induction fields as [|g fields IH]; [done|].
  change ((g :: fields) ++ [f]) with (g :: (fields ++ [f])).
  destruct (fields ++ [f]) as [|h l] eqn:E; [by destruct fields|].
  change (join c (g :: h :: l)) with (g ++ c :: join c (h :: l)).
  rewrite last_app_cons, last_cons, IH.
  destruct (last f) eqn:El; [done|]. apply last_None in El. done.
Qed.

(** The fields of a challenge, the options in groups of comma-separated ones. *)
Definition challenge_fields (c : Challenge) (groups : list (list bytes)) : list bytes :=
  [salt c; server_type c; bs "9"; response_algos c; endian_text (endian c); prehash_algo c]
  ++ (join x2c <$> groups).

Definition fields_plain (c : Challenge) (groups : list (list bytes)) : Prop :=
  Forall (fun f => x3a ∉ f) (challenge_fields c groups) /\
  Forall (fun group => group <> [] /\ Forall (fun o => x2c ∉ o) group) groups /\
  last (challenge_fields c groups) <> Some [].

Lemma split_groups groups :
  Forall (fun group => group <> [] /\ Forall (fun o => x2c ∉ o) group) groups ->
  (join x2c <$> groups) ≫= split_on x2c = concat groups.
Proof.
  intros H. induction H as [|g groups [Hne Hg] _ IH]; [done|]. simpl.
  rewrite split_join by done. f_equal. exact IH.
Qed.

(** C32: A challenge is read as it was sent.  A line of colon-separated fields
    with protocol 9, followed by any number of trailing colons, gives the
    challenge with those fields; among the options, in any order and grouping,
    the last [sql=] and [BINARY=] levels and the presence of [CLIENTINFO] are
    taken, and options that are not known are ignored. *)
Theorem challenge_parsed c groups colons :
  fields_plain c groups -> Forall (fun f => f = x3a) colons ->
  Forall option_ok (concat groups) ->
  sql_handshake_option_level c = last_level (bs "sql=") (concat groups) 0 u8 ->
  binary c = last_level (bs "BINARY=") (concat groups) 0 u16 ->
  clientinfo c = bool_decide (bs "CLIENTINFO" ∈ concat groups) ->
  Challenge_new (join x3a (challenge_fields c groups) ++ colons) = Ok c.
Proof.
  intros (Hplain & Hgroups & Hlast) Hcolons Hopts Hl Hb Hi. unfold Challenge_new.
  rewrite trim_end_app.
  - rewrite split_join by done. unfold challenge_fields. cbn [app next_part res_bind].
    rewrite bool_decide_true by done. cbn [res_bind next_part].
    assert (exists e, endian c = e) as [e He] by eauto.
    rewrite split_groups, challenge_options_ok by done. rewrite He. destruct c; simpl in *. subst.
    by destruct e.
  - eapply Forall_impl; [exact Hcolons|]. intros x ->. by apply bool_decide_eq_true.
  - intros x Hx. apply bool_decide_eq_false. intros ->.
    destruct (challenge_fields c groups) as [|f fields _] using rev_ind; [done|].
    rewrite last_snoc in Hlast. rewrite join_last in Hx by congruence.
    apply Forall_app in Hplain as [_ Hf]. apply Forall_inv in Hf. apply Hf.
    apply last_Some in Hx as [l ->]. apply elem_of_app. right. apply elem_of_cons. by left.
Qed.

Lemma challenge_parsed_witness :
  Challenge_new (bs "salt:mserver:9:SHA512:LIT:SHA512:FUTURE=7,CLIENTINFO,OOBINTR=3,sql=9,BINARY=2:") =
  Ok (MkChallenge (bs "salt") (bs "mserver") (bs "SHA512") Lit (bs "SHA512") 9 2 true).
Proof.
  apply (challenge_parsed
    (MkChallenge (bs "salt") (bs "mserver") (bs "SHA512") Lit (bs "SHA512") 9 2 true)
    [[bs "FUTURE=7"; bs "CLIENTINFO"; bs "OOBINTR=3"; bs "sql=9"; bs "BINARY=2"]] [x3a]).
  - split; [|split].
    + repeat (constructor; [apply (bool_decide_eq_true_1 _); reflexivity|]). constructor.
    + repeat constructor; first [discriminate|apply (bool_decide_eq_true_1 _); reflexivity].
    + vm_compute. discriminate.
  - repeat constructor.
  - apply options_okb_sound. reflexivity.
  - reflexivity.
  - reflexivity.
  - reflexivity.
Defined.

(** ** Lemmas: the handshake *)

(** A quoted SQL identifier: the text up to a quote that is not doubled. *)
Fixpoint read_quoted_body (l : bytes) : option (bytes * bytes) :=
  match l with
  | x22 :: (x22 :: l2) =>
      match read_quoted_body l2 with Some (s, rest) => Some (x22 :: s, rest) | None => None end
  | x22 :: rest => Some ([], rest)
  | c :: l1 =>
      match read_quoted_body l1 with Some (s, rest) => Some (c :: s, rest) | None => None end
  | [] => None
  end.

Definition read_identifier (l : bytes) : option (bytes * bytes) :=
  match l with
  | x22 :: body => read_quoted_body body
  | _ => None
  end.

Lemma read_quoted_plain c l :
  c <> x22 -> read_quoted_body (c :: l) =
    match read_quoted_body l with Some (s, rest) => Some (c :: s, rest) | None => None end.
Proof. intros Hc. destruct c; try done. Qed.

Lemma read_double_quotes s rest :
  head rest <> Some x22 -> read_quoted_body (double_quotes s ++ x22 :: rest) = Some (s, rest).
Proof.
  intros Hr. induction s as [|c s IH].
  { simpl. destruct rest as [|r rest]; [done|]. simpl in Hr. destruct r; done. }
  change (double_quotes (c :: s))
    with ((if bool_decide (c = x22) then [x22; x22] else [c]) ++ double_quotes s).
  destruct (decide (c = x22)) as [->|Hc].
  - rewrite bool_decide_true by done. cbn [app read_quoted_body]. by rewrite IH.
  - rewrite bool_decide_false by done. cbn [app]. rewrite read_quoted_plain by done. by rewrite IH.
Qed.

(** The configured schema cannot break out of its quotes: the command that
    selects it is [SET SCHEMA] followed by one quoted identifier, which reads
    back as exactly the configured name whatever characters it has, and a
    semicolon. *)
Theorem schema_command_quoted schema :
  exists quoted, concat (schema_command schema) = bs "sSET SCHEMA " ++ quoted /\
    read_identifier quoted = Some (schema, bs ";").
Proof.
  exists ([x22] ++ double_quotes schema ++ [x22] ++ bs ";"). split; [done|].
  simpl. by apply read_double_quotes.
Qed.

(** A setting: its level, its name and value, and the command for it. *)
Record setting := Setting { set_level : Z; set_key : bytes; set_value : Z; set_cmd : list bytes }.

(** The settings of an SQL session that a new one does not have yet. *)
Definition wanted_settings (parms : Validated) (seconds_east : Z) : list setting :=
  (if autocommit parms then []
   else [Setting 1 (bs "auto_commit") 0 [bs "Xauto_commit "; print_int 0]])
  ++ (if replysize parms =? 100 then []
      else [Setting 2 (bs "reply_size") (replysize parms)
              [bs "Xreply_size "; print_int (replysize parms)]])
  ++ [Setting 3 (bs "size_header") 1 [bs "Xsizeheader 1"]]
  ++ (if seconds_east =? 0 then []
      else [Setting 5 (bs "time_zone") seconds_east
              (timezone_command (Z.quot seconds_east 60))]).

Definition as_option (s : setting) : bytes := set_key s ++ bs "=" ++ print_int (set_value s).

Definition in_handshake (limit : Z) (s : setting) : bool := set_level s <? limit.

Definition options_of (limit : Z) (l : list setting) : list bytes :=
  as_option <$> filter (fun s => in_handshake limit s = true) l.

Definition commands_of (limit : Z) (l : list setting) : list bytes :=
  (line_of ∘ set_cmd) <$> filter (fun s => in_handshake limit s = false) l.

(** [base] followed by the options so far; the queue holds the commands so far. *)
Definition arranged (base : bytes) (options payloads : list bytes) (h : handshake) : Prop :=
  response h = base ++ join x2c options /\
  sep h = (if decide (options = []) then [] else bs ",") /\
  queued (queue h) 0 payloads.

Lemma join_snoc c l x : l <> [] -> join c (l ++ [x]) = join c l ++ c :: x.
Proof.
  induction l as [|y l IH]; [done|]. intros _. destruct l as [|z l]; [done|].
  change (join c ((y :: z :: l) ++ [x])) with (y ++ c :: join c ((z :: l) ++ [x])).
  rewrite IH by done. change (join c (y :: z :: l)) with (y ++ c :: join c (z :: l)).
  by rewrite <- app_assoc.
Qed.

Lemma arrange_spec limit s base options payloads h :
  arranged base options payloads h -> concat (set_cmd s) <> [] ->
  exists h', arrange limit (set_level s) (set_key s) (set_value s) (set_cmd s) h = (Ok tt, h') /\
    arranged base (options ++ options_of limit [s]) (payloads ++ commands_of limit [s]) h'.
Proof.
  intros (Hr & Hs & Hq) Hne. unfold arrange, options_of, commands_of, in_handshake.
  destruct (set_level s <? limit) eqn:E.
  - rewrite filter_cons_True, filter_cons_False by congruence. simpl.
    eexists. split; [reflexivity|]. unfold arranged. simpl. rewrite app_nil_r, Hr, Hs.
    split; [|split; [by destruct options|done]]. rewrite <- app_assoc. f_equal.
    destruct options as [|o options]; [done|].
    rewrite decide_False by done. by rewrite join_snoc.
  - rewrite filter_cons_False, filter_cons_True by congruence. simpl. unfold on_queue, add.
    destruct (add_inner_queued ConnectError (set_key s) (set_cmd s) false (queue h) 0 payloads Hq Hne)
      as (dc & -> & Hq' & _).
    eexists. split; [reflexivity|]. unfold arranged. simpl. rewrite app_nil_r. done.
Qed.

Lemma options_of_app limit a b : options_of limit (a ++ b) = options_of limit a ++ options_of limit b.
Proof. unfold options_of. by rewrite filter_app, fmap_app. Qed.

Lemma commands_of_app limit a b :
  commands_of limit (a ++ b) = commands_of limit a ++ commands_of limit b.
Proof. unfold commands_of. by rewrite filter_app, fmap_app. Qed.

(** An optional setting: arranged when it is wanted. *)
Lemma arrange_if limit (want : bool) s base options payloads h :
  arranged base options payloads h -> concat (set_cmd s) <> [] ->
  exists h',
    (if want then arrange limit (set_level s) (set_key s) (set_value s) (set_cmd s) else sret tt) h
      = (Ok tt, h') /\
    arranged base (options ++ options_of limit (if want then [s] else []))
      (payloads ++ commands_of limit (if want then [s] else [])) h'.
Proof.
  intros Ha Hne. destruct want; [by apply arrange_spec|].
  exists h. split; [done|]. unfold options_of, commands_of. simpl. by rewrite !app_nil_r.
Qed.

Definition schema_lines (parms : Validated) : list bytes :=
  if is_empty (schema parms) then [] else [line_of (schema_command (schema parms))].

(** The session that the settings lead to. *)
Definition session (parms : Validated) (limit seconds_east : Z) (state : ServerState) : ServerState :=
  MkState (autocommit parms) (replysize parms)
    (if 5 <? limit then seconds_east else Z.quot seconds_east 60 * 60)
    (s_sql_metadata state) (s_prehash_algo state) (s_server_endian state) (s_binary_level state)
    (s_max_response_size state).

Lemma handshake_settings_spec parms limit secs name e b m base h :
  arranged base [] [] h ->
  exists h',
    handshake_settings parms limit secs (ServerState_new name e b m) h =
      (Ok (session parms limit secs (ServerState_new name e b m)), h') /\
    arranged base (options_of limit (wanted_settings parms secs))
      (commands_of limit (wanted_settings parms secs) ++ schema_lines parms) h'.
Proof.
  intros H0.
  destruct (arrange_if limit (negb (autocommit parms))
    (Setting 1 (bs "auto_commit") 0 [bs "Xauto_commit "; print_int 0]) base [] [] h H0)
    as (h1 & E1 & H1); [done|].
  destruct (arrange_if limit (negb (100 =? replysize parms))
    (Setting 2 (bs "reply_size") (replysize parms)
       [bs "Xreply_size "; print_int (replysize parms)]) base _ _ h1 H1)
    as (h2 & E2 & H2); [done|].
  destruct (arrange_spec limit (Setting 3 (bs "size_header") 1 [bs "Xsizeheader 1"]) base _ _ h2 H2)
    as (h3 & E3 & H3); [done|].
  destruct (arrange_if limit (negb (0 =? secs))
    (Setting 5 (bs "time_zone") secs (timezone_command (Z.quot secs 60))) base _ _ h3 H3)
    as (h4 & E4 & H4); [done|].
  assert (exists h5, (if negb (is_empty (schema parms)) then
      on_queue (add (bs "schema") (schema_command (schema parms))) else sret tt) h4 = (Ok tt, h5) /\
    arranged base (options_of limit (wanted_settings parms secs))
      (commands_of limit (wanted_settings parms secs) ++ schema_lines parms) h5)
    as (h5 & E5 & H5).
  { assert (wanted_settings parms secs =
      (if negb (autocommit parms) then
         [Setting 1 (bs "auto_commit") 0 [bs "Xauto_commit "; print_int 0]] else []) ++
      (if negb (100 =? replysize parms) then
         [Setting 2 (bs "reply_size") (replysize parms)
            [bs "Xreply_size "; print_int (replysize parms)]] else []) ++
      [Setting 3 (bs "size_header") 1 [bs "Xsizeheader 1"]] ++
      (if negb (0 =? secs) then
         [Setting 5 (bs "time_zone") secs (timezone_command (Z.quot secs 60))] else [])) as ->.
    { unfold wanted_settings. rewrite (Z.eqb_sym 100), (Z.eqb_sym 0).
      by destruct (autocommit parms), (replysize parms =? 100), (secs =? 0). }
    rewrite !options_of_app, !commands_of_app. rewrite !app_nil_l, <- !app_assoc in H4.
    unfold schema_lines. destruct (is_empty (schema parms)); simpl.
    - exists h4. split; [done|]. by rewrite app_nil_r.
    - destruct H4 as (Hr & Hs & Hq). unfold on_queue, add.
      destruct (add_inner_queued ConnectError (bs "schema") (schema_command (schema parms)) false
        (queue h4) 0 _ Hq) as (dc & -> & Hq' & _); [done|].
      eexists. split; [reflexivity|]. unfold arranged. simpl. by rewrite <- ?app_assoc in *. }
  exists h5. split; [|done]. unfold handshake_settings. cbv zeta.
  etransitivity; [eapply sbind_run; rewrite <- E1; by destruct (autocommit parms)|].
  etransitivity; [eapply sbind_run; exact E2|].
  etransitivity; [eapply sbind_run; exact E3|].
  etransitivity; [eapply sbind_run; exact E4|].
  etransitivity; [eapply sbind_run; exact E5|].
  assert ((if negb (0 =? secs) then (if 5 <? limit then secs else Z.quot secs 60 * 60) else 0) =
    (if 5 <? limit then secs else Z.quot secs 60 * 60)) as Htz.
  { destruct (Z.eqb_spec 0 secs) as [<-|]; [by destruct (5 <? limit)|done]. }
  unfold sret, session. cbn [ServerState_new s_autocommit s_reply_size s_time_zone_seconds
    s_prehash_algo s_server_endian s_binary_level s_max_response_size]. by rewrite Htz.
Qed.

Section Handshake.
Context (digest : Algo -> bytes -> bytes) (hex_encode : bytes -> bytes).
Context (local_offset : Z) (process_info : ClientInfo) (PUBLIC_NAME : bytes).

Definition seconds_of (parms : Validated) : Z :=
  match connect_timezone_seconds parms with Some tz => tz | None => local_offset end.

(** The account that is used: a broker gets its own. *)
Definition account (parms : Validated) (chal : Challenge) : bytes * bytes :=
  if decide (server_type chal = bs "merovingian") then (bs "merovingian", [])
  else (user parms, password parms).

(** The fields of the response before the options. *)
Definition response_fields (parms : Validated) (chal : Challenge)
    (algo_name : bytes) (prehash algo : Algo) : list bytes :=
  [endian_text NATIVE; (account parms chal).1;
   bs "{" ++ algo_name ++ bs "}" ++
     hashed_password digest hex_encode (account parms chal).2 prehash algo (salt chal);
   language parms; database parms; bs "FILETRANS"].

Definition info_lines (parms : Validated) (chal : Challenge) : list bytes :=
  if clientinfo chal && client_info parms
  then [concat (sql_form (bs "Xclientinfo ")
                  (items (client_info_of process_info PUBLIC_NAME parms)))]
  else [].

Lemma info_queued parms chal payloads h :
  queued (queue h) 0 payloads ->
  exists h',
    (if clientinfo chal && client_info parms then
       do! on_queue (on_buffer (append_all (sql_form (bs "Xclientinfo ")
             (items (client_info_of process_info PUBLIC_NAME parms))))) in
       do! on_queue (on_buffer end_message) in
       on_queue (push_response (MkExpected (bs "ClientInfo") true))
     else sret tt) h = (@Ok ConnectError _ tt, h') /\
    response h' = response h /\ queued (queue h') 0 (payloads ++ info_lines parms chal).
Proof.
  intros [Hr Hl]. unfold info_lines. destruct (clientinfo chal && client_info parms).
  2: { exists h. rewrite app_nil_r. done. }
  unfold sbind, on_queue, on_buffer, push_response.
  destruct (append_all_represents ConnectError (sql_form (bs "Xclientinfo ")
    (items (client_info_of process_info PUBLIC_NAME parms))) _ _ Hr) as (mb1 & -> & Hr1).
  cbn [queue dc_buffer]. destruct (@end_represents ConnectError mb1 _ Hr1) as (mb2 & -> & _ & Hr2).
  eexists. split; [reflexivity|]. split; [done|]. split; [done|].
  simpl. rewrite !length_app, Hl. done.
Qed.

Lemma challenge_response_ok parms chal prehash_name prehash algo_name algo :
  language parms = bs "sql" ->
  find_algo (prehash_algo chal) = Some (prehash_name, prehash) ->
  find_algo (response_algos chal) = Some (algo_name, algo) ->
  let limit := sql_handshake_option_level chal in
  let wanted := wanted_settings parms (seconds_of parms) in
  exists delayed,
    challenge_response digest hex_encode local_offset process_info PUBLIC_NAME parms chal =
      Ok (join x3a (response_fields parms chal algo_name prehash algo
                    ++ [join x2c (options_of limit wanted); []]),
          session parms limit (seconds_of parms)
            (ServerState_new prehash_name (endian chal)
               (Z.min (binary chal) (connect_binary parms)) (max_response_size parms)),
          delayed) /\
    queued delayed 0 (commands_of limit wanted ++ schema_lines parms ++ info_lines parms chal).
Proof.
  intros Hsql Hpre Halgo limit wanted. unfold challenge_response. rewrite Hpre, Halgo.
  assert ((if bool_decide (server_type chal = bs "merovingian") then (bs "merovingian", [])
           else (user parms, password parms)) = account parms chal) as ->.
  { unfold account. case_bool_decide; case_decide; done. }
  destruct (account parms chal) as [u pw] eqn:Eacc. cbn [ok_or res_bind].
  set (text := endian_text NATIVE ++ _). set (state := ServerState_new _ _ _ _).
  destruct (handshake_settings_spec parms limit (seconds_of parms) prehash_name (endian chal)
    (Z.min (binary chal) (connect_binary parms)) (max_response_size parms) text
    (MkHandshake text [] delayed_new)) as (h1 & E1 & H1).
  { unfold arranged. simpl. rewrite app_nil_r. split; [done|]. split; [done|]. apply queued_new. }
  destruct H1 as (Hr1 & _ & Hq1).
  destruct (info_queued parms chal _ (MkHandshake (response h1 ++ bs ":") (sep h1) (queue h1)) Hq1)
    as (h3 & E3 & Hr3 & Hq3).
  exists (queue h3). split; [|by rewrite <- app_assoc in Hq3].
  fold (seconds_of parms). fold limit.
  match goal with |- context [sbind ?m ?k ?s] =>
    assert (sbind m k s = (Ok (session parms limit (seconds_of parms) state), h3)) as -> end.
  { rewrite bool_decide_true by done. etransitivity; [eapply sbind_run; exact E1|]. cbv beta.
    etransitivity; [eapply sbind_run; reflexivity|]. cbv beta.
    etransitivity; [eapply sbind_run|reflexivity].
    exact E3. }
  cbn [res_bind]. do 3 f_equal. rewrite Hr3. cbn [response]. rewrite Hr1.
  unfold response_fields. rewrite Eacc. subst text. cbn [app join fst snd].
  rewrite <- !app_assoc. reflexivity.
Qed.

(** What an answer to a challenge is, in a session of SQL. *)
Lemma challenge_response_session parms chal text state delayed :
  language parms = bs "sql" ->
  challenge_response digest hex_encode local_offset process_info PUBLIC_NAME parms chal =
    Ok (text, state, delayed) ->
  let limit := sql_handshake_option_level chal in
  (exists e b algo, state = session parms limit (seconds_of parms)
     (ServerState_new algo e b (max_response_size parms))) /\
  queued delayed 0 (commands_of limit (wanted_settings parms (seconds_of parms))
    ++ schema_lines parms ++ info_lines parms chal).
Proof.
  intros Hsql E limit.
  destruct (find_algo (prehash_algo chal)) as [[pn p]|] eqn:Ep.
  2: { unfold challenge_response in E. rewrite Ep in E. by destruct (bool_decide _). }
  destruct (find_algo (response_algos chal)) as [[an a]|] eqn:Ea.
  2: { unfold challenge_response in E. rewrite Ep, Ea in E. by destruct (bool_decide _). }
  destruct (challenge_response_ok parms chal pn p an a Hsql Ep Ea) as (d & E' & Hq).
  rewrite E' in E. injection E as _ <- <-. split; [by repeat eexists|done].
Qed.

(** C31: The handshake conveys every session setting exactly once.  When both
    hash algorithms are known, the response is the fields of the login line,
    with the password hashed with the salt, followed by the wanted settings
    that the server takes in the handshake; the settings that it does not take,
    the schema and the client information are queued as commands, in that
    order; and the session state that the client assumes is the one that these
    settings lead to. *)
Theorem handshake_conveys_settings parms chal prehash_name prehash algo_name algo :
  language parms = bs "sql" ->
  find_algo (prehash_algo chal) = Some (prehash_name, prehash) ->
  find_algo (response_algos chal) = Some (algo_name, algo) ->
  let limit := sql_handshake_option_level chal in
  let wanted := wanted_settings parms (seconds_of parms) in
  exists delayed,
    challenge_response digest hex_encode local_offset process_info PUBLIC_NAME parms chal =
      Ok (join x3a (response_fields parms chal algo_name prehash algo
                    ++ [join x2c (options_of limit wanted); []]),
          session parms limit (seconds_of parms)
            (ServerState_new prehash_name (endian chal)
               (Z.min (binary chal) (connect_binary parms)) (max_response_size parms)),
          delayed) /\
    queued delayed 0 (commands_of limit wanted ++ schema_lines parms ++ info_lines parms chal).
Proof. apply challenge_response_ok. Qed.

End Handshake.

Definition sample_validated : Validated :=
  MkValidated (bs "demo") false (bs "monetdb") (bs "secret") true [] (bs "sql") 200 (Some 2500)
    (bs "s") true [] [] [] (Some 3600) true (bs "/tmp/.s.monetdb.50000") (bs "localhost") 50000
    Off [] [] [] 65535 (Some 30) None (Some 60) None (2 ^ 30).

Definition sample_challenge : Challenge :=
  MkChallenge (bs "salt") (bs "mserver") (bs "RIPEMD160,SHA512") Lit (bs "SHA512") 3 1 false.

(** The hash functions stand for themselves here: the text is not hashed. *)
Lemma handshake_conveys_settings_witness :
  exists delayed,
    challenge_response (fun _ s => s) (fun s => s) 0 (MkClientInfo [] [] [] [] 1) (bs "monetdb-rust")
        sample_validated sample_challenge =
      Ok (bs "LIT:monetdb:{RIPEMD160}secretsalt:sql:demo:FILETRANS:reply_size=200:",
          MkState true 200 3600 None (bs "SHA512") Lit 1 (2 ^ 30), delayed) /\
    queued delayed 0
      [bs "Xsizeheader 1" ++ [x0a];
       bs "sSET TIME ZONE INTERVAL '+01:00' HOUR TO MINUTE;" ++ [x0a];
       bs "sSET SCHEMA " ++ [x22] ++ bs "s" ++ [x22] ++ bs ";" ++ [x0a]].
Proof.
  apply (handshake_conveys_settings (fun _ s => s) (fun s => s) 0 (MkClientInfo [] [] [] [] 1)
    (bs "monetdb-rust") sample_validated sample_challenge (bs "SHA512") Sha512
    (bs "RIPEMD160") Ripemd160); reflexivity.
Defined.

(** ** Lemmas: redirects *)

Section Tls.
Context {World S Tcp Unix Addr : Type} `{!Net World S Tcp Unix Addr}.
Context `{!Read S} `{!Write S} (fuel : nat).
Context (Url_parse : bytes -> bytes + Url) (representable : Z -> bool).

(** What counts as a protected socket: at least those that the TLS library
    returns. *)
Context (secure : S -> Prop).
Context (tls_wrap_secure : forall v s w s' w', tls_wrap v s w = (inl s', w') -> secure s').

Lemma connect_socket_secure self v deadline (w w' : World) s :
  wf self -> validate representable self = Ok v -> tls v = true ->
  connect_socket fuel v deadline w = (Ok s, w') -> secure s.
Proof.
  intros Hwf Hv Ht. destruct (tls_policy_holds _ _ _ Hwf Hv) as (_ & Hp & _).
  destruct (Hp Ht) as (Hu & Htcp & _). unfold connect_socket. rewrite Hu.
  change (negb (is_empty [])) with false. unfold sbind at 1, sret at 1.
  rewrite (proj2 (is_empty_false _) Htcp). cbn [negb].
  intros (r & w1 & _ & H)%sbind_ok. destruct r as [s1|e]; [|done].
  unfold wrap_tls in H. rewrite Ht in H. cbn [negb] in H.
  destruct (tls_wrap v s1 w1) as [[s2|e] w2] eqn:E; [|done]. injection H as <- _.
  by eapply tls_wrap_secure.
Qed.

Lemma apply_redirect_keeps self v url self' :
  wf self -> validate representable self = Ok v ->
  apply_redirect Url_parse representable self url = Ok self' ->
  wf self' /\ (tls v = true -> exists v', validate representable self' = Ok v' /\ tls v' = true).
Proof.
  intros Hwf Hv. unfold apply_redirect, validate_parms. rewrite Hv. cbn [res_map_err res_bind].
  intros (p & Hp & H)%res_bind_ok. unfold with_parm in Hp.
  destruct (apply_url_keeps Url_parse url self Hwf) as [(e & E)|(p' & E & Hw & _)];
    rewrite E in Hp; [done|]. injection Hp as <-.
  destruct (tls v).
  - apply res_bind_ok in H as (v' & Hv' & H). destruct (tls v') eqn:Et; [|done].
    injection H as <-. split; [done|]. intros _. exists v'. split; [|done].
    destruct (validate representable p'); simpl in Hv'; [by injection Hv' as ->|done..].
  - injection H as <-. split; [done|]. discriminate.
Qed.

Context (f g : Validated -> comp S ConnectError (Login * DelayedCommands)).
Context (fg_agree : forall v s, secure s -> f v s = g v s).
Context (f_keeps : forall v s r s', secure s -> f v s = (r, s') -> secure s').

Lemma establish_loop_agree budget deadline self v restarted (w : World) :
  wf self -> validate representable self = Ok v -> tls v = true ->
  (forall s, restarted = Some s -> secure s) ->
  establish_loop fuel Url_parse representable f budget deadline self restarted w =
  establish_loop fuel Url_parse representable g budget deadline self restarted w.
Proof.
  revert self v restarted w. induction budget as [|budget IH];
    intros self v restarted w Hwf Hv Ht Hs; [done|]. cbn [establish_loop].
  assert (validate_parms representable self = Ok v) as -> by (unfold validate_parms; by rewrite Hv).
  unfold sbind, slift.
  destruct ((match restarted with Some s => sret s | None => connect_socket fuel v deadline end) w)
    as [[s|e| |] w1] eqn:Es; try done.
  assert (secure s) as Hsec.
  { destruct restarted as [s0|].
    - injection Es as <- _. by apply Hs.
    - by eapply connect_socket_secure. }
  rewrite <- (fg_agree v s Hsec). destruct (f v s) as [r s'] eqn:Ef.
  apply f_keeps in Ef; [|done].
  destruct r as [[login delayed]|e| |]; try done.
  destruct login as [url| |state]; [| |done].
  - destruct (apply_redirect Url_parse representable self url) as [self'|e| |] eqn:Er; try done.
    destruct (apply_redirect_keeps _ _ _ _ Hwf Hv Er) as [Hw' Hv'].
    destruct (Hv' Ht) as (v' & Hv1 & Ht1). by eapply IH.
  - eapply IH; [done..|]. by intros s0 [= <-].
Qed.

(** C16: With TLS asked for, nothing is ever said to the server in the clear,
    not even after redirects: what the login operation does on a socket that is
    not protected has no influence.  Any two login operations that behave alike
    on protected sockets, and that leave a protected socket protected, lead to
    the same connection, the same error and the same traffic; [secure] may be
    any class of sockets that holds those the TLS library hands out. *)
Theorem tls_never_downgraded parms v (w : World) :
  wf parms -> validate representable parms = Ok v -> tls v = true ->
  establish_connection fuel Url_parse representable f parms w =
  establish_connection fuel Url_parse representable g parms w.
Proof.
  intros Hwf Hv Ht. unfold establish_connection.
  assert (validate_parms representable parms = Ok v) as -> by (unfold validate_parms; by rewrite Hv).
  unfold deadline_new, sbind, slift, sret. destruct (now w) as [t w1]. by eapply establish_loop_agree.
Qed.

End Tls.

(** A network for the witness: a socket knows only whether it is protected. *)
#[local] Instance bool_net : Net unit bool unit unit unit := {|
  now w := (0, w);
  spawn_error w := (None, w);
  unix_connect _ _ w := (Finished (inl tt), w);
  resolve _ _ _ w := (Finished (inl [tt]), w);
  tcp_connect _ _ w := (inl tt, w);
  from_unix _ _ _ w := (inl false, w);
  from_tcp _ _ _ w := (inl false, w);
  tls_wrap _ _ w := (inl true, w);
  apply_deadline _ s := s
|}.

#[local] Instance bool_read : Read bool := fun _ s => (Ok [], s).
#[local] Instance bool_write : Write bool :=
  {| write d s := (Ok (length d), s); write_vectored ds s := (Ok (length (concat ds)), s) |}.

(** A login that redirects to a server without TLS, and one that hangs on
    unprotected sockets. *)
Definition redirecting : Validated -> comp bool ConnectError (Login * DelayedCommands) :=
  fun _ s => (Ok (Redirect (bs "monetdb://other"), delayed_new), s).

Definition stuck_in_clear : Validated -> comp bool ConnectError (Login * DelayedCommands) :=
  fun v s => if s then redirecting v s else (NoFuel, s).

Lemma tls_never_downgraded_witness :
  let parse _ := inr (MkUrl [] None (Some (Domain (bs "other"))) (Some (bs "other")) None [] None None []) in
  let parms := store Parm.Tls (Bool true) DEFAULT_PARAMETERS in
  establish_connection 5 parse (fun _ => true) stuck_in_clear parms tt = (Err TlsDowngrade, tt) /\
  establish_connection 5 parse (fun _ => true) redirecting parms tt = (Err TlsDowngrade, tt).
Proof.
  intros parse parms. assert (wf parms) as Hwf by (apply wf_store; [apply wf_default|reflexivity]).
  assert (establish_connection 5 parse (fun _ => true) redirecting parms tt =
          establish_connection 5 parse (fun _ => true) stuck_in_clear parms tt) as E.
  { eapply (tls_never_downgraded 5 parse (fun _ => true) (fun s => s = true)).
    - intros. by simplify_eq/=.
    - by intros ? s ->.
    - intros v s r s' Hs [= <- <-]. exact Hs.
    - exact Hwf.
    - vm_compute. reflexivity.
    - reflexivity. }
  rewrite <- E. split; vm_compute; reflexivity.
Defined.
