(* ===== verification/Tls.v ===== *)
(** * TLS (src/framing/tls/rustls.rs)

    How a connection is protected: which certificates of the server are accepted,
    what the client presents, and the stream that is put around the socket.  The
    rustls library, its platform verifier, the PEM reader and the digests are
    parameters; what the file decides itself is which of them it asks for. *)

From Stdlib Require Import ZArith Lia.
From S2P Require Import Prelude Bytes Errors Parms Validate ServerSock Login.

Open Scope Z_scope.

(** ** Configurations *)

(** How the certificate of the server is verified. *)
Inductive Verifier (Cert : Type) :=
| PlatformVerifier
| RootCertificates (roots : list Cert)
| HashVerifier (required_prefix : bytes).
Arguments PlatformVerifier {Cert}.
Arguments RootCertificates {Cert}.
Arguments HashVerifier {Cert}.

Inductive protocol_version := TLS12 | TLS13.

Record ClientConfig (Cert Key : Type) := MkConfig {
  protocol_versions : list protocol_version;
  verifier : Verifier Cert;
  client_auth : option (list Cert * Key);
  alpn_protocols : list bytes
}.
Arguments MkConfig {Cert Key}.
Arguments protocol_versions {Cert Key}.
Arguments verifier {Cert Key}.
Arguments client_auth {Cert Key}.
Arguments alpn_protocols {Cert Key}.

(** The library.  [World] is the state of the file system and of the library; an
    error is the text that it shows. *)
Class Rustls (World S Cert Key Name Client : Type) := {
  platform_verifier : World -> option bytes * World;
  pem_file_iter : bytes -> World -> (list (Cert + bytes) + bytes) * World;
  pem_key : bytes -> World -> (Key + bytes) * World;
  roots_add : Cert -> option bytes;
  check_client_auth : list Cert -> Key -> option bytes;
  server_name : bytes -> Name + bytes;
  client_new : ClientConfig Cert Key -> Name -> World -> (Client + bytes) * World;
  stream_owned : Client -> S -> S
}.

Section Tls.
Context {World S Cert Key Name Client : Type} `{!Rustls World S Cert Key Name Client}.

(** [{:?}] of a path. *)
Context (debug : bytes -> bytes).

Notation tcomp := (comp World bytes).

Definition of_sum {A} (r : A + bytes) : res bytes A :=
  match r with inl a => Ok a | inr e => Err e end.

Definition call {A} (m : World -> (A + bytes) * World) : tcomp A := fun w =>
  let '(r, w') := m w in (of_sum r, w').

Definition check {A} (a : A) (failure : option bytes) : res bytes A :=
  match failure with None => Ok a | Some e => Err e end.

(** [collect] of results: the values, or the first error. *)
Fixpoint collect (l : list (Cert + bytes)) : res bytes (list Cert) :=
  match l with
  | [] => Ok []
  | inl c :: rest => let? cs := collect rest in Ok (c :: cs)
  | inr e :: _ => Err e
  end.

Definition load_certificates (path : bytes) : tcomp (list Cert) :=
  do? items := call (pem_file_iter path) in
  do? certificates := slift (collect items) in
  match certificates with
  | [] => sfail (bs "certificate file " ++ debug path ++ bs " contains no certificates")
  | _ :: _ => sret certificates
  end.

Fixpoint add_roots (roots certificates : list Cert) : res bytes (list Cert) :=
  match certificates with
  | [] => Ok roots
  | c :: rest => let? c := check c (roots_add c) in add_roots (roots ++ [c]) rest
  end.

Definition load_roots (path : bytes) : tcomp (list Cert) :=
  do? certificates := load_certificates path in slift (add_roots [] certificates).

Definition load_private_key (path : bytes) : tcomp Key := call (pem_key path).

(** The match on [connect_tls_verify]. *)
Definition choose_verifier (parms : Validated) : tcomp (Verifier Cert) :=
  match connect_tls_verify parms with
  | System =>
      do! (fun w => let '(e, w') := platform_verifier w in (check tt e, w')) in
      sret PlatformVerifier
  | Validate.Cert => do? roots := load_roots (cert parms) in sret (RootCertificates roots)
  | Hash => sret (HashVerifier (connect_certhash_digits parms))
  | Off => sfail (bs "TLS verification mode is off")
  end.

Definition choose_client_auth (parms : Validated) : tcomp (option (list Cert * Key)) :=
  if is_empty (connect_clientkey parms) then sret None
  else
    do? certificates := load_certificates (connect_clientcert parms) in
    do? key := load_private_key (connect_clientkey parms) in
    slift (check (Some (certificates, key)) (check_client_auth certificates key)).

Definition wrap_inner (parms : Validated) (sock : S) : tcomp S :=
  do? verifier := choose_verifier parms in
  do? auth := choose_client_auth parms in
  let config := MkConfig [TLS13] verifier auth [bs "mapi/9"] in
  do? name := slift (of_sum (server_name (connect_tcp parms))) in
  do? client := call (client_new config name) in
  sret (stream_owned client sock).

(** The result of [wrap_with_rustls], as [wrap_tls] of [Login] takes it. *)
Definition wrap_with_rustls (parms : Validated) (sock : S) (w : World)
    : res ConnectError S * World :=
  let '(r, w') := wrap_inner parms sock w in (res_map_err TlsError r, w').

(** *** Pinned certificates *)

Context (digest : Algo -> bytes -> bytes) (hex_encode : bytes -> bytes) (der : Cert -> bytes).

(** [HashVerifier::verify_server_cert]. *)
Definition verify_server_cert (required_prefix : bytes) (end_entity : Cert) : bool :=
  starts_with required_prefix (hex_encode (digest Login.Sha256 (der end_entity))).

(** ** Theorem *)

(** The file [path] holds the certificates [certs], at least one. *)
Definition certificates_of (path : bytes) (certs : list Cert) : Prop :=
  certs <> [] /\ exists w w', pem_file_iter path w = (inl (inl <$> certs), w').

Lemma collect_ok l certs : collect l = Ok certs -> l = inl <$> certs.
Proof.
  revert certs. induction l as [|[c|e] l IH]; intros certs; simpl; [by intros [= <-]| |done].
  intros (cs & E & [= <-])%res_bind_ok. by rewrite (IH cs).
Qed.

Lemma load_certificates_ok path w certs w' :
  load_certificates path w = (Ok certs, w') -> certificates_of path certs.
Proof.
  intros (items & w1 & E1 & (l & w2 & E2 & E)%sbind_ok)%sbind_ok.
  unfold slift in E2. injection E2 as E2 <-. apply collect_ok in E2 as ->.
  destruct l as [|c l]; [done|]. injection E as <- _. split; [done|].
  unfold call, of_sum in E1. destruct (pem_file_iter path w) as [[its|e] w3] eqn:Ep; [|done].
  injection E1 as -> ->. eauto.
Qed.

Lemma add_roots_ok certs roots out : add_roots roots certs = Ok out -> out = roots ++ certs.
Proof.
  revert roots. induction certs as [|c certs IH]; intros roots; simpl.
  { intros [= <-]. by rewrite app_nil_r. }
  intros (c' & E & H)%res_bind_ok. unfold check in E. destruct (roots_add c); [done|].
  injection E as <-. apply IH in H as ->. by rewrite <- app_assoc.
Qed.

(** What a protected connection to the server rests on, in terms of the parameters. *)
Definition server_policy (self : Parameters) (config : ClientConfig Cert Key) : Prop :=
  match verifier config with
  | HashVerifier digits =>
      pin_ok (str_of self Parm.CertHash) digits /\
      forall end_entity, verify_server_cert digits end_entity = true <->
        exists rest, hex_encode (digest Login.Sha256 (der end_entity)) = digits ++ rest
  | RootCertificates roots =>
      str_of self Parm.CertHash = [] /\ str_of self Parm.Cert <> [] /\
      certificates_of (str_of self Parm.Cert) roots
  | PlatformVerifier => str_of self Parm.CertHash = [] /\ str_of self Parm.Cert = []
  end.

Lemma validated_cert representable self v :
  wf self -> validate representable self = Ok v -> cert v = str_of self Parm.Cert.
Proof.
  intros Hwf Hval. apply (validate_ok _ _ _ Hwf) in Hval. cbv zeta in Hval.
  destruct Hval as (b & d & port & tz & t1 & t2 & t3 & t4 & k & m & l & _ & _ & _ & _ & _ & _ & _ & _
    & _ & _ & _ & _ & ->). done.
Qed.

Lemma verifier_policy representable self v w ver w' auth :
  wf self -> validate representable self = Ok v -> choose_verifier v w = (Ok ver, w') ->
  server_policy self (MkConfig [TLS13] ver auth [bs "mapi/9"]).
Proof.
  intros Hwf Hval E. destruct (tls_policy_holds _ _ _ Hwf Hval) as (_ & _ & Hhash & Hcert & Hsys).
  pose proof (validated_cert _ _ _ Hwf Hval) as Hc. unfold choose_verifier, server_policy in *.
  destruct (connect_tls_verify v); [done| | |].
  - injection E as <- _. cbn [verifier]. split; [by apply Hhash|].
    intros c. unfold verify_server_cert. apply starts_with_spec.
  - apply sbind_ok in E as (roots & w1 & El & E). injection E as <- _. cbn [verifier].
    destruct Hcert as [? ?]; [done|]. rewrite <- Hc. split; [done|]. split; [done|].
    apply sbind_ok in El as (certs & w2 & El & Ea). unfold slift in Ea. injection Ea as Ea _.
    apply add_roots_ok in Ea as ->. by eapply load_certificates_ok.
  - apply sbind_ok in E as (u & w1 & _ & E). injection E as <- _. cbn [verifier].
    destruct Hsys as [? ?]; [done|]. by rewrite <- Hc.
Qed.

Lemma client_auth_policy v w auth w' :
  choose_client_auth v w = (Ok auth, w') ->
  match auth with
  | None => connect_clientkey v = []
  | Some (certs, key) =>
      connect_clientkey v <> [] /\ certificates_of (connect_clientcert v) certs /\
      exists w2 w3, pem_key (connect_clientkey v) w2 = (inl key, w3)
  end.
Proof.
  unfold choose_client_auth. destruct (is_empty (connect_clientkey v)) eqn:Ee.
  { intros [= <- _]. by apply is_empty_spec. }
  apply is_empty_false in Ee. intros (certs & w1 & E1 & (key & w2 & E2 & E)%sbind_ok)%sbind_ok.
  unfold slift, check in E. destruct (check_client_auth certs key); [done|]. injection E as <- _.
  split; [done|]. split; [by eapply load_certificates_ok|].
  unfold load_private_key, call in E2. destruct (pem_key _ w1) as [[k|e] w3] eqn:Ek; [|done].
  injection E2 as <- _. eauto.
Qed.

(** C17: A protected connection is protected as the parameters ask.  When
    [wrap_with_rustls] gives a socket, it is a TLS 1.3 stream that offers only
    [mapi/9], to a name that is that of the configured host, and the server was
    verified in exactly one way: with a pin, by it alone, and a certificate is
    accepted exactly when its SHA-256 fingerprint begins with the 16 to 64
    digits of the pin; otherwise with a certificate file, by the certificates in
    it, at least one, and no others; otherwise by the platform.  A client
    certificate is presented exactly when a key is configured. *)
Theorem tls_follows_parameters representable self v sock (w w' : World) sock' :
  wf self -> validate representable self = Ok v -> tls v = true ->
  wrap_with_rustls v sock w = (Ok sock', w') ->
  exists config name client w1,
    client_new config name w1 = (inl client, w') /\ sock' = stream_owned client sock /\
    server_name (connect_tcp v) = inl name /\
    protocol_versions config = [TLS13] /\ alpn_protocols config = [bs "mapi/9"] /\
    server_policy self config /\
    match client_auth config with
    | None => connect_clientkey v = []
    | Some (certs, key) =>
        connect_clientkey v <> [] /\ certificates_of (connect_clientcert v) certs /\
        exists w2 w3, pem_key (connect_clientkey v) w2 = (inl key, w3)
    end.
Proof.
  intros Hwf Hval Htls. unfold wrap_with_rustls.
  destruct (wrap_inner v sock w) as [[s1|e| |] wx] eqn:E; try done. cbn [res_map_err]. intros [= <- <-].
  unfold wrap_inner in E.
  apply sbind_ok in E as (ver & wa & Ev & E). apply sbind_ok in E as (auth & wb & Ea & E).
  apply sbind_ok in E as (name & wc & En & E). apply sbind_ok in E as (client & wd & Ec & E).
  unfold slift in En. injection En as En <-. unfold sret in E. injection E as <- <-.
  unfold call in Ec. destruct (client_new _ name wb) as [[c|e] we] eqn:Ec'; [|done]. injection Ec as -> ->.
  exists (MkConfig [TLS13] ver auth [bs "mapi/9"]), name, client, wb.
  split; [done|]. split; [done|]. split; [by destruct (server_name _); simplify_eq/=|].
  split; [done|]. split; [done|].
  split.
  - eapply verifier_policy; [exact Hwf|exact Hval|exact Ev].
  - by eapply client_auth_policy.
Qed.

End Tls.

(** *** Witness *)

(** A library whose files hold one certificate, the text of their path. *)
#[local] Instance path_files : Rustls unit (bytes * bool) bytes bytes bytes bytes := {|
  platform_verifier w := (None, w);
  pem_file_iter path w := (inl [inl path], w);
  pem_key path w := (inl path, w);
  roots_add _ := None;
  check_client_auth _ _ := None;
  server_name host := inl host;
  client_new _ name w := (inl name, w);
  stream_owned _ s := (s.1, true)
|}.

Definition pinned_parms : Parameters :=
  store Parm.Tls (Bool true) (store Parm.Host (Str (bs "db"))
    (store Parm.CertHash (Str (bs "sha256:AB:cd:01:23:45:67:89:00")) DEFAULT_PARAMETERS)).

Definition pinned_v : Validated :=
  match validate (fun _ => true) pinned_parms with Ok v => v | _ => sample_validated end.

Lemma tls_follows_parameters_witness :
  exists config name client w1,
    client_new config name w1 = (inl client, tt) /\
    (bs "sock", true) = stream_owned client (bs "sock", false) /\
    server_name (bs "db") = inl name /\
    protocol_versions config = [TLS13] /\ alpn_protocols config = [bs "mapi/9"] /\
    server_policy (fun _ s => s) (fun s => s) (fun s => s) pinned_parms config.
Proof.
  destruct (tls_follows_parameters (fun s => s) (fun _ s => s) (fun s => s) (fun s => s)
    (fun _ => true) pinned_parms pinned_v (bs "sock", false) tt tt (bs "sock", true))
    as (config & name & client & w1 & H1 & H2 & H3 & H4 & H5 & H6 & _).
  - do 3 (apply wf_store; [|reflexivity]). apply wf_default.
  - vm_compute. reflexivity.
  - reflexivity.
  - reflexivity.
  - exists config, name, client, w1. exact (conj H1 (conj H2 (conj H3 (conj H4 (conj H5 H6))))).
Defined.
