(* ===== verification/Upload.v ===== *)
(** * Client-side uploads (src/cursor/upload.rs)

    The server may ask for a file in the middle of a command.  [write_fragment]
    frames data with scattered writes instead of a [MapiBuf], [StreamingUpload]
    coalesces what the producer writes into messages of a given size and reads
    the prompt after each of them, and [take_file_request] finds the request of
    the server at the end of a response. *)

From Stdlib Require Import ZArith Lia.
From S2P Require Import Prelude Bytes Blockstate IO Writing Reading Errors Replies Delayed.

Open Scope nat_scope.

Definition FILE_TRANSFER : bytes := [x01; x03; x0a].
Definition MORE : bytes := [x01; x02; x0a].
Definition SCATTER_BLOCKS_PER_WRITE : nat := 64.

(** ** Framing with vectored writes *)

(** [IoSlice::advance_slices] of the standard library. *)
Fixpoint advance_slices {E} (n : nat) (bufs : list bytes) : res E (list bytes) :=
  match bufs with
  | [] => if n =? 0 then Ok [] else Panic
  | b :: rest => if length b <=? n then advance_slices (n - length b) rest else Ok (drop n b :: rest)
  end.

Definition write_zero_upload : io_error :=
  IoError WriteZero (Message "failed to write framed upload").

Definition div_ceil (a b : nat) : nat := (a + b - 1) / b.

Section Framing.
Context {W : Type} `{!Write W}.

Fixpoint write_vectored_loop (fuel : nat) (remaining : list bytes) : comp W io_error unit := fun s =>
  match remaining with
  | [] => (Ok tt, s)
  | _ =>
      match fuel with
      | O => (NoFuel, s)
      | S fuel' =>
          match write_vectored remaining s with
          | (Ok O, s') => (Err write_zero_upload, s')
          | (Ok n, s') =>
              match advance_slices n remaining with
              | Ok rest => write_vectored_loop fuel' rest s'
              | Err e => (Err e, s')
              | Panic => (Panic, s')
              | NoFuel => (NoFuel, s')
              end
          | (Err e, s') =>
              if is_interrupted e then write_vectored_loop fuel' remaining s' else (Err e, s')
          | (Panic, s') => (Panic, s')
          | (NoFuel, s') => (NoFuel, s')
          end
      end
  end.

Definition write_all_vectored (fuel : nat) (buffers : list bytes) : comp W io_error unit :=
  do? remaining := slift (advance_slices 0 buffers) in write_vectored_loop fuel remaining.

(** [(((length as u16) << 1) | u16::from(last)).to_le_bytes()]. *)
Definition fragment_header (length : nat) (last : bool) : bytes :=
  let n := Z.lor (wrap 16 (Z.shiftl (wrap 16 (Z.of_nat length)) 1)) (Z.b2z last) in
  let '(lo, hi) := u16_to_le_bytes n in [lo; hi].

Definition block_header (data : bytes) (finish : bool) (blocks index : nat) : bytes :=
  let offset := index * BLOCKSIZE in
  let length := Nat.min (length data - offset) BLOCKSIZE in
  let last := finish && (index + 1 =? blocks) in
  fragment_header length last.

(** The header and the payload of a block. *)
Definition block_slices (data : bytes) (headers : list bytes) (index : nat) : list bytes :=
  let offset := index * BLOCKSIZE in
  let stop := Nat.min (offset + BLOCKSIZE) (length data) in
  [default [] (headers !! index); slice offset stop data].

Fixpoint write_groups (fuel : nat) (data : bytes) (headers : list bytes) (blocks : nat)
    (firsts : list nat) : comp W io_error unit :=
  match firsts with
  | [] => sret tt
  | first :: rest =>
      let last := Nat.min (first + SCATTER_BLOCKS_PER_WRITE) blocks in
      do! write_all_vectored fuel (seq first (last - first) ≫= block_slices data headers) in
      write_groups fuel data headers blocks rest
  end.

Definition io_lift {A} (m : comp W io_error A) : comp W CursorError A := fun s =>
  let '(r, s') := m s in (res_map_err cursor_of_io r, s').

Definition write_fragment (fuel : nat) (data : bytes) (finish : bool) : comp W CursorError unit :=
  if bool_decide (data = []) then
    if finish then io_lift (write_all fuel (fragment_header 0 true)) else sret tt
  else
    let blocks := div_ceil (length data) BLOCKSIZE in
    let headers := block_header data finish blocks <$> seq 0 blocks in
    let firsts :=
      (fun i => i * SCATTER_BLOCKS_PER_WRITE) <$> seq 0 (div_ceil blocks SCATTER_BLOCKS_PER_WRITE) in
    io_lift (write_groups fuel data headers blocks firsts).

End Framing.

(** ** Requests of the server *)

Definition upload_filename (request : bytes) : option bytes :=
  match strip_prefix (bs "rb ") request with
  | Some filename => Some filename
  | None =>
      match strip_prefix (bs "r 0 ") request with
      | Some filename => if is_empty filename then None else Some filename
      | None => None
      end
  end.

(** [memmem::rfind]: the position of the last occurrence of [pat]. *)
Fixpoint rfind (pat l : bytes) : option nat :=
  match l with
  | [] => if is_empty pat then Some 0 else None
  | _ :: rest =>
      match rfind pat rest with
      | Some i => Some (S i)
      | None => if starts_with pat l then Some 0 else None
      end
  end.

(** The search backwards for a marker at the start of a line, in the first
    [stop] bytes. *)
Fixpoint find_marker (fuel : nat) (response : bytes) (stop : nat) : res CursorError (option nat) :=
  match fuel with
  | O => NoFuel
  | S fuel' =>
      match rfind FILE_TRANSFER (take stop response) with
      | None => Ok None
      | Some marker =>
          if (marker =? 0) || bool_decide (response !! (marker - 1) = Some x0a) then Ok (Some marker)
          else find_marker fuel' response marker
      end
  end.

Definition take_file_request : comp bytes CursorError (option bytes) := fun response =>
  match find_marker (S (length response)) response (length response) with
  | Ok None => (Ok None, response)
  | Ok (Some marker) =>
      match strip_suffix [x0a] (drop (marker + length FILE_TRANSFER) response) with
      | None => (Err (FileTransfer [Lit "unterminated server request"]), response)
      | Some command =>
          if utf8_valid command then (Ok (Some command), take marker response)
          else (Err (FileTransfer [Lit "server request is not UTF-8"]), response)
      end
  | Err e => (Err e, response)
  | Panic => (Panic, response)
  | NoFuel => (NoFuel, response)
  end.

(** ** The streaming upload *)

Inductive UploadOutcome (S : Type) :=
| Complete (sock : S)
| ServerResponse (sock : S) (response : bytes).
Arguments Complete {S}.
Arguments ServerResponse {S}.

Record StreamingUpload (S : Type) := MkUpload {
  u_sock : option S;
  upload_chunk_size : nat;
  u_max_response_size : nat;
  u_pending : bytes;
  u_started : bool;
  u_outcome : option (UploadOutcome S)
}.
Arguments MkUpload {S}.
Arguments u_sock {S}.
Arguments upload_chunk_size {S}.
Arguments u_max_response_size {S}.
Arguments u_pending {S}.
Arguments u_started {S}.
Arguments u_outcome {S}.

Section Upload.
Context {S : Type} `{!Read S} `{!Write S} (fuel : nat) (sizes : nat -> nat).

Notation ucomp := (comp (StreamingUpload S) CursorError).

Definition upload_new (sock : S) (chunk_size max_response_size : nat) : StreamingUpload S :=
  MkUpload (Some sock) chunk_size max_response_size [] false None.

Definition set_u_sock (s : option S) : ucomp unit := fun u =>
  (Ok tt, MkUpload s (upload_chunk_size u) (u_max_response_size u) (u_pending u) (u_started u)
            (u_outcome u)).
Definition set_u_pending (p : bytes) : ucomp unit := fun u =>
  (Ok tt, MkUpload (u_sock u) (upload_chunk_size u) (u_max_response_size u) p (u_started u)
            (u_outcome u)).
Definition set_u_started : ucomp unit := fun u =>
  (Ok tt, MkUpload (u_sock u) (upload_chunk_size u) (u_max_response_size u) (u_pending u) true
            (u_outcome u)).
Definition set_u_outcome (o : option (UploadOutcome S)) : ucomp unit := fun u =>
  (Ok tt, MkUpload (u_sock u) (upload_chunk_size u) (u_max_response_size u) (u_pending u)
            (u_started u) o).

(** An operation on a socket that has been taken out: its result and the socket. *)
Definition with_taken {A} (m : comp S CursorError A) (sock : S) : ucomp (A * S) := fun u =>
  let '(r, s') := m sock in (let? a := r in Ok (a, s'), u).

Definition into_socket (u : StreamingUpload S) : res CursorError S := ok_or (u_sock u) Closed.

Definition take_outcome : ucomp (option (UploadOutcome S)) :=
  do? u := sget in do! set_u_outcome None in sret (u_outcome u).

Definition start : ucomp unit :=
  do? u := sget in
  if u_started u then sret tt
  else
    match u_sock u with
    | None => sfail Closed
    | Some sock =>
        do! (fun u => let '(r, s') := write_fragment fuel [x0a] false sock in
                      let '(_, u') := set_u_sock (Some s') u in (r, u')) in
        set_u_started
    end.

Definition send_message (data : bytes) : ucomp unit :=
  do? u := sget in
  match u_sock u with
  | None => sfail Closed
  | Some sock =>
      do! set_u_sock None in
      do? (_, sock) := with_taken (write_fragment fuel data true) sock in
      do? (prompt, sock) :=
        with_taken (io_lift (to_limited fuel sizes [] (u_max_response_size u))) sock in
      if bool_decide (prompt = MORE) then set_u_sock (Some sock)
      else if bool_decide (prompt = FILE_TRANSFER) then set_u_outcome (Some (Complete sock))
      else set_u_outcome (Some (ServerResponse sock prompt))
  end.

(** The buffer is given back and cleared whether or not the message was sent. *)
Definition flush_pending : ucomp unit :=
  do? u := sget in
  if is_empty (u_pending u) then sret tt
  else fun u => let '(r, u') := send_message (u_pending u) u in
                let '(_, u'') := set_u_pending [] u' in (r, u'').

Definition eof_refused : CursorError :=
  FileTransfer [Lit "server requested data after upload EOF"].

(** Return the outcome when there is one, otherwise go on. *)
Definition or_outcome (m : ucomp (UploadOutcome S)) : ucomp (UploadOutcome S) :=
  do? o := take_outcome in
  match o with Some outcome => sret outcome | None => m end.

Definition upload_finish : ucomp (UploadOutcome S) :=
  or_outcome (
    do! flush_pending in
    or_outcome (
      do! start in
      do! send_message [] in
      or_outcome (
        do! send_message [] in
        do? o := take_outcome in
        slift (ok_or o eof_refused)))).

Definition upload_outcome_signal : CursorError := UploadComplete.

(** The loop of [write_chunk] over whole messages; [n] bounds the rounds. *)
Fixpoint write_whole (n : nat) (target : nat) (data : bytes) : ucomp unit :=
  if length data <? target then
    do? u := sget in set_u_pending (u_pending u ++ data)
  else
    match n with
    | O => fun u => (NoFuel, u)
    | Datatypes.S n' =>
        let chunk := take target data in
        let remaining := drop target data in
        do! send_message chunk in
        do? u := sget in
        match u_outcome u with
        | Some _ => if is_empty remaining then sret tt else sfail upload_outcome_signal
        | None => write_whole n' target remaining
        end
    end.

(** Fill up the pending message; the rest of the data is returned. *)
Definition fill_pending (target : nat) (data : bytes) : ucomp bytes :=
  do? u := sget in
  if is_empty (u_pending u) then sret data
  else
    do! slift (rassert (length (u_pending u) <=? target)) in
    let needed := target - length (u_pending u) in
    let split := Nat.min needed (length data) in
    do! set_u_pending (u_pending u ++ take split data) in
    let data := drop split data in
    do? u := sget in
    do! (if length (u_pending u) =? target then
           do! flush_pending in
           do? u := sget in
           if negb (is_empty data) && bool_decide (is_Some (u_outcome u))
           then sfail upload_outcome_signal else sret tt
         else sret tt) in
    sret data.

Definition write_chunk (data : bytes) : ucomp unit :=
  if is_empty data then sret tt
  else
    do? u := sget in
    match u_outcome u with
    | Some _ => sfail upload_outcome_signal
    | None =>
        do! start in
        let target := upload_chunk_size u in
        do? data := fill_pending target data in
        write_whole (Datatypes.S (length data)) target data
    end.

(** A producer that writes these chunks. *)
Fixpoint write_chunks (chunks : list bytes) : ucomp unit :=
  match chunks with
  | [] => sret tt
  | c :: rest => do! write_chunk c in write_chunks rest
  end.

(** [refuse_upload]; [to_string] renders an error. *)
Definition refuse_upload (to_string : CursorError -> bytes) (error : CursorError)
    : comp S CursorError unit :=
  let message :=
    (fun c => if bool_decide (c = x0d) || bool_decide (c = x0a) then x20 else c)
      <$> to_string error in
  write_fragment fuel (message ++ [x0a]) true.

End Upload.

(** ** Lemmas: framing *)

(** [fragment w p]: the bytes [w] are blocks that carry [p], none of them the last
    block of its message. *)
Inductive fragment : bytes -> bytes -> Prop :=
| fragment_nil : fragment [] []
| fragment_cons c w p :
    length c <= BLOCKSIZE -> fragment w p ->
    fragment (hdr (length c) false ++ c ++ w) (c ++ p).

Lemma fragment_message w1 p1 w2 p2 :
  fragment w1 p1 -> message w2 p2 -> message (w1 ++ w2) (p1 ++ p2).
Proof.
  induction 1 as [|c w p Hc _ IH]; intros Hm; [done|].
  rewrite <- !app_assoc. apply message_more; auto.
Qed.

Lemma fragment_header_hdr len last : len <= BLOCKSIZE -> fragment_header len last = hdr len last.
Proof.
  intros Hl. pose proof BLOCKSIZE_Z.
  assert (Z.lor (wrap 16 (Z.shiftl (wrap 16 (Z.of_nat len)) 1)) (Z.b2z last) =
    2 * Z.of_nat len + Z.b2z last)%Z as Hn.
  { unfold wrap. rewrite Z.shiftl_mul_pow2, Z.mul_comm by lia.
    rewrite (Z.mod_small (Z.of_nat len)) by lia. rewrite (Z.mod_small (_ * _)) by lia.
    destruct (Z.of_nat len) as [|p|p] eqn:E; [by destruct last|by destruct last|lia]. }
  unfold fragment_header. rewrite Hn. with_strategy transparent [hdr] unfold hdr. done.
Qed.

Lemma advance_slices_ok E n bufs :
  n <= length (concat bufs) ->
  exists rest, @advance_slices E n bufs = Ok rest /\ concat rest = drop n (concat bufs) /\
    (rest = [] \/ concat rest <> []).
Proof.
  revert n. induction bufs as [|b bufs IH]; intros n Hn; simpl in *.
  { replace n with 0 by lia. exists []. auto. }
  rewrite length_app in Hn. destruct (Nat.leb_spec (length b) n).
  - destruct (IH (n - length b)) as (rest & -> & Hr & Hne); [lia|]. exists rest.
    split; [done|]. split; [|done]. by rewrite drop_app_ge.
  - exists (drop n b :: bufs). split; [done|]. simpl. rewrite drop_app_le by lia. split; [done|].
    right. intros Hz%(f_equal length). rewrite length_app, length_drop in Hz. simpl in Hz. lia.
Qed.

Section FramingLemmas.
Context {W : Type} `{WriteLaws W}.

Lemma write_vectored_loop_ok fuel remaining (s : W) :
  wreliable s -> wpatience s + length (concat remaining) < fuel ->
  remaining = [] \/ concat remaining <> [] ->
  exists s', write_vectored_loop fuel remaining s = (Ok tt, s') /\
    written s' = written s ++ concat remaining /\ wpatience s' <= wpatience s /\ wreliable s'.
Proof.
  revert remaining s. induction fuel as [|fuel IH]; intros remaining s Hr Hf Hne; [lia|].
  destruct remaining as [|b bufs] eqn:Eb; cbn [write_vectored_loop].
  { exists s. by rewrite app_nil_r. }
  destruct Hne as [?|Hne]; [done|]. rewrite <- Eb in *. clear Eb b bufs.
  pose proof (write_vectored_returns remaining s) as Hret.
  destruct (write_vectored remaining s) as [[n|e| |] s1] eqn:E; try done.
  - apply write_vectored_ok in E as (Hn & Hw & Hpat & Hrel).
    destruct (Hrel Hr) as [Hr1 Hn0]. specialize (Hn0 Hne).
    destruct (advance_slices_ok io_error n remaining Hn) as (rest & Ea & Hc & Hne').
    destruct n as [|n]; [done|]. rewrite Ea.
    destruct (IH rest s1 Hr1) as (s' & E' & Hw' & Hp' & Hr'); [|done|].
    { rewrite Hc, length_drop. lia. }
    exists s'. split; [done|]. rewrite Hw', Hw, Hc, <- app_assoc, take_drop. repeat split; [lia|done].
  - apply write_vectored_err in E as (Hw & Hpat & Hi & Hrel). destruct (Hrel Hr) as [Hei Hr1].
    rewrite Hei. specialize (Hi Hei).
    destruct (IH remaining s1 Hr1) as (s' & E' & Hw' & Hp' & Hr'); [lia|by right|].
    exists s'. split; [done|]. rewrite Hw', Hw. repeat split; [lia|done].
Qed.

Lemma write_all_vectored_ok fuel buffers (s : W) :
  wreliable s -> wpatience s + length (concat buffers) < fuel ->
  exists s', write_all_vectored fuel buffers s = (Ok tt, s') /\
    written s' = written s ++ concat buffers /\ wpatience s' <= wpatience s /\ wreliable s'.
Proof.
  intros Hr Hf. unfold write_all_vectored.
  destruct (advance_slices_ok io_error 0 buffers) as (rest & Ea & Hc & Hne); [lia|].
  rewrite drop_0 in Hc. rewrite (sbind_run _ _ s rest s) by (unfold slift; by rewrite Ea).
  rewrite <- Hc in *. by apply write_vectored_loop_ok.
Qed.

Lemma write_groups_ok fuel data headers blocks firsts (s : W) :
  let all := firsts ≫= fun first =>
    seq first (Nat.min (first + SCATTER_BLOCKS_PER_WRITE) blocks - first)
      ≫= block_slices data headers in
  wreliable s -> wpatience s + length (concat all) < fuel ->
  exists s', write_groups fuel data headers blocks firsts s = (Ok tt, s') /\
    written s' = written s ++ concat all /\ wpatience s' <= wpatience s /\ wreliable s'.
Proof.
  revert s. induction firsts as [|first firsts IH]; intros s all Hr Hf; cbn [write_groups].
  { exists s. by rewrite app_nil_r. }
  subst all. cbn [mbind list_bind] in *. rewrite concat_app, length_app in Hf.
  destruct (write_all_vectored_ok fuel (seq first
    (Nat.min (first + SCATTER_BLOCKS_PER_WRITE) blocks - first) ≫= block_slices data headers) s Hr)
    as (s1 & E1 & Hw1 & Hp1 & Hr1); [unfold mbind in *; lia|].
  unfold sbind. rewrite E1.
  destruct (IH s1 Hr1) as (s' & E' & Hw' & Hp' & Hr'); [unfold mbind in *; lia|].
  exists s'. split; [done|]. rewrite Hw', Hw1, <- app_assoc, concat_app. repeat split; [lia|done].
Qed.

End FramingLemmas.

Lemma div_ceil_spec a b : 0 < b -> 0 < a ->
  0 < div_ceil a b /\ (div_ceil a b - 1) * b < a <= div_ceil a b * b.
Proof.
  intros Hb Ha. unfold div_ceil. pose proof (Nat.div_mod_eq (a + b - 1) b) as E.
  pose proof (Nat.mod_upper_bound (a + b - 1) b ltac:(lia)).
  set (q := (a + b - 1) / b) in *. assert (0 < q) by (destruct q; lia). nia.
Qed.

(** The groups of blocks, one after the other, are all the blocks. *)
Lemma groups_cover blocks g :
  ((fun i => i * SCATTER_BLOCKS_PER_WRITE) <$> seq 0 g) ≫=
    (fun first => seq first (Nat.min (first + SCATTER_BLOCKS_PER_WRITE) blocks - first)) =
  seq 0 (Nat.min (g * SCATTER_BLOCKS_PER_WRITE) blocks).
Proof.
  induction g as [|g IH]; [done|].
  rewrite seq_S, fmap_app, bind_app, IH. cbn [fmap list_fmap mbind list_bind app Nat.add].
  rewrite app_nil_r. set (K := SCATTER_BLOCKS_PER_WRITE).
  destruct (decide (g * K <= blocks)) as [Hle|Hgt].
  - replace (Nat.min (g * K) blocks) with (g * K) by lia.
    replace (Nat.min (S g * K) blocks) with (g * K + (Nat.min (g * K + K) blocks - g * K)) by lia.
    by rewrite seq_app.
  - replace (Nat.min (g * K + K) blocks - g * K) with 0 by lia.
    rewrite app_nil_r. f_equal. lia.
Qed.

Lemma bind_assoc {A B C} (l : list A) (f : A -> list B) (g : B -> list C) :
  (l ≫= fun a => f a ≫= g) = (l ≫= f) ≫= g.
Proof. induction l as [|a l IH]; [done|]. simpl. rewrite bind_app. f_equal. exact IH. Qed.

Section Blocks.
Context (data : bytes) (finish : bool) (Hdata : data <> []).

Notation blocks := (div_ceil (length data) BLOCKSIZE).
Notation headers := (block_header data finish blocks <$> seq 0 blocks).

(** The bytes of the blocks from [i] on. *)
Definition blocks_from (i : nat) : bytes :=
  concat (seq i (blocks - i) ≫= block_slices data headers).

Lemma blocks_bounds :
  0 < blocks /\ (blocks - 1) * BLOCKSIZE < length data <= blocks * BLOCKSIZE.
Proof.
  apply div_ceil_spec; [apply BLOCKSIZE_pos|].
  assert (length data <> 0) by (by intros ?%nil_length_inv). lia.
Qed.

Lemma blocks_from_step i :
  i < blocks ->
  blocks_from i =
    block_header data finish blocks i ++
    slice (i * BLOCKSIZE) (Nat.min (i * BLOCKSIZE + BLOCKSIZE) (length data)) data ++
    blocks_from (S i).
Proof.
  intros Hi. unfold blocks_from. replace (blocks - i) with (S (blocks - S i)) by lia.
  cbn [seq mbind list_bind]. unfold block_slices at 1. cbn [app concat].
  rewrite list_lookup_fmap, lookup_seq_lt by done. done.
Qed.

Lemma blocks_middle i :
  i + 1 < blocks ->
  block_header data finish blocks i = hdr BLOCKSIZE false /\
  drop (i * BLOCKSIZE) data =
    slice (i * BLOCKSIZE) (Nat.min (i * BLOCKSIZE + BLOCKSIZE) (length data)) data ++
    drop (S i * BLOCKSIZE) data /\
  length (slice (i * BLOCKSIZE) (Nat.min (i * BLOCKSIZE + BLOCKSIZE) (length data)) data) = BLOCKSIZE.
Proof.
  intros Hi. pose proof blocks_bounds as (_ & Hlo & _).
  assert (S i * BLOCKSIZE <= (blocks - 1) * BLOCKSIZE) by (apply Nat.mul_le_mono_r; lia).
  simpl in *. split; [|split].
  - unfold block_header. rewrite (proj2 (Nat.eqb_neq (i + 1) blocks)) by lia.
    rewrite andb_false_r, Nat.min_r by lia. by apply fragment_header_hdr.
  - unfold slice. rewrite Nat.min_l by lia.
    replace (i * BLOCKSIZE + BLOCKSIZE - i * BLOCKSIZE) with BLOCKSIZE by lia.
    rewrite <- (take_drop BLOCKSIZE (drop (i * BLOCKSIZE) data)) at 1. rewrite drop_drop.
    do 2 f_equal. lia.
  - unfold slice. rewrite length_take, length_drop. lia.
Qed.

Lemma blocks_last i :
  i + 1 = blocks ->
  block_header data finish blocks i = hdr (length (drop (i * BLOCKSIZE) data)) finish /\
  slice (i * BLOCKSIZE) (Nat.min (i * BLOCKSIZE + BLOCKSIZE) (length data)) data =
    drop (i * BLOCKSIZE) data /\
  length (drop (i * BLOCKSIZE) data) <= BLOCKSIZE.
Proof.
  intros Hi. pose proof blocks_bounds as (_ & Hlo & Hhi). rewrite <- Hi in Hlo, Hhi.
  replace (i + 1 - 1) with i in Hlo by lia. rewrite length_drop.
  rewrite Nat.mul_add_distr_r, Nat.mul_1_l in Hhi. split; [|split].
  - unfold block_header. rewrite (proj2 (Nat.eqb_eq (i + 1) blocks)) by done.
    rewrite andb_true_r, Nat.min_l by lia. apply fragment_header_hdr. lia.
  - unfold slice. apply take_ge. rewrite length_drop. lia.
  - lia.
Qed.

(** What is written is a message, or a fragment of one. *)
Lemma blocks_wire n i :
  blocks - i = S n -> i < blocks ->
  if finish then message (blocks_from i) (drop (i * BLOCKSIZE) data)
  else fragment (blocks_from i) (drop (i * BLOCKSIZE) data).
Proof.
  revert i. induction n as [|n IH]; intros i Hn Hi; rewrite blocks_from_step by done.
  - destruct (blocks_last i) as (-> & -> & Hl); [lia|].
    assert (blocks_from (S i) = []) as -> by (unfold blocks_from; by replace (blocks - S i) with 0 by lia).
    rewrite app_nil_r. destruct finish; [by apply message_last|].
    rewrite <- (app_nil_r (drop _ _)) at 3. rewrite <- (app_nil_r (drop (i * BLOCKSIZE) data)) at 2.
    apply fragment_cons; [done|constructor].
  - destruct (blocks_middle i) as (-> & -> & Hl); [lia|].
    specialize (IH (S i) ltac:(lia) ltac:(lia)).
    set (c := slice _ _ data) in *. replace (hdr BLOCKSIZE false) with (hdr (length c) false) by (by rewrite Hl).
    destruct finish; [apply message_more|apply fragment_cons]; try done; lia.
Qed.

End Blocks.

(** The bytes that [write_fragment] sends. *)
Definition framed (data : bytes) (finish : bool) : bytes :=
  if bool_decide (data = []) then if finish then hdr 0 true else []
  else blocks_from data finish 0.

Lemma framed_wire data (finish : bool) :
  if finish then message (framed data finish) data else fragment (framed data finish) data.
Proof.
  unfold framed. destruct (decide (data = [])) as [->|Hne].
  - rewrite bool_decide_true by done. destruct finish; [|constructor].
    apply (message_last []). simpl. lia.
  - rewrite bool_decide_false by done. pose proof (blocks_bounds data Hne) as (Hpos & _).
    pose proof (blocks_wire data finish Hne (div_ceil (length data) BLOCKSIZE - 1) 0) as H.
    rewrite drop_0 in H. apply H; lia.
Qed.

Lemma write_fragment_ok `{WriteLaws W} fuel data finish (s : W) :
  wreliable s -> wpatience s + length (framed data finish) < fuel ->
  exists s', write_fragment fuel data finish s = (Ok tt, s') /\
    written s' = written s ++ framed data finish /\ wpatience s' <= wpatience s /\ wreliable s'.
Proof.
  intros Hr Hf. unfold write_fragment, framed in *. destruct (decide (data = [])) as [->|Hne].
  - rewrite !bool_decide_true in * by done. destruct finish.
    + rewrite fragment_header_hdr by lia. unfold io_lift.
      destruct (write_all_reliable fuel _ s Hr Hf) as (s' & E). rewrite E.
      apply write_all_ok in E as (Hw & Hp & Hr'). exists s'. auto.
    + exists s. rewrite app_nil_r. auto.
  - rewrite !bool_decide_false in * by done. unfold io_lift.
    set (blocks := div_ceil (length data) BLOCKSIZE) in *.
    set (headers := block_header data finish blocks <$> seq 0 blocks) in *.
    assert (((fun i => i * SCATTER_BLOCKS_PER_WRITE) <$> seq 0 (div_ceil blocks SCATTER_BLOCKS_PER_WRITE))
      ≫= (fun first => seq first (Nat.min (first + SCATTER_BLOCKS_PER_WRITE) blocks - first)
            ≫= block_slices data headers) = (seq 0 blocks ≫= block_slices data headers)) as Hall.
    { rewrite bind_assoc, groups_cover. do 2 f_equal. apply Nat.min_r.
      apply div_ceil_spec; [unfold SCATTER_BLOCKS_PER_WRITE; lia|]. by apply blocks_bounds. }
    assert (blocks_from data finish 0 = concat (seq 0 blocks ≫= block_slices data headers)) as Hb.
    { unfold blocks_from. by rewrite Nat.sub_0_r. }
    rewrite Hb, <- Hall in *.
    destruct (write_groups_ok fuel data headers blocks _ s Hr Hf) as (s' & -> & H'). by exists s'.
Qed.

Lemma framed_length data finish : length (framed data finish) <= 3 * length data + 2.
Proof.
  unfold framed. destruct (decide (data = [])) as [->|Hne].
  { rewrite bool_decide_true by done. destruct finish; [rewrite hdr_length|]; simpl; lia. }
  rewrite bool_decide_false by done. pose proof (blocks_bounds data Hne) as (Hpos & Hlo & _).
  pose proof BLOCKSIZE_pos.
  set (blocks := div_ceil (length data) BLOCKSIZE) in *.
  enough (forall n i, blocks - i = n -> i <= blocks ->
    length (blocks_from data finish i) <= 2 * n + (length data - i * BLOCKSIZE)) as Hall.
  { specialize (Hall blocks 0 ltac:(lia) ltac:(lia)). nia. }
  intros n. induction n as [|n IH]; intros i Hn Hi.
  { unfold blocks_from. fold blocks. rewrite Hn. simpl. lia. }
  rewrite blocks_from_step by (fold blocks; lia). fold blocks. rewrite !length_app.
  specialize (IH (S i) ltac:(lia) ltac:(lia)).
  assert (length (block_header data finish blocks i) = 2) as ->.
  { unfold block_header. rewrite fragment_header_hdr by lia. apply hdr_length. }
  unfold slice. rewrite length_take, length_drop. fold blocks. simpl in IH. lia.
Qed.

Opaque framed.

(** ** Lemmas: the socket of an upload *)

Section WritePreserves.
Context {W : Type} `{!Write W} (I : W -> Prop).
Context (HI : forall data s, I s -> I (write data s).2).
Context (HIv : forall bufs s, I s -> I (write_vectored bufs s).2).

Lemma write_vectored_loop_preserves fuel remaining : preserves I (write_vectored_loop fuel remaining).
Proof.
  revert remaining. induction fuel as [|fuel IH]; intros [|b bufs] s Hs; try done.
  cbn [write_vectored_loop]. specialize (HIv (b :: bufs) s Hs).
  destruct (write_vectored (b :: bufs) s) as [[[|n]|e| |] s1]; try done.
  - destruct (advance_slices _ _); try done. by apply IH.
  - destruct (is_interrupted e); [by apply IH|done].
Qed.

Lemma io_lift_preserves {A} (m : comp W io_error A) : preserves I m -> preserves I (io_lift m).
Proof. intros Hm s Hs. unfold io_lift. specialize (Hm s Hs). by destruct (m s). Qed.

Lemma write_groups_preserves fuel data headers blocks firsts :
  preserves I (write_groups fuel data headers blocks firsts).
Proof.
  induction firsts as [|first firsts IH]; cbn [write_groups]; [auto with rust|].
  apply preserves_bind; [|auto]. unfold write_all_vectored.
  apply preserves_bind; [auto with rust|]. intros. apply write_vectored_loop_preserves.
Qed.

Lemma write_fragment_preserves fuel data finish : preserves I (write_fragment fuel data finish).
Proof.
  unfold write_fragment. apply preserves_if.
  - apply preserves_if; [apply io_lift_preserves, (write_all_preserves I HI)|auto with rust].
  - apply io_lift_preserves, write_groups_preserves.
Qed.

End WritePreserves.

Section Exchange.
Context {S : Type} `{DuplexLaws S} (sizes : nat -> nat) (Hsizes : forall i, 0 < sizes i).

(** From [s] to [s'], [out] was sent and the incoming stream is now at [rest]. *)
Record exchanged (s s' : S) (out rest : bytes) : Prop := {
  ex_written : written s' = written s ++ out;
  ex_pending : pending s' = rest;
  ex_reliable : reliable s';
  ex_wreliable : wreliable s';
  ex_wpatience : wpatience s' <= wpatience s;
  ex_effort : effort s' <= effort s
}.

Lemma exchanged_trans s1 s2 s3 out1 out2 rest1 rest2 :
  exchanged s1 s2 out1 rest1 -> exchanged s2 s3 out2 rest2 -> exchanged s1 s3 (out1 ++ out2) rest2.
Proof.
  intros [A1 _ _ _ A4 A5] [B1 B2 B3 B4 B5 B6].
  split; try done; [|lia..]. by rewrite B1, A1, app_assoc.
Qed.

Lemma fragment_exchanged fuel data finish s :
  reliable s -> wreliable s -> wpatience s + 3 * length data + 2 < fuel ->
  exists s', write_fragment fuel data finish s = (Ok tt, s') /\
    exchanged s s' (framed data finish) (pending s).
Proof.
  intros Hr Hw Hf. pose proof (framed_length data finish).
  destruct (write_fragment_ok fuel data finish s Hw) as (s' & E & Hout & Hp & Hw'); [lia|].
  exists s'. split; [done|].
  pose proof (write_fragment_preserves
    (fun s' => pending s' = pending s /\ patience s' = patience s /\ reliable s')) as Hk.
  specialize (Hk ltac:(intros d x (A1 & A2 & A3); destruct (write_keeps d x) as (? & ? & ?);
    split_and!; [congruence..|auto])
    ltac:(intros d x (A1 & A2 & A3); destruct (write_vectored_keeps d x) as (? & ? & ?);
    split_and!; [congruence..|auto]) fuel data finish s ltac:(done)).
  rewrite E in Hk. destruct Hk as (Hk1 & Hk2 & Hk3). simpl in *.
  split; try done. unfold effort. rewrite Hk1, Hk2. lia.
Qed.

(** An operation that only reads leaves what is written alone. *)
Lemma read_exchanged {A} (m : comp S io_error A) s s' r rest :
  (forall I : S -> Prop, (forall n x, I x -> I (read n x).2) -> preserves I m) ->
  m s = (r, s') -> wreliable s -> pending s' = rest -> reliable s' -> effort s' <= effort s ->
  exchanged s s' [] rest.
Proof.
  intros Hm E Hw Hp Hr He.
  pose proof (Hm (fun s' => written s' = written s /\ wpatience s' = wpatience s /\ wreliable s')
    ltac:(intros n x (A1 & A2 & A3); destruct (read_keeps n x) as (? & ? & ?);
      split_and!; [congruence..|auto]) s ltac:(done)) as Hk.
  rewrite E in Hk. destruct Hk as (Hk1 & Hk2 & Hk3). simpl in *.
  split; try done; [by rewrite app_nil_r|lia].
Qed.

Lemma reply_appended fuel limit buffer s w p rest :
  reliable s -> wreliable s -> effort s < fuel -> message w p -> length p <= limit ->
  pending s = w ++ rest ->
  exists s', to_limited fuel sizes buffer limit s = (Ok (buffer ++ p), s') /\ exchanged s s' [] rest.
Proof.
  intros Hr Hw Hf Hm Hl Hp.
  destruct (to_limited_next sizes Hsizes fuel buffer limit s w rest p) as (s' & E & Hp' & Hr' & He); [done..|].
  exists s'. split; [done|].
  apply (read_exchanged (to_limited fuel sizes buffer limit) s s' (Ok (buffer ++ p)));
    [intros; by apply to_limited_preserves|done..|lia].
Qed.

Lemma text_exchanged fuel limit s w p rest :
  reliable s -> wreliable s -> effort s < fuel -> message w p -> length p <= limit ->
  utf8_valid p = true -> pending s = w ++ rest ->
  exists s', to_limited_string fuel sizes [] limit s = (Ok p, s') /\ exchanged s s' [] rest.
Proof.
  intros Hr Hw Hf Hm Hl Hu Hp.
  destruct (to_limited_string_next sizes Hsizes fuel [] limit s w rest p) as (s' & E & Hp' & Hr' & He); [done..|].
  exists s'. split; [done|].
  apply (read_exchanged (to_limited_string fuel sizes [] limit) s s' (Ok p));
    [intros; by apply to_limited_string_preserves|done..|lia].
Qed.

Lemma reply_exchanged fuel limit s w p rest :
  reliable s -> wreliable s -> effort s < fuel -> message w p -> length p <= limit ->
  pending s = w ++ rest ->
  exists s', to_limited fuel sizes [] limit s = (Ok p, s') /\ exchanged s s' [] rest.
Proof. exact (reply_appended fuel limit [] s w p rest). Qed.

End Exchange.

(** ** Lemmas: a whole upload *)

Lemma sent_length (target : nat) (sent : list bytes) :
  Forall (fun p => length p = target) sent -> length (concat sent) = length sent * target.
Proof. induction 1 as [|p sent Hp _ IH]; simpl; [done|]. rewrite length_app. lia. Qed.

Section Session.
Context {S : Type} `{DuplexLaws S} (sizes : nat -> nat) (Hsizes : forall i, 0 < sizes i).
Context (fuel target limit n : nat) (s0 : S) (rest : bytes).
Context (Htarget : 0 < target) (Hlimit : 3 <= limit).
Context (Hfuel : wpatience s0 + 3 * Datatypes.S target + 2 < fuel) (Heffort : effort s0 < fuel).

Notation final p := (framed p true).
Notation send_message := (send_message fuel sizes).

(** The state after a message was answered with [prompt]. *)
Definition answered (prompt : bytes) (s : S) (u : StreamingUpload S) : StreamingUpload S :=
  MkUpload (if bool_decide (prompt = MORE) then Some s else None)
    (upload_chunk_size u) (u_max_response_size u) (u_pending u) (u_started u)
    (if bool_decide (prompt = MORE) then u_outcome u
     else if bool_decide (prompt = FILE_TRANSFER) then Some (Complete s)
     else Some (ServerResponse s prompt)).

Lemma send_message_ok u s out p w prompt after :
  u_sock u = Some s -> u_max_response_size u = limit -> length p <= target ->
  exchanged s0 s out (w ++ after) -> message w prompt -> length prompt <= limit ->
  exists s', send_message p u = (Ok tt, answered prompt s' u) /\
    exchanged s0 s' (out ++ final p) after.
Proof.
  intros Hs Hm Hp Hex Hw Hl. destruct Hex as [E1 E2 E3 E4 E5 E6] eqn:Eq. clear Eq.
  destruct (fragment_exchanged fuel p true s E3 E4) as (s1 & F1 & X1); [lia|].
  destruct X1 as [Y1 Y2 Y3 Y4 Y5 Y6] eqn:Eq. clear Eq.
  destruct (reply_exchanged sizes Hsizes fuel limit s1 w prompt after) as (s2 & F2 & X2);
    [done|done|lia|done|done|by rewrite Y2, E2|].
  exists s2. split.
  - unfold Upload.send_message, sbind, sget. rewrite Hs. unfold set_u_sock at 1, with_taken, io_lift.
    rewrite F1. cbn [res_bind]. rewrite <- Hm in F2. rewrite F2. cbn [res_bind res_map_err].
    unfold answered, set_u_sock, set_u_outcome. cbn.
    destruct (decide (prompt = MORE)) as [->|Hne]; [reflexivity|].
    rewrite !(bool_decide_false (prompt = MORE)) by done. by destruct (bool_decide _).
  - eapply exchanged_trans; [exact Hex|]. rewrite <- (app_nil_r (final p)).
    by eapply exchanged_trans.
Qed.

(** [D] was written so far, of which [sent] went out in whole messages. *)
Record uploading (started : bool) (u : StreamingUpload S) (D : bytes) (sent : list bytes) : Prop := {
  up_chunk : upload_chunk_size u = target;
  up_limit : u_max_response_size u = limit;
  up_data : concat sent ++ u_pending u = D;
  up_sent : Forall (fun p => length p = target) sent;
  up_pending : length (u_pending u) < target;
  up_none : u_outcome u = None;
  up_started : u_started u = started;
  up_sock : exists s ws, u_sock u = Some s /\
    exchanged s0 s ((if started then framed [x0a] false else []) ++ concat ((fun p => final p) <$> sent))
      (ws ++ rest) /\
    replied ws (repeat MORE (n - length sent) ++ [FILE_TRANSFER])
}.

(** The fields that do not change while the server asks for more. *)
Definition going (s : option S) (pend : bytes) : StreamingUpload S :=
  MkUpload s target limit pend true None.

Lemma uploading_going u D sent : uploading true u D sent -> u = going (u_sock u) (u_pending u).
Proof. intros [U1 U2 _ _ _ U6 U7 _]. destruct u; simpl in *. by subst. Qed.

(** One whole message more. *)
Lemma send_whole u D sent p x :
  uploading true u D sent -> length p = target -> length (concat sent) + target <= n * target ->
  exists s', send_message p (going (u_sock u) x) = (Ok tt, going (Some s') x) /\
    forall q, length q < target ->
      uploading true (going (Some s') q) (concat sent ++ p ++ q) (sent ++ [p]).
Proof.
  intros [U1 U2 U3 U4 U5 U6 U7 (s & ws & U8 & U9 & U10)] Hp Hn.
  rewrite (sent_length target) in Hn by done.
  assert (n - length sent = Datatypes.S (n - Datatypes.S (length sent))) as En by nia.
  rewrite En in U10. cbn [repeat app] in U10.
  inversion U10 as [|w q ws' ps Hw Hrep Ew Eq]. subst q ps. clear U10. subst ws.
  rewrite <- app_assoc in U9. rewrite U8.
  destruct (send_message_ok (going (Some s) x) s _ p w MORE (ws' ++ rest) eq_refl eq_refl ltac:(lia)
    U9 Hw) as (s' & E & Hex); [simpl; lia|].
  exists s'. split.
  { rewrite E. unfold answered. by rewrite bool_decide_true by done. }
  intros q Hq. split; try done.
  - rewrite concat_app. simpl. by rewrite app_nil_r, <- !app_assoc.
  - apply Forall_app. by repeat constructor.
  - exists s', ws'. split; [done|]. rewrite fmap_app, concat_app. cbn [fmap list_fmap concat].
    rewrite app_nil_r, app_assoc. split; [exact Hex|]. rewrite length_app. simpl.
    by replace (n - (length sent + 1)) with (n - Datatypes.S (length sent)) by lia.
Qed.

Lemma write_whole_ok k u D sent data :
  uploading true u D sent -> u_pending u = [] \/ data = [] ->
  length D + length data <= n * target -> length data < k * target + target ->
  exists u' sent', write_whole fuel sizes k target data u = (Ok tt, u') /\
    uploading true u' (D ++ data) sent'.
Proof.
  revert u D sent data. induction k as [|k IH]; intros u D sent data Hu Hor Hn Hk; cbn [write_whole].
  all: pose proof Hu as [U1 U2 U3 U4 U5 U6 U7 U8]; destruct (Nat.ltb_spec (length data) target) as [Hlt|Hge].
  1,3: eexists _, sent; split; [reflexivity|]; split; cbn; try done;
    [by rewrite app_assoc, U3|destruct Hor as [-> | ->]; [done|by rewrite app_nil_r]].
  { simpl in Hk. lia. }
  destruct Hor as [Hz| ->]; [|simpl in Hge; lia]. rewrite Hz, app_nil_r in U3. subst D.
  destruct (send_whole u (concat sent) sent (take target data) []) as (s' & E & Hnext);
    [done|rewrite length_take; lia|lia|].
  rewrite (uploading_going _ _ _ Hu), Hz. unfold sbind. rewrite E. cbn.
  specialize (Hnext [] ltac:(simpl; lia)). rewrite app_nil_r in Hnext.
  destruct (IH _ _ _ (drop target data) Hnext) as (u' & sent' & E' & Hu'); [by left|..].
  { rewrite length_app, length_take, length_drop. lia. }
  { rewrite length_drop. simpl in Hk. lia. }
  exists u', sent'. split; [done|]. by rewrite <- app_assoc, take_drop in Hu'.
Qed.

Lemma start_ok started u D sent :
  uploading started u D sent -> (started = false -> D = []) ->
  exists u', start fuel u = (Ok tt, u') /\ uploading true u' D sent.
Proof.
  intros Hu HD. pose proof Hu as [U1 U2 U3 U4 U5 U6 U7 (s & ws & U8 & U9 & U10)].
  unfold start, sbind, sget. rewrite U7. destruct started; [by exists u|].
  rewrite U8. destruct U9 as [E1 E2 E3 E4 E5 E6] eqn:Eq. clear Eq.
  destruct (fragment_exchanged fuel [x0a] false s E3 E4) as (s' & F & X); [simpl; lia|].
  rewrite F. cbn. eexists. split; [reflexivity|].
  split; [done..|]. cbn. assert (sent = []) as ->.
  { rewrite (HD eq_refl) in U3. apply app_eq_nil in U3 as [Hz _].
    destruct sent as [|p sent]; [done|]. apply Forall_cons in U4 as [Hp _].
    simpl in Hz. apply app_eq_nil in Hz as [-> _]. simpl in Hp. lia. }
  exists s', ws. split; [done|]. split; [|done]. cbn [fmap list_fmap concat]. rewrite app_nil_r.
  rewrite E2 in X. pose proof (exchanged_trans _ _ _ _ _ _ _ U9 X) as HX. exact HX.
Qed.

(** A pending message that becomes whole is sent; one that does not is kept. *)
Lemma fill_pending_sends s pend data s' :
  pend <> [] -> length pend <= target -> target - length pend <= length data ->
  let needed := target - length pend in
  send_message (pend ++ take needed data) (going s (pend ++ take needed data)) =
    (Ok tt, going (Some s') (pend ++ take needed data)) ->
  fill_pending fuel sizes target data (going s pend) = (Ok (drop needed data), going (Some s') []).
Proof.
  intros Hne Hle Hd needed E. unfold fill_pending, sbind at 1, sget. cbn [u_pending going].
  rewrite (proj2 (is_empty_false _) Hne), (proj2 (Nat.leb_le _ _) Hle). rewrite Nat.min_l by done.
  fold needed. unfold sbind at 1, slift. cbn [rassert]. unfold sbind at 1, set_u_pending.
  unfold sbind at 1. cbn [u_pending going upload_chunk_size u_sock u_max_response_size u_started u_outcome].
  rewrite (proj2 (Nat.eqb_eq _ _)) by (rewrite length_app, length_take; lia).
  unfold flush_pending, sbind, sget, set_u_pending. cbn [u_pending going].
  rewrite (proj2 (is_empty_false _)) by (intros [? _]%app_eq_nil; done).
  cbn [u_pending]. fold (going s (pend ++ take needed data)). rewrite E. cbn. by rewrite andb_false_r.
Qed.

Lemma fill_pending_keeps s pend data :
  pend <> [] -> length pend + length data < target ->
  fill_pending fuel sizes target data (going s pend) = (Ok [], going s (pend ++ data)).
Proof.
  intros Hne Hlt. unfold fill_pending, sbind at 1, sget. cbn [u_pending going].
  rewrite (proj2 (is_empty_false _) Hne), (proj2 (Nat.leb_le (length pend) target)) by lia.
  rewrite Nat.min_r by lia. rewrite firstn_all, drop_all.
  unfold sbind at 1, slift. cbn [rassert]. unfold sbind at 1, set_u_pending.
  unfold sbind at 1. cbn [u_pending going upload_chunk_size u_sock u_max_response_size u_started u_outcome].
  rewrite (proj2 (Nat.eqb_neq _ _)) by (rewrite length_app; lia). done.
Qed.

Lemma fill_pending_ok u D sent data :
  uploading true u D sent -> length D + length data <= n * target ->
  exists u' D' sent' data', fill_pending fuel sizes target data u = (Ok data', u') /\
    uploading true u' D' sent' /\ D ++ data = D' ++ data' /\ (u_pending u' = [] \/ data' = []).
Proof.
  intros Hu Hn. pose proof Hu as [U1 U2 U3 U4 U5 U6 U7 U8].
  destruct (decide (u_pending u = [])) as [Ee|Ee].
  { exists u, D, sent, data. split; [|auto]. unfold fill_pending, sbind, sget.
    by rewrite (proj2 (is_empty_spec _) Ee). }
  pose proof (uploading_going _ _ _ Hu) as Eu.
  destruct (decide (target - length (u_pending u) <= length data)) as [Hd|Hd].
  - set (needed := target - length (u_pending u)).
    set (p := u_pending u ++ take needed data).
    assert (length p = target) as Hp by (unfold p; rewrite length_app, length_take; lia).
    destruct (send_whole u D sent p p Hu Hp) as (s' & E & Hnext).
    { rewrite <- U3, length_app in Hn. lia. }
    eexists _, _, _, (drop needed data). split; [rewrite Eu at 1; apply fill_pending_sends; [done|lia|done|exact E]|].
    split; [apply Hnext; simpl; lia|]. split; [|by left].
    rewrite app_nil_r. unfold p. rewrite <- U3, <- !app_assoc, take_drop. done.
  - exists (going (u_sock u) (u_pending u ++ data)), (D ++ data), sent, [].
    split; [rewrite Eu at 1; apply fill_pending_keeps; [done|lia]|]. split; [|rewrite app_nil_r; auto].
    destruct U8 as (s & ws & U8). split; [done|done|by rewrite <- U3, <- app_assoc|done| |done|done|by exists s, ws].
    simpl. rewrite length_app. lia.
Qed.

Lemma write_chunk_ok started u D sent data :
  uploading started u D sent -> (started = false -> D = []) -> length D + length data <= n * target ->
  exists started' u' sent', write_chunk fuel sizes data u = (Ok tt, u') /\
    uploading started' u' (D ++ data) sent' /\ (started' = false -> D ++ data = []).
Proof.
  intros Hu HD Hn. unfold write_chunk. destruct (is_empty data) eqn:Ee.
  { apply is_empty_spec in Ee. subst data. exists started, u, sent. by rewrite app_nil_r. }
  unfold sbind at 1, sget. pose proof Hu as [U1 _ _ _ _ U6 _ _]. rewrite U6, U1.
  destruct (start_ok started u D sent Hu HD) as (u1 & E1 & Hu1). unfold sbind. rewrite E1.
  destruct (fill_pending_ok u1 D sent data Hu1 Hn) as (u2 & D' & sent2 & data' & E2 & Hu2 & Hcat & Hor).
  rewrite E2. assert (length D + length data = length D' + length data') as Hlen.
  { by rewrite <- !length_app, Hcat. }
  destruct (write_whole_ok (Datatypes.S (length data')) u2 D' sent2 data' Hu2 Hor) as (u3 & sent3 & E3 & Hu3);
    [lia|nia|].
  exists true, u3, sent3. split; [done|]. by rewrite Hcat.
Qed.

Lemma write_chunks_ok chunks started u D sent :
  uploading started u D sent -> (started = false -> D = []) ->
  length D + length (concat chunks) <= n * target ->
  exists started' u' sent', write_chunks fuel sizes chunks u = (Ok tt, u') /\
    uploading started' u' (D ++ concat chunks) sent' /\ (started' = false -> D ++ concat chunks = []).
Proof.
  revert started u D sent. induction chunks as [|c chunks IH]; intros started u D sent Hu HD Hn; simpl in *.
  { exists started, u, sent. by rewrite app_nil_r. }
  rewrite length_app in Hn.
  destruct (write_chunk_ok started u D sent c Hu HD) as (b1 & u1 & sent1 & E1 & Hu1 & HD1); [lia|].
  destruct (IH b1 u1 (D ++ c) sent1 Hu1 HD1) as (b2 & u2 & sent2 & E2 & Hu2); [rewrite length_app; lia|].
  exists b2, u2, sent2. unfold sbind. rewrite E1, E2. by rewrite <- app_assoc in Hu2.
Qed.

(** The last message is empty and is answered with the end of the transfer. *)
Lemma send_end s out ws :
  exchanged s0 s out (ws ++ rest) -> replied ws [FILE_TRANSFER] ->
  exists s' u', send_message [] (going (Some s) []) = (Ok tt, u') /\
    u_outcome u' = Some (Complete s') /\ exchanged s0 s' (out ++ final []) rest.
Proof.
  intros Hex Hrep. inversion Hrep as [|w p ws' ps Hw Hnil Ew Ep]. subst.
  inversion Hnil. subst. rewrite app_nil_r in Hex.
  destruct (send_message_ok (going (Some s) []) s out [] w FILE_TRANSFER rest eq_refl eq_refl
    ltac:(simpl; lia) Hex Hw) as (s' & E & Hex'); [simpl; lia|].
  exists s'. eexists. split; [exact E|]. by split.
Qed.

(** The messages that carry the data: whole ones, and the rest. *)
Definition parts_of (sent : list bytes) (pend : bytes) : list bytes :=
  sent ++ (if is_empty pend then [] else [pend]).

Lemma upload_finish_ok started u D sent :
  uploading started u D sent -> (started = false -> D = []) ->
  n = length (parts_of sent (u_pending u)) ->
  exists s' u', upload_finish fuel sizes u = (Ok (Complete s'), u') /\
    exchanged s0 s'
      (framed [x0a] false ++ concat ((fun p => final p) <$> (parts_of sent (u_pending u) ++ [[]]))) rest.
Proof.
  intros Hu HD Hn. pose proof Hu as [U1 U2 U3 U4 U5 U6 U7 U8].
  unfold parts_of in *. unfold upload_finish, or_outcome, take_outcome.
  assert (forall v, u_outcome v = None -> @set_u_outcome S None v = (Ok tt, v)) as Hkeep.
  { intros v Hv. unfold set_u_outcome. destruct v; simpl in *. by subst. }
  destruct (is_empty (u_pending u)) eqn:Ee.
  - apply is_empty_spec in Ee. rewrite app_nil_r in *.
    unfold sbind, sget. rewrite (Hkeep u U6). unfold sret. rewrite U6.
    unfold flush_pending, sbind, sget. rewrite (proj2 (is_empty_spec _) Ee). unfold sret.
    rewrite (Hkeep u U6), U6.
    destruct (start_ok started u D sent Hu HD) as (u1 & E1 & Hu1). rewrite E1.
    pose proof (uploading_going _ _ _ Hu1) as Eu1.
    destruct Hu1 as [V1 V2 V3 V4 V5 V6 V7 (s & ws & V8 & V9 & V10)].
    assert (u_pending u1 = []) as Hp1 by (rewrite <- U3, Ee in V3; by apply app_inv_head in V3).
    rewrite V8, Hp1 in Eu1. rewrite Hn, Nat.sub_diag in V10. cbn [repeat app] in V10.
    destruct (send_end s _ ws V9 V10) as (s' & u' & E2 & Ho & Hex). rewrite Eu1, E2.
    unfold set_u_outcome. rewrite Ho. eexists s', _. split; [reflexivity|].
    rewrite fmap_app, concat_app. cbn [fmap list_fmap concat]. by rewrite app_nil_r, app_assoc.
  - pose proof Ee as Hne. apply is_empty_false in Hne.
    assert (started = true) as ->.
    { destruct started; [done|]. rewrite (HD eq_refl) in U3. by apply app_eq_nil in U3 as [_ ?]. }
    pose proof (uploading_going _ _ _ Hu) as Eu.
    destruct U8 as (s & ws & U8 & U9 & U10).
    rewrite Hn, length_app in U10. cbn [length] in U10.
    replace (length sent + 1 - length sent) with 1 in U10 by lia. cbn [repeat app] in U10.
    inversion U10 as [|w p ws' ps Hw Hrep Ew Ep]. subst p ps. clear U10. subst ws.
    rewrite <- app_assoc in U9.
    destruct (send_message_ok u s _ (u_pending u) w MORE (ws' ++ rest) U8 U2 ltac:(lia) U9 Hw)
      as (s1 & E1 & X1); [simpl; lia|].
    unfold sbind, sget. rewrite (Hkeep u U6). unfold sret. rewrite U6.
    unfold flush_pending, sbind, sget. rewrite Ee, E1. unfold set_u_pending, answered.
    rewrite (bool_decide_true (MORE = MORE)) by done. cbn -[Upload.send_message]. rewrite U6.
    unfold start, sbind, sget. cbn -[Upload.send_message]. rewrite U7.
    destruct (send_end s1 _ ws' X1 Hrep) as (s' & u' & E2 & Ho & Hex).
    unfold going in E2. unfold sret. rewrite U1, U2. rewrite E2. rewrite Ho. eexists s', _.
    split; [reflexivity|]. rewrite !fmap_app, !concat_app. cbn [fmap list_fmap concat].
    rewrite !app_nil_r. by rewrite <- !app_assoc in *.
Qed.

End Session.

(** ** Lemmas: requests *)

Definition occurs (pat l : bytes) (i : nat) : Prop := starts_with pat (drop i l) = true.

Lemma rfind_spec pat l :
  pat <> [] ->
  match rfind pat l with
  | Some i => occurs pat l i /\ forall j, occurs pat l j -> j <= i
  | None => forall j, ~ occurs pat l j
  end.
Proof.
  intros Hp. induction l as [|b l IH].
  { simpl. rewrite (proj2 (is_empty_false pat) Hp). intros j. unfold occurs. rewrite drop_nil.
    by destruct pat. }
  cbn [rfind]. destruct (rfind pat l) as [i|].
  - destruct IH as [Hi Hmax]. split; [exact Hi|]. intros [|j] Hj; [lia|]. specialize (Hmax j Hj). lia.
  - destruct (starts_with pat (b :: l)) eqn:E.
    + split; [exact E|]. intros [|j] Hj; [lia|]. by apply IH in Hj.
    + intros [|j] Hj; [unfold occurs in Hj; simpl in Hj; congruence|]. by apply IH in Hj.
Qed.

(** A marker at the start of a line. *)
Definition marker_at (response : bytes) (i : nat) : Prop :=
  occurs FILE_TRANSFER response i /\ (i = 0 \/ response !! (i - 1) = Some x0a).

Lemma occurs_bytes response i :
  occurs FILE_TRANSFER response i <->
  response !! i = Some x01 /\ response !! (i + 1) = Some x03 /\ response !! (i + 2) = Some x0a.
Proof.
  unfold occurs. rewrite <- (Nat.add_0_r i) at 2.
  rewrite <- !lookup_drop. destruct (drop i response) as [|a [|b [|c l]]]; simpl;
    unfold starts_with; simpl; repeat case_decide; naive_solver.
Qed.

(** Occurrences do not overlap, so that those in the front of the response are
    all that start there. *)
Lemma occurs_take response i j :
  occurs FILE_TRANSFER response i -> j < i ->
  occurs FILE_TRANSFER (take i response) j <-> occurs FILE_TRANSFER response j.
Proof.
  rewrite !occurs_bytes. intros (Hi & _ & _) Hj. destruct (decide (j + 2 < i)).
  - by rewrite !lookup_take_lt by lia.
  - rewrite (lookup_take_ge response i (j + 2)) by lia. split; [naive_solver|].
    intros (_ & H1 & H2). exfalso. assert (j + 1 = i \/ j + 2 = i) as [E|E] by lia; rewrite E in *; congruence.
Qed.

Lemma find_marker_spec fuel response stop :
  stop < fuel -> (stop = length response \/ occurs FILE_TRANSFER response stop) ->
  (forall j, marker_at response j -> j < stop) ->
  match find_marker fuel response stop with
  | Ok (Some i) => marker_at response i /\ forall j, marker_at response j -> j <= i
  | Ok None => forall j, ~ marker_at response j
  | _ => False
  end.
Proof.
  revert stop. induction fuel as [|fuel IH]; intros stop Hf Hstop Hall; [lia|]. cbn [find_marker].
  assert (forall j, j < stop ->
    occurs FILE_TRANSFER (take stop response) j <-> occurs FILE_TRANSFER response j) as Htake.
  { intros j Hj. destruct Hstop as [->|Ho]; [by rewrite firstn_all|by apply occurs_take]. }
  pose proof (rfind_spec FILE_TRANSFER (take stop response) ltac:(done)) as Hr.
  destruct (rfind _ _) as [i|].
  - destruct Hr as [Hi Hmax].
    assert (i < stop) as His.
    { apply occurs_bytes in Hi as (Hi & _). apply lookup_lt_Some in Hi. rewrite length_take in Hi. lia. }
    apply Htake in Hi; [|done].
    assert (forall j, marker_at response j -> j <= i) as Hle.
    { intros j Hj. apply Hmax, Htake; [by apply Hall|apply Hj]. }
    destruct (Nat.eqb_spec i 0) as [->|Hz]; cbn [orb]; [split; [split; [done|by left]|done]|].
    destruct (decide (response !! (i - 1) = Some x0a)) as [Hn|Hn].
    + rewrite bool_decide_true by done. split; [split; [done|by right]|done].
    + rewrite bool_decide_false by done. apply IH; [lia|by right|]. intros j Hj.
      specialize (Hle j Hj). destruct (decide (j = i)) as [->|]; [|lia].
      destruct Hj as [_ [?|?]]; done.
  - intros j Hj. apply (Hr j), Htake; [by apply Hall|apply Hj].
Qed.

Lemma messages_cons w p ws ps : message w p -> messages ws ps -> messages (w ++ ws) (p :: ps).
Proof.
  intros Hw. induction 1 as [|ws ps w' p' _ IH Hm].
  - rewrite app_nil_r. exact (messages_snoc [] [] w p messages_nil Hw).
  - rewrite app_assoc. exact (messages_snoc _ (p :: ps) w' p' IH Hm).
Qed.

Lemma messages_app w1 ps1 w2 ps2 :
  messages w1 ps1 -> messages w2 ps2 -> messages (w1 ++ w2) (ps1 ++ ps2).
Proof.
  intros H1. induction 1 as [|ws ps w p _ IH Hm]; [by rewrite !app_nil_r|].
  rewrite !app_assoc. by constructor.
Qed.

Lemma messages_framed ps : messages (concat ((fun p => framed p true) <$> ps)) ps.
Proof.
  induction ps as [|p ps IH]; [constructor|]. apply messages_cons; [|done].
  exact (framed_wire p true).
Qed.

(** The first message starts with the newline that accepts the request. *)
Definition accepted (payloads : list bytes) : list bytes :=
  match payloads with
  | [] => []
  | p :: ps => (x0a :: p) :: ps
  end.

Lemma accepted_wire ps :
  ps <> [] ->
  messages (framed [x0a] false ++ concat ((fun p => framed p true) <$> ps)) (accepted ps).
Proof.
  destruct ps as [|p ps]; [done|]. intros _. cbn [fmap list_fmap concat accepted].
  rewrite app_assoc. apply messages_cons; [|apply messages_framed].
  apply (fragment_message _ [x0a] _ p); [exact (framed_wire [x0a] false)|exact (framed_wire p true)].
Qed.

(** [data] cut into parts of [target] bytes, the last of which may be shorter. *)
Definition cut (target : nat) (data : bytes) (parts : list bytes) : Prop :=
  concat parts = data /\
  exists whole tail, parts = whole ++ tail /\ Forall (fun p => length p = target) whole /\
    (tail = [] \/ exists q, tail = [q] /\ 0 < length q < target).

Lemma parts_count target sent pend :
  0 < target -> Forall (fun p => length p = target) sent -> length pend < target ->
  length (parts_of sent pend) = div_ceil (length (concat sent ++ pend)) target.
Proof.
  intros Ht Hs Hp. unfold parts_of. rewrite !length_app, (sent_length target sent Hs).
  unfold div_ceil. destruct (is_empty pend) eqn:E.
  - apply is_empty_spec in E. subst pend. simpl. rewrite !Nat.add_0_r.
    apply (Nat.div_unique _ _ _ (target - 1)); lia.
  - apply is_empty_false in E. assert (length pend <> 0) by (by intros ?%nil_length_inv). simpl.
    apply (Nat.div_unique _ _ _ (length pend - 1)); lia.
Qed.

Lemma take_file_request_cases response :
  ((forall i, ~ marker_at response i) /\ take_file_request response = (Ok None, response)) \/
  exists i, marker_at response i /\ (forall j, marker_at response j -> j <= i) /\
    (forall cmd, drop (i + 3) response = cmd ++ [x0a] -> utf8_valid cmd = true ->
       take_file_request response = (Ok (Some cmd), take i response)) /\
    ((forall cmd, drop (i + 3) response = cmd ++ [x0a] -> utf8_valid cmd = false) ->
       exists m, take_file_request response = (Err (FileTransfer m), response)).
Proof.
  unfold take_file_request.
  pose proof (find_marker_spec (S (length response)) response (length response)) as Hf.
  specialize (Hf ltac:(lia) ltac:(by left)). destruct (find_marker _ _ _) as [[i|]|e| |].
  - right. destruct Hf as [Hi Hmax].
    { intros j [Ho _]. apply occurs_bytes in Ho as (Hj & _). by eapply lookup_lt_Some. }
    exists i. split; [done|]. split; [done|]. change (length FILE_TRANSFER) with 3. split.
    + intros cmd Hc%strip_suffix_Some Hu. by rewrite Hc, Hu.
    + intros Hall. destruct (strip_suffix _ _) as [cmd|] eqn:E; [|eauto].
      apply strip_suffix_Some in E. rewrite (Hall cmd E). eauto.
  - left. split; [|done]. apply Hf.
    intros j [Ho _]. apply occurs_bytes in Ho as (Hj & _). by eapply lookup_lt_Some.
  - destruct Hf. intros j [Ho _]. apply occurs_bytes in Ho as (Hj & _). by eapply lookup_lt_Some.
  - destruct Hf. intros j [Ho _]. apply occurs_bytes in Ho as (Hj & _). by eapply lookup_lt_Some.
  - destruct Hf. intros j [Ho _]. apply occurs_bytes in Ho as (Hj & _). by eapply lookup_lt_Some.
Qed.

Lemma upload_ok {T : Type} `{DuplexLaws T} sizes fuel target limit (s : T) chunks ws rest :
  (forall i, 0 < sizes i) -> 0 < target -> 3 <= limit -> reliable s -> wreliable s ->
  let data := concat chunks in
  replied ws (repeat MORE (div_ceil (length data) target) ++ [FILE_TRANSFER]) ->
  pending s = ws ++ rest ->
  wpatience s + 3 * Datatypes.S target + 2 < fuel -> effort s < fuel ->
  exists u s' u' out parts,
    write_chunks fuel sizes chunks (upload_new s target limit) = (Ok tt, u) /\
    upload_finish fuel sizes u = (Ok (Complete s'), u') /\
    exchanged s s' out rest /\
    messages out (accepted (parts ++ [[]])) /\ cut target data parts.
Proof.
  intros Hsz Ht Hl Hr Hw data Hrep Hp Hf He.
  set (n := div_ceil (length data) target) in *.
  assert (uploading target limit n s rest false (upload_new s target limit) [] []) as Hinit.
  { split; [done|done|done|constructor|simpl; lia|done|done|]. exists s, ws. split; [done|].
    rewrite Nat.sub_0_r. split; [|done]. split; [by rewrite app_nil_r|done..|lia|lia]. }
  assert (length data <= n * target) as Hn.
  { destruct (decide (length data = 0)) as [->|]; [lia|]. apply div_ceil_spec; lia. }
  destruct (write_chunks_ok sizes Hsz fuel target limit n s rest Ht Hl Hf He chunks false _ [] [] Hinit)
    as (b & u & sent & E1 & Hu & HD); [done|done|].
  pose proof Hu as [_ _ U3 U4 U5 _ _ _]. cbn [app] in *.
  destruct (upload_finish_ok sizes Hsz fuel target limit n s rest Ht Hl Hf He b u _ sent Hu HD)
    as (s' & u' & E2 & Hex).
  { rewrite (parts_count target) by done. by rewrite U3. }
  eexists u, s', u', _, (parts_of sent (u_pending u)). split; [done|]. split; [done|].
  split; [exact Hex|]. split; [apply accepted_wire; by destruct (parts_of _ _)|].
  split; [etransitivity; [|exact U3]; unfold parts_of; rewrite concat_app|exists sent; eexists; split; [reflexivity|]].
  - f_equal. destruct (is_empty (u_pending u)) eqn:Ee; [by apply is_empty_spec in Ee as ->|].
    simpl. by rewrite app_nil_r.
  - split; [done|]. destruct (is_empty (u_pending u)) eqn:Ee; [by left|]. right.
    exists (u_pending u). apply is_empty_false in Ee. split; [done|].
    assert (length (u_pending u) <> 0) by (by intros ?%nil_length_inv). lia.
Qed.

(** ** Theorems *)

(** C27: The scattered framing is the framing of the protocol.  Over a writer that
    takes any number of bytes at a time and may be interrupted,
    [write_fragment] sends one message with exactly the data when it is to be
    finished, and otherwise blocks that carry the data and can be continued
    into any message. *)
Theorem write_fragment_framing `{WriteLaws W} fuel data (finish : bool) (s : W) :
  wreliable s -> wpatience s + 3 * length data + 2 < fuel ->
  exists s' out, write_fragment fuel data finish s = (Ok tt, s') /\ written s' = written s ++ out /\
    (if finish then message out data
     else forall w p, message w p -> message (out ++ w) (data ++ p)).
Proof.
  intros Hr Hf. pose proof (framed_length data finish).
  destruct (write_fragment_ok fuel data finish s Hr) as (s' & E & Hw & _); [lia|].
  exists s', (framed data finish). split; [done|]. split; [done|].
  pose proof (framed_wire data finish) as Hwire. destruct finish; [done|].
  intros w p. by apply fragment_message.
Qed.

(** A file request is recognised exactly at the last line of the response that
    starts with the marker: markers in the middle of a line are data.  The
    request is the rest of the response without its newline, and the output
    before the marker is kept; a request that is not terminated or not UTF-8 is
    an error, and then the response is kept as it is. *)
Theorem take_file_request_exact response :
  ((forall i, ~ marker_at response i) /\ take_file_request response = (Ok None, response)) \/
  exists i, marker_at response i /\ (forall j, marker_at response j -> j <= i) /\
    (forall cmd, drop (i + 3) response = cmd ++ [x0a] -> utf8_valid cmd = true ->
       take_file_request response = (Ok (Some cmd), take i response)) /\
    ((forall cmd, drop (i + 3) response = cmd ++ [x0a] -> utf8_valid cmd = false) ->
       exists m, take_file_request response = (Err (FileTransfer m), response)).
Proof. apply take_file_request_cases. Qed.

(** A streamed file arrives whole.  Whatever chunks the producer writes, empty
    ones included, to a server that asks for more after each message with data
    and ends the transfer after the empty one: every write succeeds, the
    transfer completes with the incoming stream just after the last prompt, and
    the messages that were sent are the newline that accepts the request
    followed by the data, cut into messages of the given size, and an empty
    message. *)
Theorem upload_sends_file {T : Type} `{DuplexLaws T} sizes fuel target limit (s : T) chunks ws rest :
  (forall i, 0 < sizes i) -> 0 < target -> 3 <= limit -> reliable s -> wreliable s ->
  let data := concat chunks in
  replied ws (repeat MORE (div_ceil (length data) target) ++ [FILE_TRANSFER]) ->
  pending s = ws ++ rest ->
  wpatience s + 3 * Datatypes.S target + 2 < fuel -> effort s < fuel ->
  exists u s' u' out parts,
    write_chunks fuel sizes chunks (upload_new s target limit) = (Ok tt, u) /\
    upload_finish fuel sizes u = (Ok (Complete s'), u') /\
    pending s' = rest /\ written s' = written s ++ out /\
    messages out (accepted (parts ++ [[]])) /\ cut target data parts.
Proof.
  intros Hsz Ht Hl Hr Hw data Hrep Hp Hf He.
  destruct (upload_ok sizes fuel target limit s chunks ws rest)
    as (u & s' & u' & out & parts & E1 & E2 & [X1 X2 _ _ _ _] & Hm & Hc); [done..|].
  by exists u, s', u', out, parts.
Qed.

(** *** Witnesses *)

Lemma write_fragment_framing_witness :
  let s := MkWire [] [] [] [Give 2; Intr; Give 0] in
  exists s' out, write_fragment 40 (bs "abcd") true s = (Ok tt, s') /\
    written s' = written s ++ out /\ message out (bs "abcd").
Proof.
  intros s. apply (write_fragment_framing 40 (bs "abcd") true s).
  - repeat constructor.
  - vm_compute. lia.
Defined.

Definition prompts (ps : list bytes) : bytes := concat ((fun p => hdr (length p) true ++ p) <$> ps).

Lemma replied_prompts ps :
  Forall (fun p => length p <= 3) ps -> replied (prompts ps) ps.
Proof.
  induction 1 as [|p ps Hp _ IH]; [constructor|]. apply replied_cons; [|done].
  pose proof BLOCKSIZE_Z. apply message_last. lia.
Qed.

Lemma upload_sends_file_witness :
  let s := MkWire (prompts [MORE; MORE; MORE; FILE_TRANSFER] ++ bs "next") [] [Give 0; Intr] [Intr] in
  exists u s' u' out parts,
    write_chunks 100 thirty_two [bs "abc"; []; bs "de"] (upload_new s 2 10) = (Ok tt, u) /\
    upload_finish 100 thirty_two u = (Ok (Complete s'), u') /\
    pending s' = bs "next" /\ written s' = written s ++ out /\
    messages out (accepted (parts ++ [[]])) /\ cut 2 (bs "abcde") parts.
Proof.
  intros s.
  apply (upload_sends_file thirty_two 100 2 10 s [bs "abc"; []; bs "de"]
    (prompts [MORE; MORE; MORE; FILE_TRANSFER]) (bs "next")).
  - intros i. apply Nat.lt_0_succ.
  - lia.
  - lia.
  - repeat constructor.
  - repeat constructor.
  - apply replied_prompts. repeat constructor; simpl; lia.
  - reflexivity.
  - vm_compute. lia.
  - vm_compute. lia.
Defined.
