(* ===== verification/Producer.v ===== *)
(** * Producers of uploads (src/cursor/upload.rs, the [UploadSink] trait)

    A producer has only the sink: it can write chunks, see what became of each of
    them, and end with a value or an error of its own.  Here such producers are
    trees, and whatever they do, what the sink hands over at the end is bounded by
    the limit on responses. *)

From Stdlib Require Import ZArith Lia.
From S2P Require Import Prelude Bytes Blockstate IO Writing Reading Errors Upload.

Open Scope nat_scope.

(** [P] is the state that a producer keeps between the files it is asked for. *)
Inductive program (P : Type) :=
| Return (result : res CursorError unit) (p : P)
| WriteChunk (data : bytes) (next : res CursorError unit -> program P).
Arguments Return {P}.
Arguments WriteChunk {P}.

(** Every chunk is written, whatever became of the ones before; the first error is
    returned with [?]. *)
Fixpoint write_each {P} (chunks : list bytes) (p : P) : program P :=
  match chunks with
  | [] => Return (Ok tt) p
  | c :: rest => WriteChunk c (fun r => match r with Ok _ => write_each rest p | _ => Return r p end)
  end.

(** ** How long a response can be *)

Lemma read_to_end_limit {R} `{Read R} fuel sizes buffer limit (s : R) out s' :
  @read_to_end _ Read_take fuel sizes buffer (limit, s) = (Ok out, s') ->
  (length out <= length buffer + limit)%nat.
Proof.
  revert buffer limit s. induction fuel as [|fuel IH]; intros buffer limit s; [done|]. cbn [read_to_end].
  change (@read _ Read_take ?n ?x) with (take_read n x). unfold take_read.
  destruct limit as [|limit]; [intros [= <- _]; lia|].
  destruct (read (Nat.min (sizes (Datatypes.S fuel)) (Datatypes.S limit)) s) as [[l|e| |] s1]; try done.
  - destruct (Nat.leb_spec (length l) (Datatypes.S limit)); [|done].
    destruct l as [|c l]; [intros [= <- _]; lia|].
    intros E. apply IH in E. rewrite length_app in E. lia.
  - destruct (is_interrupted e); [apply IH|done].
Qed.

Lemma to_limited_length {R} `{Read R} fuel sizes buffer limit (s : R) out s' :
  to_limited fuel sizes buffer limit s = (Ok out, s') -> (length out <= length buffer + limit)%nat.
Proof.
  unfold to_limited, run_reader.
  match goal with |- context [let '(_, _) := ?m (reader_new s) in _] =>
    destruct (m (reader_new s)) as [r rd] eqn:E end.
  intros [= -> _]. res_inv. unfold take_to_end in *.
  match goal with H : (let '(_, _) := ?m in _) = _ |- _ => destruct m as [r1 [l1 rd1]] eqn:E1 end.
  simplify_eq. exact (@read_to_end_limit _ (do_read fuel) _ _ _ _ _ _ _ E1).
Qed.

Section Producer.
Context {S : Type} `{!Read S} `{!Write S} (fuel : nat) (sizes : nat -> nat).

(** A chunk after which the sink cannot go on (a panic of the socket) ends the
    program. *)
Fixpoint run_program {P} (pr : program P) : comp (P * StreamingUpload S) CursorError unit :=
  match pr with
  | Return result p => fun '(_, u) => (result, (p, u))
  | WriteChunk data next => fun '(p, u) =>
      match write_chunk fuel sizes data u with
      | (Panic, u') => (Panic, (p, u'))
      | (NoFuel, u') => (NoFuel, (p, u'))
      | (r, u') => run_program (next r) (p, u')
      end
  end.

(** The producer that asks [upload] what to do with each file. *)
Definition produce {P} (upload : bytes -> P -> program P) (filename : bytes)
    : comp (P * StreamingUpload S) CursorError unit :=
  fun '(p, u) => run_program (upload filename p) (p, u).

(** ** What the sink hands over *)

Definition small_outcome (limit : nat) (o : UploadOutcome S) : Prop :=
  match o with Complete _ => True | ServerResponse _ r => length r <= limit end.

Definition small (limit : nat) (u : StreamingUpload S) : Prop :=
  u_max_response_size u = limit /\ forall o, u_outcome u = Some o -> small_outcome limit o.

Context (limit : nat).

Lemma small_set_sock s : preserves (small limit) (set_u_sock (S:=S) s).
Proof. by intros u. Qed.
Lemma small_set_pending p : preserves (small limit) (set_u_pending (S:=S) p).
Proof. by intros u. Qed.
Lemma small_set_started : preserves (small limit) (set_u_started (S:=S)).
Proof. by intros u. Qed.
Lemma small_with_taken {A} (m : comp S CursorError A) s : preserves (small limit) (with_taken m s).
Proof. intros u Hu. unfold with_taken. by destruct (m s). Qed.
#[local] Hint Resolve small_set_sock small_set_pending small_set_started small_with_taken : rust.

Lemma small_start : preserves (small limit) (start (S:=S) fuel).
Proof.
  unfold start. apply preserves_bind; [auto with rust|]. intros u. apply preserves_if; [auto with rust|].
  destruct (u_sock u) as [sock|]; [|auto with rust]. apply preserves_bind; [|auto with rust].
  intros v Hv. by destruct (write_fragment fuel [x0a] false sock).
Qed.

Lemma small_send_message data : preserves (small limit) (send_message (S:=S) fuel sizes data).
Proof.
  intros u [Hl Ho]. unfold send_message. unfold sbind at 1, sget.
  destruct (u_sock u) as [sock|]; [|done]. unfold sbind at 1, set_u_sock at 1.
  unfold sbind at 1, with_taken at 1.
  destruct (write_fragment fuel data true sock) as [[a|e| |] s1]; try done. cbn [res_bind].
  unfold sbind at 1, with_taken at 1, io_lift. rewrite Hl.
  destruct (to_limited fuel sizes [] limit s1) as [r s2] eqn:Et.
  destruct r as [prompt|e| |]; try done. cbn [res_map_err res_bind].
  apply to_limited_length in Et. repeat case_bool_decide; (split; [done|]); try done;
    intros o [= <-]; [done|]. exact Et.
Qed.
#[local] Hint Resolve small_start small_send_message : rust.

Lemma small_flush_pending : preserves (small limit) (flush_pending (S:=S) fuel sizes).
Proof.
  unfold flush_pending. apply preserves_bind; [auto with rust|]. intros u. apply preserves_if; [auto with rust|].
  intros v Hv. pose proof (small_send_message (u_pending v) v Hv) as Hs.
  by destruct (send_message fuel sizes (u_pending v) v).
Qed.
#[local] Hint Resolve small_flush_pending : rust.

Lemma small_write_whole n target data : preserves (small limit) (write_whole (S:=S) fuel sizes n target data).
Proof.
  revert data. induction n as [|n IH]; intros data; cbn [write_whole];
    (apply preserves_if; [apply preserves_bind; auto with rust|]); [intros u Hu; exact Hu|].
  apply preserves_bind; [auto with rust|]. intros ?. apply preserves_bind; [auto with rust|].
  intros u. destruct (u_outcome u); auto with rust.
Qed.

Lemma small_fill_pending target data : preserves (small limit) (fill_pending (S:=S) fuel sizes target data).
Proof.
  unfold fill_pending. repeat (first [apply preserves_if | apply preserves_bind]; intros; auto with rust).
Qed.

Lemma small_write_chunk data : preserves (small limit) (write_chunk (S:=S) fuel sizes data).
Proof.
  unfold write_chunk. apply preserves_if; [auto with rust|]. apply preserves_bind; [auto with rust|].
  intros u. destruct (u_outcome u); [auto with rust|]. apply preserves_bind; [auto with rust|].
  intros ?. apply preserves_bind; [apply small_fill_pending|]. intros. apply small_write_whole.
Qed.

Lemma small_run_program {P} (pr : program P) p u : small limit u -> small limit (run_program pr (p, u)).2.2.
Proof.
  revert p u. induction pr as [r p'|data next IH]; intros p u Hu; [done|]. cbn [run_program].
  pose proof (small_write_chunk data u Hu) as Hs.
  destruct (write_chunk fuel sizes data u) as [[a|e| |] u']; try done; by apply IH.
Qed.

(** An outcome that was taken, or computed by [m], is small. *)
Notation gives_small m :=
  (triple (small limit) m (fun o _ => small_outcome limit o) (fun _ _ => True) (fun _ => True)).

Lemma small_or_outcome (m : comp (StreamingUpload S) CursorError (UploadOutcome S)) :
  gives_small m -> gives_small (or_outcome m).
Proof.
  intros Hm u [Hl Ho]. unfold or_outcome, take_outcome. cbn. destruct (u_outcome u) as [o|] eqn:E; cbn.
  - by apply Ho.
  - by apply Hm.
Qed.

Lemma preserves_triple {A} (m : comp (StreamingUpload S) CursorError A) :
  preserves (small limit) m -> triple (small limit) m (fun _ => small limit) (fun _ _ => True) (fun _ => True).
Proof. intros Hm u Hu. specialize (Hm u Hu). by destruct (m u) as [[| | |] ?]. Qed.

Lemma upload_finish_small : gives_small (upload_finish (S:=S) fuel sizes).
Proof.
  unfold upload_finish. apply small_or_outcome.
  eapply triple_bind; [apply preserves_triple; auto with rust|]. intros ?. apply small_or_outcome.
  do 2 (eapply triple_bind; [apply preserves_triple; auto with rust|]; intros ?). apply small_or_outcome.
  eapply triple_bind; [apply preserves_triple; auto with rust|]. intros ? u [Hl Ho].
  unfold take_outcome. cbn. destruct (u_outcome u) as [o|]; cbn; [by apply Ho|done].
Qed.

End Producer.
