(* ===== verification/Conn.v ===== *)
(** * The shared connection (src/conn.rs)

    A [Conn] is shared by cursors, cancel handles and the watchdog thread.
    [run_locked_with_timeouts] lends the socket to one operation at a time;
    other threads may meanwhile cancel it, queue clean-up work, close the
    connection or let the watchdog fire.  Each access to shared state is one
    step; [interfere] stands between two accesses and performs the steps that a
    schedule gives to the other threads there, so that a theorem about all
    schedules is about all interleavings. *)

From Stdlib Require Import ZArith Lia.
From S2P Require Import Prelude Bytes Blockstate IO Writing Reading Errors Replies Delayed.
From S2P Require Import Validate ServerSock Login.

Open Scope Z_scope.

(** ** The watchdog *)

Record WatchdogState := MkWatchdog {
  wd_active : option (Z * Z);
  fired_token : Z;
  next_token : Z;
  stopped : bool;
  has_worker : bool
}.

Definition watchdog_new : WatchdogState := MkWatchdog None 0 0 false false.

(** [u64::wrapping_add] of one, where zero is skipped. *)
Definition bump (token : Z) : Z :=
  let next := (token + 1) mod 2 ^ 64 in
  if next =? 0 then 1 else next.

(** [arm] at the instant [now]; the worker thread is started on first use. *)
Definition arm {E} (fits : Z -> bool) (now : Z) (timeout : option Z)
    : comp WatchdogState E (option Z) := fun wd =>
  match timeout with
  | None => (Ok None, wd)
  | Some t =>
      let token := bump (next_token wd) in
      if fits (now + t) then
        (Ok (Some token), MkWatchdog (Some (token, now + t)) 0 token (stopped wd) true)
      else (Panic, MkWatchdog (wd_active wd) (fired_token wd) token (stopped wd) true)
  end.

(** Whether the operation with this token was timed out. *)
Definition disarm {E} (token : option Z) : comp WatchdogState E bool := fun wd =>
  match token with
  | None => (Ok false, wd)
  | Some t =>
      if match wd_active wd with Some (active, _) => active =? t | None => false end
      then (Ok false, MkWatchdog None (fired_token wd) (next_token wd) (stopped wd) (has_worker wd))
      else (Ok (fired_token wd =? t), wd)
  end.

(** What the worker does in one round of its loop: end, wait for a wake-up, wait
    until a deadline, or give up the operation, which is followed by a shutdown
    of the socket outside the mutex. *)
Inductive round := Stop | Wait | WaitUntil (deadline : Z) | Fire.

Definition watchdog_round (now : Z) (wd : WatchdogState) : round * WatchdogState :=
  if stopped wd then (Stop, wd)
  else
    match wd_active wd with
    | None => (Wait, wd)
    | Some (token, deadline) =>
        if now <? deadline then (WaitUntil deadline, wd)
        else (Fire, MkWatchdog None token (next_token wd) (stopped wd) (has_worker wd))
    end.

(** The first part of [drop]: tell the worker to end. *)
Definition watchdog_drop (wd : WatchdogState) : WatchdogState :=
  MkWatchdog (wd_active wd) (fired_token wd) (next_token wd) true (has_worker wd).

(** ** The connection *)

Definition OPERATION_IDLE : Z := 0.
Definition OPERATION_ACTIVE : Z := 1.
Definition OPERATION_CANCELLED : Z := 2.

Record Locked (S : Type) := MkLocked {
  l_state : ServerState;
  l_sock : option S;
  l_delayed : DelayedCommands
}.
Arguments MkLocked {S}.
Arguments l_state {S}.
Arguments l_sock {S}.
Arguments l_delayed {S}.

(** The fields of [Conn] that change.  [held] and [poisoned] are the state of
    the mutex around [locked]; [shut] says whether the socket was shut down
    through its control block, and [due] how many other threads are about to do
    so. *)
Record Conn (S : Type) := MkConn {
  locked : Locked S;
  held : bool;
  poisoned : bool;
  pending_closes : list Z;
  pending_deallocates : list Z;
  closing : bool;
  operation_state : Z;
  shut : bool;
  due : nat;
  operation_watchdog : WatchdogState
}.
Arguments MkConn {S}.
Arguments locked {S}.
Arguments held {S}.
Arguments poisoned {S}.
Arguments pending_closes {S}.
Arguments pending_deallocates {S}.
Arguments closing {S}.
Arguments operation_state {S}.
Arguments shut {S}.
Arguments due {S}.
Arguments operation_watchdog {S}.

Section Setters.
Context {S : Type}.
Implicit Types c : Conn S.

Definition with_locked (l : Locked S) c : Conn S :=
  MkConn l (held c) (poisoned c) (pending_closes c) (pending_deallocates c) (closing c)
    (operation_state c) (shut c) (due c) (operation_watchdog c).
Definition with_held (h p : bool) c : Conn S :=
  MkConn (locked c) h p (pending_closes c) (pending_deallocates c) (closing c)
    (operation_state c) (shut c) (due c) (operation_watchdog c).
Definition with_pending (cs ds : list Z) c : Conn S :=
  MkConn (locked c) (held c) (poisoned c) cs ds (closing c)
    (operation_state c) (shut c) (due c) (operation_watchdog c).
Definition store_closing c : Conn S :=
  MkConn (locked c) (held c) (poisoned c) (pending_closes c) (pending_deallocates c) true
    (operation_state c) (shut c) (due c) (operation_watchdog c).
Definition with_operation (o : Z) c : Conn S :=
  MkConn (locked c) (held c) (poisoned c) (pending_closes c) (pending_deallocates c) (closing c)
    o (shut c) (due c) (operation_watchdog c).
Definition with_shut (b : bool) (n : nat) c : Conn S :=
  MkConn (locked c) (held c) (poisoned c) (pending_closes c) (pending_deallocates c) (closing c)
    (operation_state c) b n (operation_watchdog c).
Definition with_watchdog (wd : WatchdogState) c : Conn S :=
  MkConn (locked c) (held c) (poisoned c) (pending_closes c) (pending_deallocates c) (closing c)
    (operation_state c) (shut c) (due c) wd.

Definition set_sock (s : option S) c : Conn S :=
  with_locked (MkLocked (l_state (locked c)) s (l_delayed (locked c))) c.
Definition set_delayed (d : DelayedCommands) c : Conn S :=
  with_locked (MkLocked (l_state (locked c)) (l_sock (locked c)) d) c.

(** [Connection::new], on what [establish_connection] returns. *)
Definition conn_new (sock : S) (state : ServerState) (delayed : DelayedCommands) : Conn S :=
  MkConn (MkLocked state (Some sock) delayed) false false [] [] false OPERATION_IDLE false 0
    watchdog_new.

(** ** What other threads do *)

(** [compare_exchange] on the operation state. *)
Definition compare_exchange (from to : Z) c : bool * Conn S :=
  if operation_state c =? from then (true, with_operation to c) else (false, c).

(** A shutdown by another thread that has yet to come. *)
Definition shutdown_due c : Conn S := with_shut (shut c) (Datatypes.S (due c)) c.

Definition shutdown_now c : Conn S := with_shut true (due c) c.

Definition cancel c : res CursorError unit * Conn S :=
  match compare_exchange OPERATION_ACTIVE OPERATION_CANCELLED c with
  | (true, c') => (Ok tt, shutdown_due c')
  | (false, _) =>
      if (operation_state c =? OPERATION_IDLE) || (operation_state c =? OPERATION_CANCELLED)
      then (Ok tt, c) else (Err Poisoned, c)
  end.

(** [add_xcommand_cleanup] for each identifier. *)
Fixpoint add_cleanups {E} (command : bytes) (ids : list Z) : comp DelayedCommands E unit :=
  match ids with
  | [] => sret tt
  | id :: rest =>
      do! add_xcommand_cleanup command (print_int id) in add_cleanups command rest
  end.

Definition queue_cleanups (command : bytes) (ids : list Z) c : Conn S :=
  set_delayed (@add_cleanups CursorError command ids (l_delayed (locked c))).2 c.

Definition try_queue_closes (result_ids : list Z) c : Conn S :=
  if held c then with_pending (pending_closes c ++ result_ids) (pending_deallocates c) c
  else queue_cleanups (bs "close") result_ids c.

Definition try_queue_deallocate (statement_id : Z) c : bool * Conn S :=
  if held c
  then (true, with_pending (pending_closes c) (pending_deallocates c ++ [statement_id]) c)
  else
    match l_sock (locked c) with
    | None => (false, c)
    | Some _ => (true, queue_cleanups (bs "release") [statement_id] c)
    end.

(** [close_connection], on [drop] of the [Connection]. *)
Definition close_connection c : Conn S :=
  let c := shutdown_due (store_closing c) in
  if held c then c else set_sock None c.

(** The watchdog thread looks at its state. *)
Definition watchdog_look (now : Z) c : Conn S :=
  let '(r, wd) := watchdog_round now (operation_watchdog c) in
  let c := with_watchdog wd c in
  match r with Fire => shutdown_due c | _ => c end.

(** A thread that decided on a shutdown performs it. *)
Definition shutdown_arrives c : Conn S :=
  match due c with
  | O => c
  | Datatypes.S n => with_shut true n c
  end.

End Setters.

Inductive action :=
| Cancel
| QueueCloses (ids : list Z)
| Deallocate (id : Z)
| Close
| Look (now : Z)
| Shutdown.

#[global] Instance action_eq_dec : EqDecision action.
Proof. solve_decision. Defined.

Definition react {S} (e : action) (c : Conn S) : Conn S :=
  match e with
  | Cancel => (cancel c).2
  | QueueCloses ids => try_queue_closes ids c
  | Deallocate id => (try_queue_deallocate id c).2
  | Close => close_connection c
  | Look now => watchdog_look now c
  | Shutdown => shutdown_arrives c
  end.

(** ** Operations *)

(** The connection, and how often the other threads have had a turn. *)
Record World (S : Type) := MkWorld { conn : Conn S; looks : nat }.
Arguments MkWorld {S}.
Arguments conn {S}.
Arguments looks {S}.

Section Operation.
Context {S : Type}.

(** What the other threads do at each turn, what the clock shows then, and which
    instants the clock can represent. *)
Context (others : nat -> list action) (clock : nat -> Z) (fits : Z -> bool).

(** [ServerSock::start_operation] at an instant; [None] is a panic, when the
    deadline is not an instant that the clock can represent. *)
Context (begin_operation : Timeouts -> Z -> S -> option S).

Notation wcomp := (comp (World S) CursorError).

(** The other threads have their turn. *)
Definition interfere : wcomp unit := fun w =>
  (Ok tt, MkWorld (fold_left (fun c e => react e c) (others (looks w)) (conn w))
            (Datatypes.S (looks w))).

Definition instant : wcomp Z := fun w => (Ok (clock (looks w)), w).

(** An atomic access to the shared state. *)
Definition access {A} (m : Conn S -> A * Conn S) : wcomp A := fun w =>
  let '(a, c) := m (conn w) in (Ok a, MkWorld c (looks w)).

Definition modify (m : Conn S -> Conn S) : wcomp unit := access (fun c => (tt, m c)).
Definition inspect {A} (m : Conn S -> A) : wcomp A := access (fun c => (m c, c)).

Definition on_watchdog {A} (m : comp WatchdogState CursorError A) : wcomp A := fun w =>
  let '(r, wd) := m (operation_watchdog (conn w)) in
  (r, MkWorld (with_watchdog wd (conn w)) (looks w)).

Definition on_delayed {A} (m : comp DelayedCommands CursorError A) : wcomp A := fun w =>
  let '(r, d) := m (l_delayed (locked (conn w))) in
  (r, MkWorld (set_delayed d (conn w)) (looks w)).

(** The guard of the mutex is dropped when the function returns; when it
    unwinds instead the mutex is poisoned. *)
Definition guarded {A} (m : wcomp A) : wcomp A := fun w =>
  let '(r, w') := m (MkWorld (with_held true (poisoned (conn w)) (conn w)) (looks w)) in
  let p := poisoned (conn w') in
  match r with
  | Ok _ | Err _ => (r, MkWorld (with_held false p (conn w')) (looks w'))
  | Panic => (r, MkWorld (with_held false true (conn w')) (looks w'))
  | NoFuel => (r, w')
  end.

(** Mark the connection as closing, then shut the socket down. *)
Definition abandon {A} (e : CursorError) : wcomp A :=
  do! modify store_closing in
  do! interfere in
  do! modify shutdown_now in
  sfail e.

(** The operation [f] has the session state, the queue and the socket; its
    result is kept for later, a panic unwinds. *)
Definition run_body {A} (f : comp (ServerState * DelayedCommands * S) CursorError A) (sock : S)
    : wcomp (A * S + CursorError) := fun w =>
  let l := locked (conn w) in
  let '(r, (state, delayed, sock')) := f (l_state l, l_delayed l, sock) in
  let w' := MkWorld (with_locked (MkLocked state (l_sock l) delayed) (conn w)) (looks w) in
  match r with
  | Ok a => (Ok (inl (a, sock')), w')
  | Err e => (Ok (inr e), w')
  | Panic => (Panic, w')
  | NoFuel => (NoFuel, w')
  end.

Definition is_timeout (e : CursorError) : bool :=
  match e with IO e => bool_decide (kind e = TimedOut) | _ => false end.

(** From the moment that the operation state is active: prepare, run, evaluate. *)
Definition prepare (t : Timeouts) (sock : S) : wcomp (S * option Z) :=
  do? now := instant in
  do? sock := match begin_operation t now sock with Some s => sret s | None => spanic end in
  do! interfere in
  do? now := instant in
  do? token := on_watchdog (arm fits now (t_operation t)) in
  do! interfere in
  do? closes := access (fun c => (pending_closes c, with_pending [] (pending_deallocates c) c)) in
  do! on_delayed (add_cleanups (bs "close") closes) in
  do! interfere in
  do? releases :=
    access (fun c => (pending_deallocates c, with_pending (pending_closes c) [] c)) in
  do! on_delayed (add_cleanups (bs "release") releases) in
  do! interfere in
  sret (sock, token).

(** Put the socket back, or close the connection. *)
Definition settle {A} (result : A * S + CursorError) (operation_timed_out : bool)
    (operation_state : Z) : wcomp A :=
  if operation_state =? OPERATION_CANCELLED then
    do! modify store_closing in sfail Cancelled
  else if operation_timed_out then abandon Timeout
  else
    match result with
    | inl (a, sock) =>
        do? is_closing := inspect closing in
        if is_closing then sfail Closed
        else
          do! interfere in
          do! modify (set_sock (Some sock)) in
          sret a
    | inr e => abandon (if is_timeout e then Timeout else e)
    end.

Definition evaluate {A} (result : A * S + CursorError) (token : option Z) : wcomp A :=
  do? operation_timed_out := on_watchdog (disarm token) in
  do! interfere in
  do? operation_state :=
    access (fun c => (operation_state c, with_operation OPERATION_IDLE c)) in
  do! interfere in
  settle result operation_timed_out operation_state.

(** The operation proper, once the socket is taken. *)
Definition operate {A} (timeouts : Timeouts)
    (f : comp (ServerState * DelayedCommands * S) CursorError A) (sock : S) : wcomp A :=
  do! interfere in
  do? admitted := access (compare_exchange OPERATION_IDLE OPERATION_ACTIVE) in
  if negb admitted then abandon Poisoned
  else
    do! interfere in
    do? ready := prepare timeouts sock in
    let '(sock, token) := ready in
    do? result := run_body f sock in
    do! interfere in
    evaluate result token.

Definition run_locked_with_timeouts {A} (timeouts : Timeouts)
    (f : comp (ServerState * DelayedCommands * S) CursorError A) : wcomp A :=
  let timeouts := bounded timeouts in
  guarded (
    do? is_poisoned := inspect poisoned in
    if is_poisoned then abandon Poisoned
    else
      do! interfere in
      do? is_closing := inspect closing in
      if is_closing then
        do! modify (set_sock None) in
        do! modify shutdown_now in
        sfail Closed
      else
        do? taken := access (fun c => (l_sock (locked c), set_sock None c)) in
        match taken with
        | None => sfail Closed
        | Some sock => operate timeouts f sock
        end).

End Operation.
