(* ===== verification/ConnInvariant.v ===== *)
(** * The shared connection is safe under interference

    The invariant of a [Conn] between and during operations, its preservation by
    every action of other threads and by every step of an operation, and the
    theorems that follow: a socket that is offered is sound, a failed operation
    ends the connection, a cancellation reaches the operation that runs, clean-up
    work is handed over exactly once. *)

From Stdlib Require Import ZArith Lia.
From stdpp Require Import relations.
From S2P Require Import Prelude Bytes Blockstate IO Writing Reading Errors Replies Delayed.
From S2P Require Import Validate ServerSock Login Conn.

Open Scope Z_scope.

(** ** The invariant *)

(** How far the thread that holds the lock has come: no operation is active,
    one is active with a token of the watchdog, its watchdog is disarmed, or
    its outcome is known ([bad] when it is cancelled or timed out). *)
Inductive stage := Idle | Busy (token : option Z) | Disarmed (timed_out : bool) | Swapped (bad : bool).

Section Invariant.
Context {S : Type}.
Implicit Types c : Conn S.

Definition operation_ok (st : stage) (operation_state : Z) : Prop :=
  match st with
  | Idle | Swapped _ => operation_state = OPERATION_IDLE
  | Busy _ | Disarmed _ =>
      operation_state = OPERATION_ACTIVE \/ operation_state = OPERATION_CANCELLED
  end.

Definition watchdog_ok (st : stage) (wd : WatchdogState) : Prop :=
  match st with
  | Busy (Some token) =>
      (exists deadline, wd_active wd = Some (token, deadline)) \/
      (wd_active wd = None /\ fired_token wd = token)
  | _ => wd_active wd = None
  end.

(** Why the socket may be shut down or be about to be: the connection is closing
    anyway, or the operation that is under way was cancelled or timed out. *)
Definition justified (st : stage) c : Prop :=
  closing c = true \/
  match st with
  | Idle => False
  | Busy token =>
      operation_state c = OPERATION_CANCELLED \/
      (exists t, token = Some t /\ wd_active (operation_watchdog c) = None /\
         fired_token (operation_watchdog c) = t)
  | Disarmed timed_out => operation_state c = OPERATION_CANCELLED \/ timed_out = true
  | Swapped bad => bad = true
  end.

Definition inv (st : stage) c : Prop :=
  operation_ok st (operation_state c) /\ watchdog_ok st (operation_watchdog c) /\
  (shut c = true \/ due c <> 0%nat -> justified st c).

Lemma react_inv st e c : inv st c -> inv st (react e c).
Proof.
  intros (Ho & Hw & Hj). destruct e as [|ids|id| |now|]; simpl.
  - unfold cancel, compare_exchange. destruct (_ =? _) eqn:E; [|by destruct (_ || _)].
    apply Z.eqb_eq in E. rewrite E in Ho. destruct st; simpl in *; [discriminate Ho| | |discriminate Ho];
      (split; [by right|]; split; [done|]; intros _; right; by left).
  - unfold try_queue_closes. by destruct (held c).
  - unfold try_queue_deallocate. destruct (held c); [done|]. by destruct (l_sock _).
  - unfold close_connection. simpl. destruct (held c); (split; [done|]; split; [done|]); by left.
  - unfold watchdog_look, watchdog_round. destruct (stopped _); [done|].
    destruct (wd_active _) as [[token d]|] eqn:E; [|done]. destruct (now <? d); [done|].
    destruct st as [|[t|]| |]; simpl in *; try congruence.
    destruct Hw as [[d' Hd]|[? _]]; [|congruence]. rewrite E in Hd. injection Hd as -> ->.
    split; [done|]. split; [by right|]. intros _. right. right. by exists t.
  - unfold shutdown_arrives. destruct (due c) as [|n] eqn:E.
    { unfold inv. by rewrite E. }
    split; [done|]. split; [done|]. intros _. apply Hj. by right.
Qed.

Lemma reacts_inv st es c : inv st c -> inv st (fold_left (fun c e => react e c) es c).
Proof. revert c. induction es as [|e es IH]; intros c Hc; simpl; eauto using react_inv. Qed.

(** The socket is shut down, or another thread is about to do so. *)
Definition doomed c : Prop := shut c = true \/ due c <> 0%nat.

Lemma react_doomed e c : doomed c -> doomed (react e c).
Proof.
  unfold doomed. intros Hd. destruct e; simpl.
  - unfold cancel, compare_exchange. destruct (_ =? _); [by right|]. by destruct (_ || _).
  - unfold try_queue_closes. by destruct (held c).
  - unfold try_queue_deallocate. destruct (held c); [done|]. by destruct (l_sock _).
  - unfold close_connection. simpl. destruct (held c); by right.
  - unfold watchdog_look. destruct (watchdog_round _ _) as [[] ?]; simpl; auto.
  - unfold shutdown_arrives. destruct (due c) eqn:E; [by rewrite E|by left].
Qed.

Lemma reacts_doomed es c : doomed c -> doomed (fold_left (fun c e => react e c) es c).
Proof. revert c. induction es as [|e es IH]; intros c Hc; simpl; eauto using react_doomed. Qed.

(** Once the other threads have done what they are about to do, the socket of a
    doomed connection is shut down. *)
Lemma doomed_shut c : doomed c <-> shut (Nat.iter (due c) shutdown_arrives c) = true.
Proof.
  assert (forall n c, due c = n -> shut (Nat.iter n shutdown_arrives c) = true <-> shut c = true \/ n <> 0%nat)
    as H; [|by rewrite H].
  clear c. intros n. induction n as [|n IH]; intros c Hd; [simpl; naive_solver|].
  rewrite Nat.iter_succ_r, IH; unfold shutdown_arrives; rewrite Hd; simpl; naive_solver.
Qed.

End Invariant.

(** ** Operations keep the invariant *)

Section Protocol.
Context {S : Type} (others : nat -> list action) (clock : nat -> Z) (fits : Z -> bool).
Context (begin_operation : Timeouts -> Z -> S -> option S).

(** What holds of the session state, the queue and the socket between
    operations.  It includes that the queue is well formed, and neither queueing
    clean-up work nor the start of an operation disturbs it. *)
Context (P : ServerState -> DelayedCommands -> S -> Prop).
Context (P_queued : forall st d s, P st d s -> exists n ps, queued d n ps).
Context (P_cleanup : forall st d s command id d',
  P st d s -> @add_xcommand_cleanup CursorError command (print_int id) d = (Ok tt, d') -> P st d' s).
Context (P_begin : forall st d s t now s', P st d s -> begin_operation t now s = Some s' -> P st d s').

Implicit Types c : Conn S.

Definition offered c : Prop :=
  forall s, l_sock (locked c) = Some s -> P (l_state (locked c)) (l_delayed (locked c)) s.

(** Between operations. *)
Definition at_rest c : Prop :=
  held c = false /\
  (poisoned c = true /\ l_sock (locked c) = None \/
   poisoned c = false /\ inv Idle c /\ offered c).

(** While an operation has the socket. *)
Definition working (st : stage) (sock : S) c : Prop :=
  held c = true /\ poisoned c = false /\ l_sock (locked c) = None /\ inv st c /\
  P (l_state (locked c)) (l_delayed (locked c)) sock.

(** While an operation has lost the socket. *)
Definition bereft (st : stage) c : Prop :=
  held c = true /\ poisoned c = false /\ l_sock (locked c) = None /\ inv st c.

Lemma add_cleanups_P command ids st d s :
  P st d s -> exists d', @add_cleanups CursorError command ids d = (Ok tt, d') /\ P st d' s.
Proof.
  revert d. induction ids as [|id ids IH]; intros d Hd; simpl; [by exists d|].
  destruct (P_queued _ _ _ Hd) as (n & ps & Hq).
  destruct (add_inner_queued CursorError command [bs "X"; command; bs " "; print_int id] true d n ps Hq)
    as (d1 & E1 & _); [done|].
  unfold sbind. change (@add_xcommand_cleanup CursorError command (print_int id) d = (Ok tt, d1)) in E1.
  rewrite E1. apply IH. by eapply P_cleanup.
Qed.

Lemma react_held e c :
  held c = true ->
  held (react e c) = true /\ locked (react e c) = locked c /\ poisoned (react e c) = poisoned c.
Proof.
  intros Hh. destruct e; simpl.
  - unfold cancel, compare_exchange. destruct (_ =? _); [done|]. by destruct (_ || _).
  - unfold try_queue_closes. by rewrite Hh.
  - unfold try_queue_deallocate. by rewrite Hh.
  - unfold close_connection. simpl. by rewrite Hh.
  - unfold watchdog_look. destruct (watchdog_round _ _) as [[] ?]; done.
  - unfold shutdown_arrives. by destruct (due c).
Qed.

Lemma react_free e c :
  held c = false -> offered c ->
  held (react e c) = false /\ poisoned (react e c) = poisoned c /\ offered (react e c) /\
  (l_sock (locked c) = None -> l_sock (locked (react e c)) = None).
Proof.
  intros Hh Ho. destruct e as [|ids|id| |now|]; simpl.
  - unfold cancel, compare_exchange. destruct (_ =? _); [done|]. by destruct (_ || _).
  - unfold try_queue_closes. rewrite Hh. do 2 (split; [done|]). split; [|done].
    intros s Hs. apply Ho in Hs. unfold queue_cleanups. simpl.
    destruct (add_cleanups_P (bs "close") ids _ _ _ Hs) as (d' & -> & Hd). done.
  - unfold try_queue_deallocate. rewrite Hh. destruct (l_sock (locked c)) as [s0|] eqn:El; [|done].
    do 2 (split; [done|]). split; [|by simpl; rewrite El].
    intros s Hs. simpl in Hs. apply Ho in Hs. unfold queue_cleanups. cbn [snd locked set_delayed with_locked l_state l_delayed].
    destruct (add_cleanups_P (bs "release") [id] _ _ _ Hs) as (d' & -> & Hd). done.
  - unfold close_connection. simpl. by rewrite Hh.
  - unfold watchdog_look. destruct (watchdog_round _ _) as [[] ?]; done.
  - unfold shutdown_arrives. by destruct (due c).
Qed.

Lemma react_at_rest e c : at_rest c -> at_rest (react e c).
Proof.
  intros (Hh & [[Hp Hs]|(Hp & Hi & Ho)]).
  - assert (offered c) as Ho by (intros s; congruence).
    destruct (react_free e c Hh Ho) as (H1 & H2 & _ & H4). split; [done|]. left.
    split; [congruence|auto].
  - destruct (react_free e c Hh Ho) as (H1 & H2 & H3 & _). split; [done|]. right.
    split; [congruence|]. split; [by apply react_inv|done].
Qed.

Lemma react_bereft st e c : bereft st c -> bereft st (react e c).
Proof.
  intros (Hh & Hp & Hs & Hi). destruct (react_held e c Hh) as (H1 & H2 & H3).
  split; [done|]. split; [congruence|]. split; [by rewrite H2|by apply react_inv].
Qed.

Lemma working_bereft st sock c :
  working st sock c <-> bereft st c /\ P (l_state (locked c)) (l_delayed (locked c)) sock.
Proof. unfold working, bereft. tauto. Qed.

Lemma react_working st sock e c : working st sock c -> working st sock (react e c).
Proof.
  rewrite !working_bereft. intros [Hb HP]. split; [by apply react_bereft|].
  destruct Hb as [Hh _]. destruct (react_held e c Hh) as (_ & -> & _). done.
Qed.

(** *** Rules for the steps of an operation *)

Notation wcomp := (comp (World S) CursorError).
Notation interfere := (interfere others).

(** An assertion about the connection. *)
Definition on (I : Conn S -> Prop) (w : World S) : Prop := I (conn w).

Lemma rule_interfere (I : Conn S -> Prop) (R : CursorError -> World S -> Prop) U :
  (forall e c, I c -> I (react e c)) -> triple (on I) interfere (fun _ => on I) R U.
Proof.
  intros Hr [c n] Hc. unfold on in *. simpl in *. revert c Hc.
  induction (others n) as [|e es IH]; intros c Hc; simpl; auto.
Qed.

Lemma rule_access {A} (I : Conn S -> Prop) (m : Conn S -> A * Conn S) Q
    (R : CursorError -> World S -> Prop) U :
  (forall c, I c -> Q (m c).1 (m c).2) -> triple (on I) (access m) (fun a => on (Q a)) R U.
Proof. intros H [c n] Hc. unfold access, on in *. simpl. specialize (H c Hc). by destruct (m c). Qed.

Lemma rule_modify (I : Conn S -> Prop) (m : Conn S -> Conn S) Q
    (R : CursorError -> World S -> Prop) U :
  (forall c, I c -> Q (m c)) -> triple (on I) (modify m) (fun _ => on Q) R U.
Proof. intros H. by apply (rule_access I (fun c => (tt, m c)) (fun _ => Q)). Qed.

Lemma rule_instant (I : Conn S -> Prop) (R : CursorError -> World S -> Prop) U :
  triple (on I) (instant clock) (fun _ => on I) R U.
Proof. by intros [c n] Hc. Qed.

(** After an error the connection has no socket. *)
Definition lost (w : World S) : Prop := bereft Idle (conn w).

(** When an operation unwinds, the socket is gone with it. *)
Definition unwound (w : World S) : Prop := l_sock (locked (conn w)) = None.

Lemma inv_closing st c : closing c = true -> operation_ok st (operation_state c) ->
  watchdog_ok st (operation_watchdog c) -> inv st c.
Proof. intros Hc Ho Hw. split; [done|]. split; [done|]. by left. Qed.

(** [abandon], from any stage at which no operation is active any more. *)
Lemma rule_abandon {A} (I : Conn S -> Prop) (Q : A -> World S -> Prop) e :
  (forall c, I c -> bereft Idle (store_closing c)) ->
  triple (on I) (abandon others e) Q (fun _ => lost) unwound.
Proof.
  intros HI. unfold abandon.
  set (shutting c := bereft Idle c /\ closing c = true).
  eapply triple_bind.
  { apply (rule_modify I store_closing shutting). intros c Hc. split; [by apply HI|done]. }
  intros ?. eapply triple_bind.
  { apply (rule_interfere shutting). intros ev c [Hb Hc]. split; [by apply react_bereft|].
    destruct ev; simpl; try done.
    - unfold cancel, compare_exchange. destruct (_ =? _); [done|]. by destruct (_ || _).
    - unfold try_queue_closes. by destruct (held c).
    - unfold try_queue_deallocate. destruct (held c); [done|]. by destruct (l_sock _).
    - unfold close_connection. simpl. by destruct (held c).
    - unfold watchdog_look. destruct (watchdog_round _ _) as [[] ?]; done.
    - unfold shutdown_arrives. by destruct (due c). }
  intros ?. eapply triple_bind.
  { apply (rule_modify shutting shutdown_now (bereft Idle)).
    intros c [(? & ? & ? & ? & ? & ?) Hc]. split_and!; try done. by apply inv_closing. }
  intros ?. by apply triple_fail.
Qed.

(** The operation is over with this result. *)
Definition finished {A} (result : A * S + CursorError) (st : stage) c : Prop :=
  bereft st c /\
  forall a sock, result = inl (a, sock) -> P (l_state (locked c)) (l_delayed (locked c)) sock.

Lemma react_finished {A} (result : A * S + CursorError) st e c :
  finished result st c -> finished result st (react e c).
Proof.
  intros [Hb HP]. split; [by apply react_bereft|].
  destruct Hb as [Hh _]. destruct (react_held e c Hh) as (_ & -> & _). done.
Qed.

Lemma rule_settle {A} (result : A * S + CursorError) (Q : A -> World S -> Prop) timed_out op :
  (forall a sock, result = inl (a, sock) ->
     forall w c n, w = MkWorld (set_sock (Some sock) c) n -> working Idle sock c -> Q a w) ->
  triple
    (on (finished result (Swapped ((op =? OPERATION_CANCELLED) || timed_out))))
    (settle others result timed_out op) Q (fun _ => lost) unwound.
Proof.
  intros HQ. unfold settle.
  assert (forall st c, bereft st c -> operation_ok Idle (operation_state c) ->
    watchdog_ok Idle (operation_watchdog c) -> bereft Idle (store_closing c)) as Hclose.
  { intros st c (? & ? & ? & ?) Ho Hw. split_and!; try done. by apply inv_closing. }
  destruct (op =? OPERATION_CANCELLED).
  { eapply triple_bind; [eapply (rule_modify _ _ (bereft Idle))|intros ?; by apply triple_fail].
    intros c [Hb _]. pose proof Hb as (? & ? & ? & Ho & Hw & _).
    by eapply Hclose. }
  destruct timed_out.
  { apply rule_abandon. intros c [Hb _]. pose proof Hb as (? & ? & ? & Ho & Hw & _).
    by eapply Hclose. }
  cbn [orb].
  assert (forall c, bereft (Swapped false) c -> bereft Idle c) as Hidle.
  { intros c (? & ? & ? & ? & ? & Hj). split_and!; try done. split_and!; try done.
    intros Hs. destruct (Hj Hs) as [?|?]; [by left|done]. }
  destruct result as [[a sock]|e].
  - eapply triple_bind.
    { apply (rule_access _ (fun c => (closing c, c))
        (fun _ c => working Idle sock c)). intros c [Hb HP]. apply working_bereft.
      split; [by apply Hidle|by eapply HP]. }
    intros b. simpl. apply triple_if; intros _.
    { apply triple_fail. intros w Hw. apply working_bereft in Hw as [? _]. done. }
    eapply triple_bind; [apply rule_interfere; intros; by apply react_working|].
    intros ? [c n] Hc. simpl in *. by eapply HQ.
  - apply rule_abandon. intros c [Hb _]. pose proof Hb as (? & ? & ? & Ho & Hw & _).
    by eapply Hclose.
Qed.

Lemma rule_prepare t sock (R : CursorError -> World S -> Prop) :
  triple (on (working (Busy None) sock)) (prepare others clock fits begin_operation t sock)
    (fun ready => on (working (Busy ready.2) ready.1)) R unwound.
Proof.
  unfold prepare. eapply triple_bind; [apply rule_instant|]. intros now.
  destruct (begin_operation t now sock) as [sock'|] eqn:Eb.
  2: { intros [c n] Hc. simpl. apply Hc. }
  eapply triple_bind; [apply (triple_ret _ sock' (fun s => on (working (Busy None) s)))|].
  { intros [c n] Hc. apply working_bereft in Hc as [Hb HP]. apply working_bereft.
    split; [done|]. by eapply P_begin. }
  clear sock' Eb. intros sock'.
  assert (forall m sk, triple (on (working m sk)) interfere (fun _ => on (working m sk)) R unwound)
    as Hint by (intros; apply rule_interfere; intros; by apply react_working).
  eapply triple_bind; [apply Hint|]. intros ?. eapply triple_bind; [apply rule_instant|]. intros now2.
  eapply triple_bind.
  { instantiate (1 := fun token => on (working (Busy token) sock')).
    intros [c n] Hc. unfold on_watchdog, arm. simpl. apply working_bereft in Hc as [Hb HP].
    destruct Hb as (? & ? & ? & Ho & Hw & Hj).
    destruct (t_operation t) as [d|]; [|by apply working_bereft].
    destruct (fits (now2 + d)); [|done].
    apply working_bereft. split; [|done]. split_and!; try done. split; [done|]. split; [simpl; left; eauto|].
    intros Hs. destruct (Hj Hs) as [?|[?|(t0 & ? & _)]]; [by left|right; by left|done]. }
  intros token. eapply triple_bind; [apply Hint|]. intros ?.
  assert (forall cmd ids, triple (on (working (Busy token) sock'))
    (on_delayed (add_cleanups cmd ids)) (fun _ => on (working (Busy token) sock')) R unwound) as Hadd.
  { intros cmd ids [c n] Hc. apply working_bereft in Hc as [Hb HP]. unfold on_delayed. simpl in *.
    destruct (add_cleanups_P cmd ids _ _ _ HP) as (d' & -> & HP'). by apply working_bereft. }
  eapply triple_bind.
  { by apply (rule_access (working (Busy token) sock')
      (fun c => (pending_closes c, with_pending [] (pending_deallocates c) c))
      (fun _ => working (Busy token) sock')). }
  intros closes. eapply triple_bind; [apply Hadd|]. intros ?.
  eapply triple_bind; [apply Hint|]. intros ?. eapply triple_bind.
  { by apply (rule_access (working (Busy token) sock')
      (fun c => (pending_deallocates c, with_pending (pending_closes c) [] c))
      (fun _ => working (Busy token) sock')). }
  intros releases. eapply triple_bind; [apply Hadd|]. intros ?.
  eapply triple_bind; [apply Hint|]. intros ?. by apply triple_ret.
Qed.

Lemma rule_evaluate {A} (result : A * S + CursorError) token (Q : A -> World S -> Prop) :
  (forall a sock, result = inl (a, sock) ->
     forall w c n, w = MkWorld (set_sock (Some sock) c) n -> working Idle sock c -> Q a w) ->
  triple (on (finished result (Busy token))) (evaluate others result token) Q (fun _ => lost) unwound.
Proof.
  intros HQ. unfold evaluate.
  assert (forall st, triple (on (finished result st)) interfere
    (fun _ => on (finished result st)) (fun _ => lost) unwound) as Hint
    by (intros; apply rule_interfere; intros; by apply react_finished).
  eapply triple_bind.
  { instantiate (1 := fun timed_out => on (finished result (Disarmed timed_out))).
    intros [c n] [(? & ? & ? & Ho & Hw & Hj) HP]. unfold on_watchdog, disarm. simpl in *.
    destruct token as [t|].
    - destruct Hw as [[d Hd]|[Hd Hf]]; rewrite Hd; simpl.
      + rewrite Z.eqb_refl. split; [|done]. split_and!; try done. split; [done|]. split; [done|].
        intros Hs. destruct (Hj Hs) as [?|[?|(t0 & _ & ? & _)]]; [by left|right; by left|].
        simpl in *. congruence.
      + rewrite Hf, Z.eqb_refl. split; [|done]. split_and!; try done. split; [done|]. split; [done|].
        intros _. right. by right.
    - split; [|done]. split_and!; try done. split; [done|]. split; [done|].
      intros Hs. destruct (Hj Hs) as [?|[?|(t0 & ? & _)]]; [by left|right; by left|done]. }
  intros timed_out. eapply triple_bind; [apply Hint|]. intros ?.
  eapply triple_bind.
  { apply (rule_access _ (fun c => (operation_state c, with_operation OPERATION_IDLE c))
      (fun op => finished result (Swapped ((op =? OPERATION_CANCELLED) || timed_out)))).
    intros c [(? & ? & ? & Ho & Hw & Hj) HP]. split; [|done]. split_and!; try done. split; [done|]. split; [done|].
    intros Hs. destruct (Hj Hs) as [?|[->| ->]]; [by left|by right|right; apply orb_true_r]. }
  intros op. eapply triple_bind; [apply Hint|]. intros ?. by apply rule_settle.
Qed.

(** The lock is taken; [at_rest] is what was true just before. *)
Definition entered c : Prop :=
  held c = true /\
  (poisoned c = true /\ l_sock (locked c) = None \/
   poisoned c = false /\ inv Idle c /\ offered c).

(** The end of an operation that failed. *)
Definition failed (w : World S) : Prop := entered (conn w) /\ l_sock (locked (conn w)) = None.

Lemma lost_failed w : lost w -> failed w.
Proof.
  intros (Hh & Hp & Hs & Hi). split; [|done]. split; [done|]. right.
  split; [done|]. split; [done|]. intros s. by rewrite Hs.
Qed.

Lemma triple_failed {A} (I : World S -> Prop) (m : wcomp A) Q :
  triple I m Q (fun _ => lost) unwound -> triple I m Q (fun _ => failed) unwound.
Proof.
  intros H s Hs. specialize (H s Hs). destruct (m s) as [[] ?]; try done. by apply lost_failed.
Qed.

Lemma rule_poisoned {A} (Q : A -> World S -> Prop) :
  triple (on (fun c => entered c /\ poisoned c = true)) (abandon others Poisoned) Q
    (fun _ => failed) unwound.
Proof.
  set (I c := held c = true /\ poisoned c = true /\ l_sock (locked c) = None).
  assert (forall e c, I c -> I (react e c)) as Hr.
  { intros e c (Hh & Hp & Hs). destruct (react_held e c Hh) as (H1 & H2 & H3).
    split; [done|]. split; [congruence|]. by rewrite H2. }
  unfold abandon. eapply triple_bind; [apply (rule_modify _ _ I)|].
  { intros c [[Hh [[Hp Hs]|[Hp _]]] Hp']; [done|congruence]. }
  intros ?. eapply triple_bind; [by apply (rule_interfere I)|]. intros ?.
  eapply triple_bind; [by apply (rule_modify I shutdown_now I)|]. intros ?.
  apply triple_fail. intros w (Hh & Hp & Hs). split; [|done]. split; [done|]. by left.
Qed.

Definition succeeds {A} (f : comp (ServerState * DelayedCommands * S) CursorError A) : Prop :=
  forall st d s a st' d' s', P st d s -> f (st, d, s) = (Ok a, (st', d', s')) -> P st' d' s'.

Lemma rule_run_body {A} (f : comp (ServerState * DelayedCommands * S) CursorError A) sock token
    (R : CursorError -> World S -> Prop) :
  succeeds f ->
  triple (on (working (Busy token) sock)) (run_body f sock)
    (fun result => on (finished result (Busy token))) R unwound.
Proof.
  intros Hf [c n] Hc. apply working_bereft in Hc as [Hb HP]. unfold run_body. simpl in *.
  destruct (f _) as [r [[st d] s]] eqn:E. destruct Hb as (? & ? & ? & ?).
  destruct r as [a|e| |]; try done. split; [done|].
  intros a' s' [= <- <-]. by eapply Hf.
Qed.

Lemma rule_operate {A} t (f : comp (ServerState * DelayedCommands * S) CursorError A) sock :
  succeeds f ->
  triple (on (working Idle sock)) (operate others clock fits begin_operation t f sock)
    (fun _ => on entered) (fun _ => lost) unwound.
Proof.
  intros Hf. unfold operate.
  eapply triple_bind; [apply (rule_interfere (working Idle sock)); intros; by apply react_working|].
  intros ?. eapply triple_bind.
  { apply (rule_access _ (compare_exchange OPERATION_IDLE OPERATION_ACTIVE)
      (fun ok c => ok = true /\ working (Busy None) sock c)).
    intros c Hc. apply working_bereft in Hc as [(? & ? & ? & Ho & Hw & Hj) HP].
    unfold compare_exchange. rewrite Ho. simpl. split; [done|]. apply working_bereft.
    split; [|done]. split_and!; try done. split; [by left|]. split; [done|].
    intros Hs. destruct (Hj Hs); [by left|done]. }
  intros ok. destruct ok; simpl; [|intros ? [? _]; discriminate].
  apply (triple_pre _ (on (working (Busy None) sock))); [by intros s [_ ?]|].
  eapply triple_bind; [apply (rule_interfere (working (Busy None) sock)); intros; by apply react_working|].
  intros ?. eapply triple_bind; [apply rule_prepare|]. intros [sock' token].
  eapply triple_bind; [by apply rule_run_body|]. intros result. simpl.
  eapply triple_bind; [apply (rule_interfere (finished result (Busy token))); intros; by apply react_finished|].
  intros ?. apply rule_evaluate. intros v s -> w c n -> Hc.
  apply working_bereft in Hc as [(? & ? & ? & ?) HP]. split; [done|]. right.
  split; [done|]. split; [done|]. by intros s' [= <-].
Qed.

Lemma run_locked_keeps {A} t (f : comp (ServerState * DelayedCommands * S) CursorError A) w :
  succeeds f -> at_rest (conn w) ->
  match run_locked_with_timeouts others clock fits begin_operation t f w with
  | (Ok _, w') | (Panic, w') => at_rest (conn w')
  | (Err _, w') => at_rest (conn w') /\ l_sock (locked (conn w')) = None
  | (NoFuel, _) => True
  end.
Proof.
  intros Hf [Hh Hw]. unfold run_locked_with_timeouts, guarded.
  match goal with |- context [?m (MkWorld _ _)] => set (body := m) end.
  assert (triple (on entered) body (fun _ => on entered) (fun _ => failed) unwound) as Hbody.
  2: { specialize (Hbody (MkWorld (with_held true (poisoned (conn w)) (conn w)) (looks w))).
    destruct (body _) as [[a|e| |] w'].
    - destruct Hbody as [_ He]; [by split|]. by split.
    - destruct Hbody as [[_ He] Hs]; [by split|]. by split.
    - split; [done|]. left. split; [done|]. apply Hbody. by split.
    - done. }
  subst body. clear w Hh Hw. eapply triple_bind.
  { apply (rule_access entered (fun c => (poisoned c, c)) (fun b c => entered c /\ poisoned c = b)).
    done. }
  intros b. apply triple_if; intros ->; [apply rule_poisoned|]. apply triple_failed.
  set (I c := held c = true /\ poisoned c = false /\ inv Idle c /\ offered c).
  apply (triple_pre _ (on I)).
  { intros [c n] [[Hh [[? _]|(? & ? & ?)]] Hp]; simpl in *; [congruence|]. by split_and!. }
  eapply triple_bind; [apply (rule_interfere I)|].
  { intros e c (Hh & Hp & Hi & Ho). destruct (react_held e c Hh) as (H1 & H2 & H3).
    split; [done|]. split; [congruence|]. split; [by apply react_inv|]. unfold offered.
    by rewrite H2. }
  intros ?. eapply triple_bind.
  { by apply (rule_access I (fun c => (closing c, c)) (fun b c => I c /\ closing c = b)). }
  intros b. apply triple_if; intros ->.
  { eapply triple_bind; [apply (rule_modify _ _ (fun c => bereft Idle c /\ closing c = true))|].
    { intros c [(Hh & Hp & Hi & Ho) Hc]. by split_and!. }
    intros ?. eapply triple_bind; [apply (rule_modify _ _ (bereft Idle))|intros ?; by apply triple_fail].
    intros c [(? & ? & ? & ? & ? & ?) Hc]. split_and!; try done. by apply inv_closing. }
  eapply triple_bind.
  { apply (rule_access _ (fun c => (l_sock (locked c), set_sock None c))
      (fun taken c => match taken with Some s => working Idle s c | None => bereft Idle c end)).
    intros c [(Hh & Hp & Hi & Ho) Hc]. cbn [fst snd]. destruct (l_sock (locked c)) as [s|] eqn:E.
    - apply working_bereft. split; [done|]. by apply Ho.
    - done. }
  intros [sock|]; [|by apply triple_fail].
  by apply rule_operate.
Qed.

(** *** Histories of a connection *)

Notation run := (run_locked_with_timeouts others clock fits begin_operation).

(** A step of the connection: another thread acts, or an operation runs to its
    end, with a result, an error or a panic. *)
Inductive step : World S -> World S -> Prop :=
| step_event e w : step w (MkWorld (react e (conn w)) (looks w))
| step_run A t (f : comp (ServerState * DelayedCommands * S) CursorError A) w r w' :
    succeeds f -> run t f w = (r, w') -> r <> NoFuel -> step w w'.

Definition fresh (w : World S) : Prop :=
  exists sock state delayed n, w = MkWorld (conn_new sock state delayed) n /\ P state delayed sock.

Definition reachable (w : World S) : Prop := exists w0, fresh w0 /\ rtc step w0 w.

Lemma step_at_rest w w' : step w w' -> at_rest (conn w) -> at_rest (conn w').
Proof.
  intros [e ?|A t f ? r ? Hf E Hr] Hw; [by apply react_at_rest|].
  pose proof (run_locked_keeps t f _ Hf Hw) as H. rewrite E in H. by destruct r; try apply H.
Qed.

Lemma reachable_at_rest w : reachable w -> at_rest (conn w).
Proof.
  intros (w0 & (sock & state & delayed & n & -> & HP) & Hsteps).
  assert (at_rest (conn (MkWorld (conn_new sock state delayed) n))) as H0.
  { split; [done|]. right. split; [done|]. split; [|by intros s [= <-]].
    split; [done|]. split; [done|]. by intros [?|?]. }
  revert H0. induction Hsteps; eauto using step_at_rest.
Qed.

(** Without a socket every operation is refused, and [f] is not even run. *)
Lemma run_refused w :
  at_rest (conn w) -> l_sock (locked (conn w)) = None ->
  exists e w', (e = Closed \/ e = Poisoned) /\ l_sock (locked (conn w')) = None /\
    forall A t (f : comp (ServerState * DelayedCommands * S) CursorError A), run t f w = (Err e, w').
Proof.
  intros [Hh Hw] Hs. destruct w as [c n]. simpl in *.
  set (c1 := with_held true (poisoned c) c).
  assert (forall es c', held c' = true -> l_sock (locked c') = None ->
    l_sock (locked (fold_left (fun c e => react e c) es c')) = None) as Hes.
  { intros es. induction es as [|e es IH]; intros c' H1 H2; [done|]. simpl.
    destruct (react_held e c' H1) as (H3 & H4 & _). apply IH; [done|]. by rewrite H4. }
  destruct (poisoned c) eqn:Ep.
  - exists Poisoned. eexists. split; [by right|]. split; cycle 1.
    { intros A t f. unfold run_locked_with_timeouts, guarded, inspect, access, sbind at 1.
      cbn [conn looks poisoned with_held]. rewrite Ep. reflexivity. }
    simpl. by apply Hes.
  - set (c2 := fold_left (fun c e => react e c) (others n) c1).
    assert (l_sock (locked c2) = None) as H2 by (by apply Hes).
    exists Closed. destruct (closing c2) eqn:Ec; eexists; (split; [by left|]); (split; cycle 1).
    all: try (intros A t f; unfold run_locked_with_timeouts, guarded, inspect, access, sbind,
      Conn.interfere; cbn [conn looks poisoned with_held]; rewrite Ep; cbn [conn looks];
      fold c1; fold c2; rewrite Ec; cbn [conn looks]; rewrite ?H2; reflexivity).
    all: done.
Qed.

(** *** Cancellation *)

(** A cancellation among the [i] turns since [from] is noted, and the socket of an
    operation that is cancelled is doomed. *)
Definition noted (from i : nat) (w : World S) : Prop :=
  looks w = (from + i)%nat /\
  (operation_state (conn w) = OPERATION_ACTIVE \/ operation_state (conn w) = OPERATION_CANCELLED) /\
  ((exists k, (from <= k < from + i)%nat /\ Cancel ∈ others k) ->
   operation_state (conn w) = OPERATION_CANCELLED) /\
  (operation_state (conn w) = OPERATION_CANCELLED -> doomed (conn w)).

Lemma react_operation e c :
  operation_state c = OPERATION_ACTIVE \/ operation_state c = OPERATION_CANCELLED ->
  operation_state (react e c) =
    if bool_decide (e = Cancel) then OPERATION_CANCELLED else operation_state c.
Proof.
  intros Ho. destruct e; [rewrite bool_decide_true by done|rewrite bool_decide_false by done..]; simpl.
  - unfold cancel, compare_exchange. by destruct Ho as [Ho|Ho]; rewrite Ho.
  - unfold try_queue_closes. by destruct (held c).
  - unfold try_queue_deallocate. destruct (held c); [done|]. by destruct (l_sock _).
  - unfold close_connection. simpl. by destruct (held c).
  - unfold watchdog_look. destruct (watchdog_round _ _) as [[] ?]; done.
  - unfold shutdown_arrives. by destruct (due c).
Qed.

Lemma reacts_operation es c :
  operation_state c = OPERATION_ACTIVE \/ operation_state c = OPERATION_CANCELLED ->
  operation_state (fold_left (fun c e => react e c) es c) =
    if bool_decide (Cancel ∈ es) then OPERATION_CANCELLED else operation_state c.
Proof.
  revert c. induction es as [|e es IH]; intros c Ho; [done|]. simpl.
  assert (operation_state (react e c) = OPERATION_ACTIVE \/
          operation_state (react e c) = OPERATION_CANCELLED) as Ho'.
  { rewrite react_operation by done. destruct (bool_decide (e = Cancel)); [by right|done]. }
  rewrite IH, react_operation by done.
  destruct (decide (Cancel ∈ es)) as [Hin|Hin].
  - rewrite !bool_decide_true by (by rewrite ?elem_of_cons; auto). done.
  - rewrite (bool_decide_false (Cancel ∈ es)) by done. destruct (decide (e = Cancel)) as [->|He].
    + rewrite !bool_decide_true by (by rewrite ?elem_of_cons; auto). done.
    + rewrite !bool_decide_false; [done| |done]. rewrite elem_of_cons. naive_solver.
Qed.

(** A cancellation that takes effect dooms the socket. *)
Lemma reacts_cancelled es c :
  operation_state c = OPERATION_ACTIVE \/ operation_state c = OPERATION_CANCELLED ->
  (operation_state c = OPERATION_CANCELLED -> doomed c) ->
  operation_state (fold_left (fun c e => react e c) es c) = OPERATION_CANCELLED ->
  doomed (fold_left (fun c e => react e c) es c).
Proof.
  revert c. induction es as [|e es IH]; intros c Ho Hd; [done|]. simpl. apply IH.
  - rewrite react_operation by done. case_bool_decide; auto.
  - rewrite react_operation by done. intros Hc. destruct (decide (e = Cancel)) as [->|He].
    + destruct Ho as [Ho|Ho]; [|by apply react_doomed, Hd].
      simpl. unfold cancel, compare_exchange. rewrite Ho. by right.
    + rewrite bool_decide_false in Hc by done. by apply react_doomed, Hd.
Qed.

Lemma rule_noted from i (R : CursorError -> World S -> Prop) U :
  triple (noted from i) interfere (fun _ => noted from (Datatypes.S i)) R U.
Proof.
  intros [c n] (Hn & Ho & Hc & Hd). simpl in *. unfold noted. simpl.
  pose proof (reacts_cancelled (others n) c Ho Hd) as Hd'.
  rewrite reacts_operation in Hd' |- * by done. split; [lia|].
  destruct (decide (Cancel ∈ others n)) as [Hin|Hin].
  { rewrite bool_decide_true in Hd' |- * by done. auto. }
  rewrite bool_decide_false in Hd' |- * by done. split; [done|]. split; [|done]. intros (k & Hk & Hin').
  apply Hc. exists k. split; [|done]. destruct (decide (k = n)) as [->|]; [done|lia].
Qed.

Lemma noted_same from i (w w' : World S) :
  looks w' = looks w -> operation_state (conn w') = operation_state (conn w) ->
  shut (conn w') = shut (conn w) -> due (conn w') = due (conn w) ->
  noted from i w -> noted from i w'.
Proof. unfold noted, doomed. by intros -> -> -> ->. Qed.

(** Steps that neither take a turn nor touch the operation state or the socket's. *)
Definition quiet {A} (m : wcomp A) : Prop := forall w,
  looks (m w).2 = looks w /\ operation_state (conn (m w).2) = operation_state (conn w) /\
  shut (conn (m w).2) = shut (conn w) /\ due (conn (m w).2) = due (conn w).

Lemma rule_quiet {A} from i (m : wcomp A) :
  quiet m -> triple (noted from i) m (fun _ => noted from i) (fun _ _ => True) (fun _ => True).
Proof.
  intros Hm w Hw. destruct (Hm w) as (H1 & H2 & H3 & H4). destruct (m w) as [[] w']; try done.
  by eapply noted_same.
Qed.

Lemma quiet_on_watchdog {A} (m : comp WatchdogState CursorError A) : quiet (on_watchdog m).
Proof. intros w. unfold on_watchdog. by destruct (m _). Qed.

Lemma quiet_on_delayed {A} (m : comp DelayedCommands CursorError A) : quiet (on_delayed m).
Proof. intros w. unfold on_delayed. by destruct (m _). Qed.

Lemma quiet_run_body {A} (f : comp (ServerState * DelayedCommands * S) CursorError A) sock :
  quiet (run_body f sock).
Proof. intros w. unfold run_body. destruct (f _) as [[] [[] ?]]; done. Qed.

Lemma prepare_noted from i t sock :
  triple (noted from i) (prepare others clock fits begin_operation t sock)
    (fun _ => noted from (4 + i)) (fun _ _ => True) (fun _ => True).
Proof.
  unfold prepare. eapply triple_bind; [by apply rule_quiet|]. intros now.
  eapply triple_bind; [apply rule_quiet; by destruct (begin_operation t now sock)|]. intros sock'.
  eapply triple_bind; [apply rule_noted|]. intros ?.
  eapply triple_bind; [by apply rule_quiet|]. intros now2.
  eapply triple_bind; [apply rule_quiet, quiet_on_watchdog|]. intros token.
  eapply triple_bind; [apply rule_noted|]. intros ?.
  eapply triple_bind; [by apply rule_quiet|]. intros closes.
  eapply triple_bind; [apply rule_quiet, quiet_on_delayed|]. intros ?.
  eapply triple_bind; [apply rule_noted|]. intros ?.
  eapply triple_bind; [by apply rule_quiet|]. intros releases.
  eapply triple_bind; [apply rule_quiet, quiet_on_delayed|]. intros ?.
  eapply triple_bind; [apply rule_noted|]. intros ?. by apply triple_ret.
Qed.

Lemma evaluate_cancelled {A} (result : A * S + CursorError) token from i :
  (exists k, (from <= k <= from + i)%nat /\ Cancel ∈ others k) ->
  triple (noted from i) (evaluate others result token)
    (fun _ _ => False) (fun e w => e = Cancelled /\ closing (conn w) = true /\ doomed (conn w))
    (fun _ => False).
Proof.
  intros (k & Hk & Hin) w Hw. unfold evaluate.
  assert (exists b w1, on_watchdog (disarm token) w = (@Ok CursorError _ b, w1)) as (b & w1 & E1).
  { unfold on_watchdog, disarm. destruct token; [|by eauto]. destruct (wd_active _) as [[]|]; [|by eauto].
    destruct (_ =? _); eauto. }
  rewrite (sbind_run _ _ _ _ _ E1).
  assert (noted from i w1) as Hw1.
  { destruct (quiet_on_watchdog (disarm (E := CursorError) token) w) as (H1 & H2 & H3 & H4).
    rewrite E1 in H1, H2, H3, H4. by eapply noted_same. }
  pose proof (rule_noted from i (fun _ _ => True) (fun _ => True) w1 Hw1) as Hw2.
  destruct (interfere w1) as [[u|e| |] w2] eqn:E2; try done. rewrite (sbind_run _ _ _ _ _ E2).
  destruct Hw2 as (Hl & _ & Hc & Hd).
  assert (operation_state (conn w2) = OPERATION_CANCELLED) as Ho.
  { apply Hc. exists k. split; [lia|done]. }
  unfold sbind at 1, access. simpl. unfold sbind, Conn.interfere. simpl. unfold settle.
  rewrite Ho. simpl. split; [done|]. split; [done|].
  by apply (reacts_doomed _ (with_operation OPERATION_IDLE (conn w2))), Hd.
Qed.

Lemma triple_and {A} (P1 P2 : World S -> Prop) (m : wcomp A) Q1 Q2 R1 R2 U1 U2 :
  triple P1 m Q1 R1 U1 -> triple P2 m Q2 R2 U2 ->
  triple (fun w => P1 w /\ P2 w) m (fun a w => Q1 a w /\ Q2 a w) (fun e w => R1 e w /\ R2 e w)
    (fun w => U1 w /\ U2 w).
Proof.
  intros H1 H2 w [Hw1 Hw2]. specialize (H1 w Hw1). specialize (H2 w Hw2).
  destruct (m w) as [[] ?]; done.
Qed.

Lemma operate_cancelled {A} t (f : comp (ServerState * DelayedCommands * S) CursorError A) sock n :
  (exists k, (n + 1 <= k <= n + 7)%nat /\ Cancel ∈ others k) ->
  triple (fun w => on (working Idle sock) w /\ looks w = n)
    (operate others clock fits begin_operation t f sock)
    (fun _ _ => False) (fun e w => e = Cancelled /\ closing (conn w) = true /\ doomed (conn w))
    (fun _ => True).
Proof.
  intros Hk. unfold operate. eapply triple_bind.
  { instantiate (1 := fun _ w => on (working Idle sock) w /\ looks w = (n + 1)%nat).
    intros w [Hw Hl]. simpl. rewrite Hl. split; [|lia].
    rewrite <- Hl. apply (rule_interfere (working Idle sock) (fun _ _ => True) (fun _ => True)); [|done].
    intros. by apply react_working. }
  intros ?. eapply triple_bind.
  { instantiate (1 := fun ok w => ok = true /\ on (working (Busy None) sock) w /\ noted (n + 1) 0 w).
    intros [c m] [Hw Hl]. apply working_bereft in Hw as [(? & ? & ? & Ho & Hwd & Hj) HP].
    unfold access, compare_exchange. simpl in *. rewrite Ho. simpl. split; [done|].
    split; [|split; [simpl; lia|split; [by left|split; [intros (k & ? & _); lia|done]]]]. apply working_bereft.
    split; [|done]. split_and!; try done. split; [by left|]. split; [done|].
    intros Hs. destruct (Hj Hs); [by left|done]. }
  intros [|]; simpl; [|intros ? [? _]; discriminate].
  apply (triple_pre _ (fun w => on (working (Busy None) sock) w /\ noted (n + 1) 0 w));
    [by intros w [_ ?]|].
  assert (forall st s i, triple (fun w => on (working st s) w /\ noted (n + 1) i w) interfere
    (fun _ w => on (working st s) w /\ noted (n + 1) (Datatypes.S i) w)
    (fun e w => e = Cancelled /\ closing (conn w) = true /\ doomed (conn w)) (fun _ => True)) as Hint.
  { intros st s i w Hw. eapply (triple_and _ _ _ _ _ (fun _ _ => False) (fun _ _ => False)
      (fun _ => False) (fun _ => False)) in Hw; [|apply rule_interfere|apply rule_noted].
    - destruct (interfere w) as [[] ?]; [done|by destruct Hw|done..].
    - intros. by apply react_working. }
  eapply triple_bind; [apply Hint|]. intros ?. eapply triple_bind.
  { instantiate (1 := fun ready w => on (working (Busy ready.2) ready.1) w /\ noted (n + 1) 5 w).
    intros w Hw. pose proof (triple_and _ _ _ _ _ _ _ _ _
      (rule_prepare t sock (fun _ _ => False)) (prepare_noted (n + 1) 1 t sock) w Hw) as H.
    destruct (prepare others clock fits begin_operation t sock w) as [[] ?];
      [done|by destruct H|done..]. }
  intros [sock' token]. simpl. eapply triple_bind.
  { instantiate (1 := fun _ => noted (n + 1) 5). intros w [_ Hw].
    pose proof (rule_quiet _ _ _ (quiet_run_body f sock') w Hw) as H. unfold run_body in *.
    destruct (f _) as [[] [[] ?]]; done. }
  intros result. eapply triple_bind; [apply rule_noted|]. intros ? w Hw.
  assert (exists k, (n + 1 <= k <= n + 1 + 6)%nat /\ Cancel ∈ others k) as Hk'.
  { destruct Hk as (k & Hk & Hin). exists k. split; [lia|done]. }
  pose proof (evaluate_cancelled result token _ _ Hk' w Hw) as H.
  destruct (evaluate others result token w) as [[] ?]; done.
Qed.

End Protocol.

(** ** Clean-up work *)

Section Cleanup.
Context {S : Type} (others : nat -> list action) (clock : nat -> Z) (fits : Z -> bool).
Context (begin_operation : Timeouts -> Z -> S -> option S).
Implicit Types c : Conn S.

Definition cleanup_line (command : bytes) (id : Z) : bytes :=
  line_of [bs "X"; command; bs " "; print_int id].

(** The identifiers that an action asks to close and to release. *)
Definition closes_of (e : action) : list Z := match e with QueueCloses ids => ids | _ => [] end.
Definition releases_of (e : action) : list Z := match e with Deallocate id => [id] | _ => [] end.

(** The notes of clean-up commands: their errors do not count. *)
Definition cleanup_notes (command : bytes) (ids : list Z) : list ExpectedResponse :=
  (fun _ => MkExpected command true) <$> ids.

Lemma cleanup_notes_ignored command ids :
  Forall (fun note => ignore_server_error note = true) (cleanup_notes command ids).
Proof. apply Forall_fmap, Forall_true. done. Qed.

Lemma add_cleanups_queued E command ids d n ps :
  queued d n ps ->
  exists d', @add_cleanups E command ids d = (Ok tt, d') /\
    queued d' n (ps ++ (cleanup_line command <$> ids)) /\
    responses d' = responses d ++ cleanup_notes command ids.
Proof.
  revert d ps. induction ids as [|id ids IH]; intros d ps Hq; cbn [add_cleanups].
  { exists d. by rewrite !app_nil_r. }
  destruct (add_inner_queued E command [bs "X"; command; bs " "; print_int id] true d n ps Hq)
    as (d1 & E1 & Hq1 & Hn1); [done|].
  unfold sbind, add_xcommand_cleanup, add_cleanup. rewrite E1.
  destruct (IH _ _ Hq1) as (d' & E' & Hq' & Hn'). exists d'. split; [done|].
  rewrite <- app_assoc in Hq'. rewrite Hn', Hn1, <- app_assoc. done.
Qed.

(** An operation holds the lock after [n] turns, with this queue and this work pending. *)
Definition ledger (owed : nat) (ps : list bytes) (closes releases : list Z) (n : nat) (w : World S) : Prop :=
  held (conn w) = true /\ queued (l_delayed (locked (conn w))) owed ps /\
  pending_closes (conn w) = closes /\ pending_deallocates (conn w) = releases /\ looks w = n.

Lemma react_pending e c :
  held c = true ->
  pending_closes (react e c) = pending_closes c ++ closes_of e /\
  pending_deallocates (react e c) = pending_deallocates c ++ releases_of e.
Proof.
  intros Hh. destruct e; simpl; rewrite ?app_nil_r.
  - unfold cancel, compare_exchange. destruct (_ =? _); [done|]. by destruct (_ || _).
  - unfold try_queue_closes. by rewrite Hh.
  - unfold try_queue_deallocate. by rewrite Hh.
  - unfold close_connection. simpl. by rewrite Hh.
  - unfold watchdog_look. destruct (watchdog_round _ _) as [[] ?]; done.
  - unfold shutdown_arrives. by destruct (due c).
Qed.

Lemma reacts_pending es c :
  held c = true ->
  let c' := fold_left (fun c e => react e c) es c in
  held c' = true /\ locked c' = locked c /\ poisoned c' = poisoned c /\
  pending_closes c' = pending_closes c ++ (es ≫= closes_of) /\
  pending_deallocates c' = pending_deallocates c ++ (es ≫= releases_of).
Proof.
  revert c. induction es as [|e es IH]; intros c Hh; simpl; [by rewrite !app_nil_r|].
  destruct (react_held e c Hh) as (H1 & H2 & Hp). destruct (react_pending e c Hh) as [H3 H4].
  destruct (IH (react e c) H1) as (-> & -> & -> & -> & ->). by rewrite H2, Hp, H3, H4, <- !app_assoc.
Qed.

Lemma rule_ledger owed ps closes releases n (R : CursorError -> World S -> Prop) U :
  triple (ledger owed ps closes releases n) (interfere others)
    (fun _ => ledger owed ps (closes ++ (others n ≫= closes_of)) (releases ++ (others n ≫= releases_of))
                (Datatypes.S n)) R U.
Proof.
  intros [c m] (Hh & Hq & Hc & Hr & Hm). simpl in *. subst m.
  destruct (reacts_pending (others n) c Hh) as (H1 & H2 & _ & H3 & H4).
  unfold ledger. simpl. rewrite H2, H3, H4, Hc, Hr. done.
Qed.

Lemma rule_add_cleanups command ids owed ps closes releases n (R : CursorError -> World S -> Prop) U :
  triple (ledger owed ps closes releases n) (on_delayed (add_cleanups command ids))
    (fun _ => ledger owed (ps ++ (cleanup_line command <$> ids)) closes releases n) R U.
Proof.
  intros [c m] (Hh & Hq & Hc & Hr & Hm). simpl in *. unfold on_delayed. simpl.
  destruct (add_cleanups_queued CursorError command ids _ _ _ Hq) as (d' & -> & Hq' & _). by split_and!.
Qed.

Lemma prepare_ledger t sock owed ps closes releases n (R : CursorError -> World S -> Prop) :
  let C i : list Z := others (n + i)%nat ≫= closes_of in
  let D i : list Z := others (n + i)%nat ≫= releases_of in
  triple (ledger owed ps closes releases n) (prepare others clock fits begin_operation t sock)
    (fun _ => ledger owed
       (ps ++ (cleanup_line (bs "close") <$> (closes ++ C 0%nat) ++ C 1%nat)
           ++ (cleanup_line (bs "release") <$> ((releases ++ D 0%nat) ++ D 1%nat) ++ D 2%nat))
       (C 2%nat ++ C 3%nat) (D 3%nat) (4 + n)%nat) R (fun _ => True).
Proof.
  intros C D. unfold prepare. eapply triple_bind.
  { instantiate (1 := fun _ => ledger owed ps closes releases n). by intros w Hw. }
  intros now. eapply triple_bind.
  { instantiate (1 := fun _ => ledger owed ps closes releases n). intros w Hw.
    by destruct (begin_operation t now sock). }
  intros sock'. eapply triple_bind; [apply rule_ledger|]. intros ?. eapply triple_bind.
  { instantiate (1 := fun _ => ledger owed ps (closes ++ (others n ≫= closes_of))
      (releases ++ (others n ≫= releases_of)) (Datatypes.S n)). by intros w Hw. }
  intros now2. eapply triple_bind.
  { instantiate (1 := fun _ => ledger owed ps (closes ++ (others n ≫= closes_of))
      (releases ++ (others n ≫= releases_of)) (Datatypes.S n)). intros w Hw.
    unfold on_watchdog, arm. destruct (t_operation t); [|done]. by destruct (fits _). }
  intros token. eapply triple_bind; [apply rule_ledger|]. intros ?. eapply triple_bind.
  { instantiate (1 := fun ids w => ids = (closes ++ C 0%nat) ++ C 1%nat /\
      ledger owed ps [] ((releases ++ D 0%nat) ++ D 1%nat) (2 + n)%nat w).
    intros [c m] (? & ? & Hc & ? & ?). unfold C, D. rewrite Nat.add_0_r, Nat.add_1_r. by split_and!. }
  intros ids. eapply triple_bind.
  { intros w [-> Hw]. exact (rule_add_cleanups _ _ _ _ _ _ _ R _ w Hw). }
  intros ?. eapply triple_bind; [apply rule_ledger|]. intros ?. eapply triple_bind.
  { instantiate (1 := fun ids w => ids = ((releases ++ D 0%nat) ++ D 1%nat) ++ D 2%nat /\
      ledger owed (ps ++ (cleanup_line (bs "close") <$> (closes ++ C 0%nat) ++ C 1%nat)) (C 2%nat) [] (3 + n)%nat w).
    intros [c m] (? & ? & ? & Hr & ?). unfold C, D. rewrite (Nat.add_comm n 2). by split_and!. }
  intros ids'. eapply triple_bind.
  { intros w [-> Hw]. exact (rule_add_cleanups _ _ _ _ _ _ _ R _ w Hw). }
  intros ?. eapply triple_bind; [apply rule_ledger|]. intros ?. apply triple_ret.
  unfold C, D. rewrite (Nat.add_comm n 3). intros w. by rewrite <- app_assoc.
Qed.

End Cleanup.

(** ** Theorems *)

Section Theorems.
Context {S : Type} (others : nat -> list action) (clock : nat -> Z) (fits : Z -> bool).
Context (begin_operation : Timeouts -> Z -> S -> option S).
Context (P : ServerState -> DelayedCommands -> S -> Prop).
Context (P_queued : forall st d s, P st d s -> exists n ps, queued d n ps).
Context (P_cleanup : forall st d s command id d',
  P st d s -> @add_xcommand_cleanup CursorError command (print_int id) d = (Ok tt, d') -> P st d' s).
Context (P_begin : forall st d s t now s', P st d s -> begin_operation t now s = Some s' -> P st d s').

Notation reachable := (reachable others clock fits begin_operation P).
Notation step := (step others clock fits begin_operation P).
Notation run := (run_locked_with_timeouts others clock fits begin_operation).

(** C5: A connection that still offers its socket is sound.  Whatever operations
    ran, with whatever outcome, and whatever other threads did meanwhile: when
    the socket is in place and the connection is not closing, nobody has shut
    the socket down or is about to, no operation is marked as active, the
    watchdog is not armed, and the session is in the state [P] in which
    successful operations leave it.  So a cancellation or a timeout never hits
    an operation that comes later. *)
Theorem offered_socket_sound w sock :
  reachable w -> l_sock (locked (conn w)) = Some sock -> closing (conn w) = false ->
  shut (conn w) = false /\ due (conn w) = 0%nat /\
  operation_state (conn w) = OPERATION_IDLE /\ wd_active (operation_watchdog (conn w)) = None /\
  P (l_state (locked (conn w))) (l_delayed (locked (conn w))) sock.
Proof.
  intros Hr Hs Hc. apply reachable_at_rest in Hr as [_ [[_ ?]|(_ & (Ho & Hw & Hj) & HP)]]; [congruence| |done..].
  destruct (shut (conn w)) eqn:Es; [destruct Hj as [?|?]; [by left|congruence|done]|].
  destruct (due (conn w)) eqn:Ed; [by split_and!; auto|].
  destruct Hj as [?|?]; [by right|congruence|done].
Qed.

(** C18: An operation that fails ends the connection.  After an operation returned
    an error, whatever happens next, every operation is refused as closed or
    poisoned, without being run: a socket that may be in the middle of a
    message is never used again. *)
Theorem failure_is_final A t (f : comp (ServerState * DelayedCommands * S) CursorError A) w e w1 w2 :
  reachable w -> succeeds P f -> run t f w = (Err e, w1) -> rtc step w1 w2 ->
  exists e' w3, (e' = Closed \/ e' = Poisoned) /\
    forall B t' (g : comp (ServerState * DelayedCommands * S) CursorError B),
      run t' g w2 = (Err e', w3).
Proof.
  intros Hr Hf E Hsteps.
  assert (at_rest P (conn w1) /\ l_sock (locked (conn w1)) = None) as H1.
  { apply reachable_at_rest in Hr; [|done..].
    pose proof (run_locked_keeps others clock fits begin_operation P P_queued P_cleanup P_begin
      t f w Hf Hr) as H. by rewrite E in H. }
  assert (at_rest P (conn w2) /\ l_sock (locked (conn w2)) = None) as [H2 H3].
  { clear -P_queued P_cleanup P_begin H1 Hsteps.
    induction Hsteps as [|w1 w2 w3 Hstep _ IH]; [done|]. apply IH. destruct H1 as [H1 H2].
    split; [by eapply step_at_rest|]. destruct Hstep as [e w|A t f w r w' Hf E Hr].
    - destruct H1 as [Hh _]. assert (offered P (conn w)) as Ho by (intros s; by rewrite H2).
      by apply (react_free P P_queued P_cleanup e (conn w) Hh Ho).
    - destruct (run_refused others clock fits begin_operation P w H1 H2) as (e & w3' & _ & H & Hrun).
      rewrite Hrun in E. by injection E as _ <-. }
  destruct (run_refused others clock fits begin_operation P w2 H2 H3) as (e' & w3 & He & _ & Hrun).
  by exists e', w3.
Qed.

Lemma reacts_closing es (c : Conn S) :
  Close ∉ es -> closing (fold_left (fun c e => react e c) es c) = closing c.
Proof.
  revert c. induction es as [|e es IH]; intros c He; [done|].
  apply not_elem_of_cons in He as [He Hes]. simpl.
  rewrite IH by done. destruct e; simpl; [| | |done| |].
  - unfold cancel, compare_exchange. destruct (_ =? _); [done|]. by destruct (_ || _).
  - unfold try_queue_closes. by destruct (held c).
  - unfold try_queue_deallocate. destruct (held c); [done|]. by destruct (l_sock _).
  - unfold watchdog_look. destruct (watchdog_round _ _) as [[] ?]; done.
  - unfold shutdown_arrives. by destruct (due c).
Qed.

(** The connection when an operation has taken the socket, after the first turn. *)
Definition taken (w : World S) : World S :=
  MkWorld (set_sock None (fold_left (fun c e => react e c) (others (looks w)) (with_held true false (conn w))))
    (Datatypes.S (looks w)).

(** An operation on a sound connection that nobody closes is admitted. *)
Lemma run_admitted A t (f : comp (ServerState * DelayedCommands * S) CursorError A) w sock :
  reachable w -> l_sock (locked (conn w)) = Some sock -> closing (conn w) = false ->
  Close ∉ others (looks w) ->
  working P Idle sock (conn (taken w)) /\
  let out := operate others clock fits begin_operation (bounded t) f sock (taken w) in
  (run t f w).1 = out.1 /\
  exists h p, conn (run t f w).2 = with_held h p (conn out.2).
Proof.
  intros Hr Hs Hc Hclose.
  apply reachable_at_rest in Hr as [_ [[_ ?]|(Hp & Hi & Ho)]]; [congruence| |done..].
  destruct w as [c n]. unfold taken. simpl in *. set (c1 := with_held true false c).
  set (c2 := fold_left (fun c e => react e c) (others n) c1).
  destruct (reacts_pending (others n) c1 eq_refl) as (H1 & H2 & Hp2 & _ & _). fold c2 in H1, H2, Hp2.
  assert (closing c2 = false) as Hc2 by (unfold c2; by rewrite reacts_closing).
  split.
  { apply working_bereft. split; [|simpl; rewrite H2; by apply Ho].
    assert (inv Idle c2) as Hi2 by (by apply reacts_inv). by split_and!. }
  unfold run_locked_with_timeouts, guarded, inspect, access, sbind, Conn.interfere.
  cbn [conn looks]. rewrite Hp. cbn [poisoned with_held conn looks]. fold c1. fold c2. rewrite Hc2.
  cbn [conn looks]. rewrite H2. unfold c1. cbn [locked with_held]. rewrite Hs.
  cbv zeta. destruct (operate _ _ _ _ _ _ _ _) as [[] [c' m]]; (split; [done|]).
  1-3: by eexists _, _.
  exists (held c'), (poisoned c'). by destruct c'.
Qed.

(** C19: Cancelling works.  When another thread cancels at any moment between the
    start of an operation and its end, the operation is reported as cancelled,
    whatever the operation itself returned (unless it panics or never returns).
    The connection is closing and the socket is shut down, at the latest when the
    threads that were about to shut it down at the end of the operation have done
    so. *)
Theorem cancel_interrupts A t (f : comp (ServerState * DelayedCommands * S) CursorError A) w sock :
  reachable w -> l_sock (locked (conn w)) = Some sock -> closing (conn w) = false ->
  Close ∉ others (looks w) ->
  (exists k, (looks w + 2 <= k <= looks w + 8)%nat /\ Cancel ∈ others k) ->
  match run t f w with
  | (Ok _, _) => False
  | (Err e, w') =>
      e = Cancelled /\ closing (conn w') = true /\
      shut (Nat.iter (due (conn w')) shutdown_arrives (conn w')) = true
  | _ => True
  end.
Proof.
  intros Hr Hs Hc Hclose (k & Hk & Hin).
  destruct (run_admitted A t f w sock Hr Hs Hc Hclose) as (Hw & Hfst & h & p & Hconn).
  pose proof (operate_cancelled others clock fits begin_operation P P_queued P_cleanup P_begin
    (bounded t) f sock (Datatypes.S (looks w))) as Hop.
  specialize (Hop ltac:(exists k; split; [lia|done]) (taken w) (conj Hw eq_refl)).
  destruct (run t f w) as [r w']. cbn [fst snd] in Hfst, Hconn. rewrite Hfst, Hconn.
  destruct (operate _ _ _ _ _ _ _ _) as [[a|e| |] w1]; try done.
  destruct Hop as (-> & Hcl & Hd). split; [done|]. split; [done|].
  apply doomed_shut. exact Hd.
Qed.

End Theorems.

Section Handover.
Context {S : Type} (others : nat -> list action) (clock : nat -> Z) (fits : Z -> bool).
Context (begin_operation : Timeouts -> Z -> S -> option S).

(** C26: Clean-up work is handed over exactly once and in order.  When an operation
    starts, the queue that it sends from is extended with a close command for
    each result and a release command for each statement that was pending or
    was asked for before the lists were taken; what other threads ask for later
    is kept for the next operation. *)
Theorem cleanup_handed_over t sock (w : World S) owed ps :
  held (conn w) = true -> queued (l_delayed (locked (conn w))) owed ps ->
  let C i : list Z := others (looks w + i)%nat ≫= closes_of in
  let D i : list Z := others (looks w + i)%nat ≫= releases_of in
  let closes := pending_closes (conn w) ++ C 0%nat ++ C 1%nat in
  let releases := pending_deallocates (conn w) ++ D 0%nat ++ D 1%nat ++ D 2%nat in
  match prepare others clock fits begin_operation t sock w with
  | (Ok _, w') =>
      queued (l_delayed (locked (conn w'))) owed
        (ps ++ (cleanup_line (bs "close") <$> closes)
            ++ (cleanup_line (bs "release") <$> releases)) /\
      pending_closes (conn w') = C 2%nat ++ C 3%nat /\ pending_deallocates (conn w') = D 3%nat
  | (Err _, _) => False
  | _ => True
  end.
Proof.
  intros Hh Hq C D closes releases.
  pose proof (prepare_ledger others clock fits begin_operation t sock owed ps (pending_closes (conn w))
    (pending_deallocates (conn w)) (looks w) (fun _ _ => False) w) as H.
  fold C D in H. destruct (prepare _ _ _ _ _ _ w) as [[r|e| |] w']; try done; [|by apply H].
  destruct H as (_ & H1 & H2 & H3 & _); [done|]. rewrite <- !app_assoc in H1. done.
Qed.

End Handover.

(** *** Witnesses *)

Definition plain_begin : Timeouts -> Z -> unit -> option unit := fun _ _ s => Some s.

Definition queue_only : ServerState -> DelayedCommands -> unit -> Prop :=
  fun _ d _ => exists n ps, queued d n ps.

Lemma queue_only_cleanup st d s command id d' :
  queue_only st d s -> @add_xcommand_cleanup CursorError command (print_int id) d = (Ok tt, d') ->
  queue_only st d' s.
Proof.
  intros (n & ps & Hq) E.
  destruct (add_inner_queued CursorError command [bs "X"; command; bs " "; print_int id] true d n ps Hq)
    as (d1 & E1 & Hq1 & _); [done|].
  unfold add_xcommand_cleanup, add_cleanup in E. rewrite E1 in E. injection E as <-. by eexists _, _.
Qed.

Definition sample_state : ServerState :=
  MkState true 100 0 None (bs "SHA512") Lit 1 (2 ^ 30).

Definition sample_world : World unit := MkWorld (conn_new tt sample_state delayed_new) 0.

Definition short_timeouts : Timeouts := MkTimeouts None None (Some 5).

Lemma sample_fresh : fresh queue_only sample_world.
Proof.
  exists tt, sample_state, delayed_new, 0%nat. split; [done|]. exists 0%nat, []. apply queued_new.
Qed.

(** Turns in which another thread cancels at turn [at_turn]. *)
Definition cancels (at_turn k : nat) : list action := if (k =? at_turn)%nat then [Cancel] else [].

(** A cancellation that comes too late for the operation, and a shutdown. *)
Definition late_world : World unit :=
  let w := (run_locked_with_timeouts (cancels 20) (fun _ => 0) (fun _ => true) plain_begin
              short_timeouts (@sret _ CursorError _ tt) sample_world).2 in
  MkWorld (react Shutdown (react Cancel (conn w))) (looks w).

Lemma late_reachable :
  reachable (cancels 20) (fun _ => 0) (fun _ => true) plain_begin queue_only late_world.
Proof.
  exists sample_world. split; [apply sample_fresh|].
  eapply rtc_l.
  { eapply (step_run _ _ _ _ _ unit short_timeouts (@sret _ CursorError _ tt) sample_world).
    - intros st d s a st' d' s' HP [= <- <- <- <-]. exact HP.
    - vm_compute. reflexivity.
    - discriminate. }
  eapply rtc_l; [apply (step_event _ _ _ _ _ Cancel)|].
  eapply rtc_l; [apply (step_event _ _ _ _ _ Shutdown)|]. vm_compute. apply rtc_refl.
Qed.

Lemma offered_socket_sound_witness :
  shut (conn late_world) = false /\ operation_state (conn late_world) = OPERATION_IDLE.
Proof.
  destruct (offered_socket_sound (cancels 20) (fun _ => 0) (fun _ => true) plain_begin queue_only
    (fun _ _ _ H => H) queue_only_cleanup (fun _ _ _ _ _ _ H _ => H) late_world tt)
    as (H1 & _ & H2 & _); [apply late_reachable|reflexivity|reflexivity|].
  split; [exact H1|exact H2].
Defined.

Lemma failure_is_final_witness :
  let run A := @run_locked_with_timeouts unit (fun _ => []) (fun _ => 0) (fun _ => true) plain_begin A in
  let w1 := (run _ short_timeouts (@sfail _ _ unit NoResultSet) sample_world).2 in
  exists e' w3, (e' = Closed \/ e' = Poisoned) /\
    forall B t' (g : comp (ServerState * DelayedCommands * unit) CursorError B),
      run _ t' g w1 = (Err e', w3).
Proof.
  intros run w1.
  apply (failure_is_final (fun _ => []) (fun _ => 0) (fun _ => true) plain_begin queue_only
    (fun _ _ _ H => H) queue_only_cleanup (fun _ _ _ _ _ _ H _ => H)
    unit short_timeouts (@sfail _ _ unit NoResultSet) sample_world NoResultSet w1 w1).
  - exists sample_world. split; [apply sample_fresh|apply rtc_refl].
  - intros st d s a st' d' s' _ [=].
  - vm_compute. reflexivity.
  - apply rtc_refl.
Defined.

Lemma cancel_interrupts_witness :
  let '(r, w') := run_locked_with_timeouts (cancels 5) (fun _ => 0) (fun _ => true) plain_begin
                    short_timeouts (@sret _ CursorError _ tt) sample_world in
  r = Err Cancelled /\ due (conn w') = 1%nat /\ shut (shutdown_arrives (conn w')) = true.
Proof.
  pose proof (cancel_interrupts (cancels 5) (fun _ => 0) (fun _ => true) plain_begin queue_only
    (fun _ _ _ H => H) queue_only_cleanup (fun _ _ _ _ _ _ H _ => H)
    unit short_timeouts (@sret _ CursorError _ tt) sample_world tt) as H.
  match type of H with context [match ?r with _ => _ end] => set (out := r) in * end.
  assert (due (conn out.2) = 1%nat) as Hdue by reflexivity.
  assert (match out with
    | (Ok _, _) => False
    | (Err e, w') => e = Cancelled /\ closing (conn w') = true /\
        shut (Nat.iter (due (conn w')) shutdown_arrives (conn w')) = true
    | _ => True end) as H'.
  { apply H; [|reflexivity|reflexivity|apply not_elem_of_nil|].
    - exists sample_world. split; [apply sample_fresh|apply rtc_refl].
    - exists 5%nat. split; [simpl; lia|]. apply list_elem_of_here. }
  destruct out as [[a|e| |] w'] eqn:E; [destruct H'| |vm_compute in E; discriminate..].
  destruct H' as (-> & _ & Hs). cbn [snd] in Hdue. rewrite Hdue in Hs. by split_and!.
Defined.

Lemma cleanup_handed_over_witness :
  let others k := [QueueCloses [Z.of_nat k]; Deallocate 7] in
  let w := MkWorld (with_held true false (conn_new tt sample_state delayed_new)) 0 in
  match prepare others (fun _ => 0) (fun _ => true) plain_begin short_timeouts tt w with
  | (Ok _, w') =>
      queued (l_delayed (locked (conn w'))) 0
        [bs "Xclose 0" ++ [x0a]; bs "Xclose 1" ++ [x0a]; bs "Xrelease 7" ++ [x0a];
         bs "Xrelease 7" ++ [x0a]; bs "Xrelease 7" ++ [x0a]] /\
      pending_closes (conn w') = [2; 3] /\ pending_deallocates (conn w') = [7]
  | (Err _, _) => False
  | _ => True
  end.
Proof.
  intros others w.
  apply (cleanup_handed_over others (fun _ => 0) (fun _ => true) plain_begin short_timeouts tt w 0 []).
  - reflexivity.
  - apply queued_new.
Defined.
