(* ===== verification/Sharing.v ===== *)
(** * Operations among other threads (src/conn.rs)

    The outcome of an operation while other threads behave: the watchdog looks at
    its clock but nothing is overdue, and cursors that are dropped elsewhere ask for
    results to be closed and statements to be released.  The operation sends their
    requests along with its own; what comes too late for it is kept for the next.
    Between operations they add their requests to the queue themselves. *)

From Stdlib Require Import ZArith Lia.
From S2P Require Import Prelude Bytes Blockstate IO Writing Reading Errors Replies Delayed.
From S2P Require Import Validate ServerSock Login Conn ConnInvariant.

Open Scope Z_scope.

Section Sharing.
Context {S : Type} (others : nat -> list action) (clock : nat -> Z) (fits : Z -> bool).
Context (begin_operation : Timeouts -> Z -> S -> option S).
Implicit Types c : Conn S.

(** ** Assumptions on the other threads *)

(** At turn [k] the watchdog looks at the instant [now], which is before the
    deadline of an operation with these time-outs that armed the watchdog at that
    turn or at one of the three turns before. *)
Definition before_deadline (t : Timeouts) (k : nat) (now : Z) : Prop :=
  forall d j, t_operation (bounded t) = Some d -> (j <= k <= j + 3)%nat -> now < clock j + d.

(** Other threads do not cancel, close or overtake an operation; they may hand over
    clean-up work. *)
Definition tame (t : Timeouts) : Prop := forall k e, e ∈ others k ->
  match e with
  | Look now => before_deadline t k now
  | QueueCloses _ | Deallocate _ => True
  | Cancel | Close | Shutdown => False
  end.

(** What other threads ask for in [n] turns from turn [k] on. *)
Definition asked (ask : action -> list Z) (k n : nat) : list Z :=
  seq k n ≫= (fun i => others i ≫= ask).

Lemma asked_app ask k n m : asked ask k (n + m) = asked ask k n ++ asked ask (n + k) m.
Proof. unfold asked. by rewrite seq_app, bind_app, (Nat.add_comm n k). Qed.

Lemma asked_cons ask k n : asked ask k 1 ++ asked ask (Datatypes.S k) n = asked ask k (Datatypes.S n).
Proof. unfold asked. simpl. by rewrite app_nil_r. Qed.

Lemma tame_bounded t : tame t -> tame (bounded t).
Proof.
  intros H k e He. pose proof (H k e He) as Hk. destruct e as [| | | |now|]; try done.
  intros d j Hd. apply Hk. rewrite <- Hd. simpl. destruct (t_operation t); [|done]. simpl. f_equal. lia.
Qed.

(** ** The state of the connection *)

(** The socket is in place and nobody closes; clean-up work may be pending. *)
Definition attached (sock : S) c : Prop :=
  held c = false /\ poisoned c = false /\ closing c = false /\
  l_sock (locked c) = Some sock /\ operation_state c = OPERATION_IDLE /\
  wd_active (operation_watchdog c) = None.

(** No clean-up work is pending either. *)
Definition ready (sock : S) c : Prop :=
  attached sock c /\ pending_closes c = [] /\ pending_deallocates c = [].

(** A thread holds the lock and has taken the socket. *)
Definition at_work c (l : Locked S) (closes releases : list Z) (cl : bool) (op : Z)
    (wd : WatchdogState) : Conn S :=
  MkConn l true false closes releases cl op (shut c) (due c) wd.

(** The watchdog guards nothing, or an operation that armed it at turn [j]. *)
Definition armed_at (t : Timeouts) (j : nat) (wd : WatchdogState) : Prop :=
  forall token deadline, wd_active wd = Some (token, deadline) ->
    exists d, t_operation (bounded t) = Some d /\ deadline = clock j + d.

Lemma react_look now c :
  (forall token deadline, wd_active (operation_watchdog c) = Some (token, deadline) -> now < deadline) ->
  react (Look now) c = c.
Proof.
  intros H. simpl. unfold watchdog_look, watchdog_round.
  destruct c as [? ? ? ? ? ? ? ? ? [[[token deadline]|] ? ? [] ?]]; try done. simpl in *.
  by rewrite (proj2 (Z.ltb_lt _ _) (H _ _ eq_refl)).
Qed.

Lemma with_watchdog_at_work wd' c l cs ds cl op wd :
  with_watchdog wd' (at_work c l cs ds cl op wd) = at_work c l cs ds cl op wd'.
Proof. done. Qed.
Lemma with_pending_at_work cs' ds' c l cs ds cl op wd :
  with_pending cs' ds' (at_work c l cs ds cl op wd) = at_work c l cs' ds' cl op wd.
Proof. done. Qed.
Lemma with_locked_at_work l' c l cs ds cl op wd :
  with_locked l' (at_work c l cs ds cl op wd) = at_work c l' cs ds cl op wd.
Proof. done. Qed.
Lemma store_closing_at_work c l cs ds cl op wd :
  store_closing (at_work c l cs ds cl op wd) = at_work c l cs ds true op wd.
Proof. done. Qed.
Lemma with_operation_at_work op' c l cs ds cl op wd :
  with_operation op' (at_work c l cs ds cl op wd) = at_work c l cs ds cl op' wd.
Proof. done. Qed.

Lemma on_delayed_at_work {A} (m : comp DelayedCommands CursorError A) a d' c st so d cs ds cl op wd k :
  m d = (Ok a, d') ->
  on_delayed m (MkWorld (at_work c (MkLocked st so d) cs ds cl op wd) k) =
  (Ok a, MkWorld (at_work c (MkLocked st so d') cs ds cl op wd) k).
Proof. intros E. unfold on_delayed. cbn. by rewrite E. Qed.

Lemma exchange_at_work to c l cs ds cl op wd :
  compare_exchange op to (at_work c l cs ds cl op wd) = (true, at_work c l cs ds cl to wd).
Proof. unfold compare_exchange. cbn. by rewrite Z.eqb_refl. Qed.

Lemma set_sock_at_work so' c l cs ds cl op wd :
  set_sock so' (at_work c l cs ds cl op wd) =
  at_work c (MkLocked (l_state l) so' (l_delayed l)) cs ds cl op wd.
Proof. done. Qed.

#[local] Hint Rewrite with_watchdog_at_work with_pending_at_work with_locked_at_work with_operation_at_work
  store_closing_at_work set_sock_at_work
  : at_work.

Section Tame.
Context (t : Timeouts) (Htame : tame t).

Lemma react_tame e c l cs ds cl op wd j k :
  e ∈ others k -> armed_at t j wd -> (j <= k <= j + 3)%nat ->
  react e (at_work c l cs ds cl op wd) = at_work c l (cs ++ closes_of e) (ds ++ releases_of e) cl op wd.
Proof.
  intros He Hw Hk. apply Htame in He. destruct e as [|ids|id| |now|]; try done.
  - cbn [closes_of releases_of]. by rewrite app_nil_r.
  - cbn [closes_of releases_of]. by rewrite app_nil_r.
  - cbn [closes_of releases_of]. rewrite !app_nil_r. apply react_look. cbn. intros token deadline Ha.
    destruct (Hw _ _ Ha) as (d & Hd & ->). eauto.
Qed.

Lemma interfere_armed c l cs ds cl op wd j k :
  armed_at t j wd -> (j <= k <= j + 3)%nat ->
  interfere others (MkWorld (at_work c l cs ds cl op wd) k) =
  (Ok tt, MkWorld (at_work c l (cs ++ asked closes_of k 1) (ds ++ asked releases_of k 1) cl op wd)
            (Datatypes.S k)).
Proof.
  intros Hw Hk. unfold interfere, asked. cbn. rewrite !app_nil_r. do 2 f_equal.
  assert (forall e, e ∈ others k -> e ∈ others k) as Hin by done. revert Hin.
  generalize (others k) at 1 3 4 5 as es. intros es. revert cs ds.
  induction es as [|e es IH]; intros cs ds Hin; cbn; [by rewrite !app_nil_r|].
  rewrite (react_tame e c l cs ds cl op wd j k) by (done || (apply Hin; by left)).
  rewrite IH by (intros e' He; apply Hin; by right). by rewrite <- !app_assoc.
Qed.

Lemma interfere_idle c l cs ds cl op wd k :
  wd_active wd = None ->
  interfere others (MkWorld (at_work c l cs ds cl op wd) k) =
  (Ok tt, MkWorld (at_work c l (cs ++ asked closes_of k 1) (ds ++ asked releases_of k 1) cl op wd)
            (Datatypes.S k)).
Proof. intros Hw. apply (interfere_armed c l cs ds cl op wd k k); [|lia]. intros ? ?. by rewrite Hw. Qed.

(** ** The outcome of an operation *)

#[local] Ltac run_step :=
  etransitivity; [eapply sbind_run; first
    [ solve [eapply interfere_idle; eassumption]
    | solve [eapply interfere_armed; [eassumption|lia]]
    | reflexivity]|]; cbn [conn looks]; autorewrite with at_work.

Context (Hfits : forall z, fits z = true).

Lemma arm_ok wd0 k :
  wd_active wd0 = None ->
  exists token wd, @arm CursorError fits (clock k) (t_operation (bounded t)) wd0 = (Ok token, wd) /\
    armed_at t k wd /\
    exists wd', @disarm CursorError token wd = (Ok false, wd') /\ wd_active wd' = None.
Proof.
  intros Hw. unfold arm. destruct (t_operation (bounded t)) as [timeout|] eqn:Et.
  - rewrite Hfits. do 2 eexists. split; [done|]. split.
    { intros token deadline [= <- <-]. by eexists. }
    eexists. split; [cbn; by rewrite Z.eqb_refl|done].
  - do 2 eexists. split; [done|]. split; [intros ? ?; by rewrite Hw|by eexists].
Qed.

(** The queue with the clean-up work added. *)
Definition with_cleanups (closes releases : list Z) : comp DelayedCommands CursorError unit :=
  do! add_cleanups (bs "close") closes in add_cleanups (bs "release") releases.

Lemma prepare_shared c sock sock1 st so d d1 d2 cs ds cl op wd token wd1 n :
  let closes := cs ++ asked closes_of n 2 in
  let releases := ds ++ asked releases_of n 3 in
  wd_active wd = None -> begin_operation (bounded t) (clock n) sock = Some sock1 ->
  @arm CursorError fits (clock (Datatypes.S n)) (t_operation (bounded t)) wd = (Ok token, wd1) ->
  armed_at t (Datatypes.S n) wd1 ->
  @add_cleanups CursorError (bs "close") closes d = (Ok tt, d1) ->
  @add_cleanups CursorError (bs "release") releases d1 = (Ok tt, d2) ->
  prepare others clock fits begin_operation (bounded t) sock
    (MkWorld (at_work c (MkLocked st so d) cs ds cl op wd) n) =
  (Ok (sock1, token),
   MkWorld (at_work c (MkLocked st so d2) (asked closes_of (2 + n) 2) (asked releases_of (3 + n) 1) cl op wd1)
     (4 + n)%nat).
Proof.
  intros closes releases Hw Hb Ha Harm E1 E2. unfold prepare. run_step. rewrite Hb. do 3 run_step.
  etransitivity; [eapply sbind_run|cbv beta].
  { unfold on_watchdog. cbn [conn looks]. cbn [operation_watchdog at_work]. rewrite Ha. reflexivity. }
  cbn [conn looks]. autorewrite with at_work. run_step.
  etransitivity; [eapply sbind_run; unfold access; reflexivity|]. cbn beta.
  cbn [conn looks pending_closes pending_deallocates at_work]. autorewrite with at_work.
  rewrite <- app_assoc, asked_cons.
  etransitivity; [apply sbind_run, on_delayed_at_work, E1|]. cbv beta. run_step.
  etransitivity; [eapply sbind_run; unfold access; reflexivity|]. cbv beta.
  cbn [conn looks pending_closes pending_deallocates at_work]. autorewrite with at_work.
  rewrite <- !app_assoc, !asked_cons.
  etransitivity; [apply sbind_run, on_delayed_at_work, E2|]. cbv beta. run_step.
  rewrite app_nil_l, asked_cons. done.
Qed.

(** What [evaluate] makes of the result of the operation, which was not timed out. *)
Lemma evaluate_shared {A} (result : A * S + CursorError) token c st d cs ds wd wd' k :
  @disarm CursorError token wd = (Ok false, wd') -> wd_active wd' = None ->
  evaluate others result token (MkWorld (at_work c (MkLocked st None d) cs ds false OPERATION_ACTIVE wd) k) =
  match result with
  | inl (a, sock) =>
      (Ok a, MkWorld (at_work c (MkLocked st (Some sock) d) (cs ++ asked closes_of k 3)
                        (ds ++ asked releases_of k 3) false OPERATION_IDLE wd') (3 + k)%nat)
  | inr e =>
      (Err (if is_timeout e then Timeout else e),
       MkWorld (shutdown_now (at_work c (MkLocked st None d) (cs ++ asked closes_of k 3)
                                (ds ++ asked releases_of k 3) true OPERATION_IDLE wd')) (3 + k)%nat)
  end.
Proof.
  intros Hd Hw. unfold evaluate. etransitivity; [eapply sbind_run|cbv beta].
  { unfold on_watchdog. cbn [conn looks]. cbn [operation_watchdog at_work]. rewrite Hd. reflexivity. }
  cbn [conn looks]. autorewrite with at_work. run_step.
  etransitivity; [eapply sbind_run; unfold access; reflexivity|cbv beta].
  cbn [conn looks operation_state at_work]. autorewrite with at_work. run_step.
  unfold settle. cbn [Z.eqb OPERATION_ACTIVE OPERATION_CANCELLED Pos.eqb]. destruct result as [[a s]|e].
  - etransitivity; [eapply sbind_run; unfold inspect, access; reflexivity|cbv beta].
    cbn [conn looks closing at_work]. run_step.
    etransitivity; [eapply sbind_run; unfold modify, access; reflexivity|cbv beta].
    by rewrite <- !app_assoc, !asked_cons.
  - unfold abandon. etransitivity; [eapply sbind_run; unfold modify, access; reflexivity|cbv beta].
    cbn [conn looks]. autorewrite with at_work. run_step.
    etransitivity; [eapply sbind_run; unfold modify, access; reflexivity|cbv beta].
    by rewrite <- !app_assoc, !asked_cons.
Qed.

(** From the moment that the socket is taken to the end of [f]. *)
Lemma operate_shared {A} (f : comp (ServerState * DelayedCommands * S) CursorError A)
    c sock sock1 st d d2 cs ds wd k :
  wd_active wd = None -> begin_operation (bounded t) (clock (2 + k)) sock = Some sock1 ->
  with_cleanups (cs ++ asked closes_of k 4) (ds ++ asked releases_of k 5) d = (Ok tt, d2) ->
  exists token wd1 wd2, armed_at t (3 + k) wd1 /\
    @disarm CursorError token wd1 = (Ok false, wd2) /\ wd_active wd2 = None /\
    operate others clock fits begin_operation (bounded t) f sock
      (MkWorld (at_work c (MkLocked st None d) cs ds false OPERATION_IDLE wd) k) =
    (do? result := run_body f sock1 in do! interfere others in evaluate others result token)
      (MkWorld (at_work c (MkLocked st None d2) (asked closes_of (4 + k) 2) (asked releases_of (5 + k) 1)
                  false OPERATION_ACTIVE wd1) (6 + k)).
Proof.
  intros Hw Hb (u & d1 & E1 & E2)%sbind_ok. destruct u.
  destruct (arm_ok wd (3 + k) Hw) as (token & wd1 & Ea & Harm & wd2 & Ed & Ha).
  exists token, wd1, wd2. split_and!; [done..|]. unfold operate. run_step.
  etransitivity; [eapply sbind_run; unfold access; cbn [conn looks]; rewrite exchange_at_work; reflexivity|].
  cbn [negb]. run_step.
  rewrite <- !app_assoc, !asked_cons.
  etransitivity; [apply sbind_run, (prepare_shared c sock sock1 st None d d1 d2 (cs ++ asked closes_of k 2)
    (ds ++ asked releases_of k 2) false OPERATION_ACTIVE wd token wd1 (2 + k)); try done;
    by rewrite <- app_assoc, <- asked_app|done].
Qed.

(** [f] itself and what follows it. *)
Lemma body_shared {A} (f : comp (ServerState * DelayedCommands * S) CursorError A)
    c sock1 st d2 cs ds token wd1 wd2 j k r st' d' s' :
  armed_at t j wd1 -> (j <= k <= j + 3)%nat ->
  @disarm CursorError token wd1 = (Ok false, wd2) -> wd_active wd2 = None ->
  f (st, d2, sock1) = (r, (st', d', s')) ->
  (do? result := run_body f sock1 in do! interfere others in evaluate others result token)
    (MkWorld (at_work c (MkLocked st None d2) cs ds false OPERATION_ACTIVE wd1) k) =
  let after so cl wd := at_work c (MkLocked st' so d') (cs ++ asked closes_of k 4)
    (ds ++ asked releases_of k 4) cl OPERATION_IDLE wd in
  match r with
  | Ok a => (Ok a, MkWorld (after (Some s') false wd2) (4 + k)%nat)
  | Err e => (Err (if is_timeout e then Timeout else e),
              MkWorld (shutdown_now (after None true wd2)) (4 + k)%nat)
  | Panic => (Panic, MkWorld (at_work c (MkLocked st' None d') cs ds false OPERATION_ACTIVE wd1) k)
  | NoFuel => (NoFuel, MkWorld (at_work c (MkLocked st' None d') cs ds false OPERATION_ACTIVE wd1) k)
  end.
Proof.
  intros Harm Hk Hd Hw Hf.
  assert (interfere others (MkWorld (at_work c (MkLocked st' None d') cs ds false OPERATION_ACTIVE wd1) k) =
    (Ok tt, MkWorld (at_work c (MkLocked st' None d') (cs ++ asked closes_of k 1)
      (ds ++ asked releases_of k 1) false OPERATION_ACTIVE wd1) (Datatypes.S k))) as Hint
    by (eapply interfere_armed; eassumption).
  unfold sbind at 1, run_body. cbn [conn looks locked at_work l_state l_delayed]. rewrite Hf.
  cbv zeta. destruct r as [a|e| |]; autorewrite with at_work; try done.
  all: cbn [l_sock]; unfold sbind; rewrite Hint; cbv beta iota.
  all: rewrite (evaluate_shared _ token _ _ _ _ _ wd1 wd2), <- !app_assoc, !asked_cons; done.
Qed.

(** What is pending at a turn, the messages that an operation sends for it and for
    what it is asked in time, and what is pending when the operation is over. *)
Record agenda := MkAgenda { ag_closes : list Z; ag_releases : list Z; ag_turn : nat }.

Definition agenda_of (w : World S) : agenda :=
  MkAgenda (pending_closes (conn w)) (pending_deallocates (conn w)) (looks w).

Definition agenda_lines (a : agenda) : list bytes :=
  (cleanup_line (bs "close") <$> ag_closes a ++ asked closes_of (ag_turn a) 5) ++
  (cleanup_line (bs "release") <$> ag_releases a ++ asked releases_of (ag_turn a) 6).

Definition agenda_next (a : agenda) : agenda :=
  MkAgenda (asked closes_of (5 + ag_turn a) 6) (asked releases_of (6 + ag_turn a) 5) (11 + ag_turn a).

(** The clean-up work that an operation takes along: what is pending and what other
    threads ask for before it takes the lists. *)
Definition closes_handed (w : World S) : list Z :=
  pending_closes (conn w) ++ asked closes_of (looks w) 5.
Definition releases_handed (w : World S) : list Z :=
  pending_deallocates (conn w) ++ asked releases_of (looks w) 6.

(** The outcome of an operation is that of [f], run on the queue with the clean-up
    work added: on success its value, with the session state, the queue and the
    socket that it leaves in place for the next one, and what other threads asked
    for since still pending; on an error that error, an I/O timeout shown as a
    timeout, with the connection closed and the socket shut down; on a panic the
    connection is poisoned. *)
Lemma run_shared {A} (f : comp (ServerState * DelayedCommands * S) CursorError A)
    (w : World S) sock sock1 d2 r st' d' s' :
  attached sock (conn w) ->
  begin_operation (bounded t) (clock (3 + looks w)) sock = Some sock1 ->
  with_cleanups (closes_handed w) (releases_handed w) (l_delayed (locked (conn w))) = (Ok tt, d2) ->
  f (l_state (locked (conn w)), d2, sock1) = (r, (st', d', s')) ->
  let out := run_locked_with_timeouts others clock fits begin_operation t f w in
  match r with
  | Ok a => out.1 = Ok a /\ attached s' (conn out.2) /\
      locked (conn out.2) = MkLocked st' (Some s') d' /\
      agenda_of out.2 = agenda_next (agenda_of w)
  | Err e => out.1 = Err (if is_timeout e then Timeout else e) /\
      l_sock (locked (conn out.2)) = None /\ closing (conn out.2) = true /\ shut (conn out.2) = true
  | Panic => out.1 = Panic /\ poisoned (conn out.2) = true /\ l_sock (locked (conn out.2)) = None
  | NoFuel => out.1 = NoFuel
  end.
Proof.
  intros (Hh & Hp & Hc & Hs & Ho & Hw) Hb Hd Hf out.
  destruct w as [c n]. unfold closes_handed, releases_handed in *. cbn [conn looks] in *.
  destruct (operate_shared f c sock sock1 (l_state (locked c)) (l_delayed (locked c)) d2
    (pending_closes c ++ asked closes_of n 1) (pending_deallocates c ++ asked releases_of n 1)
    (operation_watchdog c) (Datatypes.S n) Hw Hb) as (token & wd1 & wd2 & Harm & Ed & Ha & Eo).
  { by rewrite <- !app_assoc, !asked_cons. }
  erewrite (body_shared f c sock1 _ _ _ _ token wd1 wd2 _ (6 + Datatypes.S n)) in Eo by (eassumption || lia).
  cbv zeta in Eo.
  assert (out = guarded (fun _ => operate others clock fits begin_operation (bounded t) f sock
      (MkWorld (at_work c (MkLocked (l_state (locked c)) None (l_delayed (locked c)))
         (pending_closes c ++ asked closes_of n 1) (pending_deallocates c ++ asked releases_of n 1)
         false OPERATION_IDLE (operation_watchdog c)) (Datatypes.S n))) (MkWorld c n)) as ->.
  { subst out. unfold run_locked_with_timeouts, guarded. cbn [conn looks].
    match goal with |- (let '(_, _) := ?x in _) = (let '(_, _) := ?y in _) =>
      assert (x = y) as -> end; [|done].
    replace (with_held true (poisoned c) c) with (at_work c (locked c) (pending_closes c)
      (pending_deallocates c) false OPERATION_IDLE (operation_watchdog c))
      by (unfold at_work; destruct c; cbn in *; by subst).
    etransitivity; [eapply sbind_run; unfold inspect, access; reflexivity|].
    cbn [poisoned at_work conn looks]. run_step.
    etransitivity; [eapply sbind_run; unfold inspect, access; reflexivity|].
    cbn [closing at_work conn looks].
    etransitivity; [eapply sbind_run; unfold access; reflexivity|].
    cbn [conn looks locked at_work]. rewrite Hs. by autorewrite with at_work. }
  pose proof (asked_app closes_of (5 + n) 2 4) as Hcs. pose proof (asked_app releases_of (6 + n) 1 4) as Hds.
  unfold guarded, agenda_of. rewrite Eo. destruct r as [a|e| |]; [|by split_and!..|done].
  cbn. unfold agenda_next. cbn. split_and!; try done. f_equal; [exact (eq_sym Hcs)|exact (eq_sym Hds)].
Qed.

Definition cleanup_lines (w : World S) : list bytes := agenda_lines (agenda_of w).

Lemma with_cleanups_queued closes releases d n ps :
  queued d n ps ->
  exists d', with_cleanups closes releases d = (Ok tt, d') /\
    queued d' n (ps ++ (cleanup_line (bs "close") <$> closes) ++ (cleanup_line (bs "release") <$> releases)) /\
    responses d' = responses d ++ cleanup_notes (bs "close") closes ++ cleanup_notes (bs "release") releases.
Proof.
  intros Hq. destruct (add_cleanups_queued CursorError (bs "close") closes d n ps Hq)
    as (d1 & E1 & Hq1 & Hn1).
  destruct (add_cleanups_queued CursorError (bs "release") releases d1 n _ Hq1)
    as (d2 & E2 & Hq2 & Hn2).
  exists d2. split; [unfold with_cleanups, sbind; by rewrite E1|]. split; [by rewrite app_assoc|].
  by rewrite Hn2, Hn1, app_assoc.
Qed.

End Tame.

(** ** Turns between operations

    When nobody holds the lock, other threads add their requests to the queue
    themselves. *)

Definition requests_of (e : action) : list bytes :=
  (cleanup_line (bs "close") <$> closes_of e) ++ (cleanup_line (bs "release") <$> releases_of e).

(** What is queued in turn [k]. *)
Definition requested (k : nat) : list bytes := others k ≫= requests_of.

(** The queue has grown by commands whose errors do not count, and nothing else
    has changed. *)
Definition grown c c' : Prop :=
  (exists notes, Forall (fun note => ignore_server_error note = true) notes /\
     responses (l_delayed (locked c')) = responses (l_delayed (locked c)) ++ notes) /\
  l_state (locked c') = l_state (locked c) /\
  pending_closes c' = pending_closes c /\ pending_deallocates c' = pending_deallocates c.

Lemma grown_refl c : grown c c.
Proof. split; [|done]. exists []. by rewrite app_nil_r. Qed.

Lemma grown_trans c1 c2 c3 : grown c1 c2 -> grown c2 c3 -> grown c1 c3.
Proof.
  intros ((n1 & F1 & E1) & S1 & C1 & D1) ((n2 & F2 & E2) & S2 & C2 & D2). split; [|split_and!; congruence].
  exists (n1 ++ n2). rewrite E2, E1, <- app_assoc. split; [by apply Forall_app|done].
Qed.

(** The connection is at rest with the messages [ps] queued after [n] that are owed. *)
Definition resting (sock : S) (n : nat) (ps : list bytes) c : Prop :=
  attached sock c /\ queued (l_delayed (locked c)) n ps.

Lemma queue_cleanups_grown command ids sock n ps c :
  resting sock n ps c ->
  resting sock n (ps ++ (cleanup_line command <$> ids)) (queue_cleanups command ids c) /\
  grown c (queue_cleanups command ids c).
Proof.
  intros [Hat Hq]. destruct (add_cleanups_queued CursorError command ids _ n ps Hq) as (d & E & Hd & Hn).
  unfold queue_cleanups, resting, grown. rewrite E. split; [by split|]. split_and!; try done.
  eexists. split; [apply (cleanup_notes_ignored command ids)|exact Hn].
Qed.

Lemma react_resting t e sock n ps k c :
  tame t -> e ∈ others k -> resting sock n ps c ->
  resting sock n (ps ++ requests_of e) (react e c) /\ grown c (react e c).
Proof.
  intros Htame He%Htame Hc. pose proof Hc as [(Hh & _ & _ & Hs & _ & Hw) _]. unfold requests_of.
  destruct e as [|ids|id| |now|]; try done; cbn [closes_of releases_of react fmap list_fmap app].
  - rewrite app_nil_r. unfold try_queue_closes. rewrite Hh. by apply queue_cleanups_grown.
  - unfold try_queue_deallocate. rewrite Hh, Hs. exact (queue_cleanups_grown (bs "release") [id] sock n ps c Hc).
  - rewrite app_nil_r. change (watchdog_look now c) with (react (Look now) c).
    rewrite react_look by (by rewrite Hw). split; [done|apply grown_refl].
Qed.

Lemma interfere_resting t sock n ps (w : World S) :
  tame t -> resting sock n ps (conn w) ->
  exists c, interfere others w = (Ok tt, MkWorld c (Datatypes.S (looks w))) /\
    resting sock n (ps ++ requested (looks w)) c /\ grown (conn w) c.
Proof.
  intros Htame Hc. unfold interfere. eexists. split; [reflexivity|]. unfold requested.
  assert (forall e, e ∈ others (looks w) -> e ∈ others (looks w)) as Hin by done. revert ps Hc Hin.
  generalize (conn w) as c. generalize (others (looks w)) at 1 3 4 5 as es. intros es.
  induction es as [|e es IH]; intros c ps Hc Hin; cbn.
  { rewrite app_nil_r. split; [done|apply grown_refl]. }
  destruct (react_resting t e sock n ps (looks w) c Htame ltac:(apply Hin; by left) Hc) as [Hc1 G1].
  destruct (IH _ _ Hc1 ltac:(intros e' He; apply Hin; by right)) as [Hc2 G2].
  rewrite app_assoc. split; [exact Hc2|by eapply grown_trans].
Qed.

(** Results are queued for closing one by one, with a turn before each. *)
Fixpoint queued_lines (k : nat) (ids : list Z) : list bytes :=
  match ids with
  | [] => []
  | id :: rest => requested k ++ cleanup_line (bs "close") id :: queued_lines (Datatypes.S k) rest
  end.

(** [k] turns in which nothing becomes pending. *)
Definition agenda_after (k : nat) (a : agenda) : agenda :=
  MkAgenda (ag_closes a) (ag_releases a) (k + ag_turn a).

(** What is queued when [ids] are closed and an operation follows. *)
Definition carried (a : agenda) (ids : list Z) : list bytes :=
  queued_lines (ag_turn a) ids ++ agenda_lines (agenda_after (length ids) a).

Lemma queued_lines_app k ids1 ids2 :
  queued_lines k (ids1 ++ ids2) = queued_lines k ids1 ++ queued_lines (length ids1 + k) ids2.
Proof.
  revert k. induction ids1 as [|id ids1 IH]; intros k; cbn; [done|]. by rewrite IH, Nat.add_succ_r, <- app_assoc.
Qed.

Lemma carried_nil a : carried a [] = agenda_lines a.
Proof. by destruct a. Qed.

Lemma grown_agenda k (w w' : World S) :
  grown (conn w) (conn w') -> looks w' = (k + looks w)%nat ->
  agenda_of w' = agenda_after k (agenda_of w).
Proof. intros (_ & _ & Hc & Hd) Hl. unfold agenda_of, agenda_after. cbn. congruence. Qed.

Lemma grown_failure c c' replies :
  grown c c' ->
  first_failure (responses (l_delayed (locked c'))) replies =
  first_failure (responses (l_delayed (locked c))) replies.
Proof. intros [(notes & Hi & ->) _]. by apply first_failure_ignored. Qed.

End Sharing.
