(* ===== verification/Watchdog.v ===== *)
(** * Deadlines (the watchdog of src/conn.rs)

    An operation with a time-out arms the watchdog, whose thread looks at the
    clock now and then.  A look at or after the deadline, at any moment before the
    operation disarms the watchdog, makes the operation end as timed out, whatever
    it does itself. *)

From Stdlib Require Import ZArith Lia.
From stdpp Require Import relations.
From S2P Require Import Prelude Bytes Blockstate IO Writing Errors Delayed ServerSock Login Conn ConnInvariant.

Open Scope Z_scope.

(** ** The thread of the watchdog lives as long as the connection *)

Section Awake.
Context {S : Type} (others : nat -> list action) (clock : nat -> Z) (fits : Z -> bool).
Context (begin_operation : Timeouts -> Z -> S -> option S).
Notation wcomp := (comp (World S) CursorError).

Definition awake (w : World S) : Prop := stopped (operation_watchdog (conn w)) = false.

Lemma round_stopped now wd : stopped (watchdog_round now wd).2 = stopped wd.
Proof.
  unfold watchdog_round. destruct wd as [[[token d]|] ? ? [] ?]; simpl; try done. by case_match.
Qed.

Lemma react_stopped e (c : Conn S) :
  stopped (operation_watchdog (react e c)) = stopped (operation_watchdog c).
Proof.
  destruct e; simpl.
  - unfold cancel, compare_exchange. destruct (_ =? _); [done|]. by destruct (_ || _).
  - unfold try_queue_closes. by destruct (held c).
  - unfold try_queue_deallocate. destruct (held c); [done|]. by destruct (l_sock _).
  - unfold close_connection. simpl. by destruct (held c).
  - unfold watchdog_look. pose proof (round_stopped now (operation_watchdog c)) as H.
    by destruct (watchdog_round _ _) as [[] ?].
  - unfold shutdown_arrives. by destruct (due c).
Qed.

Lemma awake_interfere : preserves awake (interfere (S:=S) others).
Proof.
  intros [c n] Hc. unfold awake, interfere in *. cbn [conn looks snd] in *. revert c Hc.
  induction (others n) as [|e es IH]; intros c Hc; [done|]. apply IH. by rewrite react_stopped.
Qed.

Lemma awake_access {A} (m : Conn S -> A * Conn S) :
  (forall c, operation_watchdog (m c).2 = operation_watchdog c) -> preserves awake (access m).
Proof.
  intros Hm [c n] Hc. unfold awake, access in *. cbn [conn looks] in *. specialize (Hm c).
  destruct (m c) as [a c']. cbn in *. by rewrite Hm.
Qed.

Lemma awake_on_delayed {A} (m : comp DelayedCommands CursorError A) : preserves awake (on_delayed (S:=S) m).
Proof. intros [c n] Hc. unfold on_delayed. by destruct (m _). Qed.

Lemma awake_arm t now : preserves awake (on_watchdog (S:=S) (arm fits now t)).
Proof.
  intros [c n] Hc. unfold awake, on_watchdog, arm in *. cbn [conn looks] in *.
  destruct t; [|done]. by destruct (fits _).
Qed.

Lemma awake_disarm token : preserves awake (on_watchdog (S:=S) (disarm token)).
Proof.
  intros [c n] Hc. unfold awake, on_watchdog, disarm in *. cbn [conn looks] in *.
  destruct token; [|done]. destruct (wd_active _) as [[? ?]|]; [|done]. by destruct (_ =? _).
Qed.

Lemma awake_run_body {A} (f : comp (ServerState * DelayedCommands * S) CursorError A) sock :
  preserves awake (run_body f sock).
Proof. intros [c n] Hc. unfold run_body. by destruct (f _) as [[] [[] ?]]. Qed.

Lemma awake_instant : preserves awake (instant (S:=S) clock).
Proof. by intros [c n]. Qed.

#[local] Hint Resolve awake_interfere awake_on_delayed awake_arm awake_disarm awake_run_body awake_instant : rust.
#[local] Hint Extern 1 (preserves awake (access _)) =>
  apply awake_access; intros ?; unfold compare_exchange; try case_match; reflexivity : rust.
#[local] Hint Extern 1 (preserves awake (modify _)) => apply awake_access; reflexivity : rust.
#[local] Hint Extern 1 (preserves awake (inspect _)) => apply awake_access; reflexivity : rust.
#[local] Hint Extern 1 (preserves awake (fun _ => (_, _))) => by intros [? ?] : rust.

#[local] Ltac keeps_awake :=
  repeat first
    [ apply preserves_bind; [|intros ?] | apply preserves_if | solve [auto with rust] | case_match ].

Lemma awake_abandon {A} e : preserves awake (abandon (A:=A) others e : wcomp A).
Proof. unfold abandon. keeps_awake. Qed.

Lemma awake_settle {A} (result : A * S + CursorError) b op : preserves awake (settle others result b op).
Proof. unfold settle. pose proof (@awake_abandon A). keeps_awake. Qed.

Lemma awake_operate {A} t (f : comp (ServerState * DelayedCommands * S) CursorError A) sock :
  preserves awake (operate others clock fits begin_operation t f sock).
Proof.
  unfold operate, prepare, evaluate. pose proof (@awake_abandon A). pose proof (@awake_settle A).
  keeps_awake.
Qed.

Lemma awake_run {A} t (f : comp (ServerState * DelayedCommands * S) CursorError A) :
  preserves awake (run_locked_with_timeouts others clock fits begin_operation t f).
Proof.
  unfold run_locked_with_timeouts. pose proof (@awake_abandon A). pose proof (@awake_operate A).
  intros w Hw. unfold guarded.
  match goal with |- context [?m (MkWorld ?c ?n)] =>
    assert (preserves awake m) as Hm by keeps_awake; specialize (Hm (MkWorld c n) Hw);
    destruct (m (MkWorld c n)) as [[] ?] end; done.
Qed.

End Awake.

(** ** An operation that is overdue *)

Section Deadline.
Context {S : Type} (others : nat -> list action) (clock : nat -> Z) (fits : Z -> bool).
Context (begin_operation : Timeouts -> Z -> S -> option S).
Notation wcomp := (comp (World S) CursorError).
Notation interfere := (interfere (S:=S) others).

(** The watchdog has given up the operation with this token. *)
Definition fired (token : Z) (wd : WatchdogState) : Prop :=
  wd_active wd = None /\ fired_token wd = token.

(** The watchdog is armed with a deadline, or has fired. *)
Definition guards (token deadline : Z) (wd : WatchdogState) : Prop :=
  stopped wd = false /\ (wd_active wd = Some (token, deadline) \/ fired token wd).

Definition late (deadline : Z) (e : action) : Prop := exists now, e = Look now /\ deadline <= now.

Lemma react_guards token deadline e (c : Conn S) :
  guards token deadline (operation_watchdog c) ->
  guards token deadline (operation_watchdog (react e c)) /\
  (fired token (operation_watchdog c) \/ late deadline e ->
   fired token (operation_watchdog (react e c))).
Proof.
  intros Hg. assert (forall c' : Conn S, operation_watchdog c' = operation_watchdog c ->
    ~ late deadline e -> guards token deadline (operation_watchdog c') /\
    (fired token (operation_watchdog c) \/ late deadline e -> fired token (operation_watchdog c')))
    as Hsame by (intros c' ->; tauto).
  destruct e as [|ids|id| |now|]; try (apply Hsame; [|by intros (? & ? & _)]); simpl.
  - unfold cancel, compare_exchange. destruct (_ =? _); [done|]. by destruct (_ || _).
  - unfold try_queue_closes. by destruct (held c).
  - unfold try_queue_deallocate. destruct (held c); [done|]. by destruct (l_sock _).
  - unfold close_connection. simpl. by destruct (held c).
  - clear Hsame. destruct Hg as [Hs Hg]. unfold watchdog_look, watchdog_round. rewrite Hs.
    destruct Hg as [Ha|[Ha Hf]]; rewrite Ha.
    + destruct (now <? deadline) eqn:E; simpl.
      * split; [by split; [|left]|]. intros [[? _]|(now' & [= <-] & ?)]; [congruence|lia].
      * by split; [split; [|right]|].
    + by split; [split; [|right]|].
  - unfold shutdown_arrives. by destruct (due c).
Qed.

Lemma reacts_guards token deadline es (c : Conn S) :
  guards token deadline (operation_watchdog c) ->
  let wd' := operation_watchdog (fold_left (fun c e => react e c) es c) in
  guards token deadline wd' /\
  (fired token (operation_watchdog c) \/ Exists (late deadline) es -> fired token wd').
Proof.
  revert c. induction es as [|e es IH]; intros c Hg; simpl.
  { split; [done|]. intros [?|H]; [done|]. by apply Exists_nil in H. }
  destruct (react_guards token deadline e c Hg) as [H1 H2]. destruct (IH _ H1) as [H3 H4].
  split; [done|]. intros Hor. apply H4. rewrite Exists_cons in Hor. tauto.
Qed.

(** The watchdog guards the operation, and has fired when it looked after the
    deadline in one of the [i] turns since [from]. *)
Definition overdue (token : option Z) (deadline : Z) (from i : nat) (w : World S) : Prop :=
  exists t, token = Some t /\ looks w = (from + i)%nat /\
  guards t deadline (operation_watchdog (conn w)) /\
  ((exists k, (from <= k < from + i)%nat /\ Exists (late deadline) (others k)) ->
   fired t (operation_watchdog (conn w))).

Lemma rule_overdue token deadline from i (R : CursorError -> World S -> Prop) U :
  triple (overdue token deadline from i) interfere
    (fun _ => overdue token deadline from (Datatypes.S i)) R U.
Proof.
  intros [c n] (t & -> & Hn & Hg & Hc). cbn [conn looks] in *.
  destruct (reacts_guards t deadline (others n) c Hg) as [H1 H2].
  exists t. split; [done|]. split; [simpl; lia|]. split; [done|]. intros (k & Hk & Hl). apply H2.
  destruct (decide (k = n)) as [->|]; [by right|]. left. apply Hc. exists k. split; [lia|done].
Qed.

(** Steps that neither take a turn nor touch the watchdog. *)
Definition leaves_watchdog {A} (m : wcomp A) : Prop := forall w,
  looks (m w).2 = looks w /\ operation_watchdog (conn (m w).2) = operation_watchdog (conn w).

Lemma rule_leaves {A} token deadline from i (m : wcomp A) :
  leaves_watchdog m ->
  triple (overdue token deadline from i) m (fun _ => overdue token deadline from i)
    (fun _ _ => True) (fun _ => True).
Proof.
  intros Hm w Hw. destruct (Hm w) as [H1 H2]. unfold overdue in *.
  by destruct (m w) as [[] w']; try done; simpl in *; rewrite H1, H2.
Qed.

Lemma leaves_on_delayed {A} (m : comp DelayedCommands CursorError A) : leaves_watchdog (on_delayed m).
Proof. intros w. unfold on_delayed. by destruct (m _). Qed.

Lemma leaves_access {A} (m : Conn S -> A * Conn S) :
  (forall c, operation_watchdog (m c).2 = operation_watchdog c) -> leaves_watchdog (access m).
Proof. intros Hm [c n]. unfold access. simpl. specialize (Hm c). by destruct (m c). Qed.

Lemma leaves_run_body {A} (f : comp (ServerState * DelayedCommands * S) CursorError A) sock :
  leaves_watchdog (run_body f sock).
Proof. intros w. unfold run_body. by destruct (f _) as [[] [[] ?]]. Qed.

(** The watchdog runs and [n] turns are over. *)
Definition at_turn (n : nat) (w : World S) : Prop := awake w /\ looks w = n.

Lemma rule_at_turn n (R : CursorError -> World S -> Prop) U :
  triple (at_turn n) interfere (fun _ => at_turn (Datatypes.S n)) R U.
Proof.
  intros w [Ha <-]. pose proof (awake_interfere others w Ha) as H. by split.
Qed.

Lemma arm_overdue n d :
  triple (at_turn n) (on_watchdog (arm fits (clock n) (Some d)))
    (fun token => overdue token (clock n + d) n 0) (fun _ _ => True) (fun _ => True).
Proof.
  intros [c m] [Ha Hl]. unfold awake, on_watchdog, arm in *. simpl in *.
  destruct (fits (clock n + d)); [|done]. eexists. split; [done|]. split; [simpl; lia|].
  split; [by split; [|left]|]. intros (k & ? & _). lia.
Qed.

Lemma prepare_overdue t d sock n :
  t_operation t = Some d ->
  triple (at_turn n) (prepare others clock fits begin_operation t sock)
    (fun ready => overdue ready.2 (clock (Datatypes.S n) + d) (Datatypes.S n) 3)
    (fun _ _ => True) (fun _ => True).
Proof.
  intros Ht. unfold prepare. eapply triple_bind; [by instantiate (1 := fun _ => at_turn n); intros w|].
  intros now. eapply triple_bind.
  { instantiate (1 := fun _ => at_turn n). by destruct (begin_operation t now sock); intros w. }
  intros sock'. eapply triple_bind; [apply rule_at_turn|]. intros ?. eapply triple_bind.
  { instantiate (1 := fun now w => now = clock (Datatypes.S n) /\ at_turn (Datatypes.S n) w).
    intros w [? Hl]. unfold instant. by rewrite Hl. }
  intros now2. rewrite Ht. eapply triple_bind.
  { intros w [-> Hw]. exact (arm_overdue (Datatypes.S n) d w Hw). }
  intros token. eapply triple_bind; [apply rule_overdue|]. intros ?.
  eapply triple_bind; [by apply rule_leaves, leaves_access|]. intros closes.
  eapply triple_bind; [apply rule_leaves, leaves_on_delayed|]. intros ?.
  eapply triple_bind; [apply rule_overdue|]. intros ?.
  eapply triple_bind; [by apply rule_leaves, leaves_access|]. intros releases.
  eapply triple_bind; [apply rule_leaves, leaves_on_delayed|]. intros ?.
  eapply triple_bind; [apply rule_overdue|]. intros ?. by apply triple_ret.
Qed.

Definition interrupted (e : CursorError) : Prop := e = Timeout \/ e = Cancelled.

Lemma evaluate_overdue {A} (result : A * S + CursorError) token deadline from i :
  (exists k, (from <= k < from + i)%nat /\ Exists (late deadline) (others k)) ->
  triple (overdue token deadline from i) (evaluate others result token)
    (fun _ _ => False) (fun e _ => interrupted e) (fun _ => False).
Proof.
  intros Hk [c n] (t & -> & _ & _ & Hf). destruct (Hf Hk) as [Ha Ht]. cbn [conn] in *.
  unfold evaluate, sbind at 1, on_watchdog, disarm. cbn [conn]. rewrite Ha, Ht, Z.eqb_refl.
  unfold sbind at 1, Conn.interfere at 1. unfold sbind at 1, access at 1. unfold sbind at 1, Conn.interfere at 1.
  unfold settle. destruct (_ =? _); [by right|by left].
Qed.

(** As for cancellations, the operation starts between operations of a sound connection. *)
Context (P : ServerState -> DelayedCommands -> S -> Prop).
Context (P_queued : forall st d s, P st d s -> exists n ps, queued d n ps).
Context (P_cleanup : forall st d s command id d',
  P st d s -> @add_xcommand_cleanup CursorError command (print_int id) d = (Ok tt, d') -> P st d' s).
Context (P_begin : forall st d s t now s', P st d s -> begin_operation t now s = Some s' -> P st d s').

Definition at_work (st : stage) (sock : S) (n : nat) (w : World S) : Prop :=
  on (working P st sock) w /\ at_turn n w.

Lemma rule_at_work st sock n (R : CursorError -> World S -> Prop) U :
  triple (at_work st sock n) interfere (fun _ => at_work st sock (Datatypes.S n)) R U.
Proof.
  intros w [Hw Hn]. split; [|exact (rule_at_turn n R U w Hn)].
  apply (rule_interfere others (working P st sock) R U); [|done]. intros. by apply react_working.
Qed.

Lemma operate_overdue {A} t d (f : comp (ServerState * DelayedCommands * S) CursorError A) sock n :
  t_operation t = Some d ->
  (exists k, (n + 3 <= k <= n + 6)%nat /\ Exists (late (clock (n + 3)%nat + d)) (others k)) ->
  triple (at_work Idle sock n) (operate others clock fits begin_operation t f sock)
    (fun _ _ => False) (fun e _ => interrupted e) (fun _ => True).
Proof.
  intros Ht Hk. unfold operate. eapply triple_bind; [apply rule_at_work|]. intros ?.
  eapply triple_bind.
  { instantiate (1 := fun ok w => ok = true /\ at_work (Busy None) sock (Datatypes.S n) w).
    intros [c m] [Hw Hn]. apply working_bereft in Hw as [(? & ? & ? & Ho & Hwd & Hj) HP].
    unfold access, compare_exchange. simpl in *. rewrite Ho. split; [done|]. split; [|done].
    apply working_bereft. split; [|done]. split_and!; try done. split; [by left|]. split; [done|].
    intros Hs. destruct (Hj Hs); [by left|done]. }
  intros [|]; [|by intros w [? _]].
  apply (triple_pre _ (at_work (Busy None) sock (Datatypes.S n))); [by intros w [_ ?]|].
  cbn [negb]. eapply triple_bind; [apply rule_at_work|]. intros ?.
  eapply triple_bind.
  { instantiate (1 := fun ready => overdue ready.2 (clock (n + 3)%nat + d) (n + 3) 3).
    replace (n + 3)%nat with (Datatypes.S (Datatypes.S (Datatypes.S n))) by lia.
    intros w Hw. pose proof (triple_and _ _ _ _ _ _ _ _ _
      (rule_prepare others clock fits begin_operation P P_queued P_cleanup P_begin t sock (fun _ _ => False))
      (prepare_overdue t d sock _ Ht) w Hw) as H.
    destruct (prepare _ _ _ _ _ _ w) as [[] ?]; [apply H|by destruct H|done..]. }
  intros [sock' token]. eapply triple_bind.
  { instantiate (1 := fun _ => overdue token (clock (n + 3)%nat + d) (n + 3) 3).
    intros w Hw. pose proof (rule_leaves _ _ _ _ _ (leaves_run_body f sock') w Hw) as H.
    unfold run_body in *. by destruct (f _) as [[] [[] ?]]. }
  intros result. eapply triple_bind; [apply rule_overdue|]. intros ? w Hw.
  assert (exists k, (n + 3 <= k < n + 3 + 4)%nat /\ Exists (late (clock (n + 3)%nat + d)) (others k)) as Hk'.
  { destruct Hk as (k & ? & ?). exists k. split; [lia|done]. }
  pose proof (evaluate_overdue result token _ _ _ Hk' w Hw) as H.
  by destruct (evaluate others result token w) as [[] ?].
Qed.

Lemma reachable_awake w : reachable others clock fits begin_operation P w -> awake w.
Proof.
  intros (w0 & (sock & state & delayed & n & -> & _) & Hsteps).
  assert (awake (MkWorld (conn_new sock state delayed) n)) as H0 by done.
  revert H0. induction Hsteps as [|w1 w2 w3 Hstep _ IH]; [done|]. intros H1. apply IH.
  destruct Hstep as [e w|A t f w r w' _ E _]; [by unfold awake in *; cbn [conn]; rewrite react_stopped|].
  pose proof (awake_run others clock fits begin_operation t f w H1) as H. by rewrite E in H.
Qed.

(** C20: Deadlines are enforced.  When the watchdog looks at its clock at or after the
    deadline of an operation, at any moment between arming and disarming, the
    operation is reported as timed out, or as cancelled when somebody cancelled
    it as well, whatever the operation itself returned (unless it panics or
    never returns).  The thread of the watchdog is never stopped before. *)
Theorem deadline_interrupts A t d (f : comp (ServerState * DelayedCommands * S) CursorError A) w sock :
  reachable others clock fits begin_operation P w ->
  l_sock (locked (conn w)) = Some sock -> closing (conn w) = false -> Close ∉ others (looks w) ->
  t_operation (bounded t) = Some d ->
  (exists k now, (looks w + 4 <= k <= looks w + 7)%nat /\ Look now ∈ others k /\
     clock (looks w + 4)%nat + d <= now) ->
  match (run_locked_with_timeouts others clock fits begin_operation t f w).1 with
  | Ok _ => False
  | Err e => e = Timeout \/ e = Cancelled
  | _ => True
  end.
Proof.
  intros Hr Hs Hc Hclose Ht (k & now & Hk & Hin & Hnow).
  destruct (run_admitted others clock fits begin_operation P P_queued P_cleanup P_begin
    A t f w sock Hr Hs Hc Hclose) as (Hw & -> & _).
  assert (at_turn (Datatypes.S (looks w)) (taken others w)) as Hn.
  { split; [|done]. exact (awake_interfere others (MkWorld (with_held true false (conn w)) (looks w))
      (reachable_awake w Hr)). }
  pose proof (operate_overdue (bounded t) d f sock (Datatypes.S (looks w)) Ht) as Hop.
  replace (Datatypes.S (looks w) + 3)%nat with (looks w + 4)%nat in Hop by lia.
  specialize (Hop ltac:(exists k; split; [lia|]; apply Exists_exists; exists (Look now);
    split; [done|by exists now]) (taken others w) (conj Hw Hn)).
  by destruct (operate _ _ _ _ _ _ _ _) as [[] ?].
Qed.

End Deadline.

(** *** Witness *)

(** The watchdog looks once, at turn 6, when the clock shows 9. *)
Definition looks_late (k : nat) : list action := if (k =? 6)%nat then [Look 9] else [].

Lemma deadline_interrupts_witness :
  (run_locked_with_timeouts looks_late (fun _ => 0) (fun _ => true) plain_begin
     short_timeouts (@sret _ CursorError _ tt) sample_world).1 = Err Timeout.
Proof.
  pose proof (deadline_interrupts looks_late (fun _ => 0) (fun _ => true) plain_begin queue_only
    (fun _ _ _ H => H) queue_only_cleanup (fun _ _ _ _ _ _ H _ => H)
    unit short_timeouts 5 (@sret _ CursorError _ tt) sample_world tt) as H.
  match type of H with context [(?r).1] => set (out := r) in * end.
  assert (match out.1 with Ok _ => False | Err e => e = Timeout \/ e = Cancelled | _ => True end) as H'.
  { apply H; [|reflexivity|reflexivity|apply not_elem_of_nil|reflexivity|].
    - exists sample_world. split; [apply sample_fresh|apply rtc_refl].
    - exists 6%nat, 9. split; [simpl; lia|]. split; [apply list_elem_of_here|simpl; lia]. }
  destruct out as [[a|e| |] w'] eqn:E; [destruct H'| |vm_compute in E; discriminate..].
  destruct H' as [->| ->]; [reflexivity|vm_compute in E; discriminate].
Defined.
