(* ===== verification/Cursor.v ===== *)
(** * Cursors (src/cursor/mod.rs, src/cursor/upload.rs)

    A cursor sends commands over the shared connection and steps through the
    replies: [execute] with its uploads, [next_reply], and [next_row], which
    fetches further windows of rows from the server.  The state of a computation
    is the cursor with the world of the connection, so that the other threads
    of [Conn] may act during every operation. *)

From Stdlib Require Import ZArith Lia.
From stdpp Require Import gmap.
From S2P Require Import Prelude Bytes Blockstate IO Writing Reading Decimal Floats Errors.
From S2P Require Import MonetTypes ReplyBuf RowSet Replies Convert Delayed Validate ServerSock Login.
From S2P Require Import Upload Conn.

Open Scope Z_scope.

(** ** Pure helpers *)

Definition DEFAULT_UPLOAD_CHUNK_SIZE_BYTES : nat := 16 * 1024 * 1024.

Definition next_window_size (previous : Z) (max_prefetch : option Z) : Z :=
  match max_prefetch with
  | Some limit => Z.min (saturate usize (previous * 2)) (saturate usize (limit + 1))
  | None => saturate usize (previous * 2)
  end.

Definition next_fetch_size (previous : Z) (max_prefetch : option Z) (remaining : Z) : Z :=
  let desired := next_window_size previous max_prefetch in
  Z.min remaining desired.

(** The counter of the rows that were handed out. *)
Definition count_row (next_row total_rows : Z) : res BadReply Z :=
  if total_rows <=? next_row then Err (TooManyRows total_rows) else Ok (next_row + 1).

Definition validate_fetch_progress (row_set : RowSet) (start requested : Z) : res BadReply unit :=
  if (0 <? requested) && negb (has_pending_row row_set)
  then Err (EmptyExportWindow start requested) else Ok tt.

Definition validate_export_header (fields : list Z) (expected_result_id : Z)
    (expected_columns : nat) (expected_rows expected_offset : Z) : res BadReply unit :=
  match fields with
  | [f0; f1; f2; f3] =>
      if negb (f0 =? expected_result_id) then Err (ResultIdMismatch expected_result_id f0)
      else if negb (f1 =? Z.of_nat expected_columns)
      then Err (ColumnCountMismatch expected_columns f1)
      else if negb (f2 =? expected_rows) then Err (RowCountMismatch expected_rows f2)
      else if negb (f3 =? expected_offset) then Err (RowOffsetMismatch expected_offset f3)
      else Ok tt
  | _ => Panic
  end.

(** ** The cursor *)

(** The fields of [Conn] that never change. *)
Record Settings := MkSettings {
  c_reply_size : Z;
  c_max_prefetch : option Z;
  c_max_response_size : nat;
  c_timeouts : Timeouts
}.

Record Cursor := MkCursor {
  cur_replies : ReplyParser;
  cur_reply_size : Z;
  cur_max_prefetch : option Z;
  cur_timeouts : Timeouts
}.

Record BinaryResult := MkBinaryResult {
  b_result_id : Z;
  b_total_rows : Z;
  b_rows_included : Z;
  b_columns : list ResultColumn
}.

Definition is_server_resident (r : BinaryResult) : bool := b_rows_included r <? b_total_rows r.

Definition cursor_new (settings : Settings) : Cursor :=
  MkCursor default_parser (c_reply_size settings) (c_max_prefetch settings) (c_timeouts settings).

Definition set_timeouts (timeouts : Timeouts) (cur : Cursor) : Cursor :=
  MkCursor (cur_replies cur) (cur_reply_size cur) (cur_max_prefetch cur) (bounded timeouts).

Definition set_reply_size (reply_size : Z) (cur : Cursor) : Cursor :=
  MkCursor (cur_replies cur) reply_size (cur_max_prefetch cur) (cur_timeouts cur).

Definition with_replies (p : ReplyParser) (cur : Cursor) : Cursor :=
  MkCursor p (cur_reply_size cur) (cur_max_prefetch cur) (cur_timeouts cur).

Definition cursor_affected_rows (cur : Cursor) : option Z := affected_rows (cur_replies cur).

Definition has_result_set (cur : Cursor) : bool := at_result_set (cur_replies cur).

Definition column_metadata (cur : Cursor) : list ResultColumn :=
  match cur_replies cur with Data rs => columns rs | _ => [] end.

Definition prepared_statement_id (cur : Cursor) : option Z :=
  match cur_replies cur with
  | Data rs => if prepared rs then Some (result_id rs) else None
  | _ => None
  end.

Definition result_set (cur : Cursor) : res CursorError ResultSet :=
  match cur_replies cur with Data rs => Ok rs | _ => Err NoResultSet end.

Definition cursor_row_set (cur : Cursor) : res CursorError RowSet :=
  match cur_replies cur with Data rs => Ok (row_set rs) | _ => Err NoResultSet end.

Definition cursor_get_str (colnr : nat) (cur : Cursor) : res CursorError (option bytes) :=
  let? rows := cursor_row_set cur in
  let? field := res_map_err BadReplyErr (get_field_raw rows colnr) in
  match field with
  | None => Ok None
  | Some field => let? s := field_utf8 field in Ok (Some s)
  end.

(** [Cursor::get] at a type whose [extract] is given. *)
Definition cursor_get {A} (extract : ResultSet -> nat -> res CursorError (option A)) (colnr : nat)
    (cur : Cursor) : res CursorError (option A) :=
  let? rs := result_set cur in extract rs colnr.

(** The getters of the [define_getter!] table. *)
Definition define_getter {A} (type : FromStr A) : nat -> Cursor -> res CursorError (option A) :=
  cursor_get (@extract_fromstr _ type).

Definition cursor_get_bool := define_getter FromStr_bool.
Definition cursor_get_i8 := define_getter (FromStr_int "i8" i8).
Definition cursor_get_u8 := define_getter (FromStr_int "u8" u8).
Definition cursor_get_i16 := define_getter (FromStr_int "i16" i16).
Definition cursor_get_u16 := define_getter (FromStr_int "u16" u16).
Definition cursor_get_i32 := define_getter (FromStr_int "i32" i32).
Definition cursor_get_u32 := define_getter (FromStr_int "u32" u32).
Definition cursor_get_i64 := define_getter (FromStr_int "i64" i64).
Definition cursor_get_u64 := define_getter (FromStr_int "u64" u64).
Definition cursor_get_i128 := define_getter (FromStr_int "i128" i128).
Definition cursor_get_u128 := define_getter (FromStr_int "u128" u128).
Definition cursor_get_isize := define_getter (FromStr_int "isize" i64).
Definition cursor_get_usize := define_getter (FromStr_int "usize" usize).
Definition cursor_get_f32 := define_getter (FromStr_float "f32" f32).
Definition cursor_get_f64 := define_getter (FromStr_float "f64" f64).

Definition with_row_set (rows : RowSet) (rs : ResultSet) : ResultSet :=
  MkResultSet (result_id rs) (prepared rs) (next_row rs) (total_rows rs) (rows_included rs)
    (columns rs) rows (stashed rs) (to_close rs).
Definition with_next_row (next : Z) (rs : ResultSet) : ResultSet :=
  MkResultSet (result_id rs) (prepared rs) next (total_rows rs) (rows_included rs)
    (columns rs) (row_set rs) (stashed rs) (to_close rs).
Definition with_stashed (rows : option RowSet) (rs : ResultSet) : ResultSet :=
  MkResultSet (result_id rs) (prepared rs) (next_row rs) (total_rows rs) (rows_included rs)
    (columns rs) (row_set rs) rows (to_close rs).

(** What the next request for rows is: the result, the first row, the number of
    rows, the new window size and the number of columns. *)
Definition decide_next_fetch (cur : Cursor) : res CursorError (Z * Z * Z * Z * nat) :=
  let? rs := result_set cur in
  if total_rows rs <? next_row rs then Err (BadReplyErr (TooManyRows (total_rows rs)))
  else
    let remaining := total_rows rs - next_row rs in
    let next_reply_size := next_window_size (cur_reply_size cur) (cur_max_prefetch cur) in
    let n := next_fetch_size (cur_reply_size cur) (cur_max_prefetch cur) remaining in
    Ok (result_id rs, next_row rs, n, next_reply_size, length (columns rs)).

Definition export_command (res_id start n : Z) : bytes :=
  bs "Xexport " ++ print_int res_id ++ bs " " ++ print_int start ++ bs " " ++ print_int n.

Definition exportbin_command (res_id start n : Z) : bytes :=
  bs "Xexportbin " ++ print_int res_id ++ bs " " ++ print_int start ++ bs " " ++ print_int n.

(** From the reply to [Xexport] to the rows in it. *)
Definition parse_export (vec : bytes) (res_id start n : Z) (expected_columns : nat)
    : res CursorError RowSet :=
  let? _ := detect_errors vec in
  let '(r, buf) := parse_export_header u64 4 (buf_new vec) in
  res_map_err BadReplyErr (
    let? fields := r in
    let? _ := validate_export_header fields res_id expected_columns n start in
    let new_row_set := rowset_new buf expected_columns in
    let? _ := validate_fetch_progress new_row_set start n in
    Ok new_row_set).

(** The checks of the reply to [Xexportbin]. *)
Definition check_exportbin (response : bytes) (res_id start n : Z) (expected_columns : nat)
    : res CursorError unit :=
  let? _ := if bool_decide (head response = Some x21) then detect_errors response else Ok tt in
  match memchr x0a response with
  | None => Err (BadReplyErr UnexpectedEnd)
  | Some header_end =>
      res_map_err BadReplyErr (
        let? fields := (parse_export_header u64 4 (buf_new (take (S header_end) response))).1 in
        validate_export_header fields res_id expected_columns n start)
  end.

(** ** Operations *)

Section Cursor.
Context {S : Type} `{!Read S} `{!Write S} `{!BstrLines}.
Context (others : nat -> list action) (clock : nat -> Z) (fits : Z -> bool).
Context (begin_operation : Timeouts -> Z -> S -> option S).

(** The bound on the loops, the sizes of the reads, the limit of a response,
    and [ToString] of errors. *)
Context (fuel : nat) (sizes : nat -> nat) (settings : Settings).
Context (to_string : CursorError -> bytes).

Notation ccomp := (comp (Cursor * World S) CursorError).
Notation body := (comp (ServerState * DelayedCommands * S) CursorError).
Notation limit := (c_max_response_size settings).

(** *** Access to the parts of the state *)

Definition on_world {A} (m : comp (World S) CursorError A) : ccomp A := fun '(cur, w) =>
  let '(r, w') := m w in (r, (cur, w')).

Definition on_cursor {A} (m : Cursor -> A * Cursor) : ccomp A := fun '(cur, w) =>
  let '(a, cur') := m cur in (Ok a, (cur', w)).

Definition view {A} (m : Cursor -> res CursorError A) : ccomp A := fun '(cur, w) =>
  (m cur, (cur, w)).

Definition set_replies (p : ReplyParser) : ccomp unit := on_cursor (fun cur => (tt, with_replies p cur)).

(** [mem::take(&mut self.replies)]. *)
Definition take_replies : ccomp ReplyParser :=
  on_cursor (fun cur => (cur_replies cur, with_replies default_parser cur)).

(** The error of [m] as a value, as in [if let Err(e) = m]. *)
Definition attempt {A} (m : ccomp A) : ccomp (option CursorError) := fun s =>
  match m s with
  | (Ok _, s') => (Ok None, s')
  | (Err e, s') => (Ok (Some e), s')
  | (Panic, s') => (Panic, s')
  | (NoFuel, s') => (NoFuel, s')
  end.

Definition run_locked {A} (f : body A) : ccomp A := fun '(cur, w) =>
  let '(r, w') :=
    run_locked_with_timeouts others clock fits begin_operation (cur_timeouts cur) f w in
  (r, (cur, w')).

Definition on_queue {A} (m : comp (DelayedCommands * S) CursorError A) : body A :=
  fun '(state, delayed, sock) =>
    let '(r, (delayed', sock')) := m (delayed, sock) in (r, (state, delayed', sock')).

Definition on_socket {A} (m : comp S CursorError A) : body A :=
  fun '(state, delayed, sock) => let '(r, sock') := m sock in (r, (state, delayed, sock')).

Definition put_sock (sock : S) : body unit :=
  fun '(state, delayed, _) => (Ok tt, (state, delayed, sock)).

(** *** Stepping through the replies *)

Definition queue_close (res_id : Z) : ccomp unit :=
  do! on_world (interfere others) in on_world (modify (try_queue_closes [res_id])).

Definition switch_to_reply (p : ReplyParser) : ccomp bool :=
  do! set_replies p in sret (match p with Exhausted _ => false | _ => true end).

Definition next_reply : ccomp bool :=
  do? old := take_replies in
  do? (new, to_close) := slift (res_map_err BadReplyErr (into_next_reply old)) in
  do! match to_close with Some res_id => queue_close res_id | None => sret tt end in
  switch_to_reply new.

(** [exhaust]; [n] bounds the rounds. *)
Fixpoint exhaust_loop (n : nat) : ccomp unit :=
  do? (cur, _) := sget in
  match cur_replies cur with
  | Exhausted _ => sret tt
  | _ =>
      match n with
      | O => fun s => (NoFuel, s)
      | Datatypes.S n' => do! next_reply in exhaust_loop n'
      end
  end.

Definition cursor_exhaust : ccomp unit := exhaust_loop fuel.

Fixpoint skip_loop (n : nat) : ccomp unit :=
  do? (cur, _) := sget in
  match cur_replies cur with
  | Data _ => sret tt
  | Exhausted _ => sfail NoResultSet
  | _ =>
      match n with
      | O => fun s => (NoFuel, s)
      | Datatypes.S n' => do! next_reply in skip_loop n'
      end
  end.

Definition skip_to_result_set : ccomp unit := skip_loop fuel.

(** [self.replies.take_buffer()]. *)
Definition cursor_take_buffer : ccomp bytes :=
  do? (cur, _) := sget in
  do? (vec, p) := slift (take_buffer (cur_replies cur)) in
  do! set_replies p in
  sret vec.

Definition install_response (response : bytes) : ccomp unit :=
  let error := detect_errors response in
  do? p := slift (res_map_err BadReplyErr (parser_new response)) in
  do! set_replies p in
  match error with
  | Err e => do! attempt cursor_exhaust in sfail e
  | _ => sret tt
  end.

Definition discard_sql_response (response : bytes) : ccomp unit :=
  match parser_new response with
  | Ok p => do! set_replies p in do! attempt cursor_exhaust in sret tt
  | Err _ => sret tt
  | Panic => spanic
  | NoFuel => fun s => (NoFuel, s)
  end.

(** *** Commands *)

(** Send a command after those that are queued, and receive the queued replies. *)
Definition send_command (command : list bytes) : body (option ServerError) :=
  do! on_queue (send_delayed_plus fuel command) in
  on_queue (recv_delayed fuel sizes limit).

Definition read_response (response : bytes) : body bytes :=
  on_socket (io_lift (to_limited fuel sizes response limit)).

Definition delayed_result (delayed_error : option ServerError) : ccomp unit :=
  match delayed_error with Some error => sfail (Server error) | None => sret tt end.

Definition command_raw (command : list bytes) : ccomp bytes :=
  do? (vec, delayed_error) := run_locked (
    do? delayed_error := send_command command in
    do? vec := read_response [] in
    sret (vec, delayed_error)) in
  do! delayed_result delayed_error in
  sret vec.

Definition do_close : ccomp unit :=
  do! cursor_exhaust in
  do! cursor_take_buffer in
  do? delayed_error := run_locked (
    do? (_, delayed, _) := sget in
    match responses delayed with
    | [] => sret None
    | _ :: _ =>
        do! on_queue (send_delayed fuel) in
        on_queue (recv_delayed fuel sizes limit)
    end) in
  delayed_result delayed_error.

(** *** Commands with uploads

    [P] is the state of the producer of the files.  After an error neither that
    state nor what was received is kept. *)

Section Uploads.
Context {P : Type} (upload : bytes -> comp (P * StreamingUpload S) CursorError unit).
Context (upload_chunk_size : nat).

(** The variables of the loop: the response so far, the first refusal, an error
    of the producer after the server had completed a file, the producer. *)
Record Served := MkServed {
  response : bytes;
  refused : option CursorError;
  producer_error : option CursorError;
  producer : P
}.

(** What became of a request for a file: go on reading, or the response is there. *)
Inductive offer_result :=
| Continue (refused producer_error : option CursorError) (p : P)
| Finish (final_response : bytes) (producer_error : option CursorError) (p : P).

Definition unless_complete (error : CursorError) : option CursorError :=
  match error with UploadComplete => None | _ => Some error end.

Definition note_autocommit (response : bytes) : body unit := fun '(state, delayed, sock) =>
  let autocommit := default (s_autocommit state) (response_autocommit response) in
  (Ok tt, (MkState autocommit (s_reply_size state) (s_time_zone_seconds state)
             (s_sql_metadata state) (s_prehash_algo state) (s_server_endian state)
             (s_binary_level state) (s_max_response_size state), delayed, sock)).

Definition refuse (error : CursorError) : body unit :=
  on_socket (refuse_upload fuel to_string error).

(** Serve one file with a new sink. *)
Definition offer (filename : bytes) (p : P) : body offer_result := fun '(state, delayed, sock) =>
  let sink := upload_new sock upload_chunk_size limit in
  let finished (outcome : UploadOutcome S) (e : option CursorError) (p : P) : body offer_result :=
    match outcome with
    | Complete next => do! put_sock next in sret (Continue None e p)
    | ServerResponse next final => do! put_sock next in sret (Finish final e p)
    end in
  match upload filename (p, sink) with
  | (Ok _, (p, sink)) =>
      match upload_finish fuel sizes sink with
      | (Ok outcome, _) => finished outcome None p (state, delayed, sock)
      | (Err e, _) => (Err e, (state, delayed, sock))
      | (Panic, _) => (Panic, (state, delayed, sock))
      | (NoFuel, _) => (NoFuel, (state, delayed, sock))
      end
  | (Err error, (p, sink)) =>
      if u_started sink then
        match u_outcome sink with
        | Some outcome => finished outcome (unless_complete error) p (state, delayed, sock)
        | None => (Err error, (state, delayed, sock))
        end
      else
        (do? sock := slift (into_socket sink) in
         do! put_sock sock in
         do! refuse error in
         sret (Continue (Some error) None p)) (state, delayed, sock)
  | (Panic, _) => (Panic, (state, delayed, sock))
  | (NoFuel, _) => (NoFuel, (state, delayed, sock))
  end.

(** What is done with one request. *)
Definition handle_request (request : bytes) (v : Served) : body offer_result :=
  match upload_filename request with
  | None =>
      let error := FileTransfer [Errors.Lit "unsupported server request "; Debug request] in
      do! refuse error in
      sret (Continue (Some error) (producer_error v) (producer v))
  | Some filename =>
      match producer_error v with
      | Some error => do! refuse error in sret (Continue (Some error) (Some error) (producer v))
      | None => offer filename (producer v)
      end
  end.

(** The first refusal is kept. *)
Definition first_of (a b : option CursorError) : option CursorError :=
  match a with Some _ => a | None => b end.

Fixpoint serve_loop (n : nat) (v : Served) : body Served :=
  match n with
  | O => fun s => (NoFuel, s)
  | Datatypes.S n' =>
      do? vec := read_response (response v) in
      match take_file_request vec with
      | (Ok None, vec) =>
          do! note_autocommit vec in
          sret (MkServed vec (refused v) (producer_error v) (producer v))
      | (Ok (Some request), vec) =>
          do? o := handle_request request v in
          match o with
          | Continue again e p => serve_loop n' (MkServed vec (first_of (refused v) again) e p)
          | Finish final e p =>
              let vec := vec ++ final in
              do! note_autocommit vec in
              sret (MkServed vec (refused v) e p)
          end
      | (Err e, _) => sfail e
      | (Panic, _) => spanic
      | (NoFuel, _) => fun s => (NoFuel, s)
      end
  end.

(** After a refusal: what the server made of it. *)
Definition report_refusal (error : CursorError) (response : bytes) : ccomp unit :=
  let problem := match detect_errors response with Err e => Some (to_string e) | _ => None end in
  do? problem :=
    match parser_new response with
    | Ok p =>
        do! set_replies p in
        do? failure := attempt cursor_exhaust in
        sret (match problem with Some _ => problem | None => to_string <$> failure end)
    | Err e => sret (match problem with Some _ => problem | None => Some (to_string (BadReplyErr e)) end)
    | Panic => spanic
    | NoFuel => fun s => (NoFuel, s)
    end in
  match problem with
  | Some server => sfail (UploadRefused error server)
  | None => sfail error
  end.

(** The result is the response and the state of the producer. *)
Definition command_with_uploads (command : list bytes) (p : P) : ccomp (bytes * P) :=
  do? (v, delayed_error) := run_locked (
    do? delayed_error := send_command command in
    do? v := serve_loop fuel (MkServed [] None None p) in
    sret (v, delayed_error)) in
  match delayed_error, producer_error v, refused v with
  | Some error, _, _ => do! discard_sql_response (response v) in sfail (Server error)
  | None, Some error, _ =>
      do! discard_sql_response (response v) in
      sfail (match detect_errors (response v) with Err server_error => server_error | _ => error end)
  | None, None, Some error => do! report_refusal error (response v) in sret (response v, producer v)
  | None, None, None => sret (response v, producer v)
  end.

(** The four [execute] methods on top of it. *)
Definition execute_with_streaming_uploads_with_chunk_size (statements : bytes) (p : P) : ccomp P :=
  do! cursor_exhaust in
  do! cursor_take_buffer in
  do? (vec, p) := command_with_uploads [bs "s"; statements; x0a :: bs ";"] p in
  do! install_response vec in
  sret p.

End Uploads.

(** The producer of [execute]: there is no file. *)
Definition no_files (filename : bytes) : comp (unit * StreamingUpload S) CursorError unit :=
  sfail (FileTransfer [Errors.Lit "raw execute does not provide client file "; Debug filename;
                       Errors.Lit "; use a file-transfer API"]).

Definition on_sink {P A} (m : comp (StreamingUpload S) CursorError A)
    : comp (P * StreamingUpload S) CursorError A :=
  fun '(p, u) => let '(r, u') := m u in (r, (p, u')).

Definition in_memory (uploads : gmap bytes bytes) (filename : bytes)
    : comp (unit * StreamingUpload S) CursorError unit :=
  match uploads !! filename with
  | None => sfail (FileTransfer [Errors.Lit "server requested unknown file "; Debug filename])
  | Some data => on_sink (write_chunk fuel sizes data)
  end.

Definition lazily {P} (produce : bytes -> comp P CursorError bytes) (filename : bytes)
    : comp (P * StreamingUpload S) CursorError unit :=
  do? data := (fun '(p, u) => let '(r, p') := produce filename p in (r, (p', u))) in
  on_sink (write_chunk fuel sizes data).

Definition execute (statements : bytes) : ccomp unit :=
  execute_with_streaming_uploads_with_chunk_size no_files DEFAULT_UPLOAD_CHUNK_SIZE_BYTES statements tt.

Definition execute_with_binary_uploads_with_chunk_size (statements : bytes)
    (uploads : gmap bytes bytes) (upload_chunk_size : nat) : ccomp unit :=
  execute_with_streaming_uploads_with_chunk_size (in_memory uploads) upload_chunk_size statements tt.

Definition execute_with_binary_uploads_lazy_with_chunk_size {P} (statements : bytes)
    (upload_chunk_size : nat) (produce : bytes -> comp P CursorError bytes) (p : P) : ccomp P :=
  execute_with_streaming_uploads_with_chunk_size (lazily produce) upload_chunk_size statements p.

(** The variants with the default size. *)
Definition execute_with_binary_uploads (statements : bytes) (uploads : gmap bytes bytes) : ccomp unit :=
  execute_with_binary_uploads_with_chunk_size statements uploads DEFAULT_UPLOAD_CHUNK_SIZE_BYTES.

Definition execute_with_binary_uploads_lazy {P} (statements : bytes)
    (produce : bytes -> comp P CursorError bytes) (p : P) : ccomp P :=
  execute_with_binary_uploads_lazy_with_chunk_size statements DEFAULT_UPLOAD_CHUNK_SIZE_BYTES produce p.

Definition execute_with_streaming_uploads {P} (statements : bytes)
    (upload : bytes -> comp (P * StreamingUpload S) CursorError unit) (p : P) : ccomp P :=
  execute_with_streaming_uploads_with_chunk_size upload DEFAULT_UPLOAD_CHUNK_SIZE_BYTES statements p.

(** *** Result sets *)

Definition binary_result : ccomp BinaryResult :=
  do! skip_to_result_set in
  do? rs := view result_set in
  if prepared rs then sfail PreparedResult
  else sret (MkBinaryResult (result_id rs) (total_rows rs) (rows_included rs) (columns rs)).

Definition fetch_binary (start count : Z) : ccomp bytes :=
  do! skip_to_result_set in
  do? rs := view result_set in
  if prepared rs then sfail PreparedResult
  else if rows_included rs =? total_rows rs
  then sfail (ResultNotResident (rows_included rs) (total_rows rs))
  else if (count =? 0) || (total_rows rs <=? start)
  then sfail (InvalidRange start count (total_rows rs))
  else
    let available := total_rows rs - start in
    let count := Z.min count (saturate usize available) in
    do? response := command_raw [exportbin_command (result_id rs) start count] in
    do! slift (check_exportbin response (result_id rs) start count (length (columns rs))) in
    sret response.

(** [result_set_mut]: another reply there is a panic. *)
Definition result_set_mut {A} (m : ResultSet -> res CursorError A * ResultSet) : ccomp A :=
  fun '(cur, w) =>
    match cur_replies cur with
    | Data rs => let '(r, rs') := m rs in (r, (with_replies (Data rs') cur, w))
    | _ => (Panic, (cur, w))
    end.

(** Replace the rows by an empty window; the first window is kept, because the
    replies after this one are in its buffer. *)
Definition put_aside (expected_columns : nat) : ccomp unit :=
  result_set_mut (fun rs =>
    let previous := row_set rs in
    let rs := with_row_set (rowset_new (buf_new []) expected_columns) rs in
    match stashed rs with
    | None => (Ok tt, with_stashed (Some previous) rs)
    | Some _ => (res_map_err BadReplyErr (let? _ := rowset_finish previous in Ok tt), rs)
    end).

Definition fetch_more_rows : ccomp unit :=
  do? (res_id, start, n, next_reply_size, expected_columns) := view decide_next_fetch in
  do! put_aside expected_columns in
  do? vec := command_raw [export_command res_id start n] in
  do? new_row_set := slift (parse_export vec res_id start n expected_columns) in
  do! result_set_mut (fun rs => (Ok tt, with_row_set new_row_set rs)) in
  on_cursor (fun cur => (tt, set_reply_size next_reply_size cur)).

(** [row_set.advance()?], and the count of the row. *)
Definition advance_row : ccomp bool :=
  result_set_mut (fun rs =>
    let '(r, rows) := advance (row_set rs) in
    let rs := with_row_set rows rs in
    match r with
    | Ok true =>
        match count_row (next_row rs) (total_rows rs) with
        | Ok next => (Ok true, with_next_row next rs)
        | Err e => (Err (BadReplyErr e), rs)
        | Panic => (Panic, rs)
        | NoFuel => (NoFuel, rs)
        end
    | Ok false => (Ok false, rs)
    | Err e => (Err (BadReplyErr e), rs)
    | Panic => (Panic, rs)
    | NoFuel => (NoFuel, rs)
    end).

Fixpoint next_row_loop (n : nat) : ccomp bool :=
  match n with
  | O => fun s => (NoFuel, s)
  | Datatypes.S n' =>
      do? found := advance_row in
      if found then sret true
      else
        do? rs := view result_set in
        if total_rows rs <=? next_row rs then sret false
        else do! fetch_more_rows in next_row_loop n'
  end.

Definition cursor_next_row : ccomp bool :=
  do! skip_to_result_set in next_row_loop fuel.

(** *** [Drop] *)

(** The results to close on the way to the last reply. *)
Fixpoint drop_loop (n : nat) (p : ReplyParser) (result_ids : list Z) : res CursorError (list Z) :=
  match n with
  | O => NoFuel
  | Datatypes.S n' =>
      match into_next_reply p with
      | Ok (next, to_close) =>
          let result_ids :=
            match to_close with Some id => result_ids ++ [id] | None => result_ids end in
          match next with
          | Exhausted _ => Ok result_ids
          | _ => drop_loop n' next result_ids
          end
      | Err _ => Ok result_ids
      | Panic => Panic
      | NoFuel => NoFuel
      end
  end.

Definition cursor_drop : ccomp unit :=
  do? p := take_replies in
  do? result_ids := slift (drop_loop fuel p []) in
  do! on_world (interfere others) in
  on_world (modify (try_queue_closes result_ids)).

End Cursor.
