(* ===== verification/Exchange.v ===== *)
(** * Commands

    When the server answers every message, the socket keeps working and other
    threads do no more than hand over clean-up work ([undisturbed]), a command sends
    the queued messages, that work and its own message, reads one reply for each and
    then its own reply, and leaves the connection in order for the next command. *)

From Stdlib Require Import ZArith Lia.
From S2P Require Import Prelude Bytes Blockstate IO Writing Reading Decimal Errors.
From S2P Require Import MonetTypes ReplyBuf RowSet Replies Convert Delayed Validate ServerSock Login.
From S2P Require Import Upload Conn ConnInvariant Sharing Cursor.

Open Scope nat_scope.

#[local] Notation message := Blockstate.message.
#[local] Notation finished := Writing.finished.

(** ** The bytes of a single message *)

Lemma messages_none w : messages w [] -> w = [].
Proof. inversion 1 as [|ws ps w' p' Hs Hm E1 E2]; [done|]. by destruct ps. Qed.

(** What is sent for a command, and how long it is at most. *)
Lemma write_reset_plus_wire `{WriteLaws W} extra mb sb :
  represents mb sb ->
  exists wire, messages wire (finished sb ++ [current sb ++ concat extra]) /\
    length wire <= wire_bound (finished sb ++ [current sb ++ concat extra]) /\
    (forall fuel (wr : W), wreliable wr -> wpatience wr + length wire < fuel ->
     exists mb' wr', write_reset_plus fuel extra (mb, wr) = (Ok tt, (mb', wr')) /\
       (write_all fuel wire wr).2 = wr' /\
       represents mb' (MkSpecBuf [] []) /\ wreliable wr' /\ wpatience wr' <= wpatience wr /\
       written wr' = written wr ++ wire).
Proof.
  intros Hr.
  destruct (append_all_represents io_error extra mb sb Hr) as (mb1 & Ha & Hr1).
  destruct (end_reset_represents io_error mb1 _ Hr1) as (wire & mb2 & He & [Hm Hb] & Hr2).
  exists wire. split; [done|]. split; [done|].
  intros fuel wr Hw Hf. destruct (write_all_reliable fuel wire wr Hw Hf) as (wr' & Hwr).
  exists mb2, wr'. unfold write_reset_plus. rewrite Ha. unfold write_reset. rewrite He, Hwr.
  apply write_all_ok in Hwr as (Hout & Hp & Hrel). split_and!; try done. auto.
Qed.

(** ** A command *)

Section Exchange.
Context {S : Type} `{DuplexLaws S} (sizes : nat -> nat) (Hsizes : forall i, 0 < sizes i).
Context (fuel : nat) (settings : Settings).
Notation limit := (c_max_response_size settings).

(** Writing and reading through the queue keep the other direction. *)
Lemma write_keeps_pending fuel' data (s : S) :
  reliable s ->
  let s' := (write_all fuel' data s).2 in
  pending s' = pending s /\ patience s' = patience s /\ reliable s'.
Proof.
  intros Hr. apply (write_all_preserves
    (fun s' => pending s' = pending s /\ patience s' = patience s /\ reliable s')); [|done].
  intros d x (A1 & A2 & A3). destruct (write_keeps d x) as (? & ? & ?). split_and!; [congruence..|auto].
Qed.

Lemma recv_loop_preserves (I : S -> Prop) notes first limit' :
  (forall n s, I s -> I (read n s).2) -> preserves I (recv_loop fuel sizes limit' notes first).
Proof.
  intros HI. revert first. induction notes as [|note notes IH]; intros first s Hs; [done|].
  cbn [recv_loop]. pose proof (to_limited_preserves I HI fuel sizes [] limit' s Hs) as Ht.
  destruct (to_limited fuel sizes [] limit' s) as [[r|e| |] s1]; try done. by apply IH.
Qed.

Lemma recv_exchanged dc (s : S) ws replies rest :
  replied ws replies -> length (responses dc) = length replies ->
  Forall (fun p => length p <= limit) replies ->
  reliable s -> wreliable s -> effort s < fuel -> pending s = ws ++ rest ->
  exists s', recv_delayed fuel sizes limit (dc, s) =
    (Ok (first_failure (responses dc) replies), (MkDelayed (dc_buffer dc) [], s')) /\
    exchanged s s' [] rest.
Proof.
  intros Hrep Hlen Hlim Hr Hw Hf Hp.
  destruct (recv_loop_ok sizes Hsizes fuel limit (responses dc) None s ws replies rest)
    as (s' & E & Hp' & Hr' & He); [done..|].
  exists s'. unfold recv_delayed. rewrite E. split; [done|].
  pose proof (recv_loop_preserves
    (fun s' => written s' = written s /\ wpatience s' = wpatience s /\ wreliable s')
    (responses dc) None limit
    ltac:(intros n x (A1 & A2 & A3); destruct (read_keeps n x) as (? & ? & ?);
      split_and!; [congruence..|auto]) s ltac:(done)) as Hk.
  rewrite E in Hk. destruct Hk as (Hk1 & Hk2 & Hk3). simpl in *.
  split; try done; [by rewrite app_nil_r|lia].
Qed.

(** Sending a command, with the replies to the queued commands before it. *)
Lemma send_command_ok st dc n ps cmd :
  queued dc n ps ->
  exists wire, messages wire (ps ++ [concat cmd]) /\
    length wire <= wire_bound (ps ++ [concat cmd]) /\
    (forall s ws replies rest, replied ws replies -> length replies = n + length ps ->
     Forall (fun p => length p <= limit) replies ->
     reliable s -> wreliable s -> effort s < fuel -> pending s = ws ++ rest ->
     wpatience s + length wire < fuel ->
     exists mb s', send_command fuel sizes settings cmd (st, dc, s) =
       (Ok (first_failure (responses dc) replies), (st, MkDelayed mb [], s')) /\
       represents mb (MkSpecBuf [] []) /\ exchanged s s' wire rest).
Proof.
  intros [Hq Hl].
  destruct (write_reset_plus_wire cmd (dc_buffer dc) _ Hq) as (wire & Hms & Hb & Hrun).
  exists wire. split; [done|]. split; [done|].
  intros s ws replies rest Hrep Hlen Hlim Hr Hw He Hp Hf.
  destruct (Hrun fuel s Hw Hf) as (mb & s1 & E1 & Ew & Hrep1 & Hw1 & Hpat1 & Hout1).
  destruct (write_keeps_pending fuel wire s Hr) as (Hp1 & Hpa1 & Hr1). rewrite Ew in *.
  assert (exchanged s s1 wire (pending s)) as X1.
  { split; try done. unfold effort. rewrite Hp1, Hpa1. done. }
  destruct (recv_exchanged (MkDelayed mb (responses dc)) s1 ws replies rest) as (s2 & E2 & X2);
    [done|simpl; lia|done|done|done|destruct X1; lia|congruence|].
  exists mb, s2. split.
  { unfold send_command, on_queue, send_delayed_plus, sbind.
    rewrite E1. cbn -[recv_delayed]. by rewrite E2. }
  split; [done|]. rewrite <- (app_nil_r wire). by eapply exchanged_trans.
Qed.

(** A command and its reply. *)
Lemma command_body_ok st dc n ps cmd :
  queued dc n ps ->
  exists wire, messages wire (ps ++ [concat cmd]) /\
    length wire <= wire_bound (ps ++ [concat cmd]) /\
    (forall s ws replies w p rest, replied ws replies -> length replies = n + length ps ->
     Forall (fun p => length p <= limit) (p :: replies) -> message w p ->
     reliable s -> wreliable s -> effort s < fuel -> pending s = ws ++ w ++ rest ->
     wpatience s + length wire < fuel ->
     exists mb s',
       (do? delayed_error := send_command fuel sizes settings cmd in
        do? vec := read_response fuel sizes settings [] in
        sret (vec, delayed_error)) (st, dc, s) =
       (Ok (p, first_failure (responses dc) replies), (st, MkDelayed mb [], s')) /\
       represents mb (MkSpecBuf [] []) /\ exchanged s s' wire rest).
Proof.
  intros Hq. destruct (send_command_ok st dc n ps cmd Hq) as (wire & Hms & Hb & Hrun).
  exists wire. split; [done|]. split; [done|].
  intros s ws replies w p rest Hrep Hlen [Hlp Hlim]%Forall_cons Hm Hr Hw He Hp Hf.
  destruct (Hrun s ws replies (w ++ rest)) as (mb & s1 & E1 & Hmb & X1); [done..|].
  destruct (reply_exchanged sizes Hsizes fuel limit s1 w p rest) as (s2 & E2 & X2);
    [destruct X1; done || lia..|done|done|by destruct X1|].
  exists mb, s2. split.
  { unfold sbind, read_response, on_socket, io_lift. by rewrite E1, E2. }
  split; [done|]. rewrite <- (app_nil_r wire). by eapply exchanged_trans.
Qed.

End Exchange.

(** ** A command of a cursor *)

(** The socket takes the timeouts of an operation without touching the stream, at
    every instant at which one may start. *)
Definition keeps_stream {S : Type} `{ReadLaws S} `{WriteLaws S}
    (begin_operation : Timeouts -> Z -> S -> option S) (clock : nat -> Z) (t : Timeouts) : Prop :=
  forall k s, reliable s -> wreliable s ->
    exists s', begin_operation (bounded t) (clock k) s = Some s' /\ exchanged s s' [] (pending s).

(** Nothing gets in the way of an operation with these timeouts: other threads
    behave and the socket takes the timeouts. *)
Definition undisturbed {S : Type} `{ReadLaws S} `{WriteLaws S} (others : nat -> list action) (clock : nat -> Z)
    (begin_operation : Timeouts -> Z -> S -> option S) (t : Timeouts) : Prop :=
  tame others clock t /\ keeps_stream begin_operation clock t.

Lemma undisturbed_bounded {S : Type} `{ReadLaws S} `{WriteLaws S} others clock
    (begin_operation : Timeouts -> Z -> S -> option S) t :
  undisturbed others clock begin_operation t -> undisturbed others clock begin_operation (bounded t).
Proof.
  intros [Ht Hk]. split; [by apply tame_bounded|]. intros k s Hr Hw. rewrite bounded_idempotent. by apply Hk.
Qed.

(** *** Among other threads *)

Section Tame.
Context {S : Type} `{DuplexLaws S} (sizes : nat -> nat) (Hsizes : forall i, 0 < sizes i).
Context (others : nat -> list action) (clock : nat -> Z) (begin_operation : Timeouts -> Z -> S -> option S).
Context (fuel : nat) (settings : Settings).
Notation limit := (c_max_response_size settings).
Notation always := (fun _ : Z => true).
Notation state_of w := (l_state (locked (conn w))).
Notation notes_of w := (responses (l_delayed (locked (conn w)))).

(** The connection is in order with the socket [s], the replies to [n] commands still
    to be read and the messages [ps] queued; clean-up work may be pending. *)
Definition serving (w : World S) (s : S) (n : nat) (ps : list bytes) : Prop :=
  attached s (conn w) /\ queued (l_delayed (locked (conn w))) n ps /\ reliable s /\ wreliable s.

(** What other threads asked for too late for the operation that started in [w] is
    pending in [w']. *)
Definition left_pending (w w' : World S) : Prop := agenda_of w' = agenda_next others (agenda_of w).

(** The messages that the next operation sends before its own. *)
Notation handed w := (cleanup_lines others w).

(** An operation starts from the queue with the clean-up work added; what it does
    when [f] completes from there. *)
Lemma shared_operation_ok t w s n ps :
  undisturbed others clock begin_operation t -> serving w s n ps ->
  exists dc, queued dc n (ps ++ handed w) /\
    (forall replies, first_failure (responses dc) replies = first_failure (notes_of w) replies) /\
    forall A (f : comp (ServerState * DelayedCommands * S) CursorError A) a st' n' ps' (Out : bytes -> Prop) rest,
      (forall s1, exchanged s s1 [] (pending s) ->
        exists dc' s' out, f (state_of w, dc, s1) = (Ok a, (st', dc', s')) /\
          queued dc' n' ps' /\ Out out /\ exchanged s1 s' out rest) ->
      exists w' s' out,
        run_locked_with_timeouts others clock always begin_operation t f w = (Ok a, w') /\
        serving w' s' n' ps' /\ left_pending w w' /\ state_of w' = st' /\ Out out /\
        exchanged s s' out rest.
Proof.
  intros [Htame Hbegin] (Hat & Hq & Hr & Hw).
  destruct (Hbegin (3 + looks w) s Hr Hw) as (s1 & Eb & X1).
  destruct (with_cleanups_queued (closes_handed others w) (releases_handed others w) _ n ps Hq)
    as (d2 & Ed & Hq2 & Hn).
  exists d2. split; [done|]. split.
  { intros replies. rewrite Hn, first_failure_ignored; [done|].
    apply Forall_app; split; apply cleanup_notes_ignored. } intros A f a st' n' ps' Out rest Hf.
  destruct (Hf s1 X1) as (dc' & s' & out & Ef & Hq' & Hout & X2).
  pose proof (run_shared others clock always begin_operation t Htame (fun _ => eq_refl) f w s s1 d2 (Ok a)
    st' dc' s' Hat Eb Ed Ef) as Hrun. cbv zeta in Hrun.
  destruct (run_locked_with_timeouts _ _ _ _ t f w) as [r w']. cbn [fst snd] in Hrun.
  destruct Hrun as (-> & Hat' & Hl & Hag). exists w', s', out. split; [done|].
  pose proof (exchanged_trans _ _ _ _ _ _ _ X1 X2) as X. cbn [app] in X.
  unfold serving. rewrite Hl. split_and!; try done; by destruct X.
Qed.

(** An operation that only looks at the state, or changes it. *)
Lemma local_operation_ok {A} t (f : comp (ServerState * DelayedCommands * S) CursorError A) w s n ps a st' :
  undisturbed others clock begin_operation t -> serving w s n ps ->
  (forall dc s1, f (state_of w, dc, s1) = (Ok a, (st', dc, s1))) ->
  exists w' s', run_locked_with_timeouts others clock always begin_operation t f w = (Ok a, w') /\
    serving w' s' n (ps ++ handed w) /\ left_pending w w' /\ state_of w' = st' /\
    (forall replies, first_failure (notes_of w') replies = first_failure (notes_of w) replies) /\
    exchanged s s' [] (pending s).
Proof.
  intros [Htame Hbegin] (Hat & Hq & Hr & Hw) Hf.
  destruct (Hbegin (3 + looks w) s Hr Hw) as (s1 & Eb & X1).
  destruct (with_cleanups_queued (closes_handed others w) (releases_handed others w) _ n ps Hq)
    as (d2 & Ed & Hq2 & Hn).
  pose proof (run_shared others clock always begin_operation t Htame (fun _ => eq_refl) f w s s1 d2 (Ok a)
    st' d2 s1 Hat Eb Ed (Hf d2 s1)) as Hrun. cbv zeta in Hrun.
  destruct (run_locked_with_timeouts _ _ _ _ t f w) as [r w']. cbn [fst snd] in Hrun.
  destruct Hrun as (-> & Hat' & Hl & Hag). exists w', s1. split; [done|].
  unfold serving. rewrite Hl. cbn. split; [by destruct X1|]. split; [done|]. split; [done|]. split; [|done].
  intros replies. rewrite Hn, first_failure_ignored; [done|]. apply Forall_app; split; apply cleanup_notes_ignored.
Qed.

(** What a command gives: its own reply, unless a queued command failed. *)
Definition command_result (notes : list ExpectedResponse) (replies : list bytes) (p : bytes)
    : res CursorError bytes :=
  match first_failure notes replies with
  | Some error => Err (Server error)
  | None => Ok p
  end.

Lemma command_raw_shared cur w s n ps cmd :
  undisturbed others clock begin_operation (cur_timeouts cur) -> serving w s n ps ->
  exists wire, messages wire (ps ++ handed w ++ [concat cmd]) /\
    length wire <= wire_bound (ps ++ handed w ++ [concat cmd]) /\
    forall ws replies wr p rest, replied ws replies -> length replies = n + length (ps ++ handed w) ->
      Forall (fun p => length p <= limit) (p :: replies) -> message wr p ->
      pending s = ws ++ wr ++ rest -> effort s < fuel -> wpatience s + length wire < fuel ->
      exists w' s',
        command_raw others clock always begin_operation fuel sizes settings cmd (cur, w) =
        (command_result (notes_of w) replies p, (cur, w')) /\
        serving w' s' 0 [] /\ left_pending w w' /\ state_of w' = state_of w /\ exchanged s s' wire rest.
Proof.
  intros Htame Hc. pose proof Hc as (_ & _ & Hr & Hw).
  destruct (shared_operation_ok _ w s n ps Htame Hc) as (dc & Hq & Hn & Hrun).
  destruct (command_body_ok sizes Hsizes fuel settings (state_of w) dc n (ps ++ handed w) cmd Hq)
    as (wire & Hms & Hb & Hbody). exists wire. rewrite app_assoc. split; [done|]. split; [done|].
  intros ws replies wr p rest Hrep Hlen Hlim Hm Hp He Hf.
  destruct (Hrun _ (do? delayed_error := send_command fuel sizes settings cmd in
     do? vec := read_response fuel sizes settings [] in sret (vec, delayed_error))
    (p, first_failure (notes_of w) replies) (state_of w) 0 [] (eq wire) rest)
    as (w' & s' & ? & E & Hc' & Hl & Hst & <- & X).
  { intros s1 [X1 X2 X3 X4 X5 X6].
    destruct (Hbody s1 ws replies wr p rest) as (mb & s' & E & Hrep' & X); try done; [lia|congruence|lia|].
    rewrite Hn in E. by exists (MkDelayed mb []), s', wire. }
  exists w', s'. split; [|done]. unfold command_raw, run_locked. unfold sbind at 1.
  rewrite E. unfold command_result, delayed_result. by destruct (first_failure _ _).
Qed.

(** *** Theorem *)

(** C7: A command gets its own reply, also while other threads hand over clean-up
    work.  The connection may have messages [ps] queued, [n] commands sent whose
    replies nobody has read yet, and results and statements waiting to be released;
    before and during the command other threads may ask for more, and the watchdog
    may look at the clock as long as nothing is overdue ([undisturbed]).  [command_raw]
    sends the queued messages, one for each piece of clean-up work that was asked
    for in time, and then its own; it skips exactly one reply for each of them and
    returns the next one.  When an earlier command failed (and its errors are not
    ignored) that error is reported instead, but the stream stays in step: in both
    cases the connection is in order with an empty queue and the stream behind the
    reply, and what was asked for too late is still pending, nothing else. *)
Theorem command_gets_own_reply cur w s n ps cmd ws replies wr p rest :
  undisturbed others clock begin_operation (cur_timeouts cur) -> serving w s n ps ->
  replied ws replies -> length replies = n + length (ps ++ handed w) ->
  Forall (fun p => length p <= limit) (p :: replies) -> message wr p ->
  pending s = ws ++ wr ++ rest -> effort s < fuel ->
  exists wire, messages wire (ps ++ handed w ++ [concat cmd]) /\
    (wpatience s + length wire < fuel ->
     exists w' s',
       command_raw others clock always begin_operation fuel sizes settings cmd (cur, w) =
       (match first_failure (notes_of w) replies with
        | Some error => Err (Server error)
        | None => Ok p
        end, (cur, w')) /\
       serving w' s' 0 [] /\ left_pending w w' /\ state_of w' = state_of w /\
       written s' = written s ++ wire /\ pending s' = rest).
Proof.
  intros Htame Hc Hrep Hlen Hlim Hm Hp He.
  destruct (command_raw_shared cur w s n ps cmd Htame Hc) as (wire & Hms & _ & Hrun). exists wire.
  split; [done|]. intros Hf.
  destruct (Hrun ws replies wr p rest) as (w' & s' & E & Hc' & Hl & Hst & X); try done.
  exists w', s'. split; [exact E|]. by destruct X.
Qed.

End Tame.

(** The connection is at rest: in order, with no clean-up work pending. *)
Definition connected {S : Type} `{DuplexLaws S} (w : World S) (s : S) (n : nat) (ps : list bytes) : Prop :=
  ready s (conn w) /\ queued (l_delayed (locked (conn w))) n ps /\ reliable s /\ wreliable s.

Lemma connected_serving {S : Type} `{DuplexLaws S} (w : World S) (s : S) n ps :
  connected w s n ps -> serving w s n ps /\ agenda_of w = MkAgenda [] [] (looks w).
Proof. intros ((Hat & Hpc & Hpd) & Hc). split; [by split|]. unfold agenda_of. by rewrite Hpc, Hpd. Qed.

(** *** Witness *)

(** A new connection over a wire, with the given commands queued. *)
Definition wire_begin : Timeouts -> Z -> Wire -> option Wire := fun _ _ s => Some s.

Lemma wire_begin_keeps clock t : keeps_stream wire_begin clock t.
Proof. intros k s Hr Hw. exists s. split; [done|]. split; try done. by rewrite app_nil_r. Qed.

Definition wire_world (s : Wire) (dc : DelayedCommands) : World Wire :=
  MkWorld (conn_new s sample_state dc) 0.

Definition wire_settings : Settings := MkSettings 100 None 1000 short_timeouts.

(** A message in a single block. *)
Definition one_block (p : bytes) : bytes := hdr (length p) true ++ p.

Lemma one_block_message p : length p <= 1000 -> message (one_block p) p.
Proof. intros Hp. pose proof BLOCKSIZE_Z. apply message_last. lia. Qed.

Definition closing_seven : DelayedCommands := (@add_cleanups CursorError (bs "close") [7%Z] delayed_new).2.

Lemma closing_seven_queued : queued closing_seven 0 [bs "Xclose 7" ++ [x0a]].
Proof.
  destruct (add_cleanups_queued CursorError (bs "close") [7%Z] delayed_new 0 [] queued_new)
    as (d & E & Hq & _). unfold closing_seven. rewrite E. exact Hq.
Qed.

(** A clock that ticks at every turn. *)
Definition ticks (k : nat) : Z := Z.of_nat k.
(** The watchdog looks, and cursors are dropped at turns 3 and 8. *)
Definition dropping (k : nat) : list action :=
  Look (ticks k) ::
  match k with
  | 3 => [QueueCloses [11%Z]; Deallocate 5]
  | 8 => [QueueCloses [12%Z]]
  | _ => []
  end.

Lemma dropping_tame : tame dropping ticks short_timeouts.
Proof.
  intros k e [->|He]%elem_of_cons.
  - intros d j Hd Hk. vm_compute in Hd. injection Hd as <-. unfold ticks. lia.
  - do 9 (destruct k as [|k];
      [repeat (apply elem_of_cons in He as [->|He]; [done|]); by apply elem_of_nil in He|]).
    by apply elem_of_nil in He.
Qed.

Lemma dropping_undisturbed : undisturbed dropping ticks wire_begin short_timeouts.
Proof. split; [apply dropping_tame|apply wire_begin_keeps]. Qed.

Lemma wire_world_serving s dc n ps :
  queued dc n ps -> reliable s -> wreliable s -> serving (wire_world s dc) s n ps.
Proof. intros. split; [by repeat split|done]. Qed.

(** Successful replies to clean-up commands. *)
Definition empties (n : nat) : bytes := concat (repeat (one_block []) n).

Lemma replied_empties n : replied (empties n) (repeat [] n).
Proof.
  induction n as [|n IH]; [constructor|]. apply replied_cons; [|done]. apply one_block_message. simpl. lia.
Qed.

Lemma empties_short n limit' : Forall (fun p : bytes => length p <= limit') (repeat [] n).
Proof. induction n; simpl; [done|]. constructor; [simpl; lia|done]. Qed.

Lemma command_gets_own_reply_witness :
  let s := MkWire (empties 3 ++ one_block (bs "&6 1") ++ bs "next") [] [Give 0; Intr] [Intr] in
  let w := wire_world s closing_seven in
  exists wire, messages wire [bs "Xclose 7" ++ [x0a]; bs "Xclose 11" ++ [x0a]; bs "Xrelease 5" ++ [x0a];
      bs "Xexport 1 2 3"] /\
    (wpatience s + length wire < 200 ->
     exists w' s',
       command_raw dropping ticks (fun _ => true) wire_begin 200 thirty_two wire_settings
         [bs "Xexport 1 2 3"] (cursor_new wire_settings, w) =
       (Ok (bs "&6 1"), (cursor_new wire_settings, w')) /\
       serving w' s' 0 [] /\
       agenda_of w' = MkAgenda [12%Z] [] 11 /\
       l_state (locked (conn w')) = l_state (locked (conn w)) /\
       written s' = written s ++ wire /\ pending s' = bs "next").
Proof.
  intros s w.
  apply (command_gets_own_reply thirty_two ltac:(intros i; apply Nat.lt_0_succ) dropping ticks wire_begin 200 wire_settings (cursor_new wire_settings) w s 0 [bs "Xclose 7" ++ [x0a]]
    [bs "Xexport 1 2 3"] (empties 3) (repeat [] 3) (one_block (bs "&6 1")) (bs "&6 1") (bs "next")).
  - exact dropping_undisturbed.
  - apply wire_world_serving; [apply closing_seven_queued|repeat constructor..].
  - apply replied_empties.
  - reflexivity.
  - constructor; [simpl; lia|apply empties_short].
  - apply one_block_message. simpl. lia.
  - reflexivity.
  - vm_compute. lia.
Defined.
