(* ===== verification/Established.v ===== *)
(** * Establishing a connection (Connection::new of src/conn.rs)

    From parameters to a connection that takes commands: [Connection_new] looks
    for a socket, logs in, possibly through a proxy that hands the socket on, and
    puts the session into the shared state.  The commands that the handshake could
    not carry are sent at the end of the login; their replies are still to come
    when the first operation starts. *)

From Stdlib Require Import ZArith Lia.
From S2P Require Import Prelude Bytes Blockstate IO Writing Reading Errors Replies Delayed.
From S2P Require Import Parms Validate Url ServerSock Login Upload Conn ConnInvariant Sharing Cursor Exchange.

Open Scope nat_scope.

#[local] Notation message := Blockstate.message.
#[local] Notation finished := Writing.finished.

(** ** [Connection::new] *)

Section New.
Context {Net_World S Tcp Unix Addr : Type} `{!Net Net_World S Tcp Unix Addr}.
Context `{!Read S} `{!Write S} (fuel : nat).
Context (Url_parse : bytes -> bytes + Url) (representable : Z -> bool).
Context (do_login : Validated -> comp S ConnectError (Login * DelayedCommands)).

Notation ccomp := (comp Net_World ConnectError).

(** The shared state of the connection, and its fields that never change. *)
Definition Connection_new (parms : Parameters) : ccomp (Conn S * Settings) :=
  do? v := slift (validate_parms representable parms) in
  let max_prefetch := maxprefetch v in
  do? connection := establish_connection fuel Url_parse representable do_login parms in
  let '(sock, state, delayed, timeouts) := connection in
  sret (conn_new sock state delayed,
        MkSettings (s_reply_size state) max_prefetch (Z.to_nat (s_max_response_size state)) timeouts).

Definition connect_url (url : bytes) : ccomp (Conn S * Settings) :=
  do? parms := slift (res_map_err ParmErr (from_url Url_parse url)) in
  Connection_new parms.

End New.

(** ** The dialogue of a login *)

Section Established.
Context {S : Type} `{DuplexLaws S} (sizes : nat -> nat) (Hsizes : forall i, 0 < sizes i).
Context (fuel : nat).
Context (digest : Algo -> bytes -> bytes) (hex_encode : bytes -> bytes).
Context (feature_time : bool) (current_local_offset : option Z).
Context (process_info : ClientInfo) (PUBLIC_NAME : bytes).

Notation local_offset := (default_offset feature_time current_local_offset).
Notation login := (login digest hex_encode local_offset process_info PUBLIC_NAME fuel sizes).
Notation challenge_response :=
  (challenge_response digest hex_encode local_offset process_info PUBLIC_NAME).

(** The bytes [w] are one message, the text [line] of at most 5000 bytes. *)
Definition text_message (w line : bytes) : Prop :=
  message w line /\ utf8_valid line = true /\ length line <= 5000.

(** One round: the server sends a challenge, the client has an answer, and the
    server says what comes next. *)
Inductive login_round (v : Validated) (outcome : Login) :
  bytes -> bytes -> DelayedCommands -> Prop :=
| round w1 line chal response state delayed w2 reply :
    text_message w1 line -> Challenge_new line = Ok chal ->
    challenge_response v chal = Ok (response, state, delayed) ->
    text_message w2 reply -> process_redirects state reply = Ok outcome ->
    login_round v outcome (w1 ++ w2) response delayed.

(** Rounds with proxies that hand the socket on, and a last one. *)
Inductive login_dialogue (v : Validated) :
  nat -> bytes -> list bytes -> ServerState -> DelayedCommands -> Prop :=
| login_complete wire response state delayed :
    login_round v (Login.Complete state) wire response delayed ->
    login_dialogue v 1 wire [response] state delayed
| login_restart n wire response delayed more responses state delayed' :
    login_round v Login.Restart wire response delayed ->
    login_dialogue v n more responses state delayed' ->
    login_dialogue v (Datatypes.S n) (wire ++ more) (response :: responses) state delayed'.

Lemma text_read s w line rest :
  text_message w line -> reliable s -> wreliable s -> effort s < fuel -> pending s = w ++ rest ->
  exists s', sock_lift (to_limited_string fuel sizes [] 5000) s = (Ok line, s') /\
    exchanged s s' [] rest.
Proof.
  intros (Hm & Hu & Hl) Hr Hw Hf Hp.
  destruct (text_exchanged sizes Hsizes fuel 5000 s w line rest) as (s' & E & X); [done..|].
  exists s'. unfold sock_lift. by rewrite E.
Qed.

(** A round on a socket. *)
Lemma login_round_ok v outcome wire response delayed :
  login_round v outcome wire response delayed ->
  exists out, messages out [response] /\
    forall s rest, reliable s -> wreliable s -> effort s < fuel ->
      wpatience s + length out < fuel -> pending s = wire ++ rest ->
      exists s', login v s = (Ok (outcome, delayed), s') /\ exchanged s s' out rest.
Proof.
  intros [w1 line chal resp state del w2 reply T1 Hch Hresp T2 Hout].
  destruct (@write_reset_plus_wire S _ _ [resp] mapibuf_new _ (represents_new [])) as (out & Hm & _ & Hrun).
  cbn [finished current app concat] in Hm. rewrite app_nil_r in Hm.
  exists out. split; [done|]. intros s rest Hr Hw He Hf Hp. rewrite <- app_assoc in Hp.
  destruct (text_read s w1 line (w2 ++ rest)) as (s1 & E1 & X1); [done..|].
  destruct X1 as [A1 A2 A3 A4 A5 A6].
  destruct (Hrun fuel s1 A4) as (mb & s2 & E2 & Ew & _ & Hw2 & Hpat2 & Hout2); [lia|].
  destruct (write_keeps_pending fuel out s1 A3) as (Hp2 & Hpa2 & Hr2). rewrite Ew in *.
  assert (effort s2 = effort s1) as He2 by (unfold effort; by rewrite Hp2, Hpa2).
  destruct (text_read s2 w2 reply rest) as (s3 & E3 & X3); [done|done|done|lia|congruence|].
  exists s3. split.
  - unfold Login.login. unfold sbind at 1. rewrite E1. unfold sbind at 1, slift at 1. rewrite Hch.
    unfold sbind at 1, slift at 1. rewrite Hresp. unfold sbind at 1, sock_lift at 1. rewrite E2.
    cbn [res_map_err]. unfold sbind at 1. rewrite E3. unfold sbind at 1, slift. by rewrite Hout.
  - destruct X3 as [B1 B2 B3 B4 B5 B6]. rewrite app_nil_r in *.
    split; try done; [congruence|lia..].
Qed.

(** The session that the client assumes after a login. *)
Lemma dialogue_session representable parms v n wire responses state delayed :
  wf parms -> validate representable parms = Ok v ->
  login_dialogue v n wire responses state delayed ->
  exists commands,
    (exists e b algo limit, state = session v limit (seconds_of local_offset v)
       (ServerState_new algo e b (max_response_size v))) /\
    queued delayed 0 commands.
Proof.
  intros Hwf Hval. assert (language v = bs "sql") as Hsql.
  { apply (validate_ok _ _ _ Hwf) in Hval. cbv zeta in Hval.
    destruct Hval as (b & d & port & tz & t1 & t2 & t3 & t4 & k & m & l & _ & _ & _ & Hc & _ & _ & _ & _
      & _ & _ & _ & _ & ->). by apply check_client_ok in Hc as (_ & _ & ?). }
  induction 1 as [wire response state delayed Hround|]; [|done].
  inversion Hround as [w1 line chal resp st del w2 reply _ _ Hresp _ Hout]; subst.
  assert (st = state) as ->.
  { unfold process_redirects in Hout. repeat case_match; by simplify_eq. }
  destruct (challenge_response_session _ _ _ _ _ _ _ _ _ _ Hsql Hresp) as [(e & b & algo & ->) Hq].
  eexists. split; [by repeat eexists|exact Hq].
Qed.

(** *** The loop *)

Section Connect.
Context {Net_World Tcp Unix Addr : Type} `{!Net Net_World S Tcp Unix Addr}.
Context (Url_parse : bytes -> bytes + Url) (representable : Z -> bool).

(** Taking over the timeouts of the session does not touch the stream. *)
Context (Hdeadline : forall t s, reliable s -> wreliable s ->
  exchanged s (apply_deadline (Net := _) t s) [] (pending s)).

Notation establish_loop := (establish_loop fuel Url_parse representable login).
Notation new_connection := (Connection_new fuel Url_parse representable login).

(** What is queued is sent, the replies are still to come. *)
Lemma finish_login_ok v state delayed cmds :
  queued delayed 0 cmds ->
  exists out, messages out cmds /\
    forall s, reliable s -> wreliable s -> wpatience s + length out < fuel ->
      exists delayed' s', finish_login fuel v s state delayed =
          Ok (s', state, delayed', from_validated v) /\
        queued delayed' (length cmds) [] /\ exchanged s s' out (pending s).
Proof.
  intros [Hq Hl].
  destruct (@reset_represents CursorError _ _ Hq) as (out & mb & Er & [Hm _] & _ & Hr').
  exists out. split; [done|]. intros s Hr Hw Hf.
  destruct (write_all_reliable fuel out s Hw Hf) as (s1 & Ew).
  pose proof (write_keeps_pending fuel out s Hr) as Hk. rewrite Ew in Hk. cbn [snd] in Hk. destruct Hk as (Hp1 & Hpa1 & Hr1).
  apply write_all_ok in Ew as Hok. destruct Hok as (Hout & Hpat & Hrel).
  pose proof (Hdeadline (from_validated v) s1 Hr1 (Hrel Hw)) as [B1 B2 B3 B4 B5 B6].
  exists (MkDelayed mb (responses delayed)), (apply_deadline (from_validated v) s1).
  unfold finish_login, send_delayed, on_buffer. rewrite Er, Ew. split; [done|]. split.
  { split; [done|]. cbn. lia. }
  assert (effort s1 = effort s) by (unfold effort; by rewrite Hp1, Hpa1).
  rewrite app_nil_r in *. split; try done; [congruence..|lia|lia].
Qed.

Lemma establish_loop_ok parms v n wire responses state delayed deadline :
  validate_parms representable parms = Ok v ->
  login_dialogue v n wire responses state delayed ->
  exists out, messages out responses /\
    forall budget restarted (w w' : Net_World) s rest, n <= budget ->
      match restarted with Some s => sret s | None => connect_socket fuel v deadline end w = (Ok s, w') ->
      reliable s -> wreliable s -> effort s < fuel -> wpatience s + length out < fuel ->
      pending s = wire ++ rest ->
      exists s', establish_loop budget deadline parms restarted w =
          slift (finish_login fuel v s' state delayed) w' /\ exchanged s s' out rest.
Proof.
  intros Hv. induction 1 as [wire response state delayed Hround|n wire response del more responses state delayed Hround _ IH].
  - destruct (login_round_ok _ _ _ _ _ Hround) as (out & Hm & Hrun). exists out. split; [done|].
    intros [|budget] restarted w w' s rest Hn Hs Hr Hw He Hf Hp; [lia|].
    destruct (Hrun s rest) as (s' & E & X); [done..|]. exists s'. split; [|done].
    cbn [Login.establish_loop]. unfold sbind at 1, slift at 1. rewrite Hv. unfold sbind at 1. rewrite Hs.
    rewrite E. reflexivity.
  - destruct (login_round_ok _ _ _ _ _ Hround) as (out1 & Hm1 & Hrun1).
    destruct IH as (out2 & Hm2 & Hrun2). exists (out1 ++ out2). split.
    { by apply (messages_app out1 [response]). }
    intros [|budget] restarted w w' s rest Hn Hs Hr Hw He Hf Hp; [lia|].
    rewrite length_app in Hf. rewrite <- app_assoc in Hp.
    destruct (Hrun1 s (more ++ rest)) as (s1 & E1 & X1); [done|done|done|lia|done|].
    pose proof X1 as [A1 A2 A3 A4 A5 A6].
    destruct (Hrun2 budget (Some s1) w' w' s1 rest) as (s2 & E2 & X2); try done; [lia..|].
    exists s2. split; [|by eapply exchanged_trans].
    cbn [Login.establish_loop]. unfold sbind at 1, slift at 1. rewrite Hv. unfold sbind at 1. rewrite Hs.
    rewrite E1. exact E2.
Qed.

(** *** Theorem *)

Definition connect_deadline (v : Validated) (start : Z) : option Z :=
  match connect_timeout v with
  | Some t => if representable t then Some (start + nanos t)%Z else None
  | None => None
  end.

(** C4: A connection is established ready for use.  With valid parameters, a
    socket that works and a server that lets the client in, at once or after up
    to nine proxies on the same socket, [Connection::new] succeeds; it sends one
    answer per challenge and then the commands that the handshake could not
    carry, and nothing else; the session it assumes has the autocommit mode and
    the reply size that were asked for; and the connection is at rest, with the
    stream behind the login and exactly the replies to those commands owed, so
    that the first command gets its own reply. *)
Theorem connection_established parms v (w w1 w2 : Net_World) start s n wire responses state delayed rest :
  wf parms -> validate representable parms = Ok v -> now w = (start, w1) ->
  connect_socket fuel v (connect_deadline v start) w1 = (Ok s, w2) ->
  login_dialogue v n wire responses state delayed -> n <= 10 ->
  reliable s -> wreliable s -> effort s < fuel -> pending s = wire ++ rest ->
  exists out commands, messages out (responses ++ commands) /\ queued delayed 0 commands /\
    (wpatience s + length out < fuel ->
     exists c settings s', new_connection parms w = (Ok (c, settings), w2) /\
       connected (MkWorld c 0) s' (length commands) [] /\
       written s' = written s ++ out /\ pending s' = rest /\
       l_state (locked c) = state /\
       s_autocommit state = autocommit v /\ c_reply_size settings = replysize v /\
       c_max_response_size settings = Z.to_nat (max_response_size v) /\
       c_timeouts settings = from_validated v).
Proof.
  intros Hwf Hval Hnow Hconn Hd Hn Hr Hw He Hp.
  assert (validate_parms representable parms = Ok v) as Hv by (unfold validate_parms; by rewrite Hval).
  destruct (dialogue_session representable parms v n wire responses state delayed Hwf Hval Hd)
    as (commands & (e & b & algo & limit & Hst) & Hq).
  destruct (establish_loop_ok parms v n wire responses state delayed (connect_deadline v start) Hv Hd)
    as (out1 & Hm1 & Hrun1).
  destruct (finish_login_ok v state delayed commands Hq) as (out2 & Hm2 & Hrun2).
  exists (out1 ++ out2), commands. split; [by apply messages_app|]. split; [done|].
  rewrite length_app. intros Hf.
  destruct (Hrun1 10 None w1 w2 s rest) as (s1 & E1 & [A1 A2 A3 A4 A5 A6]); [done..|lia|done|].
  destruct (Hrun2 s1) as (delayed' & s2 & E2 & Hq2 & [B1 B2 B3 B4 B5 B6]); [done..|lia|].
  eexists _, _, s2. split.
  { unfold Connection_new. unfold sbind at 1, slift at 1. rewrite Hv. unfold sbind at 1.
    unfold establish_connection. unfold sbind at 1, slift at 1. rewrite Hv. unfold sbind at 1, deadline_new.
    unfold sbind at 1. rewrite Hnow. unfold sret at 1. fold (connect_deadline v start). rewrite E1. unfold slift. rewrite E2. reflexivity. }
  split; [split; [by repeat split|done]|]. split; [by rewrite B1, A1, app_assoc|]. split; [congruence|].
  split; [done|]. rewrite Hst. done.
Qed.

End Connect.

End Established.

(** *** Witness *)

(** A network where a local server is reached over the socket that the state holds. *)
#[local] Instance wire_net : Net Wire Wire unit unit unit := {|
  now w := (0%Z, w);
  spawn_error w := (None, w);
  unix_connect _ _ w := (Finished (inl tt), w);
  resolve _ _ _ w := (Finished (inl []), w);
  tcp_connect _ _ w := (inl tt, w);
  from_unix _ _ _ w := (inl w, w);
  from_tcp _ _ _ w := (inl w, w);
  tls_wrap _ _ w := (inr TlsNotSupported, w);
  apply_deadline _ s := s
|}.

(** A proxy hands the socket to a server that takes three settings in the handshake. *)
Definition proxy_challenge : bytes := bs "abc:merovingian:9:SHA512:LIT:SHA512:".
Definition proxy_reply : bytes := bs "^mapi:merovingian://proxy?database=demo" ++ [x0a].
Definition server_challenge : bytes := bs "def:mserver:9:RIPEMD160,SHA512:LIT:SHA512:sql=2:".

Definition proxy_round : bytes := one_block proxy_challenge ++ one_block proxy_reply.
Definition server_round : bytes := one_block server_challenge ++ one_block [].

Definition login_wire : Wire :=
  MkWire (proxy_round ++ server_round ++ bs "next") [] [Give 3; Intr] [Intr; Give 1; Intr].

Definition sample_parms : Parameters :=
  store Parm.Autocommit (Bool false) (store Parm.User (Str (bs "me")) DEFAULT_PARAMETERS).

Notation plain_dialogue := (login_dialogue (fun _ s => s) (fun s => s) false None (MkClientInfo [] [] [] [] 1%Z)
  (bs "monetdb-rust")).
Notation plain_login := (login (fun _ s => s) (fun s => s) (default_offset false None) (MkClientInfo [] [] [] [] 1%Z)
  (bs "monetdb-rust") 300 thirty_two).

Definition sample_v : Validated :=
  match validate (fun _ => true) sample_parms with Ok v => v | _ => sample_validated end.

Definition answer_to (line : bytes) : bytes * ServerState * DelayedCommands :=
  match Challenge_new line with
  | Ok chal =>
      match challenge_response (fun _ s => s) (fun s => s) (default_offset false None) (MkClientInfo [] [] [] [] 1%Z)
        (bs "monetdb-rust") sample_v chal with
      | Ok a => a
      | _ => ([], sample_state, delayed_new)
      end
  | _ => ([], sample_state, delayed_new)
  end.

Definition final_state : ServerState := (answer_to server_challenge).1.2.

Lemma sample_text line : length line <= 1000 -> utf8_valid line = true -> text_message (one_block line) line.
Proof. intros Hl Hu. split; [by apply one_block_message|]. split; [done|lia]. Qed.

Lemma sample_login : plain_dialogue sample_v 2 (proxy_round ++ server_round)
  [(answer_to proxy_challenge).1.1; (answer_to server_challenge).1.1] final_state
  (answer_to server_challenge).2.
Proof.
  eapply login_restart; [|apply login_complete].
  - apply (round _ _ _ _ _ _ _ _ (one_block proxy_challenge) proxy_challenge
      (MkChallenge (bs "abc") (bs "merovingian") (bs "SHA512") Lit (bs "SHA512") 0 0 false)
      (answer_to proxy_challenge).1.1 (answer_to proxy_challenge).1.2 (answer_to proxy_challenge).2
      (one_block proxy_reply) proxy_reply); try (vm_compute; reflexivity);
      apply sample_text; vm_compute; first [reflexivity|lia].
  - apply (round _ _ _ _ _ _ _ _ (one_block server_challenge) server_challenge
      (MkChallenge (bs "def") (bs "mserver") (bs "RIPEMD160,SHA512") Lit (bs "SHA512") 2 0 false)
      (answer_to server_challenge).1.1 final_state (answer_to server_challenge).2
      (one_block []) []); try (vm_compute; reflexivity);
      apply sample_text; vm_compute; first [reflexivity|lia].
Qed.

Lemma connection_established_witness :
  exists out commands,
    messages out ([(answer_to proxy_challenge).1.1; (answer_to server_challenge).1.1] ++ commands) /\
    queued (answer_to server_challenge).2 0 commands /\
    (3 + length out < 300 ->
     exists c settings s',
       Connection_new (Addr := unit) 300 (fun _ => inl []) (fun _ => true) plain_login sample_parms login_wire =
         (Ok (c, settings), login_wire) /\
       connected (MkWorld c 0) s' (length commands) [] /\
       written s' = bs "0" ++ out /\ pending s' = bs "next").
Proof.
  set (s := MkWire (inbox login_wire) (bs "0") [Give 3; Intr] [Intr]).
  destruct (connection_established thirty_two ltac:(intros i; apply Nat.lt_0_succ) 300 (fun _ s => s)
    (fun s => s) false None (MkClientInfo [] [] [] [] 1%Z) (bs "monetdb-rust") (fun _ => inl []) (fun _ => true)
    ltac:(intros t x Hr Hw; split; try done; by rewrite app_nil_r)
    sample_parms sample_v login_wire login_wire login_wire 0%Z s 2 (proxy_round ++ server_round)
    [(answer_to proxy_challenge).1.1; (answer_to server_challenge).1.1] final_state
    (answer_to server_challenge).2 (bs "next")) as (out & commands & Hm & Hq & Hrun).
  - do 2 (apply wf_store; [|reflexivity]). apply wf_default.
  - vm_compute. reflexivity.
  - reflexivity.
  - vm_compute. reflexivity.
  - apply sample_login.
  - lia.
  - repeat constructor.
  - repeat constructor.
  - vm_compute. lia.
  - reflexivity.
  - exists out, commands. split; [exact Hm|]. split; [exact Hq|]. intros Hf.
    destruct Hrun as (c & settings & s' & E & Hc & Hw & Hp & _); [cbn; lia|].
    exists c, settings, s'. exact (conj E (conj Hc (conj Hw Hp))).
Defined.
