(* ===== verification/CursorSafe.v ===== *)
(** * Cursors on arbitrary bytes

    Whatever the server sends, however reads and writes behave, and whatever
    other threads do meanwhile, the methods of a cursor keep its invariant: the
    parser is well formed, so that no range of a response is left and no arm
    that the code declares unreachable is reached, and never more rows are
    handed out than the reply announced. *)

From Stdlib Require Import ZArith Lia.
From stdpp Require Import gmap.
From S2P Require Import Prelude Bytes Blockstate IO Writing Reading Decimal Errors.
From S2P Require Import MonetTypes ReplyBuf RowSet Replies ReplyProgress Convert Delayed Validate.
From S2P Require Import ServerSock Login Upload Producer Conn ConnInvariant Sharing Cursor Exchange.

Open Scope Z_scope.

(** ** The invariant *)

Definition good_rs (rs : ResultSet) : Prop :=
  wf_rows (row_set rs) /\ (forall st, stashed rs = Some st -> wf_buf (rs_buf st)) /\
  0 <= next_row rs <= total_rows rs.

Definition good_parser (p : ReplyParser) : Prop :=
  match p with Data rs => good_rs rs | _ => wf_buf (reply_buf p) end.

Definition good (cur : Cursor) : Prop := good_parser (cur_replies cur).

(** *** The numbers of a reply *)

Lemma parse_items_range t line n i parts count vs :
  parse_items t line n i parts count = Ok vs -> Forall (fun v => in_type t v = true) vs.
Proof.
  revert i parts vs. induction count as [|count IH]; intros i parts vs; simpl.
  { intros [= <-]. constructor. }
  destruct parts as [|p parts]; [done|]. destruct (parse_int t p) as [v|] eqn:Ep; [|done].
  intros (ws & Hw & [= <-])%res_bind_ok. constructor; [by eapply parse_int_range|by eapply IH].
Qed.

Lemma header_line_numbers t line n vs :
  parse_header_line t line n = Ok vs -> length vs = n /\ Forall (fun v => in_type t v = true) vs.
Proof.
  destruct (parse_header_line_cases t line n) as [[rest ->]|[e ->]]; [|done].
  intros E. split; [by eapply parse_items_length|by eapply parse_items_range].
Qed.

Lemma parse_data_total prep b rs :
  (parse_data prep b).1 = Ok (Data rs) -> next_row rs = 0 /\ 0 <= total_rows rs.
Proof.
  destruct (parse_data prep b) as [r b'] eqn:E. cbn [fst]. intros ->.
  unfold parse_data, parse_header in E. res_inv.
  match goal with H : parse_header_line _ _ _ = Ok ?f |- _ =>
    apply header_line_numbers in H as [Hl Hv]; rename f into fs end.
  match goal with H : check_data_fields _ fs = Ok ?f |- _ =>
    rename H into Hc; destruct f as [[[rid total] ncols] included] end.
  res_inv. cbn [next_row total_rows].
  destruct fs as [|f1 [|f2 [|f3 [|f4 [|]]]]]; try done. unfold check_data_fields in Hc.
  repeat case_match; simplify_eq/=. split; [done|].
  apply Forall_cons in Hv as [_ [Hv _]%Forall_cons]. apply in_u64 in Hv. lia.
Qed.

Section Parsing.
Context `{BstrLaws}.

Lemma parse_total b rs : parse b = Ok (Data rs) -> next_row rs = 0 /\ 0 <= total_rows rs.
Proof.
  unfold parse. case_decide; [done|].
  destruct (starts_with (bs "&1") _); [apply parse_data_total|].
  destruct (starts_with (bs "&2") _).
  { unfold parse_successful_update, sbind, sget, sret. by destruct (parse_header i64 1 b) as [[]]. }
  destruct (starts_with (bs "&3") _).
  { unfold parse_successful_other, sbind, sget, sret. by destruct (parse_header i64 0 b) as [[]]. }
  destruct (starts_with (bs "&4") _).
  { unfold parse_autocommit_status, sbind, sget, sret. destruct (split_str _ _ b) as [[line| | |] b1]; try done.
    by destruct (parse_autocommit_line _). }
  destruct (starts_with (bs "&5") _); [apply parse_data_total|].
  destruct (starts_with (bs "!") _).
  { unfold parse_error, sbind, sget, sret. by destruct (split_str _ _ b) as [[]]. }
  destruct (starts_with (bs "=OK" ++ [x0a]) _).
  { unfold parse_ok, sbind, sget, sret. destruct (split_str _ _ b) as [[line| | |] b1]; try done. by case_decide. }
  destruct (starts_with (bs "=") _).
  { unfold parse_noslice, sbind, sget, slift, sret. destruct (checked u64 _) eqn:E; [|done]. cbn.
    intros [= <-]. cbn. lia. }
  by destruct (bstr_lines (peek b)).
Qed.

Lemma wf_parser_good p :
  wf_parser p -> (forall rs, p = Data rs -> next_row rs = 0 /\ 0 <= total_rows rs) -> good_parser p.
Proof.
  intros [Hb Hp] Hn. destruct p as [vec|b|b aff|rs|b]; try exact Hb.
  destruct (Hn rs eq_refl), Hp as [Hr Hs]. split; [done|]. split; [by rewrite Hs|lia].
Qed.

Lemma parse_good b :
  wf_buf b -> returns (parse b) /\ forall p, parse b = Ok p -> good_parser p.
Proof.
  intros Hb. destruct (parse_cases b Hb) as [Hr Hc]. split; [done|]. intros p Hp.
  apply wf_parser_good; [|intros rs ->; by eapply parse_total].
  destruct (Hc p Hp) as [[-> _]|[[Hw _]|[Hw _]]]; try done.
Qed.

Lemma new_good vec :
  Z.of_nat (length vec) < 2 ^ 63 ->
  returns (parser_new vec) /\ forall p, parser_new vec = Ok p -> good_parser p.
Proof. intros Hl. by apply parse_good, wf_buf_new. Qed.

Lemma next_good p :
  good_parser p ->
  returns (into_next_reply p) /\ forall q close, into_next_reply p = Ok (q, close) -> good_parser q.
Proof.
  intros Hp.
  assert (forall b (close : option Z), wf_buf b ->
    let r := let? q := parse b in Ok (q, close) in
    returns r /\ forall q c, r = Ok (q, c) -> good_parser q) as Hnext.
  { intros b close Hb. destruct (parse_good b Hb) as [Hr Hg].
    destruct (parse b); try done. split; [done|]. intros q c [= <- _]. auto. }
  destruct p as [vec|b|b aff|rs|b]; cbn [into_next_reply]; try (by apply Hnext).
  destruct Hp as (Hrows & Hst & _).
  assert (wf_buf (rs_buf (match stashed rs with Some s => s | None => row_set rs end))) as Hwf.
  { destruct (stashed rs) as [st|]; [by apply Hst|by destruct Hrows]. }
  destruct (finish_spec _ Hwf) as (b & -> & Hwb & _). by apply Hnext.
Qed.

End Parsing.

(** ** Windows of rows *)

Lemma export_header_returns n b :
  wf_buf b ->
  by_lines (fun vs _ => length vs = n) (parse_export_header u64 n) b.
Proof.
  intros Hwf. unfold parse_export_header. eapply by_lines_bind; [by apply by_lines_split|].
  intros line b' Hw _. destruct (starts_with (bs "&6 ") (trim_ascii line)); cbn [negb]; [|done].
  unfold slift, by_lines. simpl. split; [apply parse_header_line_returns|].
  intros vs Hvs. split; [by left|]. by apply header_line_numbers in Hvs as [Hl _].
Qed.

Lemma export_header_checked fields id columns rows offset :
  length fields = 4%nat -> returns (validate_export_header fields id columns rows offset).
Proof.
  destruct fields as [|f0 [|f1 [|f2 [|f3 [|]]]]]; try done. intros _. unfold validate_export_header.
  by repeat case_match.
Qed.

(** The reply to a request for rows, whatever it is. *)
Lemma parse_export_safe vec id start n columns :
  Z.of_nat (length vec) < 2 ^ 63 ->
  returns (parse_export vec id start n columns) /\
  forall rows, parse_export vec id start n columns = Ok rows -> wf_rows rows.
Proof.
  intros Hl. unfold parse_export, detect_errors. destruct (server_error vec); [done|]. cbn [res_bind].
  destruct (export_header_returns 4 (buf_new vec) (wf_buf_new vec Hl)) as [Hr Hv].
  destruct (parse_export_header u64 4 (buf_new vec)) as [[fields|e| |] b]; try done. cbn [fst snd] in *.
  destruct (Hv fields eq_refl) as [Hb Hf]. assert (wf_buf b) as Hwb by (destruct Hb; naive_solver).
  pose proof (export_header_checked fields id columns n start Hf) as Hc. cbn [res_bind].
  destruct (validate_export_header fields id columns n start); try done. cbn [res_bind].
  unfold validate_fetch_progress. case_match; [done|]. split; [done|].
  intros rows [= <-]. by apply wf_rows_new.
Qed.

Lemma check_exportbin_returns response id start n columns :
  Z.of_nat (length response) < 2 ^ 63 -> returns (check_exportbin response id start n columns).
Proof.
  intros Hl. unfold check_exportbin, detect_errors.
  assert (forall r : res CursorError unit, returns r ->
    returns (let? _ := if bool_decide (head response = Some x21)
      then match server_error response with Some error => Err (Server error) | None => Ok tt end
      else Ok tt in r)) as Hfirst.
  { intros r Hr. case_bool_decide; [|done]. by destruct (server_error response). }
  apply Hfirst. destruct (memchr x0a response) as [i|]; [|done].
  assert (wf_buf (buf_new (take (S i) response))) as Hwf.
  { apply wf_buf_new. rewrite length_take. lia. }
  destruct (export_header_returns 4 _ Hwf) as [Hr Hv].
  destruct (parse_export_header u64 4 _) as [[fields|e| |] b]; try done. cbn [fst snd] in *.
  destruct (Hv fields eq_refl) as [_ Hf].
  pose proof (export_header_checked fields id columns n start Hf) as Hc. cbn [res_bind].
  by destruct (validate_export_header fields id columns n start).
Qed.

Lemma good_get_str cur colnr : good cur -> returns (cursor_get_str colnr cur).
Proof.
  intros Hg. unfold cursor_get_str, cursor_row_set. destruct (cur_replies cur) as [| | |rs|] eqn:E; try done.
  cbn [res_bind]. unfold good in Hg. rewrite E in Hg. destruct Hg as [Hr _].
  destruct (decide (colnr < length (fields (row_set rs)))%nat) as [Hlt|Hge].
  - destruct (get_field_raw_wf _ _ Hr Hlt) as [[v|] ->]; [|done]. cbn. unfold field_utf8.
    by destruct (utf8_valid v).
  - unfold get_field_raw. by rewrite (proj2 (lookup_ge_None _ _)) by lia.
Qed.

(** ** Safe computations *)

Section Safe.
Context {S : Type} `{!Read S} `{!Write S} `{BstrLaws}.
Context (others : nat -> list action) (clock : nat -> Z) (fits : Z -> bool).
Context (begin_operation : Timeouts -> Z -> S -> option S).
Context (fuel : nat) (sizes : nat -> nat) (settings : Settings).
Context (to_string : CursorError -> bytes).

Notation ccomp := (comp (Cursor * World S) CursorError).
Notation body := (comp (ServerState * DelayedCommands * S) CursorError).
Notation limit := (c_max_response_size settings).

(** The cursor unwound because an operation on the socket did, which poisoned the
    connection; nothing of the cursor itself panics. *)
Definition unwound (st : Cursor * World S) : Prop := good st.1 /\ poisoned (conn st.2) = true.

Definition safely {A} (G : Cursor -> Prop) (m : ccomp A) (Q : A -> Cursor -> Prop) : Prop :=
  triple (fun st => G st.1) m (fun a st => Q a st.1) (fun _ st => good st.1) unwound.

Lemma safely_bind {A B} (G : Cursor -> Prop) (m : ccomp A) (k : A -> ccomp B) M Q :
  safely G m M -> (forall a, safely (M a) (k a) Q) -> safely G (sbind m k) Q.
Proof. apply (triple_bind (fun st => G st.1) m k (fun a st => M a st.1)). Qed.

Lemma safe_conseq {A} (G G' : Cursor -> Prop) (m : ccomp A) (Q Q' : A -> Cursor -> Prop) :
  safely G m Q -> (forall cur, G' cur -> G cur) -> (forall a cur, Q a cur -> Q' a cur) -> safely G' m Q'.
Proof.
  intros Hm HG HQ [cur w] Hc. specialize (Hm (cur, w) (HG cur Hc)).
  destruct (m (cur, w)) as [[a|e| |] [cur' w']]; simpl in *; auto.
Qed.

(** A fact that does not depend on the state. *)
Lemma safe_pure {A} (G : Cursor -> Prop) (P : Prop) (m : ccomp A) (Q : A -> Cursor -> Prop) :
  (forall cur, G cur -> P) -> (P -> safely G m Q) -> safely G m Q.
Proof. intros HP Hm [cur w] Hc. exact (Hm (HP cur Hc) (cur, w) Hc). Qed.

Lemma safely_ret {A} (G : Cursor -> Prop) (a : A) (Q : A -> Cursor -> Prop) :
  (forall cur, G cur -> Q a cur) -> safely G (sret a) Q.
Proof. intros HG [cur w] Hc. exact (HG cur Hc). Qed.

Lemma safely_fail {A} (G : Cursor -> Prop) e (Q : A -> Cursor -> Prop) :
  (forall cur, G cur -> good cur) -> safely G (sfail e) Q.
Proof. intros HG [cur w] Hc. exact (HG cur Hc). Qed.

Lemma safe_view {A} (G : Cursor -> Prop) (m : Cursor -> res CursorError A) (Q : A -> Cursor -> Prop) :
  (forall cur, G cur -> good cur /\ match m cur with
     | Ok a => Q a cur | Err _ => True | Panic => False | NoFuel => True end) ->
  safely G (view m) Q.
Proof.
  intros HG [cur w] Hc. destruct (HG cur Hc) as [Hg Hm]. unfold view.
  by destruct (m cur) as [a|e| |].
Qed.

Lemma safe_lift {A} (G : Cursor -> Prop) (r : res CursorError A) (Q : A -> Cursor -> Prop) :
  (forall cur, G cur -> good cur /\ match r with
     | Ok a => Q a cur | Err _ => True | Panic => False | NoFuel => True end) ->
  safely G (slift r) Q.
Proof.
  intros HG [cur w] Hc. destruct (HG cur Hc) as [Hg Hm]. unfold slift. by destruct r as [a|e| |].
Qed.

Lemma safe_on_cursor {A} (G : Cursor -> Prop) (m : Cursor -> A * Cursor) (Q : A -> Cursor -> Prop) :
  (forall cur, G cur -> Q (m cur).1 (m cur).2) -> safely G (on_cursor m) Q.
Proof.
  intros HG [cur w] Hc. specialize (HG cur Hc). unfold on_cursor. by destruct (m cur).
Qed.

Lemma safe_result_set {A} (G : Cursor -> Prop) (m : ResultSet -> res CursorError A * ResultSet)
    (Q : A -> Cursor -> Prop) :
  (forall cur, G cur -> exists rs, cur_replies cur = Data rs /\ match m rs with
     | (Ok a, rs') => Q a (with_replies (Data rs') cur)
     | (Err _, rs') => good_rs rs'
     | (Panic, _) => False
     | (NoFuel, _) => True
     end) ->
  safely G (result_set_mut m) Q.
Proof.
  intros HG [cur w] Hc. destruct (HG cur Hc) as (rs & E & Hm). unfold result_set_mut. rewrite E.
  destruct (m rs) as [[a|e| |] rs']; done.
Qed.

Lemma safe_attempt {A} (G : Cursor -> Prop) (m : ccomp A) :
  safely G m (fun _ => good) -> safely G (attempt m) (fun _ => good).
Proof.
  intros Hm [cur w] Hc. specialize (Hm (cur, w) Hc). unfold attempt.
  by destruct (m (cur, w)) as [[a|e| |] [cur' w']].
Qed.

(** A value of an operation is a value of its body. *)
Lemma run_locked_came {A} t (f : body A) w a w' :
  run_locked_with_timeouts others clock fits begin_operation t f w = (Ok a, w') ->
  exists x y, f x = (Ok a, y).
Proof.
  unfold run_locked_with_timeouts, guarded. intros E.
  match type of E with (let '(_, _) := ?m in _) = _ => destruct m as [r w1] eqn:E1 end.
  destruct r; simplify_eq. unfold operate in E1.
  repeat (res_inv; case_match; try (unfold abandon in E1; res_inv; done)).
  apply sbind_ok in E1 as (result & w2 & Eb & E1). apply sbind_ok in E1 as (u & w3 & _ & E1).
  assert (exists s1, result = inl (a, s1)) as [s1 ->].
  { unfold evaluate, settle in E1.
    repeat (res_inv; case_match; try (unfold abandon in E1; res_inv; done)).
    res_inv. eauto. }
  unfold run_body in Eb.
  destruct (f _) as [[a'|e| |] [[st dc] s2]] eqn:Ef; simplify_eq. eauto.
Qed.

(** What the connection does on its own leaves the cursor alone. *)
Lemma safe_queue_close (G : Cursor -> Prop) id :
  safely G (queue_close others id) (fun _ => G).
Proof. by intros [cur w] Hc. Qed.

Lemma safe_run_locked {A} (G : Cursor -> Prop) (f : body A) :
  (forall cur, G cur -> good cur) ->
  safely G (run_locked others clock fits begin_operation f)
    (fun a cur => G cur /\ exists x y, f x = (Ok a, y)).
Proof.
  intros HG [cur w] Hc. unfold run_locked.
  destruct (run_locked_with_timeouts _ _ _ _ _ f w) as [r w'] eqn:E.
  destruct r as [a|e| |]; cbn; [|by apply HG| |done].
  - split; [done|]. by eapply run_locked_came.
  - split; [by apply HG|]. unfold run_locked_with_timeouts, guarded in E.
    match type of E with (let '(_, _) := ?m in _) = _ => destruct m as [r1 w1] end.
    by destruct r1; simplify_eq.
Qed.

(** *** Stepping *)

Definition is_data (cur : Cursor) : Prop := exists rs, cur_replies cur = Data rs.
Definition is_exhausted (cur : Cursor) : Prop := exists vec, cur_replies cur = Exhausted vec.

Lemma good_default : good_parser default_parser.
Proof. by apply wf_buf_new. Qed.

Lemma safe_next_reply : safely good (next_reply others) (fun _ => good).
Proof.
  unfold next_reply. eapply (safely_bind _ _ _ (fun p cur => good_parser p /\ good cur)).
  { apply safe_on_cursor. intros cur Hg. split; [done|apply good_default]. }
  intros old. eapply (safely_bind _ _ _ (fun qc cur => good_parser qc.1 /\ good cur)).
  { apply safe_lift. intros cur [Hp Hg]. split; [done|]. destruct (next_good old Hp) as [Hr Hn].
    destruct (into_next_reply old) as [[q close]| | |]; try done. split; [by eapply Hn|done]. }
  intros [new close]. eapply (safely_bind _ _ _ (fun _ cur => good_parser new /\ good cur)).
  { destruct close; [apply safe_queue_close|by apply safely_ret]. }
  intros _. unfold switch_to_reply. eapply (safely_bind _ _ _ (fun _ => good)); [|intros; by apply safely_ret].
  apply safe_on_cursor. by intros cur [Hp _].
Qed.

Lemma safe_exhaust : safely good (cursor_exhaust others fuel) (fun _ cur => good cur /\ is_exhausted cur).
Proof.
  unfold cursor_exhaust. induction fuel as [|n IH]; intros [cur w] Hg;
    unfold exhaust_loop; fold (exhaust_loop (S:=S) others); unfold sbind at 1, sget;
    destruct (cur_replies cur) eqn:E; try done;
    try (by split; [done|eexists]);
    exact (safely_bind _ _ _ _ _ safe_next_reply (fun _ => IH) (cur, w) Hg).
Qed.

Lemma safe_skip : safely good (skip_to_result_set others fuel) (fun _ cur => good cur /\ is_data cur).
Proof.
  unfold skip_to_result_set. induction fuel as [|n IH]; intros [cur w] Hg;
    unfold skip_loop; fold (skip_loop (S:=S) others); unfold sbind at 1, sget;
    destruct (cur_replies cur) eqn:E; try done;
    try (by split; [done|eexists]);
    exact (safely_bind _ _ _ _ _ safe_next_reply (fun _ => IH) (cur, w) Hg).
Qed.

Lemma safe_take_buffer :
  safely (fun cur => good cur /\ is_exhausted cur) cursor_take_buffer (fun _ => good).
Proof.
  intros [cur w] [Hg [vec E]]. unfold cursor_take_buffer, sbind, sget, slift. cbn in E. rewrite E.
  cbn. exact good_default.
Qed.

Lemma safe_attempt_exhaust : safely good (attempt (cursor_exhaust others fuel)) (fun _ => good).
Proof. apply safe_attempt. eapply safe_conseq; [apply safe_exhaust|done|]. by intros a cur [Hg _]. Qed.

Lemma safe_install vec :
  Z.of_nat (length vec) < 2 ^ 63 -> safely good (install_response others fuel vec) (fun _ => good).
Proof.
  intros Hl. destruct (new_good vec Hl) as [Hr Hn]. unfold install_response.
  eapply (safely_bind _ _ _ (fun p cur => good_parser p /\ good cur)).
  { apply safe_lift. intros cur Hg. split; [done|].
    destruct (parser_new vec) as [p| | |]; try done. split; [by apply Hn|done]. }
  intros p. eapply (safely_bind _ _ _ (fun _ => good)).
  { apply safe_on_cursor. by intros cur [Hp _]. }
  intros _. destruct (detect_errors vec); try (by apply safely_ret).
  eapply safely_bind; [apply safe_attempt_exhaust|]. intros a. by apply safely_fail.
Qed.

Lemma safe_discard vec :
  Z.of_nat (length vec) < 2 ^ 63 -> safely good (discard_sql_response others fuel vec) (fun _ => good).
Proof.
  intros Hl. destruct (new_good vec Hl) as [Hr Hn]. unfold discard_sql_response.
  destruct (parser_new vec) as [p|e| |]; try done; [|by apply safely_ret].
  eapply (safely_bind _ _ _ (fun _ => good)).
  { apply safe_on_cursor. intros cur _. by apply Hn. }
  intros _. eapply safely_bind; [apply safe_attempt_exhaust|]. intros a. by apply safely_ret.
Qed.

Lemma safe_report_refusal error vec :
  Z.of_nat (length vec) < 2 ^ 63 ->
  safely good (report_refusal others fuel to_string error vec) (fun _ => good).
Proof.
  intros Hl. destruct (new_good vec Hl) as [Hr Hn]. unfold report_refusal.
  eapply (safely_bind _ _ _ (fun _ => good)); [|intros [server|]; by apply safely_fail].
  destruct (parser_new vec) as [p|e| |]; try done; [|by apply safely_ret].
  eapply (safely_bind _ _ _ (fun _ => good)).
  { apply safe_on_cursor. intros cur _. by apply Hn. }
  intros ?. eapply safely_bind; [apply safe_attempt_exhaust|]. intros ?. by apply safely_ret.
Qed.

(** *** Commands *)

Notation command_raw := (command_raw others clock fits begin_operation fuel sizes settings).

Definition bounded_vec (vec : bytes) : Prop := Z.of_nat (length vec) < 2 ^ 63.

Lemma read_response_length response (x : ServerState * DelayedCommands * S) vec y :
  read_response fuel sizes settings response x = (Ok vec, y) ->
  (length vec <= length response + limit)%nat.
Proof.
  unfold read_response, on_socket. destruct x as [[state delayed] sock].
  destruct (io_lift _ sock) as [r sock'] eqn:E. intros [= -> _]. unfold io_lift in E.
  destruct (to_limited fuel sizes response limit sock) as [r s2] eqn:Et.
  destruct r; simplify_eq/=. by apply to_limited_length in Et.
Qed.

Lemma safe_delayed_result (G : Cursor -> Prop) e :
  (forall cur, G cur -> good cur) -> safely G (delayed_result (S := S) e) (fun _ => G).
Proof. intros HG. destruct e; [by apply safely_fail|by apply safely_ret]. Qed.

Hypothesis limit_fits : Z.of_nat (Datatypes.S fuel * limit) < 2 ^ 63.
Hypothesis some_fuel : (0 < fuel)%nat.

Lemma safe_command_raw (G : Cursor -> Prop) command :
  (forall cur, G cur -> good cur) ->
  safely G (command_raw command) (fun vec cur => G cur /\ bounded_vec vec).
Proof.
  intros HG. unfold Cursor.command_raw. eapply safely_bind; [by apply safe_run_locked|].
  intros [vec e]. eapply safely_bind.
  { apply safe_delayed_result. intros cur [Hc _]. auto. }
  intros ?. apply safely_ret. intros cur (Hc & x & y & E). split; [done|].
  apply sbind_ok in E as (e' & x1 & _ & E). apply sbind_ok in E as (vec' & x2 & Er & E).
  simplify_eq/=. apply read_response_length in Er. unfold bounded_vec.
  cbn in Er.
  unfold sret in E. simplify_eq. lia.
Qed.

Lemma safe_do_close : safely good (do_close others clock fits begin_operation fuel sizes settings) (fun _ => good).
Proof.
  unfold do_close. eapply safely_bind; [apply safe_exhaust|].
  intros ?. eapply safely_bind; [apply safe_take_buffer|].
  intros ?. eapply safely_bind; [by apply safe_run_locked|].
  intros e. eapply safe_conseq; [apply (safe_delayed_result good); auto|by intros cur [Hg _]|done].
Qed.

(** *** Rows *)

Lemma is_data_rs cur : good cur -> is_data cur -> exists rs, cur_replies cur = Data rs /\ good_rs rs.
Proof. intros Hg [rs E]. exists rs. unfold good in Hg. by rewrite E in Hg. Qed.

Definition at_data (cur : Cursor) : Prop := good cur /\ is_data cur.

Lemma at_data_with cur rs : good_rs rs -> at_data (with_replies (Data rs) cur).
Proof. intros Hg. split; [exact Hg|by exists rs]. Qed.

Lemma put_aside_safe n : safely at_data (put_aside n) (fun _ => at_data).
Proof.
  apply safe_result_set. intros cur [Hg Hd]. destruct (is_data_rs cur Hg Hd) as (rs & E & Hr & Hs & Hn).
  exists rs. split; [done|].
  assert (wf_rows (rowset_new (buf_new []) n)) as Hnil by (apply wf_rows_new; by apply wf_buf_new).
  cbn [stashed with_row_set]. destruct (stashed rs) as [st|] eqn:Es.
  - destruct (finish_spec (row_set rs)) as (b & -> & _); [by destruct Hr|]. simpl.
    apply at_data_with. split; [done|]. split; [|done]. cbn. rewrite Es. apply Hs.
  - apply at_data_with. split; [done|]. split; [|done]. cbn. intros st [= <-]. by destruct Hr.
Qed.

Lemma advance_row_safe : safely at_data advance_row (fun _ => at_data).
Proof.
  apply safe_result_set. intros cur [Hg Hd]. destruct (is_data_rs cur Hg Hd) as (rs & E & Hr & Hs & Hn).
  exists rs. split; [done|]. destruct (advance_safe_lemma (row_set rs) Hr) as [Hret Hw].
  destruct (advance (row_set rs)) as [[[]|e| |] rows]; try done; cbn [fst snd] in *.
  - unfold count_row. cbn [next_row total_rows with_row_set].
    destruct (Z.leb_spec (total_rows rs) (next_row rs)).
    + by split.
    + apply at_data_with. split; [done|]. split; [done|]. cbn. lia.
  - by apply at_data_with.
Qed.

Lemma fetch_more_rows_safe :
  safely at_data (fetch_more_rows others clock fits begin_operation fuel sizes settings) (fun _ => at_data).
Proof.
  unfold fetch_more_rows. eapply (safely_bind _ _ _ (fun _ => at_data)).
  { apply safe_view. intros cur [Hg Hd]. split; [done|].
    destruct (is_data_rs cur Hg Hd) as (rs & E & Hr & Hs & Hn).
    unfold decide_next_fetch, result_set. rewrite E. cbn [res_bind].
    destruct (Z.ltb_spec (total_rows rs) (next_row rs)); done. }
  intros [[[[id start] n] size] columns]. eapply safely_bind; [apply put_aside_safe|].
  intros ?. eapply safely_bind; [apply (safe_command_raw at_data); by intros cur [Hg _]|].
  intros vec. eapply (safely_bind _ _ _ (fun rows cur => at_data cur /\ wf_rows rows)).
  { apply safe_lift. intros cur [[Hg Hd] Hv]. split; [done|].
    destruct (parse_export_safe vec id start n columns Hv) as [Hret Hrows].
    destruct (parse_export vec id start n columns) as [rows|e| |]; try done. split; [done|by apply Hrows]. }
  intros rows. eapply (safely_bind _ _ _ (fun _ => at_data)).
  { apply safe_result_set. intros cur [[Hg Hd] Hw].
    destruct (is_data_rs cur Hg Hd) as (rs & E & Hr & Hs & Hn). exists rs. split; [done|].
    by apply at_data_with. }
  intros ?. by apply safe_on_cursor.
Qed.

Lemma safe_result_view (G : Cursor -> Prop) :
  (forall cur, G cur -> at_data cur) -> safely G (view result_set) (fun _ => G).
Proof.
  intros HG. apply safe_view. intros cur Hc. destruct (HG cur Hc) as [Hg [rs E]]. split; [done|].
  unfold result_set. by rewrite E.
Qed.

Lemma next_row_safe :
  safely good (cursor_next_row others clock fits begin_operation fuel sizes settings) (fun _ => at_data).
Proof.
  unfold cursor_next_row. eapply safely_bind; [apply safe_skip|]. intros ?.
  generalize fuel at 2 as n. induction n as [|n IH]; [by intros [cur w] _|]. cbn [next_row_loop].
  eapply safely_bind; [apply advance_row_safe|]. intros [|]; [by apply safely_ret|].
  eapply safely_bind; [by apply safe_result_view|]. intros rs. destruct (_ <=? _); [by apply safely_ret|].
  eapply safely_bind; [apply fetch_more_rows_safe|]. intros ?. exact IH.
Qed.

Lemma binary_result_safe : safely good (binary_result others fuel) (fun _ => good).
Proof.
  unfold binary_result. eapply safely_bind; [apply safe_skip|]. intros ?.
  eapply safely_bind; [by apply (safe_result_view at_data)|]. intros rs.
  destruct (prepared rs); [apply safely_fail|apply safely_ret]; by intros cur [Hg _].
Qed.

Lemma fetch_binary_safe start n :
  safely good (fetch_binary others clock fits begin_operation fuel sizes settings start n) (fun _ => good).
Proof.
  unfold fetch_binary. eapply safely_bind; [apply safe_skip|]. intros ?.
  eapply safely_bind; [by apply (safe_result_view at_data)|]. intros rs.
  assert (forall cur, at_data cur -> good cur) as Hgood by (by intros cur [Hg _]).
  repeat (destruct (_ : bool); [by apply safely_fail|]).
  eapply safely_bind; [by apply (safe_command_raw at_data)|]. intros vec.
  eapply (safely_bind _ _ _ (fun _ => good)); [|intros ?; by apply safely_ret].
  apply safe_lift. intros cur [[Hg _] Hv]. split; [done|].
  match goal with |- match ?r with _ => _ end => assert (returns r) as Hr by (by apply check_exportbin_returns) end.
  by destruct (check_exportbin _ _ _ _ _).
Qed.

(** *** Statements *)

Section Producers.
Context {P : Type} (upload : bytes -> P -> program P) (chunk : nat).
Notation uploads := (produce fuel sizes upload).

Definition small_offer (o : offer_result (P := P)) : Prop :=
  match o with Continue _ _ _ => True | Finish final _ _ => (length final <= limit)%nat end.

Lemma offer_small filename p (x : ServerState * DelayedCommands * S) o y :
  offer fuel sizes settings to_string uploads chunk filename p x = (Ok o, y) -> small_offer o.
Proof.
  destruct x as [[state delayed] sock]. unfold offer, produce.
  assert (small limit (upload_new sock chunk limit)) as Hnew by by split.
  pose proof (small_run_program fuel sizes limit (upload filename p) p _ Hnew) as Hs.
  destruct (run_program fuel sizes (upload filename p) (p, upload_new sock chunk limit)) as [r [p' u]].
  cbn [snd] in Hs. destruct r as [a|error| |]; try done.
  - pose proof (upload_finish_small fuel sizes limit u Hs) as Hf.
    destruct (upload_finish fuel sizes u) as [[[next|next final]|e| |] u']; try done; by intros [= <- _].
  - destruct Hs as [_ Ho]. destruct (u_started u).
    + destruct (u_outcome u) as [[next|next final]|]; try done; intros [= <- _]; [done|].
      by apply (Ho (ServerResponse next final)).
    + intros E. res_inv. done.
Qed.

Lemma request_small request v (x : ServerState * DelayedCommands * S) o y :
  handle_request fuel sizes settings to_string uploads chunk request v x = (Ok o, y) -> small_offer o.
Proof.
  unfold handle_request. intros E. destruct (upload_filename request) as [filename|].
  - destruct (producer_error v); [by res_inv|by eapply offer_small].
  - by res_inv.
Qed.

Lemma take_file_request_length vec r vec' :
  take_file_request vec = (r, vec') -> (length vec' <= length vec)%nat.
Proof.
  unfold take_file_request. intros E. repeat case_match; simplify_eq; try done.
  rewrite length_take. lia.
Qed.

(** Each round adds what the server may send at once. *)
Lemma serve_loop_length n v (x : ServerState * DelayedCommands * S) v' y :
  serve_loop fuel sizes settings to_string uploads chunk n v x = (Ok v', y) ->
  (length (response v') <= length (response v) + Datatypes.S n * limit)%nat.
Proof.
  revert v x. induction n as [|n IH]; intros v x; [done|]. cbn [serve_loop]. intros E.
  apply sbind_ok in E as (vec & x1 & Er & E). apply read_response_length in Er.
  destruct (take_file_request vec) as [r vec'] eqn:Et.
  pose proof (take_file_request_length _ _ _ Et) as Hl.
  destruct r as [[request|]| | |]; try (unfold sfail, spanic in E; done).
  - apply sbind_ok in E as (o & x2 & Eo & E).
    apply request_small in Eo. destruct o as [again e q|final e q]; [apply IH in E; cbn in E; lia|].
    unfold small_offer in Eo. res_inv. cbn. rewrite length_app. lia.
  - res_inv. cbn. lia.
Qed.

Lemma safe_uploads command p :
  safely good (command_with_uploads others clock fits begin_operation fuel sizes settings to_string
    uploads chunk command p) (fun rp cur => good cur /\ bounded_vec rp.1).
Proof.
  unfold command_with_uploads. eapply safely_bind; [by apply safe_run_locked|]. intros [v e].
  eapply (safe_conseq (fun cur => good cur /\ bounded_vec (response v))); [| |intros ? ? Hq; exact Hq].
  2: { intros cur (Hg & x & y & E). split; [done|].
    apply sbind_ok in E as (e' & x1 & _ & E). apply sbind_ok in E as (v' & x2 & Es & E).
    unfold sret in E. simplify_eq. apply serve_loop_length in Es. unfold bounded_vec. cbn in Es. lia. }
  apply (safe_pure _ (bounded_vec (response v))); [by intros cur [_ Hl]|intros Hl].
  eapply (safe_conseq good); [|by intros cur [Hg _]|intros ? ? Hq; exact Hq].
  destruct e; [|destruct (producer_error v); [|destruct (refused v)]].
  - eapply safely_bind; [by apply safe_discard|]. intros ?. by apply safely_fail.
  - eapply safely_bind; [by apply safe_discard|]. intros ?. by apply safely_fail.
  - eapply safely_bind; [by apply safe_report_refusal|]. intros ?. by apply safely_ret.
  - by apply safely_ret.
Qed.

Lemma streaming_safe statements p :
  safely good (execute_with_streaming_uploads_with_chunk_size others clock fits begin_operation fuel sizes
    settings to_string uploads chunk statements p) (fun _ => good).
Proof.
  unfold execute_with_streaming_uploads_with_chunk_size. eapply safely_bind; [apply safe_exhaust|].
  intros ?. eapply safely_bind; [apply safe_take_buffer|].
  intros ?. eapply safely_bind; [apply safe_uploads|]. intros [vec p'].
  apply (safe_pure _ (bounded_vec vec)); [by intros cur [_ Hl]|intros Hl].
  eapply (safe_conseq good); [|by intros cur [Hg _]|intros ? ? Hq; exact Hq].
  eapply safely_bind; [by apply safe_install|]. intros ?. by apply safely_ret.
Qed.

End Producers.

(** The producers of the other variants of [execute] are of this kind. *)
Lemma no_files_produced filename x :
  no_files (S:=S) filename x =
  produce fuel sizes (fun name p => Return (Err (FileTransfer
    [Errors.Lit "raw execute does not provide client file "; Debug name;
     Errors.Lit "; use a file-transfer API"])) p) filename x.
Proof. by destruct x. Qed.

Lemma in_memory_produced (files : gmap bytes bytes) filename x :
  in_memory (S:=S) fuel sizes files filename x =
  produce fuel sizes (fun name p =>
    match files !! name with
    | None => Return (Err (FileTransfer [Errors.Lit "server requested unknown file "; Debug name])) p
    | Some data => WriteChunk data (fun r => Return r p)
    end) filename x.
Proof.
  destruct x as [p u]. unfold in_memory, produce. destruct (files !! filename) as [data|]; [|done].
  cbn [run_program on_sink]. unfold on_sink. by destruct (write_chunk fuel sizes data u) as [[| | |] u'].
Qed.

(** A panic discards the state of the producer, which the tree does not have then. *)
Lemma lazily_produced {P} (make : bytes -> P -> res CursorError bytes * P) filename x :
  let upload name p :=
    match make name p with
    | (Ok data, p') => WriteChunk data (fun r => Return r p')
    | (r, p') => Return (let? _ := r in Ok tt) p'
    end in
  let got := lazily (S:=S) fuel sizes make filename x in
  let want := produce fuel sizes upload filename x in
  got.1 = want.1 /\ got.2.2 = want.2.2 /\ (returns got.1 -> got = want).
Proof.
  destruct x as [p u]. cbv zeta. unfold lazily, produce, sbind.
  destruct (make filename p) as [[data|e| |] p']; try done.
  cbn [run_program]. unfold on_sink. by destruct (write_chunk fuel sizes data u) as [[| | |] u'].
Qed.

(** *** Programs *)

(** A call of a method, its value dropped. *)
Inductive call :=
| Execute {P : Type} (upload : bytes -> P -> program P) (chunk : nat) (statements : bytes) (p : P)
| NextReply
| NextRow
| GetBinaryResult
| FetchBinary (start count : Z)
| DoClose
| SetTimeouts (timeouts : Timeouts)
| SetReplySize (reply_size : Z).

Definition ignore {A} (m : ccomp A) : ccomp unit := do! m in sret tt.

Definition run_call (c : call) : ccomp unit :=
  match c with
  | Execute upload chunk statements p =>
      ignore (execute_with_streaming_uploads_with_chunk_size others clock fits begin_operation fuel sizes
        settings to_string (produce fuel sizes upload) chunk statements p)
  | NextReply => ignore (next_reply others)
  | NextRow => ignore (cursor_next_row others clock fits begin_operation fuel sizes settings)
  | GetBinaryResult => ignore (binary_result others fuel)
  | FetchBinary start count =>
      ignore (fetch_binary others clock fits begin_operation fuel sizes settings start count)
  | DoClose => do_close others clock fits begin_operation fuel sizes settings
  | SetTimeouts timeouts => on_cursor (fun cur => (tt, set_timeouts timeouts cur))
  | SetReplySize reply_size => on_cursor (fun cur => (tt, set_reply_size reply_size cur))
  end.

(** The states of a cursor: a new one, after a call whatever its result, and after
    whatever else happens to the connection. *)
Inductive reachable : Cursor * World S -> Prop :=
| reachable_new w : reachable (cursor_new settings, w)
| reachable_call st c r st' :
    reachable st -> run_call c st = (r, st') -> r <> NoFuel -> reachable st'
| reachable_world cur w w' : reachable (cur, w) -> reachable (cur, w').

Lemma safe_ignore {A} (m : ccomp A) (Q : A -> Cursor -> Prop) :
  safely good m Q -> (forall a cur, Q a cur -> good cur) -> safely good (ignore m) (fun _ => good).
Proof. intros Hm HQ. eapply safely_bind; [apply Hm|]. intros a. apply safely_ret, HQ. Qed.

Lemma run_call_safe c : safely good (run_call c) (fun _ => good).
Proof.
  destruct c; cbn [run_call].
  - eapply safe_ignore; [apply streaming_safe|done].
  - eapply safe_ignore; [apply safe_next_reply|done].
  - eapply safe_ignore; [apply next_row_safe|by intros a cur [Hg _]].
  - eapply safe_ignore; [apply binary_result_safe|done].
  - eapply safe_ignore; [apply fetch_binary_safe|done].
  - apply safe_do_close.
  - by apply safe_on_cursor.
  - by apply safe_on_cursor.
Qed.

Lemma reachable_good st : reachable st -> good st.1.
Proof.
  induction 1 as [w|st c r st' _ IH E Hr|cur w w' _ IH]; [apply good_default| |done].
  pose proof (run_call_safe c st IH) as H1. rewrite E in H1. destruct r; [done|done| |done].
  by destruct H1.
Qed.

End Safe.

(** C6: A cursor on arbitrary bytes.  Whatever the server sends, whatever other
    threads do, whatever the producers of uploads do with their sinks and
    whatever sequence of methods was called before (their errors included), a
    call that ends gives a value or an error, and panics only when an operation
    on the socket panicked and poisoned the connection; in every state no more
    rows were handed out than the reply announced, the ranges of the fields lie
    in the response, and reading a column as text never panics. *)
Theorem cursor_safe {S : Type} `{!Read S} `{!Write S} `{BstrLaws}
    (others : nat -> list action) (clock : nat -> Z) (fits : Z -> bool)
    (begin_operation : Timeouts -> Z -> S -> option S) (fuel : nat) (sizes : nat -> nat)
    (settings : Settings) (to_string : CursorError -> bytes) st c :
  Z.of_nat (Datatypes.S fuel * c_max_response_size settings) < 2 ^ 63 -> (0 < fuel)%nat ->
  reachable others clock fits begin_operation fuel sizes settings to_string st ->
  match run_call others clock fits begin_operation fuel sizes settings to_string c st with
  | (Panic, (_, w)) => poisoned (conn w) = true
  | _ => True
  end /\
  (forall rs, cur_replies st.1 = Data rs ->
    wf_rows (row_set rs) /\ 0 <= next_row rs <= total_rows rs) /\
  forall colnr, returns (cursor_get_str colnr st.1).
Proof.
  intros Hl Hf Hst.
  apply (reachable_good others clock fits begin_operation fuel sizes settings to_string Hl Hf) in Hst.
  split_and!.
  - pose proof (run_call_safe others clock fits begin_operation fuel sizes settings to_string Hl Hf c st Hst)
      as Hc.
    destruct (run_call _ _ _ _ _ _ _ _ c st) as [[] [cur w]]; try done. by destruct Hc.
  - intros rs E. unfold good in Hst. rewrite E in Hst. by destruct Hst as (Hr & _ & Hn).
  - intros colnr. by apply good_get_str.
Qed.

(** *** Witness *)

#[local] Instance one_line : BstrLines := fun l => [l].

Definition line (l : bytes) : bytes := l ++ [x0a].

(** A table that announces one row and has two. *)
Definition hostile_reply : bytes :=
  line (bs "&1 5 1 1 1") ++ line (bs "% sys.t # table_name") ++ line (bs "% a # name") ++
  line (bs "% int # type") ++ line (bs "% 1 # length") ++ line (bs "% 0 0 # typesizes") ++
  line (bs "[ 1" ++ [x09] ++ bs "]") ++ line (bs "[ 2" ++ [x09] ++ bs "]").

(** The server asks for a file and answers before it has all of it. *)
Definition hostile : Wire :=
  MkWire (one_block (FILE_TRANSFER ++ bs "rb f" ++ [x0a]) ++ one_block hostile_reply) [] [Give 3; Intr] [Intr].

Definition hostile_call (c : call) (st : Cursor * World Wire) :=
  run_call (fun _ => []) (fun _ => 0) (fun _ => true) wire_begin 300 (fun _ => 9%nat) wire_settings
    (fun _ => bs "error") c st.

Definition hostile_reachable : Cursor * World Wire -> Prop :=
  reachable (fun _ => []) (fun _ => 0) (fun _ => true) wire_begin 300 (fun _ => 9%nat) wire_settings
    (fun _ => bs "error").

Lemma hostile_call_reachable c st :
  hostile_reachable st -> (hostile_call c st).1 <> NoFuel -> hostile_reachable (hostile_call c st).2.
Proof. intros Hst Hr. eapply reachable_call; [exact Hst|apply surjective_pairing|exact Hr]. Qed.

Definition after_execute : Cursor * World Wire :=
  (hostile_call (Execute (fun name p => write_each [name] p) 1000 (bs "SELECT 1") tt) (cursor_new wire_settings, wire_world hostile delayed_new)).2.

Definition at_first_row : Cursor * World Wire := (hostile_call NextRow after_execute).2.

Example first_row_is_there : cursor_get_str 0 at_first_row.1 = Ok (Some (bs "1")).
Proof. vm_compute. reflexivity. Qed.

Example second_row_is_refused :
  (hostile_call NextRow at_first_row).1 = Err (BadReplyErr (TooManyRows 1)).
Proof. vm_compute. reflexivity. Qed.

Lemma at_first_row_reachable : hostile_reachable at_first_row.
Proof.
  apply hostile_call_reachable; [apply hostile_call_reachable; [apply reachable_new|]|]; by vm_compute.
Qed.

Lemma cursor_safe_witness :
  (forall rs, cur_replies at_first_row.1 = Data rs ->
    wf_rows (row_set rs) /\ 0 <= next_row rs <= total_rows rs) /\
  forall colnr, returns (cursor_get_str colnr at_first_row.1).
Proof.
  generalize at_first_row_reachable. generalize at_first_row. intros st Hst.
  apply (@cursor_safe Wire _ _ one_line first_line_laws (fun _ => []) (fun _ => 0) (fun _ => true)
    wire_begin 300 (fun _ => 9%nat) wire_settings (fun _ => bs "error") st NextRow); [|lia|exact Hst].
  vm_compute. reflexivity.
Defined.
