(* ===== verification/Responses.v ===== *)
(** * Responses as the server writes them

    A response is a sequence of replies.  This file says what the server writes for
    each reply, which results it keeps and which errors it reports, without
    reference to the parser of src/cursor/replies.rs, and proves that stepping
    through the replies gives just these results and that the scan for errors
    finds just these messages. *)

From Stdlib Require Import ZArith Lia.
From stdpp Require Import sets.
From S2P Require Import Prelude Bytes IO Decimal Errors MonetTypes ReplyBuf RowSet Replies ReplyProgress Validate ServerSock Conn Cursor.

Open Scope nat_scope.

(** ** What the server writes *)

(** [prepare] tells the reply to PREPARE from a result; [rows] are the texts of the
    fields of the rows that come with the reply. *)
Inductive server_reply :=
| ResultReply (prepare : bool) (id total : Z) (extra : list Z) (cs : list column_text) (rows : list (list bytes))
| UpdateReply (count : Z) (more : bytes)
| SchemaReply (more : bytes)
| TransactionReply (line : bytes)
| ErrorReply (message : bytes).

Definition result_digit (prepare : bool) : byte := if prepare then x35 else x31.

(** A row without its line end. *)
Definition row_line (ts : list bytes) : bytes := bs "[ " ++ fields_text ts ++ [x5d].

Definition reply_lines (r : server_reply) : list bytes :=
  match r with
  | ResultReply prepare id total extra cs rows =>
      (x26 :: result_digit prepare :: x20 ::
         show_nums (id :: total :: Z.of_nat (length cs) :: Z.of_nat (length rows) :: extra)) ::
      meta_line "table_name" (ct_table <$> cs) ::
      meta_line "name" (ct_name <$> cs) ::
      meta_line "type" (ct_type <$> cs) ::
      meta_line "length" (ct_length <$> cs) ::
      meta_line "typesizes" (ct_sizes <$> cs) :: (row_line <$> rows)
  | UpdateReply count more => [bs "&2 " ++ print_dec count ++ more]
  | SchemaReply more => [bs "&3 " ++ more]
  | TransactionReply line => [line]
  | ErrorReply m => [x21 :: m]
  end.

Definition ended (lines : list bytes) : bytes := concat ((fun l => l ++ [x0a]) <$> lines).

Definition response_text (rs : list server_reply) : bytes := ended (rs ≫= reply_lines).

(** The results of which the server keeps rows that were not sent. *)
Definition kept (r : server_reply) : list Z :=
  match r with
  | ResultReply false id total _ _ rows => if (Z.of_nat (length rows) <? total)%Z then [id] else []
  | _ => []
  end.

Definition error_messages (r : server_reply) : list bytes :=
  match r with ErrorReply m => [m] | _ => [] end.

(** One line of text, without white space at its end. *)
Definition plain_line (l : bytes) : Prop :=
  x0a ∉ l /\ utf8_valid l = true /\ (forall c, last l = Some c -> is_space c = false).

(** A row of [n] fields, none of which breaks the line. *)
Definition row_of (n : nat) (ts : list bytes) : Prop :=
  length ts = n /\ (exists vs, Forall2 field_text vs ts) /\ Forall (fun t => x0a ∉ t) ts.

(** What the server writes is in order. *)
Definition sound (r : server_reply) : Prop :=
  match r with
  | ResultReply prepare id total extra cs rows =>
      cs <> [] /\ Forall plain_column cs /\ (exists cols, Forall2 (fun c col => build_column c = Ok col) cs cols) /\
      (0 <= id < 2 ^ 64)%Z /\ (Z.of_nat (length rows) <= total < 2 ^ 64)%Z /\
      Forall (fun m => 0 <= m)%Z extra /\ Forall (row_of (length cs)) rows
  | UpdateReply count more =>
      (0 <= count < 2 ^ 63)%Z /\ (forall c, head more = Some c -> c = x20) /\
      plain_line (bs "&2 " ++ print_dec count ++ more)
  | SchemaReply more => more <> [] /\ plain_line (bs "&3 " ++ more)
  | TransactionReply line => (exists b, notification line b) /\ plain_line line
  | ErrorReply m => x0a ∉ m /\ utf8_valid m = true
  end.

Lemma ended_app ls ls' : ended (ls ++ ls') = ended ls ++ ended ls'.
Proof. unfold ended. by rewrite fmap_app, concat_app. Qed.

Lemma response_cons r rs : response_text (r :: rs) = ended (reply_lines r) ++ response_text rs.
Proof. unfold response_text. cbn [mbind list_bind]. by rewrite ended_app. Qed.

(** ** The lines of a response *)

Lemma plain_meta_line kind parts :
  x0a ∉ bs kind -> Forall (fun p => plain_part p = true) parts -> x0a ∉ meta_line kind parts.
Proof.
  intros Hk Hp. unfold meta_line. rewrite !not_elem_of_app. repeat split; try done.
  - by apply (bool_decide_unpack _).
  - apply join_pair_free; [done|done|]. apply (Forall_impl _ _ _ Hp). intros p. apply plain_part_free. set_solver.
  - by apply (bool_decide_unpack _).
Qed.

Lemma row_line_free n ts : row_of n ts -> x0a ∉ row_line ts.
Proof.
  intros (_ & _ & Hts). unfold row_line. rewrite !not_elem_of_app. split; [by apply (bool_decide_unpack _)|].
  split; [|by apply (bool_decide_unpack _)].
  induction Hts as [|t ts Ht _ IH]; cbn [fields_text]; [apply not_elem_of_nil|].
  rewrite !not_elem_of_app. split; [done|]. split; [|done].
  unfold sep_text. destruct (negb _); by apply (bool_decide_unpack _).
Qed.

Lemma plain_columns cs : Forall plain_column cs ->
  Forall (fun p => plain_part p = true) (ct_table <$> cs) /\ Forall (fun p => plain_part p = true) (ct_name <$> cs) /\
  Forall (fun p => plain_part p = true) (ct_type <$> cs) /\ Forall (fun p => plain_part p = true) (ct_length <$> cs) /\
  Forall (fun p => plain_part p = true) (ct_sizes <$> cs).
Proof.
  intros Hp. rewrite !Forall_fmap. repeat split; apply (Forall_impl _ _ _ Hp); unfold plain_column; intros c Hc;
    rewrite !Forall_cons in Hc; simpl; tauto.
Qed.

Lemma sound_lines r : sound r -> Forall (fun l => x0a ∉ l) (reply_lines r).
Proof.
  destruct r as [prepare id total extra cs rows|n more|more|line|m]; cbn [sound reply_lines].
  - intros (_ & Hp & _ & Hid & Ht & Hex & Hrows).
    destruct (plain_columns cs Hp) as (P1 & P2 & P3 & P4 & P5).
    constructor.
    { rewrite !not_elem_of_cons. split; [done|]. split; [by destruct prepare|]. split; [done|].
      apply show_nums_free; [done|done|]. rewrite !Forall_cons. repeat split; try lia. done. }
    do 5 (constructor; [apply plain_meta_line; [by apply (bool_decide_unpack _)|done]|]).
    apply Forall_fmap. apply (Forall_impl _ _ _ Hrows). intros ts. apply row_line_free.
  - intros (_ & _ & H & _). by constructor.
  - intros (_ & H & _). by constructor.
  - intros (_ & H & _). by constructor.
  - intros (H & _). constructor; [|done]. by apply not_elem_of_cons.
Qed.

Lemma error_lines_app ls1 ls2 ms1 ms2 :
  error_lines ls1 ms1 -> error_lines ls2 ms2 -> error_lines (ls1 ++ ls2) (ms1 ++ ms2).
Proof. intros H1 H2. by induction H1; [|apply error_lines_error|apply error_lines_other]. Qed.

Lemma reply_messages r : sound r -> error_lines (reply_lines r) (error_messages r).
Proof.
  assert (forall ls, Forall (fun l => head l <> Some x21) ls -> error_lines ls []) as Hother.
  { induction 1; by constructor. }
  destruct r as [prepare id total extra cs rows|n more|more|line|m]; cbn [sound reply_lines error_messages].
  - intros _. apply Hother. do 6 (constructor; [done|]). by apply Forall_fmap, Forall_true.
  - intros _. apply Hother. by repeat constructor.
  - intros _. apply Hother. by repeat constructor.
  - intros ((b & []) & _). apply Hother. by repeat constructor.
  - intros _. repeat constructor.
Qed.

Lemma ended_lines ls : Forall (fun l => x0a ∉ l) ls -> text_lines (ended ls) (ls ++ [[]]).
Proof.
  unfold ended. induction 1 as [|l ls Hl _ IH]; cbn; [apply last_piece, not_elem_of_nil|].
  rewrite <- app_assoc. by apply more_pieces.
Qed.

(** The errors of a response are those of its error replies. *)
Lemma response_messages rs :
  Forall sound rs ->
  match server_error (response_text rs) with
  | None => rs ≫= error_messages = []
  | Some e => rs ≫= error_messages <> [] /\ reports (rs ≫= error_messages) e
  end.
Proof.
  intros Hrs. apply (server_error_messages _ ((rs ≫= reply_lines) ++ [[]])).
  - apply ended_lines. induction Hrs as [|r rs Hr _ IH]; [constructor|].
    cbn. apply Forall_app. split; [by apply sound_lines|done].
  - rewrite <- (app_nil_r (rs ≫= error_messages)). apply error_lines_app; [|by apply error_lines_other; [|constructor]].
    induction Hrs as [|r rs Hr _ IH]; [constructor|]. cbn. by apply error_lines_app; [apply reply_messages|].
Qed.

(** ** Reading a reply *)

(** What follows the first reply: the rows of a result are skipped together with
    the error lines behind them. *)
Fixpoint skip_errors (rs : list server_reply) : list server_reply :=
  match rs with
  | ErrorReply _ :: rest => skip_errors rest
  | _ => rs
  end.

Definition following (rs : list server_reply) : list server_reply :=
  match rs with
  | [] => []
  | ResultReply _ _ _ _ _ _ :: rest => skip_errors rest
  | _ :: rest => rest
  end.

(** The rows that are left of a result, and what follows them. *)
Definition rows_left (n : nat) (b : ReplyBuf) (rest : list server_reply) : Prop :=
  wf_buf b /\ exists texts, Forall (row_of n) texts /\
    peek b = ended (row_line <$> texts) ++ response_text rest.

(** The parser stands at the first of these replies; of a result some rows may have
    been read, or its first window of rows may have been put aside. *)
Inductive stands_at : ReplyParser -> list server_reply -> Prop :=
| holds_end : stands_at (Exhausted []) []
| holds_success b affected r rest :
    match r with UpdateReply _ _ | SchemaReply _ => True | _ => False end ->
    wf_buf b -> peek b = response_text rest -> stands_at (Success b affected) (r :: rest)
| holds_transaction b line rest :
    wf_buf b -> peek b = response_text rest -> stands_at (Tx b) (TransactionReply line :: rest)
| holds_error b m rest :
    wf_buf b -> peek b = response_text rest -> stands_at (ReplyError b) (ErrorReply m :: rest)
| holds_rows rs prepare id total extra cs rows rest :
    to_close rs = head (kept (ResultReply prepare id total extra cs rows)) ->
    match stashed rs with
    | None => noslice (row_set rs) = false /\ ncols (row_set rs) = length cs /\
        length (fields (row_set rs)) = length cs /\ rows_left (length cs) (rs_buf (row_set rs)) rest
    | Some st => rows_left (length cs) (rs_buf st) rest
    end ->
    stands_at (Data rs) (ResultReply prepare id total extra cs rows :: rest).

Lemma ended_cons l ls rest : ended (l :: ls) ++ rest = l ++ x0a :: ended ls ++ rest.
Proof. unfold ended. cbn. by rewrite <- !app_assoc. Qed.

Lemma result_text prepare id total extra cs rows rest :
  ended (reply_lines (ResultReply prepare id total extra cs rows)) ++ rest =
  (x26 :: result_digit prepare :: x20 ::
     show_nums (id :: total :: Z.of_nat (length cs) :: Z.of_nat (length rows) :: extra)) ++
  x0a :: meta_text cs ++ ended (row_line <$> rows) ++ rest.
Proof.
  cbn [reply_lines]. rewrite !ended_cons. unfold meta_text.
  repeat (rewrite <- app_assoc || rewrite <- app_comm_cons || cbn [app]). done.
Qed.

(** Every reply that is not an error starts with an ampersand. *)
Lemma reply_first r : sound r ->
  exists l ls, reply_lines r = l :: ls /\ head l = Some (match r with ErrorReply _ => x21 | _ => x26 end).
Proof.
  destruct r as [prepare id total extra cs rows|n more|more|line|m]; intros Hr; try by eexists _, _.
  destruct Hr as ((b & []) & _). by eexists _, _.
Qed.

Lemma response_first rs : Forall sound rs ->
  match rs with
  | [] => response_text rs = []
  | r :: _ => exists l, response_text rs = (match r with ErrorReply _ => x21 | _ => x26 end) :: l
  end.
Proof.
  intros [|r rs' Hr _]; [done|]. destruct (reply_first r Hr) as (l & ls & E & Hl).
  rewrite response_cons, E, ended_cons. destruct l as [|c l]; [done|]. injection Hl as ->. by eexists.
Qed.

Lemma split_line b line rest : wf_buf b -> peek b = line ++ x0a :: rest -> x0a ∉ line -> utf8_valid line = true ->
  forall ctx, exists b', split_str x0a ctx b = (Ok line, b') /\ wf_buf b' /\ peek b' = rest.
Proof.
  intros Hwf Hp Hl Hu ctx. unfold split_str, sbind. rewrite (split_found x0a b line rest) by done.
  rewrite <- Nat.add_assoc. unfold slift, from_utf8. rewrite Hu. eexists. split; [done|].
  split; [apply wf_consume; [done|]; rewrite Hp, length_app; simpl; lia|].
  rewrite peek_consume, Hp, <- drop_drop, drop_app_length. done.
Qed.

Lemma trim_plain line : (forall c, head line = Some c -> is_space c = false) ->
  (forall c, last line = Some c -> is_space c = false) -> trim_ascii line = line.
Proof.
  intros Hh Hl. unfold trim_ascii. rewrite trim_start_id by done.
  destruct line as [|c line _] using rev_ind; [done|]. rewrite last_snoc in Hl.
  rewrite (trim_end_keeps is_space line c []) by by apply Hl. done.
Qed.

(** A header line that starts with one number. *)
Lemma parse_count d n more : is_digit d = true -> (0 <= n < 2 ^ 63)%Z ->
  (forall c, head more = Some c -> c = x20) ->
  parse_header_line i64 (x26 :: d :: x20 :: print_dec n ++ more) 1 = Ok [n].
Proof.
  intros Hd Hn Hm. unfold parse_header_line. rewrite Hd.
  assert (exists ps, split_on x20 (print_dec n ++ more) = print_dec n :: ps) as [ps ->].
  { assert (x20 ∉ print_dec n) as Hf by (by apply print_dec_free; [lia|]).
    destruct more as [|c more]; [rewrite app_nil_r, split_on_piece by done; eauto|].
    rewrite (Hm c eq_refl), split_on_app by done. eauto. }
  cbn [parse_items]. rewrite parse_print_dec; [done|lia|].
  apply in_type_spec. change (ty_min i64) with (- 2 ^ 63)%Z. change (ty_max i64) with (2 ^ 63 - 1)%Z. lia.
Qed.

(** *** Skipping rows *)

(** [find_line] on a text. *)
Definition line_at (text : bytes) (first : byte) : option nat :=
  match text with
  | [] => None
  | c :: _ => if decide (c = first) then Some 0 else (fun idx => idx + 1) <$> memmem [x0a; first] text
  end.

Lemma memmem_line first line rest : x0a ∉ line ->
  memmem [x0a; first] (line ++ x0a :: rest) =
    (fun i => length line + i) <$> memmem [x0a; first] (x0a :: rest).
Proof.
  remember (x0a :: rest) as r eqn:E. clear E.
  induction line as [|c line IH]; intros Hl; cbn [app length]; [by destruct (memmem _ _)|].
  apply not_elem_of_cons in Hl as [Hc Hl]. cbn [memmem]. unfold starts_with at 1. cbn [strip_prefix].
  rewrite decide_False by done. rewrite IH by done. by destruct (memmem _ r).
Qed.

(** A line that does not start with the byte is passed over. *)
Lemma line_at_line first line rest :
  first <> x0a -> x0a ∉ line -> head line <> Some first ->
  line_at (line ++ x0a :: rest) first = (fun i => length line + 1 + i) <$> line_at rest first.
Proof.
  intros Hf Hl Hh.
  assert (line_at (line ++ x0a :: rest) first =
    (fun idx => idx + 1) <$> memmem [x0a; first] (line ++ x0a :: rest)) as ->.
  { destruct line as [|c line]; cbn [app line_at]; (rewrite decide_False; [done|]); cbn in Hh; congruence. }
  rewrite memmem_line by done. cbn [memmem]. unfold starts_with. cbn [strip_prefix]. rewrite decide_True by done.
  destruct rest as [|c rest]; cbn [strip_prefix line_at]; [done|].
  destruct (decide (c = first)) as [->|Hc].
  - rewrite decide_True by done. cbn. f_equal. lia.
  - rewrite decide_False by done. destruct (memmem _ (c :: rest)) as [i|]; cbn; f_equal; lia.
Qed.

Lemma line_at_lines first ls rest :
  first <> x0a -> Forall (fun l => x0a ∉ l /\ head l <> Some first) ls ->
  line_at (ended ls ++ rest) first = (fun i => length (ended ls) + i) <$> line_at rest first.
Proof.
  intros Hf Hls. induction Hls as [|l ls [Hl Hh] _ IH]; [change (ended [] ++ rest) with rest; by destruct (line_at rest first)|].
  rewrite ended_cons, line_at_line, IH by done.
  assert (length (ended (l :: ls)) = length l + 1 + length (ended ls)) as ->.
  { unfold ended. cbn. rewrite !length_app. simpl. lia. }
  destruct (line_at rest first); cbn; f_equal; lia.
Qed.

(** The error lines behind the rows go with them. *)
Lemma skipped_errors rs : Forall sound rs ->
  exists ms, response_text rs = ended ((fun m => x21 :: m) <$> ms) ++ response_text (skip_errors rs) /\
    Forall (fun m => x0a ∉ m) ms /\ Forall sound (skip_errors rs) /\
    rs ≫= kept = skip_errors rs ≫= kept /\ length (skip_errors rs) <= length rs /\
    (response_text (skip_errors rs) = [] \/ exists l, response_text (skip_errors rs) = x26 :: l).
Proof.
  induction 1 as [|r rs Hr Hrs (ms & E & Hms & Hs & Hk & Hl & Hf)].
  { exists []. repeat split; try done. by left. }
  assert (forall r', skip_errors (r' :: rs) = r' :: rs -> sound r' -> match r' with ErrorReply _ => False | _ => True end ->
    exists ms, response_text (r' :: rs) = ended ((fun m => x21 :: m) <$> ms) ++ response_text (skip_errors (r' :: rs)) /\
    Forall (fun m => x0a ∉ m) ms /\ Forall sound (skip_errors (r' :: rs)) /\
    (r' :: rs) ≫= kept = skip_errors (r' :: rs) ≫= kept /\ length (skip_errors (r' :: rs)) <= length (r' :: rs) /\
    (response_text (skip_errors (r' :: rs)) = [] \/ exists l, response_text (skip_errors (r' :: rs)) = x26 :: l)) as Hother.
  { intros r' -> Hr' Hne. exists []. repeat split; try done; [by constructor|]. right.
    destruct (response_first (r' :: rs) ltac:(by constructor)) as [l Hl']. exists l. by destruct r'. }
  destruct r as [prepare id total extra cs rows|n more|more|line|m]; try (by apply Hother).
  cbn [skip_errors]. exists (m :: ms). repeat split; try done.
  - rewrite response_cons. cbn [reply_lines fmap list_fmap]. rewrite E, !ended_cons. done.
  - constructor; [apply Hr|done].
  - cbn. lia.
Qed.

(** [finish] on what is left of the rows goes to the next reply behind the errors. *)
Lemma finish_rows n rs rest :
  Forall sound rest -> rows_left n (rs_buf rs) rest ->
  exists b, rowset_finish rs = Ok b /\ wf_buf b /\ peek b = response_text (skip_errors rest).
Proof.
  intros Hrest (Hwf & texts & Htexts & Hp).
  destruct (skipped_errors rest Hrest) as (ms & E & Hms & _ & _ & _ & Hf).
  set (ls := (row_line <$> texts) ++ ((fun m => x21 :: m) <$> ms)).
  set (after := response_text (skip_errors rest)) in *.
  assert (peek (rs_buf rs) = ended ls ++ after) as Hpk.
  { unfold ls. by rewrite Hp, E, ended_app, <- app_assoc. }
  assert (forall first, first <> x0a -> first <> x5b -> first <> x21 ->
    find_line (rs_buf rs) first = (fun i => length (ended ls) + i) <$> line_at after first) as Hfind.
  { intros first H1 H2 H3. rewrite <- (line_at_lines first ls after); [unfold find_line, line_at; by rewrite Hpk|done|].
    apply Forall_app. split; apply Forall_fmap.
    - apply (Forall_impl _ _ _ Htexts). intros ts Hts. split; [by eapply row_line_free|]. cbn. congruence.
    - apply (Forall_impl _ _ _ Hms). intros m Hm. split; [by apply not_elem_of_cons|]. cbn. congruence. }
  unfold rowset_finish. rewrite !Hfind by done.
  assert (match option_min ((fun i => length (ended ls) + i) <$> line_at after x26)
      ((fun i => length (ended ls) + i) <$> line_at after x3d) with
    | Some idx => idx | None => length (peek (rs_buf rs)) end = length (ended ls)) as ->.
  { destruct Hf as [Ha|[l Ha]]; rewrite Ha in *.
    - cbn. by rewrite Hpk, app_nil_r.
    - cbn [line_at]. rewrite decide_True by done. destruct (if decide (_ = _) then _ else _); cbn; lia. }
  rewrite consume_ok; [|done|rewrite Hpk, length_app; lia]. eexists. split; [done|].
  split; [apply wf_consume; [done|]; rewrite Hpk, length_app; lia|].
  by rewrite peek_consume, Hpk, drop_app_length.
Qed.

Section Parsing.
Context `{BstrLines}.

Lemma parse_result prepare id total extra cs rows rest b :
  sound (ResultReply prepare id total extra cs rows) -> Forall sound rest -> wf_buf b ->
  peek b = response_text (ResultReply prepare id total extra cs rows :: rest) ->
  exists p, parse b = Ok p /\ stands_at p (ResultReply prepare id total extra cs rows :: rest).
Proof.
  intros (Hne & Hpl & (cols & Hb) & Hid & Ht & Hex & Hrows) Hrest Hwf Hp.
  rewrite response_cons, result_text in Hp.
  set (text := ended (row_line <$> rows) ++ response_text rest) in *.
  assert (head text <> Some x3d) as Hhead.
  { unfold text. destruct rows as [|ts rows]; [|done]. cbn. pose proof (response_first rest Hrest) as Hf.
    destruct rest as [|r rest']; [by rewrite Hf|]. destruct Hf as [l ->]. by destruct r. }
  destruct (parse_data_reads prepare (result_digit prepare) id total (Z.of_nat (length rows)) extra cs cols text b)
    as (b' & b'' & Hrun & Hw & Hpk); try done; [by destruct prepare|lia|lia|].
  exists (Data (MkResultSet id prepare 0 total (Z.of_nat (length rows)) cols (rowset_new b' (length cols)) None
              (if negb prepare && (Z.of_nat (length rows) <? total)%Z then Some id else None))).
  split.
  - unfold parse. rewrite Hp, decide_False by done. destruct prepare; cbn [result_digit];
      match goal with |- context [starts_with (bs "&1") ?t] =>
        first [change (starts_with (bs "&1") t) with true|change (starts_with (bs "&1") t) with false;
          change (starts_with (bs "&2") t) with false; change (starts_with (bs "&3") t) with false;
          change (starts_with (bs "&4") t) with false; change (starts_with (bs "&5") t) with true] end;
      cbv iota; by rewrite Hrun.
  - pose proof (Forall2_length _ _ _ Hb) as Hlen. constructor; cbn.
    + by destruct prepare, (Z.of_nat (length rows) <? total)%Z.
    + rewrite length_replicate. split; [done|]. split; [done|]. split; [done|]. split; [done|].
      exists rows. done.
Qed.

Lemma parse_reply rs b :
  Forall sound rs -> wf_buf b -> peek b = response_text rs -> exists p, parse b = Ok p /\ stands_at p rs.
Proof.
  intros [|r rest Hr Hrest] Hwf Hp.
  { exists (Exhausted []). split; [|constructor]. unfold parse. by rewrite Hp. }
  destruct r as [prepare id total extra cs rows|n more|more|line|m]; [by apply parse_result|..];
    rewrite response_cons in Hp; cbn [reply_lines] in Hp; rewrite ended_cons in Hp; cbn in Hp; unfold parse; rewrite Hp.
  - destruct Hr as (Hn & Hm & Hl & Hu & Hs).
    destruct (split_line b (bs "&2 " ++ print_dec n ++ more) (response_text rest) Hwf Hp Hl Hu "header line") as (b' & E & Hw & Hpk).
    exists (Success b' (Some n)). split; [|by constructor]. rewrite decide_False by done. cbn -[parse_header].
    unfold parse_successful_update, parse_header. unfold sbind at 1, sbind at 1. rewrite E, trim_plain; [|by intros c [= <-]|done].
    unfold slift.
    change (bs "&2 " ++ print_dec n ++ more) with (x26 :: x32 :: x20 :: print_dec n ++ more).
    by rewrite (parse_count x32 n more).
  - destruct Hr as (Hne & Hl & Hu & Hs).
    destruct (split_line b (bs "&3 " ++ more) (response_text rest) Hwf Hp Hl Hu "header line") as (b' & E & Hw & Hpk).
    exists (Success b' None). split; [|by constructor]. rewrite decide_False by done. cbn -[parse_header].
    unfold parse_successful_other, parse_header. unfold sbind at 1, sbind at 1. by rewrite E, trim_plain; [|by intros c [= <-]|].
  - destruct Hr as ((flag & Hn) & Hl & Hu & Hs).
    destruct (split_line b line (response_text rest) Hwf Hp Hl Hu "header line") as (b' & E & Hw & Hpk).
    exists (Tx b'). split; [|by constructor].
    assert (trim_ascii line = line) as Ht by (apply trim_plain; [destruct Hn; by intros c [= <-]|done]).
    assert (parse_autocommit_status b = (Ok (Tx b'), b')) as Hrun.
    { unfold parse_autocommit_status. unfold sbind at 1. rewrite E, Ht, (proj2 (parse_autocommit_line_iff line flag)) by done. done. }
    destruct Hn as [flag' ws tail Hws]. rewrite decide_False by done. cbn -[parse_autocommit_status]. by rewrite Hrun.
  - destruct Hr as (Hl & Hu).
    destruct (split_line b (x21 :: m) (response_text rest) Hwf Hp) with (ctx := "error header"%string) as (b' & E & Hw & Hpk).
    { by apply not_elem_of_cons. }
    { by rewrite utf8_valid_cons_ascii. }
    exists (ReplyError b'). split; [|by constructor]. rewrite decide_False by done. cbn -[parse_error].
    unfold parse_error. unfold sbind at 1. by rewrite E.
Qed.

(** One step: the result that is left behind is to be closed if the server keeps it. *)
Lemma next_holds p r rest : Forall sound rest -> stands_at p (r :: rest) ->
  exists q, into_next_reply p = Ok (q, head (kept r)) /\ stands_at q (following (r :: rest)) /\
    Forall sound (following (r :: rest)) /\
    (r :: rest) ≫= kept = kept r ++ (following (r :: rest) ≫= kept) /\
    length (following (r :: rest)) <= length rest.
Proof.
  intros Hrest Hh. inversion Hh as [|b aff r' rest' Hr' Hwf Hp|b line rest' Hwf Hp|b m rest' Hwf Hp
    |rs prepare id total extra cs rows rest' Hclose Hrows]; subst.
  - destruct (parse_reply rest b Hrest Hwf Hp) as (q & Eq & Hq). exists q.
    destruct r; try done; unfold into_next_reply; by rewrite Eq.
  - destruct (parse_reply rest b Hrest Hwf Hp) as (q & Eq & Hq). exists q. unfold into_next_reply. by rewrite Eq.
  - destruct (parse_reply rest b Hrest Hwf Hp) as (q & Eq & Hq). exists q. unfold into_next_reply. by rewrite Eq.
  - destruct (skipped_errors rest Hrest) as (ms & _ & _ & Hs & Hk & Hl & _).
    assert (rows_left (length cs) (rs_buf (match stashed rs with Some s => s | None => row_set rs end)) rest) as Hleft
      by (destruct (stashed rs); tauto).
    destruct (finish_rows _ _ rest Hrest Hleft) as (b & Ef & Hwf & Hp).
    destruct (parse_reply _ b Hs Hwf Hp) as (q & Eq & Hq). exists q. unfold into_next_reply.
    rewrite Ef. cbn [res_bind]. rewrite Eq. cbn [res_bind following]. rewrite Hclose. split_and!; try done.
    cbn [mbind list_bind]. by rewrite <- Hk.
Qed.

(** Stepping through the replies gives exactly the results that the server keeps. *)
Lemma exhaust_holds fuel p left : Forall sound left -> stands_at p left -> length left <= fuel ->
  exhaust fuel p = Ok (left ≫= kept, Exhausted []).
Proof.
  revert p left. induction fuel as [|fuel IH]; intros p left Hs Hh Hf.
  { destruct left as [|]; [|simpl in Hf; lia]. by inversion Hh. }
  destruct left as [|r rest]; [by inversion Hh|]. apply Forall_cons in Hs as [Hr Hrest].
  destruct (next_holds p r rest Hrest Hh) as (q & En & Hq & Hsq & Hk & Hl).
  specialize (IH q _ Hsq Hq ltac:(simpl in Hf; lia)).
  assert (exhaust (S fuel) p = (let? (q, close) := into_next_reply p in
    let? (closes, final) := exhaust fuel q in
    Ok (match close with Some id => id :: closes | None => closes end, final))) as -> by by inversion Hh.
  rewrite En. cbn [res_bind]. rewrite IH. cbn [res_bind]. rewrite Hk.
  destruct r as [[] id total extra cs rows|n more|more|line|m]; try done.
  cbn [kept]. by destruct (Z.of_nat (length rows) <? total)%Z.
Qed.

(** ** Reading a response

    What becomes of the parser while a cursor reads the response: rows are read, the
    first window of rows is put aside for others, replies are stepped over; that a
    cursor does nothing else is [next_row_reads] and [next_reply_reads].
    [left] are the replies from the current one on. *)
Inductive reading (replies : list server_reply) : ReplyParser -> list server_reply -> Prop :=
| reading_start p : parser_new (response_text replies) = Ok p -> reading replies p replies
| reading_row rs left rows found next :
    reading replies (Data rs) left -> advance (row_set rs) = (Ok found, rows) ->
    reading replies (Data (with_next_row next (with_row_set rows rs))) left
| reading_window rs left rows :
    reading replies (Data rs) left ->
    reading replies (Data (with_row_set rows (with_stashed (Some (default (row_set rs) (stashed rs))) rs))) left
| reading_next p left q close :
    reading replies p left -> into_next_reply p = Ok (q, close) -> reading replies q (following left).

Lemma advance_left n rs rest found rows :
  Forall sound rest -> noslice rs = false -> ncols rs = n -> length (fields rs) = n -> rows_left n (rs_buf rs) rest ->
  advance rs = (Ok found, rows) ->
  noslice rows = false /\ ncols rows = n /\ length (fields rows) = n /\ rows_left n (rs_buf rows) rest.
Proof.
  intros Hrest Hns Hn Hf (Hwf & texts & Htexts & Hp) Ha.
  destruct Htexts as [|ts texts (Hlen & [vs Hvs] & Hfree) Htexts].
  - rewrite advance_end in Ha.
    + injection Ha as _ <-. cbn. rewrite length_replicate. repeat split; try done; try apply Hwf. by exists [].
    + done.
    + rewrite Hp. cbn. pose proof (response_first rest Hrest) as Hr.
      destruct rest as [|r rest']; [by rewrite Hr|]. destruct Hr as [l ->]. by destruct r.
  - destruct (advance_row_ok rs vs ts (ended (row_line <$> texts) ++ response_text rest))
      as (rs' & E & Hp' & Hwf' & Hn' & Hf' & Hns' & _); try done; try congruence.
    { rewrite Hp. cbn [fmap list_fmap]. rewrite ended_cons. unfold row_line at 1, row_text.
      by rewrite <- !app_assoc. }
    rewrite Ha in E. injection E as -> <-. split; [done|]. split; [congruence|]. split; [congruence|].
    split; [done|]. by exists texts.
Qed.

Lemma reading_holds replies p left :
  Forall sound replies -> (Z.of_nat (length (response_text replies)) < 2 ^ 63)%Z ->
  reading replies p left -> stands_at p left /\ Forall sound left.
Proof.
  intros Hs Hlen. induction 1 as [p Hp|rs left rows found next _ [IH Hsl] Ha|rs left rows _ [IH Hsl]|p left q close _ [IH Hsl] Hn].
  - destruct (parse_reply replies (buf_new (response_text replies)) Hs) as (p' & E & Hh);
      [by apply wf_buf_new|done|]. unfold parser_new in Hp. rewrite E in Hp. by injection Hp as <-.
  - split; [|done]. inversion IH as [| | | |? prepare id total extra cs rows' rest Hc Hr]; subst.
    apply Forall_cons in Hsl as [_ Hrest]. constructor; [done|]. cbn. destruct (stashed rs); [done|].
    destruct Hr as (H1 & H2 & H3 & H4). by eapply advance_left.
  - split; [|done]. inversion IH as [| | | |? prepare id total extra cs rows' rest Hc Hr]; subst.
    constructor; [done|]. cbn. destruct (stashed rs); cbn; [done|tauto].
  - destruct left as [|r rest].
    + inversion IH; subst. cbn in Hn. injection Hn as <- _. done.
    + apply Forall_cons in Hsl as [_ Hrest]. destruct (next_holds p r rest Hrest IH) as (q' & E & Hq & Hsq & _).
      rewrite E in Hn. by injection Hn as <- _.
Qed.

(** The results that are closed when a response is discarded. *)
Lemma reading_exhausted replies p left fuel :
  Forall sound replies -> (Z.of_nat (length (response_text replies)) < 2 ^ 63)%Z ->
  reading replies p left -> length left <= fuel ->
  exhaust fuel p = Ok (left ≫= kept, Exhausted []) /\ (forall vec, p = Exhausted vec -> vec = []).
Proof.
  intros Hs Hlen Hr Hf. destruct (reading_holds replies p left Hs Hlen Hr) as [Hh Hsl].
  split; [by apply exhaust_holds|]. intros vec ->. by inversion Hh.
Qed.

(** The parser of a whole response. *)
Lemma response_parsed replies :
  Forall sound replies -> (Z.of_nat (length (response_text replies)) < 2 ^ 63)%Z ->
  exists p, parser_new (response_text replies) = Ok p /\ reading replies p replies.
Proof.
  intros Hs Hlen. destruct (parse_reply replies (buf_new (response_text replies)) Hs) as (p & E & _);
    [by apply wf_buf_new|done|]. exists p. split; [done|]. by constructor.
Qed.

End Parsing.

(** ** Cursors

    Whatever a cursor does with success after a response has been installed, it is
    reading that response. *)
Section Cursors.
Context {S : Type} `{!Read S} `{!Write S} `{BstrLines}.
Context (others : nat -> list action) (clock : nat -> Z) (fits : Z -> bool).
Context (begin_operation : Timeouts -> Z -> S -> option S).
Context (fuel : nat) (sizes : nat -> nat) (settings : Settings) (replies : list server_reply).

Notation ccomp := (comp (Cursor * World S) CursorError).

Definition within (st : Cursor * World S) : Prop := exists left, reading replies (cur_replies st.1) left.

Definition reads {A} (m : ccomp A) : Prop :=
  triple within m (fun _ => within) (fun _ _ => True) (fun _ => True).

Lemma reads_bind {A B} (m : ccomp A) (k : A -> ccomp B) : reads m -> (forall a, reads (k a)) -> reads (sbind m k).
Proof. intros Hm Hk. exact (triple_bind _ _ _ _ _ _ _ Hm Hk). Qed.

(** The replies of the cursor are as they were. *)
Definition replies_kept {A} (m : ccomp A) : Prop :=
  forall st, cur_replies (m st).2.1 = cur_replies st.1.

Lemma reads_kept {A} (m : ccomp A) : replies_kept m -> reads m.
Proof. intros Hk st Hst. specialize (Hk st). unfold within in *. destruct (m st) as [[a|e| |] st']; try done. cbn in Hk. by rewrite Hk. Qed.

Lemma reads_result_set {A} (m : ResultSet -> res CursorError A * ResultSet) :
  (forall rs left a, reading replies (Data rs) left -> (m rs).1 = Ok a -> reading replies (Data (m rs).2) left) ->
  reads (result_set_mut m).
Proof.
  intros Hm [cur w] [left Hr]. unfold result_set_mut. cbn in Hr.
  destruct (cur_replies cur) as [| | | |rs]; try done. specialize (Hm rs left).
  destruct (m rs) as [[a|e| |] rs']; try done. exists left. by apply (Hm a).
Qed.

Lemma next_reply_reads : reads (next_reply others).
Proof.
  intros [cur w] [left Hr]. unfold next_reply, take_replies, on_cursor. unfold sbind at 1. cbn.
  unfold sbind, slift. destruct (into_next_reply (cur_replies cur)) as [[q close]|e| |] eqn:E; cbn; try done.
  assert (reading replies q (following left)) as Hq by by eapply reading_next.
  by destruct close; cbn; exists (following left).
Qed.

Lemma skip_reads n : reads (skip_loop (S:=S) others n).
Proof.
  induction n as [|n IH]; intros [cur w] Hw; unfold skip_loop; fold (skip_loop (S:=S) others); unfold sbind at 1, sget;
    destruct (cur_replies cur) eqn:E; try done;
    exact (reads_bind _ _ next_reply_reads (fun _ => IH) (cur, w) Hw).
Qed.

Lemma advance_row_reads : reads advance_row.
Proof.
  apply reads_result_set. intros rs left a Hr. destruct (advance (row_set rs)) as [[found|e| |] rows] eqn:E; try done.
  pose proof (fun next => reading_row replies rs left rows found next Hr E) as Hrow.
  cbv beta iota zeta. destruct found; [destruct (count_row _ _) as [next|e| |]; try done|]; intros _; cbn.
  - by apply Hrow.
  - replace (with_row_set rows rs) with (with_next_row (next_row rs) (with_row_set rows rs)) by by destruct rs.
    by apply Hrow.
Qed.

(** Some result has its first window put aside. *)
Definition aside (st : Cursor * World S) : Prop :=
  exists rs left, cur_replies st.1 = Data rs /\ reading replies (Data rs) left /\ stashed rs <> None.

Lemma put_aside_reads n : triple within (put_aside n) (fun _ => aside) (fun _ _ => True) (fun _ => True).
Proof.
  intros [cur w] [left Hr]. unfold put_aside, result_set_mut. cbn in Hr.
  destruct (cur_replies cur) as [| | | |rs]; try done.
  pose proof (reading_window replies rs left (rowset_new (buf_new []) n) Hr) as Hw.
  destruct rs as [id prep next total inc cols rows [st|] close]; cbn; [destruct (rowset_finish rows) as [[]|?| |]; try done|];
    by eexists _, left.
Qed.

Lemma new_rows_reads rows :
  triple aside (result_set_mut (fun rs => (Ok tt, with_row_set rows rs))) (fun _ => within) (fun _ _ => True) (fun _ => True).
Proof.
  intros [cur w] (rs & left & E & Hr & Hs). unfold result_set_mut. cbn in E. rewrite E. exists left.
  pose proof (reading_window replies rs left rows Hr) as Hw.
  destruct rs as [id prep next total inc cols old [st|] close]; [exact Hw|done].
Qed.

Lemma kept_aside {A} (m : ccomp A) : replies_kept m -> triple aside m (fun _ => aside) (fun _ _ => True) (fun _ => True).
Proof.
  intros Hk st Hst. specialize (Hk st). unfold aside in *. destruct (m st) as [[a|e| |] st']; try done. cbn in Hk. by rewrite Hk.
Qed.

Lemma command_raw_kept command :
  replies_kept (command_raw others clock fits begin_operation fuel sizes settings command).
Proof.
  intros [cur w]. unfold command_raw. unfold sbind at 1. unfold run_locked.
  destruct (run_locked_with_timeouts _ _ _ _ _ _ w) as [[[vec delayed]|e| |] w']; try done. by destruct delayed.
Qed.

Lemma fetch_more_rows_reads :
  reads (fetch_more_rows others clock fits begin_operation fuel sizes settings).
Proof.
  unfold fetch_more_rows.
  apply reads_bind; [apply reads_kept; by intros [cur w]|]. intros [[[[id start] n] size] columns].
  eapply triple_bind; [apply put_aside_reads|]. intros [].
  eapply triple_bind; [apply kept_aside, command_raw_kept|]. intros vec.
  eapply triple_bind; [by apply kept_aside|]. intros rows.
  eapply triple_bind; [apply new_rows_reads|]. intros []. apply reads_kept. by intros [cur w].
Qed.

(** A cursor that reads rows is reading its response, from some reply on. *)
Lemma next_row_reads : reads (cursor_next_row others clock fits begin_operation fuel sizes settings).
Proof.
  unfold cursor_next_row. apply reads_bind; [apply skip_reads|]. intros _.
  generalize fuel at 2 as n. intros n.
  induction n as [|n IH]; [by intros st|]. cbn [next_row_loop].
  apply reads_bind; [apply advance_row_reads|]. intros []; [by intros st|].
  apply reads_bind; [apply reads_kept; by intros [cur w]|]. intros rs.
  destruct (_ <=? _)%Z; [by intros st|]. apply reads_bind; [apply fetch_more_rows_reads|]. by intros _.
Qed.

End Cursors.
