(* ===== verification/Fetch.v ===== *)
(** * Reading a result set window by window

    [next_row] hands out the rows that came with the reply and then asks the
    server for further windows.  The theorems say how large these windows are,
    and that a program that calls [next_row] until it returns false gets every
    row of the result exactly once, in order and with its values. *)

From Stdlib Require Import ZArith Lia.
From stdpp Require Import sets.
From S2P Require Import Prelude Bytes Blockstate IO Writing Reading Roundtrip Decimal Errors.
From S2P Require Import MonetTypes ReplyBuf RowSet Replies ReplyProgress Convert Delayed Validate.
From S2P Require Import ServerSock Login Upload Conn ConnInvariant Sharing Cursor Exchange.

Open Scope Z_scope.

#[local] Notation message := Blockstate.message.

(** ** Window sizes *)

(** The sizes that occur: at least one row, and a prefetch limit that is not negative. *)
Definition size_ok (size : Z) (max : option Z) : Prop :=
  1 <= size <= ty_max usize /\ forall limit, max = Some limit -> 0 <= limit <= ty_max usize.

Lemma next_window_size_ok size max : size_ok size max -> size_ok (next_window_size size max) max.
Proof.
  intros [Hs Hm]. split; [|done]. unfold next_window_size, saturate.
  destruct max as [limit|]; [|lia]. specialize (Hm limit eq_refl). lia.
Qed.

Lemma next_fetch_size_range size max remaining :
  size_ok size max -> 1 <= remaining -> 1 <= next_fetch_size size max remaining <= remaining.
Proof.
  intros [Hs _]%next_window_size_ok Hr. unfold next_fetch_size. lia.
Qed.

(** ** What the server sends *)

(** The reply to a request for [n] rows from [start] on. *)
Definition window_text (id : Z) (cols : nat) (n start : Z) (texts : list (list bytes)) : bytes :=
  (bs "&6 " ++ show_nums [id; Z.of_nat cols; n; start]) ++ x0a :: concat (row_text <$> texts).

Notation row := (list (option bytes)).

(** [row_texts rows texts]: the server writes these rows as these texts. *)
Definition row_texts (cols : nat) (rows : list row) (texts : list (list bytes)) : Prop :=
  Forall2 (fun r ts => Forall2 field_text r ts /\ length ts = cols) rows texts.

Section Served.
Context (others : nat -> list action) (id : Z) (cols limit : nat) (max : option Z).

(** [served a size start rows wire requests]: asked for the rows from [start] on, with
    window size [size], by the messages [requests], among them the clean-up work of
    other threads by the agenda [a], the server sends [wire]. *)
Inductive served : agenda -> Z -> Z -> list row -> bytes -> list bytes -> Prop :=
| served_all a size start : served a size start [] [] []
| served_window a size start n rows texts later ws replies w wire requests :
    n = next_fetch_size size max (Z.of_nat (length (rows ++ later))) ->
    Z.of_nat (length rows) = n -> rows <> [] -> row_texts cols rows texts ->
    replied ws replies -> length replies = length (agenda_lines others a) ->
    Forall (fun p => (length p <= limit)%nat) replies ->
    message w (window_text id cols n start texts) ->
    (length (window_text id cols n start texts) <= limit)%nat ->
    server_error (window_text id cols n start texts) = None ->
    served (agenda_next others a) (next_window_size size max) (start + n) later wire requests ->
    served a size start (rows ++ later) ((ws ++ w) ++ wire)
      (agenda_lines others a ++ export_command id start n :: requests).

End Served.

Lemma parse_export_ok id cols n start texts rows :
  Forall (fun m => 0 <= m < 2 ^ 64) [id; Z.of_nat cols; n; start] -> 1 <= n ->
  rows <> [] -> row_texts cols rows texts ->
  Z.of_nat (length (window_text id cols n start texts)) < 2 ^ 63 ->
  server_error (window_text id cols n start texts) = None ->
  exists b, parse_export (window_text id cols n start texts) id start n cols = Ok (rowset_new b cols) /\
    wf_buf b /\ peek b = concat (row_text <$> texts).
Proof.
  intros Hnums Hn Hne Ht Hlen Hok. set (vec := window_text id cols n start texts) in *.
  destruct (parse_export_header_reads u64 [id; Z.of_nat cols; n; start] (buf_new vec)
    (concat (row_text <$> texts))) as (b & Hp & Hw & Hb); [done| |by apply wf_buf_new|done|].
  { apply (Forall_impl _ _ _ Hnums). intros m Hm. split; [lia|]. by apply in_u64. }
  exists b. split; [|done]. unfold parse_export, detect_errors. rewrite Hok. cbn [res_bind length] in *.
  rewrite Hp. cbn [res_bind validate_export_header]. rewrite !Z.eqb_refl. cbn [negb res_bind].
  unfold validate_fetch_progress, has_pending_row. cbn [rs_buf rowset_new]. rewrite Hb.
  destruct Ht as [|r ts rows' texts' _ _]; [done|]. cbn. by rewrite andb_false_r.
Qed.

(** ** The cursor in a window *)

(** All fields of the current row. *)
Fixpoint read_fields (rows : RowSet) (i n : nat) : res CursorError row :=
  match n with
  | O => Ok []
  | S n' =>
      let? v := res_map_err BadReplyErr (get_field_raw rows i) in
      let? vs := read_fields rows (S i) n' in
      Ok (v :: vs)
  end.

Definition current_row (cols : nat) (cur : Cursor) : res CursorError row :=
  let? rows := cursor_row_set cur in read_fields rows 0 cols.

Lemma read_fields_ok rows (r : row) :
  (forall i v, r !! i = Some v -> get_field_raw rows i = Ok v) ->
  read_fields rows 0 (length r) = Ok r.
Proof.
  intros Hr. enough (forall r2 r1, r = r1 ++ r2 -> read_fields rows (length r1) (length r2) = Ok r2) as H
    by by apply (H r []).
  induction r2 as [|v r2 IH]; intros r1 ->; [done|]. cbn [length read_fields].
  rewrite (Hr (length r1) v) by (by rewrite lookup_app_r, Nat.sub_diag by done). cbn [res_map_err res_bind].
  specialize (IH (r1 ++ [v])). rewrite <- app_assoc, length_app, Nat.add_1_r in IH.
  by rewrite IH.
Qed.

(** What follows the rows of the response, with what is to be closed; [None] when
    that does not matter. *)
Notation source := (option (bytes * option Z)).

(** [tail] follows the rows of the current window, which is that of the response
    until it is put aside. *)
Definition source_is (src : source) (rs : ResultSet) (tail : bytes) : Prop :=
  match src with
  | None => True
  | Some (after, close) =>
      to_close rs = close /\
      match stashed rs with
      | None => tail = after
      | Some st => wf_buf (rs_buf st) /\ peek (rs_buf st) = after
      end
  end.

(** The rows of the window that are still to come are [window]; [later] are those
    that the server has. *)
Record in_window (id : Z) (cols : nat) (src : source) (rs : ResultSet) (window later : list row) : Prop := {
  iw_id : result_id rs = id;
  iw_cols : length (columns rs) = cols;
  iw_noslice : noslice (row_set rs) = false;
  iw_ncols : ncols (row_set rs) = cols;
  iw_fields : length (fields (row_set rs)) = cols;
  iw_wf : wf_buf (rs_buf (row_set rs));
  iw_text : exists texts tail, row_texts cols window texts /\
    peek (rs_buf (row_set rs)) = concat (row_text <$> texts) ++ tail /\
    starts_with (bs "[") tail = false /\ source_is src rs tail;
  iw_next : 0 <= next_row rs;
  iw_total : total_rows rs = next_row rs + Z.of_nat (length (window ++ later));
  iw_max : total_rows rs < 2 ^ 64
}.

Section Window.
Context {S : Type} (id : Z) (cols : nat) (src : source).
Implicit Types (cur : Cursor) (w : World S).

Lemma advance_row_next cur w rs r window later :
  cur_replies cur = Data rs -> in_window id cols src rs (r :: window) later ->
  exists rs', advance_row (cur, w) = (Ok true, (with_replies (Data rs') cur, w)) /\
    in_window id cols src rs' window later /\ next_row rs' = next_row rs + 1 /\
    current_row cols (with_replies (Data rs') cur) = Ok r.
Proof.
  intros Hcur [Hid Hc Hns Hnc Hf Hw (texts & tail & Ht & Hp & Htail & Hsrc) Hn Htot Hmax].
  apply Forall2_cons_inv_l in Ht as (ts & texts' & [Hr Hlen] & Ht & ->). cbn in Hp.
  rewrite <- app_assoc in Hp.
  destruct (advance_row_ok (row_set rs) r ts (concat (row_text <$> texts') ++ tail))
    as (rows & Ha & Hp' & Hw' & Hnc' & Hf' & Hns' & Hv); [done|done|congruence|congruence|done|done|].
  set (rs' := with_next_row (next_row rs + 1) (with_row_set rows rs)).
  exists rs'. cbn [length app] in Htot.
  split.
  { unfold advance_row, result_set_mut. rewrite Hcur, Ha. unfold count_row, with_row_set.
    cbn [next_row total_rows]. rewrite (proj2 (Z.leb_gt _ _)) by lia. done. }
  split.
  { split; cbn; try done; [congruence..| |lia|lia]. by exists texts', tail. }
  split; [done|]. unfold current_row, cursor_row_set. cbn.
  rewrite <- Hlen, <- (Forall2_length _ _ _ Hr). by apply read_fields_ok.
Qed.

Lemma advance_row_end cur w rs later :
  cur_replies cur = Data rs -> in_window id cols src rs [] later ->
  exists rs', advance_row (cur, w) = (Ok false, (with_replies (Data rs') cur, w)) /\
    in_window id cols src rs' [] later /\ next_row rs' = next_row rs.
Proof.
  intros Hcur [Hid Hc Hns Hnc Hf Hw (texts & tail & Ht & Hp & Htail & Hsrc) Hn Htot Hmax].
  apply Forall2_nil_inv_l in Ht as ->. cbn in Hp.
  eexists. split.
  { unfold advance_row, result_set_mut. rewrite Hcur, advance_end by congruence. done. }
  split; [|done]. split; cbn; rewrite ?length_replicate; try done.
  exists [], tail. split_and!; [constructor|done..].
Qed.

(** The window of further rows, once it has been received. *)
Lemma new_window rs b texts window later :
  in_window id cols src rs [] (window ++ later) ->
  row_texts cols window texts -> wf_buf b -> peek b = concat (row_text <$> texts) ->
  is_Some (stashed rs) ->
  in_window id cols src (with_row_set (rowset_new b cols) rs) window later.
Proof.
  intros [Hid Hc Hns Hnc Hf Hw (texts' & tail & _ & _ & _ & Hsrc) Hn Htot Hmax] Ht Hb Hp [st Hst].
  split; cbn; rewrite ?length_replicate; try done. exists texts, []. rewrite app_nil_r. split_and!; try done.
  unfold source_is in *. cbn [to_close stashed with_row_set]. by rewrite Hst in *.
Qed.

(** Putting the previous window aside succeeds and keeps what is known. *)
Lemma put_aside_ok cur w rs later :
  cur_replies cur = Data rs -> in_window id cols src rs [] later ->
  exists rs', put_aside cols (cur, w) = (Ok tt, (with_replies (Data rs') cur, w)) /\
    in_window id cols src rs' [] later /\ next_row rs' = next_row rs /\ is_Some (stashed rs').
Proof.
  intros Hcur Hin. pose proof Hin as [Hid Hc Hns Hnc Hf Hw _ Hn Htot Hmax].
  assert (wf_buf (buf_new [])) as Hnil by by apply wf_buf_new.
  assert (row_texts cols [] []) as Hrt by constructor.
  unfold put_aside, result_set_mut. rewrite Hcur. cbn [stashed with_row_set].
  destruct (stashed rs) as [first|] eqn:Est.
  - destruct (finish_spec (row_set rs) Hw) as (b & -> & _). eexists. split; [done|].
    split; [|split; [done|cbn; by rewrite Est]]. by eapply new_window.
  - eexists. split; [done|]. split; [|by split].
    destruct (iw_text _ _ _ _ _ _ Hin) as (texts & tail & Ht & Hp & _ & Hsrc).
    apply Forall2_nil_inv_l in Ht as ->. cbn in Hp.
    split; cbn; rewrite ?length_replicate; try done. exists [], []. split_and!; try done.
    unfold source_is in *. destruct src as [[after close]|]; [|done]. rewrite Est in Hsrc. cbn.
    destruct Hsrc as [Hcl ->]. by split_and!.
Qed.

End Window.

(** ** The cursor and the server *)

Section Fetch.
Context {S : Type} `{DuplexLaws S} `{BstrLines} (sizes : nat -> nat) (Hsizes : forall i, (0 < sizes i)%nat).
Context (others : nat -> list action) (clock : nat -> Z) (begin_operation : Timeouts -> Z -> S -> option S).
Context (fuel : nat) (settings : Settings).
Notation limit := (c_max_response_size settings).
Notation always := (fun _ : Z => true).
Notation state_of w := (l_state (locked (conn w))).
Notation next_row := (cursor_next_row others clock always begin_operation fuel sizes settings).
Notation next_row_loop := (next_row_loop others clock always begin_operation fuel sizes settings).
Notation fetch_more_rows := (fetch_more_rows others clock always begin_operation fuel sizes settings).

Context (Hlimit : Z.of_nat limit < 2 ^ 63).
Context (id : Z) (cols : nat) (Hid : 0 <= id < 2 ^ 64) (Hcols : Z.of_nat cols < 2 ^ 64).
Context (src : source).

Notation handed w := (cleanup_lines others w).

(** Enough for the loops and the transfers. *)
Definition enough (s : S) (requests : list bytes) : Prop :=
  (3 <= fuel)%nat /\ (effort s < fuel)%nat /\ (wpatience s + wire_bound requests < fuel)%nat.

Lemma enough_mono s s' out rest requests :
  exchanged s s' out rest -> enough s requests -> enough s' requests.
Proof. intros [? ? ? ? Hw He] (Hf & Hs & Hr). split; [done|]. lia. Qed.

Lemma enough_app s qs requests :
  enough s (qs ++ requests) ->
  (wpatience s + wire_bound qs < fuel)%nat /\ enough s requests.
Proof. unfold enough. rewrite wire_bound_app. lia. Qed.

Lemma fetch_ok cur w s rs window later ws replies wr wire requests rest texts n size max :
  undisturbed others clock begin_operation (cur_timeouts cur) ->
  cur_replies cur = Data rs -> cur_reply_size cur = size -> cur_max_prefetch cur = max ->
  size_ok size max -> in_window id cols src rs [] (window ++ later) ->
  n = next_fetch_size size max (Z.of_nat (length (window ++ later))) ->
  Z.of_nat (length window) = n -> window <> [] -> row_texts cols window texts ->
  replied ws replies -> length replies = length (handed w) ->
  Forall (fun p => (length p <= limit)%nat) replies ->
  let text := window_text id cols n (Replies.next_row rs) texts in
  message wr text -> (length text <= limit)%nat -> server_error text = None ->
  serving w s 0 [] -> pending s = ((ws ++ wr) ++ wire) ++ rest ->
  enough s (handed w ++ export_command id (Replies.next_row rs) n :: requests) ->
  exists cur' rs' w' s' out,
    fetch_more_rows (cur, w) = (Ok tt, (cur', w')) /\
    cur_timeouts cur' = cur_timeouts cur /\
    cur_replies cur' = Data rs' /\ cur_reply_size cur' = next_window_size size max /\
    cur_max_prefetch cur' = max /\ in_window id cols src rs' window later /\
    Replies.next_row rs' = Replies.next_row rs /\
    serving w' s' 0 [] /\ left_pending others w w' /\ state_of w' = state_of w /\
    messages out (handed w ++ [export_command id (Replies.next_row rs) n]) /\
    exchanged s s' out (wire ++ rest).
Proof.
  intros Htame Hcur Hsz Hmx Hok Hin Hn Hlen Hne Ht Hrep Hnum Hlim text Hm Hll Herr Hc Hp Hen.
  pose proof Hin as [Hrid Hrc _ _ _ _ _ Hnx Htot Hmax]. cbn [app] in Htot.
  assert (1 <= Z.of_nat (length (window ++ later))) as Hrem.
  { destruct window; [done|]. simpl. lia. }
  pose proof (next_fetch_size_range size max _ Hok Hrem) as Hrange. rewrite <- Hn in Hrange.
  destruct (put_aside_ok id cols src cur w rs _ Hcur Hin) as (rs1 & Ea & Hin1 & Hn1 & Hst1).
  set (cur1 := with_replies (Data rs1) cur) in *.
  destruct (command_raw_shared sizes Hsizes others clock begin_operation fuel settings cur1 w s 0 []
    [export_command id (Replies.next_row rs) n] Htame Hc) as (out & Hms & Hb & Hrun).
  rewrite (cons_middle _ (handed w) requests), app_assoc in Hen.
  apply enough_app in Hen as [Hbound (Hf3 & Heff & _)].
  cbn [concat app] in Hb, Hms, Hrun. rewrite app_nil_r in Hb, Hms.
  destruct (Hrun ws replies wr text (wire ++ rest)) as (w' & s' & E & Hc' & Hleft & Hstate & X);
    [done|done|by constructor|done|by rewrite Hp, <- !app_assoc|done|lia|].
  destruct (parse_export_ok id cols n (Replies.next_row rs) texts window) as (b & Epar & Hwb & Hpb); [|lia|done|done|fold text; lia|done|].
  { repeat constructor; lia. }
  set (rs2 := with_row_set (rowset_new b cols) rs1).
  exists (set_reply_size (next_window_size size max) (with_replies (Data rs2) cur1)), rs2, w', s', out.
  split.
  { unfold fetch_more_rows, view. unfold sbind at 1.
    replace (decide_next_fetch cur) with (@Ok CursorError _
      (id, Replies.next_row rs, n, next_window_size size max, cols)).
    2: { unfold decide_next_fetch, result_set. rewrite Hcur. cbn [res_bind].
      rewrite (proj2 (Z.ltb_ge _ _)) by lia. rewrite Hsz, Hmx, Hrid, Hrc, Hn. repeat f_equal. lia. }
    cbv beta iota. unfold sbind at 1. rewrite Ea. fold cur1. unfold sbind at 1. rewrite E.
    pose proof Hc as (_ & [_ Hnotes] & _). unfold command_result.
    destruct (responses (l_delayed (locked (conn w)))); [|done]. cbn [first_failure].
    unfold sbind at 1, slift; fold text in Epar; rewrite Epar; done. }
  split; [done|]. split; [done|]. split; [done|]. split; [done|].
  split; [by eapply new_window|]. done.
Qed.

Lemma skip_at_data cur w rs :
  cur_replies cur = Data rs ->
  skip_to_result_set others fuel (cur, w : World S) = (Ok tt, (cur, w)).
Proof.
  intros Hc. unfold skip_to_result_set. destruct fuel; unfold skip_loop, sbind, sget; by rewrite Hc.
Qed.

(** One call in the middle of a window. *)
Lemma next_row_in cur w rs r window later :
  (1 <= fuel)%nat -> cur_replies cur = Data rs -> in_window id cols src rs (r :: window) later ->
  exists rs', next_row (cur, w) = (Ok true, (with_replies (Data rs') cur, w)) /\
    in_window id cols src rs' window later /\ Replies.next_row rs' = Replies.next_row rs + 1 /\
    current_row cols (with_replies (Data rs') cur) = Ok r.
Proof.
  intros Hf Hc Hin. destruct (advance_row_next id cols src cur w rs r window later Hc Hin)
    as (rs' & Ea & Hin' & Hn & Hv). exists rs'. split; [|done].
  unfold next_row, sbind at 1. rewrite (skip_at_data cur w rs Hc).
  destruct fuel as [|f]; [lia|]. cbn [Cursor.next_row_loop]. unfold sbind at 1. by rewrite Ea.
Qed.

(** The call after the last row. *)
Lemma next_row_end cur w rs :
  (1 <= fuel)%nat -> cur_replies cur = Data rs -> in_window id cols src rs [] [] ->
  exists rs', next_row (cur, w) = (Ok false, (with_replies (Data rs') cur, w)) /\
    in_window id cols src rs' [] [].
Proof.
  intros Hf Hc Hin. destruct (advance_row_end id cols src cur w rs [] Hc Hin) as (rs' & Ea & Hin' & Hn).
  exists rs'. split; [|done]. unfold next_row, sbind at 1. rewrite (skip_at_data cur w rs Hc).
  destruct fuel as [|f]; [lia|]. cbn [Cursor.next_row_loop]. unfold sbind at 1. rewrite Ea.
  unfold sbind at 1, view, result_set. cbn [with_replies cur_replies].
  pose proof (iw_total _ _ _ _ _ _ Hin') as Ht. cbn in Ht. rewrite (proj2 (Z.leb_le _ _)) by lia. done.
Qed.

(** A call at the end of a window, when the server has more rows. *)
Lemma next_row_fetches cur w s rs r window later ws replies wr wire requests rest texts n size max :
  undisturbed others clock begin_operation (cur_timeouts cur) ->
  cur_replies cur = Data rs -> cur_reply_size cur = size -> cur_max_prefetch cur = max ->
  size_ok size max -> in_window id cols src rs [] ((r :: window) ++ later) ->
  n = next_fetch_size size max (Z.of_nat (length ((r :: window) ++ later))) ->
  Z.of_nat (length (r :: window)) = n -> row_texts cols (r :: window) texts ->
  replied ws replies -> length replies = length (handed w) ->
  Forall (fun p => (length p <= limit)%nat) replies ->
  let text := window_text id cols n (Replies.next_row rs) texts in
  message wr text -> (length text <= limit)%nat -> server_error text = None ->
  serving w s 0 [] -> pending s = ((ws ++ wr) ++ wire) ++ rest ->
  enough s (handed w ++ export_command id (Replies.next_row rs) n :: requests) ->
  exists cur' rs' w' s' out,
    next_row (cur, w) = (Ok true, (cur', w')) /\
    cur_timeouts cur' = cur_timeouts cur /\
    cur_replies cur' = Data rs' /\ cur_reply_size cur' = next_window_size size max /\
    cur_max_prefetch cur' = max /\ in_window id cols src rs' window later /\
    Replies.next_row rs' = Replies.next_row rs + 1 /\ current_row cols cur' = Ok r /\
    serving w' s' 0 [] /\ left_pending others w w' /\ state_of w' = state_of w /\
    messages out (handed w ++ [export_command id (Replies.next_row rs) n]) /\
    exchanged s s' out (wire ++ rest).
Proof.
  intros Htame Hc Hsz Hmx Hok Hin Hn Hlen Ht Hrep Hnum Hlim text Hm Hll Herr Hcon Hp Hen.
  destruct (advance_row_end id cols src cur w rs _ Hc Hin) as (rs1 & Ea & Hin1 & Hn1).
  destruct (fetch_ok (with_replies (Data rs1) cur) w s rs1 (r :: window) later ws replies wr wire
    requests rest texts n size max) as (cur2 & rs2 & w' & s' & out & Ef & Ht2 & Hc2 & Hs2 & Hm2 & Hin2 & Hn2 & Hcon' & Hleft & Hstate & Hout & X);
    try done; rewrite ?Hn1; try done.
  destruct (advance_row_next id cols src cur2 w' rs2 r window later Hc2 Hin2) as (rs3 & Ea3 & Hin3 & Hn3 & Hv).
  exists (with_replies (Data rs3) cur2), rs3, w', s', out. split.
  { unfold next_row, sbind at 1. rewrite (skip_at_data cur w rs Hc).
    enough (forall k, (2 <= k)%nat -> next_row_loop k (cur, w) =
      (Ok true, (with_replies (Data rs3) cur2, w'))) as Hloop by (destruct Hen; apply Hloop; lia).
    intros [|[|k]] Hk; [lia..|]. cbn [Cursor.next_row_loop]. unfold sbind at 1. rewrite Ea.
    unfold sbind at 1, view, result_set. cbn [with_replies cur_replies].
    pose proof (iw_total _ _ _ _ _ _ Hin1) as Htot. cbn in Htot. rewrite (proj2 (Z.leb_gt _ _)) by lia.
    unfold sbind at 1. rewrite Ef. unfold sbind at 1. by rewrite Ea3. }
  split; [done|]. split; [done|]. split; [done|]. split; [done|]. split; [done|]. split; [lia|].
  rewrite <- Hn1. done.
Qed.

(** *** Reading everything *)

(** A program that reads all rows; [n] bounds the calls. *)
Fixpoint read_rows (n : nat) : comp (Cursor * World S) CursorError (list row) :=
  match n with
  | O => fun st => (NoFuel, st)
  | Datatypes.S n' =>
      do? found := next_row in
      if found then
        do? r := view (current_row cols) in
        do? rest := read_rows n' in
        sret (r :: rest)
      else sret []
  end.

(** The agenda of [w'] is that of [w] after some operations. *)
Definition later_agenda (w w' : World S) : Prop :=
  exists k, agenda_of w' = Nat.iter k (agenda_next others) (agenda_of w).

Lemma later_agenda_refl w : later_agenda w w.
Proof. by exists 0%nat. Qed.

Lemma later_agenda_trans w1 w2 w3 : later_agenda w1 w2 -> later_agenda w2 w3 -> later_agenda w1 w3.
Proof. intros [j Hj] [k Hk]. exists (k + j)%nat. by rewrite Nat.iter_add, <- Hj. Qed.

(** What [read_rows] leaves behind. *)
Definition all_read cur w s rows requests rest : Prop :=
  exists cur' w' s' out,
    read_rows (Datatypes.S (length rows)) (cur, w) = (Ok rows, (cur', w')) /\
    (exists rs', cur_replies cur' = Data rs' /\ in_window id cols src rs' [] []) /\
    serving w' s' 0 [] /\ later_agenda w w' /\ state_of w' = state_of w /\
    messages out requests /\ exchanged s s' out rest.

(** After a call that found a row, the rest is read. *)
Lemma all_read_cons cur w s cur1 w1 s1 r rows out qs requests rest1 rest :
  next_row (cur, w) = (Ok true, (cur1, w1)) -> current_row cols cur1 = Ok r ->
  later_agenda w w1 -> state_of w1 = state_of w -> messages out qs -> exchanged s s1 out rest1 ->
  all_read cur1 w1 s1 rows requests rest -> all_read cur w s (r :: rows) (qs ++ requests) rest.
Proof.
  intros En Hr Ha1 Hw1 Hm1 X1 (cur2 & w2 & s2 & out2 & E2 & Hend & Hc & Ha2 & Hw2 & Hm & X2).
  exists cur2, w2, s2, (out ++ out2). split_and!; [|done|done| |congruence| |].
  - cbn [length]. change (read_rows (Datatypes.S (Datatypes.S (length rows)))) with
      (do? found := next_row in
       if found then do? r := view (current_row cols) in
         do? rest := read_rows (Datatypes.S (length rows)) in sret (r :: rest) else sret []).
    unfold sbind at 1. rewrite En. unfold sbind at 1, view. rewrite Hr. unfold sbind. by rewrite E2.
  - by eapply later_agenda_trans.
  - by apply messages_app.
  - by eapply exchanged_trans.
Qed.

(** The rows that came with the window are handed out without the server. *)
Lemma all_read_window window later cur w s rs requests rest :
  (1 <= fuel)%nat -> cur_replies cur = Data rs -> in_window id cols src rs window later ->
  exchanged s s [] (pending s) ->
  (forall rs', in_window id cols src rs' [] later ->
    Replies.next_row rs' = Replies.next_row rs + Z.of_nat (length window) ->
    all_read (with_replies (Data rs') cur) w s later requests rest) ->
  all_read cur w s (window ++ later) requests rest.
Proof.
  intros Hf. revert cur rs. induction window as [|r window IH]; intros cur rs Hcur Hin X0 Hlast.
  { replace cur with (with_replies (Data rs) cur) by (destruct cur; cbn in *; by subst).
    apply Hlast; [done|]. cbn. lia. }
  destruct (next_row_in cur w rs r window _ Hf Hcur Hin) as (rs' & En & Hin' & Hn' & Hv).
  apply (all_read_cons _ _ s _ _ s r _ [] [] requests (pending s)) with (1 := En) (2 := Hv);
    [apply later_agenda_refl|done|constructor|done|].
  apply (IH _ rs'); try done. intros rs2 Hin2 Hn2. apply Hlast; [done|]. cbn [length]. lia.
Qed.

Lemma read_rows_all max a size start later wire requests :
  served others id cols limit max a size start later wire requests ->
  forall cur w s rs window rest,
  undisturbed others clock begin_operation (cur_timeouts cur) ->
  cur_replies cur = Data rs -> cur_reply_size cur = size -> cur_max_prefetch cur = max ->
  size_ok size max -> in_window id cols src rs window later ->
  start = Replies.next_row rs + Z.of_nat (length window) ->
  agenda_of w = a -> serving w s 0 [] -> pending s = wire ++ rest -> enough s requests ->
  all_read cur w s (window ++ later) requests rest.
Proof.
  induction 1 as [a size start|a size start n rows texts later ws replies wr wire requests
      Hn Hlen Hne Ht Hrep Hnum Hlim Hm Hll Herr _ IH];
    intros cur w s rs window rest Htame Hcur Hsz Hmx Hok Hin Hst Ha Hcon Hp Hen;
    pose proof Hcon as (_ & _ & Hr & Hw); pose proof Hen as [Hf3 _];
    (assert (exchanged s s [] (pending s)) as X0 by (split; try done; by rewrite app_nil_r));
    apply (all_read_window _ _ cur w s rs); try done; try lia; intros rs0 Hin0 Hn0.
  - destruct (next_row_end (with_replies (Data rs0) cur) w rs0 ltac:(lia) eq_refl Hin0) as (rs' & En & Hin').
    eexists _, w, s, []. cbn [length read_rows]. unfold sbind. rewrite En.
    split; [done|]. split; [by exists rs'|]. split; [done|]. split; [apply later_agenda_refl|].
    split; [done|]. split; [constructor|]. by rewrite Hp in X0.
  - destruct rows as [|r rows]; [done|]. replace start with (Replies.next_row rs0) in * by lia. subst a.
    destruct (next_row_fetches (with_replies (Data rs0) cur) w s rs0 r rows later ws replies wr wire requests
      rest texts n size max) as (cur1 & rs1 & w1 & s1 & out & En & Ht1 & Hc1 & Hs1 & Hm1 & Hin1 & Hn1 & Hv &
        Hcon1 & Hleft & Hstate & Hout & X); try done.
    rewrite cons_middle, app_assoc in Hen |- *. cbn [app].
    eapply all_read_cons; [exact En|exact Hv|by exists 1%nat|exact Hstate|exact Hout|exact X|].
    apply (IH cur1 w1 s1 rs1); try done.
    + by rewrite Ht1.
    + by apply next_window_size_ok.
    + cbn [length] in *. lia.
    + by destruct X.
    + eapply enough_mono; [exact X|]. by apply enough_app in Hen as [_ ?].
Qed.

(** *** Theorem *)

(** C3: A result set is delivered completely: when the cursor is at a result set
    of which the rows [window] came with the reply and the rows [later] are on the
    server, and the server answers each request for a window with the rows asked
    for, a program that calls [next_row] until it returns false gets every row
    exactly once, in order, with the values of all its fields, NULL or not; the
    requests are [Xexport] commands for consecutive windows of the sizes that the
    cursor decides on, and afterwards the connection is in order and the stream at
    the first byte after the last window. Meanwhile other threads may hand over
    clean-up work ([undisturbed]), which is sent along with the request for the next
    window ([served] by the agenda of the connection). *)
Theorem rows_delivered cur w s rs window later wire requests rest :
  undisturbed others clock begin_operation (cur_timeouts cur) ->
  cur_replies cur = Data rs -> size_ok (cur_reply_size cur) (cur_max_prefetch cur) ->
  in_window id cols src rs window later ->
  served others id cols limit (cur_max_prefetch cur) (agenda_of w) (cur_reply_size cur)
    (Replies.next_row rs + Z.of_nat (length window)) later wire requests ->
  serving w s 0 [] -> pending s = wire ++ rest -> enough s requests ->
  exists cur' w' s' out,
    read_rows (Datatypes.S (length (window ++ later))) (cur, w) =
      (Ok (window ++ later), (cur', w')) /\
    serving w' s' 0 [] /\ messages out requests /\
    written s' = written s ++ out /\ pending s' = rest.
Proof.
  intros Htame Hcur Hok Hin Hserved Hcon Hp Hen.
  destruct (read_rows_all _ _ _ _ _ _ _ Hserved cur w s rs window rest)
    as (cur' & w' & s' & out & E & _ & Hc & _ & _ & Hm & X); try done.
  exists cur', w', s', out. by destruct X.
Qed.

End Fetch.

(** *** Witness *)

(** Two columns; one row came with the reply, three more are fetched in two windows. *)
Definition sample_row (a : string) : row := [Some (bs a); None].
Definition sample_row_text (a : string) : list bytes := [bs a; bs "NULL"].

Lemma sample_row_texts names :
  Forall (fun a => field_text (Some (bs a)) (bs a)) names ->
  row_texts 2 (sample_row <$> names) (sample_row_text <$> names).
Proof.
  induction 1 as [|a names Ha _ IH]; [constructor|]. constructor; [|done].
  split; [|done]. constructor; [done|]. constructor; [constructor|constructor].
Qed.

Ltac plain_texts :=
  repeat (apply Forall_cons; split; [apply text_plain; [cbn; set_solver | done | done | done]|]);
  apply Forall_nil; exact I.

Definition sample_result : ResultSet :=
  MkResultSet 9 false 0 4 1 [column_new (bs "a") Bool; column_new (bs "b") Bool]
    (rowset_new (buf_new (row_text (sample_row_text "x"))) 2) None (Some 9).

Definition sample_cursor : Cursor := MkCursor (Data sample_result) 1 (Some 100) short_timeouts.

Definition first_window : bytes := window_text 9 2 2 1 [sample_row_text "y"; sample_row_text "z"].
Definition second_window : bytes := window_text 9 2 1 3 [sample_row_text "u"].
Definition sample_wire : bytes :=
  (empties 2 ++ one_block first_window) ++ (empties 1 ++ one_block second_window) ++ [].

(** Two cursors are dropped elsewhere during the first request, one too late for it. *)
Definition sample_requests : list bytes :=
  [bs "Xclose 11" ++ [x0a]; bs "Xrelease 5" ++ [x0a]; export_command 9 1 2;
   bs "Xclose 12" ++ [x0a]; export_command 9 3 1].

Lemma sample_served :
  served dropping 9 2 1000 (Some 100) (MkAgenda [] [] 0) 1 1 [sample_row "y"; sample_row "z"; sample_row "u"]
    sample_wire sample_requests.
Proof.
  apply (served_window dropping 9 2 1000 (Some 100) (MkAgenda [] [] 0) 1 1 2 [sample_row "y"; sample_row "z"]
    [sample_row_text "y"; sample_row_text "z"] [sample_row "u"] (empties 2) (repeat [] 2)
    (one_block first_window) ((empties 1 ++ one_block second_window) ++ [])
    [bs "Xclose 12" ++ [x0a]; export_command 9 3 1]); try done.
  { apply (sample_row_texts ["y"; "z"]%string). plain_texts. }
  { apply replied_empties. }
  { apply empties_short. }
  { apply one_block_message. vm_compute. lia. }
  { vm_compute. lia. }
  apply (served_window dropping 9 2 1000 (Some 100) (MkAgenda [12] [] 11) 2 3 1 [sample_row "u"]
    [sample_row_text "u"] [] (empties 1) (repeat [] 1) (one_block second_window) [] []); try done.
  { apply (sample_row_texts ["u"]%string). plain_texts. }
  { apply replied_empties. }
  { apply empties_short. }
  { apply one_block_message. vm_compute. lia. }
  { vm_compute. lia. }
  constructor.
Qed.

#[local] Instance sample_lines : BstrLines := fun l => [l].

Lemma rows_delivered_witness :
  let s := MkWire (sample_wire ++ bs "next") [] [Give 5; Intr] [Intr] in
  exists cur' w' s' out,
    read_rows thirty_two dropping ticks wire_begin 300 wire_settings 2 5
      (sample_cursor, wire_world s delayed_new) =
      (Ok [sample_row "x"; sample_row "y"; sample_row "z"; sample_row "u"], (cur', w')) /\
    serving w' s' 0 [] /\ messages out sample_requests /\
    written s' = written s ++ out /\ pending s' = bs "next".
Proof.
  intros s.
  apply (rows_delivered thirty_two ltac:(intros i; apply Nat.lt_0_succ) dropping ticks wire_begin 300 wire_settings ltac:(vm_compute; done) 9 2 ltac:(lia) ltac:(vm_compute; done) None
    sample_cursor (wire_world s delayed_new) s sample_result [sample_row "x"]
    [sample_row "y"; sample_row "z"; sample_row "u"] sample_wire
    sample_requests (bs "next")).
  - exact dropping_undisturbed.
  - reflexivity.
  - split; [vm_compute; done|]. intros limit [= <-]. vm_compute; done.
  - split; try reflexivity; try (vm_compute; done); [apply wf_buf_new; vm_compute; done|].
    exists [sample_row_text "x"], []. split; [|done].
    apply (sample_row_texts ["x"]%string). plain_texts.
  - apply sample_served.
  - apply wire_world_serving; [apply queued_new|repeat constructor..].
  - reflexivity.
  - split; [lia|]. split; vm_compute; lia.
Defined.
