(* ===== verification/Binary.v ===== *)
(** * Binary windows of rows (src/cursor/mod.rs, [fetch_binary])

    [fetch_binary] asks for exactly the rows that are there, checks only the header
    of the reply, and hands out the reply as the server sent it, whatever bytes its
    payload has. *)

From Stdlib Require Import ZArith Lia.
From S2P Require Import Prelude Bytes Blockstate IO Writing Reading Decimal Errors.
From S2P Require Import MonetTypes ReplyBuf RowSet Replies Convert Delayed Validate ServerSock Login.
From S2P Require Import Upload Conn ConnInvariant Sharing Cursor Exchange Fetch.

Open Scope Z_scope.

#[local] Notation message := Blockstate.message.

(** A reply to [Xexportbin]: a header line and the payload. *)
Definition binary_reply (nums : list Z) (payload : bytes) : bytes :=
  (bs "&6 " ++ show_nums nums) ++ x0a :: payload.

Lemma header_bytes nums :
  Forall (fun m => 0 <= m) nums -> x0a ∉ (bs "&6 " ++ show_nums nums).
Proof.
  intros Hn [H|H]%elem_of_app; [by repeat (apply elem_of_cons in H as [?|H]); try done; apply elem_of_nil in H|].
  by apply (show_nums_free x0a nums) in H.
Qed.

Lemma validate_exact nums id columns n start :
  length nums = 4%nat ->
  (nums = [id; Z.of_nat columns; n; start] -> validate_export_header nums id columns n start = Ok tt) /\
  (nums <> [id; Z.of_nat columns; n; start] ->
   exists e, validate_export_header nums id columns n start = Err e).
Proof.
  destruct nums as [|f0 [|f1 [|f2 [|f3 [|]]]]]; try done. intros _. unfold validate_export_header.
  split; [intros [= -> -> -> ->]; by rewrite !Z.eqb_refl|]. intros Hne.
  destruct (Z.eqb_spec f0 id), (Z.eqb_spec f1 (Z.of_nat columns)), (Z.eqb_spec f2 n), (Z.eqb_spec f3 start);
    cbn [negb]; eauto; congruence.
Qed.

(** Whether a reply is taken depends only on its header. *)
Lemma check_exportbin_header nums payload id columns n start :
  Forall (fun m => 0 <= m < 2 ^ 64) nums -> length nums = 4%nat ->
  Z.of_nat (length (binary_reply nums payload)) < 2 ^ 63 ->
  check_exportbin (binary_reply nums payload) id start n columns =
    res_map_err BadReplyErr (validate_export_header nums id columns n start).
Proof.
  intros Hn Hl Hlen. unfold check_exportbin.
  change (head (binary_reply nums payload)) with (Some x26). rewrite bool_decide_false by done.
  cbn [res_bind]. set (line := bs "&6 " ++ show_nums nums) in *.
  assert (memchr x0a (binary_reply nums payload) = Some (length line)) as ->.
  { apply memchr_app. apply header_bytes, (Forall_impl _ _ _ Hn). intros m. lia. }
  assert (take (S (length line)) (binary_reply nums payload) = line ++ [x0a]) as ->.
  { unfold binary_reply. fold line. change (x0a :: payload) with ([x0a] ++ payload).
    rewrite app_assoc, take_app_length'; [done|]. rewrite length_app. simpl. lia. }
  destruct (parse_export_header_reads u64 nums (buf_new (line ++ [x0a])) []) as (b & E & _).
  - by destruct nums.
  - apply (Forall_impl _ _ _ Hn). intros m Hm. split; [lia|]. by apply in_u64.
  - apply wf_buf_new. unfold binary_reply in Hlen. fold line in Hlen. rewrite !length_app in *.
    simpl in *. lia.
  - done.
  - rewrite Hl in E. by rewrite E.
Qed.

Section Binary.
Context {S : Type} `{DuplexLaws S} `{BstrLines} (sizes : nat -> nat) (Hsizes : forall i, (0 < sizes i)%nat).
Context (others : nat -> list action) (clock : nat -> Z) (begin_operation : Timeouts -> Z -> S -> option S).
Context (fuel : nat) (settings : Settings).
Notation limit := (c_max_response_size settings).
Context (Hlimit : Z.of_nat limit < 2 ^ 63).
Notation always := (fun _ : Z => true).
Notation notes_of w := (responses (l_delayed (locked (conn w)))).
Notation fetch_binary := (fetch_binary others clock always begin_operation fuel sizes settings).

(** A result set whose rows stay on the server. *)
Definition resident (rs : ResultSet) : Prop :=
  prepared rs = false /\ rows_included rs <> total_rows rs /\ total_rows rs < 2 ^ 64 /\
  0 <= result_id rs < 2 ^ 64 /\ Z.of_nat (length (columns rs)) < 2 ^ 64.

(** C8: A binary window is fetched whole and untouched: for a result that stays on
    the server and a range that begins inside it, [fetch_binary] asks for the rows
    of the range that exist, no more, after the commands that are queued and the
    clean-up work that other threads hand over ([undisturbed]). When the
    header of the reply repeats the result, its number of columns and the range,
    the reply is returned byte for byte, whatever its payload is; when the header
    says anything else the reply is refused. In both cases the cursor is as before
    and the connection is ready for the next command. *)
Theorem binary_window_fetched cur w s k ps rs start count :
  undisturbed others clock begin_operation (cur_timeouts cur) ->
  cur_replies cur = Data rs -> resident rs -> serving w s k ps ->
  0 <= start < total_rows rs -> 0 < count ->
  let n := Z.min count (total_rows rs - start) in
  exists wire, messages wire (ps ++ cleanup_lines others w ++ [exportbin_command (result_id rs) start n]) /\
    forall ws replies wr nums payload rest,
      replied ws replies -> length replies = (k + length (ps ++ cleanup_lines others w))%nat ->
      Forall (fun p => (length p <= limit)%nat) (binary_reply nums payload :: replies) ->
      first_failure (notes_of w) replies = None ->
      message wr (binary_reply nums payload) ->
      Forall (fun m => 0 <= m < 2 ^ 64) nums -> length nums = 4%nat ->
      pending s = ws ++ wr ++ rest -> (effort s < fuel)%nat -> (wpatience s + length wire < fuel)%nat ->
      exists r w' s', fetch_binary start count (cur, w) = (r, (cur, w')) /\
        serving w' s' 0 [] /\ left_pending others w w' /\
        written s' = written s ++ wire /\ pending s' = rest /\
        (nums = [result_id rs; Z.of_nat (length (columns rs)); n; start] ->
         r = Ok (binary_reply nums payload)) /\
        (nums <> [result_id rs; Z.of_nat (length (columns rs)); n; start] ->
         exists e, r = Err (BadReplyErr e)).
Proof.
  intros Hquiet Hcur (Hprep & Hres & Htot & Hid & Hcols) Hc Hstart Hcount n.
  destruct (command_raw_shared sizes Hsizes others clock begin_operation fuel settings cur w s k ps
    [exportbin_command (result_id rs) start n] Hquiet Hc) as (wire & Hms & _ & Hrun).
  cbn [concat] in Hms. rewrite app_nil_r in Hms. exists wire. split; [done|].
  intros ws replies wr nums payload rest Hrep Hlen Hlim Hff Hm Hn Hl Hp He Hf.
  destruct (Hrun ws replies wr (binary_reply nums payload) rest) as (w' & s' & E & Hc' & Hleft & _ & X); [done..|].
  unfold command_result in E. rewrite Hff in E.
  pose proof (check_exportbin_header nums payload (result_id rs) (length (columns rs)) n start Hn Hl) as Hck.
  specialize (Hck ltac:(apply Forall_inv in Hlim; lia)).
  destruct (validate_exact nums (result_id rs) (length (columns rs)) n start Hl) as [Hok Hbad].
  assert (fetch_binary start count (cur, w) =
    (let? _ := res_map_err BadReplyErr (validate_export_header nums (result_id rs) (length (columns rs)) n start)
     in Ok (binary_reply nums payload), (cur, w'))) as Erun.
  { unfold Cursor.fetch_binary. unfold sbind at 1. rewrite (skip_at_data others fuel cur w rs Hcur).
    unfold sbind at 1, view, result_set. rewrite Hcur, Hprep.
    rewrite (proj2 (Z.eqb_neq _ _)), (proj2 (Z.eqb_neq _ _)), (proj2 (Z.leb_gt _ _)) by lia || done.
    cbn [orb]. assert (saturate usize (total_rows rs - start) = total_rows rs - start) as ->.
    { unfold saturate. change (ty_max usize) with (2 ^ 64 - 1). lia. }
    fold n. unfold sbind at 1. rewrite E.
    unfold sbind, slift. rewrite Hck. by destruct (validate_export_header _ _ _ _ _). }
  eexists _, w', s'. split; [exact Erun|]. split; [done|]. split; [done|]. split; [by destruct X|]. split; [by destruct X|].
  split; [intros Heq; by rewrite Hok|]. intros Hne. destruct (Hbad Hne) as [e ->]. by exists e.
Qed.

End Binary.

(** *** Witness *)

#[local] Instance sample_lines : BstrLines := fun l => [l].

(** Three of the ten rows that are asked for exist; the payload looks like an error. *)
Lemma binary_window_fetched_witness :
  let payload := [x0a] ++ bs "!no" ++ [x0a; xff] in
  let reply := binary_reply [9; 2; 3; 1] payload in
  let s := MkWire (empties 3 ++ one_block reply ++ bs "next") [] [Give 5; Intr] [Intr] in
  let w := wire_world s closing_seven in
  exists wire, messages wire [bs "Xclose 7" ++ [x0a]; bs "Xclose 11" ++ [x0a]; bs "Xrelease 5" ++ [x0a];
      bs "Xexportbin 9 1 3"] /\
    ((wpatience s + length wire < 200)%nat ->
     exists r w' s',
       fetch_binary dropping ticks (fun _ => true) wire_begin 200 thirty_two wire_settings
         1 10 (sample_cursor, w) = (r, (sample_cursor, w')) /\
       serving w' s' 0 [] /\ pending s' = bs "next" /\ r = Ok reply).
Proof.
  intros payload reply s w.
  destruct (binary_window_fetched thirty_two ltac:(intros i; apply Nat.lt_0_succ) dropping ticks wire_begin 200 wire_settings ltac:(vm_compute; done) sample_cursor w s 0 [bs "Xclose 7" ++ [x0a]]
    sample_result 1 10) as (wire & Hm & Hrun).
  - exact dropping_undisturbed.
  - reflexivity.
  - repeat split; vm_compute; discriminate || reflexivity.
  - apply wire_world_serving; [apply closing_seven_queued|repeat constructor..].
  - split; vm_compute; discriminate || reflexivity.
  - lia.
  - exists wire. split; [exact Hm|]. intros Hf.
    destruct (Hrun (empties 3) (repeat [] 3) (one_block reply) [9; 2; 3; 1] payload (bs "next"))
      as (r & w' & s' & E & Hc & _ & _ & Hp & Hr & _).
    + apply replied_empties.
    + reflexivity.
    + constructor; [vm_compute; lia|apply empties_short].
    + reflexivity.
    + apply one_block_message. vm_compute. lia.
    + repeat constructor; vm_compute; discriminate || reflexivity.
    + reflexivity.
    + reflexivity.
    + vm_compute. lia.
    + exact Hf.
    + exists r, w', s'. exact (conj E (conj Hc (conj Hp (Hr eq_refl)))).
Defined.
