(* ===== verification/Closing.v ===== *)
(** * Discarding replies (src/cursor/mod.rs: [next_reply], [exhaust], [close], [drop])

    Stepping through the replies queues one command for each result set that the
    server keeps, and closing or dropping a cursor releases what its response still
    holds, also while other threads hand over clean-up work of their own. *)

From Stdlib Require Import ZArith Lia.
From S2P Require Import Prelude Bytes Blockstate IO Writing Reading Decimal Errors.
From S2P Require Import MonetTypes ReplyBuf RowSet Replies ReplyProgress Convert Delayed Validate.
From S2P Require Import ServerSock Login Upload Conn ConnInvariant Sharing Cursor Exchange Responses.

Open Scope nat_scope.

#[local] Notation message := Blockstate.message.
#[local] Notation finished := Writing.finished.

(** ** Commands *)

(** Sending what is queued. *)
Lemma send_delayed_wire `{WriteLaws W} dc n ps :
  queued dc n ps ->
  exists wire, messages wire ps /\
    forall fuel (wr : W), wreliable wr -> wpatience wr + length wire < fuel ->
      exists mb wr', send_delayed fuel (dc, wr) = (Ok tt, (MkDelayed mb (responses dc), wr')) /\
        (write_all fuel wire wr).2 = wr' /\ represents mb (MkSpecBuf [] []) /\
        wreliable wr' /\ wpatience wr' <= wpatience wr /\ written wr' = written wr ++ wire.
Proof.
  intros [Hr _]. destruct (@reset_represents CursorError _ _ Hr) as (wire & mb & Er & [Hm _] & _ & Hr').
  exists wire. split; [done|]. intros fuel wr Hw Hf.
  destruct (write_all_reliable fuel wire wr Hw Hf) as (wr' & Ew).
  exists mb, wr'. unfold send_delayed, on_buffer. rewrite Er, Ew. split; [done|]. split; [done|].
  apply write_all_ok in Ew as (Hout & Hp & Hrel). split_and!; try done. auto.
Qed.

Section Closing.
Context {S : Type} `{DuplexLaws S} `{BstrLines}.
Context (others : nat -> list action) (clock : nat -> Z) (t : Timeouts) (Htame : tame others clock t).

Notation close_lines ids := (cleanup_line (bs "close") <$> ids).
Notation queued_lines := (queued_lines others).
Notation requested := (requested others).

(** ** Stepping through the replies *)

(** The queue has grown by [more], in [k] turns, and nothing else has changed. *)
Definition queue_grown (k : nat) (more : list bytes) (w w' : World S) (s : S) (n : nat) (ps : list bytes) : Prop :=
  serving w' s n (ps ++ more) /\ grown (conn w) (conn w') /\ looks w' = k + looks w.

(** Commands to close [ids] have been queued one by one. *)
Definition closing_queued (w w' : World S) (s : S) (n : nat) (ps : list bytes) (ids : list Z) : Prop :=
  queue_grown (length ids) (queued_lines (looks w) ids) w w' s n ps.

Lemma closing_queued_nil w s n ps : serving w s n ps -> closing_queued w w s n ps [].
Proof. intros Hc. split; [cbn; by rewrite app_nil_r|]. split; [apply grown_refl|done]. Qed.

Lemma closing_queued_trans w1 w2 w3 s n ps ids1 ids2 :
  closing_queued w1 w2 s n ps ids1 ->
  closing_queued w2 w3 s n (ps ++ queued_lines (looks w1) ids1) ids2 ->
  closing_queued w1 w3 s n ps (ids1 ++ ids2).
Proof.
  unfold closing_queued, queue_grown. intros (_ & G1 & L1) (Hc & G2 & L2).
  rewrite queued_lines_app, length_app, app_assoc. rewrite L1 in Hc, L2.
  split; [done|]. split; [by eapply grown_trans|lia].
Qed.

Lemma queue_closes_ok cur w s n ps ids :
  serving w s n ps ->
  exists w', (do! on_world (interfere others) in on_world (modify (try_queue_closes ids)) : comp (Cursor * World S) CursorError unit)
      (cur, w) = (Ok tt, (cur, w')) /\
    queue_grown 1 (requested (looks w) ++ close_lines ids) w w' s n ps.
Proof.
  intros (Hat & Hq & Hr & Hw).
  destruct (interfere_resting others clock t s n ps w Htame (conj Hat Hq)) as (c & E & Hc & G).
  destruct (queue_cleanups_grown (bs "close") ids s n _ c Hc) as [[Hat2 Hq2] G2]. rewrite <- app_assoc in Hq2.
  exists (MkWorld (queue_cleanups (bs "close") ids c) (Datatypes.S (looks w))). split.
  - unfold on_world, sbind. rewrite E. cbn. unfold try_queue_closes. by destruct Hc as [(-> & _) _].
  - split; [done|]. split; [by eapply grown_trans|done].
Qed.

Lemma queue_close_ok cur w s n ps id :
  serving w s n ps ->
  exists w', queue_close others id (cur, w) = (Ok tt, (cur, w')) /\ closing_queued w w' s n ps [id].
Proof. apply queue_closes_ok. Qed.

Lemma next_reply_ok cur w s n ps q close :
  serving w s n ps -> into_next_reply (cur_replies cur) = Ok (q, close) ->
  exists w' found, next_reply others (cur, w) = (Ok found, (with_replies q cur, w')) /\
    closing_queued w w' s n ps (option_list close).
Proof.
  intros Hc Hn. unfold next_reply, take_replies, on_cursor. unfold sbind at 1. cbv iota beta.
  unfold sbind at 1, slift. rewrite Hn. cbn [res_map_err].
  destruct close as [id|]; cbn [option_list].
  - destruct (queue_close_ok (with_replies default_parser cur) w s n ps id Hc) as (w' & E & Hc').
    exists w'. eexists. unfold sbind at 1. rewrite E. split; [reflexivity|done].
  - exists w. eexists. split; [reflexivity|]. by apply closing_queued_nil.
Qed.

Lemma exhaust_loop_ok n cur w s m ps closes fin :
  serving w s m ps -> exhaust n (cur_replies cur) = Ok (closes, fin) ->
  exists w', exhaust_loop others n (cur, w) = (Ok tt, (with_replies fin cur, w')) /\
    closing_queued w w' s m ps closes.
Proof.
  revert cur w ps closes. induction n as [|n IH]; intros cur w ps closes Hc Hex;
    unfold exhaust_loop; fold (exhaust_loop (S:=S) others); unfold sbind at 1, sget; cbv iota beta.
  { destruct (cur_replies cur) eqn:Ec; try done. injection Hex as <- <-. exists w.
    split; [|by apply closing_queued_nil]. rewrite <- Ec. by destruct cur. }
  assert (forall p, (let? (q, close) := into_next_reply (cur_replies cur) in
      let? (closes, final) := exhaust n q in
      Ok (match close with Some id => id :: closes | None => closes end, final)) = Ok (closes, fin) ->
    exists w', (do! next_reply others in exhaust_loop others n) (cur, w) =
      (Ok p, (with_replies fin cur, w')) /\ closing_queued w w' s m ps closes) as Hstep.
  { intros []. destruct (into_next_reply _) as [[q close]| | |] eqn:En; try done. cbn [res_bind].
    destruct (exhaust n q) as [[cs f]| | |] eqn:Ee; try done. cbn [res_bind]. intros [= <- <-].
    destruct (next_reply_ok cur w s m ps q close Hc En) as (w1 & found & E1 & Hc1).
    destruct (IH (with_replies q cur) w1 _ cs (proj1 Hc1) Ee) as (w2 & E2 & Hc2).
    exists w2. unfold sbind. rewrite E1, E2. split; [done|].
    pose proof (closing_queued_trans _ _ _ _ _ _ _ _ Hc1 Hc2) as Hc3. by destruct close. }
  destruct (cur_replies cur) eqn:Ec; try (by apply Hstep).
  injection Hex as <- <-. exists w. split; [|by apply closing_queued_nil]. rewrite <- Ec. by destruct cur.
Qed.

(** [exhaust] ends at the end of the response. *)
Lemma exhaust_final n p closes fin : exhaust n p = Ok (closes, fin) -> exists vec, fin = Exhausted vec.
Proof.
  revert p closes. induction n as [|n IH]; intros p closes; cbn [exhaust].
  { destruct p; try done. intros [= _ <-]. eauto. }
  destruct p; try (by intros [= _ <-]; eauto);
    intros ([q c] & _ & ([cs f] & E & [= _ <-])%res_bind_ok)%res_bind_ok; by eapply IH.
Qed.

(** Parsing a reply gives the end of the response only with an empty buffer. *)
Definition not_exhausted (m : reply ReplyParser) : Prop :=
  forall b vec, (m b).1 <> Ok (Exhausted vec).

Lemma not_exhausted_bind {A} (m : reply A) k :
  (forall a, not_exhausted (k a)) -> not_exhausted (sbind m k).
Proof. intros Hk b vec. unfold sbind. destruct (m b) as [[a|e| |] b']; try done. apply Hk. Qed.

#[local] Ltac parse_by_parts :=
  repeat (apply not_exhausted_bind; let a := fresh in intros a; try destruct a as [[[? ?] ?] ?]);
  intros ? ?; cbn; repeat case_match; done.

Lemma parse_exhausted buf vec : parse buf = Ok (Exhausted vec) -> vec = [].
Proof.
  unfold parse. destruct (decide _); [by intros [= <-]|].
  assert (forall m : reply ReplyParser, not_exhausted m -> (m buf).1 = Ok (Exhausted vec) -> vec = []) as Hm
    by (intros m Hm Hr; by destruct (Hm _ _ Hr)).
  repeat (destruct (starts_with _ _);
    [apply Hm; parse_by_parts|]).
  by destruct (bstr_lines _).
Qed.

Lemma into_next_reply_exhausted p vec close :
  into_next_reply p = Ok (Exhausted vec, close) -> vec = [].
Proof.
  unfold into_next_reply. destruct p;
    try (intros (q & Hq & [= -> _])%res_bind_ok; by eapply parse_exhausted).
  intros (b & _ & (q & Hq & [= -> _])%res_bind_ok)%res_bind_ok. by eapply parse_exhausted.
Qed.

(** The loop of [drop] collects the same results. *)
Lemma drop_loop_exhaust n p acc closes fin :
  (forall vec, p = Exhausted vec -> vec = []) -> exhaust n p = Ok (closes, fin) ->
  drop_loop (Datatypes.S n) p acc = Ok (acc ++ closes).
Proof.
  revert p acc closes. induction n as [|n IH]; intros p acc closes Hp Hex.
  { destruct p as [v| | | |]; try done. rewrite (Hp v eq_refl) in *. injection Hex as <- _.
    cbn. by rewrite app_nil_r. }
  assert ((exists vec, p = Exhausted vec) \/ exists q close cs, into_next_reply p = Ok (q, close) /\
    exhaust n q = Ok (cs, fin) /\ closes = option_list close ++ cs) as [[vec ->]|(q & close & cs & En & Ee & ->)].
  { cbn [exhaust] in Hex. destruct p; try (by left; eauto); right;
      (apply res_bind_ok in Hex as ([q c] & En & ([cs f] & E & Ex)%res_bind_ok);
       injection Ex as <- <-; exists q, c, cs; split; [done|]; split; [done|]; by destruct c). }
  { rewrite (Hp vec eq_refl) in *. injection Hex as <- _. cbn. by rewrite app_nil_r. }
  cbn [drop_loop]. rewrite En. rewrite app_assoc.
  assert (match close with Some id => acc ++ [id] | None => acc end = acc ++ option_list close) as ->
    by (destruct close; simpl; by rewrite ?app_nil_r).
  assert (forall vec, q = Exhausted vec -> vec = []) as Hq.
  { intros vec ->. by eapply into_next_reply_exhausted. }
  pose proof (IH q (acc ++ option_list close) cs Hq Ee) as E.
  destruct q; try done.
  assert (cs = []) as -> by (destruct n; cbn in Ee; by injection Ee as <- _). by rewrite app_nil_r.
Qed.

Lemma buffer_taken cur (w : World S) vec :
  cur_replies cur = Exhausted vec ->
  cursor_take_buffer (cur, w) = (Ok vec, (with_replies (Exhausted []) cur, w)).
Proof. intros Hc. unfold cursor_take_buffer, sbind, sget, slift. by rewrite Hc. Qed.

(** What is left of the last response is discarded; what follows goes on from there. *)
Lemma discarded_ok {A} n cur w s m ps closes fin :
  serving w s m ps -> exhaust n (cur_replies cur) = Ok (closes, fin) ->
  exists w1, closing_queued w w1 s m ps closes /\
    forall k : comp (Cursor * World S) CursorError A,
      (do! cursor_exhaust others n in do! cursor_take_buffer in k) (cur, w) =
      k (with_replies (Exhausted []) cur, w1).
Proof.
  intros Hc Hex. destruct (exhaust_loop_ok n cur w s m ps closes fin Hc Hex) as (w1 & E & Hc1).
  destruct (exhaust_final _ _ _ _ Hex) as [vec ->]. exists w1. split; [done|]. intros k.
  unfold cursor_exhaust. unfold sbind at 1. rewrite E. unfold sbind at 1.
  by rewrite (buffer_taken (with_replies (Exhausted vec) cur) w1 vec eq_refl).
Qed.

(** The messages that the operation that follows sends first. *)
Lemma closing_handed w w1 s n ps ids :
  closing_queued w w1 s n ps ids ->
  (ps ++ queued_lines (looks w) ids) ++ cleanup_lines others w1 = ps ++ carried others (agenda_of w) ids.
Proof.
  intros (_ & G & L). unfold cleanup_lines. by rewrite (grown_agenda _ _ _ G L), <- app_assoc.
Qed.

(** Dropping the cursor queues all that is left in one turn. *)
Lemma cursor_dropped n cur w s m ps closes fin :
  (forall vec, cur_replies cur = Exhausted vec -> vec = []) ->
  serving w s m ps -> exhaust n (cur_replies cur) = Ok (closes, fin) ->
  exists w', cursor_drop others (Datatypes.S n) (cur, w) = (Ok tt, (with_replies default_parser cur, w')) /\
    queue_grown 1 (requested (looks w) ++ close_lines closes) w w' s m ps.
Proof.
  intros Hv Hc Hex. pose proof (drop_loop_exhaust n _ [] closes fin Hv Hex) as Ed.
  destruct (queue_closes_ok (with_replies default_parser cur) w s m ps closes Hc) as (w' & E & Hc').
  exists w'. split; [|exact Hc'].
  unfold cursor_drop, take_replies, on_cursor. unfold sbind at 1. cbv iota beta. unfold sbind at 1, slift.
  by rewrite Ed.
Qed.

End Closing.

(** ** Closing a cursor *)

Section Close.
Context {S : Type} `{DuplexLaws S} `{BstrLines} (sizes : nat -> nat) (Hsizes : forall i, 0 < sizes i).
Context (others : nat -> list action) (clock : nat -> Z) (begin_operation : Timeouts -> Z -> S -> option S).
Context (fuel : nat) (settings : Settings).
Notation limit := (c_max_response_size settings).

Notation always := (fun _ : Z => true).
Notation notes_of w := (responses (l_delayed (locked (conn w)))).
Notation state_of w := (l_state (locked (conn w))).
Notation close_lines ids := (cleanup_line (bs "close") <$> ids).
Notation carried := (carried others).

(** What [do_close] does with the socket. *)
Notation close_body := (
  do? (_, delayed, _) := sget in
  match responses delayed with
  | [] => sret None
  | _ :: _ =>
      do! on_queue (send_delayed fuel) in
      on_queue (recv_delayed fuel sizes limit)
  end : comp (ServerState * DelayedCommands * S) CursorError (option ServerError)).

Lemma close_body_ok st dc n ps :
  queued dc n ps ->
  exists wire, messages wire ps /\
    forall s ws replies rest, replied ws replies -> length replies = n + length ps ->
      Forall (fun p => length p <= limit) replies ->
      reliable s -> wreliable s -> effort s < fuel -> pending s = ws ++ rest ->
      wpatience s + length wire < fuel ->
      exists dc' s', close_body (st, dc, s) = (Ok (first_failure (responses dc) replies), (st, dc', s')) /\
        queued dc' 0 [] /\ exchanged s s' wire rest.
Proof.
  intros Hq. destruct (send_delayed_wire dc n ps Hq) as (wire & Hms & Hrun).
  exists wire. split; [done|]. intros s ws replies rest Hrep Hlen Hlim Hr Hw He Hp Hf.
  unfold sbind at 1, sget. destruct (responses dc) as [|note notes] eqn:En.
  - pose proof Hq as [Hrp Hnum]. rewrite En in Hnum. simpl in Hnum.
    assert (ps = []) as -> by (destruct ps; [done|simpl in Hnum; lia]).
    apply messages_none in Hms as ->. assert (replies = []) as -> by (destruct replies; [done|simpl in *; lia]).
    inversion Hrep; subst. exists dc, s. split; [done|].
    split; [split; [done|by rewrite En]|]. split; try done. by rewrite app_nil_r.
  - destruct (Hrun fuel s Hw Hf) as (mb & s1 & E1 & Ew & Hrep1 & Hw1 & Hpat1 & Hout1).
    destruct (write_keeps_pending fuel wire s Hr) as (Hp1 & Hpa1 & Hr1). rewrite Ew in *.
    assert (exchanged s s1 wire (pending s)) as X1.
    { split; try done. unfold effort. rewrite Hp1, Hpa1. done. }
    destruct (recv_exchanged sizes Hsizes fuel settings (MkDelayed mb (note :: notes)) s1 ws replies rest)
      as (s2 & E2 & X2); [done|pose proof Hq as [_ Hnum]; rewrite En in Hnum; simpl in *; lia|done|done|done|destruct X1; lia|congruence|].
    exists (MkDelayed mb []), s2. split.
    { unfold sbind, on_queue. rewrite E1. cbn -[recv_delayed]. by rewrite E2. }
    split; [by split|]. rewrite <- (app_nil_r wire). by eapply exchanged_trans.
Qed.

(** C23: Closing a cursor releases everything: when the cursor has read any part of
    a response ([reading]), the replies that are left are stepped over; what other cursors have queued is sent, with one command for each
    piece of clean-up work that other threads ask for in time and one to close each
    result set that is left of this response and of which the server keeps rows
    ([kept]), in order ([carried]);
    exactly one reply is read for each command that has been sent, and the
    connection is in order, its queue empty, the stream behind the last of these
    replies, and only what was asked for too late still pending. An error in
    closing a result does not count; an error of another queued command is
    reported. Dropping the cursor queues the same commands for whoever uses the
    connection next, without touching the socket. Meanwhile the watchdog may look
    at the clock as long as nothing is overdue, and other threads may hand over
    clean-up work ([undisturbed]). *)
Theorem closing_releases_results cur w s n ps response left :
  undisturbed others clock begin_operation (cur_timeouts cur) -> serving w s n ps ->
  Forall sound response -> (Z.of_nat (length (response_text response)) < 2 ^ 63)%Z ->
  reading response (cur_replies cur) left -> length left <= fuel ->
  let closes := left ≫= kept in
  (exists wire, messages wire (ps ++ carried (agenda_of w) closes) /\
    forall ws replies rest, replied ws replies ->
      length replies = n + length (ps ++ carried (agenda_of w) closes) ->
      Forall (fun p => length p <= limit) replies -> effort s < fuel -> pending s = ws ++ rest ->
      wpatience s + length wire < fuel ->
      exists w' s',
        do_close others clock always begin_operation fuel sizes settings (cur, w) =
        (match first_failure (notes_of w) replies with
         | Some error => Err (Server error)
         | None => Ok tt
         end, (with_replies (Exhausted []) cur, w')) /\
        serving w' s' 0 [] /\
        agenda_of w' = agenda_next others (agenda_after (length closes) (agenda_of w)) /\
        written s' = written s ++ wire /\ pending s' = rest) /\
  (exists w', cursor_drop others (Datatypes.S fuel) (cur, w) = (Ok tt, (with_replies default_parser cur, w')) /\
     serving w' s n (ps ++ requested others (looks w) ++ close_lines closes) /\
     agenda_of w' = agenda_after 1 (agenda_of w)).
Proof.
  intros Htame Hc Hs Hlen Hread Hleft closes.
  destruct (reading_exhausted response _ left fuel Hs Hlen Hread Hleft) as [Hex Hv].
  fold closes in Hex. split.
  - destruct (discarded_ok (A:=unit) others clock _ (proj1 Htame) fuel cur w s n ps closes (Exhausted []) Hc Hex) as (w1 & Hq1 & E1).
    pose proof (closing_handed _ _ _ _ _ _ _ Hq1) as Hh. destruct Hq1 as (Hc1 & G & Hl).
    pose proof (grown_agenda _ _ _ G Hl) as Ha.
    destruct (shared_operation_ok others clock begin_operation _ w1 s n _ Htame Hc1) as (dc & Hq & Hn & Hshared).
    rewrite Hh in Hq. destruct (close_body_ok (state_of w1) dc n _ Hq) as (wire & Hms & Hrun).
    exists wire. split; [done|]. intros ws replies rest Hrep Hnum Hlim He Hp Hf.
    pose proof Hc as (_ & _ & Hr & Hw).
    destruct (Hshared _ close_body (first_failure (notes_of w) replies) (state_of w1) 0 [] (eq wire) rest)
      as (w' & s' & ? & E & Hc' & Hpend & _ & <- & X).
    { intros s1 [X1 X2 X3 X4 X5 X6].
      destruct (Hrun s1 ws replies rest) as (dc' & s' & E & Hq' & X); try done; [lia|congruence|lia|].
      exists dc', s', wire. by rewrite E, Hn, (grown_failure _ _ _ G). }
    exists w', s'. split; [|rewrite <- Ha; by destruct X].
    unfold do_close. rewrite E1. unfold sbind at 1, run_locked. cbn [cur_timeouts with_replies]. rewrite E.
    unfold delayed_result. destruct (first_failure (notes_of w) replies); reflexivity.
  - destruct (cursor_dropped others clock _ (proj1 Htame) fuel cur w s n ps closes (Exhausted []) Hv Hc Hex)
      as (w' & E & Hc' & G & Hl). exists w'. split; [done|]. split; [done|by apply grown_agenda].
Qed.

End Close.

(** *** Witness *)

#[local] Instance sample_lines : BstrLines := fun l => [l].

(** Two of a hundred rows; the server keeps the result 5. *)
Definition kept_reply : server_reply :=
  ResultReply false 5 100 [] [ColumnText (bs "sys.t") (bs "a") (bs "int") (bs "1") (bs "32 0")]
    [[bs "1"]; [bs "2"]].

Lemma kept_reply_sound : sound kept_reply.
Proof.
  split; [done|]. split; [by repeat constructor|]. split; [eexists; by repeat constructor|].
  split; [lia|]. split; [simpl; lia|]. split; [constructor|].
  assert (forall d, d = bs "1" \/ d = bs "2" -> row_of 1 [d]) as Hrow.
  { intros d Hd. split; [done|]. split.
    - exists [Some d]. constructor; [|constructor].
      apply text_plain; destruct Hd as [-> | ->]; by apply (bool_decide_unpack _).
    - constructor; [|constructor]. destruct Hd as [-> | ->]; by apply (bool_decide_unpack _). }
  constructor; [apply Hrow; by left|]. constructor; [apply Hrow; by right|constructor].
Qed.

Definition kept_response : bytes := response_text [kept_reply].

Definition kept_cursor : Cursor :=
  match parser_new kept_response with
  | Ok p => with_replies p (cursor_new wire_settings)
  | _ => cursor_new wire_settings
  end.

Lemma closing_releases_results_witness :
  let s := MkWire (empties 1 ++ one_block (bs "!no" ++ [x0a]) ++ empties 2 ++ bs "next") [] [Give 0; Intr] [Intr] in
  let w := wire_world s closing_seven in
  (exists wire, messages wire [bs "Xclose 7" ++ [x0a]; bs "Xclose 5" ++ [x0a]; bs "Xclose 11" ++ [x0a];
       bs "Xrelease 5" ++ [x0a]] /\
    (wpatience s + length wire < 400 ->
     exists w' s',
       do_close dropping ticks (fun _ => true) wire_begin 400 thirty_two wire_settings (kept_cursor, w) =
       (Ok tt, (with_replies (Exhausted []) kept_cursor, w')) /\
       serving w' s' 0 [] /\ agenda_of w' = MkAgenda [12%Z] [] 12 /\
       written s' = written s ++ wire /\ pending s' = bs "next")) /\
  exists w', cursor_drop dropping 401 (kept_cursor, w) = (Ok tt, (with_replies default_parser kept_cursor, w')) /\
    serving w' s 0 [bs "Xclose 7" ++ [x0a]; bs "Xclose 5" ++ [x0a]] /\ agenda_of w' = MkAgenda [] [] 1.
Proof.
  intros s w.
  destruct (closing_releases_results thirty_two ltac:(intros i; apply Nat.lt_0_succ) dropping ticks wire_begin 400 wire_settings kept_cursor w s 0 [bs "Xclose 7" ++ [x0a]] [kept_reply] [kept_reply])
    as [(wire & Hms & Hrun) Hdrop].
  - exact dropping_undisturbed.
  - apply wire_world_serving; [apply closing_seven_queued|repeat constructor..].
  - constructor; [apply kept_reply_sound|constructor].
  - vm_compute. reflexivity.
  - constructor. vm_compute. reflexivity.
  - simpl. lia.
  - split; [|exact Hdrop]. exists wire. split; [exact Hms|].
    apply (Hrun (empties 1 ++ one_block (bs "!no" ++ [x0a]) ++ empties 2)
      ([[]] ++ [bs "!no" ++ [x0a]] ++ repeat [] 2) (bs "next")).
    + apply (replied_cons (one_block [])); [apply one_block_message; simpl; lia|].
      apply replied_cons; [apply one_block_message; simpl; lia|apply (replied_empties 2)].
    + reflexivity.
    + repeat constructor; simpl; lia.
    + vm_compute. lia.
    + reflexivity.
Defined.
