(* ===== verification/Execute.v ===== *)
(** * Executing statements

    [execute] and its variants, also while other threads hand over clean-up work:
    the earlier replies of the cursor are discarded; the server may ask for any
    number of client files while it runs the statements; each is streamed to it, and
    the response that is left in the end is parsed into the replies of the cursor,
    or its error is reported. *)

From Stdlib Require Import ZArith Lia.
From stdpp Require Import gmap sets.
From S2P Require Import Prelude Bytes Blockstate IO Writing Reading Decimal Errors.
From S2P Require Import MonetTypes ReplyBuf RowSet Replies ReplyProgress Convert Delayed Validate.
From S2P Require Import ServerSock Login Upload Conn ConnInvariant Sharing Cursor Exchange Responses Closing.

Open Scope nat_scope.

#[local] Notation message := Blockstate.message.
#[local] Notation finished := Writing.finished.

(** ** The dialogue *)

Section Dialogue.
Context (files : bytes -> option (list bytes)) (target limit : nat).

(** [dialogue response wire datas final]: with [response] received so far, the server
    sends [wire]: a request for each of the files with contents [datas], the
    prompts of its transfer, and at last the rest of the response [final]. *)
Inductive dialogue : bytes -> bytes -> list bytes -> bytes -> Prop :=
| dialogue_end response w p :
    message w p -> length p <= limit -> (forall i, ~ marker_at (response ++ p) i) ->
    dialogue response w [] (response ++ p)
| dialogue_file response w p request kept name chunks prompts more datas final :
    message w p -> length p <= limit ->
    take_file_request (response ++ p) = (Ok (Some request), kept) ->
    upload_filename request = Some name -> files name = Some chunks ->
    replied prompts
      (repeat MORE (div_ceil (length (concat chunks)) target) ++ [FILE_TRANSFER]) ->
    dialogue kept more datas final ->
    dialogue response (w ++ prompts ++ more) (concat chunks :: datas) final.

End Dialogue.

(** What becomes of a request: the file is streamed, or it is refused. *)
Inductive answer := Streams (data : bytes) | Refuses (error : CursorError).

Definition refusal_of (a : answer) : option CursorError :=
  match a with Streams _ => None | Refuses e => Some e end.

Definition first_refusal (answers : list answer) : option CursorError :=
  head (omap refusal_of answers).

Section Conversation.
Context (files : bytes -> option (list bytes)) (refuses : bytes -> option CursorError).
Context (target limit room : nat) (to_string : CursorError -> bytes).

(** Why a request is refused: it is not one for a file, or the producer has none. *)
Definition refused_for (request : bytes) : option CursorError :=
  match upload_filename request with
  | None => Some (FileTransfer [Errors.Lit "unsupported server request "; Debug request])
  | Some name => refuses name
  end.

(** The line that tells the server. *)
Definition refusal_line (error : CursorError) : bytes :=
  ((fun c => if bool_decide (c = x0d) || bool_decide (c = x0a) then x20 else c) <$> to_string error)
  ++ [x0a].

(** A dialogue in which requests may also be refused; [room] bounds what is sent
    at once. *)
Inductive conversation : bytes -> bytes -> list answer -> bytes -> Prop :=
| conversation_end response w p :
    message w p -> length p <= limit -> (forall i, ~ marker_at (response ++ p) i) ->
    conversation response w [] (response ++ p)
| conversation_file response w p request kept name chunks prompts more answers final :
    message w p -> length p <= limit ->
    take_file_request (response ++ p) = (Ok (Some request), kept) ->
    upload_filename request = Some name -> files name = Some chunks ->
    replied prompts
      (repeat MORE (div_ceil (length (concat chunks)) target) ++ [FILE_TRANSFER]) ->
    conversation kept more answers final ->
    conversation response (w ++ prompts ++ more) (Streams (concat chunks) :: answers) final
| conversation_refused response w p request kept error more answers final :
    message w p -> length p <= limit ->
    take_file_request (response ++ p) = (Ok (Some request), kept) ->
    refused_for request = Some error -> length (refusal_line error) <= room ->
    conversation kept more answers final ->
    conversation response (w ++ more) (Refuses error :: answers) final.

(** What the client sends for a request. *)
Definition answered (a : answer) (sent : list bytes) : Prop :=
  match a with
  | Streams data => exists parts, cut target data parts /\ sent = accepted (parts ++ [[]])
  | Refuses error => sent = [refusal_line error]
  end.

End Conversation.

Lemma dialogue_conversation files refuses target limit room to_string response wire datas final :
  dialogue files target limit response wire datas final ->
  conversation files refuses target limit room to_string response wire (Streams <$> datas) final.
Proof. induction 1; cbn [fmap list_fmap]; econstructor; eauto. Qed.

Lemma streams_refuse_none datas : first_refusal (Streams <$> datas) = None.
Proof. unfold first_refusal. by induction datas. Qed.

(** The messages that carry the files, each cut into parts. *)
Definition file_messages (parts : list (list bytes)) : list bytes :=
  concat ((fun ps => accepted (ps ++ [[]])) <$> parts).

(** A response without a request is kept. *)
Lemma no_file_request response :
  (forall i, ~ marker_at response i) -> take_file_request response = (Ok None, response).
Proof.
  intros Hn. destruct (take_file_request_cases response) as [[_ E]|(i & Hi & _)]; [done|].
  by destruct (Hn i).
Qed.

Definition settled (final : bytes) (state : ServerState) : ServerState :=
  MkState (default (s_autocommit state) (response_autocommit final)) (s_reply_size state)
    (s_time_zone_seconds state) (s_sql_metadata state) (s_prehash_algo state)
    (s_server_endian state) (s_binary_level state) (s_max_response_size state).

Lemma streams_answered to_string target datas sent :
  Forall2 (answered target to_string) (Streams <$> datas) sent ->
  exists parts, Forall2 (cut target) datas parts /\ concat sent = file_messages parts.
Proof.
  revert sent. induction datas as [|data datas IH]; intros sent; cbn [fmap list_fmap].
  { intros ->%Forall2_nil_inv_l. by exists []. }
  intros (m & ms & (parts & Hc & ->) & Hrest & ->)%Forall2_cons_inv_l.
  destruct (IH ms Hrest) as (pss & Hcs & E). exists (parts :: pss).
  split; [by constructor|]. unfold file_messages in *. cbn [fmap list_fmap concat]. by rewrite E.
Qed.

Section Serve.
Context {S : Type} `{DuplexLaws S} (sizes : nat -> nat) (Hsizes : forall i, 0 < sizes i).
Context (fuel : nat) (settings : Settings) (to_string : CursorError -> bytes).
Notation limit := (c_max_response_size settings).
Context {P : Type} (upload : bytes -> comp (P * StreamingUpload S) CursorError unit).
Context (files : bytes -> option (list bytes)) (target : nat).
Context (Htarget : 0 < target) (Hlimit : 3 <= limit).

Context (refuses : bytes -> option CursorError) (room : nat) (Hroom : Datatypes.S target <= room).

(** The producer writes the chunks of the files that it knows, and fails at once
    for those that it refuses. *)
Context (Hupload : forall name chunks p u, files name = Some chunks ->
  upload name (p, u) = on_sink (write_chunks fuel sizes chunks) (p, u)).
Context (Hrefuse : forall name e p u, refuses name = Some e -> upload name (p, u) = (Err e, (p, u))).

Notation serve_loop := (serve_loop fuel sizes settings to_string upload target).
Notation conversation := (conversation files refuses target limit room to_string).
Notation answered := (answered target to_string).

(** What the socket must have left. *)
Definition capable (s : S) : Prop :=
  reliable s /\ wreliable s /\ wpatience s + 3 * room + 2 < fuel /\ effort s < fuel.

Lemma capable_mono s s' out rest : exchanged s s' out rest -> capable s -> capable s'.
Proof. intros [? ? ? ? ? ?] (_ & _ & ? & ?). repeat split; try done; lia. Qed.

(** One file is served. *)
Lemma offer_ok st dc s p name chunks prompts rest :
  files name = Some chunks -> capable s ->
  replied prompts (repeat MORE (div_ceil (length (concat chunks)) target) ++ [FILE_TRANSFER]) ->
  pending s = prompts ++ rest ->
  exists s' out sent,
    offer fuel sizes settings to_string upload target name p (st, dc, s) =
      (Ok (Continue None None p), (st, dc, s')) /\
    exchanged s s' out rest /\ messages out sent /\ answered (Streams (concat chunks)) sent.
Proof.
  intros Hf (Hr & Hw & Hpat & Heff) Hrep Hp.
  destruct (upload_ok sizes fuel target limit s chunks prompts rest)
    as (u & s' & u' & out & parts & E1 & E2 & X & Hm & Hc); [done..|lia|done|].
  exists s', out, (accepted (parts ++ [[]])). split; [|split; [done|split; [done|by exists parts]]].
  unfold offer. rewrite (Hupload name chunks) by done. unfold on_sink. rewrite E1, E2. done.
Qed.

(** One request is refused. *)
Lemma refuse_ok st dc s error :
  capable s -> length (refusal_line to_string error) <= room ->
  exists s' out, refuse fuel to_string error (st, dc, s) = (Ok tt, (st, dc, s')) /\
    exchanged s s' out (pending s) /\ messages out [refusal_line to_string error].
Proof.
  intros (Hr & Hw & Hpat & _) Hl.
  destruct (fragment_exchanged fuel (refusal_line to_string error) true s) as (s' & E & X); [done|done|lia|].
  exists s', (framed (refusal_line to_string error) true). split; [|split; [done|]].
  - unfold refuse, on_socket, refuse_upload. fold (refusal_line to_string error). by rewrite E.
  - rewrite <- (app_nil_r (framed _ true)). apply messages_cons; [exact (framed_wire _ true)|constructor].
Qed.

Lemma request_refused st dc s (v : Served) request error :
  refused_for refuses request = Some error -> producer_error v = None ->
  capable s -> length (refusal_line to_string error) <= room ->
  exists s' out,
    handle_request fuel sizes settings to_string upload target request v (st, dc, s) =
      (Ok (Continue (Some error) None (producer v)), (st, dc, s')) /\
    exchanged s s' out (pending s) /\ messages out [refusal_line to_string error].
Proof.
  intros Hreq Hpe Hcap Hl. destruct (refuse_ok st dc s error Hcap Hl) as (s' & out & E & X & Hm).
  exists s', out. split; [|done]. unfold handle_request, refused_for in *.
  destruct (upload_filename request) as [name|].
  - rewrite Hpe. unfold offer. rewrite (Hrefuse name error) by done. cbn [u_started upload_new].
    unfold sbind at 1, slift at 1. unfold into_socket at 1. cbn [u_sock upload_new ok_or].
    unfold sbind at 1, put_sock at 1. unfold sbind at 1. rewrite E. done.
  - injection Hreq as <-. unfold sbind at 1. rewrite E, Hpe. done.
Qed.

Lemma first_of_refusal (r : option CursorError) (a : answer) answers :
  first_of (first_of r (refusal_of a)) (first_refusal answers) = first_of r (first_refusal (a :: answers)).
Proof. unfold first_refusal. by destruct r, a. Qed.

Lemma serve_loop_ok response wire answers final :
  conversation response wire answers final ->
  forall n st dc s (v : Served) rest,
  Cursor.response v = response -> producer_error v = None ->
  length answers < n -> capable s -> pending s = wire ++ rest ->
  exists s' out sent,
    serve_loop n v (st, dc, s) =
      (Ok (MkServed final (first_of (refused v) (first_refusal answers)) None (producer v)),
       (settled final st, dc, s')) /\
    exchanged s s' out rest /\ messages out (concat sent) /\ Forall2 answered answers sent.
Proof.
  induction 1 as [response w p Hm Hl Hno
    |response w p request kept name chunks prompts more answers final Hm Hl Hreq Hname Hfile Hrep _ IH
    |response w p request kept error more answers final Hm Hl Hreq Herr Hlen _ IH];
    intros n st dc s v rest Hv Hpe Hn Hcap Hp; (destruct n as [|n]; [lia|]);
    pose proof Hcap as (Hr & Hw & Hpat & Heff); cbn [Cursor.serve_loop];
    unfold read_response, on_socket, io_lift; unfold sbind at 1; rewrite Hv.
  - destruct (reply_appended sizes Hsizes fuel limit response s w p rest) as (s' & E & X); [done..|].
    rewrite E. cbn [fst snd res_map_err]. rewrite no_file_request by done.
    exists s', [], []. split; [|by repeat split; try constructor; destruct X].
    unfold sbind, note_autocommit, sret. rewrite Hpe. by destruct (refused v).
  - rewrite <- !app_assoc in Hp.
    destruct (reply_appended sizes Hsizes fuel limit response s w p (prompts ++ more ++ rest))
      as (s1 & E & X1); [done..|].
    rewrite E. cbn [fst snd res_map_err]. rewrite Hreq.
    assert (capable s1) as Hcap1 by by eapply capable_mono.
    destruct (offer_ok st dc s1 (producer v) name chunks prompts (more ++ rest))
      as (s2 & out1 & sent1 & E2 & X2 & Hm2 & Hc2); [done|done|done|by destruct X1|].
    unfold handle_request. rewrite Hname, Hpe. unfold sbind at 1. rewrite E2.
    destruct (IH n st dc s2 (MkServed kept (first_of (refused v) None) None (producer v)) rest)
      as (s3 & out2 & sent2 & E3 & X3 & Hm3 & Hc3); try done.
    { cbn [length] in Hn. lia. }
    { by eapply capable_mono. }
    { by destruct X2. }
    exists s3, (out1 ++ out2), (sent1 :: sent2). cbn [refused producer] in E3.
    split; [rewrite <- first_of_refusal; exact E3|]. split.
    { apply (exchanged_trans _ s1 _ [] (out1 ++ out2) _ _ X1). by eapply exchanged_trans. }
    split; [|by constructor]. by apply messages_app.
  - rewrite <- !app_assoc in Hp.
    destruct (reply_appended sizes Hsizes fuel limit response s w p (more ++ rest)) as (s1 & E & X1); [done..|].
    rewrite E. cbn [fst snd res_map_err]. rewrite Hreq.
    assert (capable s1) as Hcap1 by by eapply capable_mono.
    destruct (request_refused st dc s1 v request error) as (s2 & out1 & E2 & X2 & Hm2); [done..|].
    unfold sbind at 1. rewrite E2.
    destruct (IH n st dc s2 (MkServed kept (first_of (refused v) (Some error)) None (producer v)) rest)
      as (s3 & out2 & sent2 & E3 & X3 & Hm3 & Hc3); try done.
    { cbn [length] in Hn. lia. }
    { by eapply capable_mono. }
    { destruct X2 as [_ -> _ _ _ _]. by destruct X1. }
    exists s3, (out1 ++ out2), ([refusal_line to_string error] :: sent2). cbn [refused producer] in E3.
    split; [rewrite <- first_of_refusal; exact E3|]. split.
    { destruct X1 as [? Hp1 ? ? ? ?]. rewrite Hp1 in X2.
      apply (exchanged_trans _ s1 _ [] (out1 ++ out2) (more ++ rest) _); [done|by eapply exchanged_trans]. }
    split; [|by constructor]. by apply messages_app.
Qed.

End Serve.

(** ** A statement *)

Section Execute.
Context {S : Type} `{DuplexLaws S} `{BstrLines} (sizes : nat -> nat) (Hsizes : forall i, 0 < sizes i).
Context (others : nat -> list action) (clock : nat -> Z) (begin_operation : Timeouts -> Z -> S -> option S).
Context (fuel : nat) (settings : Settings) (to_string : CursorError -> bytes).
Notation limit := (c_max_response_size settings).
Notation always := (fun _ : Z => true).
Notation state_of w := (l_state (locked (conn w))).
Notation notes_of w := (responses (l_delayed (locked (conn w)))).
Notation handed w := (cleanup_lines others w).

Context {P : Type} (upload : bytes -> comp (P * StreamingUpload S) CursorError unit).
Context (files : bytes -> option (list bytes)) (target : nat).
Context (Htarget : 0 < target) (Hlimit : 3 <= limit).
Context (Hupload : forall name chunks p u, files name = Some chunks ->
  upload name (p, u) = on_sink (write_chunks fuel sizes chunks) (p, u)).

Notation command_with_uploads :=
  (command_with_uploads others clock always begin_operation fuel sizes settings to_string upload target).

(** The whole exchange, up to the evaluation of the response. *)
Section Requests.
Context (refuses : bytes -> option CursorError) (room : nat) (Hroom : Datatypes.S target <= room).
Context (Hrefuse : forall name e p u, refuses name = Some e -> upload name (p, u) = (Err e, (p, u))).

Notation uploads_body cmd p :=
  (do? delayed_error := send_command fuel sizes settings cmd in
   do? v := serve_loop fuel sizes settings to_string upload target fuel (MkServed [] None None p) in
   sret (v, delayed_error)).

Lemma uploads_body_ok st dc n ps cmd :
  queued dc n ps ->
  exists wire, messages wire (ps ++ [concat cmd]) /\
    forall s ws replies wr answers final p rest,
     replied ws replies -> length replies = n + length ps ->
     Forall (fun p => length p <= limit) replies ->
     conversation files refuses target limit room to_string [] wr answers final ->
     capable fuel room s -> pending s = ws ++ wr ++ rest ->
     wpatience s + length wire < fuel -> length answers < fuel ->
     exists mb s' out sent,
       uploads_body cmd p (st, dc, s) =
       (Ok (MkServed final (first_refusal answers) None p, first_failure (responses dc) replies),
        (settled final st, MkDelayed mb [], s')) /\
       represents mb (MkSpecBuf [] []) /\ exchanged s s' (wire ++ out) rest /\
       messages out (concat sent) /\ Forall2 (answered target to_string) answers sent.
Proof.
  intros Hq. destruct (send_command_ok sizes Hsizes fuel settings st dc n ps cmd Hq) as (wire & Hms & _ & Hrun).
  exists wire. split; [done|].
  intros s ws replies wr answers final p rest Hrep Hlen Hlim Hd Hcap Hp Hf Hn.
  pose proof Hcap as (Hr & Hw & _ & He).
  destruct (Hrun s ws replies (wr ++ rest)) as (mb & s1 & E1 & Hmb & X1); [done..|].
  assert (capable fuel room s1) as Hcap1 by by eapply capable_mono.
  destruct (serve_loop_ok sizes Hsizes fuel settings to_string upload files target Htarget Hlimit refuses
    room Hroom Hupload Hrefuse [] wr answers final Hd fuel st (MkDelayed mb []) s1
    (MkServed [] None None p) rest)
    as (s2 & out & sent & E2 & X2 & Hm2 & Hc2); try done; [by destruct X1|].
  exists mb, s2, out, sent. split; [unfold sbind; by rewrite E1, E2|].
  split; [done|]. split; [|done]. by eapply exchanged_trans.
Qed.

(** What is sent: the queued messages, the statement, and what answers the requests. *)
Definition exchange_out (ps : list bytes) (cmd : bytes) (answers : list answer) (out : bytes) : Prop :=
  exists sent, messages out (ps ++ [cmd] ++ concat sent) /\
    Forall2 (answered target to_string) answers sent.

(** The response that the cursor works with. *)
Lemma uploads_operation_shared cur w s n ps cmd :
  undisturbed others clock begin_operation (cur_timeouts cur) -> serving w s n ps ->
  exists wire, messages wire (ps ++ handed w ++ [concat cmd]) /\
    forall ws replies wr answers final p rest,
     replied ws replies -> length replies = n + length (ps ++ handed w) ->
     Forall (fun p => length p <= limit) replies -> first_failure (notes_of w) replies = None ->
     conversation files refuses target limit room to_string [] wr answers final ->
     capable fuel room s -> pending s = ws ++ wr ++ rest ->
     wpatience s + length wire < fuel -> length answers < fuel ->
     exists w' s' out,
       run_locked others clock always begin_operation (uploads_body cmd p) (cur, w) =
         (Ok (MkServed final (first_refusal answers) None p, None), (cur, w')) /\
       serving w' s' 0 [] /\ left_pending others w w' /\ state_of w' = settled final (state_of w) /\
       exchange_out (ps ++ handed w) (concat cmd) answers out /\ exchanged s s' out rest.
Proof.
  intros Htame Hc.
  destruct (shared_operation_ok others clock begin_operation _ w s n ps Htame Hc)
    as (dc & Hq & Hnotes & Hshared).
  destruct (uploads_body_ok (state_of w) dc n _ cmd Hq) as (wire & Hms & Hrun).
  exists wire. rewrite app_assoc. split; [done|].
  intros ws replies wr answers final p rest Hrep Hlen Hlim Hff Hd Hcap Hp Hf Hn.
  destruct (Hshared _ (uploads_body cmd p) (MkServed final (first_refusal answers) None p, None)
    (settled final (state_of w)) 0 [] (exchange_out (ps ++ handed w) (concat cmd) answers) rest)
    as (w' & s' & out & E & Hc' & Hl & Hst & Hout & X).
  { intros s1 X1. pose proof X1 as [Y1 Y2 Y3 Y4 Y5 Y6].
    destruct (Hrun s1 ws replies wr answers final p rest)
      as (mb & s' & out & sent & E & Hmb & X & Hm & Hcut); try done; [by eapply capable_mono|congruence|lia|].
    exists (MkDelayed mb []), s', (wire ++ out). rewrite Hnotes, Hff in E. split; [done|]. split; [done|].
    split; [|done]. exists sent. split; [|done]. rewrite app_assoc. by apply messages_app. }
  exists w', s', out. split; [|done]. unfold run_locked. by rewrite E.
Qed.

Notation carried := (carried others).

(** The agenda when the statements have been run, after closing [ids]. *)
Definition agenda_executed (w : World S) (ids : list Z) : agenda :=
  agenda_next others (agenda_after (length ids) (agenda_of w)).

(** The earlier replies are discarded first. *)
Lemma statement_run A cur w s n ps cmd closes fin :
  undisturbed others clock begin_operation (cur_timeouts cur) ->
  exhaust fuel (cur_replies cur) = Ok (closes, fin) -> serving w s n ps ->
  let before := ps ++ carried (agenda_of w) closes in
  let cur0 := with_replies (Exhausted []) cur in
  exists wire w1, messages wire (before ++ [concat cmd]) /\
    (forall k : comp (Cursor * World S) CursorError A,
      (do! cursor_exhaust others fuel in do! cursor_take_buffer in k) (cur, w) = k (cur0, w1)) /\
    forall ws replies wr answers final p rest,
     replied ws replies -> length replies = n + length before ->
     Forall (fun p => length p <= limit) replies -> first_failure (notes_of w) replies = None ->
     conversation files refuses target limit room to_string [] wr answers final ->
     capable fuel room s -> pending s = ws ++ wr ++ rest ->
     wpatience s + length wire < fuel -> length answers < fuel ->
     exists w' s' out,
       run_locked others clock always begin_operation (uploads_body cmd p) (cur0, w1) =
         (Ok (MkServed final (first_refusal answers) None p, None), (cur0, w')) /\
       serving w' s' 0 [] /\ agenda_of w' = agenda_executed w closes /\
       state_of w' = settled final (state_of w) /\
       exchange_out before (concat cmd) answers out /\ exchanged s s' out rest.
Proof.
  intros Htame Hex Hc before cur0.
  destruct (discarded_ok (A:=A) others clock _ (proj1 Htame) fuel cur w s n ps closes fin Hc Hex) as (w1 & Hq1 & E1).
  pose proof (closing_handed _ _ _ _ _ _ _ Hq1) as Hh. destruct Hq1 as (Hc1 & G & Hl).
  destruct (uploads_operation_shared cur0 w1 s n _ cmd Htame Hc1) as (wire & Hms & Hrun).
  rewrite app_assoc in Hms. rewrite Hh in Hms, Hrun. exists wire, w1. split; [done|]. split; [done|].
  intros ws replies wr answers final p rest Hrep Hlen Hlim Hff.
  rewrite <- (grown_failure _ _ _ G) in Hff. intros Hd Hcap Hp Hf Hn.
  destruct (Hrun ws replies wr answers final p rest) as (w' & s' & out & E & Hc' & Hleft & Hst & Hrest); [done..|].
  exists w', s', out. split; [done|]. split; [done|]. unfold agenda_executed.
  rewrite <- (grown_agenda _ _ _ G Hl). split; [done|]. destruct G as (_ & <- & _). done.
Qed.

End Requests.

(** A dialogue in which every file is served. *)
Notation room := (Datatypes.S target).
Notation execute_streaming := (execute_with_streaming_uploads_with_chunk_size others clock always begin_operation
  fuel sizes settings to_string upload target).

(** What is sent for a dialogue in which every file is served. *)
Definition files_out (ps : list bytes) (cmd : bytes) (datas : list bytes) (out : bytes) : Prop :=
  exists parts, messages out (ps ++ [cmd] ++ file_messages parts) /\ Forall2 (cut target) datas parts.

Lemma served_files ps cmd datas out :
  exchange_out ps cmd (Streams <$> datas) out -> files_out ps cmd datas out.
Proof.
  intros (sent & Hm & Ha). apply streams_answered in Ha as (parts & Hcut & Hsent).
  exists parts. by rewrite <- Hsent.
Qed.

(** *** Theorems *)

Notation carried := (carried others).

(** C2: Statements run with their files: whatever replies the cursor has left,
    whatever commands are queued, whatever clean-up work other threads hand over
    ([undisturbed]), and with a server that asks for any files that the producer has, at
    any points of its response, [execute_with_streaming_uploads_with_chunk_size]
    closes the results of the earlier replies, sends the queued commands, the
    clean-up work, the statements, and for every request the file, cut into messages
    of the chosen size; the response without the requests is parsed into the replies
    of the cursor, the autocommit mode follows the response, and the connection is
    in order for the next command, the stream behind the response. *)
Theorem statements_executed cur w s n ps statements closes fin :
  undisturbed others clock begin_operation (cur_timeouts cur) ->
  exhaust fuel (cur_replies cur) = Ok (closes, fin) -> serving w s n ps ->
  let before := ps ++ carried (agenda_of w) closes in
  exists wire, messages wire (before ++ [bs "s" ++ statements ++ x0a :: bs ";"]) /\
    forall ws replies wr datas final p rest q,
     replied ws replies -> length replies = n + length before ->
     Forall (fun p => length p <= limit) replies -> first_failure (notes_of w) replies = None ->
     dialogue files target limit [] wr datas final ->
     server_error final = None -> parser_new final = Ok q ->
     capable fuel room s -> pending s = ws ++ wr ++ rest ->
     wpatience s + length wire < fuel -> length datas < fuel ->
     exists w' s' out parts,
       execute_streaming statements p (cur, w) = (Ok p, (with_replies q cur, w')) /\
       serving w' s' 0 [] /\ agenda_of w' = agenda_executed w closes /\
       s_autocommit (state_of w') = default (s_autocommit (state_of w)) (response_autocommit final) /\
       pending s' = rest /\ written s' = written s ++ out /\
       messages out (before ++ [bs "s" ++ statements ++ x0a :: bs ";"] ++ file_messages parts) /\
       Forall2 (cut target) datas parts.
Proof.
  intros Htame Hex Hc before.
  destruct (statement_run (fun _ => None) room ltac:(done) ltac:(done) P cur w s n ps
    [bs "s"; statements; x0a :: bs ";"] closes fin Htame Hex Hc) as (wire & w1 & Hms & E1 & Hrun).
  cbn [concat] in *. rewrite app_nil_r in *. exists wire. split; [done|].
  intros ws replies wr datas final p rest q Hrep Hlen Hlim Hff Hd Herr Hq Hcap Hp Hf Hn.
  destruct (Hrun ws replies wr (Streams <$> datas) final p rest)
    as (w' & s' & out & E & Hc' & Ha & Hst & (parts & Hm & Hcut)%served_files & X);
    [done..|by apply dialogue_conversation|done|done|done|by rewrite length_fmap|].
  rewrite streams_refuse_none in E. exists w', s', out, parts. split.
  { unfold execute_with_streaming_uploads_with_chunk_size. rewrite E1. unfold sbind at 1, command_with_uploads.
    unfold sbind at 1. rewrite E. cbn. unfold install_response, detect_errors. rewrite Herr, Hq. done. }
  split; [done|]. split; [done|]. split; [by rewrite Hst|]. by destruct X.
Qed.

(** C21: An error is reported and leaves nothing behind: when the response has an
    error reply among its replies, wherever it stands,
    [execute_with_streaming_uploads_with_chunk_size] fails with the error that
    displays all the error lines in order, with the SQLSTATE of the first
    ([reports]); the other replies are stepped over, the result sets among them of
    which the server keeps rows ([kept]) are queued to be closed, and the
    connection is in order for the next command with the stream behind the
    response. What the cursor has not read of its previous response ([reading])
    has been discarded in the same way. Meanwhile the watchdog may look at the
    clock as long as nothing is overdue, and other threads may hand over clean-up
    work ([undisturbed]). *)
Theorem error_reply_reported cur w s n ps statements earlier left :
  undisturbed others clock begin_operation (cur_timeouts cur) -> serving w s n ps ->
  Forall sound earlier -> (Z.of_nat (length (response_text earlier)) < 2 ^ 63)%Z ->
  reading earlier (cur_replies cur) left -> length left <= fuel ->
  let closes := left ≫= kept in
  let before := ps ++ carried (agenda_of w) closes in
  exists wire, messages wire (before ++ [bs "s" ++ statements ++ x0a :: bs ";"]) /\
    forall ws replies wr datas final p rest,
     replied ws replies -> length replies = n + length before ->
     Forall (fun p => length p <= limit) replies -> first_failure (notes_of w) replies = None ->
     dialogue files target limit [] wr datas (response_text final) ->
     Forall sound final -> (Z.of_nat (length (response_text final)) < 2 ^ 63)%Z ->
     final ≫= error_messages <> [] -> length final <= fuel ->
     capable fuel room s -> pending s = ws ++ wr ++ rest ->
     wpatience s + length wire < fuel -> length datas < fuel ->
     let after := agenda_executed w closes in
     let ids := final ≫= kept in
     exists w' s' e,
       execute_streaming statements p (cur, w) = (Err (Server e), (with_replies (Exhausted []) cur, w')) /\
       reports (final ≫= error_messages) e /\
       serving w' s' 0 (queued_lines others (ag_turn after) ids) /\
       agenda_of w' = agenda_after (length ids) after /\ pending s' = rest.
Proof.
  intros Htame Hc Hs Hlen Hread Hleft closes before.
  destruct (reading_exhausted earlier _ left fuel Hs Hlen Hread Hleft) as [Hex _]. fold closes in Hex.
  destruct (statement_run (fun _ => None) room ltac:(done) ltac:(done) P cur w s n ps
    [bs "s"; statements; x0a :: bs ";"] closes (Exhausted []) Htame Hex Hc) as (wire & w1 & Hms & E1 & Hrun).
  set (cur0 := with_replies (Exhausted []) cur) in *. cbn [concat] in Hms, Hrun. rewrite app_nil_r in Hms, Hrun.
  exists wire. split; [done|].
  intros ws replies wr datas final p rest Hrep Hnum Hlim Hff Hd Hsr Hlr Hmsg Hfr Hcap Hp Hf Hn after ids.
  destruct (response_parsed final Hsr Hlr) as (q & Hq & Hrq).
  destruct (reading_exhausted final q final fuel Hsr Hlr Hrq Hfr) as [Hex' _]. fold ids in Hex'.
  pose proof (response_messages final Hsr) as Herr.
  destruct (server_error (response_text final)) as [e|] eqn:Ese; [|done]. destruct Herr as [_ Hrep_e].
  destruct (Hrun ws replies wr (Streams <$> datas) (response_text final) p rest) as (w' & s' & out & E & Hc' & Ha & _ & _ & X);
    [done..|by apply dialogue_conversation|done|done|done|by rewrite length_fmap|].
  rewrite streams_refuse_none in E.
  destruct (exhaust_loop_ok others clock _ (proj1 Htame) fuel (with_replies q cur0) w' s' 0 [] ids (Exhausted []) Hc' Hex')
    as (w2 & E2 & Hc2 & G2 & L2). exists w2, s', e. fold after in Ha.
  split; [|split; [done|rewrite <- Ha; split; [done|split; [by apply grown_agenda|by destruct X]]]].
  unfold execute_with_streaming_uploads_with_chunk_size. rewrite E1. unfold sbind at 1, command_with_uploads.
  unfold sbind at 1. rewrite E. cbn [producer_error refused response producer]. unfold sret at 1.
  unfold install_response, detect_errors. rewrite Ese, Hq. unfold sbind at 1 2, slift. cbn [res_map_err].
  unfold set_replies at 1, on_cursor. unfold sbind at 1. unfold sbind at 1, attempt, cursor_exhaust.
  by rewrite E2.
Qed.

(** C22: A refused file is reported and the connection stays in step: when the
    producer has no file of some of the requested names, or the server asks for
    something that is not a file, each such request is answered with one line that
    says why and every other request with the file; the statements run to their
    end, and [execute_with_streaming_uploads_with_chunk_size] fails with the first
    refusal, together with the error that the server makes of it when there is
    one. The replies of the response are stepped over, its result sets queued to
    be closed, and the connection is in order for the next command with the stream
    behind the response. Meanwhile the watchdog may look at the clock as long as
    nothing is overdue, and other threads may hand over clean-up work ([undisturbed]). *)
Theorem refused_upload_reported refuses bound cur w s n ps statements closes fin :
  undisturbed others clock begin_operation (cur_timeouts cur) ->
  Datatypes.S target <= bound ->
  (forall name e p u, refuses name = Some e -> upload name (p, u) = (Err e, (p, u))) ->
  exhaust fuel (cur_replies cur) = Ok (closes, fin) -> serving w s n ps ->
  let before := ps ++ carried (agenda_of w) closes in
  exists wire, messages wire (before ++ [bs "s" ++ statements ++ x0a :: bs ";"]) /\
    forall ws replies wr answers final p rest q error ids fin',
     replied ws replies -> length replies = n + length before ->
     Forall (fun p => length p <= limit) replies -> first_failure (notes_of w) replies = None ->
     conversation files refuses target limit bound to_string [] wr answers final ->
     first_refusal answers = Some error ->
     parser_new final = Ok q -> exhaust fuel q = Ok (ids, fin') ->
     capable fuel bound s -> pending s = ws ++ wr ++ rest ->
     wpatience s + length wire < fuel -> length answers < fuel ->
     let after := agenda_executed w closes in
     exists w' s' out,
       execute_streaming statements p (cur, w) =
         (Err (match server_error final with
               | Some e => UploadRefused error (to_string (Server e))
               | None => error
               end), (with_replies fin' cur, w')) /\
       serving w' s' 0 (queued_lines others (ag_turn after) ids) /\
       agenda_of w' = agenda_after (length ids) after /\ pending s' = rest /\
       written s' = written s ++ out /\
       exchange_out before (bs "s" ++ statements ++ x0a :: bs ";") answers out.
Proof.
  intros Htame Hb Hrefuse Hex Hc before.
  destruct (statement_run refuses bound Hb Hrefuse P cur w s n ps
    [bs "s"; statements; x0a :: bs ";"] closes fin Htame Hex Hc) as (wire & w1 & Hms & E1 & Hrun).
  set (cur0 := with_replies (Exhausted []) cur) in *. cbn [concat] in Hms, Hrun. rewrite app_nil_r in Hms, Hrun.
  exists wire. split; [done|].
  intros ws replies wr answers final p rest q error ids fin' Hrep Hlen Hlim Hff Hd Herr Hq Hex' Hcap Hp Hf Hn after.
  destruct (Hrun ws replies wr answers final p rest) as (w' & s' & out & E & Hc' & Ha & _ & Hout & X); [done..|].
  destruct (exhaust_loop_ok others clock _ (proj1 Htame) fuel (with_replies q cur0) w' s' 0 [] ids fin' Hc' Hex')
    as (w2 & E2 & Hc2 & G2 & L2). exists w2, s', out. fold after in Ha.
  split; [|rewrite <- Ha; split; [done|split; [by apply grown_agenda|by destruct X]]].
  unfold execute_with_streaming_uploads_with_chunk_size. rewrite E1.
  unfold sbind at 1. unfold command_with_uploads. unfold sbind at 1. rewrite E, Herr.
  cbn [producer_error refused response]. unfold sbind at 1, report_refusal. rewrite Hq.
  unfold sbind at 1. unfold sbind at 1, set_replies at 1, on_cursor. unfold sbind at 1, attempt, cursor_exhaust.
  rewrite E2. unfold sret at 1, detect_errors. by destruct (server_error final).
Qed.

End Execute.

(** The producer of [execute_with_binary_uploads] writes each file as one chunk. *)
Lemma in_memory_writes {T : Type} `{!Read T} `{!Write T} (fuel : nat) (sizes : nat -> nat) (uploads : gmap bytes bytes) name chunks p
    (u : StreamingUpload T) :
  (fun data => [data]) <$> uploads !! name = Some chunks ->
  in_memory fuel sizes uploads name (p, u) = on_sink (write_chunks fuel sizes chunks) (p, u).
Proof.
  intros (data & Hd & ->)%fmap_Some. unfold in_memory. rewrite Hd. unfold on_sink. cbn [write_chunks].
  unfold sbind. by destruct (write_chunk fuel sizes data u) as [[[]|e| |] u'].
Qed.

Lemma no_marker response : x01 ∉ response -> forall i, ~ marker_at response i.
Proof.
  intros Hn i [Ho _]. apply occurs_bytes in Ho as (Hi & _). apply Hn. by apply list_elem_of_lookup_2 in Hi.
Qed.

(** *** Witnesses *)

Definition sample_files : gmap bytes bytes := {[bs "f" := bs "abc"]}.
Definition chunks_of (name : bytes) : option (list bytes) := (fun data => [data]) <$> sample_files !! name.

Definition file_request : bytes := FILE_TRANSFER ++ bs "rb f" ++ [x0a].
Definition update_reply : bytes := bs "&2 1" ++ [x0a].
Definition failed_reply : bytes := bs "!42000!no" ++ [x0a].

Lemma sample_dialogue final :
  x01 ∉ final -> length final <= 1000 ->
  dialogue chunks_of 2 1000 []
    (one_block file_request ++ prompts [MORE; MORE; FILE_TRANSFER] ++ one_block final) [bs "abc"] final.
Proof.
  intros Hf Hl. apply (dialogue_file chunks_of 2 1000 [] (one_block file_request) file_request (bs "rb f") []
    (bs "f") [bs "abc"] (prompts [MORE; MORE; FILE_TRANSFER]) (one_block final) [] final).
  - apply one_block_message. simpl. lia.
  - simpl. lia.
  - reflexivity.
  - reflexivity.
  - reflexivity.
  - apply replied_prompts. repeat constructor; simpl; lia.
  - apply (dialogue_end chunks_of 2 1000 []); [by apply one_block_message|done|by apply no_marker].
Qed.

#[local] Instance sample_lines : BstrLines := fun l => [l].

Notation run_sample cur w := (execute_with_streaming_uploads_with_chunk_size dropping ticks (fun _ => true)
  wire_begin 300 thirty_two wire_settings (fun _ => []) (in_memory 300 thirty_two sample_files) 2
  (bs "COPY") tt (cur, w)).

Lemma statements_executed_witness :
  let s := MkWire (empties 3 ++ (one_block file_request ++ prompts [MORE; MORE; FILE_TRANSFER] ++
             one_block update_reply) ++ bs "next") [] [Give 3; Intr] [Intr; Give 1] in
  let w := wire_world s delayed_new in
  let before := [bs "Xclose 5" ++ [x0a]; bs "Xclose 11" ++ [x0a]; bs "Xrelease 5" ++ [x0a]] in
  exists wire, messages wire (before ++ [bs "sCOPY" ++ x0a :: bs ";"]) /\
    (wpatience s + length wire < 300 ->
     exists w' s' out parts,
       run_sample kept_cursor w = (Ok tt, (with_replies (Success (MkBuf update_reply 5) (Some 1%Z)) kept_cursor, w')) /\
       serving w' s' 0 [] /\ agenda_of w' = MkAgenda [12%Z] [] 12 /\
       s_autocommit (l_state (locked (conn w'))) = true /\
       pending s' = bs "next" /\ written s' = written s ++ out /\
       messages out (before ++ [bs "sCOPY" ++ x0a :: bs ";"] ++ file_messages parts) /\
       Forall2 (cut 2) [bs "abc"] parts).
Proof.
  intros s w before.
  destruct (statements_executed thirty_two ltac:(intros i; apply Nat.lt_0_succ) dropping ticks wire_begin 300 wire_settings (fun _ => []) (in_memory 300 thirty_two sample_files) chunks_of 2
    ltac:(lia) ltac:(vm_compute; lia)
    (fun name chunks p u => in_memory_writes 300 thirty_two sample_files name chunks p u)
    kept_cursor w s 0 [] (bs "COPY") [5%Z] (Exhausted [])) as (wire & Hm & Hrun).
  - exact dropping_undisturbed.
  - vm_compute. reflexivity.
  - apply wire_world_serving; [apply queued_new|repeat constructor..].
  - exists wire. split; [exact Hm|]. intros Hf.
    destruct (Hrun (empties 3) (repeat [] 3) (one_block file_request ++ prompts [MORE; MORE; FILE_TRANSFER] ++ one_block update_reply)
      [bs "abc"] update_reply tt (bs "next")
      (Success (MkBuf update_reply 5) (Some 1%Z))) as (w' & s' & out & parts & E & Hc & Hl & Hrest).
    + apply replied_empties.
    + reflexivity.
    + apply empties_short.
    + reflexivity.
    + apply sample_dialogue; [by apply (bool_decide_unpack _)|simpl; lia].
    + reflexivity.
    + reflexivity.
    + split; [repeat constructor|]. split; [repeat constructor|]. split; vm_compute; lia.
    + reflexivity.
    + exact Hf.
    + simpl. lia.
    + exists w', s', out, parts. exact (conj E (conj Hc (conj Hl Hrest))).
Defined.

(** The result of the first statement is kept by the server, the second fails. *)
Definition half_failed : list server_reply := [kept_reply; ErrorReply (bs "42000!no")].

Lemma half_failed_sound : Forall sound half_failed.
Proof.
  constructor; [apply kept_reply_sound|]. constructor; [|constructor].
  split; [by apply (bool_decide_unpack _)|done].
Qed.

Lemma error_reply_reported_witness :
  let s := MkWire (empties 2 ++ (one_block file_request ++ prompts [MORE; MORE; FILE_TRANSFER] ++
             one_block (response_text half_failed)) ++ bs "next") [] [Give 3; Intr] [Intr; Give 1] in
  let w := wire_world s delayed_new in
  exists wire, messages wire [bs "Xclose 11" ++ [x0a]; bs "Xrelease 5" ++ [x0a]; bs "sCOPY" ++ x0a :: bs ";"] /\
    (wpatience s + length wire < 300 ->
     exists w' s' e,
       run_sample (cursor_new wire_settings) w =
         (Err (Server e), (with_replies (Exhausted []) (cursor_new wire_settings), w')) /\
       reports [bs "42000!no"] e /\
       serving w' s' 0 [bs "Xclose 5" ++ [x0a]] /\ agenda_of w' = MkAgenda [12%Z] [] 12 /\
       pending s' = bs "next").
Proof.
  intros s w.
  destruct (error_reply_reported thirty_two ltac:(intros i; apply Nat.lt_0_succ) dropping ticks wire_begin 300 wire_settings (fun _ => []) (in_memory 300 thirty_two sample_files) chunks_of 2
    ltac:(lia) ltac:(vm_compute; lia)
    (fun name chunks p u => in_memory_writes 300 thirty_two sample_files name chunks p u)
    (cursor_new wire_settings) w s 0 [] (bs "COPY") [] []) as (wire & Hm & Hrun).
  - exact dropping_undisturbed.
  - apply wire_world_serving; [apply queued_new|repeat constructor..].
  - constructor.
  - vm_compute. reflexivity.
  - constructor. reflexivity.
  - simpl. lia.
  - exists wire. split; [exact Hm|]. intros Hf.
    apply (Hrun (empties 2) (repeat [] 2) (one_block file_request ++ prompts [MORE; MORE; FILE_TRANSFER] ++ one_block (response_text half_failed))
      [bs "abc"] half_failed tt (bs "next")).
    + apply replied_empties.
    + reflexivity.
    + apply empties_short.
    + reflexivity.
    + apply sample_dialogue; [by apply (bool_decide_unpack _)|vm_compute; lia].
    + exact half_failed_sound.
    + vm_compute. reflexivity.
    + discriminate.
    + simpl. lia.
    + split; [repeat constructor|]. split; [repeat constructor|]. split; vm_compute; lia.
    + reflexivity.
    + exact Hf.
    + simpl. lia.
Defined.

(** The server asks for a file that is not there and ends with an error. *)
Definition other_request : bytes := FILE_TRANSFER ++ bs "rb g" ++ [x0a].

Definition unknown_file (name : bytes) : CursorError :=
  FileTransfer [Errors.Lit "server requested unknown file "; Debug name].

Definition refused_of (name : bytes) : option CursorError :=
  match sample_files !! name with Some _ => None | None => Some (unknown_file name) end.

Lemma in_memory_refuses {T : Type} `{!Read T} `{!Write T} fuel sizes name e p (u : StreamingUpload T) :
  refused_of name = Some e -> in_memory fuel sizes sample_files name (p, u) = (Err e, (p, u)).
Proof. unfold refused_of, in_memory. destruct (sample_files !! name); [done|]. by intros [= <-]. Qed.

Definition refused_wire : bytes := one_block other_request ++ one_block failed_reply.

Lemma refused_conversation :
  conversation chunks_of refused_of 2 1000 10 (fun _ => bs "unknown") [] refused_wire
    [Refuses (unknown_file (bs "g"))] failed_reply.
Proof.
  apply (conversation_refused chunks_of refused_of 2 1000 10 (fun _ => bs "unknown") []
    (one_block other_request) other_request (bs "rb g") [] (unknown_file (bs "g"))
    (one_block failed_reply) [] failed_reply).
  - apply one_block_message. simpl. lia.
  - simpl. lia.
  - reflexivity.
  - reflexivity.
  - simpl. lia.
  - apply (conversation_end chunks_of refused_of 2 1000 10 (fun _ => bs "unknown") []).
    + apply one_block_message. simpl. lia.
    + simpl. lia.
    + apply no_marker. by apply (bool_decide_unpack _).
Qed.

Lemma refused_upload_reported_witness :
  let s := MkWire (empties 2 ++ refused_wire ++ bs "next") [] [Give 3; Intr] [Intr; Give 1] in
  let w := wire_world s delayed_new in
  let before := [bs "Xclose 11" ++ [x0a]; bs "Xrelease 5" ++ [x0a]] in
  exists wire, messages wire (before ++ [bs "sCOPY" ++ x0a :: bs ";"]) /\
    (wpatience s + length wire < 300 ->
     exists w' s' out,
       execute_with_streaming_uploads_with_chunk_size dropping ticks (fun _ => true)
         wire_begin 300 thirty_two wire_settings (fun _ => bs "unknown")
         (in_memory 300 thirty_two sample_files) 2 (bs "COPY") tt (cursor_new wire_settings, w) =
         (Err (UploadRefused (unknown_file (bs "g")) (bs "unknown")),
          (with_replies (Exhausted []) (cursor_new wire_settings), w')) /\
       serving w' s' 0 [] /\ agenda_of w' = MkAgenda [12%Z] [] 11 /\
       pending s' = bs "next" /\ written s' = written s ++ out /\
       exchange_out (fun _ => bs "unknown") 2 before (bs "sCOPY" ++ x0a :: bs ";")
         [Refuses (unknown_file (bs "g"))] out).
Proof.
  intros s w before.
  destruct (refused_upload_reported thirty_two ltac:(intros i; apply Nat.lt_0_succ) dropping ticks wire_begin 300 wire_settings (fun _ => bs "unknown") (in_memory 300 thirty_two sample_files)
    chunks_of 2 ltac:(lia) ltac:(vm_compute; lia)
    (fun name chunks p u => in_memory_writes 300 thirty_two sample_files name chunks p u)
    refused_of 10 (cursor_new wire_settings) w s 0 [] (bs "COPY") [] (Exhausted [])) as (wire & Hm & Hrun).
  - exact dropping_undisturbed.
  - lia.
  - intros name e p u. apply in_memory_refuses.
  - reflexivity.
  - apply wire_world_serving; [apply queued_new|repeat constructor..].
  - exists wire. split; [exact Hm|]. intros Hf.
    apply (Hrun (empties 2) (repeat [] 2) refused_wire [Refuses (unknown_file (bs "g"))] failed_reply tt (bs "next")
      (ReplyError (MkBuf failed_reply 10)) (unknown_file (bs "g")) [] (Exhausted [])).
    + apply replied_empties.
    + reflexivity.
    + apply empties_short.
    + reflexivity.
    + apply refused_conversation.
    + reflexivity.
    + reflexivity.
    + reflexivity.
    + split; [repeat constructor|]. split; [repeat constructor|]. split; vm_compute; lia.
    + reflexivity.
    + exact Hf.
    + simpl. lia.
Defined.
