(* ===== verification/Session.v ===== *)
(** * Methods of the connection (src/conn.rs)

    What a [Connection] offers on top of [run_locked]: the capabilities of the
    session, the autocommit mode, and the metadata of the server, which is read
    through a cursor on first use and kept in the session state. *)

From Stdlib Require Import ZArith Lia.
From stdpp Require Import gmap.
From S2P Require Import Prelude Bytes Blockstate IO Writing Reading Decimal Errors.
From S2P Require Import MonetTypes ReplyBuf RowSet Replies Convert Delayed Validate ServerSock Login.
From S2P Require Import Upload Conn ConnInvariant Sharing Cursor Exchange.

Open Scope Z_scope.

Record ServerInfo := MkInfo {
  i_endian : Endian;
  i_binary_level : Z;
  i_autocommit : bool;
  i_reply_size : Z;
  i_time_zone_seconds : Z
}.

(** Whether the response is exactly the requested notification, on one line. *)
Definition autocommit_confirmed (response : bytes) (enabled : bool) : bool :=
  let line := trim_ascii response in
  negb (bool_decide (x0a ∈ line)) && bool_decide (parse_autocommit_line line = Some enabled).

Definition autocommit_command (enabled : bool) : bytes :=
  bs "Xauto_commit " ++ print_int (if enabled then 1 else 0).

Definition set_state_autocommit (b : bool) (state : ServerState) : ServerState :=
  MkState b (s_reply_size state) (s_time_zone_seconds state) (s_sql_metadata state)
    (s_prehash_algo state) (s_server_endian state) (s_binary_level state)
    (s_max_response_size state).

Definition set_state_metadata (md : InnerServerMetadata) (state : ServerState) : ServerState :=
  MkState (s_autocommit state) (s_reply_size state) (s_time_zone_seconds state) (Some md)
    (s_prehash_algo state) (s_server_endian state) (s_binary_level state)
    (s_max_response_size state).

(** What a response to [Xauto_commit] means: the new mode, and the error to report. *)
Definition autocommit_outcome (response : bytes) (enabled current : bool)
    : bool * option CursorError :=
  if negb (is_empty response) && negb (autocommit_confirmed response enabled) then
    match server_error response with
    | Some error => (default enabled (response_autocommit response), Some (Server error))
    | None => (current, Some (BadReplyErr (UnexpectedHeader response)))
    end
  else (enabled, None).

(** The three numbers of [monet_version]. *)
Definition version_part (parts : list bytes) : res CursorError (Z * list bytes) :=
  match parts with
  | [] => Err (Metadata "'monet_version' does not have 3 components")
  | s :: rest =>
      match parse_int u16 s with
      | Some v => Ok (v, rest)
      | None => Err (Metadata "invalid int component in 'monet_version'")
      end
  end.

Definition parse_version (v : bytes) : res CursorError (Z * Z * Z) :=
  let? (major, parts) := version_part (split_on x2e v) in
  let? (minor, parts) := version_part parts in
  let? (patch, parts) := version_part parts in
  match parts with
  | [] => Ok (major, minor, patch)
  | _ :: _ => Err (Metadata "'monet_version' has more than 3 components")
  end.

Definition environment_query : bytes := bs "SELECT name, value FROM sys.environment".

(** [ServerMetadata]'s methods. *)
Definition env (md : InnerServerMetadata) (key : bytes) : option bytes := environment md !! key.
Definition metadata_version (md : InnerServerMetadata) : Z * Z * Z := version md.
Definition password_prehash_algo (md : InnerServerMetadata) : bytes := md_prehash_algo md.

Section Connection.
Context {S : Type} `{!Read S} `{!Write S} `{!BstrLines}.
Context (others : nat -> list action) (clock : nat -> Z) (fits : Z -> bool).
Context (begin_operation : Timeouts -> Z -> S -> option S).
Context (fuel : nat) (sizes : nat -> nat) (settings : Settings).
Context (to_string : CursorError -> bytes).

Notation wcomp := (comp (World S) CursorError).
Notation ccomp := (comp (Cursor * World S) CursorError).
Notation body := (comp (ServerState * DelayedCommands * S) CursorError).
Notation operation t f := (run_locked_with_timeouts others clock fits begin_operation t f).

Definition cursor : Cursor := cursor_new settings.

(** A look at, or a change of, the session state without communication. *)
Definition peek_state {A} (m : ServerState -> A) : body A :=
  fun '(state, delayed, sock) => (Ok (m state), (state, delayed, sock)).
Definition change_state (m : ServerState -> ServerState) : body unit :=
  fun '(state, delayed, sock) => (Ok tt, (m state, delayed, sock)).

Definition server_info : wcomp ServerInfo :=
  operation (c_timeouts settings) (peek_state (fun state =>
    MkInfo (s_server_endian state) (s_binary_level state) (s_autocommit state)
      (s_reply_size state) (s_time_zone_seconds state))).

(** The exchange of [set_autocommit], with the error to report. *)
Definition autocommit_exchange (enabled : bool) : body (option CursorError) :=
  do? current := peek_state s_autocommit in
  if eqb current enabled then sret None
  else
    do? delayed_error := send_command fuel sizes settings [autocommit_command enabled] in
    do? response := read_response fuel sizes settings [] in
    let '(mode, error) := autocommit_outcome response enabled current in
    do! change_state (set_state_autocommit mode) in
    sret (match error with Some _ => error | None => Server <$> delayed_error end).

Definition set_autocommit_with_timeouts (enabled : bool) (timeouts : Timeouts) : wcomp unit :=
  do? response_error := operation timeouts (autocommit_exchange enabled) in
  match response_error with Some error => sfail error | None => sret tt end.

Definition set_autocommit (enabled : bool) : wcomp unit :=
  set_autocommit_with_timeouts enabled (c_timeouts settings).

Definition try_deallocate (statement_id : Z) : wcomp bool :=
  access (try_queue_deallocate statement_id).

(** *** Metadata *)

(** A block with a local cursor, which is dropped when the block is left. *)
Definition with_cursor {A} (cur : Cursor) (m : ccomp A) : wcomp A := fun w =>
  let '(r, s') := m (cur, w) in
  match cursor_drop others fuel s' with
  | (Ok _, (_, w')) | (Err _, (_, w')) => (r, w')
  | (Panic, (_, w')) => (Panic, w')
  | (NoFuel, (_, w')) => (NoFuel, w')
  end.

Notation next_row_of :=
  (cursor_next_row others clock fits begin_operation fuel sizes settings).

(** [while cursor.next_row()? { ... }]; [n] bounds the rounds. *)
Fixpoint collect_environment (n : nat) (environment : gmap bytes bytes)
    : ccomp (gmap bytes bytes) :=
  match n with
  | O => fun s => (NoFuel, s)
  | Datatypes.S n' =>
      do? found := next_row_of in
      if found then
        do? name := view (cursor_get_str 0) in
        do? name := slift (ok_or name (Metadata "sys.environment.name is null")) in
        do? value := view (cursor_get_str 1) in
        collect_environment n' (<[name := default [] value]> environment)
      else sret environment
  end.

Definition ServerMetadata_new (timeouts : Timeouts) : wcomp InnerServerMetadata :=
  with_cursor (set_reply_size 1024 (set_timeouts timeouts cursor)) (
    do! execute others clock fits begin_operation fuel sizes settings to_string environment_query in
    do? environment := collect_environment fuel ∅ in
    do? v := slift (ok_or (environment !! bs "monet_version")
                      (Metadata "'monet_version' not found in environment")) in
    do? version := slift (parse_version v) in
    do? prehash_algo := on_world (operation (c_timeouts settings) (peek_state s_prehash_algo)) in
    sret (MkMetadata environment version prehash_algo)).

Definition metadata_with_timeouts (timeouts : Timeouts) : wcomp InnerServerMetadata :=
  do? inner := operation timeouts (peek_state s_sql_metadata) in
  match inner with
  | Some md => sret md
  | None =>
      do? new_metadata := ServerMetadata_new timeouts in
      do! operation timeouts (change_state (set_state_metadata new_metadata)) in
      sret new_metadata
  end.

Definition metadata : wcomp InnerServerMetadata := metadata_with_timeouts (c_timeouts settings).

End Connection.

(** ** The autocommit mode *)

(** The answers that confirm the requested mode: nothing, or one line that notifies
    it, white space around it aside. *)
Inductive confirms : bytes -> bool -> Prop :=
| confirms_empty b : confirms [] b
| confirms_notification before line after b :
    Forall (fun c => is_space c = true) before -> Forall (fun c => is_space c = true) after ->
    x0a ∉ line -> notification line b -> confirms (before ++ line ++ after) b.

(** A notification keeps its meaning when the white space at its end is removed. *)
Lemma notification_trim line b : notification line b ->
  notification (trim_ascii line) b /\ exists more, line = trim_ascii line ++ more.
Proof.
  intros Hn. pose proof Hn as [b' ws more Hne Hws Hm]. unfold trim_ascii.
  rewrite trim_start_id by (cbn; by intros ? [= <-]).
  assert (exists c, flag_text b' = [c] /\ is_space c = false) as (c & Hc & Hs) by (destruct b'; by eexists).
  replace (bs "&4" ++ ws ++ flag_text b' ++ more) with ((bs "&4" ++ ws) ++ c :: more)
    by (rewrite Hc, <- app_assoc; reflexivity).
  rewrite trim_end_keeps by done. destruct (trim_end_spec is_space more) as (post & E & Hp).
  split.
  - replace ((bs "&4" ++ ws) ++ c :: trim_end is_space more)
      with (bs "&4" ++ ws ++ flag_text b' ++ trim_end is_space more) by (rewrite Hc, <- app_assoc; reflexivity).
    constructor; [done|done|]. intros x Hx. apply Hm. rewrite E. revert Hx. by destruct (trim_end is_space more).
  - exists post. rewrite E at 1. by rewrite <- !app_assoc.
Qed.

Lemma autocommit_confirmed_iff p b :
  p = [] \/ autocommit_confirmed p b = true <-> confirms p b.
Proof.
  unfold autocommit_confirmed. split.
  - intros [->|H]; [constructor|]. apply andb_true_iff in H as [Hl Hn].
    apply negb_true_iff, bool_decide_eq_false in Hl. apply bool_decide_eq_true, parse_autocommit_line_iff in Hn.
    destruct (trim_start_spec is_space p) as (pre & Ep & Hpre).
    destruct (trim_end_spec is_space (trim_start is_space p)) as (post & Et & Hpost).
    rewrite Ep, Et. by apply confirms_notification.
  - intros [b'|before line after b' Hb Ha Hl Hn]; [by left|]. right.
    assert (trim_ascii (before ++ line ++ after) = trim_ascii line) as ->.
    { unfold trim_ascii. rewrite trim_start_class by done.
      assert (forall l, trim_start is_space (line ++ l) = line ++ l) as Hid
        by (intros l; apply trim_start_id; destruct Hn; cbn; by intros ? [= <-]).
      rewrite Hid, trim_end_class by done. f_equal. rewrite <- (app_nil_r line). by rewrite Hid. }
    destruct (notification_trim line b' Hn) as [Hn' (more & E)].
    apply andb_true_iff. split.
    + apply negb_true_iff, bool_decide_eq_false. intros Hin. apply Hl. rewrite E. set_solver.
    + by apply bool_decide_eq_true, parse_autocommit_line_iff.
Qed.

(** The mode that a response with an error names: that of its last notification,
    or else the requested one. *)
Inductive names_mode : list bytes -> bool -> bool -> Prop :=
| names_none ls enabled :
    Forall (fun l => forall b, ~ notification l b) ls -> names_mode ls enabled enabled
| names_last before line after b enabled :
    notification line b -> Forall (fun l => forall b, ~ notification l b) after ->
    names_mode (before ++ line :: after) enabled b.

Lemma names_mode_ok text ls enabled b :
  text_lines text ls -> names_mode ls enabled b -> default enabled (response_autocommit text) = b.
Proof.
  intros Ht Hm. revert Ht. destruct Hm as [ls' enabled' Hn|before line after b' enabled' Hn Ha]; intros Ht.
  - by rewrite (response_autocommit_none text ls').
  - by rewrite (response_autocommit_last text (before ++ line :: after) before line after b').
Qed.

Section Autocommit.
Context {S : Type} `{DuplexLaws S} (sizes : nat -> nat) (Hsizes : forall i, (0 < sizes i)%nat).
Context (others : nat -> list action) (clock : nat -> Z) (begin_operation : Timeouts -> Z -> S -> option S).
Context (fuel : nat) (settings : Settings).
Notation limit := (c_max_response_size settings).
Notation always := (fun _ : Z => true).
Notation state_of w := (l_state (locked (conn w))).
Notation notes_of w := (responses (l_delayed (locked (conn w)))).
Notation set_autocommit_with_timeouts :=
  (set_autocommit_with_timeouts others clock always begin_operation fuel sizes settings).

(** The error that the caller of [set_autocommit] is told. *)
Definition reported (error : option CursorError) (failure : option ServerError) : option CursorError :=
  match error with Some _ => error | None => Server <$> failure end.

Lemma autocommit_exchange_ok enabled dc n ps st :
  queued dc n ps -> s_autocommit st = negb enabled ->
  exists wire, messages wire (ps ++ [autocommit_command enabled]) /\
    forall s ws replies wr p rest, replied ws replies -> length replies = (n + length ps)%nat ->
      Forall (fun p => (length p <= limit)%nat) (p :: replies) -> Blockstate.message wr p ->
      reliable s -> wreliable s -> pending s = ws ++ wr ++ rest ->
      (effort s < fuel)%nat -> (wpatience s + length wire < fuel)%nat ->
      exists mb s',
        autocommit_exchange fuel sizes settings enabled (st, dc, s) =
          (Ok (reported (autocommit_outcome p enabled (negb enabled)).2
                 (first_failure (responses dc) replies)),
           (set_state_autocommit (autocommit_outcome p enabled (negb enabled)).1 st,
            MkDelayed mb [], s')) /\
        represents mb (MkSpecBuf [] []) /\ exchanged s s' wire rest.
Proof.
  intros Hq Hst.
  destruct (send_command_ok sizes Hsizes fuel settings st dc n ps [autocommit_command enabled] Hq)
    as (wire & Hms & _ & Hrun). cbn [concat] in Hms. rewrite app_nil_r in Hms.
  exists wire. split; [done|].
  intros s ws replies wr p rest Hrep Hlen [Hlp Hlim]%Forall_cons Hm Hr Hw Hp He Hf.
  destruct (Hrun s ws replies (wr ++ rest)) as (mb & s1 & E1 & Hmb & X1); [done..|].
  destruct (reply_exchanged sizes Hsizes fuel limit s1 wr p rest) as (s2 & E2 & X2);
    [destruct X1; done || lia..|done|done|by destruct X1|].
  destruct (autocommit_outcome p enabled (negb enabled)) as [mode error] eqn:Eo.
  exists mb, s2. split.
  { unfold autocommit_exchange, peek_state. unfold sbind at 1. rewrite Hst.
    replace (eqb (negb enabled) enabled) with false by by destruct enabled.
    unfold sbind at 1. rewrite E1. unfold sbind at 1, read_response, on_socket, io_lift.
    rewrite E2. cbn [fst snd res_map_err app]. rewrite Eo. reflexivity. }
  split; [done|]. rewrite <- (app_nil_r wire). by eapply exchanged_trans.
Qed.

(** C24: The cached autocommit mode follows the server: when the mode is to be
    changed, one [Xauto_commit] command is sent after the queued ones and the
    clean-up work that other threads hand over ([undisturbed]). When the server
    answers with nothing or with exactly the requested notification ([confirms]),
    the cached mode is the requested one, and the call succeeds unless a queued
    command failed, whose error is then reported. Any other answer is reported:
    without an error line as unexpected, which leaves the cached mode; with error
    lines as their error, and then the mode is the one that the last notification
    of the response names, or else the requested one. The stream stays in step in
    every case. *)
Theorem autocommit_follows_server enabled t w s n ps ws replies wr p rest :
  undisturbed others clock begin_operation t -> serving w s n ps -> s_autocommit (state_of w) = negb enabled ->
  replied ws replies -> length replies = (n + length (ps ++ cleanup_lines others w))%nat ->
  Forall (fun p => (length p <= limit)%nat) (p :: replies) -> Blockstate.message wr p ->
  pending s = ws ++ wr ++ rest -> (effort s < fuel)%nat ->
  exists wire, messages wire (ps ++ cleanup_lines others w ++ [autocommit_command enabled]) /\
    ((wpatience s + length wire < fuel)%nat ->
     exists r w' s', set_autocommit_with_timeouts enabled t w = (r, w') /\
       serving w' s' 0 [] /\ left_pending others w w' /\
       written s' = written s ++ wire /\ pending s' = rest /\
       (confirms p enabled -> s_autocommit (state_of w') = enabled /\
          r = match first_failure (notes_of w) replies with Some e => Err (Server e) | None => Ok tt end) /\
       (~ confirms p enabled -> forall ls messages mode,
          text_lines p ls -> error_lines ls messages -> names_mode ls enabled mode ->
          match messages with
          | [] => r = Err (BadReplyErr (UnexpectedHeader p)) /\ s_autocommit (state_of w') = negb enabled
          | _ :: _ => (exists e, r = Err (Server e) /\ reports messages e) /\ s_autocommit (state_of w') = mode
          end)).
Proof.
  intros Htame Hc Hst Hrep Hlen Hlim Hm Hp He.
  destruct (shared_operation_ok others clock begin_operation t w s n ps Htame Hc)
    as (dc & Hq & Hn & Hshared).
  destruct (autocommit_exchange_ok enabled dc n _ (state_of w) Hq Hst) as (wire & Hms & Hrun).
  exists wire. rewrite app_assoc. split; [done|]. intros Hf.
  set (outcome := autocommit_outcome p enabled (negb enabled)) in *.
  set (error := reported outcome.2 (first_failure (notes_of w) replies)).
  destruct (Hshared _ (autocommit_exchange fuel sizes settings enabled) error
    (set_state_autocommit outcome.1 (state_of w)) 0%nat [] (eq wire) rest)
    as (w' & s' & out & E & Hc' & Hleft & Hst' & <- & X).
  { intros s1 [Y1 Y2 Y3 Y4 Y5 Y6].
    destruct (Hrun s1 ws replies wr p rest) as (mb & s' & E & Hmb & X); try done; [congruence|lia..|].
    rewrite Hn in E. by exists (MkDelayed mb []), s', wire. }
  exists (match error with Some e => Err e | None => Ok tt end), w', s'.
  split; [unfold set_autocommit_with_timeouts, sbind; rewrite E; by destruct error|].
  split; [done|]. split; [done|]. split; [by destruct X|]. split; [by destruct X|]. rewrite Hst'. cbn [s_autocommit].
  unfold error, outcome, autocommit_outcome. split.
  - intros Hco. apply autocommit_confirmed_iff in Hco.
    assert (negb (is_empty p) && negb (autocommit_confirmed p enabled) = false) as ->
      by (destruct Hco as [-> | ->]; [done|apply andb_false_r]).
    split; [done|]. by destruct (first_failure _ _).
  - intros Hco ls messages mode Hls Herr Hmode. rewrite <- autocommit_confirmed_iff in Hco.
    assert (negb (is_empty p) && negb (autocommit_confirmed p enabled) = true) as ->.
    { apply andb_true_iff. rewrite !negb_true_iff, is_empty_false. split; [tauto|].
      apply not_true_iff_false. tauto. }
    pose proof (server_error_messages p ls messages Hls Herr) as Hse.
    destruct (server_error p) as [e|]; [|by subst messages].
    destruct Hse as [Hne Hse]. destruct messages; [done|]. split; [by exists e|].
    by apply (names_mode_ok p ls).
Qed.

End Autocommit.

(** *** Witness *)

Lemma autocommit_follows_server_witness :
  let s := MkWire (empties 2 ++ one_block (bs "&4 f") ++ bs "next") [] [Give 1] [Intr] in
  let w := wire_world s delayed_new in
  exists wire, messages wire [bs "Xclose 11" ++ [x0a]; bs "Xrelease 5" ++ [x0a]; bs "Xauto_commit 0"] /\
    ((wpatience s + length wire < 100)%nat ->
     exists r w' s', set_autocommit_with_timeouts dropping ticks (fun _ => true) wire_begin
         100 thirty_two wire_settings false short_timeouts w = (r, w') /\
       serving w' s' 0 [] /\ written s' = written s ++ wire /\ pending s' = bs "next" /\
       r = Ok tt /\ s_autocommit (l_state (locked (conn w'))) = false).
Proof.
  intros s w.
  destruct (autocommit_follows_server thirty_two ltac:(intros i; apply Nat.lt_0_succ) dropping ticks wire_begin 100 wire_settings false short_timeouts w s 0 [] (empties 2) (repeat [] 2) (one_block (bs "&4 f"))
    (bs "&4 f") (bs "next")) as (wire & Hm & Hrun).
  - exact dropping_undisturbed.
  - apply wire_world_serving; [apply queued_new|repeat constructor..].
  - reflexivity.
  - apply replied_empties.
  - reflexivity.
  - constructor; [simpl; lia|apply empties_short].
  - apply one_block_message. simpl. lia.
  - reflexivity.
  - vm_compute. lia.
  - exists wire. split; [exact Hm|]. intros Hf.
    destruct (Hrun Hf) as (r & w' & s' & E & Hc & _ & Hw & Hp & Hok & _). exists r, w', s'.
    destruct Hok as [Ha Hr].
    + apply (confirms_notification [] (bs "&4 f") [] false); [constructor|constructor|by apply (bool_decide_unpack _)|].
      apply (Notification false [x20] []); [done|by repeat constructor|done].
    + exact (conj E (conj Hc (conj Hw (conj Hp (conj Hr Ha))))).
Defined.
