(* ===== verification/Metadata.v ===== *)
(** * Loading the metadata of the server (src/conn.rs)

    [metadata] runs a query through a cursor of its own, reads all rows of its
    result, drops the cursor and keeps what it has found in the session state.
    This composes sending what is queued, executing, fetching and dropping, also
    while other threads hand over clean-up work. *)

From Stdlib Require Import ZArith Lia.
From stdpp Require Import gmap.
From S2P Require Import Prelude Bytes Blockstate IO Writing Reading Decimal Errors.
From S2P Require Import MonetTypes ReplyBuf RowSet Replies ReplyProgress Convert Delayed Validate.
From S2P Require Import ServerSock Login Upload Conn ConnInvariant Sharing Cursor Exchange Fetch Closing Execute Session.

Open Scope Z_scope.

#[local] Notation message := Blockstate.message.
Notation row := (list (option bytes)).

(** ** The environment *)

(** What a row of [sys.environment] adds. *)
Definition add_setting (environment : gmap bytes bytes) (r : row) : gmap bytes bytes :=
  match r with
  | Some name :: value :: _ => <[name := default [] value]> environment
  | _ => environment
  end.

(** A row with a name and perhaps a value, both texts. *)
Definition setting_row (r : row) : Prop :=
  exists name value, r = [Some name; value] /\ utf8_valid name = true /\
    forall v, value = Some v -> utf8_valid v = true.

Section Metadata.
Context {S : Type} `{DuplexLaws S} `{BstrLines} (sizes : nat -> nat) (Hsizes : forall i, (0 < sizes i)%nat).
Context (others : nat -> list action) (clock : nat -> Z) (begin_operation : Timeouts -> Z -> S -> option S).
Context (fuel : nat) (settings : Settings) (to_string : CursorError -> bytes).
Notation limit := (c_max_response_size settings).
Notation always := (fun _ : Z => true).
Notation state_of w := (l_state (locked (conn w))).
Notation notes_of w := (responses (l_delayed (locked (conn w)))).
Notation read_rows := (read_rows sizes others clock begin_operation fuel settings).
Notation collect_environment :=
  (collect_environment others clock always begin_operation fuel sizes settings).

(** A program that collects the settings sees the rows that a reader sees. *)
Lemma collect_of_rows n st rows st' environment :
  read_rows 2 n st = (Ok rows, st') -> Forall setting_row rows ->
  collect_environment n environment st = (Ok (fold_left add_setting rows environment), st').
Proof.
  revert st rows environment. induction n as [|n IH]; intros st rows environment; [done|].
  cbn [Fetch.read_rows Session.collect_environment]. unfold sbind at 1. intros E Hrows. unfold sbind at 1.
  destruct (cursor_next_row _ _ _ _ _ _ _ st) as [[found|e| |] st1]; try done.
  destruct found; [|unfold sret in *; by simplify_eq/=].
  apply sbind_ok in E as (r & st2 & Er & E). apply sbind_ok in E as (rest & st3 & Erest & E).
  unfold sret in E. injection E as <- <-. apply Forall_cons in Hrows as [(name & value & -> & Hname & Hvalue) Hrows].
  unfold view in Er. destruct st1 as [cur1 w1]. injection Er as Er <-.
  unfold current_row in Er. destruct (cursor_row_set cur1) as [rows1|e| |] eqn:Ers; try done.
  cbn [res_bind read_fields] in Er.
  destruct (get_field_raw rows1 0) as [v0|e| |] eqn:E0; try done. cbn [res_map_err res_bind] in Er.
  destruct (get_field_raw rows1 1) as [v1|e| |] eqn:E1; try done. cbn [res_map_err res_bind] in Er.
  injection Er as -> ->.
  assert (cursor_get_str 0 cur1 = Ok (Some name)) as Eg0.
  { unfold cursor_get_str. rewrite Ers. cbn [res_bind]. rewrite E0. cbn. unfold field_utf8. by rewrite Hname. }
  assert (cursor_get_str 1 cur1 = Ok value) as Eg1.
  { unfold cursor_get_str. rewrite Ers. cbn [res_bind]. rewrite E1. cbn. unfold field_utf8.
    destruct value as [v|]; [|done]. by rewrite (Hvalue v). }
  unfold sbind at 1, view at 1. rewrite Eg0. unfold sbind at 1, slift, ok_or.
  unfold sbind at 1, view at 1. rewrite Eg1. cbn [fold_left add_setting]. by apply IH.
Qed.

(** ** A statement without files *)

Notation command_body cmd := (
  do? delayed_error := send_command fuel sizes settings cmd in
  do? v := serve_loop fuel sizes settings to_string no_files DEFAULT_UPLOAD_CHUNK_SIZE_BYTES fuel
    (MkServed [] None None tt) in
  sret (v, delayed_error)).

Lemma plain_body_ok st dc n ps cmd :
  queued dc n ps ->
  exists wire, messages wire (ps ++ [concat cmd]) /\
    forall s ws replies wr p rest, replied ws replies -> length replies = (n + length ps)%nat ->
      Forall (fun p => (length p <= limit)%nat) (p :: replies) -> message wr p ->
      (forall i, ~ marker_at p i) ->
      reliable s -> wreliable s -> (effort s < fuel)%nat -> pending s = ws ++ wr ++ rest ->
      (wpatience s + length wire < fuel)%nat ->
      exists mb s', command_body cmd (st, dc, s) =
        (Ok (MkServed p None None tt, first_failure (responses dc) replies),
         (settled p st, MkDelayed mb [], s')) /\
        represents mb (MkSpecBuf [] []) /\ exchanged s s' wire rest.
Proof.
  intros Hq. destruct (send_command_ok sizes Hsizes fuel settings st dc n ps cmd Hq) as (wire & Hms & _ & Hrun).
  exists wire. split; [done|].
  intros s ws replies wr p rest Hrep Hlen [Hlp Hlim]%Forall_cons Hm Hno Hr Hw He Hp Hf.
  destruct (Hrun s ws replies (wr ++ rest)) as (mb & s1 & E1 & Hmb & X1); [done..|].
  destruct (reply_exchanged sizes Hsizes fuel limit s1 wr p rest) as (s2 & E2 & X2);
    [destruct X1; done || lia..|done|done|by destruct X1|].
  exists mb, s2. split.
  { unfold sbind at 1. rewrite E1. unfold sbind at 1.
    destruct fuel as [|f] eqn:Ef; [lia|]. cbn [serve_loop]. rewrite <- Ef in *.
    unfold sbind at 1, read_response, on_socket, io_lift. cbn [response]. rewrite E2. cbn [res_map_err app].
    rewrite (no_file_request p Hno). done. }
  split; [done|]. rewrite <- (app_nil_r wire). by eapply exchanged_trans.
Qed.

Notation execute := (execute others clock always begin_operation fuel sizes settings to_string).

Notation carried := (carried others).
Notation handed w := (cleanup_lines others w).

Lemma execute_ok cur w s n ps statements closes fin :
  undisturbed others clock begin_operation (cur_timeouts cur) ->
  exhaust fuel (cur_replies cur) = Ok (closes, fin) -> serving w s n ps ->
  let before := ps ++ carried (agenda_of w) closes in
  exists wire, messages wire (before ++ [bs "s" ++ statements ++ x0a :: bs ";"]) /\
    forall ws replies wr final rest q,
     replied ws replies -> length replies = (n + length before)%nat ->
     Forall (fun p => (length p <= limit)%nat) (final :: replies) ->
     first_failure (notes_of w) replies = None -> message wr final -> (forall i, ~ marker_at final i) ->
     server_error final = None -> parser_new final = Ok q ->
     (effort s < fuel)%nat -> pending s = ws ++ wr ++ rest -> (wpatience s + length wire < fuel)%nat ->
     exists w' s', execute statements (cur, w) = (Ok tt, (with_replies q cur, w')) /\
       serving w' s' 0 [] /\ agenda_of w' = agenda_executed others w closes /\
       state_of w' = settled final (state_of w) /\ exchanged s s' wire rest.
Proof.
  intros Htame Hex Hc before. pose proof Hc as (_ & _ & Hr & Hw).
  destruct (discarded_ok (A:=unit) others clock _ (proj1 Htame) fuel cur w s n ps closes fin Hc Hex) as (w1 & Hq1 & E1).
  pose proof (closing_handed _ _ _ _ _ _ _ Hq1) as Hh. destruct Hq1 as (Hc1 & G & Hl).
  destruct (shared_operation_ok others clock begin_operation _ w1 s n _ Htame Hc1) as (dc & Hq & Hn & Hshared).
  rewrite Hh in Hq.
  destruct (plain_body_ok (state_of w1) dc n _ [bs "s"; statements; x0a :: bs ";"] Hq) as (wire & Hms & Hrun).
  cbn [concat] in Hms. rewrite app_nil_r in Hms. exists wire. split; [done|].
  intros ws replies wr final rest q Hrep Hlen Hlim Hff Hm Hno Herr Hpq He Hp Hf.
  rewrite <- (grown_failure _ _ _ G) in Hff.
  destruct (Hshared _ (command_body [bs "s"; statements; x0a :: bs ";"])
    (MkServed final None None tt, None) (settled final (state_of w1)) 0%nat [] (eq wire) rest)
    as (w' & s' & ? & E & Hc' & Hleft & Hst & <- & X).
  { intros s1 [X1 X2 X3 X4 X5 X6].
    destruct (Hrun s1 ws replies wr final rest) as (mb & s' & E & Hmb & X); try done; [lia|congruence|lia|].
    rewrite Hn, Hff in E. by exists (MkDelayed mb []), s', wire. }
  exists w', s'. split; [|split; [done|split; [unfold agenda_executed; by rewrite <- (grown_agenda _ _ _ G Hl)|]]].
  - unfold Cursor.execute, execute_with_streaming_uploads_with_chunk_size. rewrite E1.
    unfold sbind at 1. unfold command_with_uploads. unfold sbind at 1, run_locked.
    cbn [cur_timeouts with_replies]. rewrite E.
    cbn [producer_error refused response]. unfold sret at 1. unfold install_response, detect_errors.
    unfold sbind at 1. rewrite Herr, Hpq. done.
  - destruct G as (_ & <- & _). done.
Qed.

(** ** Dropping the cursor *)

(** After the last row of a response with nothing behind its rows, what is left is
    the result to close. *)
Lemma last_result_exhausts id cols rs close n :
  in_window id cols (Some ([], close)) rs [] [] ->
  exhaust (Datatypes.S n) (Data rs) = Ok (option_list close, Exhausted []).
Proof.
  intros [_ _ _ _ _ Hwf (texts & tail & Ht & Hp & _ & Hcl & Hst) _ _ _].
  apply Forall2_nil_inv_l in Ht as ->. cbn in Hp.
  set (last := match stashed rs with Some st => st | None => row_set rs end).
  assert (wf_buf (rs_buf last) /\ peek (rs_buf last) = []) as [Hw Hn].
  { unfold last. destruct (stashed rs) as [st|]; [done|]. by subst tail. }
  destruct (finish_spec last Hw) as (b & Ef & _ & _ & (a & Ha) & _).
  rewrite Hn in Ha. symmetry in Ha. apply app_eq_nil in Ha as [_ Hb].
  cbn [exhaust into_next_reply]. fold last. rewrite Ef. cbn [res_bind].
  unfold parse. rewrite Hb. cbn. rewrite Hcl. destruct n, close; reflexivity.
Qed.

(** ** The theorem *)

Lemma read_rows_more m k st rows st' :
  (m <= k)%nat -> read_rows 2 m st = (Ok rows, st') -> read_rows 2 k st = (Ok rows, st').
Proof.
  revert k st rows. induction m as [|m IH]; intros k st rows Hk; [done|].
  destruct k as [|k]; [lia|]. cbn [Fetch.read_rows]. unfold sbind at 1. intros E. unfold sbind at 1.
  destruct (cursor_next_row _ _ _ _ _ _ _ st) as [[[]|e| |] st1]; try done.
  apply sbind_ok in E as (r & st2 & Er & E). apply sbind_ok in E as (more & st3 & Em & E).
  unfold sret in E. injection E as <- <-.
  unfold sbind at 1. rewrite Er. unfold sbind at 1. by rewrite (IH k _ more ltac:(lia) Em).
Qed.

Notation metadata_with_timeouts :=
  (metadata_with_timeouts others clock always begin_operation fuel sizes settings to_string).
Notation close_lines ids := (cleanup_line (bs "close") <$> ids).

(** The metadata that is kept is returned without communication. *)
Lemma metadata_kept t w s n ps md :
  undisturbed others clock begin_operation t ->
  serving w s n ps -> s_sql_metadata (state_of w) = Some md ->
  exists w' s', metadata_with_timeouts t w = (Ok md, w') /\
    serving w' s' n (ps ++ handed w) /\ left_pending others w w' /\
    state_of w' = state_of w /\ exchanged s s' [] (pending s).
Proof.
  intros Htame Hc Hmd.
  destruct (local_operation_ok others clock begin_operation t (peek_state s_sql_metadata) w s n ps
    (s_sql_metadata (state_of w)) (state_of w) Htame Hc) as (w' & s' & E & Hc' & Hl & Hst & _ & X); [done|].
  exists w', s'. split; [|done]. unfold Session.metadata_with_timeouts, sbind. by rewrite E, Hmd.
Qed.

(** What the server says about itself: the settings, with the version among them. *)
Definition describes (rows : list row) (prehash : bytes) (md : InnerServerMetadata) : Prop :=
  environment md = fold_left add_setting rows ∅ /\ md_prehash_algo md = prehash /\
  exists v, environment md !! bs "monet_version" = Some v /\ parse_version v = Ok (version md).

Notation new_metadata :=
  (ServerMetadata_new others clock always begin_operation fuel sizes settings to_string).

(** Reading the result of the query, up to the point where the cursor is dropped. *)
Lemma environment_read cur w s rs id window later wire requests rest close :
  undisturbed others clock begin_operation (cur_timeouts cur) ->
  cur_replies cur = Data rs -> cur_reply_size cur = 1024 -> cur_max_prefetch cur = c_max_prefetch settings ->
  serving w s 0 [] -> in_window id 2 (Some ([], close)) rs window later ->
  served others id 2 limit (c_max_prefetch settings) (agenda_of w) 1024
    (Replies.next_row rs + Z.of_nat (length window)) later wire requests ->
  size_ok 1024 (c_max_prefetch settings) -> 0 <= id < 2 ^ 64 -> Z.of_nat limit < 2 ^ 63 ->
  Forall setting_row (window ++ later) -> pending s = wire ++ rest -> enough fuel s requests ->
  (length (window ++ later) < fuel)%nat ->
  exists cur' w' s' out rs',
    collect_environment fuel ∅ (cur, w) = (Ok (fold_left add_setting (window ++ later) ∅), (cur', w')) /\
    cur_replies cur' = Data rs' /\ in_window id 2 (Some ([], close)) rs' [] [] /\
    serving w' s' 0 [] /\ later_agenda others w w' /\ state_of w' = state_of w /\
    messages out requests /\ exchanged s s' out rest.
Proof.
  intros Htame Hcur Hsize Hmax Hc Hin Hserved Hsz Hid Hll Hrows Hp Hen Hfuel.
  destruct (read_rows_all sizes Hsizes others clock begin_operation fuel settings Hll id 2 Hid ltac:(done)
    (Some ([], close)) _ _ _ _ _ _ _ Hserved cur w s rs window rest)
    as (cur' & w' & s' & out & E & (rs' & Hcur' & Hin') & Hrest); try done.
  apply (read_rows_more _ fuel) in E; [|lia]. apply (collect_of_rows _ _ _ _ ∅) in E; [|done].
  by exists cur', w', s', out, rs'.
Qed.

(** What is queued when the cursor has been dropped, [a] being the agenda after the
    last window: the clean-up work of the look at the session state, what others
    queue in the turn after it, and the result. *)
Definition dropped_lines (a : agenda) (close : option Z) : list bytes :=
  agenda_lines others a ++ requested others (ag_turn (agenda_next others a)) ++
  (cleanup_line (bs "close") <$> option_list close).

Definition dropped_agenda (a : agenda) : agenda := agenda_after 1 (agenda_next others a).

(** [ServerMetadata::new] from its query on. *)
Lemma new_metadata_ok t w s n ps ws replies wr final rs id window later wire requests rest close v ver :
  undisturbed others clock begin_operation t -> undisturbed others clock begin_operation (c_timeouts settings) ->
  serving w s n ps ->
  replied ws replies -> length replies = (n + length (ps ++ handed w))%nat ->
  Forall (fun p => (length p <= limit)%nat) (final :: replies) ->
  first_failure (notes_of w) replies = None ->
  message wr final -> (forall i, ~ marker_at final i) -> server_error final = None ->
  parser_new final = Ok (Data rs) -> in_window id 2 (Some ([], close)) rs window later ->
  served others id 2 limit (c_max_prefetch settings) (agenda_next others (agenda_of w)) 1024
    (Replies.next_row rs + Z.of_nat (length window)) later wire requests ->
  size_ok 1024 (c_max_prefetch settings) -> 0 <= id < 2 ^ 64 -> Z.of_nat limit < 2 ^ 63 ->
  Forall setting_row (window ++ later) ->
  fold_left add_setting (window ++ later) ∅ !! bs "monet_version" = Some v -> parse_version v = Ok ver ->
  pending s = ws ++ wr ++ wire ++ rest -> enough fuel s requests ->
  (length (window ++ later) < fuel)%nat ->
  exists sent, messages sent (ps ++ handed w ++ [bs "s" ++ environment_query ++ x0a :: bs ";"]) /\
    ((wpatience s + length sent < fuel)%nat ->
     exists w' s' out k,
       new_metadata t w = (Ok (MkMetadata (fold_left add_setting (window ++ later) ∅) ver
                                 (s_prehash_algo (state_of w))), w') /\
       (let a := Nat.iter k (agenda_next others) (agenda_next others (agenda_of w)) in
        serving w' s' 0 (dropped_lines a close) /\ agenda_of w' = dropped_agenda a) /\
       messages out requests /\ exchanged s s' (sent ++ out) rest).
Proof.
  intros Ht Hdefault Hc Hrep Hlen Hlim Hff Hm Hno Herr Hpar Hin Hserved Hsz Hid Hll Hrows Hv Hver Hp Hen Hfuel.
  set (cur := set_reply_size 1024 (set_timeouts t (cursor settings))).
  pose proof Hen as [Hfu _]. destruct fuel as [|[|f]] eqn:Ef; [lia..|]. rewrite <- Ef in *.
  destruct (execute_ok cur w s n ps environment_query [] (Exhausted []) (undisturbed_bounded _ _ _ t Ht)
    ltac:(by rewrite Ef) Hc) as (sent & Hms & Hrun).
  rewrite carried_nil, <- app_assoc in *. exists sent. split; [done|]. intros Hf.
  destruct (Hrun ws replies wr final (wire ++ rest) (Data rs)) as (w2 & s2 & E2 & Hc2 & Ha2 & Hst2 & X2);
    try done; [by destruct Hen as (_ & ? & _)|].
  assert (agenda_of w2 = agenda_next others (agenda_of w)) as Ha2' by (rewrite Ha2; by destruct w).
  rewrite <- Ha2' in *.
  destruct (environment_read (with_replies (Data rs) cur) w2 s2 rs id window later wire requests rest close)
    as (cur3 & w3 & s3 & out3 & rs3 & E3 & Hcur3 & Hin3 & Hc3 & [k Hk] & Hst3 & Hm3 & X3); try done;
    [by apply undisturbed_bounded|by destruct X2|by eapply enough_mono|].
  destruct (local_operation_ok others clock begin_operation (c_timeouts settings) (peek_state s_prehash_algo)
    w3 s3 0 [] (s_prehash_algo (state_of w3)) (state_of w3) Hdefault Hc3) as (w4 & s4 & E4 & Hc4 & Hl4 & _ & _ & X4); [done|].
  pose proof (last_result_exhausts _ _ _ _ f Hin3) as Hex. rewrite <- Hcur3 in Hex.
  destruct (cursor_dropped others clock t (proj1 Ht) (Datatypes.S f) cur3 w4 s4 0 _ _ _ ltac:(by rewrite Hcur3) Hc4 Hex)
    as (w5 & E5 & Hc5 & G5 & L5). rewrite <- Ef in E5. exists w5, s4, out3, k. split.
  { unfold ServerMetadata_new, with_cursor. fold cur. unfold sbind at 1. rewrite E2.
    unfold sbind at 1. rewrite E3. unfold sbind at 1, slift at 1. rewrite Hv. cbn [ok_or].
    unfold sbind at 1, slift at 1. rewrite Hver. unfold sbind at 1, on_world. rewrite E4. unfold sret.
    cbv beta iota. rewrite E5, Hst3, Hst2. done. }
  cbv zeta. rewrite <- Hk, (grown_agenda _ _ _ G5 L5). unfold dropped_lines, dropped_agenda. rewrite <- Hl4.
  split; [by split|].
  split; [done|]. rewrite <- (app_nil_r (sent ++ out3)).
  replace (pending s3) with rest in X4 by (by destruct X3).
  eapply exchanged_trans; [by eapply exchanged_trans|done].
Qed.

(** C25: The metadata of the server is loaded once. On first use, whatever
    commands are queued and whatever clean-up work other threads hand over
    ([undisturbed]), [metadata] sends them and the query of [sys.environment], reads the
    result in as many windows as it takes, and returns the settings that its rows
    say, the last one for each name, with the version among them; the cursor it
    used is dropped, so that the result, when the server keeps it, is queued to be
    closed, with nothing else but the clean-up work that other threads asked for
    since, and the stream is behind the last window. From then on [metadata]
    returns the same without communication. *)
Theorem metadata_loaded t w s n ps ws replies wr final rs id window later wire requests rest close v ver :
  undisturbed others clock begin_operation t -> undisturbed others clock begin_operation (c_timeouts settings) ->
  serving w s n ps -> s_sql_metadata (state_of w) = None ->
  let cleanup := agenda_lines others (agenda_of w) ++ agenda_lines others (agenda_next others (agenda_of w)) in
  let agenda0 := agenda_next others (agenda_next others (agenda_of w)) in
  replied ws replies -> length replies = (n + length (ps ++ cleanup))%nat ->
  Forall (fun p => (length p <= limit)%nat) (final :: replies) ->
  first_failure (notes_of w) replies = None ->
  message wr final -> (forall i, ~ marker_at final i) -> server_error final = None ->
  parser_new final = Ok (Data rs) -> in_window id 2 (Some ([], close)) rs window later ->
  served others id 2 limit (c_max_prefetch settings) agenda0 1024
    (Replies.next_row rs + Z.of_nat (length window)) later wire requests ->
  size_ok 1024 (c_max_prefetch settings) -> 0 <= id < 2 ^ 64 -> Z.of_nat limit < 2 ^ 63 ->
  Forall setting_row (window ++ later) ->
  fold_left add_setting (window ++ later) ∅ !! bs "monet_version" = Some v -> parse_version v = Ok ver ->
  pending s = ws ++ wr ++ wire ++ rest -> enough fuel s requests ->
  (length (window ++ later) < fuel)%nat ->
  exists sent, messages sent (ps ++ cleanup ++ [bs "s" ++ environment_query ++ x0a :: bs ";"]) /\
    ((wpatience s + length sent < fuel)%nat ->
     exists md w' s' out k,
       let a := Nat.iter k (agenda_next others) agenda0 in
       let queue := dropped_lines a close ++ agenda_lines others (dropped_agenda a) in
       metadata_with_timeouts t w = (Ok md, w') /\
       describes (window ++ later) (s_prehash_algo (state_of w)) md /\
       serving w' s' 0 queue /\ agenda_of w' = agenda_next others (dropped_agenda a) /\
       messages out (ps ++ cleanup ++ [bs "s" ++ environment_query ++ x0a :: bs ";"] ++ requests) /\
       written s' = written s ++ out /\ pending s' = rest /\
       forall t2, undisturbed others clock begin_operation t2 -> exists w2 s2, metadata_with_timeouts t2 w' = (Ok md, w2) /\
         serving w2 s2 0 (queue ++ agenda_lines others (agenda_of w')) /\
         written s2 = written s' /\ pending s2 = rest).
Proof.
  intros Ht Hdefault Hc Hnone cleanup agenda0 Hrep Hlen Hlim Hff Hm Hno Herr Hpar Hin Hserved Hsz Hid Hll Hrows Hv Hver Hp Hen Hfuel.
  destruct (local_operation_ok others clock begin_operation t (peek_state s_sql_metadata) w s n ps
    (s_sql_metadata (state_of w)) (state_of w) Ht Hc) as (w1 & s1 & E1 & Hc1 & Hl1 & Hst1 & Hn1 & X1); [done|].
  unfold left_pending in Hl1.
  assert (cleanup = cleanup_lines others w ++ cleanup_lines others w1) as Hcl by (unfold cleanup_lines; by rewrite Hl1).
  assert (agenda0 = agenda_next others (agenda_of w1)) as Ha1 by (by rewrite Hl1).
  clearbody cleanup agenda0. subst cleanup agenda0.
  destruct (new_metadata_ok t w1 s1 n (ps ++ cleanup_lines others w) ws replies wr final rs id window later wire requests rest close v ver) as (sent & Hms & Hrun); try done;
    [by rewrite <- app_assoc|by rewrite Hn1|destruct X1; congruence|by eapply enough_mono|].
  rewrite <- app_assoc, (app_assoc (cleanup_lines _ w)) in Hms.
  exists sent. split; [done|]. intros Hf.
  destruct Hrun as (w2 & s2 & out & k & E2 & [Hc2 Ha2] & Hm2 & X2); [destruct X1; lia|].
  rewrite Hst1 in E2. set (md := MkMetadata _ _ _) in E2.
  set (a := Nat.iter k _ _) in Hc2, Ha2.
  destruct (local_operation_ok others clock begin_operation t (change_state (set_state_metadata md)) w2 s2 0 _
    tt (set_state_metadata md (state_of w2)) Ht Hc2) as (w3 & s3 & E3 & Hc3 & Hl3 & Hst3 & _ & X3); [done|].
  unfold left_pending in Hl3. unfold cleanup_lines in Hc3. rewrite Ha2 in Hc3, Hl3.
  replace (pending s2) with rest in X3 by (by destruct X2).
  pose proof (exchanged_trans _ _ _ _ _ _ _ X1 (exchanged_trans _ _ _ _ _ _ _ X2 X3)) as X.
  cbn [app] in X. rewrite app_nil_r in X.
  exists md, w3, s3, (sent ++ out), k. fold a. cbv zeta. split.
  { unfold Session.metadata_with_timeouts, sbind at 1. rewrite E1, Hnone.
    unfold sbind at 1. rewrite E2. unfold sbind at 1. by rewrite E3. }
  split; [split; [done|split; [done|by exists v]]|]. split; [done|]. split; [done|].
  split; [rewrite (app_assoc (_ ++ _)), (app_assoc ps); by apply messages_app|].
  split; [by destruct X|]. split; [by destruct X|]. intros t2 Ht2.
  destruct (metadata_kept t2 w3 s3 0 _ md Ht2 Hc3 ltac:(by rewrite Hst3)) as (w4 & s4 & E4 & Hc4 & _ & _ & X4).
  exists w4, s4. split; [done|]. split; [done|]. destruct X4 as [Y1 Y2 _ _ _ _]. rewrite app_nil_r in Y1.
  split; [congruence|]. destruct X; congruence.
Qed.

End Metadata.

(** *** Witness *)

#[local] Instance sample_lines : BstrLines := fun l => [l].

Definition environment_reply : bytes :=
  bs "&1 3 2 2 1" ++ [x0a] ++ bs "% sys.e,	sys.e # table_name" ++ [x0a] ++ bs "% name,	value # name" ++ [x0a] ++
  bs "% clob,	clob # type" ++ [x0a] ++ bs "% 9,	9 # length" ++ [x0a] ++ bs "% 0 0,	0 0 # typesizes" ++ [x0a] ++
  row_text [bs "monet_version"; bs "11.50.1"].

Definition environment_result : ResultSet :=
  match parser_new environment_reply with Ok (Data rs) => rs | _ => sample_result end.

Definition version_row : row := [Some (bs "monet_version"); Some (bs "11.50.1")].
Definition name_row : row := [Some (bs "gdk_dbname"); None].

Definition name_window : bytes := window_text 3 2 1 1 [[bs "gdk_dbname"; bs "NULL"]].

Lemma name_served :
  served dropping 3 2 1000 None (MkAgenda [] [] 22) 1024 1 [name_row] (one_block name_window ++ []) [export_command 3 1 1].
Proof.
  apply (served_window dropping 3 2 1000 None (MkAgenda [] [] 22) 1024 1 1 [name_row]
    [[bs "gdk_dbname"; bs "NULL"]] [] [] [] (one_block name_window) [] []); try done.
  - constructor; [|constructor]. split; [|done].
    constructor; [apply text_plain; [cbn; set_solver|done..]|]. constructor; [constructor|constructor].
  - constructor.
  - apply one_block_message. vm_compute. lia.
  - vm_compute. lia.
  - constructor.
Qed.

(** Nothing is asked for after turn 8. *)
Lemma dropping_over ask k n :
  (forall now, ask (Look now) = []) -> (9 <= k)%nat -> asked dropping ask k n = [].
Proof.
  intros Hask. revert k. induction n as [|n IH]; intros k Hk; [done|].
  rewrite <- asked_cons, IH by lia. unfold asked, dropping. cbn. rewrite Hask.
  do 9 (destruct k as [|k]; [lia|]). done.
Qed.

Lemma dropping_requested k : (9 <= k)%nat -> requested dropping k = [].
Proof. intros Hk. do 9 (destruct k as [|k]; [lia|]). done. Qed.

Lemma dropped_quietly k :
  let a := Nat.iter k (agenda_next dropping) (MkAgenda [] [] 22) in
  dropped_lines dropping a (Some 3) ++ agenda_lines dropping (dropped_agenda dropping a) =
    [bs "Xclose 3" ++ [x0a]].
Proof.
  intros a. assert (a = MkAgenda [] [] (22 + 11 * k)) as ->.
  { unfold a. clear a. induction k as [|k IH]; [done|]. rewrite Nat.iter_succ, IH.
    unfold agenda_next. cbn [ag_turn]. rewrite !dropping_over by (done || lia). f_equal. lia. }
  unfold dropped_lines, dropped_agenda, agenda_lines, agenda_after, agenda_next.
  cbn [ag_turn ag_closes ag_releases]. rewrite !dropping_over, dropping_requested by (done || lia). done.
Qed.

Lemma metadata_loaded_witness :
  let s := MkWire (empties 3 ++ one_block environment_reply ++ one_block name_window ++ bs "next")
    [] [Give 7; Intr] [Intr] in
  let w := wire_world s delayed_new in
  let before := [bs "Xclose 11" ++ [x0a]; bs "Xrelease 5" ++ [x0a]; bs "Xclose 12" ++ [x0a];
    bs "s" ++ environment_query ++ x0a :: bs ";"] in
  exists sent, messages sent before /\
    ((wpatience s + length sent < 500)%nat ->
     exists md w' s' out,
       metadata_with_timeouts dropping ticks (fun _ => true) wire_begin 500 thirty_two wire_settings
         (fun _ => bs "error") short_timeouts w = (Ok md, w') /\
       describes [version_row; name_row] (s_prehash_algo sample_state) md /\
       serving w' s' 0 [bs "Xclose 3" ++ [x0a]] /\
       messages out (before ++ [export_command 3 1 1]) /\
       written s' = written s ++ out /\ pending s' = bs "next").
Proof.
  intros s w before.
  destruct (metadata_loaded thirty_two ltac:(intros i; apply Nat.lt_0_succ) dropping ticks wire_begin 500 wire_settings (fun _ => bs "error") short_timeouts w s 0%nat [] (empties 3) (repeat [] 3)
    (one_block environment_reply) environment_reply environment_result 3 [version_row] [name_row]
    (one_block name_window ++ []) [export_command 3 1 1] (bs "next") (Some 3) (bs "11.50.1") (11, 50, 1))
    as (sent & Hms & Hrun).
  - exact dropping_undisturbed.
  - exact dropping_undisturbed.
  - apply wire_world_serving; [apply queued_new|repeat constructor..].
  - reflexivity.
  - apply replied_empties.
  - reflexivity.
  - apply Forall_cons. split; [vm_compute; lia|apply empties_short].
  - reflexivity.
  - apply one_block_message. vm_compute. lia.
  - apply no_marker. vm_compute. set_solver.
  - vm_compute. reflexivity.
  - vm_compute. reflexivity.
  - split; try (vm_compute; done); [split; [vm_compute; lia|vm_compute; done]|].
    exists [[bs "monet_version"; bs "11.50.1"]], []. split; [|by vm_compute].
    constructor; [|constructor]. split; [|done].
    constructor; [apply text_plain; [cbn; set_solver|done..]|].
    constructor; [apply text_plain; [cbn; set_solver|done..]|constructor].
  - apply name_served.
  - split; [vm_compute; done|]. done.
  - lia.
  - vm_compute. done.
  - repeat constructor.
    + exists (bs "monet_version"), (Some (bs "11.50.1")). split_and!; try done. by intros v [= <-].
    + by exists (bs "gdk_dbname"), None.
  - vm_compute. reflexivity.
  - vm_compute. reflexivity.
  - vm_compute. reflexivity.
  - split; [lia|]. split; vm_compute; lia.
  - vm_compute. lia.
  - exists sent. split; [exact Hms|]. intros Hf.
    destruct (Hrun Hf) as (md & w' & s' & out & k & E & Hd & Hc & _ & Ho & Hw & Hp & _).
    exists md, w', s', out. split; [exact E|]. split; [exact Hd|].
    split; [|exact (conj Ho (conj Hw Hp))]. exact (eq_ind _ (serving w' s' 0) Hc _ (dropped_quietly k)).
Defined.
