(* ===== verification/Stack.v ===== *)
(** * The whole stack: commands over a buffered socket

    The cursors are verified over any stream that keeps the laws of [IO] and takes
    the timeouts of an operation ([keeps_stream]).  Here the stream is the
    [ServerSock] of src/framing/mod.rs over a socket of the operating system: its
    [start_operation] is shown to be such a way of taking timeouts, and a command is
    followed from the cursor down to the bytes on that socket. *)

From Stdlib Require Import ZArith Lia.
From S2P Require Import Prelude Bytes Blockstate IO Writing Reading Decimal Errors.
From S2P Require Import MonetTypes ReplyBuf RowSet Replies Convert Delayed Validate ServerSock Login.
From S2P Require Import Upload Conn ConnInvariant Sharing Cursor Exchange.

Open Scope Z_scope.

#[local] Notation message := Blockstate.message.

(** ** Starting an operation *)

Section Begin.
Context {S : Type} `{SockDuplexLaws S} (instants : nat -> Z) (fits : Z -> bool).

Lemma started_wf {E} (m : comp SocketControl E unit) (s : ServerSock S) :
  wf_sock s -> wf_sock (with_timeouts m s).2.
Proof. unfold with_timeouts. by destruct (m (control s)). Qed.

(** [start_operation] on a socket whose buffer is in order; a panic is [None]. *)
Definition begin_sock (t : Timeouts) (now : Z) (s : sock S instants) : option (sock S instants) :=
  match @sock_start_operation S io_error fits now t (proj1_sig s) as out return wf_sock out.2 -> _ with
  | (Ok _, s') => fun Hwf => Some (exist _ s' Hwf)
  | _ => fun _ => None
  end (started_wf _ _ (proj2_sig s)).

(** The socket looks at its clock before the deadline of an operation that starts at
    [now], a deadline that the clock can represent. *)
Definition timely (t : Timeouts) (now : Z) : Prop :=
  forall d, t_operation (bounded t) = Some d ->
    fits (now + d) = true /\ forall k, instants k < now + d <= instants k + MAX_TIMEOUT.

(** The timeouts that a started operation works with grant every limit. *)
Lemma started_granted t now active idle raw :
  timely t now -> @active_new io_error fits now (bounded t) = Ok active ->
  (idle = a_read \/ idle = a_write) -> granted instants idle (MkControl raw active).
Proof.
  intros Ht. unfold active_new. rewrite bounded_idempotent.
  destruct (t_operation (bounded t)) as [d|] eqn:Ed.
  - destruct (Ht d Ed) as [-> Hd]. intros [= <-] _. by eapply deadline_granted.
  - intros [= <-] Hidle. apply no_deadline_granted. split; [done|]. cbn [timeouts].
    destruct Hidle as [-> | ->]; cbn; intros i (j & _ & ->)%fmap_Some; lia.
Qed.

Lemma begin_sock_ok t now s :
  timely t now -> reliable s -> wreliable s ->
  exists s', begin_sock (bounded t) now s = Some s' /\ exchanged s s' [] (pending s).
Proof.
  intros Ht Hr Hw.
  assert (exists active, @active_new io_error fits now (bounded t) = Ok active) as [active Ea].
  { unfold active_new. rewrite bounded_idempotent. destruct (t_operation _) as [d|] eqn:Ed; [|eauto].
    destruct (Ht d Ed) as [-> _]. eauto. }
  pose proof (started_granted t now active a_read (raw_socket (control (proj1_sig s))) Ht Ea (or_introl eq_refl)) as Hgr.
  pose proof (started_granted t now active a_write (raw_socket (control (proj1_sig s))) Ht Ea (or_intror eq_refl)) as Hgw.
  unfold begin_sock. generalize (started_wf (@start_operation io_error fits now (bounded t)) _ (proj2_sig s)).
  assert (@sock_start_operation S io_error fits now (bounded t) (proj1_sig s) =
    (Ok tt, let s := proj1_sig s in
       MkSock (sock_inner s) (MkControl (raw_socket (control s)) active) (read_buffer s) (read_position s)
         (read_length s) (last_read_timeout s) (last_write_timeout s) (ServerSock.ticks s))) as E.
  { unfold sock_start_operation, with_timeouts, start_operation, sbind, slift. by rewrite Ea. }
  change (with_timeouts (start_operation fits now (bounded t)) (proj1_sig s)) with
    (@sock_start_operation S io_error fits now (bounded t) (proj1_sig s)).
  rewrite E. intros Hwf. eexists. split; [reflexivity|]. destruct Hr as [Hr _], Hw as [Hw _].
  split; try done; cbn.
  - by rewrite app_nil_r.
  - split; [done|]. cbn. by destruct (read_buffer _).
  - split; [done|]. cbn. by destruct (read_buffer _).
Qed.

Lemma begin_sock_keeps clock t :
  (forall k, timely t (clock k)) -> keeps_stream begin_sock clock t.
Proof. intros Ht k s. by apply begin_sock_ok. Qed.

End Begin.

(** ** A command over the socket *)

Section Command.
Context {S : Type} `{SockDuplexLaws S} (instants : nat -> Z) (fits : Z -> bool).
Context (sizes : nat -> nat) (Hsizes : forall i, (0 < sizes i)%nat).
Context (others : nat -> list action) (clock : nat -> Z) (fuel : nat) (settings : Settings).
Notation limit := (c_max_response_size settings).
Notation always := (fun _ : Z => true).
Notation notes_of w := (responses (l_delayed (locked (conn w)))).

(** C29: Commands work over the buffered socket of the program: over any socket of
    the operating system that keeps the contract of [io::Read] and [io::Write] and
    takes timeouts ([SockLaws], [SockDuplexLaws]), with the read buffer of
    [ServerSock] in any state, its timeouts set at every read and write, and each
    operation started by [start_operation], [command_raw] puts the queued messages,
    the clean-up work of other threads and its own message on that socket, skips one
    reply for each earlier one and returns its own, or the error of an earlier one;
    the bytes read ahead followed by those still in the socket are then exactly the
    ones behind the reply. The operation must end before its deadline
    ([tame], [timely]). *)
Theorem command_over_socket cur (w : World (sock S instants)) s n ps cmd ws replies wr p rest :
  tame others clock (cur_timeouts cur) -> (forall k, timely instants fits (cur_timeouts cur) (clock k)) ->
  serving w s n ps ->
  replied ws replies -> length replies = (n + length (ps ++ cleanup_lines others w))%nat ->
  Forall (fun p => (length p <= limit)%nat) (p :: replies) -> message wr p ->
  sock_pending (proj1_sig s) = ws ++ wr ++ rest ->
  (patience (sock_inner (proj1_sig s)) + length (sock_pending (proj1_sig s)) < fuel)%nat ->
  exists wire, messages wire (ps ++ cleanup_lines others w ++ [concat cmd]) /\
    ((wpatience (sock_inner (proj1_sig s)) + length wire < fuel)%nat ->
     exists w' s',
       command_raw others clock always (begin_sock instants fits) fuel sizes settings cmd (cur, w) =
       (match first_failure (notes_of w) replies with
        | Some error => Err (Server error)
        | None => Ok p
        end, (cur, w')) /\
       serving w' s' 0 [] /\
       written (sock_inner (proj1_sig s')) = written (sock_inner (proj1_sig s)) ++ wire /\
       sock_pending (proj1_sig s') = rest).
Proof.
  intros Htame Htimely Hc Hrep Hlen Hlim Hm Hp He.
  destruct (command_raw_shared sizes Hsizes others clock (begin_sock instants fits) fuel settings cur w s n ps cmd
    (conj Htame (begin_sock_keeps instants fits clock _ Htimely)) Hc) as (wire & Hms & _ & Hrun).
  exists wire. split; [done|]. intros Hf.
  destruct (Hrun ws replies wr p rest) as (w' & s' & E & Hc' & _ & _ & X); try done.
  exists w', s'. split; [exact E|]. split; [done|]. by destruct X.
Qed.

End Command.

(** *** Witness *)

#[export] Instance SockDuplexLaws_Wire : SockDuplexLaws Wire.
Proof. by split. Qed.

(** Two clocks that stop, and a thread that drops a cursor at turn 3. *)
Definition stopping (stop : Z) (k : nat) : Z := Z.min (Z.of_nat k) stop.

Definition one_drop (k : nat) : list action :=
  Look (stopping 2 k) :: (if (k =? 3)%nat then [QueueCloses [11]; Deallocate 5] else []).

Lemma one_drop_tame : tame one_drop (stopping 2) short_timeouts.
Proof.
  intros k e [->|He]%elem_of_cons.
  - intros d j Hd Hk. vm_compute in Hd. injection Hd as <-. unfold stopping. lia.
  - destruct (k =? 3)%nat; repeat (apply elem_of_cons in He as [->|He]; [done|]); by apply elem_of_nil in He.
Qed.

Lemma stopping_timely k : timely (stopping 3) (fun _ => true) short_timeouts (stopping 2 k).
Proof.
  intros d Hd. vm_compute in Hd. injection Hd as <-. split; [done|]. intros j.
  change MAX_TIMEOUT with (nanos MAX_TIMEOUT_SECONDS). unfold stopping.
  assert (nanos MAX_TIMEOUT_SECONDS = ltac:(let v := eval vm_compute in (nanos MAX_TIMEOUT_SECONDS) in exact v)) as -> by reflexivity.
  lia.
Qed.

Lemma READ_BUFFER_SIZE_holds : (5 <= READ_BUFFER_SIZE)%nat.
Proof. unfold READ_BUFFER_SIZE. lia. Qed.

#[local] Opaque READ_BUFFER_SIZE.

(** A socket that has read ahead: its buffer holds the first bytes of the replies. *)
Definition replies_wire : bytes := empties 3 ++ one_block (bs "&6 1") ++ bs "next".

Definition ahead : ServerSock Wire :=
  MkSock (MkWire (drop 5 replies_wire) [] [Give 0; Intr] [Intr])
    (control_new Tcp (for_connection short_timeouts None))
    (Some (take 5 replies_wire ++ repeat x00 (READ_BUFFER_SIZE - 5))) 0 5 None None 0.

Lemma ahead_wf : wf_sock ahead.
Proof.
  unfold wf_sock, ahead. cbn [read_buffer read_position read_length].
  rewrite length_app, repeat_length, length_take. pose proof READ_BUFFER_SIZE_holds.
  assert (length replies_wire = 16)%nat as -> by reflexivity. lia.
Qed.

Definition ahead_world : World (sock Wire (stopping 3)) :=
  MkWorld (conn_new (exist _ ahead ahead_wf) sample_state closing_seven) 0.

Lemma ahead_serving :
  serving ahead_world (exist _ ahead ahead_wf) 0 [bs "Xclose 7" ++ [x0a]].
Proof.
  split; [by repeat split|]. split; [apply closing_seven_queued|].
  split; (split; [repeat constructor|]); apply no_deadline_granted; (split; [done|]); intros i [=].
Qed.

Lemma ahead_pending : sock_pending ahead = replies_wire.
Proof.
  unfold sock_pending, ahead. cbn [read_buffer read_position read_length sock_inner].
  unfold slice. rewrite drop_0, Nat.sub_0_r, take_app_le by done. done.
Qed.

Lemma command_over_socket_witness :
  exists wire, messages wire [bs "Xclose 7" ++ [x0a]; bs "Xclose 11" ++ [x0a]; bs "Xrelease 5" ++ [x0a];
      bs "Xexport 1 2 3"] /\
    ((wpatience (sock_inner ahead) + length wire < 200)%nat ->
     exists w' s',
       command_raw one_drop (stopping 2) (fun _ => true) (begin_sock (stopping 3) (fun _ => true)) 200 thirty_two
         wire_settings [bs "Xexport 1 2 3"] (cursor_new wire_settings, ahead_world) =
       (Ok (bs "&6 1"), (cursor_new wire_settings, w')) /\
       serving w' s' 0 [] /\
       written (sock_inner (proj1_sig s')) = wire /\ sock_pending (proj1_sig s') = bs "next").
Proof.
  apply (command_over_socket (stopping 3) (fun _ => true) thirty_two ltac:(intros i; apply Nat.lt_0_succ)
    one_drop (stopping 2) 200 wire_settings (cursor_new wire_settings) ahead_world (exist _ ahead ahead_wf)
    0%nat [bs "Xclose 7" ++ [x0a]] [bs "Xexport 1 2 3"] (empties 3) (repeat [] 3) (one_block (bs "&6 1"))
    (bs "&6 1") (bs "next")).
  - exact one_drop_tame.
  - exact stopping_timely.
  - exact ahead_serving.
  - apply replied_empties.
  - reflexivity.
  - constructor; [simpl; lia|apply empties_short].
  - apply one_block_message. simpl. lia.
  - exact ahead_pending.
  - cbn [proj1_sig]. rewrite ahead_pending. vm_compute. lia.
Defined.
